(* ===== verification/_CoqProject ===== *)
-Q . S2P
Prelude.v
Ringbuffer.v
RingbufferSpsc.v
RelAcq.v
RingbufferRa.v
SpinRa.v
FixedBitSet.v
BHeap.v
NgxPool.v
Fifo.v
NgxQueue.v
CText.v
ConfigNode.v
ConfigParser.v
EventLoop.v
TcpConn.v
Synchronizer.v
AsyncMove.v
Executor.v
FString.v
Buffers.v
Shm.v
LockFree.v
NgxLog.v
NgxCore.v
Staging.v
Net.v
RtxTcp.v
SockOpts.v
Helpers.v
LogLine.v
FLog.v
Rdtsc.v
AssertMacro.v
ConfigFile.v
ConnRace.v
CloseRace.v
RefObject.v
Gateway.v
BizUser.v
LoopThread.v
FixedBuffer.v
HexDump.v
SyncRace.v
