(* ===== verification/Prelude.v ===== *)
(** * net_test: verification development

    net_test is a C++ library for network programs: containers and buffers
    (src/basic), a Unix event loop with its connections, memory pool, queues and
    log (src/core), configuration files (src/basic/config) and a task executor
    (src/threadpool), multicast sockets (src/network) and two programs that use
    the library (src/demo, src/example).  The files below model these parts as the code is written,
    defects included, and prove what each operation does.

    ** How code is modelled

    - A function of the code is a Rocq function with the code's name; its state
      is passed explicitly.  A run ends in [res] (below): a value, an exception,
      a named [fault] for undefined behaviour (a wild or null pointer, an index
      outside its array, memory used after it was freed), or [NoFuel].
    - [size_t], [unsigned] and [int] values are in [Z], with [wrap w] and
      [swrap w] where the code can wrap around; sizes and positions that the
      object's own bounds keep small are in [nat].
    - Loops that are not structural are [run_loop] with fuel.  Theorems on them
      either give enough fuel and prove that the result is reached, or show that
      no fuel is enough when the code does not terminate.
    - What the system or the user provides (allocators, sockets, callbacks, the
      contents of fresh memory, the name service, the order of a hash table) is
      an argument; [alloc_spec], [honest], [handler_ok] and similar predicates
      state what is assumed of it.
    - Pointers to objects that several owners share are keys of a store
      ([BHeap], [EventLoop], [Executor]); memory whose layout matters is a list
      of bytes ([TcpConn.rcvbuf], [NgxLog.logbuf], [FString], [Shm]).
    - Threads are step relations ([RingbufferSpsc], [LockFree], [LoopThread],
      [SyncRace], [ConnRace], [CloseRace], [RefObject]): every load, store or
      atomic instruction is one step, in any interleaving, with sequentially
      consistent memory.  [RelAcq] is what C++ says of relaxed, release and
      acquire operations and of data races; the ring buffer and the spin lock are
      also proved on it ([RingbufferRa], [SpinRa]).
    - What a program does with a component is proved against an interface:
      [HasWorld] gives a loop its place in a larger state, and [ends] is the
      postcondition that its handlers promise; [Fifo] is that of the queues.

    ** Files

    - Prelude: this header; [res], [ends], [run_loop], arrays, integers, regions
      of memory, sums, reachability; the tactics and the hint database [net].
    - Ringbuffer, RingbufferSpsc: basic/ringbuffer.hpp, alone and between two
      threads.  RelAcq: the C++ memory model; RingbufferRa: the ring buffer in
      it, with single and block operations of both threads; SpinRa:
      core/spinlock.h in it.  Fifo: the interface of bounded queues, its clients,
      and the ring buffer as an instance.
    - FixedBitSet: basic/fixed_bit_set.h.  BHeap: basic/bheap.h.
    - FString: basic/fstring.h.  Buffers: basic/dynamic_buffer.h, fbuffer.h,
      buffer.h and core/cycle_memory_block.h.  HexDump: the stream operator of
      fbuffer.h.  Shm: basic/fixed_shm.h.
    - LockFree: basic/lock_free_array.h and core/spinlock.h.
    - NgxPool: core/ngx_pool.  NgxQueue: core/ngx_buf, ngx_queue, ngx_list, all
      allocated from a pool; the queue is the second instance of Fifo.
    - CText, ConfigNode, ConfigParser: the C++ string conversions, then
      basic/config/config_parser.h and config_parser.cpp.
    - EventLoop: core/net_io, core/eventloop.cpp, eventloop_busy.cpp and
      ngx_acceptor: one store of connections, reference counts, timers, tasks.
    - TcpConn: core/tcp_conn, whose buffers come from NgxPool and NgxQueue and
      whose errors end connections of EventLoop.
    - ConnRace: the pool of a connection used by [send_msg] and [OnRead] at once.
      CloseRace: [terminate] by several threads.  RefObject: basic/object.h.
    - LogLine: the macros of basic/logging.h and core/log_def.h.  FLog:
      log/flogging.h.  AssertMacro: basic/assert_macro.h.  Rdtsc: basic/rdtsc.h.
    - NgxLog: core/ngx_log over NgxPool and NgxQueue.  NgxCore: core/ngx_core.
    - Synchronizer: threadpool/synchronizer.h and basic/async_result_syncer.h
      over [std::promise].  AsyncMove: objects of the latter and their moves.
      SyncRace: its calls between threads.  Executor: threadpool/executor.
    - Staging, FixedBuffer: basic/staging_buffer.h and fixed_buffer.h.
    - Net: network/common, the multicast reader and writer of network/io/bsd, and
      the addresses and socket flags of core/net_io.  RtxTcp: the TCP client of
      network/io/bsd.  SockOpts: the socket options of core/net_io.
    - Helpers: basic/repeat_filter_limit.h, allocator.h, raii.h, date_time.h,
      util/file_util.h and core/time.cpp.
    - ConfigFile: the documents, files and validator of config_parser.h, over
      ConfigParser.
    - LoopThread: core/eventthread.cpp and the loop thread of core/ngx_core.cpp,
      two threads each, over EventLoop.
    - Gateway: demo/main.cpp, the whole program over EventLoop and TcpConn: the
      clients' bytes arrive in the buffers of their connections, which one round
      hands to the next, and signals arrive before every read of [_running].
      BizUser: example/BizUser.cpp and Impl.cpp over NgxCore, EventLoop, TcpConn.

    ** What is proved

    - Refinement: the ring buffer, the pool queue and the lock-free array are
      list queues; two threads on the ring buffer deliver every element once and
      in order and never touch one slot together, and under the C++ memory model
      never race, whatever old values their loads return; the bytes on the wire of a
      connection followed by those still held are the accepted messages (a flush
      that finds the socket not ready sends one byte again); the
      executor runs every registered task once a round; the synchronizers are
      one-shot cells and mailboxes, also when their objects are moved; a fixed
      buffer is a tape.
    - Memory: allocations of a pool are aligned, inside the pool and disjoint
      for every sequence of requests and releases; every [bheap] operation keeps
      the heap order, the stored positions and the ownership of its contexts; a
      round of the event loop never uses a deleted connection, and neither does
      any run of the gateway, wherever signals interrupt it, which leaves at most
      one object behind; bytes that a client sends may overrun a receive buffer,
      and sixteen are enough, and a descriptor of 1024 or more overruns the
      [fd_set]; threads that hold
      references may end a connection or drop an object at once; records of the staging
      buffer are disjoint; a sender closes its own socket and no other, and
      leaks those that it opened over; guards release once.
    - Liveness: the ring buffer's consumer receives everything after four steps
      per element; stopping a loop that was found joins its thread.
    - Functional behaviour: searches of the bit set against a search over all
      bits; strings, buffers, logs and configuration access on every branch.
    - Round trips: INI and CONF texts, saving and loading files, fixed strings,
      mapped files, hex dumps, socket addresses, interface names, ticks.
    - Termination: which loops end; [process_timer] with a pending timer,
      [parse_url] with a host, the ring buffer's callbacks that transfer nothing,
      staging allocations that are too large and the wait of [ngx_core_uninit]
      do not.
    - Defects: where the code cannot do what it is for, the theorem says exactly
      what it does instead (queued messages never sent, received bytes written
      over a buffer's header, one block given to two threads, a task removed after
      it was freed, an option set at the wrong level, an argument list used
      twice, an array all of whose accepted sizes lose elements, and so on).

    ** Bounds

    The ring buffer is modelled for any power of two and index width, the array
    and the pool queue for any length.  Addresses are below [2^63] and blocks
    below [2^62] bytes so that sums do not wrap; the counters of the lock-free
    array are unbounded numbers.  [terminate] needs a fuel of 3, since a
    destructor that runs inside it finds the connection already unregistered.

    ** Not modelled

    The memory model of C++ but for the ring buffer and the spin lock; there,
    stores to one object take effect in the order of execution, and operations
    that are sequentially consistent or fences are not needed.  What a signal
    handler does besides stopping the loop (it is installed for SIGTERM only; it
    may print), and signals while a lock is held.  The mutexes of
    single objects, whose critical sections are single steps (except where two
    threads allocate from one pool); what [printf] and the formatting library do
    with the message of a log line (NgxLog takes the text, and the number of the
    arguments, since a second use of an argument list is undefined), and
    [strftime]; floating-point rounding, which is a parameter of Rdtsc; the Windows branches; the wrappers of single
    fence instructions and attributes (basic/memory_fence.h and most of
    optimization.h); third_party and the Python script.

    Some code has no behaviour to model because it does not compile, or not when
    it is used: basic/memory_pool.h, basic/scope.h, basic/config/config_parser.hpp,
    [read] and [write] of network/io/bsd/rtx_bsd_tcp.cpp,
    [FixedBuffer::shrink_to_fit], the untimed wait, [wait_until] and the copy
    assignment of the asynchronous results, the executor's destructor and
    the member [swap] of the fixed strings. *)

From stdpp Require Export base tactics numbers option list gmap strings relations.
From Stdlib Require Export ZArith Lia ZifyNat.

(** [lia] sees through [/] and [mod]. *)
Ltac Zify.zify_post_hook ::= Z.div_mod_to_equations.

#[global] Arguments Nat.div : simpl never.
#[global] Arguments Nat.modulo : simpl never.

Declare Scope net_scope.
Delimit Scope net_scope with net.

(** ** Definitions *)

(** *** Machine integers

    An unsigned [w]-bit value is a [Z] in [[0, 2^w)]; [wrap w] is the
    conversion to that type (C++ [conv.integral]), [swrap w] the conversion to
    the signed type of the same width. *)

Definition wrap (w z : Z) : Z := z mod 2 ^ w.

Definition swrap (w z : Z) : Z :=
  let m := wrap w z in if (m <? 2 ^ (w - 1))%Z then m else (m - 2 ^ w)%Z.

(** *** Outcomes of C++ code

    A run either returns, throws, reaches undefined behaviour (which we name),
    or uses up the fuel given to one of its loops. *)

Inductive exn :=
| RuntimeError
| InvalidArgument
| OutOfRange
| BadVariantAccess
| FutureError
| BadFunctionCall.

Inductive fault :=
| OutOfBounds
| NullDeref
| UseAfterFree
| InvalidIterator
| DivByZero
| Uninitialised
| DataRace.

Inductive res (A : Type) :=
| Ok (a : A)
| Throw (e : exn)
| Fault (f : fault)
| NoFuel.
Arguments Ok {A} a.
Arguments Throw {A} e.
Arguments Fault {A} f.
Arguments NoFuel {A}.

#[export] Instance res_ret : MRet res := fun A a => Ok a.

#[global] Arguments mret {M _ A} / _ : assert.
#[global] Arguments res_ret {A} / a : assert.

#[export] Instance res_bind : MBind res := fun A B k m =>
  match m with
  | Ok a => k a
  | Throw e => Throw e
  | Fault f => Fault f
  | NoFuel => NoFuel
  end.

#[export] Instance exn_eq_dec : EqDecision exn.
Proof. solve_decision. Defined.

#[export] Instance fault_eq_dec : EqDecision fault.
Proof. solve_decision. Defined.

(** A lookup that the code performs without a check: out of range is
    undefined behaviour. *)
Definition deref {A} (f : fault) (o : option A) : res A :=
  match o with Some a => Ok a | None => Fault f end.

(** *** Loops

    A loop body maps a loop state to [inl] of the next state or to [inr] of the
    value the loop ends with; [run_loop] iterates it at most [fuel] times. *)

Fixpoint run_loop {S R} (fuel : nat) (body : S → res (S + R)) (s : S) : res R :=
  match fuel with
  | O => NoFuel
  | S fuel =>
      match body s with
      | Ok (inl s') => run_loop fuel body s'
      | Ok (inr r) => Ok r
      | Throw e => Throw e
      | Fault f => Fault f
      | NoFuel => NoFuel
      end
  end.

(** *** Arrays *)

(** [std::swap(l[i], l[j])]. *)
Definition list_swap {A} (i j : nat) (l : list A) : list A :=
  match l !! i, l !! j with
  | Some x, Some y => <[j := x]> (<[i := y]> l)
  | _, _ => l
  end.

(** [memcpy(dst + off, src, length src)] into an array of known size. *)
Definition memcpy {A} (dst : list A) (off : nat) (src : list A) : res (list A) :=
  if decide (off + length src ≤ length dst) then Ok (list_inserts off src dst)
  else Fault OutOfBounds.

(** Reading [n] elements at [off]. *)
Definition memread {A} (src : list A) (off n : nat) : res (list A) :=
  if decide (off + n ≤ length src) then Ok (take n (drop off src))
  else Fault OutOfBounds.

(** Every two elements at different places are related. *)
Fixpoint pairwise {A} (R : A → A → Prop) (l : list A) : Prop :=
  match l with
  | [] => True
  | x :: l => Forall (R x) l ∧ pairwise R l
  end.

(** *** Postconditions

    The computation ends in a value with [Q], or in a fault that [B] allows;
    there is no exception and enough fuel. *)

Definition ends {A} (B : fault → Prop) (Q : A → Prop) (m : res A) : Prop :=
  match m with Ok a => Q a | Fault f => B f | Throw _ | NoFuel => False end.

Definition no_fault : fault → Prop := λ _, False.

(** *** Memory regions: an address and a length *)

Definition region : Type := Z * Z.

Definition disjoint_regions (r1 r2 : region) : Prop :=
  (r1.1 + r1.2 ≤ r2.1 ∨ r2.1 + r2.2 ≤ r1.1)%Z.

Definition inside (r outer : region) : Prop :=
  (outer.1 ≤ r.1 ∧ r.1 + r.2 ≤ outer.1 + outer.2)%Z.

(** *** Sums over the threads of a system *)

Fixpoint sum_of {A} (f : A → Z) (l : list A) : Z :=
  match l with
  | [] => 0%Z
  | x :: l => (f x + sum_of f l)%Z
  end.

(** *** Transition systems *)

Section reachability.
Context {S : Type} (init : S → Prop) (step : S → S → Prop).

Definition reachable (s : S) : Prop := ∃ s0, init s0 ∧ rtc step s0 s.

End reachability.

(** ** Automation *)

Create HintDb net.
Create Rewrite HintDb net.

(** Destruct the innermost match of the goal or of a hypothesis. *)
Ltac case_all :=
  repeat (case_match; simplify_eq/=; try done).

(** Invert equations between outcomes. *)
Ltac res_inv :=
  repeat match goal with
  | H : Ok _ = Ok _ |- _ => injection H as H
  | H : Ok _ = Throw _ |- _ => discriminate H
  | H : Ok _ = Fault _ |- _ => discriminate H
  | H : Ok _ = NoFuel |- _ => discriminate H
  | H : Throw _ = Ok _ |- _ => discriminate H
  | H : Fault _ = Ok _ |- _ => discriminate H
  | H : NoFuel = Ok _ |- _ => discriminate H
  end; simplify_eq/=.

(** Goals about [wrap] and [swrap] at a literal width. *)
Ltac wrap_lia :=
  unfold swrap, wrap in *;
  repeat match goal with
  | |- context [Z.pow ?a ?b] =>
      let v := eval vm_compute in (Z.pow a b) in change (Z.pow a b) with v
  | H : context [Z.pow ?a ?b] |- _ =>
      let v := eval vm_compute in (Z.pow a b) in change (Z.pow a b) with v in H
  end; lia.

(** ** Lemmas *)

(** *** Machine integers *)

Section wrap_lemmas.
Local Open Scope Z_scope.
Context (w : Z) (Hw : 0 ≤ w).

Lemma wrap_bound z : 0 ≤ wrap w z < 2 ^ w.
Proof. apply Z.mod_pos_bound, Z.pow_pos_nonneg; lia. Qed.

Lemma wrap_small z : 0 ≤ z < 2 ^ w → wrap w z = z.
Proof. apply Z.mod_small. Qed.

Lemma wrap_wrap z : wrap w (wrap w z) = wrap w z.
Proof. apply wrap_small, wrap_bound. Qed.

Lemma wrap_add_l a b : wrap w (wrap w a + b) = wrap w (a + b).
Proof. apply Zplus_mod_idemp_l. Qed.

Lemma wrap_add_r a b : wrap w (a + wrap w b) = wrap w (a + b).
Proof. apply Zplus_mod_idemp_r. Qed.

Lemma wrap_sub_l a b : wrap w (wrap w a - b) = wrap w (a - b).
Proof. apply Zminus_mod_idemp_l. Qed.

Lemma wrap_sub_r a b : wrap w (a - wrap w b) = wrap w (a - b).
Proof. apply Zminus_mod_idemp_r. Qed.

(** The low bits of a wrapped value are those of the value. *)
Lemma wrap_mod_pow k z : 0 ≤ k ≤ w → wrap w z mod 2 ^ k = z mod 2 ^ k.
Proof.
  intros Hk. unfold wrap. replace (2 ^ w) with (2 ^ k * 2 ^ (w - k)).
  - pose proof (Z.pow_pos_nonneg 2 k ltac:(lia) ltac:(lia)).
    pose proof (Z.pow_pos_nonneg 2 (w - k) ltac:(lia) ltac:(lia)).
    rewrite Z.rem_mul_r by lia.
    rewrite Z.mul_comm, Z.mod_add by lia. apply Z.mod_mod. lia.
  - rewrite <- Z.pow_add_r by lia. f_equal. lia.
Qed.

End wrap_lemmas.

(** *** Outcomes *)

Lemma deref_Ok {A} f (o : option A) a : deref f o = Ok a ↔ o = Some a.
Proof. destruct o; simpl; split; congruence. Qed.

Lemma bind_Ok {A B} (m : res A) (k : A → res B) b :
  (m ≫= k) = Ok b ↔ ∃ a, m = Ok a ∧ k a = Ok b.
Proof.
  destruct m; simpl; (split; [intros; eauto; congruence|intros (? & ? & ?); congruence]).
Qed.

Lemma ends_bind {A C} B Q (P : C → Prop) (m : res A) (k : A → res C) :
  ends B Q m → (∀ a, Q a → ends B P (k a)) → ends B P (m ≫= k).
Proof. destruct m; simpl; auto. Qed.

Lemma ends_weaken {A} (B B' : fault → Prop) (Q Q' : A → Prop) m :
  (∀ f, B f → B' f) → (∀ a, Q a → Q' a) → ends B Q m → ends B' Q' m.
Proof. destruct m; simpl; auto. Qed.

Lemma ends_no_fault {A} (Q : A → Prop) m : ends no_fault Q m ↔ ∃ a, m = Ok a ∧ Q a.
Proof.
  destruct m; simpl; (split; [|by intros (? & ? & ?); simplify_eq]); try done. intros; eauto.
Qed.

Lemma ends_Ok {A} B (Q : A → Prop) m a : m = Ok a → Q a → ends B Q m.
Proof. by intros ->. Qed.

(** *** Loops *)

Section loops.
Context {S R : Type} (body : S → res (S + R)).

(** More fuel never changes a result. *)
Lemma run_loop_mono n m s r :
  run_loop n body s = Ok r → n ≤ m → run_loop m body s = Ok r.
Proof.
  revert m s. induction n as [|n IH]; intros [|m] s; simpl; try (done || lia).
  intros H Hle. case_all. apply IH; [done | lia].
Qed.

(** The total-correctness rule: an invariant and a decreasing measure. *)
Lemma run_loop_total (I : S → Prop) (Q : R → Prop) (mu : S → nat) :
  (∀ s, I s → ∃ x, body s = Ok x ∧
     match x with inl s' => I s' ∧ mu s' < mu s | inr r => Q r end) →
  ∀ fuel s, I s → mu s < fuel → ∃ r, run_loop fuel body s = Ok r ∧ Q r.
Proof.
  intros Hstep fuel. induction fuel as [|fuel IH]; intros s HI Hmu; [lia|].
  destruct (Hstep s HI) as ([s'|r] & Hb & Hx); simpl; rewrite Hb; [|eauto].
  destruct Hx. apply IH; [done | lia].
Qed.

(** A body that always continues inside an invariant never ends. *)
Lemma run_loop_diverges (I : S → Prop) :
  (∀ s, I s → ∃ s', body s = Ok (inl s') ∧ I s') →
  ∀ fuel s, I s → run_loop fuel body s = NoFuel.
Proof.
  intros Hstep fuel. induction fuel as [|fuel IH]; intros s HI; [done|].
  destruct (Hstep s HI) as (s' & Hb & HI'); simpl; rewrite Hb. by apply IH.
Qed.

(** Partial correctness: whatever the fuel, a result satisfies [Q]. *)
Lemma run_loop_partial (I : S → Prop) (Q : R → Prop) :
  (∀ s x, I s → body s = Ok x → match x with inl s' => I s' | inr r => Q r end) →
  ∀ fuel s r, I s → run_loop fuel body s = Ok r → Q r.
Proof.
  intros Hstep fuel. induction fuel as [|fuel IH]; intros s r HI H; simpl in H; [done|].
  destruct (body s) as [[s'|r']| | |] eqn:Hb; simplify_eq.
  - apply (IH s'); [exact (Hstep _ _ HI Hb) | done].
  - exact (Hstep _ _ HI Hb).
Qed.

End loops.

(** *** Arrays *)

Section arrays.
Context {A : Type}.
Implicit Types l k : list A.

Lemma length_list_swap i j l : length (list_swap i j l) = length l.
Proof. unfold list_swap. case_all. by rewrite !length_insert. Qed.

Lemma list_swap_lookup_l i j l y : l !! j = Some y → i < length l → list_swap i j l !! i = Some y.
Proof.
  intros Hj Hi. destruct (lookup_lt_is_Some_2 l i Hi) as [x Hx].
  unfold list_swap. rewrite Hx, Hj. destruct (decide (i = j)) as [->|].
  - rewrite list_lookup_insert_eq by (rewrite length_insert; lia). congruence.
  - rewrite list_lookup_insert_ne by done. by apply list_lookup_insert_eq.
Qed.

Lemma list_swap_lookup_r i j l x : l !! i = Some x → j < length l → list_swap i j l !! j = Some x.
Proof.
  intros Hx Hj. destruct (lookup_lt_is_Some_2 l j Hj) as [y Hy].
  unfold list_swap. rewrite Hx, Hy. apply list_lookup_insert_eq.
  by rewrite length_insert.
Qed.

Lemma list_swap_lookup_ne i j n l : n ≠ i → n ≠ j → list_swap i j l !! n = l !! n.
Proof. intros. unfold list_swap. case_all. by rewrite !list_lookup_insert_ne. Qed.

Lemma list_swap_id i l : list_swap i i l = l.
Proof.
  unfold list_swap. destruct (l !! i) as [x|] eqn:E; [|done].
  rewrite list_insert_insert_eq. by apply list_insert_id.
Qed.

Lemma list_swap_perm i j l : list_swap i j l ≡ₚ l.
Proof.
  unfold list_swap. destruct (l !! i) as [x|] eqn:Hi; [|done].
  destruct (l !! j) as [y|] eqn:Hj; [|done].
  destruct (decide (i = j)) as [->|Hij].
  { simplify_eq. by rewrite list_insert_insert_eq, list_insert_id. }
  revert j l Hi Hj Hij. induction i as [|i IH]; intros [|j] [|a l] Hi Hj Hij; simplify_eq/=; try done.
  - rewrite <- (list_insert_id l j y Hj) at 2.
    apply lookup_lt_Some in Hj.
    rewrite !list.insert_take_drop by done.
    by rewrite !(Permutation_middle (take j l)), Permutation_swap.
  - rewrite <- (list_insert_id l i x Hi) at 2.
    apply lookup_lt_Some in Hi.
    rewrite !list.insert_take_drop by done.
    by rewrite !(Permutation_middle (take i l)), Permutation_swap.
  - f_equiv. apply IH; [done..|lia].
Qed.

Lemma omap_lookup_total {B} (f : A → option B) l i :
  (∀ x, x ∈ l → is_Some (f x)) → omap f l !! i = l !! i ≫= f.
Proof.
  revert i. induction l as [|x l IH]; intros i Hf; [done|]. simpl.
  destruct (Hf x) as [y Hy]; [by left|]. rewrite Hy.
  destruct i as [|i]; simpl; [done|]. apply IH. intros z Hz. apply Hf. by right.
Qed.

Lemma omap_ext_fun {B} (f g : A → option B) l : (∀ x, f x = g x) → omap f l = omap g l.
Proof.
  intros Hfg. induction l as [|x l IH]; [done|].
  change (match f x with Some y => y :: omap f l | None => omap f l end
          = match g x with Some y => y :: omap g l | None => omap g l end).
  by rewrite Hfg, IH.
Qed.

Lemma elem_of_concat (x : A) ls : x ∈ concat ls ↔ ∃ l, x ∈ l ∧ l ∈ ls.
Proof.
  induction ls as [|l ls IH]; simpl.
  - split; [by intros ?%elem_of_nil | by intros (? & _ & ?%elem_of_nil)].
  - rewrite elem_of_app, IH. setoid_rewrite elem_of_cons. naive_solver.
Qed.

Lemma memcpy_Ok dst off src k :
  memcpy dst off src = Ok k ↔ off + length src ≤ length dst ∧ k = list_inserts off src dst.
Proof. unfold memcpy. case_decide; naive_solver. Qed.

Lemma memread_Ok src off n k :
  memread src off n = Ok k ↔ off + n ≤ length src ∧ k = take n (drop off src).
Proof. unfold memread. case_decide; naive_solver. Qed.

(** Copying a block in, seen as three segments. *)
Lemma list_inserts_split off src (dst : list A) :
  off + length src ≤ length dst →
  list_inserts off src dst = take off dst ++ src ++ drop (off + length src) dst.
Proof.
  revert off dst. induction src as [|x src IH]; intros off dst Hle; simpl in *.
  - by rewrite Nat.add_0_r, take_drop.
  - rewrite IH by lia.
    assert (Hlt : off < length (list_inserts (S off) src dst)) by (rewrite length_inserts; lia).
    rewrite IH in Hlt by lia.
    rewrite list.insert_take_drop by done.
    rewrite take_app_le by (rewrite length_take; lia).
    rewrite take_take, Nat.min_l by lia.
    rewrite (drop_app_ge _ _ (S off)) by (rewrite length_take; lia).
    rewrite length_take, Nat.min_l by lia.
    replace (S off - S off) with 0 by lia. rewrite drop_0.
    replace (off + S (length src)) with (S off + length src) by lia. done.
Qed.

Lemma take_list_inserts off src (dst : list A) :
  off + length src ≤ length dst →
  take (off + length src) (list_inserts off src dst) = take off dst ++ src.
Proof.
  intros. rewrite list_inserts_split by done. rewrite app_assoc.
  rewrite take_app_le by (rewrite length_app, length_take; lia).
  apply take_ge. rewrite length_app, length_take. lia.
Qed.

End arrays.

(** *** Sums *)

Section sum_of_lemmas.
Context {A : Type} (f : A → Z).
Local Open Scope Z_scope.

Lemma sum_of_insert l i x y : l !! i = Some x → sum_of f (<[i := y]> l) = sum_of f l - f x + f y.
Proof.
  revert i. induction l as [|z l IH]; intros [|i] H; simplify_eq/=; [lia|]. specialize (IH i H). lia.
Qed.

Lemma sum_of_pos l : (∀ x, 0 ≤ f x) → 0 ≤ sum_of f l.
Proof using. intros H. induction l as [|x l IH]; simpl; [lia|]. specialize (H x). lia. Qed.

Lemma sum_of_le l i x : (∀ x, 0 ≤ f x) → l !! i = Some x → f x ≤ sum_of f l.
Proof.
  intros Hf. revert i. induction l as [|z l IH]; intros [|i] H; simplify_eq/=.
  - pose proof (sum_of_pos l Hf). lia.
  - specialize (IH i H). specialize (Hf z). lia.
Qed.

Lemma sum_of_app l k : sum_of f (l ++ k) = sum_of f l + sum_of f k.
Proof. induction l as [|x l IH]; simpl; lia. Qed.

End sum_of_lemmas.

(** *** Transition systems *)

Section reachability_lemmas.
Context {S : Type} (init : S → Prop) (step : S → S → Prop).

(** Rule induction: an invariant of the initial states that every step keeps
    holds in every reachable state. *)
Lemma reachable_invariant (I : S → Prop) :
  (∀ s, init s → I s) → (∀ s s', I s → step s s' → I s') →
  ∀ s, reachable init step s → I s.
Proof.
  intros Hi Hs s (s0 & H0 & Hr). apply Hi in H0. clear Hi.
  induction Hr; [done|]. eauto.
Qed.

End reachability_lemmas.

#[export] Hint Rewrite @length_list_swap @list_swap_id : net.
#[export] Hint Resolve list_swap_perm : net.

(** *** Pairwise relations *)

Section pairwise_lemmas.
Context {A : Type} (R : A → A → Prop).

Lemma pairwise_app l k :
  pairwise R (l ++ k) ↔ pairwise R l ∧ pairwise R k ∧ Forall (λ x, Forall (R x) k) l.
Proof.
  induction l as [|x l IH]; simpl; [by rewrite Forall_nil; naive_solver|].
  rewrite Forall_app, Forall_cons, IH. tauto.
Qed.

Context (Rsym : Symmetric R).

#[export] Instance pairwise_Permutation : Proper ((≡ₚ) ==> iff) (pairwise R).
Proof using Rsym.
  assert (H : ∀ l k, l ≡ₚ k → pairwise R l → pairwise R k).
  { intros l k Hp. induction Hp as [|x l k Hp IH|x y l|]; simpl; [done| | |by eauto].
    - intros [Hx Hl]. split; [by rewrite <- Hp | by apply IH].
    - rewrite !Forall_cons. intros [[Hyx Hy] [Hx Hl]]. by split_and!. }
  intros l k Hp. split; apply H; [done | by symmetry].
Qed.

Lemma pairwise_concat ls :
  pairwise R (concat ls) ↔
  Forall (pairwise R) ls ∧ pairwise (λ l k, Forall (λ x, Forall (R x) k) l) ls.
Proof.
  induction ls as [|l ls IH]; simpl; [by rewrite Forall_nil|].
  rewrite pairwise_app, IH, Forall_cons.
  assert (Hc : Forall (λ x, Forall (R x) (concat ls)) l ↔
               Forall (λ k, Forall (λ x, Forall (R x) k) l) ls).
  { rewrite !Forall_forall. setoid_rewrite Forall_forall.
    split.
    - intros H k Hk x Hx. apply Forall_forall. intros y Hy. apply H; [done|].
      apply elem_of_concat. eauto.
    - intros H x Hx y (k & Hy & Hk)%elem_of_concat. specialize (H k Hk x Hx).
      rewrite Forall_forall in H. by apply H. }
  rewrite Hc. tauto.
Qed.

End pairwise_lemmas.

Lemma pairwise_impl {A} (R Q : A → A → Prop) l :
  (∀ x y, R x y → Q x y) → pairwise R l → pairwise Q l.
Proof.
  intros H. induction l as [|x l IH]; simpl; [done|].
  intros [Hx Hl]. split; [eapply Forall_impl; [exact Hx|]; intros; by apply H | by apply IH].
Qed.

#[export] Instance disjoint_regions_sym : Symmetric disjoint_regions.
Proof. intros r1 r2. unfold disjoint_regions. tauto. Qed.

Lemma disjoint_inside r1 r2 o1 o2 :
  inside r1 o1 → inside r2 o2 → disjoint_regions o1 o2 → disjoint_regions r1 r2.
Proof. unfold inside, disjoint_regions. lia. Qed.

Lemma pairwise_inside l k :
  Forall2 inside l k → pairwise disjoint_regions k → pairwise disjoint_regions l.
Proof.
  induction 1 as [|r o l k Hro Hlk IH]; simpl; [done|]. intros [Ho Hk]. split; [|by apply IH].
  clear IH Hk. induction Hlk as [|r' o' l k Hro' Hlk IH]; [done|].
  apply Forall_cons in Ho as [Ho1 Ho2]. constructor; [by eapply disjoint_inside|by apply IH].
Qed.

(** Regions grouped by the disjoint regions around them. *)
Lemma pairwise_groups (outer : list region) (groups : list (list region)) :
  Forall2 (λ o g, Forall (λ r, inside r o) g ∧ pairwise disjoint_regions g) outer groups →
  pairwise disjoint_regions outer → pairwise disjoint_regions (concat groups).
Proof.
  induction 1 as [|o g os gs [Hin Hg] Hgs IH]; simpl; [done|].
  intros [Ho Hos]. apply pairwise_app. split_and!; [done|by apply IH|].
  clear IH Hos Hg. apply Forall_forall. intros r Hr. rewrite Forall_forall in Hin.
  induction Hgs as [|o' g' os gs [Hin' _] Hgs IH]; simpl; [done|].
  apply Forall_cons in Ho as [Ho1 Ho2]. apply Forall_app. split; [|by apply IH].
  eapply Forall_impl; [exact Hin'|]. intros r' Hr'. exact (disjoint_inside r r' o o' (Hin r Hr) Hr' Ho1).
Qed.
