(* ===== verification/Ringbuffer.v ===== *)
(** * The lock-free SPSC ring buffer (basic/ringbuffer.hpp)

    [Ringbuffer<T, buffer_size, fake_tso, cacheline_size, index_t>] with
    [buffer_size = 2^k] and an unsigned [w]-bit [index_t].  This file has
    the sequential behaviour of every operation, as a refinement of a bounded
    list queue that answers whole sequences of calls, also those that a callback
    makes, and the two operations that work in place through a callback;
    RingbufferSpsc.v runs one producer and one consumer at the same time. *)

From S2P Require Import Prelude.
Local Open Scope Z_scope.

(** ** Data *)

Record ringbuffer (T : Type) := Rb {
  rb_head : Z;
  rb_tail : Z;
  data_buff : list T
}.
Arguments Rb {T} rb_head rb_tail data_buff.
Arguments rb_head {T} r.
Arguments rb_tail {T} r.
Arguments data_buff {T} r.

(** The compile-time parameters: what the [static_assert]s demand. *)
Record rb_params (k w : Z) : Prop := {
  rb_k_nonneg : 0 ≤ k;
  rb_k_w : k < w;
  rb_width : w = 8 ∨ w = 16 ∨ w = 32 ∨ w = 64
}.

(** ** Operations *)

Section operations.
Context {T : Type} (k w : Z).
Implicit Types rb : ringbuffer T.

Definition buffer_size : Z := 2 ^ k.
Definition buffer_mask : Z := buffer_size - 1.

(** [i & buffer_mask], as a position of [data_buff]. *)
Definition slot (i : Z) : nat := Z.to_nat (Z.land i buffer_mask).

(** [a - b] for two [index_t] values, converted to [size_t] where the code
    compares it with a [size_t]: an [index_t] narrower than [int] is promoted,
    the difference is a signed [int] and is sign-extended. *)
Definition idx_sub (a b : Z) : Z := wrap (if w <? 32 then 64 else w) (a - b).

(** [Ringbuffer()]: the indexes are zeroed, the slots are left as they are. *)
Definition rb_create (garbage : list T) : ringbuffer T := Rb 0 0 garbage.

Definition consumerClear rb : ringbuffer T := Rb (rb_head rb) (rb_head rb) (data_buff rb).

Definition producerClear rb : ringbuffer T := consumerClear rb.

Definition readAvailable rb : Z := wrap w (rb_head rb - rb_tail rb).

Definition writeAvailable rb : Z := wrap w (buffer_size - (rb_head rb - rb_tail rb)).

Definition isEmpty rb : bool := readAvailable rb =? 0.

Definition isFull rb : bool := writeAvailable rb =? 0.

Definition insert (data : T) rb : bool * ringbuffer T :=
  let tmp_head := rb_head rb in
  if idx_sub tmp_head (rb_tail rb) =? buffer_size then (false, rb)
  else (true, Rb (wrap w (tmp_head + 1)) (rb_tail rb)
                 (<[slot tmp_head := data]> (data_buff rb))).

(** [insert(const T* data)]: the pointer is followed only when there is room. *)
Definition insert_ptr (data : option T) rb : res (bool * ringbuffer T) :=
  let tmp_head := rb_head rb in
  if idx_sub tmp_head (rb_tail rb) =? buffer_size then mret (false, rb)
  else
    x ← deref NullDeref data;
    mret (true, Rb (wrap w (tmp_head + 1)) (rb_tail rb)
                   (<[slot tmp_head := x]> (data_buff rb))).

(** The callback is run only when there is room; it has a state of its own. *)
Definition insertFromCallbackWhenAvailable {C} (get_data_callback : C → T * C) (c : C) rb
    : bool * C * ringbuffer T :=
  let tmp_head := rb_head rb in
  if idx_sub tmp_head (rb_tail rb) =? buffer_size then (false, c, rb)
  else
    let '(data, c') := get_data_callback c in
    (true, c', Rb (wrap w (tmp_head + 1)) (rb_tail rb)
                  (<[slot tmp_head := data]> (data_buff rb))).

(** [bool remove()] *)
Definition remove_one rb : bool * ringbuffer T :=
  let tmp_tail := rb_tail rb in
  if tmp_tail =? rb_head rb then (false, rb)
  else (true, Rb (rb_head rb) (wrap w (tmp_tail + 1)) (data_buff rb)).

(** [size_t remove(size_t cnt)] *)
Definition remove_many (cnt : Z) rb : Z * ringbuffer T :=
  let tmp_tail := rb_tail rb in
  let avail := wrap w (rb_head rb - tmp_tail) in
  let cnt := if avail <? cnt then avail else cnt in
  (cnt, Rb (rb_head rb) (wrap w (tmp_tail + cnt)) (data_buff rb)).

(** [bool remove(T* data)]: [None] when it returns false. *)
Definition remove rb : res (option T * ringbuffer T) :=
  let tmp_tail := rb_tail rb in
  if tmp_tail =? rb_head rb then mret (None, rb)
  else
    data ← deref OutOfBounds (data_buff rb !! slot tmp_tail);
    mret (Some data, Rb (rb_head rb) (wrap w (tmp_tail + 1)) (data_buff rb)).

(** [peek], [at] return a pointer to a slot; [None] is [nullptr]. *)
Definition peek rb : option nat :=
  let tmp_tail := rb_tail rb in
  if tmp_tail =? rb_head rb then None else Some (slot tmp_tail).

Definition at_ (index : Z) rb : option nat :=
  let tmp_tail := rb_tail rb in
  if idx_sub (rb_head rb) tmp_tail <=? index then None
  else Some (slot (tmp_tail + index)).

(** [operator[]]: unchecked. *)
Definition index_ (index : Z) rb : nat := slot (rb_tail rb + index).

(** The copy loops of [writeBuff] and [readBuff]. *)
Fixpoint write_loop (src : list T) (tmp_head : Z) (buf : list T) : Z * list T :=
  match src with
  | [] => (tmp_head, buf)
  | x :: src => write_loop src (wrap w (tmp_head + 1)) (<[slot tmp_head := x]> buf)
  end.

Fixpoint read_loop (n : nat) (tmp_tail : Z) (buf : list T) : res (Z * list T) :=
  match n with
  | O => mret (tmp_tail, [])
  | S n =>
      x ← deref OutOfBounds (buf !! slot tmp_tail);
      '(t, out) ← read_loop n (wrap w (tmp_tail + 1)) buf;
      mret (t, x :: out)
  end.

(** [writeBuff(buff, count)] *)
Definition writeBuff (buff : list T) (count : Z) rb : res (Z * ringbuffer T) :=
  let tmp_head := rb_head rb in
  let available := wrap w (buffer_size - (tmp_head - rb_tail rb)) in
  let to_write := if available <? count then available else count in
  src ← memread buff 0 (Z.to_nat to_write);
  let '(tmp_head, buf) := write_loop src tmp_head (data_buff rb) in
  mret (to_write, Rb tmp_head (rb_tail rb) buf).

(** [readBuff(buff, count)]: the elements written to [buff] and how many. *)
Definition readBuff (count : Z) rb : res (Z * list T * ringbuffer T) :=
  let tmp_tail := rb_tail rb in
  let available := wrap w (rb_head rb - tmp_tail) in
  let to_read := if available <? count then available else count in
  '(tmp_tail, out) ← read_loop (Z.to_nat to_read) tmp_tail (data_buff rb);
  mret (to_read, out, Rb (rb_head rb) tmp_tail (data_buff rb)).

(** One round of the loop of [writeBuff] with a callback.  The loop state is
    [written], [tmp_head], [to_write], the buffer and the callback's world;
    [None] is a null callback. *)
Definition writeBuff_cb_body {W} (cb : option (ringbuffer T * W → ringbuffer T * W))
    (buff : list T) (count : Z) (s : Z * Z * Z * ringbuffer T * W)
    : res (Z * Z * Z * ringbuffer T * W + Z * ringbuffer T * W) :=
  let '(written, tmp_head, to_write, rb, world) := s in
  if written <? count then
    let available := wrap w (buffer_size - (tmp_head - rb_tail rb)) in
    if available =? 0 then mret (inr (written, rb, world))
    else
      let to_write := if available <? to_write then available else to_write in
      src ← memread buff (Z.to_nat written) (Z.to_nat to_write);
      let '(tmp_head, buf) := write_loop src tmp_head (data_buff rb) in
      let written := written + to_write in
      let rb := Rb tmp_head (rb_tail rb) buf in
      let '(rb, world) := match cb with Some f => f (rb, world) | None => (rb, world) end in
      mret (inl (written, tmp_head, count - written, rb, world))
  else mret (inr (written, rb, world)).

(** [writeBuff(buff, count, count_to_callback, execute_data_callback)]: every
    round writes at least one element, so [count + 1] rounds are enough. *)
Definition writeBuff_cb {W} (cb : option (ringbuffer T * W → ringbuffer T * W))
    (buff : list T) (count count_to_callback : Z) (rb : ringbuffer T) (world : W)
    : res (Z * ringbuffer T * W) :=
  let to_write :=
    if negb (count_to_callback =? 0) && (count_to_callback <? count)
    then count_to_callback else count in
  run_loop (S (Z.to_nat count)) (writeBuff_cb_body cb buff count)
    (0, rb_head rb, to_write, rb, world).

(** The same for [readBuff] with a callback. *)
Definition readBuff_cb_body {W} (cb : option (ringbuffer T * W → ringbuffer T * W))
    (count : Z) (s : Z * Z * Z * list T * ringbuffer T * W)
    : res (Z * Z * Z * list T * ringbuffer T * W + Z * list T * ringbuffer T * W) :=
  let '(nread, tmp_tail, to_read, out, rb, world) := s in
  if nread <? count then
    let available := wrap w (rb_head rb - tmp_tail) in
    if available =? 0 then mret (inr (nread, out, rb, world))
    else
      let to_read := if available <? to_read then available else to_read in
      '(tmp_tail, new) ← read_loop (Z.to_nat to_read) tmp_tail (data_buff rb);
      let nread := nread + to_read in
      let rb := Rb (rb_head rb) tmp_tail (data_buff rb) in
      let '(rb, world) := match cb with Some f => f (rb, world) | None => (rb, world) end in
      mret (inl (nread, tmp_tail, count - nread, out ++ new, rb, world))
  else mret (inr (nread, out, rb, world)).

Definition readBuff_cb {W} (cb : option (ringbuffer T * W → ringbuffer T * W))
    (count count_to_callback : Z) (rb : ringbuffer T) (world : W)
    : res (Z * list T * ringbuffer T * W) :=
  let to_read :=
    if negb (count_to_callback =? 0) && (count_to_callback <? count)
    then count_to_callback else count in
  run_loop (S (Z.to_nat count)) (readBuff_cb_body cb count)
    (0, rb_tail rb, to_read, [], rb, world).

(** ** Specification: the queue a ring buffer stands for *)

(** The [n] elements from logical position [t] on. *)
Fixpoint window (buf : list T) (t : Z) (n : nat) : list T :=
  match n with
  | O => []
  | S n => match buf !! slot t with
           | Some x => x :: window buf (t + 1) n
           | None => []
           end
  end.

Definition contents rb : list T :=
  window (data_buff rb) (rb_tail rb) (Z.to_nat (readAvailable rb)).

Record rb_ok rb : Prop := {
  ok_head : 0 ≤ rb_head rb < 2 ^ w;
  ok_tail : 0 ≤ rb_tail rb < 2 ^ w;
  ok_buff : length (data_buff rb) = Z.to_nat buffer_size;
  ok_count : readAvailable rb ≤ buffer_size
}.

End operations.

(** ** Lemmas *)

Section lemmas.
Context {T : Type} (k w : Z) (P : rb_params k w).
Implicit Types (rb : ringbuffer T) (buf src : list T).

Lemma pow_facts : 0 < 2 ^ k < 2 ^ w.
Proof using P.
  destruct P. split; [apply Z.pow_pos_nonneg; lia | apply Z.pow_lt_mono_r; lia].
Qed.

Lemma slot_mod z : slot k z = Z.to_nat (z mod 2 ^ k).
Proof using P.
  unfold slot, buffer_mask, buffer_size. rewrite Z.sub_1_r, <- Z.ones_equiv.
  by rewrite Z.land_ones by apply P.
Qed.

Lemma slot_lt z : (slot k z < Z.to_nat (buffer_size k))%nat.
Proof using P.
  pose proof pow_facts as Hp. rewrite slot_mod. unfold buffer_size.
  pose proof (Z.mod_pos_bound z (2 ^ k) (proj1 Hp)). lia.
Qed.

Lemma slot_wrap z : slot k (wrap w z) = slot k z.
Proof using P. rewrite !slot_mod. destruct P. by rewrite wrap_mod_pow by lia. Qed.

Lemma slot_inj a b : slot k a = slot k b → Z.abs (a - b) < 2 ^ k → a = b.
Proof using P.
  pose proof pow_facts as Hp. rewrite !slot_mod. intros Heq Habs.
  pose proof (Z.mod_pos_bound a (2 ^ k) (proj1 Hp)).
  pose proof (Z.mod_pos_bound b (2 ^ k) (proj1 Hp)).
  apply Z2Nat.inj in Heq; [|lia..].
  pose proof (Z.div_mod a (2 ^ k) ltac:(lia)). pose proof (Z.div_mod b (2 ^ k) ltac:(lia)).
  assert (Hq : a / 2 ^ k - b / 2 ^ k = 0) by nia. nia.
Qed.

Lemma slot_lookup buf z :
  length buf = Z.to_nat (buffer_size k) → ∃ x, buf !! slot k z = Some x.
Proof using P. intros H. apply lookup_lt_is_Some_2. rewrite H. apply slot_lt. Qed.

Lemma window_ext buf n a b :
  (∀ i, slot k (a + i) = slot k (b + i)) → window k buf a n = window k buf b n.
Proof using.
  revert a b. induction n as [|n IH]; intros a b H; simpl; [done|].
  specialize (H 0) as H0. rewrite !Z.add_0_r in H0. rewrite H0. case_match; [|done].
  f_equal. apply IH. intros i. by rewrite <- !Z.add_assoc.
Qed.

Lemma slot_wrap_add a i : slot k (wrap w a + i) = slot k (a + i).
Proof using P. rewrite <- slot_wrap, wrap_add_l. apply slot_wrap. Qed.

Lemma window_wrap buf n t : window k buf (wrap w t) n = window k buf t n.
Proof using P. apply window_ext, slot_wrap_add. Qed.

Lemma length_window buf t n :
  length buf = Z.to_nat (buffer_size k) → length (window k buf t n) = n.
Proof using P.
  intros Hl. revert t. induction n as [|n IH]; intros t; simpl; [done|].
  destruct (slot_lookup buf t Hl) as [x ->]. simpl. by rewrite IH.
Qed.

Lemma window_app buf t n m :
  length buf = Z.to_nat (buffer_size k) →
  window k buf t (n + m) = window k buf t n ++ window k buf (t + Z.of_nat n) m.
Proof using P.
  intros Hl. revert t. induction n as [|n IH]; intros t; simpl.
  - by rewrite Z.add_0_r.
  - destruct (slot_lookup buf t Hl) as [x ->]. simpl. f_equal. rewrite IH.
    f_equal. f_equal. lia.
Qed.

(** Writing a slot outside the window leaves it alone. *)
Lemma window_insert buf t h x n :
  Z.of_nat n ≤ h - t < 2 ^ k →
  window k (<[slot k h := x]> buf) t n = window k buf t n.
Proof using P.
  revert t. induction n as [|n IH]; intros t Hr; simpl; [done|].
  rewrite list_lookup_insert_ne.
  - case_match; [|done]. f_equal. apply IH. lia.
  - intros Heq. apply slot_inj in Heq; lia.
Qed.

Lemma length_write_loop src h buf : length (write_loop k w src h buf).2 = length buf.
Proof using.
  revert h buf. induction src as [|x src IH]; intros h buf; simpl; [done|].
  by rewrite IH, length_insert.
Qed.

Lemma write_loop_head src h buf :
  0 ≤ h < 2 ^ w → (write_loop k w src h buf).1 = wrap w (h + Z.of_nat (length src)).
Proof using P.
  revert h buf. induction src as [|x src IH]; intros h buf Hh; cbn [write_loop length fst].
  - rewrite Z.add_0_r. symmetry. by apply wrap_small.
  - rewrite IH by (apply wrap_bound; destruct P; lia).
    rewrite wrap_add_l. f_equal. lia.
Qed.

Lemma write_loop_window src h buf t n :
  length buf = Z.to_nat (buffer_size k) →
  (∀ i, slot k (h + i) = slot k (t + Z.of_nat n + i)) →
  Z.of_nat n + Z.of_nat (length src) ≤ 2 ^ k →
  window k (write_loop k w src h buf).2 t (n + length src) = window k buf t n ++ src.
Proof using P.
  revert h buf n. induction src as [|x src IH]; intros h buf n Hl Hs Hle;
    cbn [write_loop length snd] in *.
  { by rewrite Nat.add_0_r, app_nil_r. }
  replace (n + S (length src))%nat with (S n + length src)%nat by lia.
  assert (Hh : slot k h = slot k (t + Z.of_nat n))
    by (specialize (Hs 0); by rewrite !Z.add_0_r in Hs).
  rewrite IH.
  - replace (S n) with (n + 1)%nat by lia. rewrite window_app by (by rewrite length_insert).
    rewrite Hh, window_insert by lia. simpl.
    rewrite list_lookup_insert_eq by (rewrite Hl; apply slot_lt).
    by rewrite <- app_assoc.
  - by rewrite length_insert.
  - intros i. rewrite slot_wrap_add, <- Z.add_assoc, Hs. f_equal. lia.
  - lia.
Qed.

Lemma read_loop_window n t buf :
  length buf = Z.to_nat (buffer_size k) → 0 ≤ t < 2 ^ w →
  read_loop k w n t buf = Ok (wrap w (t + Z.of_nat n), window k buf t n).
Proof using P.
  intros Hl. revert t. induction n as [|n IH]; intros t Ht; cbn [read_loop window].
  - by rewrite Z.add_0_r, wrap_small.
  - destruct (slot_lookup buf t Hl) as [x ->]. simpl.
    rewrite IH by (apply wrap_bound; destruct P; lia). simpl.
    rewrite window_wrap, wrap_add_l.
    by replace (t + 1 + Z.of_nat n) with (t + Z.of_nat (S n)) by lia.
Qed.

Lemma readAvailable_bound rb : 0 ≤ readAvailable w rb < 2 ^ w.
Proof using P. apply wrap_bound. destruct P; lia. Qed.

Lemma head_logical rb i :
  slot k (rb_head rb + i) = slot k (rb_tail rb + readAvailable w rb + i).
Proof using P.
  rewrite <- (slot_wrap (rb_tail rb + readAvailable w rb + i)). unfold readAvailable.
  replace (rb_tail rb + wrap w (rb_head rb - rb_tail rb) + i)
    with (rb_tail rb + i + wrap w (rb_head rb - rb_tail rb)) by lia.
  rewrite wrap_add_r.
  replace (rb_tail rb + i + (rb_head rb - rb_tail rb)) with (rb_head rb + i) by lia.
  by rewrite slot_wrap.
Qed.

Lemma length_contents rb :
  rb_ok k w rb → Z.of_nat (length (contents k w rb)) = readAvailable w rb.
Proof using P.
  intros H. unfold contents. rewrite length_window by apply H.
  pose proof (readAvailable_bound rb). lia.
Qed.

Lemma contents_nil rb : rb_ok k w rb → contents k w rb = [] ↔ readAvailable w rb = 0.
Proof using P.
  intros H. rewrite <- length_contents by done.
  destruct (contents k w rb); simpl; [done|]. split; [done | lia].
Qed.

(** The head and tail indexes are equal exactly when nothing is stored. *)
Lemma head_tail_empty rb : rb_ok k w rb → rb_tail rb = rb_head rb ↔ contents k w rb = [].
Proof using P.
  intros H. rewrite contents_nil by done. unfold readAvailable, wrap.
  destruct H as [Hh Ht _ _]. pose proof pow_facts. split; [intros ->; by rewrite Z.sub_diag |].
  intros Hm. apply Z.mod_divide in Hm; [|lia]. destruct Hm as [q Hq].
  assert (q = 0) by nia. lia.
Qed.

(** Storing a block at the head. *)
Lemma push_block rb src :
  rb_ok k w rb → readAvailable w rb + Z.of_nat (length src) ≤ 2 ^ k →
  let r := write_loop k w src (rb_head rb) (data_buff rb) in
  let rb' := Rb r.1 (rb_tail rb) r.2 in
  rb_ok k w rb' ∧ contents k w rb' = contents k w rb ++ src.
Proof using P.
  intros H Hle. cbv zeta. pose proof pow_facts. pose proof (readAvailable_bound rb).
  assert (Hra : wrap w ((write_loop k w src (rb_head rb) (data_buff rb)).1 - rb_tail rb)
                = readAvailable w rb + Z.of_nat (length src)).
  { rewrite write_loop_head by apply H. rewrite wrap_sub_l.
    replace (rb_head rb + Z.of_nat (length src) - rb_tail rb)
      with (rb_head rb - rb_tail rb + Z.of_nat (length src)) by lia.
    rewrite <- wrap_add_l. apply wrap_small. unfold readAvailable in *. lia. }
  split; [split; simpl|].
  - rewrite write_loop_head by apply H. apply wrap_bound. destruct P; lia.
  - apply H.
  - rewrite length_write_loop. apply H.
  - unfold readAvailable; simpl. rewrite Hra. done.
  - unfold contents at 1, readAvailable at 1; simpl. rewrite Hra.
    rewrite Z2Nat.inj_add, Nat2Z.id by lia. rewrite write_loop_window; [done | apply H | | lia].
    intros i. rewrite head_logical. f_equal. lia.
Qed.

(** Dropping a block at the tail. *)
Lemma pop_block rb n :
  rb_ok k w rb → 0 ≤ n ≤ readAvailable w rb →
  let rb' := Rb (rb_head rb) (wrap w (rb_tail rb + n)) (data_buff rb) in
  rb_ok k w rb' ∧
  contents k w rb = window k (data_buff rb) (rb_tail rb) (Z.to_nat n) ++ contents k w rb' ∧
  readAvailable w rb' = readAvailable w rb - n.
Proof using P.
  intros H Hn. cbv zeta. pose proof pow_facts. pose proof (readAvailable_bound rb).
  assert (Hra : wrap w (rb_head rb - wrap w (rb_tail rb + n)) = readAvailable w rb - n).
  { rewrite wrap_sub_r.
    replace (rb_head rb - (rb_tail rb + n)) with (rb_head rb - rb_tail rb - n) by lia.
    rewrite <- wrap_sub_l. apply wrap_small. unfold readAvailable in *. lia. }
  split; [split; simpl|split].
  - apply H.
  - apply wrap_bound. destruct P; lia.
  - apply H.
  - unfold readAvailable; simpl. rewrite Hra. pose proof (ok_count _ _ _ H). lia.
  - unfold contents, readAvailable; simpl. rewrite Hra, window_wrap.
    fold (readAvailable w rb).
    replace (Z.to_nat (readAvailable w rb))
      with (Z.to_nat n + Z.to_nat (readAvailable w rb - n))%nat by lia.
    rewrite window_app by apply H. do 2 f_equal. lia.
  - exact Hra.
Qed.

(** With an index type of at least 32 bits the comparison sees the count. *)
Lemma idx_sub_count rb : 32 ≤ w → idx_sub w (rb_head rb) (rb_tail rb) = readAvailable w rb.
Proof using. intros. unfold idx_sub, readAvailable. destruct (Z.ltb_spec w 32); [lia | done]. Qed.

Lemma writeAvailable_count rb : rb_ok k w rb → writeAvailable k w rb = 2 ^ k - readAvailable w rb.
Proof using P.
  intros H. unfold writeAvailable, buffer_size. rewrite <- wrap_sub_r. apply wrap_small.
  fold (readAvailable w rb). pose proof pow_facts. pose proof (readAvailable_bound rb).
  pose proof (ok_count _ _ _ H). unfold buffer_size in *. lia.
Qed.

End lemmas.

(** ** The sequential specification: a bounded list queue *)

(** The calls of the class but the two with a callback. *)
Inductive rb_op (T : Type) :=
| OpInsert (x : T)
| OpInsertPtr (x : T)
| OpInsertCallback (x : T)
| OpRemove
| OpRemoveOne
| OpRemoveMany (n : nat)
| OpPeek
| OpAt (i : nat)
| OpIndex (i : nat)
| OpWrite (l : list T)
| OpRead (n : nat)
| OpQuery
| OpClear
| OpProducerClear.
Arguments OpInsert {T} x.
Arguments OpInsertPtr {T} x.
Arguments OpInsertCallback {T} x.
Arguments OpRemove {T}.
Arguments OpRemoveOne {T}.
Arguments OpRemoveMany {T} n.
Arguments OpPeek {T}.
Arguments OpAt {T} i.
Arguments OpIndex {T} i.
Arguments OpWrite {T} l.
Arguments OpRead {T} n.
Arguments OpQuery {T}.
Arguments OpClear {T}.
Arguments OpProducerClear {T}.

(** [script]: the calls that the callback makes on the buffer when it is run for
    the first time, for the second, and so on; [None] is a null callback. *)
Inductive rb_call (T : Type) :=
| Call (op : rb_op T)
| WriteCb (buff : list T) (count_to_callback : nat) (script : option (list (list (rb_op T))))
| ReadCb (count count_to_callback : nat) (script : option (list (list (rb_op T)))).
Arguments Call {T} op.
Arguments WriteCb {T} buff count_to_callback script.
Arguments ReadCb {T} count count_to_callback script.

(** A pointer or a reference to a slot is answered by the element it refers to. *)
Inductive rb_out (T : Type) :=
| OutBool (b : bool)
| OutElem (o : option T)
| OutSize (n : Z)
| OutList (n : Z) (l : list T)
| OutState (empty full : bool) (readable writable : Z)
| OutUnit.
Arguments OutBool {T} b.
Arguments OutElem {T} o.
Arguments OutSize {T} n.
Arguments OutList {T} n l.
Arguments OutState {T} empty full readable writable.
Arguments OutUnit {T}.

(** [calls]: what the calls of the callback returned. *)
Inductive call_out (T : Type) :=
| OutCall (o : rb_out T)
| OutBlock (n : Z) (l : list T) (calls : list (rb_out T)).
Arguments OutCall {T} o.
Arguments OutBlock {T} n l calls.

Section specification.
Context {T : Type} (k w : Z).

(** The element behind a pointer that the class returned. *)
Definition slot_elem (p : option nat) (rb : ringbuffer T) : res (rb_out T * ringbuffer T) :=
  match p with
  | None => mret (OutElem None, rb)
  | Some p => x ← deref OutOfBounds (data_buff rb !! p); mret (OutElem (Some x), rb)
  end.

(** One call of the class. *)
Definition rb_step (op : rb_op T) (rb : ringbuffer T) : res (rb_out T * ringbuffer T) :=
  match op with
  | OpInsert x => let '(b, rb) := insert k w x rb in mret (OutBool b, rb)
  | OpInsertPtr x => '(b, rb) ← insert_ptr k w (Some x) rb; mret (OutBool b, rb)
  | OpInsertCallback x =>
      let '(b, _, rb) := insertFromCallbackWhenAvailable k w (λ _, (x, tt)) tt rb in
      mret (OutBool b, rb)
  | OpRemove => '(o, rb) ← remove k w rb; mret (OutElem o, rb)
  | OpRemoveOne => let '(b, rb) := remove_one w rb in mret (OutBool b, rb)
  | OpRemoveMany n => let '(m, rb) := remove_many w (Z.of_nat n) rb in mret (OutSize m, rb)
  | OpPeek => slot_elem (peek k rb) rb
  | OpAt i => slot_elem (at_ k w (Z.of_nat i) rb) rb
  | OpIndex i => slot_elem (Some (index_ k (Z.of_nat i) rb)) rb
  | OpWrite l => '(m, rb) ← writeBuff k w l (Z.of_nat (length l)) rb; mret (OutSize m, rb)
  | OpRead n => '(m, l, rb) ← readBuff k w (Z.of_nat n) rb; mret (OutList m l, rb)
  | OpQuery => mret (OutState (isEmpty w rb) (isFull k w rb) (readAvailable w rb)
                              (writeAvailable k w rb), rb)
  | OpClear => mret (OutUnit, consumerClear rb)
  | OpProducerClear => mret (OutUnit, producerClear rb)
  end.

Fixpoint rb_steps (ops : list (rb_op T)) (rb : ringbuffer T) : res (list (rb_out T) * ringbuffer T) :=
  match ops with
  | [] => mret ([], rb)
  | op :: ops => '(o, rb) ← rb_step op rb; '(os, rb) ← rb_steps ops rb; mret (o :: os, rb)
  end.

(** The callback that makes the calls of a script; its world is what is left of
    the script, and what its calls have returned. *)
Definition script_world : Type := list (list (rb_op T)) * res (list (rb_out T)).

Definition scripted (s : ringbuffer T * script_world) : ringbuffer T * script_world :=
  let '(rb, (script, outs)) := s in
  match script with
  | [] => s
  | ops :: script =>
      let r := (outs ← outs; '(os, rb) ← rb_steps ops rb; mret (outs ++ os, rb)) in
      (match r with Ok (_, rb) => rb | _ => rb end, (script, '(os, _) ← r; mret os))
  end.

Definition call_step (c : rb_call T) (rb : ringbuffer T) : res (call_out T * ringbuffer T) :=
  let start (script : option (list (list (rb_op T)))) : script_world := (default [] script, mret []) in
  match c with
  | Call op => '(o, rb) ← rb_step op rb; mret (OutCall o, rb)
  | WriteCb buff c2c script =>
      '(n, rb, world) ← writeBuff_cb k w ((λ _, scripted) <$> script) buff (Z.of_nat (length buff))
                          (Z.of_nat c2c) rb (start script);
      os ← world.2; mret (OutBlock n [] os, rb)
  | ReadCb count c2c script =>
      '(n, l, rb, world) ← readBuff_cb k w ((λ _, scripted) <$> script) (Z.of_nat count)
                             (Z.of_nat c2c) rb (start script);
      os ← world.2; mret (OutBlock n l os, rb)
  end.

Fixpoint rb_run (cs : list (rb_call T)) (rb : ringbuffer T) : res (list (call_out T)) :=
  match cs with
  | [] => mret []
  | c :: cs => '(o, rb) ← call_step c rb; os ← rb_run cs rb; mret (o :: os)
  end.

(** *** The same calls of a list queue that holds at most [cap] elements *)

Context (cap : nat).

Definition queue_insert (x : T) (q : list T) : rb_out T * list T :=
  if decide (length q < cap)%nat then (OutBool true, q ++ [x]) else (OutBool false, q).

(** [operator[]] is not defined beyond the elements that are stored. *)
Definition queue_step (op : rb_op T) (q : list T) : option (rb_out T * list T) :=
  match op with
  | OpInsert x | OpInsertPtr x | OpInsertCallback x => Some (queue_insert x q)
  | OpRemove => Some (OutElem (hd_error q), tl q)
  | OpRemoveOne => Some (OutBool (bool_decide (q ≠ [])), tl q)
  | OpRemoveMany n => Some (OutSize (Z.of_nat (n `min` length q)), drop n q)
  | OpPeek => Some (OutElem (hd_error q), q)
  | OpAt i => Some (OutElem (q !! i), q)
  | OpIndex i => x ← q !! i; Some (OutElem (Some x), q)
  | OpWrite l =>
      let m := (length l `min` (cap - length q))%nat in
      Some (OutSize (Z.of_nat m), q ++ take m l)
  | OpRead n => Some (OutList (Z.of_nat (n `min` length q)) (take n q), drop n q)
  | OpQuery => Some (OutState (bool_decide (q = [])) (bool_decide (length q = cap))
                         (Z.of_nat (length q)) (Z.of_nat (cap - length q)), q)
  | OpClear | OpProducerClear => Some (OutUnit, [])
  end.

Fixpoint queue_steps (ops : list (rb_op T)) (q : list T) : option (list (rb_out T) * list T) :=
  match ops with
  | [] => Some ([], q)
  | op :: ops => '(o, q) ← queue_step op q; '(os, q) ← queue_steps ops q; Some (o :: os, q)
  end.

(** What a callback of [writeBuff] may call, and one of [readBuff]. *)
Definition keeps_head (op : rb_op T) : bool :=
  match op with OpInsert _ | OpInsertPtr _ | OpInsertCallback _ | OpWrite _ => false | _ => true end.
Definition keeps_tail (op : rb_op T) : bool :=
  match op with
  | OpRemove | OpRemoveOne | OpRemoveMany _ | OpRead _ | OpClear | OpProducerClear => false | _ => true
  end.

Definition queue_callback (may : rb_op T → bool) (script : list (list (rb_op T))) (q : list T)
    : option (list (rb_out T) * list T * list (list (rb_op T))) :=
  match script with
  | [] => Some ([], q, [])
  | ops :: script => if forallb may ops then '(os, q) ← queue_steps ops q; Some (os, q, script) else None
  end.

(** The elements are stored in rounds, the callback runs after each; a round
    stores at least one, so their number bounds that of the rounds. *)
Fixpoint queue_write (fuel : nat) (l : list T) (to_write : nat) (script : list (list (rb_op T))) (q : list T)
    : option (nat * list (rb_out T) * list T) :=
  match fuel with
  | O => Some (O, [], q)
  | S fuel =>
      if decide (l = [] ∨ length q = cap) then Some (O, [], q)
      else
        let m := (to_write `min` (cap - length q))%nat in
        '(os, q, script) ← queue_callback keeps_head script (q ++ take m l);
        '(n, os', q) ← queue_write fuel (drop m l) (length l - m) script q;
        Some ((m + n)%nat, os ++ os', q)
  end.

Fixpoint queue_read (fuel count to_read : nat) (script : list (list (rb_op T))) (q : list T)
    : option (list T * list (rb_out T) * list T) :=
  match fuel with
  | O => Some ([], [], q)
  | S fuel =>
      if decide (count = O ∨ q = []) then Some ([], [], q)
      else
        let m := (to_read `min` length q)%nat in
        '(os, q', script) ← queue_callback keeps_tail script (drop m q);
        '(l, os', q') ← queue_read fuel (count - m) (count - m) script q';
        Some (take m q ++ l, os ++ os', q')
  end.

Definition first_block (count c2c : nat) : nat := if decide (0 < c2c < count)%nat then c2c else count.

Definition queue_call (c : rb_call T) (q : list T) : option (call_out T * list T) :=
  match c with
  | Call op => '(o, q) ← queue_step op q; Some (OutCall o, q)
  | WriteCb buff c2c script =>
      '(n, os, q) ← queue_write (length buff) buff (first_block (length buff) c2c) (default [] script) q;
      Some (OutBlock (Z.of_nat n) [] os, q)
  | ReadCb count c2c script =>
      '(l, os, q) ← queue_read count count (first_block count c2c) (default [] script) q;
      Some (OutBlock (Z.of_nat (length l)) l os, q)
  end.

Fixpoint queue_run (cs : list (rb_call T)) (q : list T) : option (list (call_out T)) :=
  match cs with
  | [] => Some []
  | c :: cs => '(o, q) ← queue_call c q; os ← queue_run cs q; Some (o :: os)
  end.

End specification.

Section refinement.
Context {T : Type} (k w : Z) (P : rb_params k w).
Implicit Types (rb : ringbuffer T).

Definition capacity : nat := Z.to_nat (buffer_size k).

Lemma count_le_capacity rb : rb_ok k w rb → (length (contents k w rb) ≤ capacity)%nat.
Proof using P.
  intros H. pose proof (length_contents k w P rb H). pose proof (ok_count _ _ _ H).
  unfold capacity. lia.
Qed.

Lemma capacity_Z : Z.of_nat capacity = 2 ^ k.
Proof using P. pose proof (pow_facts k w P). unfold capacity, buffer_size. lia. Qed.

Lemma insert_refines x rb :
  32 ≤ w → rb_ok k w rb →
  let '(b, rb') := insert k w x rb in
  rb_ok k w rb' ∧
  if decide (length (contents k w rb) < capacity)%nat
  then b = true ∧ contents k w rb' = contents k w rb ++ [x]
  else b = false ∧ rb' = rb.
Proof using P.
  intros Hw H. pose proof (length_contents k w P rb H) as Hl. pose proof capacity_Z as Hc.
  unfold insert. rewrite idx_sub_count, <- Hl by done. unfold buffer_size at 1. rewrite <- Hc.
  pose proof (count_le_capacity rb H). case_decide.
  - destruct (Z.eqb_spec (Z.of_nat (length (contents k w rb))) (Z.of_nat capacity)); [lia|].
    destruct (push_block k w P rb [x] H ltac:(simpl; lia)) as [Hok Heq]. eauto.
  - destruct (Z.eqb_spec (Z.of_nat (length (contents k w rb))) (Z.of_nat capacity)); [done | lia].
Qed.

Lemma remove_refines rb :
  rb_ok k w rb →
  ∃ rb', remove k w rb = Ok (hd_error (contents k w rb), rb') ∧
    rb_ok k w rb' ∧ contents k w rb' = tl (contents k w rb).
Proof using P.
  intros H. unfold remove. destruct (Z.eqb_spec (rb_tail rb) (rb_head rb)) as [He|He].
  - apply (head_tail_empty k w P) in He; [|done]. rewrite He. by exists rb.
  - destruct (slot_lookup k w P (data_buff rb) (rb_tail rb) (ok_buff _ _ _ H)) as [x Hx].
    rewrite Hx. simpl.
    assert (0 ≤ 1 ≤ readAvailable w rb) as Hr.
    { pose proof (readAvailable_bound k w P rb).
      rewrite (head_tail_empty k w P), (contents_nil k w P) in He by done. lia. }
    destruct (pop_block k w P rb 1 H Hr) as (Hok & Heq & _).
    change (Z.to_nat 1) with 1%nat in Heq. cbn [window] in Heq. rewrite Hx in Heq.
    simpl in Heq. exists (Rb (rb_head rb) (wrap w (rb_tail rb + 1)) (data_buff rb)).
    split; [|split]; [by rewrite Heq | exact Hok | by rewrite Heq].
Qed.

Lemma remove_many_refines n rb :
  rb_ok k w rb →
  let '(m, rb') := remove_many w (Z.of_nat n) rb in
  m = Z.of_nat (n `min` length (contents k w rb)) ∧
  rb_ok k w rb' ∧ contents k w rb' = drop n (contents k w rb).
Proof using P.
  intros H. unfold remove_many. fold (readAvailable w rb).
  pose proof (length_contents k w P rb H) as Hl. pose proof (readAvailable_bound k w P rb).
  set (m := if readAvailable w rb <? Z.of_nat n then readAvailable w rb else Z.of_nat n).
  assert (Hm : m = Z.of_nat (n `min` length (contents k w rb)))
    by (unfold m; destruct (Z.ltb_spec (readAvailable w rb) (Z.of_nat n)); lia).
  destruct (pop_block k w P rb m H ltac:(lia)) as (Hok & Heq & _).
  split; [done|]. split; [exact Hok|]. rewrite Heq at 1.
  pose proof (length_window k w P (data_buff rb) (rb_tail rb) (Z.to_nat m) (ok_buff _ _ _ H)) as Hw.
  destruct (decide (n ≤ length (contents k w rb))%nat).
  - replace n with (length (window k (data_buff rb) (rb_tail rb) (Z.to_nat m))) at 1 by lia.
    by rewrite drop_app_length.
  - apply (f_equal length) in Heq. rewrite length_app in Heq.
    rewrite (nil_length_inv (contents k w (Rb _ _ _))) by lia.
    rewrite app_nil_r, drop_ge; [done | lia].
Qed.

Lemma writeBuff_refines l rb :
  rb_ok k w rb →
  let m := (length l `min` (capacity - length (contents k w rb)))%nat in
  ∃ rb', writeBuff k w l (Z.of_nat (length l)) rb = Ok (Z.of_nat m, rb') ∧
    rb_ok k w rb' ∧ contents k w rb' = contents k w rb ++ take m l.
Proof using P.
  intros H m. pose proof (length_contents k w P rb H) as Hl. pose proof capacity_Z as Hc.
  pose proof (count_le_capacity rb H). unfold writeBuff. fold (writeAvailable k w rb).
  rewrite (writeAvailable_count k w P) by done.
  set (tw := if _ <? _ then _ else _).
  assert (Htw : tw = Z.of_nat m)
    by (unfold tw, m; destruct (Z.ltb_spec (2 ^ k - readAvailable w rb) (Z.of_nat (length l))); lia).
  rewrite Htw, Nat2Z.id. unfold memread. rewrite decide_True by lia. rewrite drop_0. simpl.
  destruct (push_block k w P rb (take m l) H) as [Hok Heq].
  { rewrite length_take. lia. }
  destruct (write_loop k w (take m l) (rb_head rb) (data_buff rb)) as [h' buf']. eauto.
Qed.

Lemma readBuff_refines n rb :
  rb_ok k w rb →
  ∃ rb', readBuff k w (Z.of_nat n) rb
         = Ok (Z.of_nat (n `min` length (contents k w rb)), take n (contents k w rb), rb') ∧
    rb_ok k w rb' ∧ contents k w rb' = drop n (contents k w rb).
Proof using P.
  intros H. pose proof (remove_many_refines n rb H) as Hrm.
  unfold remove_many in Hrm. unfold readBuff. fold (readAvailable w rb) in *.
  set (tr := if readAvailable w rb <? Z.of_nat n then readAvailable w rb else Z.of_nat n) in *.
  destruct Hrm as (Htr & Hok & Hd).
  pose proof (length_contents k w P rb H) as Hl. pose proof (readAvailable_bound k w P rb).
  destruct (pop_block k w P rb tr H ltac:(lia)) as (_ & Heq & _).
  rewrite (read_loop_window k w P) by apply H. simpl.
  rewrite Z2Nat.id by lia. eexists; split; [|by split].
  rewrite Htr at 1. do 3 f_equal.
  pose proof (length_window k w P (data_buff rb) (rb_tail rb) (Z.to_nat tr) (ok_buff _ _ _ H)) as Hw.
  destruct (decide (n ≤ length (contents k w rb))%nat).
  - rewrite Heq. rewrite take_app_le by lia. rewrite take_ge; [done | lia].
  - rewrite (take_ge (contents k w rb)) by lia. apply (f_equal length) in Heq as Hl2.
    rewrite length_app in Hl2. rewrite (nil_length_inv (contents k w (Rb _ _ _))) in Heq by lia.
    rewrite app_nil_r in Heq. done.
Qed.

(** An element in its slot. *)
Lemma contents_slot i x rb :
  rb_ok k w rb → is_Some (contents k w rb !! i) → data_buff rb !! slot k (rb_tail rb + Z.of_nat i) = Some x →
  contents k w rb !! i = Some x.
Proof using P.
  intros H Hi%lookup_lt_is_Some Hx. pose proof (length_contents k w P rb H) as Hl. unfold contents.
  replace (Z.to_nat (readAvailable w rb))
    with (i + S (Z.to_nat (readAvailable w rb) - S i))%nat by lia.
  rewrite (window_app k w P) by apply H.
  rewrite lookup_app_r by (rewrite (length_window k w P) by apply H; lia).
  rewrite (length_window k w P) by apply H. rewrite Nat.sub_diag. simpl. by rewrite Hx.
Qed.

Lemma clear_refines rb :
  rb_ok k w rb → rb_ok k w (consumerClear rb) ∧ contents k w (consumerClear rb) = [].
Proof using P.
  intros [Hh Ht Hb Hc]. pose proof (pow_facts k w P).
  assert (Hok : rb_ok k w (consumerClear rb)).
  { split; simpl; [done|done|done|]. unfold readAvailable, buffer_size; simpl.
    rewrite Z.sub_diag. unfold wrap. rewrite Z.mod_0_l; lia. }
  split; [done|]. by apply (head_tail_empty k w P).
Qed.

(** The three ways to insert do the same. *)
Lemma insert_ptr_insert x rb : insert_ptr k w (Some x) rb = Ok (insert k w x rb).
Proof using. unfold insert_ptr, insert. by destruct (_ =? _). Qed.

Lemma insert_callback_insert x rb :
  insertFromCallbackWhenAvailable k w (λ _, (x, tt)) tt rb
  = let '(b, rb') := insert k w x rb in (b, tt, rb').
Proof using. unfold insertFromCallbackWhenAvailable, insert. by destruct (_ =? _). Qed.

(** What a call that succeeds on the list establishes. *)
Definition steps_to (r : res (rb_out T * ringbuffer T)) (o : rb_out T) (q : list T) : Prop :=
  ∃ rb', r = Ok (o, rb') ∧ rb_ok k w rb' ∧ contents k w rb' = q.

Lemma insert_steps x rb r :
  32 ≤ w → rb_ok k w rb → r = Ok (insert k w x rb) →
  steps_to ('(b, rb) ← r; mret (OutBool b, rb)) (queue_insert capacity x (contents k w rb)).1
    (queue_insert capacity x (contents k w rb)).2.
Proof using P.
  intros Hw H ->. pose proof (insert_refines x rb Hw H) as Hi. cbn [mbind res_bind]. unfold queue_insert.
  destruct (insert k w x rb) as [b rb']. destruct Hi as [Hok Hi]. exists rb'.
  case_decide; destruct Hi as [-> Hi]; by subst.
Qed.

Lemma remove_one_steps rb :
  rb_ok k w rb →
  let '(b, rb') := remove_one w rb in
  b = bool_decide (contents k w rb ≠ []) ∧ rb_ok k w rb' ∧ contents k w rb' = tl (contents k w rb).
Proof using P.
  intros H. destruct (remove_refines rb H) as (rb' & Hr & Hok & Hc).
  unfold remove in Hr. unfold remove_one. destruct (Z.eqb_spec (rb_tail rb) (rb_head rb)) as [He|He].
  - apply (head_tail_empty k w P) in He; [|done]. rewrite He. by split_and!.
  - destruct (slot_lookup k w P (data_buff rb) (rb_tail rb) (ok_buff _ _ _ H)) as [x Hx].
    rewrite Hx in Hr. simpl in Hr. simplify_eq. rewrite (head_tail_empty k w P) in He by done.
    split; [|done]. symmetry. by apply bool_decide_eq_true_2.
Qed.

(** The element [i] of the window, through a pointer to its slot. *)
Lemma slot_elem_steps i x rb :
  rb_ok k w rb → contents k w rb !! i = Some x →
  slot_elem (Some (slot k (rb_tail rb + Z.of_nat i))) rb = Ok (OutElem (Some x), rb).
Proof using P.
  intros H Hx. destruct (slot_lookup k w P (data_buff rb) (rb_tail rb + Z.of_nat i) (ok_buff _ _ _ H)) as [y Hy].
  unfold slot_elem. rewrite Hy. cbn [deref mbind res_bind mret res_ret].
  assert (contents k w rb !! i = Some y) by (by apply contents_slot). by simplify_eq.
Qed.

Lemma query_steps rb : rb_ok k w rb →
  steps_to (rb_step k w OpQuery rb)
    (OutState (bool_decide (contents k w rb = [])) (bool_decide (length (contents k w rb) = capacity))
       (Z.of_nat (length (contents k w rb))) (Z.of_nat (capacity - length (contents k w rb)))) (contents k w rb).
Proof using P.
  intros H. pose proof (length_contents k w P rb H) as Hl.
  pose proof (count_le_capacity rb H). pose proof capacity_Z.
  exists rb. split; [|done]. cbn [rb_step].
  assert (isEmpty w rb = bool_decide (contents k w rb = [])) as ->.
  { symmetry. unfold isEmpty. destruct (Z.eqb_spec (readAvailable w rb) 0) as [E|E];
      [apply bool_decide_eq_true_2 | apply bool_decide_eq_false_2];
      by rewrite (contents_nil k w P). }
  assert (isFull k w rb = bool_decide (length (contents k w rb) = capacity)) as ->.
  { symmetry. unfold isFull. rewrite (writeAvailable_count k w P) by done.
    destruct (Z.eqb_spec (2 ^ k - readAvailable w rb) 0) as [E|E];
      [apply bool_decide_eq_true_2 | apply bool_decide_eq_false_2]; lia. }
  rewrite (writeAvailable_count k w P), Hl by done. do 4 f_equal. lia.
Qed.

(** One step of the class is one step of the list queue. *)
Lemma step_refines op rb o q :
  32 ≤ w → rb_ok k w rb → queue_step capacity op (contents k w rb) = Some (o, q) →
  steps_to (rb_step k w op rb) o q.
Proof using P.
  intros Hw H. destruct op as [x|x|x| | |n| |i|i|l|n| | |]; cbn [rb_step queue_step]; intros Hq.
  - replace o with (o, q).1 by done. replace q with (o, q).2 at 2 by done. injection Hq as <-.
    pose proof (insert_steps x rb _ Hw H eq_refl) as Hs. cbn [mbind res_bind] in Hs.
    by destruct (insert k w x rb).
  - replace o with (o, q).1 by done. replace q with (o, q).2 at 2 by done. injection Hq as <-.
    by apply insert_steps, insert_ptr_insert.
  - replace o with (o, q).1 by done. replace q with (o, q).2 at 2 by done. injection Hq as <-.
    rewrite insert_callback_insert. pose proof (insert_steps x rb _ Hw H eq_refl) as Hs.
    cbn [mbind res_bind] in Hs. by destruct (insert k w x rb).
  - simplify_eq. destruct (remove_refines rb H) as (rb' & -> & ? & ?). by exists rb'.
  - simplify_eq. pose proof (remove_one_steps rb H) as Hr.
    destruct (remove_one w rb) as [b rb']. destruct Hr as (-> & ? & ?). by exists rb'.
  - simplify_eq. pose proof (remove_many_refines n rb H) as Hr.
    destruct (remove_many w (Z.of_nat n) rb) as [m rb']. destruct Hr as (-> & ? & ?). by exists rb'.
  - simplify_eq. exists rb. split; [|done]. unfold peek.
    destruct (Z.eqb_spec (rb_tail rb) (rb_head rb)) as [He|He];
      rewrite (head_tail_empty k w P) in He by done; [by rewrite He|].
    destruct (contents k w rb) as [|x l] eqn:Hc; [done|].
    pose proof (slot_elem_steps 0 x rb H) as Hs. rewrite Hc, Z.add_0_r in Hs. by apply Hs.
  - simplify_eq. exists rb. split; [|done]. unfold at_. rewrite idx_sub_count by done.
    pose proof (length_contents k w P rb H). destruct (Z.leb_spec (readAvailable w rb) (Z.of_nat i)).
    + by rewrite (lookup_ge_None_2 _ i) by lia.
    + destruct (lookup_lt_is_Some_2 (contents k w rb) i) as [x Hx]; [lia|]. rewrite Hx. by apply slot_elem_steps.
  - destruct (contents k w rb !! i) as [x|] eqn:Hx; simplify_eq/=. exists rb. split; [|done].
    by apply slot_elem_steps.
  - simplify_eq. destruct (writeBuff_refines l rb H) as (rb' & -> & ? & ?). simpl. by exists rb'.
  - simplify_eq. destruct (readBuff_refines n rb H) as (rb' & -> & ? & ?). simpl. by exists rb'.
  - simplify_eq. by apply query_steps.
  - simplify_eq. destruct (clear_refines rb H). by exists (consumerClear rb).
  - simplify_eq. destruct (clear_refines rb H). by exists (consumerClear rb).
Qed.

Lemma steps_refine ops rb os q :
  32 ≤ w → rb_ok k w rb → queue_steps capacity ops (contents k w rb) = Some (os, q) →
  ∃ rb', rb_steps k w ops rb = Ok (os, rb') ∧ rb_ok k w rb' ∧ contents k w rb' = q.
Proof using P.
  intros Hw. revert rb os q. induction ops as [|op ops IH]; intros rb os q H Hq; cbn [rb_steps queue_steps] in *.
  - simplify_eq. by exists rb.
  - destruct (queue_step capacity op (contents k w rb)) as [[o q1]|] eqn:Ho; simplify_eq/=.
    destruct (queue_steps capacity ops q1) as [[os1 q2]|] eqn:Hs; simplify_eq/=.
    destruct (step_refines op rb o q1 Hw H Ho) as (rb1 & -> & H1 & Hc1). cbn [mbind res_bind].
    rewrite <- Hc1 in Hs. destruct (IH rb1 os1 q H1 Hs) as (rb2 & -> & H2 & Hc2). by exists rb2.
Qed.

(** *** Callbacks that make a script of calls *)

Lemma insert_tail x rb : rb_tail (insert k w x rb).2 = rb_tail rb.
Proof using. unfold insert. by destruct (_ =? _). Qed.

Ltac side_cases :=
  repeat match goal with
  | H : (_ ≫= _) = Ok _ |- _ => apply bind_Ok in H as (? & ? & H)
  | H : context [let '(_, _) := ?x in _] |- _ => destruct x
  | H : (if ?b then _ else _) = Ok _ |- _ => destruct b
  end; simplify_eq/=.

Lemma slot_elem_same p rb o rb' : slot_elem p rb = Ok (o, rb') → rb' = rb.
Proof using. unfold slot_elem. destruct p; intros H; side_cases; done. Qed.

Lemma keeps_head_step op rb o rb' :
  keeps_head op = true → rb_step k w op rb = Ok (o, rb') → rb_head rb' = rb_head rb.
Proof using.
  destruct op; cbn [keeps_head rb_step]; intros Hk H; try done;
    try (by rewrite (slot_elem_same _ _ _ _ H)); try (by simplify_eq/=).
  - unfold remove in H. side_cases; done.
  - unfold remove_one in H. by destruct (_ =? _); simplify_eq/=.
  - unfold readBuff in H. side_cases; done.
Qed.

Lemma keeps_tail_step op rb o rb' :
  keeps_tail op = true → rb_step k w op rb = Ok (o, rb') → rb_tail rb' = rb_tail rb.
Proof using.
  destruct op; cbn [keeps_tail rb_step]; intros Hk H; try done;
    try (by rewrite (slot_elem_same _ _ _ _ H)); try (by simplify_eq/=).
  - pose proof (insert_tail x rb). destruct (insert k w x rb). by simplify_eq/=.
  - rewrite insert_ptr_insert in H. cbn [mbind res_bind] in H.
    pose proof (insert_tail x rb). destruct (insert k w x rb). by simplify_eq/=.
  - rewrite insert_callback_insert in H. pose proof (insert_tail x rb). destruct (insert k w x rb). by simplify_eq/=.
  - unfold writeBuff in H. side_cases; done.
Qed.

Lemma steps_keep (may : rb_op T → bool) (f : ringbuffer T → Z) ops rb os rb' :
  (∀ op rb o rb', may op = true → rb_step k w op rb = Ok (o, rb') → f rb' = f rb) →
  forallb may ops = true → rb_steps k w ops rb = Ok (os, rb') → f rb' = f rb.
Proof using.
  intros Hf. revert rb os. induction ops as [|op ops IH]; intros rb os Hm H; cbn [rb_steps] in H; [by simplify_eq/=|].
  cbn [forallb] in Hm. apply andb_true_iff in Hm as [Hm1 Hm].
  apply bind_Ok in H as ([o rb1] & H1 & H). apply bind_Ok in H as ([os1 rb2] & H2 & H). simplify_eq/=.
  by rewrite (IH _ _ Hm H2), (Hf _ _ _ _ Hm1 H1).
Qed.

Lemma scripted_refines may (f : ringbuffer T → Z) script rb outs os q script' :
  32 ≤ w → (∀ op rb o rb', may op = true → rb_step k w op rb = Ok (o, rb') → f rb' = f rb) →
  rb_ok k w rb → queue_callback capacity may script (contents k w rb) = Some (os, q, script') →
  ∃ rb', scripted k w (rb, (script, Ok outs)) = (rb', (script', Ok (outs ++ os))) ∧
    rb_ok k w rb' ∧ contents k w rb' = q ∧ f rb' = f rb.
Proof using P.
  intros Hw Hf H Hq. unfold queue_callback in Hq. unfold scripted. destruct script as [|ops script].
  - simplify_eq. exists rb. by rewrite app_nil_r.
  - destruct (forallb may ops) eqn:Hm; [|done].
    destruct (queue_steps capacity ops (contents k w rb)) as [[os1 q1]|] eqn:Hs; simplify_eq/=.
    destruct (steps_refine ops rb os q Hw H Hs) as (rb' & Hr & H' & Hc). rewrite Hr.
    exists rb'. split; [done|]. split; [done|]. split; [done|]. by eapply steps_keep.
Qed.

(** The callback of a block call. *)
Definition runs_script (cb : option (ringbuffer T * script_world → ringbuffer T * script_world))
    (script : list (list (rb_op T))) : Prop :=
  cb = Some (scripted k w) ∨ cb = None ∧ script = [].

Lemma run_script cb script rb outs :
  runs_script cb script →
  match cb with Some f => f (rb, (script, Ok outs)) | None => (rb, (script, Ok outs)) end
  = scripted k w (rb, (script, Ok outs)).
Proof using. by intros [->|[-> ->]]. Qed.

Lemma runs_script_next cb may script q os q' script' :
  runs_script cb script → queue_callback capacity may script q = Some (os, q', script') → runs_script cb script'.
Proof using.
  intros [->|[-> ->]]; [by left|]. cbn. intros H. simplify_eq. by right.
Qed.

Lemma write_cb_refines cb fuel : ∀ fuel' (buff : list T) written tw script rb outs n os q,
  32 ≤ w → runs_script cb script → rb_ok k w rb → (written ≤ length buff)%nat →
  (written < length buff → 1 ≤ tw ≤ length buff - written)%nat →
  (length buff - written ≤ fuel)%nat → (length buff - written < fuel')%nat →
  queue_write capacity fuel (drop written buff) tw script (contents k w rb) = Some (n, os, q) →
  ∃ rb' script', run_loop fuel' (writeBuff_cb_body k w cb buff (Z.of_nat (length buff)))
      (Z.of_nat written, rb_head rb, Z.of_nat tw, rb, (script, Ok outs) : script_world)
    = Ok (Z.of_nat (written + n), rb', (script', Ok (outs ++ os)) : script_world) ∧ rb_ok k w rb' ∧ contents k w rb' = q.
Proof using P.
  induction fuel as [|fuel IH]; intros [|fuel'] buff written tw script rb outs n os q Hw Hcb H Hwr Htw Hf Hf' Hq;
    try lia; cbn [run_loop queue_write] in *; unfold writeBuff_cb_body at 1.
  { simplify_eq. destruct (Z.ltb_spec (Z.of_nat written) (Z.of_nat (length buff))); [lia|]. cbn.
    exists rb, script. by rewrite app_nil_r, Nat.add_0_r. }
  fold (writeAvailable k w rb). rewrite (writeAvailable_count k w P) by done.
  pose proof (length_contents k w P rb H) as Hl. pose proof (count_le_capacity rb H). pose proof capacity_Z as HcZ.
  pose proof (length_drop buff written) as Hd.
  case_decide as Hstop.
  { simplify_eq. exists rb, script. rewrite app_nil_r, Nat.add_0_r. split; [|done].
    destruct (Z.ltb_spec (Z.of_nat written) (Z.of_nat (length buff))); [|done].
    destruct Hstop as [Hs|Hs]; [rewrite Hs in Hd; simpl in Hd; lia|].
    destruct (Z.eqb_spec (2 ^ k - readAvailable w rb) 0); [done|lia]. }
  assert (Hlt : (written < length buff)%nat) by (destruct (decide (written < length buff)%nat); [done|];
    exfalso; apply Hstop; left; apply drop_ge; lia).
  destruct (Z.ltb_spec (Z.of_nat written) (Z.of_nat (length buff))); [|lia].
  destruct (Z.eqb_spec (2 ^ k - readAvailable w rb) 0); [exfalso; apply Hstop; right; lia|].
  specialize (Htw Hlt). set (m := (tw `min` (capacity - length (contents k w rb)))%nat) in *.
  assert (Hm : (if 2 ^ k - readAvailable w rb <? Z.of_nat tw then 2 ^ k - readAvailable w rb else Z.of_nat tw) = Z.of_nat m)
    by (unfold m; destruct (Z.ltb_spec (2 ^ k - readAvailable w rb) (Z.of_nat tw)); lia).
  rewrite Hm, !Nat2Z.id. unfold memread. rewrite decide_True by (unfold m; lia). cbn [mbind res_bind].
  set (src := take m (drop written buff)) in *.
  assert (Hls : length src = m) by (unfold src; rewrite length_take; lia).
  destruct (push_block k w P rb src H ltac:(lia)) as [Hok Heq].
  destruct (write_loop k w src (rb_head rb) (data_buff rb)) as [h' buf']. cbn [fst snd] in *. rewrite <- Heq in Hq.
  rewrite (run_script cb _ _ _ Hcb).
  destruct (queue_callback capacity keeps_head script (contents k w (Rb h' (rb_tail rb) buf'))) as [[[os1 q1] script1]|] eqn:Hc;
    [|done]. cbn [mbind option_bind] in Hq.
  destruct (scripted_refines keeps_head rb_head _ _ outs _ _ _ Hw keeps_head_step Hok Hc) as (rb1 & -> & Hok1 & Hc1 & Hh).
  cbn [mbind res_bind mret res_ret]. cbn [rb_head] in Hh.
  destruct (queue_write capacity fuel (drop m (drop written buff)) _ script1 q1) as [[[n2 os2] q2]|] eqn:Hrec; [|done].
  cbn [mbind option_bind] in Hq. injection Hq as <- <- <-.
  rewrite drop_drop, length_drop in Hrec.
  destruct (IH fuel' buff (written + m)%nat (length buff - written - m)%nat script1 rb1 (outs ++ os1) n2 os2 q2) as (rb' & script' & Hrun & H' & Hc');
    try done; try lia; [by eapply runs_script_next|by rewrite Hc1|].
  exists rb', script'.
  replace (Z.of_nat written + Z.of_nat m) with (Z.of_nat (written + m)) by lia.
  replace (Z.of_nat (length buff) - Z.of_nat (written + m)) with (Z.of_nat (length buff - written - m)) by lia.
  rewrite <- Hh. split; [|done]. refine (eq_trans Hrun _). by rewrite Nat.add_assoc, app_assoc.
Qed.

Lemma read_cb_refines cb fuel : ∀ fuel' count nread tr script rb outs l0 l os q,
  32 ≤ w → runs_script cb script → rb_ok k w rb → (nread ≤ count)%nat →
  (nread < count → 1 ≤ tr ≤ count - nread)%nat →
  (count - nread ≤ fuel)%nat → (count - nread < fuel')%nat →
  queue_read capacity fuel (count - nread) tr script (contents k w rb) = Some (l, os, q) →
  ∃ rb' script', run_loop fuel' (readBuff_cb_body k w cb (Z.of_nat count))
      (Z.of_nat nread, rb_tail rb, Z.of_nat tr, l0, rb, (script, Ok outs) : script_world)
    = Ok (Z.of_nat (nread + length l), l0 ++ l, rb', (script', Ok (outs ++ os)) : script_world) ∧ rb_ok k w rb' ∧ contents k w rb' = q.
Proof using P.
  induction fuel as [|fuel IH]; intros [|fuel'] count nread tr script rb outs l0 l os q Hw Hcb H Hn Htr Hf Hf' Hq;
    try lia; cbn [run_loop queue_read] in *; unfold readBuff_cb_body at 1.
  { simplify_eq. destruct (Z.ltb_spec (Z.of_nat nread) (Z.of_nat count)); [lia|].
    exists rb, script. by rewrite !app_nil_r, Nat.add_0_r. }
  fold (readAvailable w rb).
  pose proof (length_contents k w P rb H) as Hl. pose proof (readAvailable_bound k w P rb).
  case_decide as Hstop.
  { simplify_eq. exists rb, script. rewrite !app_nil_r, Nat.add_0_r. split; [|done].
    destruct (Z.ltb_spec (Z.of_nat nread) (Z.of_nat count)); [|done].
    destruct Hstop as [Hs|Hs]; [lia|]. rewrite (contents_nil k w P) in Hs by done. by rewrite Hs. }
  assert (Hlt : (nread < count)%nat) by lia.
  destruct (Z.ltb_spec (Z.of_nat nread) (Z.of_nat count)); [|lia].
  destruct (Z.eqb_spec (readAvailable w rb) 0) as [Hz|Hz].
  { exfalso. apply Hstop. right. by rewrite (contents_nil k w P). }
  specialize (Htr Hlt). set (m := (tr `min` length (contents k w rb))%nat) in *.
  assert (Hm : (if readAvailable w rb <? Z.of_nat tr then readAvailable w rb else Z.of_nat tr) = Z.of_nat m)
    by (unfold m; destruct (Z.ltb_spec (readAvailable w rb) (Z.of_nat tr)); lia).
  rewrite Hm, !Nat2Z.id, (read_loop_window k w P) by apply H. cbn [mbind res_bind].
  destruct (pop_block k w P rb (Z.of_nat m) H ltac:(lia)) as (Hok & Heq & _). rewrite Nat2Z.id in Heq.
  pose proof (length_window k w P (data_buff rb) (rb_tail rb) m (ok_buff _ _ _ H)) as Hlw.
  set (rb0 := Rb (rb_head rb) _ (data_buff rb)) in *. set (new := window k (data_buff rb) (rb_tail rb) m) in *.
  assert (Htake : take m (contents k w rb) = new) by (rewrite Heq; by apply take_app_length').
  assert (Hdrop : drop m (contents k w rb) = contents k w rb0) by (rewrite Heq; by apply drop_app_length').
  rewrite Htake, Hdrop in Hq. rewrite (run_script cb _ _ _ Hcb).
  destruct (queue_callback capacity keeps_tail script (contents k w rb0)) as [[[os1 q1] script1]|] eqn:Hc;
    [|done]. cbn [mbind option_bind] in Hq.
  destruct (scripted_refines keeps_tail rb_tail _ _ outs _ _ _ Hw keeps_tail_step Hok Hc) as (rb1 & -> & Hok1 & Hc1 & Ht).
  cbn [mbind res_bind mret res_ret]. cbn [rb_tail rb0] in Ht.
  destruct (queue_read capacity fuel (count - nread - m) _ script1 q1) as [[[l2 os2] q2]|] eqn:Hrec; [|done].
  cbn [mbind option_bind] in Hq. injection Hq as <- <- <-.
  destruct (IH fuel' count (nread + m)%nat (count - nread - m)%nat script1 rb1 (outs ++ os1) (l0 ++ new) l2 os2 q2)
    as (rb' & script' & Hrun & H' & Hc');
    try done; try lia; [by eapply runs_script_next| |].
  { rewrite Hc1. by replace (count - (nread + m))%nat with (count - nread - m)%nat by lia. }
  exists rb', script'.
  replace (Z.of_nat nread + Z.of_nat m) with (Z.of_nat (nread + m)) by lia.
  replace (Z.of_nat count - Z.of_nat (nread + m)) with (Z.of_nat (count - nread - m)) by lia.
  rewrite <- Ht. split; [|done]. refine (eq_trans Hrun _).
  by rewrite !length_app, Hlw, Nat.add_assoc, !app_assoc.
Qed.

Lemma first_block_Z count c2c :
  (if negb (Z.of_nat c2c =? 0) && (Z.of_nat c2c <? Z.of_nat count) then Z.of_nat c2c else Z.of_nat count)
  = Z.of_nat (first_block count c2c).
Proof using.
  unfold first_block. destruct (Z.eqb_spec (Z.of_nat c2c) 0), (Z.ltb_spec (Z.of_nat c2c) (Z.of_nat count));
    case_decide; simpl; lia.
Qed.

Lemma first_block_range count c2c : (0 < count → 1 ≤ first_block count c2c ≤ count)%nat.
Proof using. unfold first_block. case_decide; lia. Qed.

Lemma runs_script_start script :
  runs_script ((λ _, scripted k w) <$> script) (default [] script).
Proof using. destruct script; [by left|by right]. Qed.

(** One call of the class is one call of the list queue. *)
Lemma call_refines c rb o q :
  32 ≤ w → rb_ok k w rb → queue_call capacity c (contents k w rb) = Some (o, q) →
  ∃ rb', call_step k w c rb = Ok (o, rb') ∧ rb_ok k w rb' ∧ contents k w rb' = q.
Proof using P.
  intros Hw H Hq. destruct c as [op|buff c2c script|count c2c script]; cbn [queue_call call_step] in *.
  - destruct (queue_step capacity op (contents k w rb)) as [[o1 q1]|] eqn:Ho; simplify_eq/=.
    destruct (step_refines op rb o1 q Hw H Ho) as (rb' & -> & ? & ?). by exists rb'.
  - destruct (queue_write capacity _ _ _ _ _) as [[[n os] q1]|] eqn:Ho; simplify_eq/=.
    unfold writeBuff_cb. rewrite first_block_Z.
    destruct (write_cb_refines ((λ _, scripted k w) <$> script) (length buff) (S (length buff)) buff 0
      (first_block (length buff) c2c) (default [] script) rb [] n os q) as (rb' & script' & Hrun & ? & ?);
      try done; try lia; [apply runs_script_start|pose proof (first_block_range (length buff) c2c); lia|].
    rewrite Nat2Z.id. change (Z.of_nat 0) with 0 in Hrun. rewrite Hrun. by exists rb'.
  - destruct (queue_read capacity _ _ _ _ _) as [[[l os] q1]|] eqn:Ho; simplify_eq/=.
    unfold readBuff_cb. rewrite first_block_Z.
    destruct (read_cb_refines ((λ _, scripted k w) <$> script) count (S count) count 0
      (first_block count c2c) (default [] script) rb [] [] l os q) as (rb' & script' & Hrun & ? & ?);
      try done; try lia; [apply runs_script_start|pose proof (first_block_range count c2c); lia|by rewrite Nat.sub_0_r|].
    rewrite Nat2Z.id. change (Z.of_nat 0) with 0 in Hrun. rewrite Hrun. by exists rb'.
Qed.

End refinement.

(** ** Block transfers with a callback *)

Section callbacks.
Context {T W : Type} (k w : Z) (P : rb_params k w).
Implicit Types (rb : ringbuffer T) (cb : option (ringbuffer T * W → ringbuffer T * W)).

(** A callback that only acts as the consumer: it may drop elements. *)
Definition consumer_callback cb : Prop :=
  ∀ f rb world, cb = Some f → rb_ok k w rb →
    let '(rb', _) := f (rb, world) in
    rb_ok k w rb' ∧ rb_head rb' = rb_head rb ∧
    ∃ dropped, contents k w rb = dropped ++ contents k w rb'.

(** A callback that only acts as the producer: it may append elements. *)
Definition producer_callback cb : Prop :=
  ∀ f rb world, cb = Some f → rb_ok k w rb →
    let '(rb', _) := f (rb, world) in
    rb_ok k w rb' ∧ rb_tail rb' = rb_tail rb ∧
    ∃ added, contents k w rb' = contents k w rb ++ added.

Definition run_callback cb (rb : ringbuffer T) (world : W) : ringbuffer T * W :=
  match cb with Some f => f (rb, world) | None => (rb, world) end.

Lemma run_consumer cb rb world :
  consumer_callback cb → rb_ok k w rb →
  let rb' := (run_callback cb rb world).1 in
  rb_ok k w rb' ∧ rb_head rb' = rb_head rb ∧
  ∃ dropped, contents k w rb = dropped ++ contents k w rb'.
Proof using.
  intros Hcb H. destruct cb as [f|]; simpl.
  - specialize (Hcb f rb world eq_refl H). by destruct (f (rb, world)).
  - split_and!; try done. by exists [].
Qed.

Lemma run_producer cb rb world :
  producer_callback cb → rb_ok k w rb →
  let rb' := (run_callback cb rb world).1 in
  rb_ok k w rb' ∧ rb_tail rb' = rb_tail rb ∧
  ∃ added, contents k w rb' = contents k w rb ++ added.
Proof using.
  intros Hcb H. destruct cb as [f|]; simpl.
  - specialize (Hcb f rb world eq_refl H). by destruct (f (rb, world)).
  - split_and!; try done. exists []. by rewrite app_nil_r.
Qed.

(** The loop invariant of [writeBuff_cb], from the contents [q0] on. *)
Definition write_inv (q0 buff : list T) (count : Z) (s : Z * Z * Z * ringbuffer T * W) : Prop :=
  let '(written, tmp_head, to_write, rb, _) := s in
  0 ≤ written ≤ count ∧ rb_ok k w rb ∧ tmp_head = rb_head rb ∧
  (written < count → 1 ≤ to_write ≤ count - written) ∧
  ∃ dropped, q0 ++ take (Z.to_nat written) buff = dropped ++ contents k w rb.

Definition write_post (q0 buff : list T) (count : Z) (r : Z * ringbuffer T * W) : Prop :=
  let '(n, rb, _) := r in
  0 ≤ n ≤ count ∧ rb_ok k w rb ∧ (n < count → isFull k w rb = true) ∧
  ∃ dropped, q0 ++ take (Z.to_nat n) buff = dropped ++ contents k w rb.

Lemma write_round cb q0 buff count s :
  consumer_callback cb → count = Z.of_nat (length buff) → write_inv q0 buff count s →
  ∃ x, writeBuff_cb_body k w cb buff count s = Ok x ∧
    match x with
    | inl s' => write_inv q0 buff count s' ∧
                (Z.to_nat (count - s'.1.1.1.1) < Z.to_nat (count - s.1.1.1.1))%nat
    | inr r => write_post q0 buff count r
    end.
Proof using P.
  intros Hcb Hc. destruct s as [[[[written tmp_head] to_write] rb] world].
  intros (Hwr & H & -> & Htw & dropped & Hq). cbn [writeBuff_cb_body fst].
  fold (writeAvailable k w rb). destruct (Z.ltb_spec written count) as [Hlt|Hge].
  2: { eexists; split; [done|]. split_and!; try done; try lia. eauto. }
  specialize (Htw Hlt). destruct (Z.eqb_spec (writeAvailable k w rb) 0) as [Hz|Hz].
  { eexists; split; [done|]. split_and!; try done; try lia; [|eauto].
    intros _. unfold isFull. by rewrite Hz. }
  rewrite (writeAvailable_count k w P) in * by done. pose proof (ok_count _ _ _ H) as Hcnt.
  unfold buffer_size in Hcnt.
  set (tw := if _ <? to_write then _ else to_write).
  assert (Hb : 1 ≤ tw ≤ count - written ∧ readAvailable w rb + tw ≤ 2 ^ k)
    by (unfold tw; destruct (Z.ltb_spec (2 ^ k - readAvailable w rb) to_write); lia).
  clearbody tw. unfold memread. rewrite decide_True by lia. simpl.
  set (src := take (Z.to_nat tw) (drop (Z.to_nat written) buff)).
  assert (Hls : length src = Z.to_nat tw)
    by (unfold src; rewrite length_take, length_drop; lia).
  destruct (push_block k w P rb src H ltac:(lia)) as [Hok Heq].
  destruct (write_loop k w src (rb_head rb) (data_buff rb)) as [h' buf']. simpl in *.
  pose proof (run_consumer cb _ world Hcb Hok) as (Hok2 & Hh2 & dropped2 & Hd2).
  unfold run_callback in Hok2, Hh2, Hd2.
  destruct (match cb with Some f => _ | None => _ end) as [rb2 world2]. simpl in *.
  eexists; split; [done|]. simpl. split; [|lia].
  split_and!; try lia; [done|].
  exists (dropped ++ dropped2). rewrite <- app_assoc, <- Hd2, Heq, app_assoc, <- Hq.
  rewrite <- app_assoc. f_equal. unfold src.
  rewrite Z2Nat.inj_add by lia. by rewrite take_take_drop.
Qed.

(** The loop invariant of [readBuff_cb]. *)
Definition read_inv (q0 : list T) (count : Z) (s : Z * Z * Z * list T * ringbuffer T * W) : Prop :=
  let '(nread, tmp_tail, to_read, out, rb, _) := s in
  0 ≤ nread ≤ count ∧ rb_ok k w rb ∧ tmp_tail = rb_tail rb ∧
  (nread < count → 1 ≤ to_read ≤ count - nread) ∧ nread = Z.of_nat (length out) ∧
  ∃ added, q0 ++ added = out ++ contents k w rb.

Definition read_post (q0 : list T) (count : Z) (r : Z * list T * ringbuffer T * W) : Prop :=
  let '(n, out, rb, _) := r in
  0 ≤ n ≤ count ∧ rb_ok k w rb ∧ n = Z.of_nat (length out) ∧
  (n < count → isEmpty w rb = true) ∧ ∃ added, q0 ++ added = out ++ contents k w rb.

Lemma read_round cb q0 count s :
  producer_callback cb → read_inv q0 count s →
  ∃ x, readBuff_cb_body k w cb count s = Ok x ∧
    match x with
    | inl s' => read_inv q0 count s' ∧
                (Z.to_nat (count - s'.1.1.1.1.1) < Z.to_nat (count - s.1.1.1.1.1))%nat
    | inr r => read_post q0 count r
    end.
Proof using P.
  intros Hcb. destruct s as [[[[[nread tmp_tail] to_read] out] rb] world].
  intros (Hwr & H & -> & Htw & Hlen & added & Hq). cbn [readBuff_cb_body fst].
  fold (readAvailable w rb). destruct (Z.ltb_spec nread count) as [Hlt|Hge].
  2: { eexists; split; [done|]. split_and!; try done; try lia. eauto. }
  specialize (Htw Hlt). destruct (Z.eqb_spec (readAvailable w rb) 0) as [Hz|Hz].
  { eexists; split; [done|]. split_and!; try done; try lia; [|eauto].
    intros _. unfold isEmpty. by rewrite Hz. }
  pose proof (readAvailable_bound k w P rb).
  set (tr := if _ <? to_read then _ else to_read).
  assert (Hb : 1 ≤ tr ≤ count - nread ∧ 0 ≤ tr ≤ readAvailable w rb)
    by (unfold tr; destruct (Z.ltb_spec (readAvailable w rb) to_read); lia).
  clearbody tr. rewrite (read_loop_window k w P) by apply H. simpl. rewrite Z2Nat.id by lia.
  destruct (pop_block k w P rb tr H ltac:(lia)) as (Hok & Heq & _).
  pose proof (run_producer cb _ world Hcb Hok) as (Hok2 & Hh2 & added2 & Hd2).
  unfold run_callback in Hok2, Hh2, Hd2.
  destruct (match cb with Some f => _ | None => _ end) as [rb2 world2]. simpl in *.
  eexists; split; [done|]. simpl. split; [|lia].
  split_and!; try lia; [done| |].
  - rewrite length_app, (length_window k w P) by apply H. lia.
  - exists (added ++ added2). by rewrite app_assoc, Hq, Heq, Hd2, <- !app_assoc.
Qed.

End callbacks.

(** ** Properties *)

(** C1: whatever sequence of calls is made on a ring buffer whose index type has
    at least 32 bits, and however often the indexes have wrapped around: every
    member function returns exactly what it returns on a first-in first-out
    list of at most [buffer_size] elements.  [peek], [at] and [operator[]] lead
    to the element at that place of the list, and the block calls with a
    callback transfer the elements in rounds, whatever calls of the other side
    the callback makes after each.  (The list does not answer for an
    [operator[]] beyond the stored elements, nor for a callback that moves the
    index that its caller is moving.) *)
Theorem ringbuffer_refines_queue {T} (k w : Z) (cs : list (rb_call T)) (rb : ringbuffer T) outs :
  rb_params k w → 32 ≤ w → rb_ok k w rb →
  queue_run (capacity k) cs (contents k w rb) = Some outs → rb_run k w cs rb = Ok outs.
Proof.
  intros P Hw. revert rb outs. induction cs as [|c cs IH]; intros rb outs H Hq; cbn [rb_run queue_run] in *.
  - by simplify_eq.
  - destruct (queue_call (capacity k) c (contents k w rb)) as [[o q]|] eqn:Hc; simplify_eq/=.
    destruct (queue_run (capacity k) cs q) as [os|] eqn:Hr; simplify_eq/=.
    destruct (call_refines k w P c rb o q Hw H Hc) as (rb' & -> & H' & Hc'). cbn [mbind res_bind].
    rewrite <- Hc' in Hr. by rewrite (IH rb' os H' Hr).
Qed.

(** C37: [writeBuff] with a callback that consumes returns after finitely many
    rounds, appends a prefix of the source in order without losing or
    duplicating an element, and stops early only when the buffer is full. *)
Theorem writeBuff_cb_correct {T W} (k w : Z) cb (buff : list T) (c2c : Z)
    (rb : ringbuffer T) (world : W) :
  rb_params k w → consumer_callback k w cb → 0 ≤ c2c → rb_ok k w rb →
  ∃ n rb' world', 
    writeBuff_cb k w cb buff (Z.of_nat (length buff)) c2c rb world = Ok (n, rb', world') ∧
    write_post k w (contents k w rb) buff (Z.of_nat (length buff)) (n, rb', world').
Proof.
  intros P Hcb Hc2c H. unfold writeBuff_cb. set (count := Z.of_nat (length buff)).
  set (tw := if negb _ && _ then c2c else count).
  assert (Hinit : write_inv k w (contents k w rb) buff count (0, rb_head rb, tw, rb, world)).
  { cbn [write_inv]. split_and!; try lia; [done| |exists []; simpl; by rewrite app_nil_r].
    unfold tw. destruct (Z.eqb_spec c2c 0), (Z.ltb_spec c2c count); simpl; lia. }
  destruct (run_loop_total (writeBuff_cb_body k w cb buff count) _
    (write_post k w (contents k w rb) buff count)
    (λ s, Z.to_nat (count - s.1.1.1.1))
    (λ s, write_round k w P cb _ buff count s Hcb eq_refl)
    (S (Z.to_nat count)) _ Hinit) as ([[n rb'] world'] & Hrun & Hpost); [simpl; lia|].
  by exists n, rb', world'.
Qed.

(** [readBuff] with a callback that produces returns the elements in the
    order they were stored, and stops early only when the buffer is empty. *)
Theorem readBuff_cb_correct {T W} (k w : Z) cb (count : nat) (c2c : Z)
    (rb : ringbuffer T) (world : W) :
  rb_params k w → producer_callback k w cb → 0 ≤ c2c → rb_ok k w rb →
  ∃ n out rb' world',
    readBuff_cb k w cb (Z.of_nat count) c2c rb world = Ok (n, out, rb', world') ∧
    read_post k w (contents k w rb) (Z.of_nat count) (n, out, rb', world').
Proof.
  intros P Hcb Hc2c H. unfold readBuff_cb.
  set (tw := if negb _ && _ then c2c else Z.of_nat count).
  assert (Hinit : read_inv k w (contents k w rb) (Z.of_nat count) (0, rb_tail rb, tw, [], rb, world)).
  { cbn [read_inv]. split_and!; try lia; try done; [|exists []; by rewrite app_nil_r].
    unfold tw. destruct (Z.eqb_spec c2c 0), (Z.ltb_spec c2c (Z.of_nat count)); simpl; lia. }
  destruct (run_loop_total (readBuff_cb_body k w cb (Z.of_nat count)) _
    (read_post k w (contents k w rb) (Z.of_nat count))
    (λ s, Z.to_nat (Z.of_nat count - s.1.1.1.1.1))
    (λ s, read_round k w P cb _ (Z.of_nat count) s Hcb)
    (S (Z.to_nat (Z.of_nat count))) _ Hinit) as ([[[n out] rb'] world'] & Hrun & Hpost); [simpl; lia|].
  by exists n, out, rb', world'.
Qed.

(** with an index type narrower than [int], a full buffer whose head has
    wrapped past its tail accepts one more element: the oldest one is
    overwritten and the count exceeds the capacity. *)
Theorem insert_narrow_overwrites {T} (k w : Z) (x : T) (rb : ringbuffer T) :
  rb_params k w → w < 32 → rb_ok k w rb → isFull k w rb = true → rb_head rb < rb_tail rb →
  ∃ rb', insert k w x rb = (true, rb') ∧
    data_buff rb' !! slot k (rb_tail rb') = Some x ∧ ¬ rb_ok k w rb'.
Proof.
  intros P Hw H Hf Hlt. pose proof (pow_facts k w P) as Hp.
  unfold isFull in Hf. rewrite (writeAvailable_count k w P), Z.eqb_eq in Hf by done.
  pose proof (readAvailable_bound k w P rb) as Hrb.
  assert (Hpw : 2 ^ w < 2 ^ 32) by (apply Z.pow_lt_mono_r; destruct P; lia).
  change (2 ^ 32) with 4294967296 in Hpw.
  assert (Hneg : - 2 ^ w < rb_head rb - rb_tail rb < 0) by (destruct H; lia).
  unfold insert. assert ((idx_sub w (rb_head rb) (rb_tail rb) =? buffer_size k) = false) as ->.
  { apply Z.eqb_neq. unfold idx_sub, buffer_size. destruct (Z.ltb_spec w 32); [|lia].
    unfold wrap. change (2 ^ 64) with 18446744073709551616. lia. }
  eexists; split; [done|]. cbn [rb_head rb_tail data_buff]. split.
  - rewrite <- (slot_wrap k w P (rb_tail rb)).
    replace (slot k (rb_head rb)) with (slot k (wrap w (rb_tail rb))).
    + apply list_lookup_insert_eq. rewrite (ok_buff _ _ _ H). by apply (slot_lt k w).
    + pose proof (head_logical k w P rb 0) as Hl. rewrite !Z.add_0_r in Hl. rewrite Hl.
      rewrite (slot_wrap k w P). replace (readAvailable w rb) with (2 ^ k) by lia.
      rewrite !(slot_mod k w P). f_equal. rewrite <- Zplus_mod_idemp_r, Z.mod_same by lia.
      by rewrite Z.add_0_r.
  - intros [_ _ _ Hc]. unfold readAvailable, buffer_size in Hc; simpl in Hc.
    rewrite wrap_sub_l in Hc.
    replace (rb_head rb + 1 - rb_tail rb) with (rb_head rb - rb_tail rb + 1) in Hc by lia.
    rewrite <- wrap_add_l in Hc. fold (readAvailable w rb) in Hc.
    assert (2 ^ k ≤ 2 ^ (w - 1)) by (apply Z.pow_le_mono_r; destruct P; lia).
    assert (2 ^ 2 ≤ 2 ^ w) by (apply Z.pow_le_mono_r; destruct P; lia).
    replace (2 ^ w) with (2 * 2 ^ (w - 1)) in *
      by (rewrite <- Z.pow_succ_r by (destruct P; lia); f_equal; lia).
    rewrite wrap_small in Hc; [lia|].
    replace (2 ^ w) with (2 * 2 ^ (w - 1))
      by (rewrite <- Z.pow_succ_r by (destruct P; lia); f_equal; lia). lia.
Qed.

(** ** Witnesses *)

(** A buffer of four bytes whose 64-bit head index is about to wrap. *)
Definition rb_sample : ringbuffer nat := Rb 1 (2 ^ 64 - 1) [8; 9; 1; 7]%nat.

Lemma rb_sample_params : rb_params 2 64.
Proof. split; lia. Qed.

Lemma rb_sample_ok : rb_ok 2 64 rb_sample.
Proof. split; by vm_compute. Qed.

(** All member functions; the callback of the block write removes elements, looks
    at the next and finds the buffer empty, that of the block read inserts. *)
Definition demo_calls : list (rb_call nat) :=
  [Call (OpInsert 5); Call (OpInsertPtr 6); Call (OpInsertCallback 4); Call OpPeek; Call (OpAt 3); Call (OpIndex 2);
   Call OpRemove; Call OpRemoveOne;
   WriteCb [1; 2; 3; 4; 5; 6] 1 (Some [[OpRead 2; OpPeek]; [OpRemoveMany 9; OpQuery]]);
   ReadCb 5 2 (Some [[OpInsert 7; OpInsert 8]; [OpWrite [9]]]); Call OpQuery; Call (OpRead 3); Call OpProducerClear]%nat.

Lemma ringbuffer_refines_queue_witness :
  rb_run 2 64 demo_calls rb_sample
  = Ok [OutCall (OutBool true); OutCall (OutBool true); OutCall (OutBool false); OutCall (OutElem (Some 7));
        OutCall (OutElem (Some 6)); OutCall (OutElem (Some 5)); OutCall (OutElem (Some 7)); OutCall (OutBool true);
        OutBlock 6 [] [OutList 2 [5; 6]; OutElem (Some 1); OutSize 4; OutState true false 0 4];
        OutBlock 5 [5; 6; 7; 8; 9] [OutBool true; OutBool true; OutSize 1];
        OutCall (OutState true false 0 4); OutCall (OutList 0 []); OutCall OutUnit]%nat.
Proof.
  apply (ringbuffer_refines_queue 2 64 demo_calls rb_sample _ rb_sample_params ltac:(lia) rb_sample_ok).
  vm_compute. reflexivity.
Defined.

(** A callback that removes one element each time. *)
Definition drop_one (s : ringbuffer nat * nat) : ringbuffer nat * nat :=
  ((remove_one 64 s.1).2, S s.2).

Lemma drop_one_consumer : consumer_callback 2 64 (Some drop_one).
Proof.
  intros f rb world [= <-] H. unfold drop_one; simpl. unfold remove_one.
  destruct (Z.eqb_spec (rb_tail rb) (rb_head rb)) as [E|E].
  { split; [exact H|]. split; [done|]. by exists []. }
  destruct (remove_refines 2 64 rb_sample_params rb H) as (rb' & Hr & Hok & Hc).
  unfold remove in Hr. apply Z.eqb_neq in E. rewrite E in Hr.
  destruct (data_buff rb !! slot 2 (rb_tail rb)) as [x|]; simplify_eq/=.
  split; [done|]. split; [done|]. rewrite Hc. destruct (contents 2 64 rb); [by exists []|].
  by exists [n].
Qed.

Lemma writeBuff_cb_correct_witness :
  ∃ n rb' world',
    writeBuff_cb 2 64 (Some drop_one) [1; 2; 3; 4; 5]%nat 5 1 rb_sample O = Ok (n, rb', world') ∧
    write_post 2 64 (contents 2 64 rb_sample) [1; 2; 3; 4; 5]%nat 5 (n, rb', world').
Proof.
  exact (writeBuff_cb_correct 2 64 (Some drop_one) [1; 2; 3; 4; 5]%nat 1 rb_sample O
           rb_sample_params drop_one_consumer ltac:(lia) rb_sample_ok).
Defined.

Lemma readBuff_cb_correct_witness :
  ∃ n out rb' world',
    readBuff_cb 2 64 None 5 1 rb_sample O = Ok (n, out, rb', world') ∧
    read_post 2 64 (contents 2 64 rb_sample) 5 (n, out, rb', world').
Proof.
  exact (readBuff_cb_correct 2 64 None 5 1 rb_sample O rb_sample_params
           ltac:(by intros f ? ? ?) ltac:(lia) rb_sample_ok).
Defined.

Lemma insert_narrow_overwrites_witness :
  ∃ rb', insert 2 8 5%nat (Rb 2 254 [1; 2; 3; 4]%nat) = (true, rb') ∧
    data_buff rb' !! slot 2 (rb_tail rb') = Some 5%nat ∧ ¬ rb_ok 2 8 rb'.
Proof.
  apply (insert_narrow_overwrites 2 8 5%nat (Rb 2 254 [1; 2; 3; 4]%nat));
    [split; lia | lia | split; by vm_compute | by vm_compute | done].
Defined.
