(* ===== verification/RingbufferSpsc.v ===== *)
(** * The ring buffer between two threads (basic/ringbuffer.hpp)

    One producer runs [insert] and one consumer runs [remove] (with an out pointer) for ever.
    Each load or store of an index, and each access to a slot, is one step, and
    the steps of the two threads interleave in any order. *)

From S2P Require Import Prelude Ringbuffer.
Local Open Scope Z_scope.

(** ** Threads *)

(** Where the producer is in [insert]. *)
Inductive producer (T : Type) :=
| PIdle
| PHead (x : T) (tmp_head : Z)      (* head loaded *)
| PRoom (x : T) (tmp_head : Z)      (* tail loaded, there is room *)
| PStored (x : T) (tmp_head : Z).   (* slot written, head not yet published *)
Arguments PIdle {T}.
Arguments PHead {T} x tmp_head.
Arguments PRoom {T} x tmp_head.
Arguments PStored {T} x tmp_head.

(** Where the consumer is in [remove]. *)
Inductive consumer (T : Type) :=
| CIdle
| CTail (tmp_tail : Z)              (* tail loaded *)
| CAvail (tmp_tail : Z)             (* head loaded, not empty *)
| CRead (x : T) (tmp_tail : Z).     (* slot read, tail not yet published *)
Arguments CIdle {T}.
Arguments CTail {T} tmp_tail.
Arguments CAvail {T} tmp_tail.
Arguments CRead {T} x tmp_tail.

(** The shared buffer, both threads, and the history of the two ends. *)
Record spsc (T : Type) := Spsc {
  shared : ringbuffer T;
  prod : producer T;
  cons_ : consumer T;
  sent : list T;
  received : list T
}.
Arguments Spsc {T}.
Arguments shared {T}.
Arguments prod {T}.
Arguments cons_ {T}.
Arguments sent {T}.
Arguments received {T}.

Section spsc.
Context {T : Type} (k w : Z).

Inductive producer_step : spsc T → spsc T → Prop :=
| p_load_head rb c s r x :
    producer_step (Spsc rb PIdle c s r) (Spsc rb (PHead x (rb_head rb)) c s r)
| p_full rb c s r x h :
    idx_sub w h (rb_tail rb) = buffer_size k →
    producer_step (Spsc rb (PHead x h) c s r) (Spsc rb PIdle c s r)
| p_room rb c s r x h :
    idx_sub w h (rb_tail rb) ≠ buffer_size k →
    producer_step (Spsc rb (PHead x h) c s r) (Spsc rb (PRoom x h) c s r)
| p_store rb c s r x h :
    producer_step (Spsc rb (PRoom x h) c s r)
      (Spsc (Rb (rb_head rb) (rb_tail rb) (<[slot k h := x]> (data_buff rb))) (PStored x h) c s r)
| p_publish rb c s r x h :
    producer_step (Spsc rb (PStored x h) c s r)
      (Spsc (Rb (wrap w (h + 1)) (rb_tail rb) (data_buff rb)) PIdle c (s ++ [x]) r).

Inductive consumer_step : spsc T → spsc T → Prop :=
| c_load_tail rb p s r :
    consumer_step (Spsc rb p CIdle s r) (Spsc rb p (CTail (rb_tail rb)) s r)
| c_empty rb p s r t :
    t = rb_head rb → consumer_step (Spsc rb p (CTail t) s r) (Spsc rb p CIdle s r)
| c_avail rb p s r t :
    t ≠ rb_head rb → consumer_step (Spsc rb p (CTail t) s r) (Spsc rb p (CAvail t) s r)
| c_read rb p s r t x :
    data_buff rb !! slot k t = Some x →
    consumer_step (Spsc rb p (CAvail t) s r) (Spsc rb p (CRead x t) s r)
| c_publish rb p s r x t :
    consumer_step (Spsc rb p (CRead x t) s r)
      (Spsc (Rb (rb_head rb) (wrap w (t + 1)) (data_buff rb)) p CIdle s (r ++ [x])).

Definition spsc_step (a b : spsc T) : Prop := producer_step a b ∨ consumer_step a b.

Definition spsc_init (a : spsc T) : Prop :=
  ∃ garbage, length garbage = capacity k ∧ a = Spsc (rb_create garbage) PIdle CIdle [] [].

(** ** The invariant *)

Definition producer_inv (rb : ringbuffer T) (p : producer T) : Prop :=
  match p with
  | PIdle => True
  | PHead x h => h = rb_head rb
  | PRoom x h => h = rb_head rb ∧ readAvailable w rb < 2 ^ k
  | PStored x h => h = rb_head rb ∧ readAvailable w rb < 2 ^ k ∧
                   data_buff rb !! slot k h = Some x
  end.

Definition consumer_inv (rb : ringbuffer T) (c : consumer T) : Prop :=
  match c with
  | CIdle => True
  | CTail t => t = rb_tail rb
  | CAvail t => t = rb_tail rb ∧ 0 < readAvailable w rb
  | CRead x t => t = rb_tail rb ∧ 0 < readAvailable w rb ∧
                 data_buff rb !! slot k t = Some x
  end.

Record spsc_inv (a : spsc T) : Prop := {
  inv_ok : rb_ok k w (shared a);
  inv_fifo : received a ++ contents k w (shared a) = sent a;
  inv_prod : producer_inv (shared a) (prod a);
  inv_cons : consumer_inv (shared a) (cons_ a)
}.

(** ** Preservation *)

Context (P : rb_params k w).

Lemma slot_head_tail_ne (rb : ringbuffer T) :
  0 < readAvailable w rb < 2 ^ k → slot k (rb_head rb) ≠ slot k (rb_tail rb).
Proof using P.
  intros Hr Heq. pose proof (head_logical k w P rb 0) as Hl.
  rewrite !Z.add_0_r in Hl. rewrite Hl in Heq. apply (slot_inj k w P) in Heq; lia.
Qed.

(** Writing the slot at the head while there is room changes nothing stored. *)
Lemma store_keeps_contents (rb : ringbuffer T) x :
  rb_ok k w rb → readAvailable w rb < 2 ^ k →
  let rb' := Rb (rb_head rb) (rb_tail rb) (<[slot k (rb_head rb) := x]> (data_buff rb)) in
  rb_ok k w rb' ∧ contents k w rb' = contents k w rb.
Proof using P.
  intros H Hr. pose proof (readAvailable_bound k w P rb). cbv zeta. split.
  - destruct H. split; cbn [rb_head rb_tail data_buff]; try done. by rewrite length_insert.
  - unfold contents. cbn [rb_tail data_buff].
    change (readAvailable w (Rb _ _ _)) with (readAvailable w rb).
    pose proof (head_logical k w P rb 0) as Hl. rewrite !Z.add_0_r in Hl. rewrite Hl.
    apply (window_insert k w P). lia.
Qed.

(** Publishing a written slot appends its element. *)
Lemma publish_appends (rb : ringbuffer T) x :
  rb_ok k w rb → readAvailable w rb < 2 ^ k → data_buff rb !! slot k (rb_head rb) = Some x →
  let rb' := Rb (wrap w (rb_head rb + 1)) (rb_tail rb) (data_buff rb) in
  rb_ok k w rb' ∧ contents k w rb' = contents k w rb ++ [x] ∧
  readAvailable w rb' = readAvailable w rb + 1.
Proof using P.
  intros H Hr Hx. cbv zeta.
  destruct (push_block k w P rb [x] H ltac:(simpl; lia)) as [Hok Heq].
  cbn [write_loop fst snd] in Hok, Heq. rewrite list_insert_id in Hok, Heq by done.
  split_and!; [exact Hok | exact Heq |].
  rewrite <- (length_contents k w P _ Hok), Heq, length_app, <- (length_contents k w P _ H).
  simpl. lia.
Qed.

Lemma consumer_preserves a b : spsc_inv a → consumer_step a b → spsc_inv b.
Proof using P.
  intros [Hok Hf Hp Hc] Hs.
  destruct Hs as [rb p s r|rb p s r t He|rb p s r t Hne|rb p s r t x Hx|rb p s r x t];
    cbn [shared prod cons_ sent received consumer_inv] in *.
  - by split.
  - by split.
  - subst t. rewrite (head_tail_empty k w P), (contents_nil k w P) in Hne by done.
    split; cbn; try done. split; [done|]. pose proof (readAvailable_bound k w P rb). lia.
  - destruct Hc as [-> Hn]. by split.
  - destruct Hc as (-> & Hn & Hx).
    destruct (pop_block k w P rb 1 Hok ltac:(lia)) as (Hok' & Heq & Hra).
    change (Z.to_nat 1) with 1%nat in Heq. cbn [window] in Heq. rewrite Hx in Heq.
    split; cbn [shared prod cons_ sent received].
    + exact Hok'.
    + rewrite <- Hf, Heq. by rewrite <- app_assoc.
    + destruct p as [|y h|y h|y h]; cbn [producer_inv rb_head data_buff] in *;
        rewrite ?Hra; intuition lia.
    + done.
Qed.

Context (Hw : 32 ≤ w).

Lemma producer_preserves a b : spsc_inv a → producer_step a b → spsc_inv b.
Proof using P Hw.
  intros [Hok Hf Hp Hc] Hs.
  destruct Hs as [rb c s r x|rb c s r x h Hfull|rb c s r x h Hroom|rb c s r x h|rb c s r x h];
    cbn [shared prod cons_ sent received producer_inv] in *.
  - by split.
  - by split.
  - subst h. rewrite idx_sub_count in Hroom by done. split; cbn [shared prod cons_ sent received producer_inv]; try done.
    split; [done|]. pose proof (ok_count _ _ _ Hok). unfold buffer_size in *. lia.
  - destruct Hp as [-> Hr]. destruct (store_keeps_contents rb x Hok Hr) as [Hok' Heq].
    split; cbn [shared prod cons_ sent received].
    + exact Hok'.
    + by rewrite Heq.
    + split_and!; [done..|]. cbn. rewrite list_lookup_insert_eq; [done|].
      rewrite (ok_buff _ _ _ Hok). apply (slot_lt k w P).
    + destruct c as [| t|t|y t]; cbn in *; try done. destruct Hc as (-> & Hn & Hy).
      split_and!; [done..|]. rewrite list_lookup_insert_ne; [done|].
      apply slot_head_tail_ne. unfold readAvailable in *. lia.
  - destruct Hp as (-> & Hr & Hx). destruct (publish_appends rb x Hok Hr Hx) as (Hok' & Heq & Hra).
    split; cbn [shared prod cons_ sent received]; try done.
    + by rewrite Heq, app_assoc, Hf.
    + destruct c as [| t|t|y t]; cbn [consumer_inv rb_tail data_buff] in *;
        rewrite ?Hra; intuition lia.
Qed.

Lemma spsc_invariant a : reachable spsc_init spsc_step a → spsc_inv a.
Proof using P Hw.
  apply reachable_invariant.
  - intros ? (garbage & Hl & ->). pose proof (pow_facts k w P).
    assert (Hok : rb_ok k w (rb_create garbage)).
    { split; simpl; try lia; [by rewrite Hl|]. unfold readAvailable, buffer_size; simpl.
      unfold wrap. rewrite Z.mod_0_l; lia. }
    split; [done| |done|done]. cbn [received shared sent app]. by apply (head_tail_empty k w P).
  - intros s s' Hi [Hs|Hs]; [by eapply producer_preserves | by eapply consumer_preserves].
Qed.

(** *** Progress

    [spsc_run n]: a run in which the consumer takes [n] steps. *)

Inductive spsc_run : nat → spsc T → spsc T → Prop :=
| run_refl a : spsc_run 0 a a
| run_producer n a b c : producer_step a b → spsc_run n b c → spsc_run n a c
| run_consumer n a b c : consumer_step a b → spsc_run n b c → spsc_run (S n) a c.

Definition consumer_pos (c : consumer T) : nat :=
  match c with CIdle => 0 | CTail _ => 1 | CAvail _ => 2 | CRead _ _ => 3 end.

(** The consumer steps that are enough until [m] elements have been received. *)
Definition steps_left (m : nat) (a : spsc T) : nat :=
  4 * (m - length (received a)) - consumer_pos (cons_ a).

Lemma producer_frame a b : producer_step a b →
  received b = received a ∧ cons_ b = cons_ a ∧ sent a `prefix_of` sent b.
Proof. destruct 1; cbn; split_and!; try done. by apply prefix_app_r. Qed.

Lemma consumer_frame a b : consumer_step a b → sent b = sent a ∧ received a `prefix_of` received b.
Proof. destruct 1; cbn; split; try done. by apply prefix_app_r. Qed.

(** A consumer that still has to receive one of the first [m] never finds the
    buffer empty: each of its steps counts. *)
Lemma consumer_progress m a b : spsc_inv a → (m ≤ length (sent a))%nat →
  (length (received a) < m)%nat → consumer_step a b → (steps_left m b < steps_left m a)%nat.
Proof using P.
  intros [Hok Hf _ Hc] Hm Hlt Hs. unfold steps_left.
  destruct Hs as [rb p s r|rb p s r t He|rb p s r t Hne|rb p s r t x Hx|rb p s r x t];
    cbn [shared prod cons_ sent received consumer_inv consumer_pos] in *; try lia.
  - rewrite Hc in He. apply (head_tail_empty k w P) in He; [|done].
    rewrite He, app_nil_r in Hf. subst s. lia.
  - rewrite length_app. cbn. lia.
Qed.

Lemma run_delivers n a b m : spsc_run n a b → spsc_inv a → (m ≤ length (sent a))%nat →
  (steps_left m a ≤ n)%nat → sent a `prefix_of` sent b ∧ spsc_inv b ∧ (m ≤ length (received b))%nat.
Proof using P Hw.
  intros Hrun. induction Hrun as [a|n a b c Hs _ IH|n a b c Hs Hrun IH]; intros Hi Hm Hn.
  - split_and!; [done|done|]. unfold steps_left in Hn. destruct (cons_ a); cbn in Hn; lia.
  - destruct (producer_frame _ _ Hs) as (Hr & Hc & Hp). pose proof (prefix_length _ _ Hp).
    destruct IH as (? & ? & ?); [by eapply producer_preserves|lia| |].
    + unfold steps_left in *. by rewrite Hr, Hc.
    + split_and!; [by etrans|done..].
  - destruct (consumer_frame _ _ Hs) as [Hse Hrp]. rewrite <- Hse in *.
    apply IH; [by eapply consumer_preserves|done|].
    destruct (decide (length (received a) < m)%nat) as [Hlt|Hge].
    + assert (Hm' : (m ≤ length (sent a))%nat) by (by rewrite <- Hse).
      pose proof (consumer_progress m a b Hi Hm' Hlt Hs). lia.
    + pose proof (prefix_length _ _ Hrp). unfold steps_left. lia.
Qed.

(** Neither thread ever waits for the other inside a call. *)
Lemma threads_enabled (x0 : T) a : spsc_inv a → (∃ b, producer_step a b) ∧ ∃ b, consumer_step a b.
Proof using P.
  destruct a as [rb p c s r]. intros [Hok _ Hp Hc]. cbn in Hp, Hc. split.
  - destruct p as [|x h|x h|x h]; [by eexists; apply (p_load_head _ _ _ _ x0)| |by eexists; apply p_store|
      by eexists; apply p_publish].
    destruct (decide (idx_sub w h (rb_tail rb) = buffer_size k));
      [by eexists; apply p_full|by eexists; apply p_room].
  - destruct c as [|t|t|x t]; [by eexists; apply c_load_tail| | |by eexists; apply c_publish].
    + destruct (decide (t = rb_head rb)); [by eexists; apply c_empty|by eexists; apply c_avail].
    + destruct (slot_lookup k w P _ t (ok_buff _ _ _ Hok)) as [x Hx]. eexists. by apply c_read.
Qed.

End spsc.

(** ** Properties *)

(** C2: in every interleaving of the producer and the consumer, what has been
    received followed by what is stored is exactly what has been sent: no
    element is lost, duplicated or reordered. *)
Theorem spsc_fifo {T} (k w : Z) (a : spsc T) :
  rb_params k w → 32 ≤ w → reachable (spsc_init k) (spsc_step k w) a →
  received a ++ contents k w (shared a) = sent a ∧
  (length (contents k w (shared a)) ≤ capacity k)%nat.
Proof.
  intros P Hw Hr. destruct (spsc_invariant k w P Hw a Hr) as [Hok Hf _ _].
  split; [done|]. by apply (count_le_capacity k w P).
Qed.

(** the two threads never touch the same slot at the same time: when the
    producer is about to write a slot and the consumer is about to read one,
    the slots differ; and the consumer's read is always defined. *)
Theorem spsc_race_free {T} (k w : Z) (a : spsc T) x h t :
  rb_params k w → 32 ≤ w → reachable (spsc_init k) (spsc_step k w) a →
  prod a = PRoom x h → cons_ a = CAvail t →
  slot k h ≠ slot k t ∧ ∃ y, data_buff (shared a) !! slot k t = Some y.
Proof.
  intros P Hw Hr Hp Hc. destruct (spsc_invariant k w P Hw a Hr) as [Hok _ Hpi Hci].
  rewrite Hp in Hpi. rewrite Hc in Hci. destruct Hpi as [-> Hlt], Hci as [-> Hgt].
  split; [by apply (slot_head_tail_ne k w P)|]. apply (slot_lookup k w P), Hok.
Qed.

(** C4: liveness: both threads can always take a step, and once the consumer has
    taken four steps for every element that was sent and not yet received, in
    any interleaving with the producer, it has received all of them. *)
Theorem spsc_delivers {T} (k w : Z) (x0 : T) (a b : spsc T) (n : nat) :
  rb_params k w → 32 ≤ w → reachable (spsc_init k) (spsc_step k w) a →
  ((∃ c, producer_step k w a c) ∧ ∃ c, consumer_step k w a c) ∧
  (spsc_run k w n a b → (4 * (length (sent a) - length (received a)) ≤ n)%nat →
   sent a `prefix_of` received b).
Proof.
  intros P Hw Hr. pose proof (spsc_invariant k w P Hw a Hr) as Hi.
  split; [by apply threads_enabled|]. intros Hrun Hn.
  destruct (run_delivers k w P Hw n a b (length (sent a)) Hrun Hi) as (Hp & Hib & Hl);
    [done|unfold steps_left; lia|].
  assert (Hrs : received b `prefix_of` sent b) by (eexists; symmetry; apply Hib).
  destruct (prefix_weak_total _ _ _ Hp Hrs) as [?|Hrev]; [done|].
  by rewrite (prefix_length_eq _ _ Hrev) by done.
Qed.

(** ** Witnesses *)

(** A run of two slots: 7 is sent, then 8 is about to be stored while 7 is about
    to be read. *)
Definition spsc_sample : spsc nat :=
  Spsc (Rb 1 0 [7; 0]%nat) (PRoom 8%nat 1) (CAvail 0) [7]%nat [].

Lemma spsc_sample_reachable : reachable (spsc_init 1) (spsc_step 1 64) spsc_sample.
Proof.
  exists (Spsc (rb_create [0; 0]%nat) PIdle CIdle [] []). split; [by exists [0; 0]%nat|].
  eapply rtc_l; [left; apply (p_load_head _ _ _ _ _ _ 7%nat)|].
  eapply rtc_l; [left; apply p_room; by vm_compute|].
  eapply rtc_l; [left; apply p_store|].
  eapply rtc_l; [left; apply p_publish|].
  eapply rtc_l; [left; apply (p_load_head _ _ _ _ _ _ 8%nat)|].
  eapply rtc_l; [left; apply p_room; by vm_compute|].
  eapply rtc_l; [right; apply c_load_tail|].
  eapply rtc_l; [right; apply c_avail; by vm_compute|].
  apply rtc_refl.
Qed.

Lemma spsc_params : rb_params 1 64.
Proof. split; lia. Qed.

Lemma spsc_fifo_witness :
  received spsc_sample ++ contents 1 64 (shared spsc_sample) = sent spsc_sample ∧
  (length (contents 1 64 (shared spsc_sample)) ≤ capacity 1)%nat.
Proof. exact (spsc_fifo 1 64 spsc_sample spsc_params ltac:(lia) spsc_sample_reachable). Defined.

Lemma spsc_race_free_witness :
  slot 1 1 ≠ slot 1 0 ∧ ∃ y, data_buff (shared spsc_sample) !! slot 1 0 = Some y.
Proof.
  exact (spsc_race_free 1 64 spsc_sample 8%nat 1 0 spsc_params ltac:(lia)
           spsc_sample_reachable eq_refl eq_refl).
Defined.

Lemma spsc_delivers_witness : ∃ b, spsc_run 1 64 4 spsc_sample b ∧ [7]%nat `prefix_of` received b.
Proof.
  assert (H : ∃ b, spsc_run 1 64 4 spsc_sample b).
  { eexists. eapply run_consumer; [apply c_read; reflexivity|].
    eapply run_consumer; [apply c_publish|].
    eapply run_consumer; [apply c_load_tail|].
    eapply run_consumer; [apply c_empty; by vm_compute|]. apply run_refl. }
  destruct H as [b Hb]. exists b. split; [exact Hb|].
  refine (proj2 (spsc_delivers 1 64 0%nat spsc_sample b 4 spsc_params ltac:(lia)
            spsc_sample_reachable) Hb _). cbn. lia.
Defined.
