(* ===== verification/RelAcq.v ===== *)
(** * Memory of several threads with release and acquire operations

    What the C++ standard says of [std::atomic] objects whose operations are
    relaxed, release or acquire, and of the other objects that threads share.

    An atomic object is the list of the values stored to it, oldest first.  A
    load may return any of them that is not older than one its thread has read
    before or one whose store happens before the load.  A store with release
    leaves the clock of its thread with the value, and a load with acquire that
    returns this value joins it to the clock of its own thread: what the one had
    done then happens before what the other does next.

    A clock counts, for every thread, those of its stores and plain accesses
    that happen before.  Two accesses of different threads to one plain object,
    one of them a write, neither of which happens before the other, are a data
    race, which is undefined.  Stores to one object are ordered as they are
    executed.  A relaxed store releases nothing, as in C++20; C++11 lets it carry
    on what the same thread released there before, which no user of this file
    has done where it stores relaxed. *)

From S2P Require Import Prelude.

(** ** Definitions *)

Inductive memory_order := relaxed | acquire | release | acq_rel.

Definition acquires (o : memory_order) : bool := match o with acquire | acq_rel => true | _ => false end.
Definition releases (o : memory_order) : bool := match o with release | acq_rel => true | _ => false end.

Definition clock : Type := nat → nat.

Definition no_clock : clock := λ _, 0.
Definition join (c d : clock) : clock := λ u, c u `max` d u.
Definition tick (t : nat) (c : clock) : clock := λ u, if u =? t then S (c u) else c u.
Definition clock_le (c d : clock) : Prop := ∀ u, c u ≤ d u.

(** A stored value: by which thread, the count of that store, and the clock that
    a load with acquire gets. *)
Record message := Msg { m_val : Z; m_by : nat; m_at : nat; m_clock : clock }.

(** A thread: what happens before its next operation, and for every atomic
    object the place of the newest value that it has read. *)
Record thread := Thread { clk : clock; newest : nat → nat }.

Definition new_thread : thread := Thread no_clock (λ _, 0).

(** An object initialised before the threads start. *)
Definition initial (by_ : nat) (v : Z) : list message := [Msg v by_ 0 no_clock].

Definition known (c : clock) (m : message) : bool := m_at m <=? c (m_by m).

Definition see (loc ts : nat) (f : nat → nat) : nat → nat := λ l, if l =? loc then ts else f l.

(** Loading the value at place [ts] from object [loc]; [None] when the thread
    cannot get that value. *)
Definition load (o : memory_order) (loc ts : nat) (h : list message) (th : thread) : option (Z * thread) :=
  match h !! ts with
  | Some m =>
      if (newest th loc <=? ts) && forallb (λ m, negb (known (clk th) m)) (drop (S ts) h) then
        Some (m_val m, Thread (if acquires o then join (clk th) (m_clock m) else clk th)
                              (see loc ts (newest th)))
      else None
  | None => None
  end.

Definition store (t : nat) (o : memory_order) (loc : nat) (v : Z) (h : list message) (th : thread)
    : list message * thread :=
  let c := tick t (clk th) in
  (h ++ [Msg v t (c t) (if releases o then c else no_clock)], Thread c (see loc (length h) (newest th))).

(** An exchange gets the newest value, and its own carries on what that one
    releases. *)
Definition exchange (t : nat) (o : memory_order) (loc : nat) (v : Z) (h : list message) (th : thread)
    : option (Z * (list message * thread)) :=
  match last h with
  | Some m =>
      let c := tick t (if acquires o then join (clk th) (m_clock m) else clk th) in
      Some (m_val m,
            (h ++ [Msg v t (c t) (join (m_clock m) (if releases o then c else no_clock))],
             Thread c (see loc (length h) (newest th))))
  | None => None
  end.

(** A plain object: its value, the last write, and the last read of each
    thread. *)
Record plain (A : Type) := Cell { c_val : A; c_by : nat; c_at : nat; c_reads : clock }.
Arguments Cell {A}.
Arguments c_val {A}.
Arguments c_by {A}.
Arguments c_at {A}.
Arguments c_reads {A}.

Definition new_cell {A} (v : A) : plain A := Cell v 0 0 no_clock.

Definition written_before {A} (c : plain A) (th : thread) : bool := c_at c <=? clk th (c_by c).

Definition na_read {A} (t : nat) (c : plain A) (th : thread) : res (A * plain A * thread) :=
  if written_before c th then
    let th := Thread (tick t (clk th)) (newest th) in
    mret (c_val c, Cell (c_val c) (c_by c) (c_at c) (λ u, if u =? t then clk th t else c_reads c u), th)
  else Fault DataRace.

(** Threads are numbers below [n]. *)
Definition read_before {A} (n : nat) (c : plain A) (th : thread) : bool :=
  forallb (λ u, c_reads c u <=? clk th u) (seq 0 n).

Definition na_write {A} (n t : nat) (v : A) (c : plain A) (th : thread) : res (plain A * thread) :=
  if written_before c th && read_before n c th then
    let th := Thread (tick t (clk th)) (newest th) in
    mret (Cell v t (clk th t) (c_reads c), th)
  else Fault DataRace.

(** ** Lemmas *)

#[export] Instance clock_le_preorder : PreOrder clock_le.
Proof. split; [by intros c u|]. intros c d e H1 H2 u. specialize (H1 u). specialize (H2 u). lia. Qed.

Lemma join_l c d : clock_le c (join c d).
Proof. intros u. unfold join. lia. Qed.

Lemma join_r c d : clock_le d (join c d).
Proof. intros u. unfold join. lia. Qed.

Lemma join_lub c d e : clock_le c e → clock_le d e → clock_le (join c d) e.
Proof. intros H1 H2 u. specialize (H1 u). specialize (H2 u). unfold join. lia. Qed.

Lemma tick_le t c : clock_le c (tick t c).
Proof. intros u. unfold tick. destruct (u =? t); lia. Qed.

Lemma tick_eq t c : tick t c t = S (c t).
Proof. unfold tick. by rewrite Nat.eqb_refl. Qed.

Lemma tick_ne t u c : u ≠ t → tick t c u = c u.
Proof. intros H. unfold tick. by rewrite (proj2 (Nat.eqb_neq u t)). Qed.

Lemma see_eq loc ts f : see loc ts f loc = ts.
Proof. unfold see. by rewrite Nat.eqb_refl. Qed.

Lemma see_ne loc l ts f : l ≠ loc → see loc ts f l = f l.
Proof. intros H. unfold see. by rewrite (proj2 (Nat.eqb_neq l loc)). Qed.

#[export] Hint Resolve join_l join_r tick_le : net.
Hint Rewrite tick_eq see_eq : net.

(** What a load means: where it reads, what the thread knows after it. *)
Lemma load_Some o loc ts h th v th' :
  load o loc ts h th = Some (v, th') →
  ∃ m, h !! ts = Some m ∧ v = m_val m ∧ newest th loc ≤ ts ∧
    newest th' loc = ts ∧ (∀ l, l ≠ loc → newest th' l = newest th l) ∧
    clk th' = (if acquires o then join (clk th) (m_clock m) else clk th) ∧
    clock_le (clk th) (clk th') ∧
    (∀ i m', ts < i → h !! i = Some m' → clk th (m_by m') < m_at m').
Proof.
  unfold load. destruct (h !! ts) as [m|] eqn:Hm; [|done].
  destruct (_ && _) eqn:E; [|done]. apply andb_true_iff in E as [E1 E2]. apply Nat.leb_le in E1.
  intros [= <- <-]. exists m. cbn [clk newest]. split_and!; try done.
  - by rewrite see_eq.
  - intros l Hl. by apply see_ne.
  - destruct (acquires o); [apply join_l|done].
  - intros i m' Hi Hm'. rewrite forallb_forall in E2.
    assert (Hin : In m' (drop (S ts) h)).
    { apply list_elem_of_In, list_elem_of_lookup. exists (i - S ts). rewrite lookup_drop.
      by replace (S ts + (i - S ts)) with i by lia. }
    specialize (E2 m' Hin). unfold known in E2. apply negb_true_iff, Nat.leb_gt in E2. lia.
Qed.

(** A thread always can get the newest value. *)
Lemma load_last o loc h th m :
  last h = Some m → newest th loc < length h → ∃ th', load o loc (length h - 1) h th = Some (m_val m, th').
Proof.
  intros Hl Hn. unfold load. rewrite last_lookup in Hl.
  replace (pred (length h)) with (length h - 1) in Hl by lia. rewrite Hl.
  rewrite (proj2 (Nat.leb_le _ _)) by lia. rewrite drop_ge by lia. cbn. by eexists.
Qed.

(** A thread that knows every value of an object gets the newest. *)
Lemma load_own o loc ts h th v th' :
  (∀ i m, h !! i = Some m → m_at m ≤ clk th (m_by m)) →
  load o loc ts h th = Some (v, th') → S ts = length h.
Proof.
  intros Hk (m & Hm & _ & _ & _ & _ & _ & _ & Hnew)%load_Some.
  pose proof (lookup_lt_Some _ _ _ Hm). destruct (decide (S ts = length h)) as [|Hne]; [done|].
  destruct (lookup_lt_is_Some_2 h (S ts) ltac:(lia)) as [m' Hm'].
  specialize (Hnew (S ts) m' ltac:(lia) Hm'). specialize (Hk _ _ Hm'). lia.
Qed.

Lemma read_before_spec {A} n (c : plain A) th :
  read_before n c th = true ↔ ∀ u, u < n → c_reads c u ≤ clk th u.
Proof.
  unfold read_before. rewrite forallb_forall. split.
  - intros H u Hu. apply Nat.leb_le, H, in_seq. lia.
  - intros H u [_ Hu]%in_seq. apply Nat.leb_le, H. lia.
Qed.

Lemma na_read_ok {A} t (c : plain A) th : c_at c ≤ clk th (c_by c) →
  na_read t c th = Ok (c_val c, Cell (c_val c) (c_by c) (c_at c) (λ u, if u =? t then tick t (clk th) t else c_reads c u),
                       Thread (tick t (clk th)) (newest th)).
Proof. intros H. unfold na_read, written_before. by rewrite (proj2 (Nat.leb_le _ _)). Qed.

Lemma na_write_ok {A} n t (v : A) c th : c_at c ≤ clk th (c_by c) → (∀ u, u < n → c_reads c u ≤ clk th u) →
  na_write n t v c th = Ok (Cell v t (tick t (clk th) t) (c_reads c), Thread (tick t (clk th)) (newest th)).
Proof.
  intros H1 H2. unfold na_write, written_before. rewrite (proj2 (Nat.leb_le _ _)) by done.
  by rewrite (proj2 (read_before_spec n c th)).
Qed.
