(* ===== verification/RingbufferRa.v ===== *)
(** * The ring buffer in the C++ memory model (basic/ringbuffer.hpp)

    One producer that calls [insert] and [writeBuff] and one consumer that calls
    [remove], in its three forms, and [readBuff], each in any order, with the
    memory orders that the code gives to its loads and stores: loads may return
    old values, and the accesses to the slots are plain.  Every access is a step.
    [fake_tso] is the template parameter that replaces acquire and release by
    relaxed. *)

From S2P Require Import Prelude Ringbuffer RelAcq.
Local Open Scope Z_scope.

(** ** The two threads *)

Definition index_acquire_barrier (fake_tso : bool) : memory_order := if fake_tso then relaxed else acquire.
Definition index_release_barrier (fake_tso : bool) : memory_order := if fake_tso then relaxed else release.

(** Places of the two atomic objects in [newest]; numbers of the threads. *)
Definition at_head : nat := 0.
Definition at_tail : nat := 1.
Definition the_producer : nat := 0.
Definition the_consumer : nat := 1.

(** Calls of the producer ([writeBuff] with the elements of its array that
    [count] names), and where it is: before the load of [head], before
    that of [tail], at its block: the elements of it that are written and those
    that are not, with [tmp_head]. *)
Inductive pcall (T : Type) := CInsert (data : T) | CWriteBuff (buff : list T).
Arguments CInsert {T}.
Arguments CWriteBuff {T}.

Inductive pplace (T : Type) := PStart | PTail (c : pcall T) (tmp_head : Z) | PBlock (tmp_head : Z) (done rest : list T).
Arguments PStart {T}.
Arguments PTail {T}.
Arguments PBlock {T}.

(** Calls of the consumer: [remove(&data)], [readBuff], [remove()] and
    [remove(cnt)]; [None] stands for an element that is removed unread. *)
Inductive ccall := CRemove | CReadBuff (count : nat) | CDrop | CDropMany (cnt : nat).

Inductive cplace (T : Type) := CStart | CHead (c : ccall) (tmp_tail : Z) | CBlock (tmp_tail : Z) (done : list (option T)) (rest : nat).
Arguments CStart {T}.
Arguments CHead {T}.
Arguments CBlock {T}.

(** [sent]: the elements that [head] was moved over; [received]: those that
    [tail] was. *)
Record ra_state (T : Type) := Ra {
  heads : list message; tails : list message; cells : list (plain T);
  pth : thread; cth : thread; pat : pplace T; cat : cplace T;
  ra_sent : list T; ra_received : list (option T)
}.
Arguments Ra {T}.
Arguments heads {T}.
Arguments tails {T}.
Arguments cells {T}.
Arguments pth {T}.
Arguments cth {T}.
Arguments pat {T}.
Arguments cat {T}.
Arguments ra_sent {T}.
Arguments ra_received {T}.

Section threads.
Context {T : Type} (k w : Z) (fake_tso : bool).

Definition set_producer (a : ra_state T) (th : thread) (p : pplace T) : ra_state T :=
  Ra (heads a) (tails a) (cells a) th (cth a) p (cat a) (ra_sent a) (ra_received a).

Definition set_consumer (a : ra_state T) (th : thread) (c : cplace T) : ra_state T :=
  Ra (heads a) (tails a) (cells a) (pth a) th (pat a) c (ra_sent a) (ra_received a).

Definition set_cells (a : ra_state T) (l : list (plain T)) : ra_state T :=
  Ra (heads a) (tails a) l (pth a) (cth a) (pat a) (cat a) (ra_sent a) (ra_received a).

(** What follows the load of [tail]. *)
Definition after_tail (c : pcall T) (tmp_head tail : Z) : pplace T :=
  match c with
  | CInsert data => if idx_sub w tmp_head tail =? buffer_size k then PStart else PBlock tmp_head [] [data]
  | CWriteBuff buff =>
      let available := wrap w (buffer_size k - (tmp_head - tail)) in
      PBlock tmp_head [] (take (Z.to_nat available) buff)
  end.

(** The next step of the producer, where a new call is [c]; a load gets the
    value at place [ts]. *)
Definition producer_do (c : pcall T) (ts : nat) (a : ra_state T) : option (res (ra_state T)) :=
  match pat a with
  | PStart =>
      match load relaxed at_head ts (heads a) (pth a) with
      | Some (tmp_head, th) => Some (mret (set_producer a th (PTail c tmp_head)))
      | None => None
      end
  | PTail c tmp_head =>
      match load (index_acquire_barrier fake_tso) at_tail ts (tails a) (pth a) with
      | Some (tail, th) => Some (mret (set_producer a th (after_tail c tmp_head tail)))
      | None => None
      end
  | PBlock tmp_head done (x :: rest) =>
      Some (c ← deref OutOfBounds (cells a !! slot k tmp_head);
            '(c, th) ← na_write 2 the_producer x c (pth a);
            mret (set_producer (set_cells a (<[slot k tmp_head := c]> (cells a))) th
                    (PBlock (wrap w (tmp_head + 1)) (done ++ [x]) rest)))
  | PBlock tmp_head done [] =>
      let (h, th) := store the_producer (index_release_barrier fake_tso) at_head tmp_head (heads a) (pth a) in
      Some (mret (Ra h (tails a) (cells a) th (cth a) PStart (cat a) (ra_sent a ++ done) (ra_received a)))
  end.

(** The order of the load of [head], and what follows it. *)
Definition head_order (c : ccall) : memory_order :=
  match c with CRemove | CReadBuff _ => index_acquire_barrier fake_tso | CDrop | CDropMany _ => relaxed end.

Definition after_head (c : ccall) (tmp_tail head : Z) : cplace T :=
  let avail := wrap w (head - tmp_tail) in
  let at_most (n : nat) := Z.to_nat (if avail <? Z.of_nat n then avail else Z.of_nat n) in
  match c with
  | CRemove => if tmp_tail =? head then CStart else CBlock tmp_tail [] 1
  | CReadBuff count => CBlock tmp_tail [] (at_most count)
  | CDrop => if tmp_tail =? head then CStart else CBlock (wrap w (tmp_tail + 1)) [None] 0
  | CDropMany cnt =>
      CBlock (wrap w (tmp_tail + Z.of_nat (at_most cnt))) (replicate (at_most cnt) None) 0
  end.

(** The next step of the consumer. *)
Definition consumer_do (c : ccall) (ts : nat) (a : ra_state T) : option (res (ra_state T)) :=
  match cat a with
  | CStart =>
      match load relaxed at_tail ts (tails a) (cth a) with
      | Some (tmp_tail, th) => Some (mret (set_consumer a th (CHead c tmp_tail)))
      | None => None
      end
  | CHead c tmp_tail =>
      match load (head_order c) at_head ts (heads a) (cth a) with
      | Some (head, th) => Some (mret (set_consumer a th (after_head c tmp_tail head)))
      | None => None
      end
  | CBlock tmp_tail done (S rest) =>
      Some (c ← deref OutOfBounds (cells a !! slot k tmp_tail);
            '(x, c, th) ← na_read the_consumer c (cth a);
            mret (set_consumer (set_cells a (<[slot k tmp_tail := c]> (cells a))) th
                    (CBlock (wrap w (tmp_tail + 1)) (done ++ [Some x]) rest)))
  | CBlock tmp_tail done O =>
      let (h, th) := store the_consumer (index_release_barrier fake_tso) at_tail tmp_tail (tails a) (cth a) in
      Some (mret (Ra (heads a) h (cells a) (pth a) th (pat a) CStart (ra_sent a) (ra_received a ++ done)))
  end.

Inductive ra_step : ra_state T → ra_state T → Prop :=
| ra_producer c ts a b : producer_do c ts a = Some (Ok b) → ra_step a b
| ra_consumer c ts a b : consumer_do c ts a = Some (Ok b) → ra_step a b.

(** A schedule: whose step, in which call, and the place it loads from. *)
Fixpoint ra_run (ks : list ((pcall T + ccall) * nat)) (a : ra_state T) : option (ra_state T) :=
  match ks with
  | [] => Some a
  | (who, ts) :: ks =>
      match match who with inl c => producer_do c ts a | inr c => consumer_do c ts a end with
      | Some (Ok b) => ra_run ks b
      | _ => None
      end
  end.

(** [consumerClear], after an element was read through the pointer that [peek]
    returned: [peek] loads and tests as [remove(&data)] does, so the consumer is
    where that is about to store [tail].  Both memory orders are relaxed. *)
Definition consumerClear_do (ts : nat) (a : ra_state T) : option (ra_state T) :=
  match cat a with
  | CBlock _ [Some _] O =>
      match load relaxed at_head ts (heads a) (cth a) with
      | Some (head, th) =>
          let (h, th) := store the_consumer relaxed at_tail head (tails a) th in
          Some (Ra (heads a) h (cells a) (pth a) th (pat a) CStart (ra_sent a) (ra_received a))
      | None => None
      end
  | _ => None
  end.

(** The buffer was made before the threads start. *)
Definition ra_create (garbage : list T) : ra_state T :=
  Ra (initial the_producer 0) (initial the_consumer 0) (new_cell <$> garbage)
    new_thread new_thread PStart CStart [] [].

Definition ra_init (a : ra_state T) : Prop :=
  ∃ garbage, length garbage = capacity k ∧ a = ra_create garbage.

Lemma ra_run_sound ks a b : ra_run ks a = Some b → rtc ra_step a b.
Proof.
  revert a. induction ks as [|[[c|c] ts] ks IH]; intros a; cbn [ra_run]; [by intros [= <-]| |].
  - destruct (producer_do c ts a) as [[d| | |]|] eqn:Hd; try done. intros Hr. eapply rtc_l; [by eapply ra_producer|]. by apply IH.
  - destruct (consumer_do c ts a) as [[d| | |]|] eqn:Hd; try done. intros Hr. eapply rtc_l; [by eapply ra_consumer|]. by apply IH.
Qed.

Lemma ra_run_reachable garbage ks a :
  length garbage = capacity k → ra_run ks (ra_create garbage) = Some a → reachable ra_init ra_step a.
Proof. intros Hg Hr. exists (ra_create garbage). split; [by exists garbage|]. by eapply ra_run_sound. Qed.

End threads.

(** ** The invariant *)

Section invariant.
Context {T : Type} (k w : Z) (P : rb_params k w) (Hw : 32 ≤ w).
Local Open Scope nat_scope.

(** The index of the [i]-th element, and its slot. *)
Definition ix (i : nat) : Z := wrap w (Z.of_nat i).
Definition pos (i : nat) : nat := slot k (ix i).

(** How many elements the index at a place of a history stands for, given the
    counts of all places. *)
Definition cnt (cs : list nat) (i : nat) : nat := default 0 (cs !! i).

Record index_ok (t n : nat) (cs : list nat) (h : list message) (th : thread) : Prop := {
  x_length : length cs = length h;
  x_last : last cs = Some n;
  x_mono : ∀ i j, i ≤ j → j < length cs → cnt cs i ≤ cnt cs j;
  x_msg : ∀ i m, h !! i = Some m → m_val m = ix (cnt cs i) ∧ m_by m = t ∧ m_at m ≤ clk th t
}.

(** A thread has seen what the value it read last releases. *)
Definition seen (loc u : nat) (h : list message) (th : thread) : Prop :=
  ∀ m, h !! newest th loc = Some m → m_clock m u ≤ clk th u.

(** The elements of the producer's block that are in their slots, and how many
    the consumer has dealt with in its own. *)
Definition in_block (p : pplace T) : list T := match p with PBlock _ done _ => done | _ => [] end.
Definition dealt (c : cplace T) : nat := match c with CBlock _ done _ => length done | _ => 0 end.

Definition written (a : ra_state T) : list T := ra_sent a ++ in_block (pat a).
Definition taken (a : ra_state T) : nat := length (ra_received a) + dealt (cat a).

(** An element is in its slot, and whoever reads a [head] beyond it knows. *)
Definition in_slot (hc : list nat) (a : ra_state T) (i : nat) (x : T) : Prop :=
  ∃ c, cells a !! pos i = Some c ∧ c_val c = x ∧
    ∀ j m, heads a !! j = Some m → i < cnt hc j → c_at c ≤ m_clock m the_producer.

(** The last read of a slot, known to whoever reads a [tail] beyond it. *)
Definition cell_ok (tc : list nat) (a : ra_state T) (s : nat) (c : plain T) : Prop :=
  c_by c = the_producer ∧ c_at c ≤ clk (pth a) the_producer ∧
  c_reads c the_producer = 0 ∧ c_reads c the_consumer ≤ clk (cth a) the_consumer ∧
  (c_reads c the_consumer = 0 ∨
   ∃ i, i < taken a ∧ pos i = s ∧
     ∀ j m, tails a !! j = Some m → i < cnt tc j → c_reads c the_consumer ≤ m_clock m the_consumer).

Definition pat_ok (n room : nat) (p : pplace T) : Prop :=
  match p with
  | PStart => True
  | PTail _ h => h = ix n
  | PBlock h done rest => h = ix (n + length done) ∧ n + length done + length rest ≤ room
  end.

(** What a block of removed elements has to do with what was sent. *)
Definition matches (sent : list T) (n : nat) (done : list (option T)) : Prop :=
  ∀ i x, done !! i = Some (Some x) → sent !! (n + i) = Some x.

Definition cat_ok (a : ra_state T) (n avail : nat) (c : cplace T) : Prop :=
  match c with
  | CStart => True
  | CHead _ t => t = ix n
  | CBlock t done rest =>
      t = ix (n + length done) ∧ n + length done + rest ≤ avail ∧ matches (ra_sent a) n done ∧
      (0 < rest → seen at_head the_producer (heads a) (cth a))
  end.

Record ra_inv (hc tc : list nat) (a : ra_state T) : Prop := {
  i_heads : index_ok the_producer (length (ra_sent a)) hc (heads a) (pth a);
  i_tails : index_ok the_consumer (length (ra_received a)) tc (tails a) (cth a);
  i_own : newest (pth a) at_head < length (heads a) ∧ newest (cth a) at_tail < length (tails a);
  i_other : newest (pth a) at_tail < length (tails a) ∧ newest (cth a) at_head < length (heads a);
  i_room : length (ra_sent a) ≤ cnt tc (newest (pth a) at_tail) + capacity k;
  i_avail : length (ra_received a) ≤ cnt hc (newest (cth a) at_head);
  i_seen : seen at_tail the_consumer (tails a) (pth a);
  i_fifo : matches (ra_sent a) 0 (ra_received a);
  i_cells : length (cells a) = capacity k;
  i_slots : ∀ i x, length (ra_received a) ≤ i → written a !! i = Some x → in_slot hc a i x;
  i_cell : ∀ s c, cells a !! s = Some c → cell_ok tc a s c;
  i_pat : pat_ok (length (ra_sent a)) (cnt tc (newest (pth a) at_tail) + capacity k) (pat a);
  i_cat : cat_ok a (length (ra_received a)) (cnt hc (newest (cth a) at_head)) (cat a)
}.

(** ** Indices *)

Lemma capacity_pos : 0 < capacity k.
Proof using P Hw. pose proof (capacity_Z k w P). pose proof (pow_facts k w P). lia. Qed.

Lemma pos_lt i : pos i < capacity k.
Proof using P. apply (slot_lt k w P). Qed.

Lemma pos_same i j : pos i = pos j → i < j → i + capacity k ≤ j.
Proof using P Hw.
  intros H Hij. unfold pos, ix in H. rewrite !(slot_wrap k w P) in H.
  pose proof (capacity_Z k w P). destruct (decide (i + capacity k ≤ j)) as [|Hn]; [done|].
  apply (slot_inj k w P) in H; lia.
Qed.

(** The distance of two indices that are at most a buffer apart. *)
Lemma ix_diff i j : j ≤ i ≤ j + capacity k → wrap w (ix i - ix j) = Z.of_nat (i - j).
Proof using P Hw.
  intros H. unfold ix. rewrite wrap_sub_l, wrap_sub_r. pose proof (capacity_Z k w P). pose proof (pow_facts k w P).
  rewrite wrap_small by lia. lia.
Qed.

Lemma ix_sub i j : j ≤ i ≤ j + capacity k → idx_sub w (ix i) (ix j) = Z.of_nat (i - j).
Proof using P Hw.
  intros H. unfold idx_sub. destruct (Z.ltb_spec w 32); [lia|]. by apply ix_diff.
Qed.

Lemma ix_room i j : j ≤ i ≤ j + capacity k →
  Z.to_nat (wrap w (buffer_size k - (ix i - ix j))) = j + capacity k - i.
Proof using P Hw.
  intros H. rewrite <- wrap_sub_r, ix_diff by done. pose proof (capacity_Z k w P) as Hc.
  pose proof (pow_facts k w P). unfold buffer_size. rewrite wrap_small; lia.
Qed.

Lemma ix_eq i j : j ≤ i ≤ j + capacity k → ix j = ix i → i = j.
Proof using P Hw.
  intros H He. pose proof (ix_diff i j H) as E. rewrite He, (ix_diff i i) in E by lia. lia.
Qed.

Lemma ix_add i n : wrap w (ix i + Z.of_nat n) = ix (i + n).
Proof using Hw. unfold ix. rewrite wrap_add_l. f_equal. lia. Qed.

Lemma ix_S i : wrap w (ix i + 1) = ix (S i).
Proof using Hw. unfold ix. rewrite wrap_add_l. f_equal. lia. Qed.

(** ** Histories of an index *)

Lemma cnt_last cs n : last cs = Some n → cnt cs (length cs - 1) = n.
Proof using Hw.
  intros H. rewrite last_lookup in H. unfold cnt. replace (length cs - 1) with (pred (length cs)) by lia. by rewrite H.
Qed.

Lemma index_bound t n cs h th i : index_ok t n cs h th → i < length h → cnt cs i ≤ n.
Proof using Hw.
  intros [Hl Hn Hm _] Hi. rewrite <- (cnt_last _ _ Hn). apply Hm; lia.
Qed.

(** The thread that stores an index loads its newest value. *)
Lemma index_own t n cs h th o ts v th' loc :
  index_ok t n cs h th → load o loc ts h th = Some (v, th') → v = ix n ∧ ts < length h.
Proof using Hw.
  intros H Hld. assert (Hts : S ts = length h).
  { eapply load_own; [|exact Hld]. intros i m Hi. by destruct (x_msg _ _ _ _ _ H i m Hi) as (_ & -> & ?). }
  apply load_Some in Hld as (m & Hm & -> & _). destruct (x_msg _ _ _ _ _ H ts m Hm) as (-> & _).
  split; [|lia]. f_equal. rewrite <- (cnt_last _ _ (x_last _ _ _ _ _ H)), (x_length _ _ _ _ _ H). f_equal. lia.
Qed.

(** The other one loads some value. *)
Lemma index_other t n cs h th0 th o ts v th' loc :
  index_ok t n cs h th0 → load o loc ts h th = Some (v, th') →
  v = ix (cnt cs ts) ∧ ts < length h ∧ cnt cs (newest th loc) ≤ cnt cs ts ≤ n.
Proof using Hw.
  intros H (m & Hm & -> & Hge & _)%load_Some. destruct (x_msg _ _ _ _ _ H ts m Hm) as (-> & _).
  pose proof (lookup_lt_Some _ _ _ Hm). split_and!; [done|done| |by eapply index_bound].
  apply (x_mono _ _ _ _ _ H); [done|]. by rewrite (x_length _ _ _ _ _ H).
Qed.

Lemma index_ok_mono t n cs h th th' : index_ok t n cs h th → clock_le (clk th) (clk th') → index_ok t n cs h th'.
Proof using Hw.
  intros [Hl Hn Hm Hv] Hc. split; [done..|]. intros i m Hi. destruct (Hv i m Hi) as (? & ? & ?).
  specialize (Hc t). split_and!; [done|done|lia].
Qed.

Lemma cnt_app cs n i : i < length cs → cnt (cs ++ [n]) i = cnt cs i.
Proof using Hw. intros H. unfold cnt. by rewrite lookup_app_l. Qed.

Lemma cnt_new cs n : cnt (cs ++ [n]) (length cs) = n.
Proof using Hw. unfold cnt. by rewrite list_lookup_middle. Qed.

(** A store of a count that is not smaller. *)
Lemma index_store t n n' cs h th o loc :
  index_ok t n cs h th → n ≤ n' →
  let '(h', th') := store t o loc (ix n') h th in index_ok t n' (cs ++ [n']) h' th'.
Proof using Hw.
  intros [Hl Hn Hm Hv] Hle. unfold store. constructor.
  - rewrite !length_app. cbn. lia.
  - apply last_snoc.
  - intros i j Hij. rewrite length_app. cbn [length]. intros Hj. destruct (decide (j = length cs)) as [->|Hne].
    + rewrite cnt_new. destruct (decide (i = length cs)) as [->|]; [by rewrite cnt_new|].
      rewrite cnt_app by lia. etrans; [apply (Hm i (length cs - 1)); lia|]. rewrite (cnt_last _ _ Hn). done.
    + rewrite !cnt_app by lia. apply Hm; lia.
  - intros i m [Hi|[Hi1 Hi2]]%lookup_app_Some.
    + pose proof (lookup_lt_Some _ _ _ Hi). destruct (Hv i m Hi) as (? & ? & ?). rewrite cnt_app by lia.
      pose proof (tick_le t (clk th) t). cbn [clk]. split_and!; [done|done|lia].
    + apply list_lookup_singleton_Some in Hi2 as [Hi2 <-]. replace i with (length cs) by lia. by rewrite cnt_new.
Qed.

Lemma seen_mono loc u h th th' :
  seen loc u h th → clock_le (clk th) (clk th') → newest th' loc = newest th loc → seen loc u h th'.
Proof using Hw. intros Hs Hc Hn m Hm. rewrite Hn in Hm. specialize (Hs m Hm). specialize (Hc u). lia. Qed.

Lemma seen_load loc u h th ts v th' : load acquire loc ts h th = Some (v, th') → seen loc u h th'.
Proof using Hw.
  intros (m & Hm & _ & _ & Hn & _ & Hc & _)%load_Some m' Hm'. rewrite Hn, Hm in Hm'. injection Hm' as <-.
  rewrite Hc. apply join_r.
Qed.

(** ** What the invariant gives *)

Lemma inv_bounds hc tc a : ra_inv hc tc a →
  cnt tc (newest (pth a) at_tail) ≤ length (ra_received a) ∧
  cnt hc (newest (cth a) at_head) ≤ length (ra_sent a) ∧
  length (ra_received a) ≤ length (ra_sent a) ≤ length (ra_received a) + capacity k ∧
  taken a ≤ length (ra_sent a).
Proof using Hw.
  intros H. destruct (i_other _ _ _ H) as [H1 H2]. pose proof (i_room _ _ _ H). pose proof (i_avail _ _ _ H).
  pose proof (index_bound _ _ _ _ _ _ (i_tails _ _ _ H) H1). pose proof (index_bound _ _ _ _ _ _ (i_heads _ _ _ H) H2).
  split_and!; try lia. pose proof (i_cat _ _ _ H) as Hc. unfold taken, dealt. destruct (cat a); cbn in Hc; lia.
Qed.

(** ** Steps that change one thread only *)

Lemma producer_view hc tc a th p :
  ra_inv hc tc a → clock_le (clk (pth a)) (clk th) → in_block p = in_block (pat a) →
  cnt tc (newest (pth a) at_tail) ≤ cnt tc (newest th at_tail) → newest th at_tail < length (tails a) →
  newest th at_head < length (heads a) → seen at_tail the_consumer (tails a) th →
  pat_ok (length (ra_sent a)) (cnt tc (newest th at_tail) + capacity k) p → ra_inv hc tc (set_producer a th p).
Proof using Hw.
  intros [] Hc Hb Hn Ht Hh Hs Hp. constructor; cbn [set_producer heads tails cells pth cth pat cat ra_sent ra_received]; try done.
  - by eapply index_ok_mono.
  - split; [done|apply i_own0].
  - split; [done|apply i_other0].
  - lia.
  - intros i x Hi Hx. apply i_slots0; [done|]. unfold written in *. cbn in Hx. by rewrite <- Hb.
  - intros s c Hsc. destruct (i_cell0 s c Hsc) as (? & ? & ?). specialize (Hc the_producer).
    split; [done|]. split; [cbn; lia|done].
Qed.

Lemma consumer_view hc tc a th c :
  ra_inv hc tc a → clock_le (clk (cth a)) (clk th) → dealt (cat a) ≤ dealt c →
  cnt hc (newest (cth a) at_head) ≤ cnt hc (newest th at_head) → newest th at_head < length (heads a) →
  newest th at_tail < length (tails a) →
  cat_ok (set_consumer a th c) (length (ra_received a)) (cnt hc (newest th at_head)) c →
  ra_inv hc tc (set_consumer a th c).
Proof using Hw.
  intros [] Hc Hd Hn Hh Ht Hp. constructor; cbn [set_consumer heads tails cells pth cth pat cat ra_sent ra_received]; try done.
  - by eapply index_ok_mono.
  - split; [apply i_own0|done].
  - split; [apply i_other0|done].
  - lia.
  - intros s c' Hsc. destruct (i_cell0 s c' Hsc) as (? & ? & ? & ? & Hr). specialize (Hc the_consumer).
    split_and!; [done|done|done|cbn; lia|]. destruct Hr as [|(i & Hi & ? & ?)]; [by left|right; exists i].
    split_and!; [|done|done]. unfold taken in *. cbn. lia.
Qed.

(** ** Steps of the producer *)

Lemma producer_loads_head hc tc a c ts r :
  ra_inv hc tc a → pat a = PStart → producer_do k w false c ts a = Some r → ∃ b, r = Ok b ∧ ra_inv hc tc b.
Proof using P Hw.
  intros H Hp. unfold producer_do. rewrite Hp.
  destruct (load _ _ _ _ _) as [[v th]|] eqn:Hl; [|done]. intros [= <-]. eexists. split; [done|].
  destruct (index_own _ _ _ _ _ _ _ _ _ _ (i_heads _ _ _ H) Hl) as [-> Hts].
  apply load_Some in Hl as (m & Hm & _ & _ & Hn & Hne & _ & Hc & _).
  specialize (Hne at_tail ltac:(done)). destruct (i_other _ _ _ H) as [Ho _].
  apply producer_view; try done; [by rewrite Hp|by rewrite Hne|lia|lia|].
  by apply (seen_mono _ _ _ (pth a)), Hne; [apply (i_seen _ _ _ H)|].
Qed.

Lemma producer_loads_tail hc tc a c0 c h ts r :
  ra_inv hc tc a → pat a = PTail c h → producer_do k w false c0 ts a = Some r → ∃ b, r = Ok b ∧ ra_inv hc tc b.
Proof using P Hw.
  intros H Hp. unfold producer_do, index_acquire_barrier. rewrite Hp.
  destruct (load _ _ _ _ _) as [[v th]|] eqn:Hl; [|done]. intros [= <-]. eexists. split; [done|].
  pose proof (seen_load _ the_consumer _ _ _ _ _ Hl) as Hs.
  destruct (index_other _ _ _ _ _ _ _ _ _ _ _ (i_tails _ _ _ H) Hl) as (-> & Hts & Hge & Hle).
  apply load_Some in Hl as (m & Hm & _ & _ & Hn & Hne & _ & Hc & _).
  specialize (Hne at_head ltac:(done)). destruct (i_own _ _ _ H) as [Ho _].
  pose proof (i_room _ _ _ H) as Hroom. destruct (inv_bounds _ _ _ H) as (_ & _ & Hb & _).
  pose proof (i_pat _ _ _ H) as Hpat. rewrite Hp in Hpat. cbn in Hpat. subst h.
  assert (Hpl : in_block (after_tail k w c (ix (length (ra_sent a))) (ix (cnt tc ts))) = []).
  { destruct c; cbn [after_tail]; [by destruct (_ =? _)%Z|done]. }
  apply producer_view; rewrite ?Hn, ?Hne; try done; [by rewrite Hpl, Hp|].
  destruct c as [x|buff]; cbn [after_tail].
  - rewrite ix_sub by lia. destruct (Z.eqb_spec (Z.of_nat (length (ra_sent a) - cnt tc ts)) (buffer_size k)) as [|Hr]; [done|].
    cbn. rewrite Nat.add_0_r. split; [done|]. pose proof (capacity_Z k w P). unfold buffer_size in Hr. lia.
  - rewrite ix_room by lia. cbn. rewrite Nat.add_0_r, length_take. split; [done|lia].
Qed.

Lemma producer_writes hc tc a c0 h done x rest ts r :
  ra_inv hc tc a → pat a = PBlock h done (x :: rest) →
  producer_do k w false c0 ts a = Some r → ∃ b, r = Ok b ∧ ra_inv hc tc b.
Proof using P Hw.
  intros H Hp. unfold producer_do. rewrite Hp. intros [= <-].
  pose proof (i_pat _ _ _ H) as Hpat. rewrite Hp in Hpat. cbn [pat_ok length] in Hpat. destruct Hpat as [-> Hroom].
  set (n := length (ra_sent a) + length done) in *. fold (pos n).
  destruct (inv_bounds _ _ _ H) as (Hv1 & Hv2 & Hb & Htk).
  destruct (lookup_lt_is_Some_2 (cells a) (pos n)) as [c Hc]; [rewrite (i_cells _ _ _ H); apply pos_lt|].
  destruct (i_cell _ _ _ H _ _ Hc) as (Hby & Hat & Hr0 & Hr1 & Hrd).
  rewrite Hc. cbn [deref mbind res_bind]. rewrite na_write_ok.
  2:{ by rewrite Hby. }
  2:{ intros [|[|u]] Hu; [unfold the_producer in Hr0; lia| |lia].
      change (c_reads c the_consumer ≤ clk (pth a) the_consumer).
      destruct Hrd as [->|(i & Hi1 & Hi2 & Hi3)]; [lia|].
      pose proof (pos_same _ _ Hi2 ltac:(lia)).
      destruct (lookup_lt_is_Some_2 (tails a) (newest (pth a) at_tail)) as [m Hm]; [apply (i_other _ _ _ H)|].
      etrans; [apply (Hi3 (newest (pth a) at_tail) m Hm); lia|]. by apply (i_seen _ _ _ H). }
  cbn [mbind res_bind mret res_ret]. eexists. split; [reflexivity|]. destruct H.
  assert (Hlen : pos n < length (cells a)) by (rewrite i_cells0; apply pos_lt).
  constructor; cbn [set_producer set_cells heads tails cells pth cth pat cat ra_sent ra_received]; try assumption.
  - eapply index_ok_mono; [eassumption|]. apply tick_le.
  - by rewrite length_insert.
  - intros i z Hi. unfold written, in_slot. cbn [set_producer set_cells pat ra_sent cells heads in_block].
    rewrite app_assoc. intros [Hz|[Hz1 Hz2]]%lookup_app_Some.
    + assert (Hz' : written a !! i = Some z) by (unfold written; by rewrite Hp).
      destruct (i_slots0 i z Hi Hz') as (c' & Hc' & ? & ?). exists c'. split; [|by split].
      rewrite list_lookup_insert_ne; [assumption|]. intros He. symmetry in He.
      pose proof (lookup_lt_Some _ _ _ Hz) as Hlt. rewrite length_app in Hlt. fold n in Hlt. apply pos_same in He; lia.
    + apply list_lookup_singleton_Some in Hz2 as [Hz2 <-]. rewrite length_app in Hz1, Hz2. fold n in Hz1, Hz2.
      replace i with n by lia. eexists. split; [by apply list_lookup_insert_eq|]. split; [reflexivity|].
      intros j m Hm Hj. pose proof (index_bound _ _ _ _ _ j i_heads0 (lookup_lt_Some _ _ _ Hm)). lia.
  - intros s c' Hs. rewrite list_lookup_insert in Hs.
    unfold cell_ok. cbn [pth cth clk set_producer set_cells tails]. change (taken _) with (taken a).
    case_decide as Hd.
    + destruct Hd as [<- _]. injection Hs as <-. cbn [c_by c_at c_reads]. by split_and!.
    + destruct (i_cell0 s c' Hs) as (? & ? & ? & ? & ?). split_and!; try assumption.
      pose proof (tick_le the_producer (clk (pth a)) the_producer). lia.
  - cbn [pat_ok newest]. rewrite length_app. cbn [length]. fold n. rewrite ix_S. split; [f_equal; lia|lia].
Qed.

Lemma producer_publishes hc tc a c0 h done ts r :
  ra_inv hc tc a → pat a = PBlock h done [] →
  producer_do k w false c0 ts a = Some r →
  ∃ b, r = Ok b ∧ ra_inv (hc ++ [length (ra_sent a) + length done]) tc b.
Proof using P Hw.
  intros H Hp. unfold producer_do, index_release_barrier. rewrite Hp.
  pose proof (i_pat _ _ _ H) as Hpat. rewrite Hp in Hpat. cbn [pat_ok length] in Hpat. destruct Hpat as [-> Hroom].
  set (n := length (ra_sent a) + length done) in *.
  pose proof (index_store the_producer _ n hc (heads a) (pth a) release at_head (i_heads _ _ _ H) ltac:(lia)) as Hst.
  destruct (inv_bounds _ _ _ H) as (Hv1 & Hv2 & Hb & Htk). destruct (i_other _ _ _ H) as [Ho1 Ho2].
  assert (Hw' : written a = ra_sent a ++ done) by (unfold written; by rewrite Hp).
  unfold store in *. intros [= <-]. eexists. split; [reflexivity|]. destruct H.
  pose proof (x_length _ _ _ _ _ i_heads0) as Hxl.
  pose proof (tick_le the_producer (clk (pth a)) the_producer) as Htick.
  assert (Hold : cnt (hc ++ [n]) (newest (cth a) at_head) = cnt hc (newest (cth a) at_head)) by (apply cnt_app; lia).
  constructor; cbn [heads tails cells pth cth pat cat ra_sent ra_received]; try assumption.
  - by rewrite length_app.
  - cbn [newest]. rewrite see_eq, length_app. split; [cbn; lia|apply i_own0].
  - cbn [newest]. rewrite see_ne by done. rewrite length_app. cbn. lia.
  - cbn [newest]. rewrite see_ne by done. rewrite length_app. lia.
  - by rewrite Hold.
  - intros i x Hx. apply lookup_app_l_Some. by apply i_fifo0.
  - intros i z Hi. unfold written. cbn [pat ra_sent in_block]. rewrite app_nil_r. intros Hz.
    rewrite <- Hw' in Hz. destruct (i_slots0 i z Hi Hz) as (c & Hc & Hv & Hm).
    exists c. split_and!; [assumption|assumption|]. intros j m [Hjm|[Hj2 Hjm]]%lookup_app_Some Hj.
    + pose proof (lookup_lt_Some _ _ _ Hjm). rewrite cnt_app in Hj by lia. by apply (Hm j).
    + apply list_lookup_singleton_Some in Hjm as [_ <-]. cbn [m_clock releases].
      destruct (i_cell0 _ _ Hc) as (_ & Hat & _). lia.
  - intros s c Hs. destruct (i_cell0 s c Hs) as (? & ? & ? & ? & ?). split_and!; try assumption. cbn [pth clk]. lia.
  - done.
  - rewrite Hold. destruct (cat a) as [|c t|t dn rest]; cbn in *; try done. destruct i_cat0 as (? & ? & Hmt & Hsn).
    split_and!; try assumption; [intros i x Hx; apply lookup_app_l_Some; by apply Hmt|].
    intros Hr m Hm. apply (Hsn Hr). rewrite lookup_app_l in Hm; [done|lia].
Qed.

(** ** Steps of the consumer *)

Lemma consumer_loads_tail hc tc a c ts r :
  ra_inv hc tc a → cat a = CStart → consumer_do k w false c ts a = Some r → ∃ b, r = Ok b ∧ ra_inv hc tc b.
Proof using P Hw.
  intros H Hp. unfold consumer_do. rewrite Hp.
  destruct (load _ _ _ _ _) as [[v th]|] eqn:Hl; [|done]. intros [= <-]. eexists. split; [done|].
  destruct (index_own _ _ _ _ _ _ _ _ _ _ (i_tails _ _ _ H) Hl) as [-> Hts].
  apply load_Some in Hl as (m & Hm & _ & _ & Hn & Hne & _ & Hc & _).
  specialize (Hne at_head ltac:(done)). destruct (i_other _ _ _ H) as [_ Ho].
  apply consumer_view; try done; [by rewrite Hp|by rewrite Hne|lia|lia].
Qed.

Lemma matches_none sent n l : Forall (λ o, o = None) l → matches sent n l.
Proof using Hw. intros H i x Hi. rewrite Forall_lookup in H. by specialize (H i _ Hi). Qed.

(** What [after_head] makes of two indices. *)
Lemma after_head_ok a th c n m :
  n ≤ m ≤ n + capacity k → (head_order false c = acquire → seen at_head the_producer (heads a) th) →
  let p := after_head w c (ix n) (ix m) in cat_ok (set_consumer a th p) n m p.
Proof using P Hw.
  intros Hnm Hs. cbv zeta. unfold after_head. rewrite ix_diff by done.
  assert (Hmost : ∀ q, Z.to_nat (if (Z.of_nat (m - n) <? Z.of_nat q)%Z then Z.of_nat (m - n) else Z.of_nat q) = Nat.min q (m - n)).
  { intros q. destruct (Z.ltb_spec (Z.of_nat (m - n)) (Z.of_nat q)); lia. }
  destruct c as [|q| |q]; rewrite ?Hmost.
  - destruct (Z.eqb_spec (ix n) (ix m)) as [|Hne]; [done|]. cbn. assert (n ≠ m) by (by intros ->).
    rewrite Nat.add_0_r. split_and!; [done|lia|by apply matches_none|]. intros _. by apply Hs.
  - cbn. rewrite Nat.add_0_r. split_and!; [done|lia|by apply matches_none|]. intros _. by apply Hs.
  - destruct (Z.eqb_spec (ix n) (ix m)) as [|Hne]; [done|]. cbn. assert (n ≠ m) by (by intros ->).
    rewrite ix_S. split_and!; [f_equal; lia|lia|by apply matches_none; constructor|lia].
  - cbn. rewrite length_replicate, ix_add. split_and!; [done|lia|by apply matches_none, Forall_replicate|lia].
Qed.

Lemma consumer_loads_head hc tc a c0 c t ts r :
  ra_inv hc tc a → cat a = CHead c t → consumer_do k w false c0 ts a = Some r → ∃ b, r = Ok b ∧ ra_inv hc tc b.
Proof using P Hw.
  intros H Hp. unfold consumer_do. rewrite Hp.
  destruct (load _ _ _ _ _) as [[v th]|] eqn:Hl; [|done]. intros [= <-]. eexists. split; [done|].
  assert (Hs : head_order false c = acquire → seen at_head the_producer (heads a) th).
  { intros E. rewrite E in Hl. by eapply seen_load. }
  destruct (index_other _ _ _ _ _ _ _ _ _ _ _ (i_heads _ _ _ H) Hl) as (-> & Hts & Hge & Hle).
  apply load_Some in Hl as (m & Hm & _ & _ & Hn & Hne & _ & Hc & _).
  specialize (Hne at_tail ltac:(done)). destruct (i_own _ _ _ H) as [_ Ho].
  pose proof (i_avail _ _ _ H) as Hav. destruct (inv_bounds _ _ _ H) as (_ & _ & Hb & _).
  pose proof (i_cat _ _ _ H) as Hcat. rewrite Hp in Hcat. cbn in Hcat. subst t.
  apply consumer_view; rewrite ?Hn, ?Hne; try done; [by rewrite Hp; cbn; lia|].
  apply after_head_ok; [lia|done].
Qed.

(** The element that the consumer reads next. *)
Lemma next_element hc tc a t done rest :
  ra_inv hc tc a → cat a = CBlock t done (S rest) →
  ∃ x c, ra_sent a !! taken a = Some x ∧ cells a !! pos (taken a) = Some c ∧ t = ix (taken a) ∧
    c_val c = x ∧ c_by c = the_producer ∧ c_at c ≤ clk (cth a) the_producer.
Proof using Hw.
  intros H Hp. pose proof (i_cat _ _ _ H) as Hcat. rewrite Hp in Hcat. cbn in Hcat.
  destruct Hcat as (-> & Hle & _ & Hs). specialize (Hs ltac:(lia)).
  destruct (inv_bounds _ _ _ H) as (_ & Hhd & _ & _).
  assert (Htk : taken a = length (ra_received a) + length done) by (unfold taken; by rewrite Hp).
  rewrite <- Htk in *. destruct (lookup_lt_is_Some_2 (ra_sent a) (taken a) ltac:(lia)) as [x Hx].
  assert (Hwx : written a !! taken a = Some x) by (by apply lookup_app_l_Some).
  destruct (i_slots _ _ _ H (taken a) x ltac:(lia) Hwx) as (c & Hc & Hval & Hat).
  exists x, c. split_and!; try done.
  - by destruct (i_cell _ _ _ H _ _ Hc).
  - destruct (lookup_lt_is_Some_2 (heads a) (newest (cth a) at_head)) as [m Hm]; [apply (i_other _ _ _ H)|].
    etrans; [apply (Hat (newest (cth a) at_head) m Hm); lia|]. by apply Hs.
Qed.

Lemma consumer_reads hc tc a c0 t done rest ts r :
  ra_inv hc tc a → cat a = CBlock t done (S rest) →
  consumer_do k w false c0 ts a = Some r → ∃ b, r = Ok b ∧ ra_inv hc tc b.
Proof using P Hw.
  intros H Hp. unfold consumer_do. rewrite Hp. intros [= <-].
  destruct (next_element _ _ a _ _ _ H Hp) as (x & c & Hx & Hc & -> & Hval & Hby & Hat).
  pose proof (i_cat _ _ _ H) as Hcat. rewrite Hp in Hcat. cbn in Hcat. destruct Hcat as (_ & Hle & Hmt & Hs).
  assert (Htk : taken a = length (ra_received a) + length done) by (unfold taken; by rewrite Hp).
  set (n := taken a) in *. fold (pos n). rewrite Hc. cbn [deref mbind res_bind].
  rewrite na_read_ok by (by rewrite Hby). cbn [mbind res_bind mret res_ret]. eexists. split; [reflexivity|].
  destruct (inv_bounds _ _ _ H) as (_ & _ & Hb & _).
  destruct H. assert (Hlen : pos n < length (cells a)) by (rewrite i_cells0; apply pos_lt).
  pose proof (tick_le the_consumer (clk (cth a)) the_consumer) as Htick.
  constructor; cbn [set_consumer set_cells heads tails cells pth cth pat cat ra_sent ra_received]; try assumption.
  - eapply index_ok_mono; [eassumption|]. apply tick_le.
  - by rewrite length_insert.
  - intros i z Hi Hz. destruct (i_slots0 i z Hi Hz) as (c' & Hc' & Hv' & Hm').
    unfold in_slot. cbn [set_consumer set_cells cells heads]. destruct (decide (pos n = pos i)) as [He|He].
    + rewrite <- He in *. rewrite Hc in Hc'. injection Hc' as <-.
      eexists. split; [by apply list_lookup_insert_eq|]. by split.
    + exists c'. by rewrite list_lookup_insert_ne.
  - intros s c' Hs'. rewrite list_lookup_insert in Hs'. unfold cell_ok, taken.
    cbn [pth cth cat clk set_consumer set_cells tails ra_received dealt]. rewrite length_app. cbn [length].
    case_decide as Hd.
    + destruct Hd as [<- _]. injection Hs' as <-. cbn [c_by c_at c_reads].
      destruct (i_cell0 _ _ Hc) as (? & ? & ? & ? & _). split_and!; try assumption; [done|].
      right. exists n. split_and!; [lia|reflexivity|]. intros j m Hm Hj.
      pose proof (index_bound _ _ _ _ _ j i_tails0 (lookup_lt_Some _ _ _ Hm)). lia.
    + destruct (i_cell0 s c' Hs') as (? & ? & ? & ? & Hrd). split_and!; try assumption; [lia|].
      destruct Hrd as [|(i & Hi & ? & ?)]; [by left|right]. exists i. fold n in Hi. split_and!; [lia|assumption|assumption].
  - cbn [cat_ok newest set_consumer set_cells ra_sent heads cth]. rewrite length_app. cbn [length]. rewrite ix_S.
    split_and!; [f_equal; lia|lia| |].
    + intros i y Hi. apply lookup_app_Some in Hi as [Hi|[Hi1 Hi2]]; [by apply Hmt|].
      apply list_lookup_singleton_Some in Hi2 as [Hi2 [= <-]].
      replace (length (ra_received a) + i) with n by lia. by rewrite Hval.
    + intros _. eapply seen_mono; [apply Hs; lia|apply tick_le|done].
Qed.

Lemma consumer_publishes hc tc a c0 t done ts r :
  ra_inv hc tc a → cat a = CBlock t done 0 →
  consumer_do k w false c0 ts a = Some r →
  ∃ b, r = Ok b ∧ ra_inv hc (tc ++ [length (ra_received a) + length done]) b.
Proof using P Hw.
  intros H Hp. unfold consumer_do, index_release_barrier. rewrite Hp.
  pose proof (i_cat _ _ _ H) as Hcat. rewrite Hp in Hcat. cbn in Hcat. destruct Hcat as (-> & Hle & Hmt & _).
  assert (Htk : taken a = length (ra_received a) + length done) by (unfold taken; by rewrite Hp).
  set (n := length (ra_received a) + length done) in *.
  pose proof (index_store the_consumer _ n tc (tails a) (cth a) release at_tail (i_tails _ _ _ H) ltac:(lia)) as Hst.
  destruct (inv_bounds _ _ _ H) as (Hv1 & Hv2 & Hb & _). destruct (i_other _ _ _ H) as [Ho1 Ho2].
  unfold store in *. intros [= <-]. eexists. split; [reflexivity|]. destruct H.
  pose proof (x_length _ _ _ _ _ i_tails0) as Hxl.
  pose proof (tick_le the_consumer (clk (cth a)) the_consumer) as Htick.
  assert (Hold : cnt (tc ++ [n]) (newest (pth a) at_tail) = cnt tc (newest (pth a) at_tail)) by (apply cnt_app; lia).
  constructor; cbn [heads tails cells pth cth pat cat ra_sent ra_received]; try assumption.
  - by rewrite length_app.
  - cbn [newest]. rewrite see_eq, length_app. split; [apply i_own0|cbn; lia].
  - cbn [newest]. rewrite see_ne by done. rewrite length_app. cbn. lia.
  - by rewrite Hold.
  - cbn [newest]. rewrite see_ne by done. rewrite length_app. lia.
  - intros m Hm. apply i_seen0. rewrite lookup_app_l in Hm; [done|lia].
  - intros i x Hx. apply lookup_app_Some in Hx as [Hx|[Hx1 Hx2]]; [by apply i_fifo0|].
    specialize (Hmt _ _ Hx2). by replace (0 + i) with (length (ra_received a) + (i - length (ra_received a))) by lia.
  - intros i z Hi Hz. apply i_slots0; [rewrite length_app in Hi; lia|done].
  - intros s c Hs. destruct (i_cell0 s c Hs) as (? & ? & ? & Hr & Hread). unfold cell_ok, taken.
    cbn [pth cth cat clk tails ra_received dealt]. rewrite length_app, Nat.add_0_r.
    split_and!; try assumption; [lia|].
    destruct Hread as [|(i & Hi1 & Hi2 & Hi3)]; [by left|]. right. exists i. split_and!; [lia|assumption|].
    intros j m [Hm|[Hj Hm]]%lookup_app_Some Hij.
    + pose proof (lookup_lt_Some _ _ _ Hm). rewrite cnt_app in Hij by lia. by apply (Hi3 j m).
    + apply list_lookup_singleton_Some in Hm as [_ <-]. cbn [m_clock releases]. lia.
  - rewrite Hold. assumption.
  - done.
Qed.

(** ** All steps *)

Lemma producer_safe hc tc a c ts r :
  ra_inv hc tc a → producer_do k w false c ts a = Some r → ∃ b hc', r = Ok b ∧ ra_inv hc' tc b.
Proof using P Hw.
  intros H Hd. destruct (pat a) as [|c' h|h done [|x rest]] eqn:Hp.
  - destruct (producer_loads_head _ _ _ _ _ _ H Hp Hd) as (b & -> & ?). by exists b, hc.
  - destruct (producer_loads_tail _ _ _ _ _ _ _ _ H Hp Hd) as (b & -> & ?). by exists b, hc.
  - destruct (producer_publishes _ _ _ _ _ _ _ _ H Hp Hd) as (b & -> & ?). by eexists b, _.
  - destruct (producer_writes _ _ _ _ _ _ _ _ _ _ H Hp Hd) as (b & -> & ?). by exists b, hc.
Qed.

Lemma consumer_safe hc tc a c ts r :
  ra_inv hc tc a → consumer_do k w false c ts a = Some r → ∃ b tc', r = Ok b ∧ ra_inv hc tc' b.
Proof using P Hw.
  intros H Hd. destruct (cat a) as [|c' t|t done [|rest]] eqn:Hp.
  - destruct (consumer_loads_tail _ _ _ _ _ _ H Hp Hd) as (b & -> & ?). by exists b, tc.
  - destruct (consumer_loads_head _ _ _ _ _ _ _ _ H Hp Hd) as (b & -> & ?). by exists b, tc.
  - destruct (consumer_publishes _ _ _ _ _ _ _ _ H Hp Hd) as (b & -> & ?). by eexists b, _.
  - destruct (consumer_reads _ _ _ _ _ _ _ _ _ H Hp Hd) as (b & -> & ?). by exists b, tc.
Qed.

Definition ra_ok (a : ra_state T) : Prop := ∃ hc tc, ra_inv hc tc a.

Lemma ra_step_ok a b : ra_ok a → ra_step k w false a b → ra_ok b.
Proof using P Hw.
  intros (hc & tc & H) Hs. destruct Hs as [c ts a b Hd|c ts a b Hd].
  - destruct (producer_safe _ _ _ _ _ _ H Hd) as (b' & hc' & [= <-] & H'). by exists hc', tc.
  - destruct (consumer_safe _ _ _ _ _ _ H Hd) as (b' & tc' & [= <-] & H'). by exists hc, tc'.
Qed.

Lemma ra_create_ok garbage : length garbage = capacity k → ra_ok (ra_create garbage).
Proof using P Hw.
  intros Hg. exists [0], [0]. pose proof capacity_pos. assert (H0 : ix 0 = 0%Z).
  { unfold ix. apply wrap_small. pose proof (pow_facts k w P). lia. }
  assert (Hi : ∀ t, index_ok t 0 [0] (initial t 0) new_thread).
  { intros t. constructor; [done|done| |].
    - intros [|i] [|j] Hij Hj; cbn in *; lia.
    - intros i m Hm. apply list_lookup_singleton_Some in Hm as [-> <-]. change (cnt [0] 0) with 0; by rewrite H0. }
  constructor; cbn; try done; try lia.
  - intros m Hm. by apply list_lookup_singleton_Some in Hm as [_ <-].
  - by rewrite length_fmap.
  - intros s c Hc. apply list_lookup_fmap_Some in Hc as (v & -> & _). unfold cell_ok. cbn. split_and!; try done. by left.
Qed.

Lemma ra_invariant a : reachable (ra_init k) (ra_step k w false) a → ra_ok a.
Proof using P Hw.
  apply reachable_invariant; [|apply ra_step_ok]. intros ? (garbage & Hg & ->). by apply ra_create_ok.
Qed.

(** ** Progress *)

(** The newest value of an index, for either thread. *)
Lemma index_load t n cs h th0 th o loc : index_ok t n cs h th0 → newest th loc < length h →
  ∃ th', load o loc (length h - 1) h th = Some (ix n, th').
Proof using Hw.
  intros [Hl Hn _ Hv] Hlt. destruct (lookup_lt_is_Some_2 h (length h - 1) ltac:(lia)) as [m Hm].
  destruct (load_last o loc h th m) as [th' Hld]; [|done|].
  - rewrite last_lookup. by replace (pred (length h)) with (length h - 1) by lia.
  - destruct (Hv _ _ Hm) as (Hval & _). rewrite Hval, <- Hl, (cnt_last _ _ Hn) in Hld. rewrite Hl in Hld. by exists th'.
Qed.

Lemma producer_can a c : ra_ok a → ∃ ts r, producer_do k w false c ts a = Some r.
Proof using Hw.
  intros (hc & tc & H). unfold producer_do. destruct (pat a) as [|c' h|h done [|x rest]]; [| |by exists 0; eexists..].
  - destruct (index_load _ _ _ _ _ (pth a) relaxed at_head (i_heads _ _ _ H)) as [th Hl]; [apply (i_own _ _ _ H)|].
    eexists _, _. by rewrite Hl.
  - destruct (index_load _ _ _ _ _ (pth a) (index_acquire_barrier false) at_tail (i_tails _ _ _ H)) as [th Hl];
      [apply (i_other _ _ _ H)|]. eexists _, _. by rewrite Hl.
Qed.

Lemma consumer_can a c : ra_ok a → ∃ ts r, consumer_do k w false c ts a = Some r.
Proof using Hw.
  intros (hc & tc & H). unfold consumer_do. destruct (cat a) as [|c' t|t done [|rest]]; [| |by exists 0; eexists..].
  - destruct (index_load _ _ _ _ _ (cth a) relaxed at_tail (i_tails _ _ _ H)) as [th Hl]; [apply (i_own _ _ _ H)|].
    eexists _, _. by rewrite Hl.
  - destruct (index_load _ _ _ _ _ (cth a) (head_order false c') at_head (i_heads _ _ _ H)) as [th Hl];
      [apply (i_other _ _ _ H)|]. eexists _, _. by rewrite Hl.
Qed.

(** The consumer alone comes to a state between two calls with [n] elements
    received. *)
Definition comes_to (a : ra_state T) (n : nat) : Prop :=
  ∃ b, rtc (ra_step k w false) a b ∧ ra_ok b ∧ cat b = CStart ∧ ra_sent b = ra_sent a ∧
    length (ra_received b) = n.

Lemma comes_step a c ts b n : consumer_do k w false c ts a = Some (Ok b) → ra_sent b = ra_sent a →
  comes_to b n → comes_to a n.
Proof using Hw.
  intros Hd Hs (d & Hr & Hok & Hc & Hsd & Hn). exists d. split_and!; try done; [|congruence].
  eapply rtc_l; [by eapply ra_consumer|done].
Qed.

Lemma finish_block a t done n : ra_ok a → cat a = CBlock t done n →
  comes_to a (length (ra_received a) + length done + n).
Proof using P Hw.
  revert a t done. induction n as [|n IH]; intros a t done Hok Hp.
  - assert (Hd : ∃ b, consumer_do k w false CRemove 0 a = Some (Ok b) ∧ cat b = CStart ∧ ra_sent b = ra_sent a ∧
                   ra_received b = ra_received a ++ done).
    { unfold consumer_do. rewrite Hp. by eexists. }
    destruct Hd as (b & Hd & Hc & Hs & Hr). eapply comes_step; [done..|]. exists b.
    split_and!; [done| |done..|by rewrite Hr, length_app; lia].
    eapply ra_step_ok; [done|by eapply ra_consumer].
  - destruct Hok as (hc & tc & H). destruct (next_element _ _ a _ _ _ H Hp) as (x & c & _ & Hc & -> & _ & Hby & Hat).
    assert (Hd : ∃ b, consumer_do k w false CRemove 0 a = Some (Ok b) ∧ ra_sent b = ra_sent a ∧
              ra_received b = ra_received a ∧ ∃ t, cat b = CBlock t (done ++ [Some (c_val c)]) n).
    { unfold consumer_do. rewrite Hp. fold (pos (taken a)). rewrite Hc. cbn [deref mbind res_bind].
      rewrite na_read_ok by (by rewrite Hby). eexists. split; [reflexivity|]. split_and!; [done|done|by eexists]. }
    destruct Hd as (b & Hd & Hs & Hr & t & Hb). eapply comes_step; [done|done|].
    assert (Hokb : ra_ok b) by (eapply ra_step_ok; [by exists hc, tc|by eapply ra_consumer]).
    replace (length (ra_received a) + length done + S n)
      with (length (ra_received b) + length (done ++ [Some (c_val c)]) + n) by (rewrite Hr, length_app; cbn; lia).
    by eapply IH.
Qed.

(** The call in progress ends. *)
Lemma finish_call a : ra_ok a → ∃ n, length (ra_received a) ≤ n ∧ comes_to a n.
Proof using P Hw.
  intros Hok. destruct (cat a) as [|c t|t done n] eqn:Hp.
  - exists (length (ra_received a)). split; [done|]. exists a. by split_and!.
  - destruct Hok as (hc & tc & H).
    destruct (index_load _ _ _ _ _ (cth a) (head_order false c) at_head (i_heads _ _ _ H)) as [th Hl];
      [apply (i_other _ _ _ H)|].
    set (p := after_head (T := T) w c t (ix (length (ra_sent a)))).
    assert (Hd : consumer_do k w false CRemove (length (heads a) - 1) a = Some (Ok (set_consumer a th p))).
    { unfold consumer_do. by rewrite Hp, Hl. }
    assert (Hokb : ra_ok (set_consumer a th p)) by (eapply ra_step_ok; [by exists hc, tc|by eapply ra_consumer]).
    destruct p as [|c' t'|t' done n] eqn:Ep.
    + exists (length (ra_received a)). split; [done|]. eapply comes_step; [done|done|]. eexists. by split_and!.
    + unfold p, after_head in Ep. destruct c; try done; by destruct (_ =? _)%Z.
    + eexists. split; [|eapply comes_step; [done|done|by eapply finish_block]]. cbn. lia.
  - eexists. split; [|by eapply finish_block]. lia.
Qed.

(** The next call of [remove(&data)] receives an element. *)
Lemma receive_one a : ra_ok a → cat a = CStart → length (ra_received a) < length (ra_sent a) →
  comes_to a (S (length (ra_received a))).
Proof using P Hw.
  intros Hok Hp Hlt. pose proof Hok as (hc & tc & H).
  destruct (index_load _ _ _ _ _ (cth a) relaxed at_tail (i_tails _ _ _ H)) as [th Hl]; [apply (i_own _ _ _ H)|].
  set (b := set_consumer a th (CHead CRemove (ix (length (ra_received a))))).
  assert (Hd : consumer_do k w false CRemove (length (tails a) - 1) a = Some (Ok b)).
  { unfold consumer_do. by rewrite Hp, Hl. }
  eapply comes_step; [exact Hd|done|].
  assert (Hokb : ra_ok b) by (eapply ra_step_ok; [done|by eapply ra_consumer]).
  pose proof Hokb as (hc' & tc' & Hb).
  destruct (index_load _ _ _ _ _ (cth b) acquire at_head (i_heads _ _ _ Hb)) as [th2 Hl2]; [apply (i_other _ _ _ Hb)|].
  set (d := set_consumer b th2 (CBlock (ix (length (ra_received a))) [] 1)).
  assert (Hd2 : consumer_do k w false CRemove (length (heads b) - 1) b = Some (Ok d)).
  { unfold consumer_do. cbn [cat b set_consumer head_order index_acquire_barrier]. fold b. rewrite Hl2.
    cbn [after_head]. destruct (Z.eqb_spec (ix (length (ra_received a))) (ix (length (ra_sent b)))) as [He|]; [|done].
    exfalso. destruct (inv_bounds _ _ _ H) as (_ & _ & Hb2 & _). apply ix_eq in He; cbn in *; lia. }
  eapply comes_step; [exact Hd2|done|].
  replace (S (length (ra_received a))) with (length (ra_received d) + @length (option T) [] + 1) by (cbn; lia).
  eapply finish_block; [|done]. eapply ra_step_ok; [exact Hokb|by eapply ra_consumer].
Qed.

Lemma receive_all a : ra_ok a → comes_to a (length (ra_sent a)).
Proof using P Hw.
  intros Hok. destruct (finish_call a Hok) as (n & _ & b & Hr & Hokb & Hc & Hs & Hn). rewrite <- Hs.
  enough (Hall : comes_to b (length (ra_sent b))).
  { destruct Hall as (d & Hrd & ? & ? & ? & ?). exists d. split_and!; [by etrans|done|done|congruence|done]. }
  clear a n Hok Hr Hs Hn. remember (length (ra_sent b) - length (ra_received b)) as n eqn:En.
  revert b En Hokb Hc. induction n as [|n IH]; intros b En Hok Hc.
  - exists b. pose proof Hok as (hc & tc & H). destruct (inv_bounds _ _ _ H) as (_ & _ & ? & _). split_and!; try done. lia.
  - destruct (receive_one b Hok Hc ltac:(lia)) as (d & Hr & Hokd & Hcd & Hs & Hn).
    rewrite <- Hs. destruct (IH d) as (e & Hre & ? & ? & ? & ?); [rewrite Hs, Hn; lia|done|done|].
    exists e. split_and!; [by etrans|done|done|congruence|done].
Qed.

End invariant.

(** ** Clearing *)

Section clearing.
Context {T : Type} (k w : Z) (P : rb_params k w) (Hw : 32 ≤ w).
Local Open Scope nat_scope.

(** A slot that nobody has used. *)
Definition unused (c : plain T) : Prop := c_at c = 0 ∧ ∀ u, c_reads c u = 0.

Lemma write_unused f c ts (a : ra_state T) h done y rest cell :
  pat a = PBlock h done (y :: rest) → cells a !! slot k h = Some cell → unused cell →
  ∃ b, producer_do k w f c ts a = Some (Ok b) ∧ pat b = PBlock (wrap w (h + 1)) (done ++ [y]) rest ∧
    clk (pth b) the_consumer = clk (pth a) the_consumer ∧
    ∀ s, s ≠ slot k h → cells b !! s = cells a !! s.
Proof using.
  intros Hp Hc [H1 H2]. unfold producer_do. rewrite Hp, Hc. cbn [deref mbind res_bind].
  rewrite na_write_ok by (intros; rewrite ?H1, ?H2; lia). cbn [mbind res_bind mret res_ret].
  eexists. split; [reflexivity|]. cbn [pat pth cells set_producer set_cells clk].
  split; [done|]. split; [done|]. intros s Hs. by rewrite list_lookup_insert_ne.
Qed.

(** A block is written until its last element, through unused slots. *)
Lemma write_block f (ys : list T) : ∀ i done z (a : ra_state T),
  pat a = PBlock (ix w i) done (ys ++ [z]) →
  (∀ j, j < length ys → ∃ c, cells a !! pos k w (i + j) = Some c ∧ unused c) → length ys < capacity k →
  ∃ b, rtc (ra_step k w f) a b ∧ pat b = PBlock (ix w (i + length ys)) (done ++ ys) [z] ∧
    clk (pth b) the_consumer = clk (pth a) the_consumer ∧
    (∀ s, (∀ j, j < length ys → s ≠ pos k w (i + j)) → cells b !! s = cells a !! s).
Proof using P Hw.
  induction ys as [|y ys IH]; intros i done z a Hp Hu Hlen.
  { exists a. rewrite Nat.add_0_r, app_nil_r. split_and!; try done. }
  cbn [length app] in *. destruct (Hu 0 ltac:(lia)) as (c & Hc & Hcu). rewrite Nat.add_0_r in Hc.
  destruct (write_unused f (CInsert y) 0 a _ _ _ _ _ Hp Hc Hcu) as (b & Hs & Hpb & Hk1 & Hcells).
  rewrite ix_S in Hpb by done.
  destruct (IH (S i) (done ++ [y]) z b Hpb) as (b' & Hr & Hpb' & Hk1' & Hcells').
  - intros j Hj. destruct (Hu (S j) ltac:(lia)) as (c' & Hc' & Hu').
    replace (i + S j) with (S i + j) in Hc' by lia. exists c'. split; [|done]. rewrite Hcells; [done|].
    change (slot k (ix w i)) with (pos k w i). intros E. symmetry in E. apply (pos_same k w P Hw) in E; lia.
  - lia.
  - exists b'. split_and!.
    + eapply rtc_l; [by eapply ra_producer|done].
    + rewrite Hpb'. f_equal; [f_equal; lia|]. by rewrite <- app_assoc.
    + by rewrite Hk1'.
    + intros s Hs'. rewrite Hcells'; [apply Hcells|].
      * specialize (Hs' 0 ltac:(lia)). by rewrite Nat.add_0_r in Hs'.
      * intros j Hj. replace (S i + j) with (i + S j) by lia. apply Hs'. lia.
Qed.

Lemma pos_capacity : pos k w (capacity k) = pos k w 0.
Proof using P.
  unfold pos, ix. rewrite !(slot_wrap k w P), !(slot_mod k w P), (capacity_Z k w P).
  pose proof (pow_facts k w P). by rewrite Z.mod_same, Z.mod_0_l by lia.
Qed.

Lemma slot_0 : slot k 0 = 0.
Proof using P. rewrite (slot_mod k w P). pose proof (pow_facts k w P). by rewrite Z.mod_0_l by lia. Qed.

(** One element [x] was sent, and the consumer has read it through [peek]. *)
Record peeked (x : T) (n : nat) (a : ra_state T) : Prop := {
  pk_sent : ra_sent a = [x];
  pk_pat : pat a = PStart;
  pk_cat : cat a = CBlock (ix w 1) [Some x] 0;
  pk_heads : heads a = initial 0 0 ++ [Msg 1 0 2 (clk (pth a))];
  pk_tails : tails a = initial 1 0;
  pk_clock : clk (pth a) the_consumer = 0;
  pk_newest : newest (pth a) at_head = 1 ∧ newest (pth a) at_tail = 0 ∧ newest (cth a) at_head = 1;
  pk_cells : ∃ c, cells a = c :: (new_cell <$> replicate n x) ∧ c_reads c the_consumer = 1
}.

Lemma index_one : ix w 1 = 1%Z ∧ wrap w (0 + 1) = 1%Z.
Proof using P Hw.
  pose proof (pow_facts k w P) as Hp. assert (wrap w 1 = 1%Z) by (apply wrap_small; lia). done.
Qed.

Lemma reach_peeked x n : S n = capacity k → ∃ a, reachable (ra_init k) (ra_step k w false) a ∧ peeked x n a.
Proof using P Hw.
  intros Hn. pose proof (pow_facts k w P) as Hp. destruct index_one as [Hix Hix1].
  assert (Hroom : after_tail k w (CInsert x) 0 0 = PBlock 0 [] [x]).
  { unfold after_tail, idx_sub. rewrite (proj2 (Z.ltb_ge _ _)), Z.sub_diag, (wrap_small w 0) by lia.
    by rewrite (proj2 (Z.eqb_neq _ _)) by (unfold buffer_size; lia). }
  pose proof slot_0 as Hs0.
  assert (Ha : ∃ a, rtc (ra_step k w false) (ra_create (x :: replicate n x)) a ∧ peeked x n a).
  { eexists. split.
    - eapply rtc_l; [eapply (ra_producer _ _ _ (CInsert x) 0); reflexivity|].
      eapply rtc_l; [eapply (ra_producer _ _ _ (CInsert x) 0); cbn -[after_tail]; rewrite Hroom; reflexivity|].
      eapply rtc_l; [eapply (ra_producer _ _ _ (CInsert x) 0); cbn -[wrap]; rewrite Hs0, Hix1; reflexivity|].
      eapply rtc_l; [eapply (ra_producer _ _ _ (CInsert x) 0); reflexivity|].
      eapply rtc_l; [eapply (ra_consumer _ _ _ CRemove 0); reflexivity|].
      eapply rtc_l; [eapply (ra_consumer _ _ _ CRemove 1); reflexivity|].
      eapply rtc_l; [eapply (ra_consumer _ _ _ CRemove 0); cbn -[wrap]; rewrite Hs0; cbn -[wrap]; rewrite Hix1; reflexivity|].
      reflexivity.
    - split; rewrite ?Hix; cbn; try done. eexists. by split. }
  destruct Ha as (a & Hr & Hpk). exists a. split; [|done]. exists (ra_create (x :: replicate n x)). split; [|done].
  exists (x :: replicate n x). split; [cbn; rewrite length_replicate; lia|done].
Qed.

(** The buffer is cleared, and a producer begins to fill it. *)
Lemma clear_begin x y ys (a : ra_state T) : peeked x (length ys) a → S (length ys) = capacity k →
  ∃ b b2, consumerClear_do 1 a = Some b ∧ rtc (ra_step k w false) b b2 ∧
    pat b2 = PBlock (ix w 1) [] (ys ++ [y]) ∧ clk (pth b2) the_consumer = 0 ∧ cells b2 = cells a.
Proof using P Hw.
  intros [_ Hpat Hcat Hh Ht Hk (Hnh & Hnt & Hnc) _] Hys. destruct index_one as [Hix _].
  pose proof (pow_facts k w P). pose proof (capacity_Z k w P).
  set (th1 := snd (store the_consumer relaxed at_tail 1 (tails a) (Thread (clk (cth a)) (see at_head 1 (newest (cth a)))))).
  set (m1 := Msg 1 1 (S (clk (cth a) 1%nat)) no_clock).
  set (b := Ra (heads a) (initial 1 0 ++ [m1]) (cells a) (pth a) th1 (pat a) CStart (ra_sent a) (ra_received a)).
  set (th2 := Thread (clk (pth a)) (see at_head 1 (newest (pth a)))).
  set (th3 := Thread (join (clk (pth a)) no_clock) (see at_tail 1 (newest th2))).
  set (b1 := set_producer b th2 (PTail (CWriteBuff (ys ++ [y])) 1)).
  exists b, (set_producer b1 th3 (PBlock (ix w 1) [] (ys ++ [y]))). split; [|split].
  - unfold consumerClear_do, load. rewrite Hcat, Hh. cbn. rewrite Hnc. cbn. unfold b, th1, m1. by rewrite Ht, Hh.
  - eapply rtc_l; [apply (ra_producer _ _ _ (CWriteBuff (ys ++ [y])) 1 b b1)|].
    { unfold producer_do, load. cbn [pat b]. rewrite Hpat. cbn [heads b]. rewrite Hh. cbn. by rewrite Hnh. }
    apply rtc_once. apply (ra_producer _ _ _ (CWriteBuff (ys ++ [y])) 1). unfold producer_do, load.
    cbn -[after_tail]. rewrite Hnt. cbn -[after_tail].
    assert (after_tail k w (CWriteBuff (ys ++ [y])) 1 1 = PBlock (ix w 1) [] (ys ++ [y])) as Haft; [|by rewrite Haft].
    unfold after_tail. rewrite Z.sub_diag, Z.sub_0_r, Hix. f_equal. unfold buffer_size. rewrite wrap_small by lia.
    apply take_ge. rewrite length_app. simpl. lia.
  - split; [done|]. split; [|done]. change (clk (pth a) the_consumer `max` 0 = 0). by rewrite Hk.
Qed.

End clearing.

(** ** Properties *)

(** C3: with acquire and release, as the code has them by default, the producer
    and the consumer never race on a slot under the C++ memory model, whatever
    calls they make in whatever order and whatever old values their loads
    return.  What a call reads is the element that was sent at its place, so
    none is lost, doubled or out of order; the consumer is never ahead and at
    most a buffer behind; no call of either thread ever waits for the other, and
    from every state all that was sent can still be received. *)
Theorem ringbuffer_ra_safe {T} (k w : Z) (a : ra_state T) :
  rb_params k w → 32 ≤ w → reachable (ra_init k) (ra_step k w false) a →
  (∀ c ts r, producer_do k w false c ts a = Some r → ∃ b, r = Ok b) ∧
  (∀ c ts r, consumer_do k w false c ts a = Some r → ∃ b, r = Ok b) ∧
  (∀ i x, ra_received a !! i = Some (Some x) → ra_sent a !! i = Some x) ∧
  (length (ra_received a) ≤ length (ra_sent a) ≤ length (ra_received a) + capacity k)%nat ∧
  (∀ c, ∃ ts r, producer_do k w false c ts a = Some r) ∧ (∀ c, ∃ ts r, consumer_do k w false c ts a = Some r) ∧
  ∃ b, rtc (ra_step k w false) a b ∧ ra_sent b = ra_sent a ∧ length (ra_received b) = length (ra_sent a).
Proof.
  intros P Hw Hr. pose proof (ra_invariant k w P Hw a Hr) as Hok. pose proof Hok as (hc & tc & H). split_and!.
  - intros c ts r Hd. destruct (producer_safe k w P Hw _ _ _ _ _ _ H Hd) as (b & _ & -> & _). by exists b.
  - intros c ts r Hd. destruct (consumer_safe k w P Hw _ _ _ _ _ _ H Hd) as (b & _ & -> & _). by exists b.
  - intros i x Hx. by apply (i_fifo _ _ _ _ _ H i x).
  - apply (inv_bounds k w Hw _ _ _ H).
  - apply (inv_bounds k w Hw _ _ _ H).
  - intros c. by apply (producer_can k w Hw).
  - intros c. by apply (consumer_can k w Hw).
  - destruct (receive_all k w P Hw a Hok) as (b & ? & _ & _ & ? & ?). by exists b.
Qed.

(** with [fake_tso] the same code is undefined under the C++ memory model,
    on a buffer of the default size: after one [insert] a [remove] that gets the
    new [head] reads a slot whose write does not happen before. *)
Theorem ringbuffer_fake_tso_race {T} (x : T) :
  ∃ a : ra_state T, reachable (ra_init 4) (ra_step 4 64 true) a ∧
    ra_sent a = [x] ∧ consumer_do 4 64 true CRemove 0 a = Some (Fault DataRace).
Proof.
  eexists. split_and!.
  - eapply (ra_run_reachable 4 64 true (replicate 16 x) [(inl (CInsert x), 0); (inl (CInsert x), 0);
      (inl (CInsert x), 0); (inl (CInsert x), 0); (inr CRemove, 0); (inr CRemove, 1)]%nat); [done|].
    vm_compute. reflexivity.
  - reflexivity.
  - reflexivity.
Qed.

(** C23: [consumerClear] stores [tail] without release.  In a buffer of any size,
    used with acquire and release otherwise, a consumer looks at the element
    through the pointer of [peek] and clears the buffer; a producer that then
    fills the buffer with [writeBuff] gets to the slot of that element, which the
    cleared [tail] allows, and its write there is a data race: the read of the
    consumer does not happen before it. *)
Theorem ringbuffer_clear_race {T} (k w : Z) (x y : T) (ys : list T) :
  rb_params k w → 32 ≤ w → S (length ys) = capacity k →
  ∃ a b c : ra_state T, reachable (ra_init k) (ra_step k w false) a ∧
    ra_sent a = [x] ∧ cat a = CBlock (ix w 1) [Some x] 0 ∧
    consumerClear_do 1 a = Some b ∧ rtc (ra_step k w false) b c ∧
    pat c = PBlock (ix w (S (length ys))) ys [y] ∧ pos k w (S (length ys)) = pos k w 0 ∧
    ∀ call ts, producer_do k w false call ts c = Some (Fault DataRace).
Proof.
  intros P Hw Hys. destruct (reach_peeked k w P Hw x (length ys) Hys) as (a & Hra & Hpk).
  destruct (clear_begin k w P Hw x y ys a Hpk Hys) as (b & b2 & Hb & Hb2 & Hp2 & Hk2 & Hcells2).
  destruct (pk_cells _ _ _ _ Hpk) as (c0 & Hcells & Hread). rewrite Hcells in Hcells2.
  assert (Hpos0 : pos k w 0 = 0%nat) by (unfold pos, ix; rewrite (slot_wrap k w P); apply (slot_0 k w P)).
  assert (Hne : ∀ j, (j < length ys)%nat → pos k w (1 + j) ≠ 0%nat).
  { intros j Hj E. rewrite <- Hpos0 in E. symmetry in E. apply (pos_same k w P Hw) in E; lia. }
  destruct (write_block k w P Hw false ys 1 [] y b2) as (c & Hc & Hpc & Hkc & Hcc); [done| |lia|].
  { intros j Hj. specialize (Hne j Hj). pose proof (pos_lt k w P (1 + j)). rewrite Hcells2.
    destruct (pos k w (1 + j)) as [|s]; [done|]. exists (new_cell x). split; [|done].
    change ((new_cell <$> replicate (length ys) x) !! s = Some (new_cell x)). rewrite list_lookup_fmap.
    by rewrite lookup_replicate_2 by lia. }
  assert (Hlast : pos k w (S (length ys)) = pos k w 0) by (rewrite Hys; by apply pos_capacity).
  exists a, b, c. split_and!; try done; [apply Hpk|apply Hpk|by etrans|].
  intros call ts. unfold producer_do. rewrite Hpc. change (slot k (ix w (1 + length ys))) with (pos k w (S (length ys))).
  rewrite Hlast, Hpos0, Hcc, Hcells2 by (intros j Hj E; by apply (Hne j Hj)). cbn [lookup list_lookup deref mbind res_bind].
  unfold na_write, read_before. cbn [seq forallb]. change (c_reads c0 1%nat) with (c_reads c0 the_consumer).
  change (clk (pth c) 1%nat) with (clk (pth c) the_consumer). rewrite Hread, Hkc, Hk2. cbn.
  by rewrite !andb_false_r.
Qed.

(** ** Witnesses *)

(** A buffer of four slots, filled again after it was cleared. *)
Lemma ringbuffer_clear_race_witness :
  ∃ c : ra_state nat, pat c = PBlock 4 [2; 3; 4]%nat [5]%nat ∧
    producer_do 2 64 false (CInsert 9%nat) 0 c = Some (Fault DataRace).
Proof.
  destruct (ringbuffer_clear_race 2 64 1%nat 5%nat [2; 3; 4]%nat) as (a & b & c & _ & _ & _ & _ & _ & Hp & _ & Hr);
    [split; lia|lia|reflexivity|].
  exists c. split; [exact Hp|exact (Hr (CInsert 9%nat) 0%nat)].
Defined.

(** A block of three is sent, one of its elements is dropped unread, and a
    [readBuff] is at its load of [head], which may return the old value too. *)
Lemma ringbuffer_ra_safe_witness :
  ∃ a, ra_sent a = [7; 8; 9]%nat ∧ ra_received a = [None] ∧ cat a = CHead (CReadBuff 5) 1 ∧
    ∃ b, rtc (ra_step 4 64 false) a b ∧ ra_sent b = [7; 8; 9]%nat ∧ length (ra_received b) = 3%nat.
Proof.
  assert (H : ∃ a : ra_state nat, reachable (ra_init 4) (ra_step 4 64 false) a ∧
    ra_sent a = [7; 8; 9]%nat ∧ ra_received a = [None] ∧ cat a = CHead (CReadBuff 5) 1).
  { eexists. split_and!.
    - eapply (ra_run_reachable 4 64 false (replicate 16 0%nat) (replicate 6 (inl (CWriteBuff [7; 8; 9]), 0) ++
        [(inr CDrop, 0); (inr CDrop, 1); (inr CDrop, 0); (inr (CReadBuff 5), 1)])%nat); [done|].
      vm_compute. reflexivity.
    - reflexivity.
    - reflexivity.
    - reflexivity. }
  destruct H as (a & Hr & Hs & Hv & Hc). exists a. split_and!; try done.
  destruct (ringbuffer_ra_safe 4 64 a ltac:(split; lia) ltac:(lia) Hr) as (_ & _ & _ & _ & _ & _ & b & Hb & Hsb & Hrb).
  exists b. rewrite Hsb, Hrb, Hs. done.
Defined.
