(* ===== verification/SpinRa.v ===== *)
(** * The spin lock in the C++ memory model (core/spinlock.h)

    Any number of threads that read and write a shared object between [lock] or
    [try_lock] and [unlock], with the memory orders of the code.  The object is
    plain: an access that the lock does not order is a data race. *)

From S2P Require Import Prelude RelAcq.
Local Open Scope nat_scope.

(** ** The lock and its users *)

Definition at_flag : nat := 0.

(** [flag_]: 1 when set. *)
Definition spin_set : Z := 1.
Definition spin_clear : Z := 0.

(** [flag_.test_and_set(std::memory_order_acquire)] *)
Definition flag_test_and_set (t : nat) (h : list message) (th : thread) : option (bool * (list message * thread)) :=
  match exchange t acquire at_flag spin_set h th with
  | Some (v, r) => Some ((v =? spin_set)%Z, r)
  | None => None
  end.

(** [try_lock], and one round of the loop of [lock]: whether it was acquired. *)
Definition ra_try_lock (t : nat) (h : list message) (th : thread) : option (bool * (list message * thread)) :=
  match flag_test_and_set t h th with
  | Some (old, r) => Some (negb old, r)
  | None => None
  end.

Definition ra_unlock (t : nat) (h : list message) (th : thread) : list message * thread :=
  store t release at_flag spin_clear h th.

(** The threads with whether they hold the lock, and [writes]: what was
    written to the object, the newest last. *)
Record spin_state (A : Type) := SpinRa {
  flag_ : list message; users : list (thread * bool); object : plain A; writes : list A
}.
Arguments SpinRa {A}.
Arguments flag_ {A}.
Arguments users {A}.
Arguments object {A}.
Arguments writes {A}.

Inductive spin_op (A : Type) := OpLock | OpRead | OpWrite (v : A) | OpUnlock.
Arguments OpLock {A}.
Arguments OpRead {A}.
Arguments OpWrite {A}.
Arguments OpUnlock {A}.

Section steps.
Context {A : Type}.

(** A step of thread [t], with what it returned; a user calls [lock] when it
    does not hold the lock, and the others when it does. *)
Definition spin_do (t : nat) (op : spin_op A) (s : spin_state A) : option (res (option A * spin_state A)) :=
  match users s !! t with
  | None => None
  | Some (th, holds) =>
      match op, holds with
      | OpLock, false =>
          match ra_try_lock t (flag_ s) th with
          | Some (got, (h, th)) => Some (mret (None, SpinRa h (<[t := (th, got)]> (users s)) (object s) (writes s)))
          | None => None
          end
      | OpRead, true =>
          Some ('(v, c, th) ← na_read t (object s) th;
                mret (Some v, SpinRa (flag_ s) (<[t := (th, true)]> (users s)) c (writes s)))
      | OpWrite v, true =>
          Some ('(c, th) ← na_write (length (users s)) t v (object s) th;
                mret (None, SpinRa (flag_ s) (<[t := (th, true)]> (users s)) c (writes s ++ [v])))
      | OpUnlock, true =>
          let (h, th) := ra_unlock t (flag_ s) th in
          Some (mret (None, SpinRa h (<[t := (th, false)]> (users s)) (object s) (writes s)))
      | _, _ => None
      end
  end.

Inductive spin_ra_step : spin_state A → spin_state A → Prop :=
| spin_one t op s r s' : spin_do t op s = Some (Ok (r, s')) → spin_ra_step s s'.

(** [n] threads and an object that was initialised before they start. *)
Definition spin_start (n : nat) (v : A) : spin_state A :=
  SpinRa (initial 0 spin_clear) (replicate n (new_thread, false)) (new_cell v) [v].

End steps.

(** ** The invariant *)

Section invariant.
Context {A : Type}.

(** Everything done to the object happens before what has this clock. *)
Definition covers (n : nat) (c : plain A) (k : clock) : Prop :=
  c_at c ≤ k (c_by c) ∧ ∀ u, u < n → c_reads c u ≤ k u.

Record spin_inv (s : spin_state A) : Prop := {
  sp_value : last (writes s) = Some (c_val (object s));
  sp_free m : last (flag_ s) = Some m → m_val m = spin_clear →
    (∀ t u, users s !! t = Some u → u.2 = false) ∧ covers (length (users s)) (object s) (m_clock m);
  sp_held m : last (flag_ s) = Some m → m_val m ≠ spin_clear →
    m_val m = spin_set ∧
    ∃ t th, users s !! t = Some (th, true) ∧ covers (length (users s)) (object s) (clk th) ∧
      ∀ t' u, users s !! t' = Some u → u.2 = true → t' = t;
  sp_some : is_Some (last (flag_ s))
}.

Lemma covers_le n c k k' : covers n c k → clock_le k k' → covers n c k'.
Proof.
  intros [H1 H2] Hk. split; [specialize (Hk (c_by c)); lia|].
  intros u Hu. specialize (H2 u Hu). specialize (Hk u). lia.
Qed.

(** Who holds the lock is the only one, and has seen all accesses. *)
Lemma holder s t th : spin_inv s → users s !! t = Some (th, true) →
  ∃ m, last (flag_ s) = Some m ∧ m_val m = spin_set ∧ covers (length (users s)) (object s) (clk th) ∧
    ∀ t' u, users s !! t' = Some u → u.2 = true → t' = t.
Proof.
  intros [_ Hf Hh [m Hm]] Ht. exists m. destruct (decide (m_val m = spin_clear)) as [He|Hne].
  - destruct (Hf m Hm He) as [Hno _]. specialize (Hno t _ Ht). done.
  - destruct (Hh m Hm Hne) as (Hv & t0 & th0 & H0 & Hc & Hu). pose proof (Hu t _ Ht eq_refl) as ->.
    rewrite Ht in H0. injection H0 as <-. by split_and!.
Qed.

(** The holder goes on with a larger clock and another object. *)
Lemma holder_goes_on s t th th' c ws :
  spin_inv s → users s !! t = Some (th, true) → last ws = Some (c_val c) →
  covers (length (users s)) c (clk th') →
  spin_inv (SpinRa (flag_ s) (<[t := (th', true)]> (users s)) c ws).
Proof.
  intros H Ht Hws Hc. destruct (holder s t th H Ht) as (m & Hm & Hv & _ & Hu).
  constructor; cbn [flag_ users object writes]; [done| | |by rewrite Hm].
  - intros m' Hm' Hv'. rewrite Hm in Hm'. injection Hm' as <-. rewrite Hv in Hv'. done.
  - intros m' Hm' _. rewrite Hm in Hm'. injection Hm' as <-. split; [done|].
    exists t, th'. rewrite list_lookup_insert_eq, length_insert by (by eapply lookup_lt_Some).
    split_and!; [done|done|]. intros t' u Hu'. destruct (decide (t' = t)) as [|Hne]; [done|].
    rewrite list_lookup_insert_ne in Hu' by done. by apply Hu.
Qed.

Lemma lock_inv s t th r : spin_inv s → users s !! t = Some (th, false) →
  spin_do t OpLock s = Some r → ∃ s', r = Ok (None, s') ∧ spin_inv s'.
Proof.
  intros H Ht. unfold spin_do. rewrite Ht. unfold ra_try_lock, flag_test_and_set, exchange.
  destruct (sp_some _ H) as [m Hm]. rewrite Hm. intros [= <-]. eexists. split; [done|].
  cbn [acquires releases]. set (k := tick t (join (clk th) (m_clock m))).
  assert (Hk : clock_le (m_clock m) k) by (etrans; [apply join_r|apply tick_le]).
  pose proof (lookup_lt_Some _ _ _ Ht) as Hlt.
  constructor; cbn [flag_ users object writes]; rewrite ?last_snoc, ?length_insert.
  - apply H.
  - intros m' [= <-] Hv. done.
  - intros m' [= <-] _. split; [done|]. destruct (decide (m_val m = spin_clear)) as [He|Hne].
    + destruct (sp_free _ H m Hm He) as [Hno Hc]. rewrite He. cbn [Z.eqb spin_clear spin_set negb].
      eexists t, _. rewrite list_lookup_insert_eq by done. split_and!; [done|by eapply covers_le|].
      intros t' u Hu. destruct (decide (t' = t)) as [|Hd]; [done|]. rewrite list_lookup_insert_ne in Hu by done.
      specialize (Hno t' u Hu). congruence.
    + destruct (sp_held _ H m Hm Hne) as (Hv & t0 & th0 & H0 & Hc & Hu). rewrite Hv. cbn.
      assert (t0 ≠ t) by (intros ->; congruence).
      exists t0, th0. rewrite list_lookup_insert_ne by done. split_and!; [done|done|].
      intros t' u Hu' Hu2. destruct (decide (t' = t)) as [->|Hd].
      * rewrite list_lookup_insert_eq in Hu' by done. by injection Hu' as <-.
      * rewrite list_lookup_insert_ne in Hu' by done. by apply (Hu t' u).
  - done.
Qed.

Lemma read_inv s t th r : spin_inv s → users s !! t = Some (th, true) →
  spin_do t OpRead s = Some r → ∃ v s', r = Ok (Some v, s') ∧ last (writes s) = Some v ∧ spin_inv s'.
Proof.
  intros H Ht. unfold spin_do. rewrite Ht. intros [= <-].
  destruct (holder s t th H Ht) as (m & Hm & Hv & [Hc1 Hc2] & _). rewrite na_read_ok by done.
  cbn [mbind res_bind mret res_ret]. eexists _, _. split; [done|]. split; [apply H|].
  apply (holder_goes_on s t th); [done|done|apply H|]. split; cbn [c_at c_by c_reads clk].
  - pose proof (tick_le t (clk th) (c_by (object s))). lia.
  - intros u Hu. destruct (Nat.eqb_spec u t) as [->|]; [done|].
    pose proof (tick_le t (clk th) u). specialize (Hc2 u Hu). lia.
Qed.

Lemma write_inv s t th v r : spin_inv s → users s !! t = Some (th, true) →
  spin_do t (OpWrite v) s = Some r → ∃ s', r = Ok (None, s') ∧ spin_inv s'.
Proof.
  intros H Ht. unfold spin_do. rewrite Ht. intros [= <-].
  destruct (holder s t th H Ht) as (m & Hm & Hv & [Hc1 Hc2] & _). rewrite na_write_ok by done.
  cbn [mbind res_bind mret res_ret]. eexists. split; [done|].
  apply (holder_goes_on s t th); [done|done|by rewrite last_snoc|]. split; cbn [c_at c_by c_reads clk]; [done|].
  intros u Hu. pose proof (tick_le t (clk th) u). specialize (Hc2 u Hu). lia.
Qed.

Lemma unlock_inv s t th r : spin_inv s → users s !! t = Some (th, true) →
  spin_do t OpUnlock s = Some r → ∃ s', r = Ok (None, s') ∧ spin_inv s'.
Proof.
  intros H Ht. unfold spin_do. rewrite Ht. unfold ra_unlock, store. intros [= <-]. eexists. split; [done|].
  destruct (holder s t th H Ht) as (m & Hm & Hv & Hc & Hu). pose proof (lookup_lt_Some _ _ _ Ht) as Hlt.
  constructor; cbn [flag_ users object writes]; rewrite ?last_snoc, ?length_insert.
  - apply H.
  - intros m' [= <-] _. cbn [m_clock releases]. split; [|by eapply covers_le, tick_le].
    intros t' u Hu'. destruct (decide (t' = t)) as [->|Hd].
    + rewrite list_lookup_insert_eq in Hu' by done. by injection Hu' as <-.
    + rewrite list_lookup_insert_ne in Hu' by done. destruct (u.2) eqn:E; [|done].
      by specialize (Hu t' u Hu' E).
  - intros m' [= <-] Hne. done.
  - done.
Qed.

(** Every step of every thread: no race, and a read gets what was written last. *)
Lemma spin_safe s t op r : spin_inv s → spin_do t op s = Some r →
  ∃ o s', r = Ok (o, s') ∧ spin_inv s' ∧ (op = OpRead → o = last (writes s)).
Proof.
  intros H Hd. destruct (users s !! t) as [[th holds]|] eqn:Ht; [|unfold spin_do in Hd; by rewrite Ht in Hd].
  destruct op as [| |v|], holds; try (unfold spin_do in Hd; rewrite Ht in Hd; done).
  - destruct (lock_inv s t th r H Ht Hd) as (s' & -> & ?). by exists None, s'.
  - destruct (read_inv s t th r H Ht Hd) as (v & s' & -> & Hl & ?). by exists (Some v), s'.
  - destruct (write_inv s t th v r H Ht Hd) as (s' & -> & ?). by exists None, s'.
  - destruct (unlock_inv s t th r H Ht Hd) as (s' & -> & ?). by exists None, s'.
Qed.

Lemma spin_start_inv n (v : A) : spin_inv (spin_start n v).
Proof.
  constructor; cbn; [done| |intros m [= <-]; done|by eexists].
  intros m [= <-] _. split; [|done]. intros t u [-> _]%lookup_replicate. done.
Qed.

End invariant.

(** ** Property *)

(** C33: under the C++ memory model, with acquire at [test_and_set] and release
    at [clear]: any number of threads use the lock in any order; no two of them
    hold it at once; no access to the object it protects is a data race, and a
    read gets what was written last by whichever thread. *)
Theorem spinlock_protects {A} n (v : A) s :
  reachable (eq (spin_start n v)) spin_ra_step s →
  (∀ t t' th th', users s !! t = Some (th, true) → users s !! t' = Some (th', true) → t = t') ∧
  ∀ t op r, spin_do t op s = Some r → ∃ o s', r = Ok (o, s') ∧ (op = OpRead → o = last (writes s)).
Proof.
  intros Hr. assert (H : spin_inv s).
  { revert Hr. apply reachable_invariant; [intros ? <-; apply spin_start_inv|].
    intros s1 s2 H1 H2. destruct H2 as [t op s1 r s2 Hd].
    destruct (spin_safe s1 t op _ H1 Hd) as (o & s' & [= <- <-] & Hi & _). done. }
  split.
  - intros t t' th th' Ht Ht'. destruct (holder s t th H Ht) as (m & _ & _ & _ & Hu). symmetry. by apply (Hu t' _ Ht').
  - intros t op r Hd. destruct (spin_safe s t op r H Hd) as (o & s' & -> & _ & Ho). by exists o, s'.
Qed.

(** ** Witness *)

(** One thread writes, the other reads it. *)
Lemma spinlock_protects_witness :
  ∃ s, writes s = [0; 7] ∧ (∃ th, users s !! 1 = Some (th, true)) ∧
    ∀ r, spin_do 1 OpRead s = Some r → ∃ o s', r = Ok (o, s') ∧ o = Some 7.
Proof.
  assert (H : ∃ s, reachable (eq (spin_start 2 0)) spin_ra_step s ∧ writes s = [0; 7] ∧
    ∃ th, users s !! 1 = Some (th, true)).
  { eexists. split; [|split; cycle 1].
    - exists (spin_start 2 0). split; [done|].
      eapply rtc_l; [by eapply (spin_one 0 OpLock)|]. eapply rtc_l; [by eapply (spin_one 0 (OpWrite 7))|].
      eapply rtc_l; [by eapply (spin_one 1 OpLock)|]. eapply rtc_l; [by eapply (spin_one 0 OpUnlock)|].
      eapply rtc_l; [by eapply (spin_one 1 OpLock)|]. apply rtc_refl.
    - eexists. reflexivity.
    - reflexivity. }
  destruct H as (s & Hr & Hw & Hu). exists s. split_and!; [done|done|]. intros r Hd.
  destruct (proj2 (spinlock_protects 2 0 s Hr) 1 OpRead r Hd) as (o & s' & -> & Ho).
  exists o, s'. split; [done|]. by rewrite Ho, Hw.
Defined.
