(* ===== verification/FixedBitSet.v ===== *)
(** * Fixed-size bit set (basic/fixed_bit_set.h)

    [FixedBitSet<N>]: [N] bits kept in [(N + 7) / 8] bytes. *)

From S2P Require Import Prelude.
Local Open Scope Z_scope.

(** ** Data and operations *)

Section bitset.
Context (N : Z).

Definition npos : Z := -1.

(** [cap_] *)
Definition cap_ : Z := (N + 7) / 8.

Record bitset := BitSet { bits_ : list Z }.

Definition bitset_create : bitset := BitSet (replicate (Z.to_nat cap_) 0).

Definition byte_at (s : bitset) (i : Z) : option Z := bits_ s !! Z.to_nat i.

(** [test(index)]: an index below [N] is always in an existing byte. *)
Definition test (s : bitset) (index : Z) : bool :=
  if N <=? index then false
  else
    let byte_index := index / 8 in
    let bit_index := index mod 8 in
    match byte_at s byte_index with
    | Some b => negb (Z.land (Z.shiftr b bit_index) 1 =? 0)
    | None => false
    end.

(** [test(begin, end)] *)
Definition test_range (s : bitset) (begin_ end_ : Z) : bool :=
  if (N <=? begin_) || (N <? end_) || (end_ <=? begin_) then false
  else forallb (test s) (seqZ begin_ (end_ - begin_)).

Definition update_byte (s : bitset) (i : Z) (f : Z → Z) : bitset :=
  BitSet (alter f (Z.to_nat i) (bits_ s)).

Definition set (s : bitset) (index : Z) : bitset :=
  if N <=? index then s
  else update_byte s (index / 8) (λ b, wrap 8 (Z.lor b (Z.shiftl 1 (index mod 8)))).

Definition clear (s : bitset) (index : Z) : bitset :=
  if N <=? index then s
  else update_byte s (index / 8) (λ b, wrap 8 (Z.land b (Z.lnot (Z.shiftl 1 (index mod 8))))).

(** A scan over positions that stops with [npos] at the end of the set;
    [None] is falling out of the loop. *)
Fixpoint scan (s : bitset) (ps : list Z) : option Z :=
  match ps with
  | [] => None
  | pos :: ps =>
      if N <=? pos then Some npos else if test s pos then Some pos else scan s ps
  end.

(** The loop over whole bytes, skipping zero bytes. *)
Fixpoint scan_bytes (s : bitset) (idxs : list Z) : option Z :=
  match idxs with
  | [] => None
  | idx :: idxs =>
      match byte_at s idx with
      | Some b =>
          if b =? 0 then scan_bytes s idxs
          else match scan s (seqZ (idx * 8) 8) with
               | Some r => Some r
               | None => scan_bytes s idxs
               end
      | None => scan_bytes s idxs
      end
  end.

Definition find_first_set (s : bitset) (offset : Z) : Z :=
  if N <=? offset then npos
  else
    let idx := offset / 8 in
    match scan s ((λ i, idx * 8 + i) <$> seqZ (offset mod 8) (8 - offset mod 8)) with
    | Some r => r
    | None =>
        match scan_bytes s (seqZ (offset / 8) (cap_ - offset / 8)) with
        | Some r => r
        | None => npos
        end
    end.

(** The first loop of [find_last_set]: [bit] is a [size_t], so [bit >= 0] always
    holds and [--bit] wraps around. *)
Definition last_body (s : bitset) (base : Z) (bit : Z) : res (Z + Z) :=
  let pos := wrap 64 (base + bit) in
  if test s pos then mret (inr pos) else mret (inl (wrap 64 (bit - 1))).

(** The second loop, over whole bytes downwards. *)
Fixpoint scan_down (s : bitset) (ps : list Z) : option Z :=
  match ps with
  | [] => None
  | pos :: ps => if test s pos then Some pos else scan_down s ps
  end.

Fixpoint scan_bytes_down (s : bitset) (idxs : list Z) : option Z :=
  match idxs with
  | [] => None
  | idx :: idxs =>
      match byte_at s idx with
      | Some b =>
          if b =? 0 then scan_bytes_down s idxs
          else match scan_down s (reverse (seqZ (idx * 8) 8)) with
               | Some r => Some r
               | None => scan_bytes_down s idxs
               end
      | None => scan_bytes_down s idxs
      end
  end.

Definition find_last_set (fuel : nat) (s : bitset) (offset : Z) : res Z :=
  if N <=? offset then mret npos
  else
    let idx := (N - offset) mod 8 in
    b ← deref OutOfBounds (byte_at s ((N - offset) / 8));
    if negb (b =? 0) then
      run_loop fuel (last_body s ((N - offset) / 8 * 8)) (wrap 64 (idx - 1))
    else
      match scan_bytes_down s (reverse (seqZ 0 ((N - offset) / 8 + 1))) with
      | Some r => mret r
      | None => mret npos
      end.

(** ** Specification *)

Record bitset_ok (s : bitset) : Prop := {
  bs_len : length (bits_ s) = Z.to_nat cap_;
  bs_byte : Forall (λ b, 0 ≤ b < 256) (bits_ s)
}.

(** The least set position of [[lo, hi)]. *)
Definition least_set (s : bitset) (lo hi : Z) : option Z :=
  List.find (test s) (seqZ lo (hi - lo)).

(** The greatest set position of [[0, hi)]. *)
Definition greatest_set (s : bitset) (hi : Z) : option Z :=
  List.find (test s) (reverse (seqZ 0 hi)).

(** ** Lemmas *)

Context (HN : 0 < N < 2 ^ 31).
Implicit Types s : bitset.

Lemma byte_in_range s i :
  bitset_ok s → 0 ≤ i < N → ∃ b, byte_at s (i / 8) = Some b ∧ 0 ≤ b < 256.
Proof using HN.
  intros [Hl Hb] Hi. unfold byte_at.
  destruct (lookup_lt_is_Some_2 (bits_ s) (Z.to_nat (i / 8))) as [b Hbi].
  { rewrite Hl. unfold cap_. lia. }
  exists b. split; [done|]. by eapply (Forall_lookup_1 _ _ _ _ Hb).
Qed.

Lemma low_bit z : negb (Z.land z 1 =? 0) = Z.testbit z 0.
Proof using.
  rewrite Z.bit0_odd. change 1 with (Z.ones 1). rewrite Z.land_ones by lia.
  change (2 ^ 1) with 2. rewrite Zmod_odd. by destruct (Z.odd z).
Qed.

(** [test] reads the bit [index mod 8] of its byte. *)
Lemma test_bit s i b :
  0 ≤ i < N → byte_at s (i / 8) = Some b → test s i = Z.testbit b (i mod 8).
Proof using.
  intros Hi Hb. unfold test. destruct (Z.leb_spec N i); [lia|]. rewrite Hb, low_bit.
  rewrite Z.shiftr_spec by lia. by rewrite Z.add_0_l.
Qed.

Lemma test_out s i : N ≤ i → test s i = false.
Proof using. intros. unfold test. by destruct (Z.leb_spec N i); [|lia]. Qed.

Lemma byte_at_update s i j f :
  0 ≤ i → 0 ≤ j →
  byte_at (update_byte s i f) j = if decide (i = j) then f <$> byte_at s j else byte_at s j.
Proof using.
  intros Hi Hj. unfold byte_at, update_byte. simpl. case_decide as Hd.
  - subst. by rewrite list_lookup_alter_eq.
  - rewrite list_lookup_alter_ne; [done | lia].
Qed.

Lemma update_byte_ok s i f :
  bitset_ok s → (∀ b, 0 ≤ b < 256 → 0 ≤ f b < 256) → bitset_ok (update_byte s i f).
Proof using.
  intros [Hl Hb] Hf. split; simpl.
  - by rewrite length_alter.
  - apply Forall_alter; [done|]. intros x Hx _. apply Hf.
    by eapply (Forall_lookup_1 _ _ _ _ Hb).
Qed.

Lemma wrap8_byte z : 0 ≤ wrap 8 z < 256.
Proof using. apply (wrap_bound 8). lia. Qed.

Lemma testbit_wrap8 z n : 0 ≤ n < 8 → Z.testbit (wrap 8 z) n = Z.testbit z n.
Proof using. intros. unfold wrap. by rewrite Z.mod_pow2_bits_low by lia. Qed.

(** An update of one byte that changes the bit [i mod 8] to [v] changes the bit
    [i] of the set to [v] and no other. *)
Lemma test_update s i j f v :
  bitset_ok s → 0 ≤ i < N → 0 ≤ j < N →
  (∀ b n, 0 ≤ b < 256 → 0 ≤ n < 8 →
     Z.testbit (f b) n = if n =? i mod 8 then v else Z.testbit b n) →
  test (update_byte s (i / 8) f) j = if decide (i = j) then v else test s j.
Proof using HN.
  intros H Hi Hj Hf. destruct (byte_in_range s j H Hj) as (b & Hb & Hbr).
  rewrite (test_bit s j b Hj Hb).
  assert (Hbu : byte_at (update_byte s (i / 8) f) (j / 8)
                = Some (if decide (i / 8 = j / 8) then f b else b)).
  { rewrite byte_at_update by lia. rewrite Hb. by case_decide. }
  rewrite (test_bit _ j _ Hj Hbu). destruct (decide (i / 8 = j / 8)).
  - rewrite Hf by lia. destruct (Z.eqb_spec (j mod 8) (i mod 8)).
    + rewrite decide_True; [done | lia].
    + rewrite decide_False; [done | lia].
  - rewrite decide_False; [done|]. congruence.
Qed.

Lemma set_bits b m n :
  0 ≤ n < 8 → 0 ≤ m < 8 →
  Z.testbit (wrap 8 (Z.lor b (Z.shiftl 1 m))) n = if n =? m then true else Z.testbit b n.
Proof using.
  intros Hn Hm. rewrite testbit_wrap8, Z.lor_spec, Z.shiftl_1_l by lia.
  rewrite Z.pow2_bits_eqb by lia. destruct (Z.eqb_spec n m) as [->|].
  - by rewrite Z.eqb_refl, orb_true_r.
  - destruct (Z.eqb_spec m n); [lia|]. by rewrite orb_false_r.
Qed.

Lemma clear_bits b m n :
  0 ≤ n < 8 → 0 ≤ m < 8 →
  Z.testbit (wrap 8 (Z.land b (Z.lnot (Z.shiftl 1 m)))) n
  = if n =? m then false else Z.testbit b n.
Proof using.
  intros Hn Hm. rewrite testbit_wrap8, Z.land_spec, Z.lnot_spec, Z.shiftl_1_l by lia.
  rewrite Z.pow2_bits_eqb by lia. destruct (Z.eqb_spec n m) as [->|].
  - by rewrite Z.eqb_refl, andb_false_r.
  - destruct (Z.eqb_spec m n); [lia|]. by rewrite andb_true_r.
Qed.

(** Scanning a list of positions below [N] is a list search. *)
Lemma scan_find s ps :
  Forall (λ p, p < N) ps → scan s ps = List.find (test s) ps.
Proof using.
  induction 1 as [|p ps Hp _ IH]; simpl; [done|].
  destruct (Z.leb_spec N p); [lia|]. by rewrite IH.
Qed.

(** Scanning positions that reach [N] ends there. *)
Lemma scan_past s ps qs :
  Forall (λ p, p < N) ps → Forall (λ p, N ≤ p) qs → qs ≠ [] →
  scan s (ps ++ qs) = Some (default npos (List.find (test s) ps)).
Proof using.
  intros Hps Hqs Hne. induction Hps as [|p ps Hp _ IH]; simpl.
  - destruct Hqs as [|q qs Hq _]; [done|]. simpl. by destruct (Z.leb_spec N q); [|lia].
  - destruct (Z.leb_spec N p); [lia|]. by destruct (test s p).
Qed.

Lemma seqZ_split lo mid hi :
  lo ≤ mid ≤ hi → seqZ lo (hi - lo) = seqZ lo (mid - lo) ++ seqZ mid (hi - mid).
Proof using.
  intros. replace (hi - lo) with ((mid - lo) + (hi - mid)) by lia.
  rewrite seqZ_app by lia. do 2 f_equal. lia.
Qed.

Lemma seqZ_Forall lo hi (Q : Z → Prop) :
  (∀ i, lo ≤ i < hi → Q i) → Forall Q (seqZ lo (hi - lo)).
Proof using. intros H. apply Forall_forall. intros i Hi%elem_of_seqZ. apply H. lia. Qed.

Lemma find_app_default s ps qs :
  List.find (test s) (ps ++ qs)
  = match List.find (test s) ps with Some p => Some p | None => List.find (test s) qs end.
Proof using. induction ps as [|p ps IH]; simpl; [done|]. by destruct (test s p). Qed.

(** A scan of [[lo, hi)]: a search of the part below [N], stopping with [npos]
    when the range sticks out of the set. *)
Lemma scan_range s lo hi :
  lo < hi → lo ≤ N →
  scan s (seqZ lo (hi - lo))
  = if decide (hi ≤ N) then least_set s lo hi
    else Some (default npos (least_set s lo (Z.max lo N))).
Proof using.
  intros Hle HloN. case_decide as Hd.
  - apply scan_find, seqZ_Forall. lia.
  - rewrite (seqZ_split lo (Z.max lo N) hi) by lia. unfold least_set.
    apply scan_past; [apply seqZ_Forall; lia | apply seqZ_Forall; lia |].
    intros He%(f_equal length). rewrite length_seqZ in He. simpl in He. lia.
Qed.

Lemma least_set_split s lo mid hi :
  lo ≤ mid ≤ hi →
  least_set s lo hi
  = match least_set s lo mid with Some p => Some p | None => least_set s mid hi end.
Proof using. intros. unfold least_set. by rewrite (seqZ_split lo mid hi), find_app_default. Qed.

(** A zero byte has no set bit. *)
Lemma zero_byte s i :
  bitset_ok s → 0 ≤ i < cap_ → byte_at s i = Some 0 →
  ∀ p, i * 8 ≤ p < i * 8 + 8 → test s p = false.
Proof using.
  intros H Hi Hb p Hp. destruct (Z.ltb_spec p N); [|by apply test_out].
  rewrite (test_bit s p 0); [apply Z.testbit_0_l | lia |].
  by replace (p / 8) with i by lia.
Qed.

Lemma find_none s ps : Forall (λ p, test s p = false) ps → List.find (test s) ps = None.
Proof using. induction 1 as [|p ps Hp _ IH]; simpl; [done|]. by rewrite Hp. Qed.

Lemma scan_bytes_least s i n :
  bitset_ok s → 0 ≤ i → i + Z.of_nat n = cap_ →
  default npos (scan_bytes s (seqZ i (Z.of_nat n))) = default npos (least_set s (i * 8) (Z.max (i * 8) N)).
Proof using HN.
  intros H. revert i. induction n as [|n IH]; intros i Hi Hc.
  { simpl. unfold least_set. rewrite Z.max_l by (unfold cap_ in Hc; lia). by rewrite Z.sub_diag. }
  rewrite seqZ_cons by lia. cbn [scan_bytes].
  replace (Z.pred (Z.of_nat (S n))) with (Z.of_nat n) by lia.
  assert (Hit : i * 8 < N) by (unfold cap_ in Hc; lia).
  destruct (byte_in_range s (i * 8) H ltac:(lia)) as (b & Hb & Hbr).
  replace (i * 8 / 8) with i in Hb by lia. rewrite Hb.
  specialize (IH (Z.succ i) ltac:(lia) ltac:(lia)).
  replace (Z.succ i * 8) with (i * 8 + 8) in IH by lia.
  assert (Hnext : least_set s (i * 8) (i * 8 + 8) = None → i * 8 + 8 ≤ N →
    default npos (scan_bytes s (seqZ (Z.succ i) (Z.of_nat n)))
    = default npos (least_set s (i * 8) (Z.max (i * 8) N))).
  { intros Hn Hle. rewrite IH, (least_set_split s (i * 8) (i * 8 + 8)), Hn by lia.
    by rewrite Z.max_r, Z.max_r by lia. }
  destruct (Z.eqb_spec b 0) as [->|Hb0].
  - assert (Hzero : ∀ hi, hi ≤ i * 8 + 8 → least_set s (i * 8) hi = None).
    { intros hi Hhi. apply find_none, Forall_forall. intros p Hp%elem_of_seqZ.
      apply (zero_byte s i); [done | unfold cap_; lia | done | lia]. }
    destruct (decide (i * 8 + 8 ≤ N)) as [Hle|Hgt]; [apply Hnext; [by apply Hzero | done]|].
    rewrite IH, (Z.max_l _ N), (Z.max_r (i * 8)), (Hzero N) by lia.
    unfold least_set. by rewrite Z.sub_diag.
  - replace 8 with ((i * 8 + 8) - i * 8) at 2 by lia. rewrite scan_range by lia. case_decide as Hle.
    + destruct (least_set s (i * 8) (i * 8 + 8)) as [p|] eqn:Hp; [|by apply Hnext].
      rewrite (least_set_split s (i * 8) (i * 8 + 8)), Hp by lia. done.
    + done.
Qed.

Lemma seqZ_rev n : 0 ≤ n → reverse (seqZ 0 (n + 1)) = n :: reverse (seqZ 0 n).
Proof using.
  intros. replace (n + 1) with ((n + 1) - 0) by lia. rewrite (seqZ_split 0 n) by lia.
  replace (n + 1 - n) with 1 by lia. rewrite reverse_app, Z.sub_0_r. done.
Qed.

Lemma greatest_set_succ s n :
  0 ≤ n → greatest_set s (n + 1) = if test s n then Some n else greatest_set s n.
Proof using. intros. unfold greatest_set. rewrite seqZ_rev by done. done. Qed.

Lemma greatest_set_gap s lo n :
  0 ≤ lo → (∀ p, lo ≤ p < lo + Z.of_nat n → test s p = false) →
  greatest_set s (lo + Z.of_nat n) = greatest_set s lo.
Proof using.
  intros Hlo. induction n as [|n IH]; intros Hg; [by rewrite Z.add_0_r|].
  replace (lo + Z.of_nat (S n)) with (lo + Z.of_nat n + 1) by lia.
  rewrite greatest_set_succ, Hg by lia. apply IH. intros. apply Hg. lia.
Qed.

Lemma greatest_set_spec s hi p :
  greatest_set s hi = Some p →
  0 ≤ p < hi ∧ test s p = true ∧ ∀ q, p < q < hi → test s q = false.
Proof using.
  intros H. assert (Hhi : 0 ≤ hi).
  { destruct (Z.le_gt_cases 0 hi); [done|]. exfalso. revert H. unfold greatest_set.
    rewrite seqZ_nil by lia. done. }
  destruct (Z_of_nat_complete hi Hhi) as [n ->]. clear Hhi.
  revert H. induction n as [|n IH]; [done|].
  replace (Z.of_nat (S n)) with (Z.of_nat n + 1) by lia.
  rewrite greatest_set_succ by lia. destruct (test s (Z.of_nat n)) eqn:Ht.
  - intros [= <-]. split; [lia|]. split; [done|]. intros q Hq. lia.
  - intros H. destruct (IH H) as (Hr & Hp & Hq). split; [lia|]. split; [done|].
    intros q Hb. destruct (Z.eq_dec q (Z.of_nat n)) as [->|]; [done|]. apply Hq. lia.
Qed.

Lemma scan_down_find s ps : scan_down s ps = List.find (test s) ps.
Proof using. induction ps as [|p ps IH]; simpl; [done|]. by rewrite IH. Qed.

(** One byte of the downward scan. *)
Lemma greatest_set_byte s i :
  0 ≤ i →
  greatest_set s (i * 8 + 8)
  = match List.find (test s) (reverse (seqZ (i * 8) 8)) with
    | Some p => Some p | None => greatest_set s (i * 8) end.
Proof using.
  intros. unfold greatest_set. replace (i * 8 + 8) with (i * 8 + 8 - 0) by lia.
  rewrite (seqZ_split 0 (i * 8)) by lia. rewrite reverse_app, find_app_default.
  by replace (i * 8 + 8 - i * 8) with 8 by lia; rewrite Z.sub_0_r.
Qed.

Lemma scan_bytes_down_greatest s n :
  bitset_ok s → Z.of_nat n ≤ cap_ →
  scan_bytes_down s (reverse (seqZ 0 (Z.of_nat n))) = greatest_set s (Z.of_nat n * 8).
Proof using HN.
  intros H. induction n as [|n IH]; intros Hn; [done|].
  replace (Z.of_nat (S n)) with (Z.of_nat n + 1) by lia. rewrite seqZ_rev by lia.
  specialize (IH ltac:(lia)). cbn [scan_bytes_down].
  replace ((Z.of_nat n + 1) * 8) with (Z.of_nat n * 8 + 8) by lia.
  destruct (byte_in_range s (Z.of_nat n * 8) H) as (b & Hb & Hbr); [unfold cap_ in Hn; lia|].
  replace (Z.of_nat n * 8 / 8) with (Z.of_nat n) in Hb by lia. rewrite Hb.
  destruct (Z.eqb_spec b 0) as [->|Hb0].
  - rewrite IH. symmetry. apply (greatest_set_gap s (Z.of_nat n * 8) 8); [lia|].
    intros p Hp. apply (zero_byte s (Z.of_nat n)); [done | lia | done | lia].
  - rewrite greatest_set_byte, scan_down_find, IH by lia. done.
Qed.

(** The first loop of [find_last_set] walks down to the greatest set position. *)
Lemma last_loop s base hi p fuel :
  0 ≤ hi ≤ N → greatest_set s hi = Some p → (Z.to_nat N < fuel)%nat →
  run_loop fuel (last_body s base) (wrap 64 (hi - 1 - base)) = Ok p.
Proof using HN.
  intros Hhi Hg Hf. destruct (greatest_set_spec s hi p Hg) as (Hp & Ht & Habove).
  edestruct (run_loop_total (last_body s base)
    (λ bit, p ≤ wrap 64 (base + bit) < hi) (λ r, r = p) (λ bit, Z.to_nat (wrap 64 (base + bit))))
    as (r & Hr & ->); [| | |exact Hr].
  - intros bit Hb. unfold last_body. set (pos := wrap 64 (base + bit)) in *.
    destruct (test s pos) eqn:Hpos.
    + eexists; split; [done|]. simpl. destruct (Z.eq_dec pos p); [done|].
      rewrite Habove in Hpos by lia. done.
    + eexists; split; [done|]. simpl. assert (pos ≠ p) by congruence.
      replace (wrap 64 (base + wrap 64 (bit - 1))) with (pos - 1); [split; lia|].
      rewrite wrap_add_r by lia. replace (base + (bit - 1)) with (base + bit - 1) by lia.
      rewrite <- wrap_sub_l by lia. fold pos. symmetry. apply wrap_small; lia.
  - rewrite wrap_add_r by lia. replace (base + (hi - 1 - base)) with (hi - 1) by lia.
    rewrite wrap_small; lia.
  - rewrite wrap_add_r by lia. replace (base + (hi - 1 - base)) with (hi - 1) by lia.
    rewrite wrap_small; lia.
Qed.

Lemma update_fn_ok f :
  (∀ z, f z = wrap 8 (f z)) → ∀ b, 0 ≤ b < 256 → 0 ≤ f b < 256.
Proof using. intros Hf b _. rewrite Hf. apply wrap8_byte. Qed.

Lemma test_range_spec s b e :
  test_range s b e = true ↔ b < N ∧ e ≤ N ∧ b < e ∧ ∀ i, b ≤ i < e → test s i = true.
Proof using.
  unfold test_range.
  destruct (Z.leb_spec N b); simpl; [split; [done|lia]|].
  destruct (Z.ltb_spec N e); simpl; [split; [done|lia]|].
  destruct (Z.leb_spec e b); simpl; [split; [done|lia]|].
  rewrite forallb_forall. split.
  - intros Hi. split_and!; [lia..|]. intros i Hb. apply Hi, list_elem_of_In, elem_of_seqZ. lia.
  - intros (_ & _ & _ & Hi) i Hin%list_elem_of_In%elem_of_seqZ. apply Hi. lia.
Qed.

Lemma least_set_range s lo hi p : least_set s lo hi = Some p → lo ≤ p < hi.
Proof using. intros [Hp _]%List.find_some. apply list_elem_of_In, elem_of_seqZ in Hp. lia. Qed.

(** The two searches of [find_first_set]. *)
Lemma find_first_cases s offset :
  bitset_ok s → 0 ≤ offset →
  let start := offset / 8 * 8 in
  ((start + 8 ≤ N → least_set s offset (start + 8) ≠ None) →
   find_first_set s offset = default npos (least_set s offset N)) ∧
  (start + 8 ≤ N → least_set s offset (start + 8) = None →
   find_first_set s offset = default npos (least_set s start N)).
Proof using HN.
  intros H Hoff start. unfold find_first_set. destruct (Z.leb_spec N offset) as [Hout|Hin].
  { split; [|unfold start; lia]. intros _. unfold least_set. by rewrite seqZ_nil by lia. }
  replace ((λ i, offset / 8 * 8 + i) <$> seqZ (offset mod 8) (8 - offset mod 8))
    with (seqZ offset (start + 8 - offset)).
  2: { transitivity (Z.add (offset / 8 * 8) <$> seqZ (offset mod 8) (8 - offset mod 8)); [|done].
       rewrite fmap_add_seqZ. unfold start. f_equal; lia. }
  rewrite scan_range by lia. rewrite (Z.max_r offset N) by lia. case_decide as Hd; [|by split].
  split.
  - intros Hn. specialize (Hn Hd). rewrite (least_set_split s offset (start + 8) N) by lia.
    by destruct (least_set s offset (start + 8)).
  - intros _ ->. pose proof (scan_bytes_least s (offset / 8) (Z.to_nat (cap_ - offset / 8)) H) as Hs.
    rewrite Z2Nat.id in Hs by (unfold cap_; lia). specialize (Hs ltac:(lia) ltac:(lia)).
    unfold start. rewrite Z.max_r in Hs by lia. rewrite <- Hs. by destruct (scan_bytes s _).
Qed.

(** ** Properties *)

(** [set] and [clear] keep the representation, change the addressed bit and
    no other, and ignore an index outside the set; the range test is the
    conjunction of the single tests. *)
Theorem bitset_update_laws s i j :
  bitset_ok s → 0 ≤ i → 0 ≤ j →
  (bitset_ok (set s i) ∧ test (set s i) j = if decide (i = j ∧ i < N) then true else test s j) ∧
  (bitset_ok (clear s i) ∧ test (clear s i) j = if decide (i = j ∧ i < N) then false else test s j) ∧
  ∀ e, test_range s i e = true ↔ i < N ∧ e ≤ N ∧ i < e ∧ ∀ p, i ≤ p < e → test s p = true.
Proof using HN.
  intros H Hi Hj. split; [|split; [|intros e; apply test_range_spec]].
  - unfold set. destruct (Z.leb_spec N i); [split; [done|]; by rewrite decide_False by lia|].
    split; [apply update_byte_ok; [done|]; intros; apply wrap8_byte|].
    destruct (Z.leb_spec N j); [rewrite !test_out by done; by rewrite decide_False by lia|].
    rewrite (test_update s i j _ true H); [|lia..|intros; by apply set_bits; lia].
    do 2 case_decide; try done; lia.
  - unfold clear. destruct (Z.leb_spec N i); [split; [done|]; by rewrite decide_False by lia|].
    split; [apply update_byte_ok; [done|]; intros; apply wrap8_byte|].
    destruct (Z.leb_spec N j); [rewrite !test_out by done; by rewrite decide_False by lia|].
    rewrite (test_update s i j _ false H); [|lia..|intros; by apply clear_bits; lia].
    do 2 case_decide; try done; lia.
Qed.

(** C24: [find_first_set(offset)], for every offset: the least set index that is
    not below the offset, or [npos] when there is none, unless the offset's own
    byte lies wholly in the set and has no set bit from the offset on; then the
    search starts again at bit 0 of that byte.  So the answer is the least set index from the offset on
    exactly when that second search has nothing to find below the offset. *)
Theorem find_first_set_spec s offset :
  bitset_ok s → 0 ≤ offset →
  let start := offset / 8 * 8 in
  let again := start + 8 ≤ N ∧ least_set s offset (start + 8) = None in
  find_first_set s offset = default npos (least_set s (if decide again then start else offset) N) ∧
  (find_first_set s offset = default npos (least_set s offset N) ↔
   ¬ (again ∧ is_Some (least_set s start offset))).
Proof using HN.
  intros H Hoff start again. destruct (find_first_cases s offset H Hoff) as [Hrest Hagain].
  fold start in Hrest, Hagain. split; [|split].
  - case_decide as Hd; [destruct Hd as [E1 E2]; by apply Hagain|]. apply Hrest. intros E1 E2. apply Hd. by split.
  - intros Heq [[Hle Hn] [p Hp]]. rewrite Hagain, (least_set_split s start offset N), Hp in Heq by (done || lia).
    cbn in Heq. apply least_set_range in Hp. destruct (least_set s offset N) as [q|] eqn:Hq.
    + apply least_set_range in Hq. cbn in Heq. lia.
    + cbn in Heq. unfold npos in Heq. lia.
  - intros Hno. destruct (decide again) as [[Hle Hn]|Hd]; [|apply Hrest; intros E1 E2; apply Hd; by split].
    destruct (least_set s start offset) eqn:Hp; [destruct Hno; split; [done|by eexists]|].
    by rewrite Hagain, (least_set_split s start offset N), Hp by (done || lia).
Qed.

(** [find_last_set(offset)] returns, after at most [N] rounds of its first
    loop, the greatest set index below [N - offset] when there is one and the
    byte it starts from exists; with offset 0 on a set of whole bytes it reads
    one byte past the array. *)
Theorem find_last_set_spec s offset fuel :
  bitset_ok s → 0 ≤ offset < N →
  (∀ p, (offset ≠ 0 ∨ N mod 8 ≠ 0) → greatest_set s (N - offset) = Some p →
     (Z.to_nat N < fuel)%nat → find_last_set fuel s offset = Ok p) ∧
  (offset = 0 → N mod 8 = 0 → find_last_set fuel s offset = Fault OutOfBounds).
Proof using HN.
  intros H Hoff. unfold find_last_set. destruct (Z.leb_spec N offset); [lia|]. split.
  - intros p Hin Hg Hf.
    destruct (byte_in_range s ((N - offset) / 8 * 8) H) as (b & Hb & Hbr); [lia|].
    replace ((N - offset) / 8 * 8 / 8) with ((N - offset) / 8) in Hb by lia. rewrite Hb. simpl.
    destruct (Z.eqb_spec b 0) as [->|Hb0]; simpl.
    + pose proof (scan_bytes_down_greatest s (Z.to_nat ((N - offset) / 8 + 1)) H) as Hs.
      rewrite Z2Nat.id in Hs by lia. rewrite Hs by (unfold cap_; lia).
      set (i := (N - offset) / 8) in *.
      pose proof (greatest_set_gap s (i * 8) (Z.to_nat (N - offset - i * 8))) as Hgap.
      rewrite Z2Nat.id in Hgap by lia. replace (i * 8 + (N - offset - i * 8)) with (N - offset) in Hgap by lia.
      assert (Hz : ∀ q, i * 8 ≤ q < i * 8 + 8 → test s q = false).
      { intros q Hq. apply (zero_byte s i); [done | unfold cap_; lia | done | done]. }
      rewrite Hgap in Hg by first [lia | intros; apply Hz; lia].
      replace ((i + 1) * 8) with (i * 8 + Z.of_nat 8) by lia.
      rewrite greatest_set_gap, Hg; [done | lia | intros; apply Hz; lia].
    + replace ((N - offset) mod 8 - 1) with (N - offset - 1 - (N - offset) / 8 * 8) by lia.
      apply last_loop; [lia | done | done].
  - intros -> Hmod. rewrite Z.sub_0_r. unfold byte_at.
    rewrite lookup_ge_None_2; [done|]. rewrite (bs_len s H). unfold cap_. lia.
Qed.

End bitset.

(** ** Witnesses *)

Definition demo_set : bitset := set 20 (set 20 (bitset_create 20) 3) 17.

Lemma demo_set_ok : bitset_ok 20 demo_set.
Proof. split; [done|]. repeat constructor; done. Qed.

Lemma bitset_update_laws_witness :
  test 20 (set 20 demo_set 9) 9 = true ∧ test 20 (clear 20 demo_set 17) 17 = false.
Proof.
  pose proof (bitset_update_laws 20 ltac:(lia) demo_set 9 9 demo_set_ok ltac:(lia) ltac:(lia)) as H.
  pose proof (bitset_update_laws 20 ltac:(lia) demo_set 17 17 demo_set_ok ltac:(lia) ltac:(lia)) as H'.
  split; [exact (proj2 (proj1 H)) | exact (proj2 (proj1 (proj2 H')))].
Defined.

(** Bits 3 and 17 of 20, and bit 5 too: offset 4 gives 3 in the first set and 5
    in the second. *)
Lemma find_first_set_spec_witness :
  find_first_set 20 demo_set 8 = 17 ∧ find_first_set 20 demo_set 4 = 3 ∧
  find_first_set 20 demo_set 4 ≠ default npos (least_set 20 demo_set 4 20) ∧
  find_first_set 20 (set 20 demo_set 5) 4 = default npos (least_set 20 (set 20 demo_set 5) 4 20).
Proof.
  split_and!.
  - rewrite (proj1 (find_first_set_spec 20 ltac:(lia) demo_set 8 demo_set_ok ltac:(lia))). vm_compute. reflexivity.
  - rewrite (proj1 (find_first_set_spec 20 ltac:(lia) demo_set 4 demo_set_ok ltac:(lia))). vm_compute. reflexivity.
  - intros E. apply (proj2 (find_first_set_spec 20 ltac:(lia) demo_set 4 demo_set_ok ltac:(lia))) in E.
    apply E. vm_compute. split; [by split|by eexists].
  - apply (proj2 (find_first_set_spec 20 ltac:(lia) (set 20 demo_set 5) 4
      ltac:(split; [done|repeat constructor; done]) ltac:(lia))).
    intros [[_ E] _]. vm_compute in E. discriminate.
Defined.

Lemma find_last_set_spec_witness :
  find_last_set 20 21 demo_set 0 = Ok 17 ∧ find_last_set 20 21 demo_set 4 = Ok 3.
Proof.
  split.
  - apply (proj1 (find_last_set_spec 20 ltac:(lia) demo_set 0 21 demo_set_ok ltac:(lia)));
      [right; vm_compute; done | vm_compute; reflexivity | vm_compute; lia].
  - apply (proj1 (find_last_set_spec 20 ltac:(lia) demo_set 4 21 demo_set_ok ltac:(lia)));
      [left; lia | vm_compute; reflexivity | vm_compute; lia].
Defined.
