(* ===== verification/BHeap.v ===== *)
(** * Binary heap of heap-allocated contexts (basic/bheap.h)

    [bheap<T, C>] keeps a vector of pointers to [bheap_context]s, each of which
    records its own position so that a caller can erase it.  The contexts live
    in a store; the comparator is a parameter. *)

From S2P Require Import Prelude.

(** ** Data and operations *)

Record bheap_context (T : Type) := BCtx { idx : nat; val : T }.
Arguments BCtx {T} idx val.
Arguments idx {T} b.
Arguments val {T} b.

Record bheap (T : Type) := BHeap {
  heap_ : list positive;
  store : gmap positive (bheap_context T)
}.
Arguments BHeap {T} heap_ store.
Arguments heap_ {T} b.
Arguments store {T} b.

Section operations.
Context {T : Type} (comp_ : T → T → bool).
Implicit Types h : bheap T.

Definition bheap_empty : bheap T := BHeap [] ∅.

Definition size h : nat := length (heap_ h).

Definition empty h : bool := size h =? 0.

(** [heap_[i]->val] *)
Definition val_at (i : nat) h : res T :=
  p ← deref OutOfBounds (heap_ h !! i);
  c ← deref UseAfterFree (store h !! p);
  mret (val c).

(** [std::swap(heap_[i], heap_[j]); std::swap(heap_[i]->idx, heap_[j]->idx);] *)
Definition swap_ctx (i j : nat) h : res (bheap T) :=
  p ← deref OutOfBounds (heap_ h !! i);
  q ← deref OutOfBounds (heap_ h !! j);
  a ← deref UseAfterFree (store h !! q);
  b ← deref UseAfterFree (store h !! p);
  mret (BHeap (list_swap i j (heap_ h))
    (<[p := BCtx (idx a) (val b)]> (<[q := BCtx (idx b) (val a)]> (store h)))).

(** The loop of [sift_up]; the parent of position 0 is computed but not used. *)
Definition sift_up_body (s : nat * bheap T) : res (nat * bheap T + bheap T) :=
  let '(idx, h) := s in
  let parent := (idx - 1) / 2 in
  if idx =? 0 then mret (inr h)
  else
    vp ← val_at parent h;
    vi ← val_at idx h;
    if comp_ vp vi then
      h ← swap_ctx parent idx h;
      mret (inl (parent, h))
    else mret (inr h).

Definition sift_up (i : nat) h : res (bheap T) :=
  run_loop (S i) sift_up_body (i, h).

(** One test of [sift_down]: the child when it is in range and greater. *)
Definition greater_child (size largest child : nat) h : res nat :=
  if child <? size then
    vl ← val_at largest h;
    vc ← val_at child h;
    mret (if comp_ vl vc then child else largest)
  else mret largest.

(** One round of [sift_down]'s loop, which itself calls [sift_down]. *)
Definition sift_down_body (sift_down : nat → bheap T → res (bheap T)) (size : nat)
    (s : nat * bheap T) : res (nat * bheap T + bheap T) :=
  let '(idx, h) := s in
  let left := 2 * idx + 1 in
  let right := 2 * idx + 2 in
  largest ← greater_child size idx left h;
  largest ← greater_child size largest right h;
  if largest =? idx then mret (inr h)
  else
    h ← swap_ctx largest idx h;
    h ← sift_down largest h;
    mret (inl (largest, h)).

Fixpoint sift_down_fuel (fuel : nat) (i : nat) h : res (bheap T) :=
  match fuel with
  | O => NoFuel
  | S fuel' => run_loop fuel (sift_down_body (sift_down_fuel fuel') (size h)) (i, h)
  end.

(** Recursion and loop both move to a child, so the size bounds their depth. *)
Definition sift_down (i : nat) h : res (bheap T) := sift_down_fuel (S (size h)) i h.

(** [insert]: the context that is returned to the caller is the new pointer. *)
Definition insert (t : T) h : res (positive * bheap T) :=
  let context := fresh (dom (store h)) in
  let h := BHeap (heap_ h ++ [context]) (<[context := BCtx (size h) t]> (store h)) in
  h ← sift_up (size h - 1) h;
  mret (context, h).

Definition erase (i : nat) h : res (bheap T) :=
  if size h <=? i then Throw RuntimeError
  else
    h ← swap_ctx i (size h - 1) h;
    p ← deref OutOfBounds (heap_ h !! (size h - 1));
    let h := BHeap (take (size h - 1) (heap_ h)) (delete p (store h)) in
    if i <? size h then
      vi ← val_at i h;
      vl ← val_at (size h - 1) h;
      if comp_ vi vl then sift_up i h else sift_down i h
    else mret h.

Definition top h : res T :=
  if empty h then Throw RuntimeError else val_at 0 h.

Definition pop h : res (T * bheap T) :=
  if empty h then Throw RuntimeError
  else
    t ← val_at 0 h;
    h ← erase 0 h;
    mret (t, h).

(** [~bheap()] *)
Definition bheap_destroy_body h : res (bheap T + bheap T) :=
  if empty h then mret (inr h) else '(_, h) ← pop h; mret (inl h).

Definition bheap_destroy h : res (bheap T) := run_loop (S (size h)) bheap_destroy_body h.

(** ** Specification *)

(** Every pointer is live, distinct, and records its own position; nothing else
    is allocated. *)
Record heap_wf h : Prop := {
  wf_nodup : NoDup (heap_ h);
  wf_idx : ∀ i p, heap_ h !! i = Some p → ∃ v, store h !! p = Some (BCtx i v);
  wf_dom : ∀ p, is_Some (store h !! p) → p ∈ heap_ h
}.

(** The values in heap order. *)
Definition vals h : list T := omap (λ p, val <$> store h !! p) (heap_ h).

(** No element is greater than its parent, except perhaps where [ex] holds. *)
Definition ordered_except (ex : nat → Prop) (l : list T) : Prop :=
  ∀ i x y, 0 < i → ¬ ex i → l !! ((i - 1) / 2) = Some x → l !! i = Some y → comp_ x y = false.

Definition heap_order (l : list T) : Prop := ordered_except (λ _, False) l.

(** [comp_] is a strict weak order. *)
Record comp_laws : Prop := {
  comp_asym : ∀ x y, comp_ x y = true → comp_ y x = false;
  comp_negtrans : ∀ x y z, comp_ x y = false → comp_ y z = false → comp_ x z = false
}.

End operations.

(** ** Lemmas *)

Section store_lemmas.
Context {T : Type}.
Implicit Types h : bheap T.

(** *** The store *)

Lemma val_some h p : heap_wf h → p ∈ heap_ h → is_Some (val <$> store h !! p).
Proof using.
  intros H [i Hi]%list_elem_of_lookup. destruct (wf_idx h H i p Hi) as [v ->]. by eexists.
Qed.

Lemma vals_lookup h i : heap_wf h → vals h !! i = heap_ h !! i ≫= λ p, val <$> store h !! p.
Proof using. intros H. apply omap_lookup_total. intros p. by apply val_some. Qed.

Lemma vals_lookup_wf h i p :
  heap_wf h → heap_ h !! i = Some p → ∃ v, store h !! p = Some (BCtx i v) ∧ vals h !! i = Some v.
Proof using.
  intros H Hp. destruct (wf_idx h H i p Hp) as [v Hv]. exists v. split; [done|].
  rewrite vals_lookup, Hp by done. simpl. by rewrite Hv.
Qed.

Lemma length_vals h : heap_wf h → length (vals h) = size h.
Proof using.
  intros H. apply Nat.le_antisymm.
  - apply Nat.nlt_ge. intros Hlt. destruct (lookup_lt_is_Some_2 _ _ Hlt) as [v Hv].
    rewrite vals_lookup, lookup_ge_None_2 in Hv by done. done.
  - apply Nat.nlt_ge. intros Hlt. destruct (lookup_lt_is_Some_2 _ _ Hlt) as [p Hp].
    destruct (vals_lookup_wf h _ p H Hp) as (v & _ & Hv).
    apply lookup_lt_Some in Hv. lia.
Qed.

Lemma val_at_vals h i : heap_wf h → val_at i h = deref OutOfBounds (vals h !! i).
Proof using.
  intros H. unfold val_at. rewrite vals_lookup by done.
  destruct (heap_ h !! i) as [p|] eqn:Hp; [|done]. simpl.
  by destruct (wf_idx h H i p Hp) as [v ->].
Qed.

(** No context changes its value, none appears or disappears. *)
Definition same_contexts h h' : Prop := ∀ p, val <$> store h' !! p = val <$> store h !! p.

#[export] Instance same_contexts_preorder : PreOrder same_contexts.
Proof using. split; [by intros h p | intros a b c Hab Hbc p; by rewrite Hbc, Hab]. Qed.

Lemma swap_ctx_spec h i j :
  heap_wf h → i < size h → j < size h →
  ∃ h', swap_ctx i j h = Ok h' ∧ heap_wf h' ∧ vals h' = list_swap i j (vals h) ∧
    same_contexts h h'.
Proof using.
  intros H Hi Hj. destruct (lookup_lt_is_Some_2 _ _ Hi) as [p Hp].
  destruct (lookup_lt_is_Some_2 _ _ Hj) as [q Hq].
  destruct (wf_idx h H i p Hp) as [b Hb], (wf_idx h H j q Hq) as [a Ha].
  unfold swap_ctx. rewrite Hp, Hq. simpl. rewrite Ha, Hb. simpl.
  eexists. split; [done|].
  assert (Hstore : ∀ r, val <$> (<[p:=BCtx j b]> (<[q:=BCtx i a]> (store h))) !! r
                        = val <$> store h !! r).
  { intros r. destruct (decide (r = p)) as [->|].
    { rewrite lookup_insert_eq. by rewrite Hb. }
    rewrite lookup_insert_ne by done. destruct (decide (r = q)) as [->|].
    - rewrite lookup_insert_eq. by rewrite Ha.
    - by rewrite lookup_insert_ne. }
  split; [split|split; [|exact Hstore]].
  - simpl. rewrite list_swap_perm. apply H.
  - simpl. intros n r Hr. destruct (decide (n = j)) as [->|Hnj].
    { rewrite (list_swap_lookup_r i j _ p) in Hr by done. simplify_eq.
      exists b. by rewrite lookup_insert_eq. }
    destruct (decide (n = i)) as [->|Hni].
    { rewrite (list_swap_lookup_l i j _ q) in Hr by done. simplify_eq.
      exists a. rewrite lookup_insert_ne by (intros ->; apply Hnj; by eapply NoDup_lookup; [apply H|..]).
      by rewrite lookup_insert_eq. }
    rewrite list_swap_lookup_ne in Hr by done.
    destruct (wf_idx h H n r Hr) as [v Hv]. exists v.
    rewrite !lookup_insert_ne; [done|..]; intros ->.
    + apply Hnj. by eapply NoDup_lookup; [apply H|..].
    + apply Hni. by eapply NoDup_lookup; [apply H|..].
  - simpl. intros r Hr. rewrite list_swap_perm. apply (wf_dom h H).
    rewrite <- (fmap_is_Some val), <- Hstore, fmap_is_Some. done.
  - unfold vals at 1. simpl. rewrite (omap_ext_fun _ (λ p, val <$> store h !! p) _ Hstore).
    unfold vals. apply list_eq. intros n.
    rewrite omap_lookup_total by (intros r; rewrite list_swap_perm; by apply val_some).
    change (omap (λ p, val <$> store h !! p) (heap_ h)) with (vals h).
    assert (Hvi : vals h !! i = Some b) by (rewrite vals_lookup, Hp by done; simpl; by rewrite Hb).
    assert (Hvj : vals h !! j = Some a) by (rewrite vals_lookup, Hq by done; simpl; by rewrite Ha).
    destruct (decide (n = j)) as [->|Hnj].
    { rewrite (list_swap_lookup_r i j _ p), (list_swap_lookup_r i j _ b);
        rewrite ?length_vals by done; try done. simpl. by rewrite Hb. }
    destruct (decide (n = i)) as [->|Hni].
    { rewrite (list_swap_lookup_l i j _ q), (list_swap_lookup_l i j _ a);
        rewrite ?length_vals by done; try done. simpl. by rewrite Ha. }
    rewrite !list_swap_lookup_ne by done. by rewrite vals_lookup.
Qed.

(** Removing the last pointer and its context. *)
Lemma drop_last_spec h p :
  heap_wf h → heap_ h !! (size h - 1) = Some p →
  let h' := BHeap (take (size h - 1) (heap_ h)) (delete p (store h)) in
  heap_wf h' ∧ vals h' = take (size h - 1) (vals h).
Proof using.
  intros H Hp h'. pose proof (lookup_lt_Some _ _ _ Hp) as Hlt. fold (size h) in Hlt.
  assert (Hne : ∀ i q, take (size h - 1) (heap_ h) !! i = Some q → q ≠ p).
  { intros i q [Hq Hi]%lookup_take_Some ->. pose proof (NoDup_lookup _ _ _ _ (wf_nodup h H) Hq Hp). lia. }
  assert (Hwf : heap_wf h').
  { split; simpl.
    - eapply sublist_NoDup; [apply H | apply sublist_take].
    - intros i q Hq. pose proof (Hne i q Hq). apply lookup_take_Some in Hq as [Hq _].
      destruct (wf_idx h H i q Hq) as [v Hv]. exists v. by rewrite lookup_delete_ne.
    - intros q Hq. rewrite lookup_delete_is_Some in Hq. destruct Hq as [Hqp Hq].
      apply (wf_dom h H), list_elem_of_lookup in Hq as [i Hi].
      apply list_elem_of_lookup. exists i. rewrite lookup_take_lt; [done|].
      pose proof (lookup_lt_Some _ _ _ Hi) as Hi'. fold (size h) in Hi'.
      destruct (decide (i = size h - 1)) as [->|]; [congruence|lia]. }
  split; [done|]. apply list_eq. intros i. rewrite vals_lookup by done. simpl.
  destruct (decide (i < size h - 1)).
  - rewrite !lookup_take_lt by done. rewrite vals_lookup by done.
    destruct (heap_ h !! i) as [q|] eqn:Hq; [|done]. simpl.
    rewrite lookup_delete_ne; [done|]. symmetry. apply (Hne i). by rewrite lookup_take_lt.
  - rewrite !lookup_take_ge by lia. done.
Qed.

(** Pushing a fresh context. *)
Lemma push_spec h t :
  heap_wf h →
  let c := fresh (dom (store h)) in
  let h' := BHeap (heap_ h ++ [c]) (<[c := BCtx (size h) t]> (store h)) in
  heap_wf h' ∧ vals h' = vals h ++ [t].
Proof using.
  intros H c h'. assert (Hc : store h !! c = None) by (apply not_elem_of_dom, is_fresh).
  assert (Hcn : c ∉ heap_ h).
  { intros [i Hi]%list_elem_of_lookup. destruct (wf_idx h H i c Hi) as [v Hv]. congruence. }
  assert (Hwf : heap_wf h').
  { split; simpl.
    - apply NoDup_app. split_and!; [apply H | | apply NoDup_singleton].
      intros p Hp ->%list_elem_of_singleton. done.
    - intros i p. rewrite lookup_app_Some. intros [Hp|[Hi Hp]].
      + destruct (wf_idx h H i p Hp) as [v Hv]. exists v.
        rewrite lookup_insert_ne; [done|]. intros ->. congruence.
      + apply list_lookup_singleton_Some in Hp as [Hp <-]. exists t.
        rewrite lookup_insert_eq. do 2 f_equal. unfold size. lia.
    - intros p. rewrite elem_of_app, list_elem_of_singleton. destruct (decide (p = c)) as [->|].
      + by right.
      + rewrite lookup_insert_ne by done. left. by apply (wf_dom h H). }
  split; [done|]. unfold vals at 1. simpl. rewrite omap_app. simpl. rewrite lookup_insert_eq. simpl.
  f_equal. apply list_omap_ext, Forall_Forall2_diag, Forall_forall. intros p Hp.
  rewrite lookup_insert_ne; [done|]. intros ->. done.
Qed.

End store_lemmas.

(** *** Order *)

Section order.
Context {T : Type} (comp_ : T → T → bool) (laws : comp_laws comp_).
Implicit Types (h : bheap T) (l : list T).

(** The order while [sift_up] moves the element at [i]. *)
Definition up_inv (l : list T) (i : nat) : Prop :=
  ordered_except comp_ (λ j, j = i) l ∧
  (0 < i → ∀ c x y, 0 < c → (c - 1) / 2 = i → l !! ((i - 1) / 2) = Some x → l !! c = Some y →
     comp_ x y = false).

(** The order while [sift_down] moves the element at [i]. *)
Definition down_inv (l : list T) (i : nat) : Prop :=
  ordered_except comp_ (λ j, (j - 1) / 2 = i) l ∧
  (0 < i → ∀ c x y, 0 < c → (c - 1) / 2 = i → l !! ((i - 1) / 2) = Some x → l !! c = Some y →
     comp_ x y = false).

Lemma up_exit l i :
  up_inv l i →
  (0 < i → ∀ x y, l !! ((i - 1) / 2) = Some x → l !! i = Some y → comp_ x y = false) →
  heap_order comp_ l.
Proof using.
  intros [Ho _] Hi j x y Hj _ Hx Hy. destruct (decide (j = i)) as [->|].
  - by apply Hi.
  - by apply (Ho j).
Qed.

Lemma up_step l i x y :
  up_inv l i → 0 < i → l !! ((i - 1) / 2) = Some x → l !! i = Some y → comp_ x y = true →
  up_inv (list_swap ((i - 1) / 2) i l) ((i - 1) / 2).
Proof using laws.
  intros [Ho Hg] Hi Hx Hy Hc. set (p := (i - 1) / 2) in *.
  assert (Hpi : p < i) by (unfold p; lia).
  assert (Hkp : list_swap p i l !! p = Some y)
    by (apply list_swap_lookup_l; [done | by eapply lookup_lt_Some]).
  assert (Hki : list_swap p i l !! i = Some x)
    by (apply list_swap_lookup_r; [done | by eapply lookup_lt_Some]).
  assert (Hyx : comp_ y x = false) by by apply laws.
  split.
  - intros j a b Hj Hjp Ha Hb. destruct (decide (j = i)) as [->|Hji].
    { fold p in Ha. congruence. }
    rewrite (list_swap_lookup_ne p i j) in Hb by done.
    destruct (decide ((j - 1) / 2 = p)) as [Hjpar|Hjpar].
    { rewrite Hjpar in Ha. assert (a = y) as -> by congruence.
      apply (comp_negtrans _ laws y x b Hyx). apply (Ho j); [done..| |done]. by rewrite Hjpar. }
    destruct (decide ((j - 1) / 2 = i)) as [Hjpar'|].
    { rewrite Hjpar' in Ha. assert (a = x) as -> by congruence. by apply (Hg Hi j). }
    rewrite list_swap_lookup_ne in Ha by done. by apply (Ho j).
  - intros Hp c a b Hc0 Hcp Ha Hb.
    rewrite list_swap_lookup_ne in Ha by lia.
    assert (Hax : comp_ a x = false) by (apply (Ho p); [done | lia | done | done]).
    destruct (decide (c = i)) as [->|Hci]; [congruence|].
    rewrite list_swap_lookup_ne in Hb by lia.
    apply (comp_negtrans _ laws a x b Hax). apply (Ho c); [done | done | by rewrite Hcp | done].
Qed.

Lemma down_exit l i :
  down_inv l i →
  (∀ c x y, 0 < c → (c - 1) / 2 = i → l !! i = Some x → l !! c = Some y → comp_ x y = false) →
  heap_order comp_ l.
Proof using.
  intros [Ho _] Hi j x y Hj _ Hx Hy. destruct (decide ((j - 1) / 2 = i)) as [<-|].
  - by apply (Hi j).
  - by apply (Ho j).
Qed.

(** [m] is the child with which position [i] is exchanged. *)
Lemma down_step l i m x y :
  down_inv l i → 0 < m → (m - 1) / 2 = i → l !! i = Some x → l !! m = Some y →
  comp_ x y = true →
  (∀ c z, 0 < c → (c - 1) / 2 = i → l !! c = Some z → comp_ y z = false) →
  down_inv (list_swap m i l) m.
Proof using laws.
  intros [Ho Hg] Hm Hmi Hx Hy Hc Hmax.
  assert (Hki : list_swap m i l !! i = Some y)
    by (apply list_swap_lookup_r; [done | by eapply lookup_lt_Some]).
  assert (Hkm : list_swap m i l !! m = Some x)
    by (apply list_swap_lookup_l; [done | by eapply lookup_lt_Some]).
  assert (Hyx : comp_ y x = false) by by apply laws.
  assert (Him : i < m) by lia.
  split.
  - intros j a b Hj Hjm Ha Hb. destruct (decide (j = i)) as [->|Hji].
    { assert (b = y) as -> by congruence.
      rewrite list_swap_lookup_ne in Ha by lia. by apply (Hg Hj m). }
    destruct (decide (j = m)) as [->|Hjm'].
    { rewrite Hmi in Ha. congruence. }
    rewrite (list_swap_lookup_ne m i j) in Hb by done.
    destruct (decide ((j - 1) / 2 = i)) as [Hji'|Hji'].
    { rewrite Hji' in Ha. assert (a = y) as -> by congruence. by apply (Hmax j). }
    rewrite list_swap_lookup_ne in Ha by done. by apply (Ho j).
  - intros _ c a b Hc0 Hcm Ha Hb. rewrite Hmi in Ha. assert (a = y) as -> by congruence.
    rewrite list_swap_lookup_ne in Hb by lia. apply (Ho c); [done | lia | by rewrite Hcm | done].
Qed.

Lemma heap_order_edge l i x y :
  heap_order comp_ l → 0 < i → l !! ((i - 1) / 2) = Some x → l !! i = Some y → comp_ x y = false.
Proof using. intros Ho Hi. apply (Ho i); [done | tauto]. Qed.

Lemma heap_order_down l i : heap_order comp_ l → down_inv l i.
Proof using laws.
  intros Ho. split.
  - intros j x y Hj _. by apply heap_order_edge.
  - intros Hi c x y Hc Hci Hx Hy.
    destruct (lookup_lt_is_Some_2 l i) as [z Hz]; [apply lookup_lt_Some in Hy; lia|].
    apply (comp_negtrans _ laws x z y).
    + by apply (heap_order_edge l i).
    + apply (heap_order_edge l c); [done | done | by rewrite Hci | done].
Qed.

(** The root of a heap is a greatest element. *)
Lemma heap_order_root l t i v :
  heap_order comp_ l → l !! 0 = Some t → l !! i = Some v → comp_ t v = false.
Proof using laws.
  intros Ho Ht. revert v. induction (lt_wf i) as [i _ IH]; intros v Hv.
  destruct (decide (i = 0)) as [->|Hi].
  - simplify_eq. apply not_true_iff_false. intros E. by rewrite (comp_asym _ laws _ _ E) in E.
  - destruct (lookup_lt_is_Some_2 l ((i - 1) / 2)) as [z Hz]; [apply lookup_lt_Some in Hv; lia|].
    apply (comp_negtrans _ laws t z v).
    + apply (IH ((i - 1) / 2)); [lia | done].
    + apply (heap_order_edge l i); [done | lia | done | done].
Qed.

End order.

(** *** Sifting *)

Section sifting.
Context {T : Type} (comp_ : T → T → bool).
Implicit Types (h : bheap T) (l : list T).

Lemma perm_size h h' : heap_wf h → heap_wf h' → vals h' ≡ₚ vals h → size h' = size h.
Proof using.
  intros H H' Hp%Permutation_length. by rewrite !length_vals in Hp.
Qed.

Lemma sift_up_spec h i :
  heap_wf h → i < size h →
  ∃ h', sift_up comp_ i h = Ok h' ∧ heap_wf h' ∧ vals h' ≡ₚ vals h ∧ same_contexts h h' ∧
    (comp_laws comp_ → up_inv comp_ (vals h) i → heap_order comp_ (vals h')).
Proof using.
  intros H Hi. set (hyp := comp_laws comp_ ∧ up_inv comp_ (vals h) i).
  destruct (run_loop_total (sift_up_body comp_)
    (λ s, heap_wf s.2 ∧ vals s.2 ≡ₚ vals h ∧ same_contexts h s.2 ∧ s.1 < size h ∧ (hyp → up_inv comp_ (vals s.2) s.1))
    (λ r, heap_wf r ∧ vals r ≡ₚ vals h ∧ same_contexts h r ∧ (hyp → heap_order comp_ (vals r)))
    fst) with (fuel := S i) (s := (i, h)) as (h' & Hr & Hwf & Hp & Hs & Ho).
  - intros [j g] (Hwf & Hp & Hs & Hj & Hu). cbn [fst snd] in *.
    pose proof (perm_size h g H Hwf Hp) as Hsz. unfold sift_up_body.
    destruct (Nat.eqb_spec j 0) as [->|Hj0].
    { eexists; split; [done|]. split_and!; [done..|]. intros Hh. apply (up_exit _ _ 0); [by apply Hu | lia]. }
    rewrite !val_at_vals by done.
    destruct (lookup_lt_is_Some_2 (vals g) ((j - 1) / 2)) as [vp Hvp]; [rewrite length_vals by done; lia|].
    destruct (lookup_lt_is_Some_2 (vals g) j) as [vi Hvi]; [rewrite length_vals by done; lia|].
    rewrite Hvp, Hvi. cbn [deref mbind res_bind]. destruct (comp_ vp vi) eqn:Hc.
    + destruct (swap_ctx_spec g ((j - 1) / 2) j Hwf) as (g' & -> & Hwf' & Hv & Hs'); [lia..|]. simpl.
      eexists; split; [done|]. cbn [fst snd]. rewrite Hv.
      split; [|lia]. split_and!; [done | by rewrite list_swap_perm | by etrans | lia |].
      intros Hh. eapply up_step; [apply Hh | by apply Hu | lia | done..].
    + eexists; split; [done|]. split_and!; [done..|]. intros Hh.
      apply (up_exit _ _ j); [by apply Hu|]. intros _ x y Hx Hy. by simplify_eq.
  - cbn [fst snd]. split_and!; [done | done | done | done | by intros []].
  - simpl. lia.
  - exists h'. split_and!; [done | done | done | done |]. intros Hl Hu. by apply Ho.
Qed.

Lemma greater_child_spec h largest child x :
  heap_wf h → vals h !! largest = Some x →
  ∃ m y, greater_child comp_ (size h) largest child h = Ok m ∧ vals h !! m = Some y ∧
    (m = largest ∨ m = child ∧ comp_ x y = true) ∧
    (comp_laws comp_ → comp_ y x = false ∧ ∀ z, vals h !! child = Some z → comp_ y z = false).
Proof using.
  intros H Hx. unfold greater_child. rewrite !val_at_vals, Hx by done.
  assert (Hxx : comp_laws comp_ → comp_ x x = false).
  { intros L. apply not_true_iff_false. intros E. by rewrite (comp_asym _ L _ _ E) in E. }
  destruct (Nat.ltb_spec child (size h)) as [Hlt|Hge].
  - destruct (lookup_lt_is_Some_2 (vals h) child) as [z Hz]; [by rewrite length_vals|].
    rewrite Hz. simpl. destruct (comp_ x z) eqn:Hc.
    + exists child, z. split_and!; [done | done | by right |]. intros L.
      pose proof (comp_asym _ L _ _ Hc) as Hzx. split; [done|]. intros ? [= <-].
      apply not_true_iff_false. intros E. by rewrite (comp_asym _ L _ _ E) in E.
    + exists largest, x. split_and!; [done | done | by left |]. intros L. split; [by apply Hxx|].
      by intros ? [= <-].
  - exists largest, x. split_and!; [done | done | by left |]. intros L. split; [by apply Hxx|].
    intros z Hz%lookup_lt_Some. rewrite length_vals in Hz by done. lia.
Qed.

Definition sift_down_post h i h' : Prop :=
  heap_wf h' ∧ vals h' ≡ₚ vals h ∧
  (comp_laws comp_ → down_inv comp_ (vals h) i → heap_order comp_ (vals h')).

Lemma sift_down_spec_fuel fuel : ∀ h i,
  heap_wf h → i < size h → size h - i < fuel →
  ∃ h', sift_down_fuel comp_ fuel i h = Ok h' ∧ sift_down_post h i h'.
Proof using.
  induction fuel as [|fuel IH]; intros h i H Hi Hf; [lia|].
  set (hyp := comp_laws comp_ ∧ down_inv comp_ (vals h) i).
  destruct (run_loop_total (sift_down_body comp_ (sift_down_fuel comp_ fuel) (size h))
    (λ s, heap_wf s.2 ∧ vals s.2 ≡ₚ vals h ∧ i ≤ s.1 < size h ∧ (hyp → down_inv comp_ (vals s.2) s.1))
    (λ r, heap_wf r ∧ vals r ≡ₚ vals h ∧ (hyp → heap_order comp_ (vals r)))
    (λ s, size h - s.1)) with (fuel := S fuel) (s := (i, h)) as (h' & Hr & Hwf & Hp & Ho);
    [| |exact Hf| ].
  - intros [j g] (Hwf & Hp & Hj & Hd). cbn [fst snd] in *.
    pose proof (perm_size h g H Hwf Hp) as Hsz. unfold sift_down_body. rewrite <- Hsz.
    destruct (lookup_lt_is_Some_2 (vals g) j) as [x Hx]; [rewrite length_vals by done; lia|].
    destruct (greater_child_spec g j (2 * j + 1) x Hwf Hx) as (m1 & y1 & -> & Hy1 & Hm1 & Hc1).
    cbn [mbind res_bind].
    destruct (greater_child_spec g m1 (2 * j + 2) y1 Hwf Hy1) as (m & y & -> & Hy & Hm & Hc2).
    cbn [mbind res_bind].
    assert (Hmax : comp_laws comp_ → ∀ c z, 0 < c → (c - 1) / 2 = j → vals g !! c = Some z → comp_ y z = false).
    { intros L c z Hc0 Hcj Hz. destruct (Hc1 L) as [_ Hleft], (Hc2 L) as [Hyy1 Hright].
      assert (c = 2 * j + 1 ∨ c = 2 * j + 2) as [->| ->] by lia.
      - apply (comp_negtrans _ L y y1 z Hyy1). by apply Hleft.
      - by apply Hright. }
    destruct (Nat.eqb_spec m j) as [->|Hne].
    + simplify_eq. eexists; split; [done|]. split_and!; [done..|]. intros Hh.
      apply (down_exit _ _ j); [by apply Hd|]. intros c a b Hc0 Hcj Ha Hb. simplify_eq.
      by apply (Hmax (proj1 Hh) c).
    + assert (Hmj : 0 < m ∧ (m - 1) / 2 = j) by lia. assert (Hml : m < size g).
      { apply lookup_lt_Some in Hy. by rewrite length_vals in Hy. }
      destruct (swap_ctx_spec g m j Hwf) as (g' & -> & Hwf' & Hv & _); [lia..|]. cbn [mbind res_bind].
      assert (Hp' : vals g' ≡ₚ vals h) by (by rewrite Hv, list_swap_perm).
      pose proof (perm_size h g' H Hwf' Hp') as Hsz'.
      destruct (IH g' m Hwf') as (g'' & -> & Hwf'' & Hp'' & Ho''); [lia..|]. cbn [mbind res_bind].
      eexists; split; [done|]. cbn [fst snd]. split; [|lia].
      split_and!; [done | by rewrite Hp'' | lia | lia |].
      intros Hh. apply heap_order_down; [apply Hh|]. apply Ho''; [apply Hh|]. rewrite Hv.
      destruct (Hc2 (proj1 Hh)) as [_ _].
      assert (Hxy : comp_ x y = true).
      { destruct Hm as [->|[-> Hm]]; [destruct Hm1 as [->|[_ Hm1]]; [lia|congruence]|].
        destruct Hm1 as [->|[-> Hm1]]; [congruence|].
        destruct (comp_ x y) eqn:E; [done|].
        pose proof (comp_asym _ (proj1 Hh) _ _ Hm) as Hny.
        rewrite (comp_negtrans _ (proj1 Hh) x y y1 E Hny) in Hm1. done. }
      eapply down_step; [apply Hh | by apply Hd | apply Hmj | apply Hmj | done | done | done |].
      by apply Hmax, Hh.
  - cbn [fst snd]. split_and!; [done | done | lia | done | by intros []].
  - exists h'. split_and!; [done | split_and!; [done|done|]]. intros L Hd. by apply Ho.
Qed.

Lemma sift_down_spec h i :
  heap_wf h → i < size h → ∃ h', sift_down comp_ i h = Ok h' ∧ sift_down_post h i h'.
Proof using. intros H Hi. apply sift_down_spec_fuel; [done | done | lia]. Qed.

End sifting.

(** *** Operations *)

Section moved_last.
Context {T : Type}.
Implicit Types l : list T.

(** The values once [erase] has moved the last element to [i]. *)
Definition moved_last (i : nat) (l : list T) : list T :=
  take (length l - 1) (list_swap i (length l - 1) l).

Lemma moved_last_perm l i v : l !! i = Some v → v :: moved_last i l ≡ₚ l.
Proof using.
  intros Hv. pose proof (lookup_lt_Some _ _ _ Hv) as Hlt. unfold moved_last.
  assert (Hlast : list_swap i (length l - 1) l !! (length l - 1) = Some v)
    by (apply list_swap_lookup_r; [done | lia]).
  transitivity (list_swap i (length l - 1) l); [|apply list_swap_perm].
  rewrite <- (take_drop (length l - 1) (list_swap i (length l - 1) l)) at 2.
  erewrite drop_S by done. rewrite drop_ge by (rewrite length_list_swap; lia).
  by rewrite <- Permutation_cons_append.
Qed.

Lemma moved_last_lookup l i j :
  i < length l - 1 → j < length l - 1 →
  moved_last i l !! j = if decide (j = i) then l !! (length l - 1) else l !! j.
Proof using.
  intros Hi Hj. unfold moved_last. rewrite lookup_take_lt by done. case_decide as Hd.
  - subst. destruct (lookup_lt_is_Some_2 l (length l - 1)) as [x Hx]; [lia|]. rewrite Hx.
    apply list_swap_lookup_l; [done | lia].
  - rewrite list_swap_lookup_ne; [done | done | lia].
Qed.

End moved_last.

Section operation_lemmas.
Context {T : Type} (comp_ : T → T → bool).
Implicit Types (h : bheap T) (l : list T).

(** [erase] up to its final sifting step. *)
Lemma erase_spec h i :
  heap_wf h → i < size h →
  ∃ h1, heap_wf h1 ∧ vals h1 = moved_last i (vals h) ∧ size h1 = size h - 1 ∧
    erase comp_ i h
    = if i <? size h1 then
        vi ← val_at i h1;
        vl ← val_at (size h1 - 1) h1;
        if comp_ vi vl then sift_up comp_ i h1 else sift_down comp_ i h1
      else mret h1.
Proof using.
  intros H Hi. unfold erase. destruct (Nat.leb_spec (size h) i); [lia|].
  destruct (swap_ctx_spec h i (size h - 1) H) as (g & -> & Hg & Hv & _); [lia..|].
  cbn [mbind res_bind]. assert (Hsz : size g = size h).
  { apply perm_size; [done..|]. by rewrite Hv, list_swap_perm. }
  destruct (lookup_lt_is_Some_2 (heap_ g) (size g - 1)) as [p Hp]; [unfold size; unfold size in *; lia|].
  rewrite Hp. cbn [deref mbind res_bind].
  destruct (drop_last_spec g p Hg Hp) as [Hwf1 Hv1].
  eexists. split; [exact Hwf1|]. split_and!.
  - rewrite Hv1, Hv. unfold moved_last. by rewrite length_vals, Hsz.
  - rewrite <- (length_vals _ Hwf1), Hv1, length_take, length_vals by done. lia.
  - done.
Qed.

Lemma insert_sift t h :
  heap_wf h →
  ∃ p h', insert comp_ t h = Ok (p, h') ∧ heap_wf h' ∧ vals h' ≡ₚ t :: vals h ∧
    (comp_laws comp_ → heap_order comp_ (vals h) → heap_order comp_ (vals h')) ∧
    ∃ i, heap_ h' !! i = Some p ∧ store h' !! p = Some (BCtx i t).
Proof using.
  intros H. destruct (push_spec h t H) as [H1 Hv1]. unfold insert.
  set (c := fresh (dom (store h))) in *. set (h1 := BHeap _ _) in *.
  assert (Hsz : size h1 = S (size h)) by (unfold h1, size; simpl; rewrite length_app; simpl; lia).
  destruct (sift_up_spec comp_ h1 (size h1 - 1) H1) as (h' & -> & Hwf & Hp & Hs & Ho); [lia|].
  exists c, h'. split; [done|]. split; [done|].
  split; [rewrite Hp, Hv1; by rewrite <- Permutation_cons_append|]. split.
  - intros L Hord. apply Ho; [done|]. rewrite Hsz, Hv1. split.
    + intros j x y Hj Hne Hx Hy. assert (Hjl : j < length (vals h)).
      { pose proof (lookup_lt_Some _ _ _ Hy) as Hl. rewrite length_app in Hl.
        rewrite <- length_vals in Hne by done. simpl in *. lia. }
      rewrite lookup_app_l in Hx, Hy by lia. by eapply heap_order_edge.
    + intros _ k x y Hk Hki _ Hy%lookup_lt_Some. rewrite length_app, length_vals in Hy by done.
      simpl in Hy. lia.
  - specialize (Hs c). assert (Hc : val <$> store h1 !! c = Some t) by (unfold h1; simpl; by rewrite lookup_insert_eq). rewrite Hc in Hs.
    destruct (store h' !! c) as [b|] eqn:Hb; [|done]. simpl in Hs. simplify_eq.
    destruct (proj1 (list_elem_of_lookup _ _) (wf_dom h' Hwf c ltac:(by eexists))) as [i Hi].
    exists i. split; [done|]. destruct (wf_idx h' Hwf i c Hi) as [v Hv]. simplify_eq. done.
Qed.

Lemma erase_perm h i v :
  heap_wf h → vals h !! i = Some v →
  ∃ h', erase comp_ i h = Ok h' ∧ heap_wf h' ∧ v :: vals h' ≡ₚ vals h.
Proof using.
  intros H Hv. assert (Hi : i < size h) by (rewrite <- length_vals by done; by eapply lookup_lt_Some).
  destruct (erase_spec h i H Hi) as (h1 & H1 & Hv1 & Hsz & ->).
  pose proof (moved_last_perm _ _ _ Hv) as Hperm. rewrite <- Hv1 in Hperm.
  destruct (Nat.ltb_spec i (size h1)) as [Hlt|]; [|by exists h1].
  rewrite !val_at_vals by done.
  destruct (lookup_lt_is_Some_2 (vals h1) i) as [x ->]; [by rewrite length_vals|].
  destruct (lookup_lt_is_Some_2 (vals h1) (size h1 - 1)) as [y ->]; [rewrite length_vals by done; lia|].
  cbn [deref mbind res_bind]. destruct (comp_ x y).
  - destruct (sift_up_spec comp_ h1 i H1 Hlt) as (h' & -> & Hwf & Hp & _ & _).
    exists h'. by rewrite Hp.
  - destruct (sift_down_spec comp_ h1 i H1 Hlt) as (h' & -> & Hwf & Hp & _).
    exists h'. by rewrite Hp.
Qed.

(** [erase] keeps the order when its comparison with the last element picks the
    right direction. *)
Lemma erase_order h i h' :
  comp_laws comp_ → heap_wf h → i < size h → heap_order comp_ (vals h) →
  (∀ x y, i < size h - 1 → vals h !! (size h - 1) = Some x →
     moved_last i (vals h) !! (size h - 2) = Some y → comp_ x y = false) →
  (∀ x z, 0 < i → vals h !! (size h - 1) = Some x → vals h !! ((i - 1) / 2) = Some z →
     comp_ z x = false) →
  erase comp_ i h = Ok h' → heap_order comp_ (vals h').
Proof using.
  intros L H Hi Hord Hlast Hparent Her.
  destruct (erase_spec h i H Hi) as (h1 & H1 & Hv1 & Hsz & Heq). rewrite Heq in Her. clear Heq.
  pose proof (length_vals h H) as Hl. pose proof (length_vals h1 H1) as Hl1.
  destruct (Nat.ltb_spec i (size h1)) as [Hlt|Hge].
  - destruct (lookup_lt_is_Some_2 (vals h) (size h - 1)) as [x Hx]; [lia|].
    destruct (lookup_lt_is_Some_2 (vals h1) (size h1 - 1)) as [y Hy]; [lia|].
    assert (Hxi : vals h1 !! i = Some x).
    { rewrite Hv1, moved_last_lookup, decide_True by (done || lia). by rewrite Hl. }
    rewrite !val_at_vals, Hxi, Hy in Her by done. cbn [deref mbind res_bind] in Her.
    rewrite (Hlast x y) in Her; [|lia | done | rewrite <- Hv1, <- Hy; f_equal; lia].
    destruct (sift_down_spec comp_ h1 i H1 Hlt) as (h2 & Hs & Hpost).
    rewrite Hs in Her. simplify_eq. apply Hpost; [done|]. rewrite Hv1.
    assert (Hlk : ∀ j a, moved_last i (vals h) !! j = Some a → j ≠ i → vals h !! j = Some a).
    { intros j a Ha Hj. rewrite <- Hv1 in Ha. pose proof (lookup_lt_Some _ _ _ Ha).
      rewrite Hv1, moved_last_lookup, decide_False in Ha by (done || lia). done. }
    split.
    + intros j a b Hj Hpar Ha Hb. apply Hlk in Ha; [|done].
      destruct (decide (j = i)) as [->|Hji].
      * rewrite <- Hv1, Hxi in Hb. simplify_eq. by apply (Hparent b a).
      * apply Hlk in Hb; [|done]. by eapply heap_order_edge.
    + intros Hi0 c a b Hc Hci Ha Hb. apply Hlk in Ha; [|lia]. apply Hlk in Hb; [|lia].
      pose proof (heap_order_down comp_ L (vals h) i Hord) as [_ Hd]. by apply (Hd Hi0 c).
  - simpl in Her. simplify_eq. intros j a b Hj _ Ha Hb. rewrite Hv1 in *.
    unfold moved_last in *. assert (i = length (vals h) - 1) as -> by lia.
    rewrite list_swap_id in *. apply lookup_take_Some in Ha as [Ha _].
    apply lookup_take_Some in Hb as [Hb _]. by eapply heap_order_edge.
Qed.

End operation_lemmas.

(** ** Properties *)

(** C13: [insert] on a heap adds exactly the new element and leaves a heap in
    which every context records its position; the context handed to the caller
    can be used at once to erase that element again. *)
Theorem bheap_insert_correct {T} (comp_ : T → T → bool) (t : T) (h : bheap T) :
  comp_laws comp_ → heap_wf h → heap_order comp_ (vals h) →
  ∃ p h' c, insert comp_ t h = Ok (p, h') ∧
    heap_wf h' ∧ heap_order comp_ (vals h') ∧ vals h' ≡ₚ t :: vals h ∧
    store h' !! p = Some c ∧ val c = t ∧
    ∃ h'', erase comp_ (idx c) h' = Ok h'' ∧ heap_wf h'' ∧ vals h'' ≡ₚ vals h.
Proof.
  intros L H Ho. destruct (insert_sift comp_ t h H) as (p & h' & Hi & Hwf & Hp & Hord & i & Hpi & Hc).
  exists p, h', (BCtx i t). split_and!; try done; [by apply Hord|].
  destruct (vals_lookup_wf h' i p Hwf Hpi) as (v & Hv & Hvi). simplify_eq.
  destruct (erase_perm comp_ h' i t Hwf Hvi) as (h'' & He & Hwf'' & Hp'').
  exists h''. split_and!; [done | done |]. apply (Permutation.Permutation_cons_inv (a := t)).
  by rewrite Hp''.
Qed.

(** C20: [erase] of a valid position, on any well-formed store, ordered or not,
    terminates without an invalid access, frees one context and removes exactly
    the element at that position; an invalid position throws. *)
Theorem bheap_erase_correct {T} (comp_ : T → T → bool) (h : bheap T) i :
  heap_wf h →
  match vals h !! i with
  | Some v => ∃ h', erase comp_ i h = Ok h' ∧ heap_wf h' ∧ v :: vals h' ≡ₚ vals h
  | None => erase comp_ i h = Throw RuntimeError
  end.
Proof.
  intros H. destruct (vals h !! i) as [v|] eqn:Hv; [by apply erase_perm|].
  apply lookup_ge_None in Hv. rewrite length_vals in Hv by done.
  unfold erase. destruct (Nat.leb_spec (size h) i); [done | lia].
Qed.

(** C22: [pop] on a heap returns a greatest element and removes it.  The rest is
    a heap again when the last element is not smaller than the one before it
    (or when at most two elements were left); otherwise [pop] leaves that last
    element on top although a greater one is in the heap. *)
Theorem bheap_pop_correct {T} (comp_ : T → T → bool) (h : bheap T) :
  comp_laws comp_ → heap_wf h → heap_order comp_ (vals h) → 0 < size h →
  ∃ v h', pop comp_ h = Ok (v, h') ∧ heap_wf h' ∧ v :: vals h' ≡ₚ vals h ∧
    Forall (λ u, comp_ v u = false) (vals h) ∧
    ∀ x y, vals h !! (size h - 1) = Some x → vals h !! (size h - 2) = Some y →
      if (size h <=? 2) || negb (comp_ x y) then heap_order comp_ (vals h')
      else top h' = Ok x ∧ y ∈ vals h'.
Proof.
  intros L H Ho Hpos. pose proof (length_vals h H) as Hl.
  destruct (lookup_lt_is_Some_2 (vals h) 0) as [v Hv]; [lia|].
  destruct (erase_perm comp_ h 0 v H Hv) as (h' & He & Hwf & Hp).
  exists v, h'. split_and!; [|done..| |].
  - unfold pop, empty. destruct (Nat.eqb_spec (size h) 0); [lia|].
    rewrite val_at_vals, Hv by done. cbn [deref mbind res_bind]. by rewrite He.
  - apply Forall_lookup. intros i u Hu. by apply (heap_order_root comp_ L (vals h) v i u).
  - intros x y Hx Hy. assert (Hpen : size h ≠ 2 → 0 < size h - 1 →
      moved_last 0 (vals h) !! (size h - 2) = Some y).
    { intros H2 H1. rewrite moved_last_lookup, decide_False by lia. done. }
    destruct (Nat.leb_spec (size h) 2) as [Hle|Hgt]; simpl.
    + apply (erase_order comp_ h 0 h' L H Hpos Ho); [|lia|done].
      intros a b Hlt Ha Hb. replace (size h - 2) with 0 in Hb by lia.
      rewrite moved_last_lookup, decide_True, Hl in Hb by lia. simplify_eq.
      apply not_true_iff_false. intros E. by rewrite (comp_asym _ L _ _ E) in E.
    + destruct (comp_ x y) eqn:Hc; simpl.
      * destruct (erase_spec comp_ h 0 H Hpos) as (h1 & H1 & Hv1 & Hsz & Heq). rewrite Heq in He.
        destruct (Nat.ltb_spec 0 (size h1)); [|lia].
        assert (Hx1 : vals h1 !! 0 = Some x).
        { rewrite Hv1, moved_last_lookup, decide_True, Hl by lia. done. }
        assert (Hy1 : vals h1 !! (size h1 - 1) = Some y).
        { rewrite Hv1, <- Hpen by lia. f_equal. lia. }
        rewrite !val_at_vals, Hx1, Hy1 in He by done. cbn [deref mbind res_bind] in He.
        rewrite Hc in He. cbn in He. simplify_eq. split.
        { unfold top, empty. destruct (Nat.eqb_spec (size h') 0); [lia|].
          by rewrite val_at_vals, Hx1. }
        by eapply list_elem_of_lookup_2.
      * apply (erase_order comp_ h 0 h' L H Hpos Ho); [|lia|done].
        intros a b _ Ha Hb. rewrite Hpen in Hb by lia. by simplify_eq.
Qed.

(** the destructor terminates and frees every context. *)
Theorem bheap_destroy_frees {T} (comp_ : T → T → bool) (h : bheap T) :
  heap_wf h → bheap_destroy comp_ h = Ok bheap_empty.
Proof.
  intros H. unfold bheap_destroy.
  destruct (run_loop_total (bheap_destroy_body comp_) heap_wf (λ r, r = bheap_empty) size)
    with (fuel := S (size h)) (s := h) as (r & Hr & ->); [|done|lia|exact Hr].
  intros g Hg. unfold bheap_destroy_body, pop. unfold empty at 1.
  destruct (Nat.eqb_spec (size g) 0) as [He|Hne].
  - eexists; split; [done|]. destruct g as [l m]. unfold size in He. simpl in *.
    apply nil_length_inv in He as ->. unfold bheap_empty. f_equal. apply map_eq. intros p.
    rewrite lookup_empty. apply eq_None_not_Some. intros Hp%(wf_dom _ Hg). by apply elem_of_nil in Hp.
  - pose proof (length_vals g Hg) as Hl.
    destruct (lookup_lt_is_Some_2 (vals g) 0) as [v Hv]; [lia|].
    destruct (erase_perm comp_ g 0 v Hg Hv) as (g' & He & Hwf & Hp).
    unfold empty. destruct (Nat.eqb_spec (size g) 0); [done|].
    rewrite val_at_vals, Hv by done. cbn [deref mbind res_bind]. rewrite He.
    eexists; split; [done|]. split; [done|].
    apply Permutation_length in Hp. simpl in Hp. rewrite !length_vals in Hp by done. lia.
Qed.

(** ** Witnesses *)

Lemma ltb_laws : comp_laws Nat.ltb.
Proof. split; intros; rewrite ?Nat.ltb_ge, ?Nat.ltb_lt in *; lia. Qed.

(** The heap after inserting 11, 10 and 8. *)
Definition heap_11_10_8 : bheap nat :=
  BHeap [1; 2; 3]%positive
    (<[1%positive := BCtx 0 11]> (<[2%positive := BCtx 1 10]> {[3%positive := BCtx 2 8]})).

Lemma heap_11_10_8_built :
  (('(_, h) ← insert Nat.ltb 11 bheap_empty; '(_, h) ← insert Nat.ltb 10 h;
    insert Nat.ltb 8 h) ≫= λ '(_, h), mret h) = Ok heap_11_10_8.
Proof. vm_compute. reflexivity. Qed.

Lemma heap_11_10_8_wf : heap_wf heap_11_10_8.
Proof.
  split.
  - apply (bool_decide_unpack _). vm_compute. exact I.
  - intros i p Hp. simpl in Hp. destruct i as [|[|[|i]]]; simplify_eq/=; by eexists.
  - intros p. simpl. rewrite !lookup_insert_is_Some', lookup_singleton_is_Some. set_solver.
Qed.

Lemma heap_11_10_8_order : heap_order Nat.ltb (vals heap_11_10_8).
Proof.
  intros i x y Hi _. change (vals heap_11_10_8) with [11; 10; 8].
  destruct i as [|[|[|i]]]; [lia | | |]; intros Hx Hy; vm_compute in Hx; simplify_eq/=; done.
Qed.

Lemma bheap_insert_correct_witness :
  ∃ p h', insert Nat.ltb 12 heap_11_10_8 = Ok (p, h') ∧ heap_order Nat.ltb (vals h').
Proof.
  destruct (bheap_insert_correct Nat.ltb 12 heap_11_10_8 ltb_laws heap_11_10_8_wf heap_11_10_8_order)
    as (p & h' & c & Hi & _ & Ho & _). by exists p, h'.
Defined.

Lemma bheap_erase_correct_witness :
  ∃ h', erase Nat.ltb 1 heap_11_10_8 = Ok h' ∧ heap_wf h' ∧ 10 :: vals h' ≡ₚ [11; 10; 8].
Proof. exact (bheap_erase_correct Nat.ltb heap_11_10_8 1 heap_11_10_8_wf). Defined.

(** After popping 11 the top is 8, while 10 is still in the heap. *)
Lemma bheap_pop_correct_witness :
  ∃ h', pop Nat.ltb heap_11_10_8 = Ok (11, h') ∧ top h' = Ok 8 ∧ 10 ∈ vals h'.
Proof.
  destruct (bheap_pop_correct Nat.ltb heap_11_10_8 ltb_laws heap_11_10_8_wf heap_11_10_8_order)
    as (v & h' & Hpop & _ & _ & _ & Htop); [vm_compute; lia|].
  assert (v = 11) as -> by (vm_compute in Hpop; congruence).
  exists h'. split; [done|]. exact (Htop 8 10 eq_refl eq_refl).
Defined.

Lemma bheap_destroy_frees_witness : bheap_destroy Nat.ltb heap_11_10_8 = Ok bheap_empty.
Proof. exact (bheap_destroy_frees Nat.ltb heap_11_10_8 heap_11_10_8_wf). Defined.
