(* ===== verification/NgxPool.v ===== *)
(** * Memory pool (core/ngx_pool.h, core/ngx_pool.cpp)

    A pool is a chain of page-sized blocks, from which small requests are cut,
    and a chain of large allocations.  Addresses are numbers; the system
    allocator ([malloc], [posix_memalign]) is a parameter that may fail. *)

From S2P Require Import Prelude.
Local Open Scope Z_scope.

(** ** Data *)

Definition PAGE_SIZE : Z := 4096.
Definition NGX_ALIGNMENT : Z := 8.

(** [sizeof] of the three headers on a 64-bit machine. *)
Definition sizeof_pool : Z := 24.
Definition sizeof_block : Z := 48.
Definition sizeof_large : Z := 16.

(** [base] is the address of the header; the order of the chain is that of the
    list of blocks, and every block's [pool] pointer is that of its pool. *)
Record ngx_block_s := Block {
  base : Z; start : Z; end_ : Z; last : Z; ref : Z; faild : Z
}.

Record ngx_large_s := Large { l_addr : Z; l_size : Z }.

(** [curr] is the position in the chain of the block that [pool->curr] points to. *)
Record ngx_pool_s := Pool {
  p_addr : Z;
  large : list ngx_large_s;
  blocks : list ngx_block_s;
  curr : nat
}.

(** The system allocator as a function of the arguments of the next call. *)
Record allocator := {
  malloc : Z → option Z;
  posix_memalign : Z → Z → option Z
}.

(** ** Operations *)

Definition ngx_align_ptr (p : Z) : Z :=
  Z.land (wrap 64 (p + (NGX_ALIGNMENT - 1))) (Z.lnot (NGX_ALIGNMENT - 1)).

Definition ngx_create_pool (al : allocator) (size : Z) : option ngx_pool_s :=
  let size := if (size <? PAGE_SIZE) || negb (size mod PAGE_SIZE =? 0) then PAGE_SIZE else size in
  a ← posix_memalign al NGX_ALIGNMENT size;
  let last := a + sizeof_pool + sizeof_block in
  Some (Pool a [] [Block (a + sizeof_pool) last (a + PAGE_SIZE) last 0 0] 0).

(** The arguments of the calls of [free], in order. *)
Definition ngx_destroy_pool (pool : option ngx_pool_s) : list Z :=
  match pool with
  | None => []
  | Some pool => (base <$> tail (blocks pool)) ++ (l_addr <$> large pool) ++ [p_addr pool]
  end.

(** The body is a to-do comment. *)
Definition ngx_reset_pool (pool : ngx_pool_s) : ngx_pool_s := pool.

(** The walk of [ngx_palloc] along the chain: [size_t] arithmetic on
    [end - mem_addr]. *)
Fixpoint cut_block (size : Z) (bs : list ngx_block_s) : option (Z * list ngx_block_s) :=
  match bs with
  | [] => None
  | b :: bs =>
      let mem_addr := ngx_align_ptr (last b) in
      if size <=? wrap 64 (end_ b - mem_addr) then
        Some (mem_addr,
          Block (base b) (start b) (end_ b) (mem_addr + size) (wrap 32 (ref b + 1)) (faild b) :: bs)
      else
        '(a, bs) ← cut_block size bs;
        Some (a, b :: bs)
  end.

(** The loop of [ngx_allocate_block] over the chain from [pool->curr] on: every
    block but the last counts a failure, and [current] moves past a block that
    had counted more than four. *)
Fixpoint count_failures (pos current : nat) (bs : list ngx_block_s) : nat * list ngx_block_s :=
  match bs with
  | [] => (current, [])
  | [b] => (current, [b])
  | b :: bs =>
      let current := if 4 <? faild b then S pos else current in
      let b := Block (base b) (start b) (end_ b) (last b) (ref b) (wrap 32 (faild b + 1)) in
      let '(current, bs) := count_failures (S pos) current bs in
      (current, b :: bs)
  end.

Definition ngx_allocate_block (al : allocator) (pool : ngx_pool_s) (size : Z)
    : option Z * ngx_pool_s :=
  match posix_memalign al PAGE_SIZE PAGE_SIZE with
  | None => (None, pool)
  | Some block =>
      let start := block + sizeof_block in
      let new_block := Block block start (block + PAGE_SIZE) (start + size) 1 0 in
      let '(current, bs) := count_failures (curr pool) (curr pool) (drop (curr pool) (blocks pool)) in
      (Some start,
       Pool (p_addr pool) (large pool) (take (curr pool) (blocks pool) ++ bs ++ [new_block]) current)
  end.

Definition ngx_allocate_large (al : allocator) (pool : ngx_pool_s) (size : Z)
    : option Z * ngx_pool_s :=
  match malloc al (wrap 64 (size + sizeof_large)) with
  | None => (None, pool)
  | Some a =>
      (Some (a + sizeof_large),
       Pool (p_addr pool) (large pool ++ [Large a size]) (blocks pool) (curr pool))
  end.

Definition ngx_palloc (al : allocator) (pool : ngx_pool_s) (size : Z) : option Z * ngx_pool_s :=
  if size <=? 0 then (None, pool)
  else if PAGE_SIZE - sizeof_block <? size then ngx_allocate_large al pool size
  else
    match cut_block size (drop (curr pool) (blocks pool)) with
    | Some (a, bs) =>
        (Some a, Pool (p_addr pool) (large pool) (take (curr pool) (blocks pool) ++ bs) (curr pool))
    | None => ngx_allocate_block al pool size
    end.

Fixpoint free_small (p : Z) (bs : list ngx_block_s) : option (list ngx_block_s) :=
  match bs with
  | [] => None
  | b :: bs =>
      if (start b <=? p) && (p <=? end_ b) then
        let r := wrap 32 (ref b - 1) in
        Some (Block (base b) (start b) (end_ b) (if r =? 0 then start b else last b) r (faild b) :: bs)
      else (b ::.) <$> free_small p bs
  end.

(** The chain without the large allocation, and the argument of [free]. *)
Fixpoint free_large (p : Z) (ls : list ngx_large_s) : list ngx_large_s * option Z :=
  match ls with
  | [] => ([], None)
  | l :: ls =>
      if p =? l_addr l + sizeof_large then (ls, Some (p - sizeof_large))
      else let '(ls, f) := free_large p ls in (l :: ls, f)
  end.

(** [ngx_free(pool, p)]: 0 is the null pointer. *)
Definition ngx_free (pool : ngx_pool_s) (p : Z) : ngx_pool_s * option Z :=
  if p =? 0 then (pool, None)
  else
    match free_small p (blocks pool) with
    | Some bs => (Pool (p_addr pool) (large pool) bs (curr pool), None)
    | None =>
        let '(ls, f) := free_large p (large pool) in
        (Pool (p_addr pool) ls (blocks pool) (curr pool), f)
    end.

(** ** Specification *)

(** The memory a pool owns: its first page, its other blocks, its large ones. *)
Definition block_region (b : ngx_block_s) : region := (base b, PAGE_SIZE).
Definition large_region (l : ngx_large_s) : region := (l_addr l, l_size l + sizeof_large).
Definition large_user (l : ngx_large_s) : region := (l_addr l + sizeof_large, l_size l).

Definition owned (pool : ngx_pool_s) : list region :=
  (p_addr pool, PAGE_SIZE) :: (block_region <$> tail (blocks pool)) ++ (large_region <$> large pool).

(** What the system allocator promises with respect to the memory in use. *)
Definition fresh_region (used : list region) (r : region) : Prop :=
  0 < r.1 ∧ r.1 + r.2 ≤ 2 ^ 63 ∧ Forall (disjoint_regions r) used.

Record alloc_spec (al : allocator) (used : list region) : Prop := {
  malloc_fresh n a : malloc al n = Some a → fresh_region used (a, n) ∧ a mod 8 = 0;
  memalign_fresh k n a : posix_memalign al k n = Some a → fresh_region used (a, n) ∧ a mod k = 0
}.

(** A block and the regions handed out from it. *)
Record block_ok (b : ngx_block_s) (live : list region) : Prop := {
  bo_order : base b < start b ∧ start b ≤ last b ≤ end_ b;
  bo_align : start b mod 8 = 0 ∧ end_ b mod 8 = 0;
  bo_range : 0 < base b ∧ end_ b ≤ 2 ^ 63 ∧ end_ b - start b ≤ PAGE_SIZE;
  bo_ref : ref b = Z.of_nat (length live) ∧ ref b ≤ last b - start b;
  bo_live : Forall (λ r, start b ≤ r.1 ∧ r.1 + r.2 ≤ last b ∧ 0 < r.2 ∧ r.1 mod 8 = 0) live;
  bo_disj : pairwise disjoint_regions live
}.

(** Where each block lies: the head in the pool's own page, the others in a
    page of their own. *)
Definition layout (pool : ngx_pool_s) : Prop :=
  match blocks pool with
  | [] => False
  | b :: bs =>
      p_addr pool < base b ∧ end_ b = p_addr pool + PAGE_SIZE ∧
      Forall (λ b, end_ b = base b + PAGE_SIZE) bs
  end.

Record pool_parts (pool : ngx_pool_s) (small : list (list region)) : Prop := {
  pp_blocks : Forall2 block_ok (blocks pool) small;
  pp_layout : layout pool;
  pp_owned : pairwise disjoint_regions (owned pool);
  pp_large : Forall (λ l, 0 < l_addr l ∧ 0 < l_size l ∧ l_addr l mod 8 = 0) (large pool);
  pp_curr : (curr pool < length (blocks pool))%nat
}.

(** [live] is what the pool's users hold. *)
Definition pool_inv (pool : ngx_pool_s) (live : list region) : Prop :=
  ∃ small, pool_parts pool small ∧ live ≡ₚ concat small ++ (large_user <$> large pool).

(** ** Lemmas *)

(** *** Alignment *)

Lemma align_ptr_spec p : 0 ≤ p ≤ 2 ^ 63 → ngx_align_ptr p = (p + 7) / 8 * 8.
Proof.
  intros Hp. unfold ngx_align_ptr, NGX_ALIGNMENT. change (8 - 1) with (Z.ones 3) at 2.
  rewrite <- Z.ldiff_land, Z.ldiff_ones_r, Z.shiftl_mul_pow2, Z.shiftr_div_pow2 by lia.
  rewrite wrap_small; [done | lia].
Qed.

(** *** Blocks *)

Definition shape (b : ngx_block_s) : Z * Z := (base b, end_ b).

Definition extent (b : ngx_block_s) : region := (base b, end_ b - base b).

#[export] Instance block_ok_perm b : Proper ((≡ₚ) ==> iff) (block_ok b).
Proof.
  assert (H : ∀ l k, l ≡ₚ k → block_ok b l → block_ok b k).
  { intros l k Hp []. split; try done.
    - by rewrite <- Hp.
    - by rewrite <- Hp.
    - by rewrite <- Hp. }
  intros l k Hp. split; apply H; [done | by symmetry].
Qed.

Lemma cut_block_ok b live size :
  block_ok b live → 0 < size ≤ PAGE_SIZE →
  let a := ngx_align_ptr (last b) in
  size ≤ wrap 64 (end_ b - a) →
  block_ok (Block (base b) (start b) (end_ b) (a + size) (wrap 32 (ref b + 1)) (faild b))
    ((a, size) :: live).
Proof.
  intros [Ho Ha Hr Href Hl Hd] Hs a Hfit. unfold PAGE_SIZE in *.
  assert (Hal : last b ≤ a ≤ end_ b ∧ a mod 8 = 0).
  { unfold a. rewrite align_ptr_spec by lia. lia. }
  rewrite wrap_small in Hfit by lia.
  split; simpl; unfold PAGE_SIZE; try lia.
  - rewrite wrap_small by lia. lia.
  - apply Forall_cons. split; [simpl; lia|].
    eapply Forall_impl; [exact Hl|]. intros r Hb. simpl in *. lia.
  - split; [|done]. eapply Forall_impl; [exact Hl|]. intros r Hb.
    unfold disjoint_regions. simpl in *. lia.
Qed.

Lemma cut_block_spec bs lives size a bs' :
  Forall2 block_ok bs lives → 0 < size ≤ PAGE_SIZE → cut_block size bs = Some (a, bs') →
  ∃ lives', Forall2 block_ok bs' lives' ∧ concat lives' ≡ₚ (a, size) :: concat lives ∧
    shape <$> bs' = shape <$> bs.
Proof.
  intros H Hs. revert bs' . induction H as [|b l bs lives Hb Hbs IH]; intros bs' Hc; [done|].
  cbn [cut_block] in Hc. case_match eqn:Hfit.
  - simplify_eq. apply Z.leb_le in Hfit. eexists (((_, size) :: l) :: lives). split_and!.
    + constructor; [by apply cut_block_ok | done].
    + done.
    + done.
  - destruct (cut_block size bs) as [[a' bs'']|]; [|done]. simplify_eq/=.
    destruct (IH _ eq_refl) as (lives' & Hl & Hp & Hsh). exists (l :: lives'). split_and!.
    + by constructor.
    + simpl. rewrite Hp. by rewrite Permutation_middle.
    + by rewrite Hsh.
Qed.

Lemma count_failures_cons pos current b bs :
  bs ≠ [] →
  count_failures pos current (b :: bs)
  = let '(c, bs) := count_failures (S pos) (if 4 <? faild b then S pos else current) bs in
    (c, Block (base b) (start b) (end_ b) (last b) (ref b) (wrap 32 (faild b + 1)) :: bs).
Proof. by destruct bs. Qed.

Lemma count_failures_spec bs lives pos current current' bs' :
  Forall2 block_ok bs lives → (current < pos + length bs)%nat →
  count_failures pos current bs = (current', bs') →
  Forall2 block_ok bs' lives ∧ shape <$> bs' = shape <$> bs ∧ (current' < pos + length bs)%nat.
Proof.
  intros H. revert pos current current' bs'.
  induction H as [|b l bs lives Hb Hbs IH]; intros pos cur cur' bs' Hlt Hc; [by simplify_eq/=|].
  destruct (decide (bs = [])) as [->|Hne].
  { simplify_eq/=. split_and!; [by constructor | done | lia]. }
  rewrite count_failures_cons in Hc by done. set (cur1 := if 4 <? faild b then S pos else cur) in Hc.
  assert (Hcur1 : (cur1 < S pos + length bs)%nat).
  { destruct bs; [done|]. subst cur1. cbn [length] in *. destruct (4 <? faild b); lia. }
  destruct (count_failures (S pos) cur1 bs) as [c r] eqn:Hr. simplify_eq.
  destruct (IH _ _ _ _ Hcur1 Hr) as (Hok & Hsh & Hc). split_and!.
  - constructor; [|done]. destruct Hb; by split.
  - by rewrite !fmap_cons, Hsh.
  - simpl in *. lia.
Qed.

Lemma free_block_ok b live a n :
  block_ok b ((a, n) :: live) →
  let r := wrap 32 (ref b - 1) in
  block_ok (Block (base b) (start b) (end_ b) (if r =? 0 then start b else last b) r (faild b)) live.
Proof.
  intros [Ho Ha Hr Href Hl Hd] r. cbn [length] in Href. unfold PAGE_SIZE in *.
  apply Forall_cons in Hl as [Hx Hl]. destruct Hd as [_ Hd]. simpl in Hx.
  assert (Hrv : r = ref b - 1) by (apply wrap_small; lia).
  destruct (Z.eqb_spec r 0) as [H0|H0].
  - destruct live; [|simpl in *; lia]. split; simpl; unfold PAGE_SIZE; try lia; done.
  - split; simpl; unfold PAGE_SIZE; try lia; done.
Qed.

Lemma block_contains b live a n :
  block_ok b live → (a, n) ∈ live → start b ≤ a < end_ b.
Proof. intros [] Hin. rewrite Forall_forall in bo_live0. specialize (bo_live0 _ Hin). simpl in *. lia. Qed.

Lemma free_small_spec bs lives a n :
  Forall2 block_ok bs lives → pairwise disjoint_regions (extent <$> bs) → (a, n) ∈ concat lives →
  ∃ bs' lives', free_small a bs = Some bs' ∧ Forall2 block_ok bs' lives' ∧
    shape <$> bs' = shape <$> bs ∧ concat lives ≡ₚ (a, n) :: concat lives'.
Proof.
  induction 1 as [|b l bs lives Hb Hbs IH]; intros Hd Hin; [by apply elem_of_nil in Hin|].
  destruct Hd as [Hbd Hd]. cbn [concat] in Hin. apply elem_of_app in Hin as [Hin|Hin].
  - pose proof (block_contains b l a n Hb Hin) as Hr. apply elem_of_Permutation in Hin as [k Hk].
    rewrite Hk in Hb. cbn [free_small].
    destruct (Z.leb_spec (start b) a); [|lia]. destruct (Z.leb_spec a (end_ b)); [|lia].
    cbn [andb]. eexists _, (k :: lives). split_and!; [done| | done |].
    + constructor; [|done]. by eapply free_block_ok.
    + simpl. by rewrite Hk.
  - destruct (IH Hd Hin) as (bs' & lives' & Hf & Hok & Hsh & Hp). cbn [free_small].
    assert (Hout : (start b <=? a) && (a <=? end_ b) = false).
    { apply elem_of_concat in Hin as (l2 & Hl2 & Hin2).
      apply list_elem_of_lookup in Hin2 as [i Hi].
      destruct (Forall2_lookup_r _ _ _ _ _ Hbs Hi) as (b2 & Hb2 & Hok2).
      pose proof (block_contains b2 l2 a n Hok2 Hl2) as Hr.
      assert (Hb2in : extent b2 ∈ extent <$> bs) by (apply list_elem_of_fmap_2, list_elem_of_lookup; eauto).
      rewrite Forall_forall in Hbd. specialize (Hbd _ Hb2in).
      destruct Hb as [Ho _ _ _ _ _], Hok2 as [Ho2 _ _ _ _ _].
      unfold disjoint_regions, extent in Hbd. simpl in Hbd. rewrite andb_false_iff, !Z.leb_gt. lia. }
    rewrite Hout, Hf. exists (b :: bs'), (l :: lives'). split_and!; [done | by constructor | by rewrite !fmap_cons, Hsh |].
    simpl. rewrite Hp. by rewrite Permutation_middle.
Qed.

Lemma free_small_none bs lives a :
  Forall2 block_ok bs lives → Forall (λ o, a < o.1 ∨ o.1 + o.2 < a) (extent <$> bs) →
  free_small a bs = None.
Proof.
  induction 1 as [|b l bs lives Hb Hbs IH]; intros Hf; [done|]. apply Forall_cons in Hf as [Ha Hf].
  cbn [free_small]. destruct Hb as [Ho _ _ _ _ _]. simpl in Ha.
  assert ((start b <=? a) && (a <=? end_ b) = false) as ->
    by (rewrite andb_false_iff, !Z.leb_gt; lia).
  by rewrite (IH Hf).
Qed.

Lemma free_large_spec ls l :
  l ∈ ls → pairwise (λ l1 l2, l_addr l1 ≠ l_addr l2) ls →
  ∃ ls', free_large (l_addr l + sizeof_large) ls = (ls', Some (l_addr l)) ∧ ls ≡ₚ l :: ls'.
Proof.
  induction ls as [|l1 ls IH]; intros Hin Hd; [by apply elem_of_nil in Hin|].
  destruct Hd as [Hl1 Hd]. cbn [free_large].
  destruct (Z.eqb_spec (l_addr l + sizeof_large) (l_addr l1 + sizeof_large)) as [He|Hne].
  - apply elem_of_cons in Hin as [->|Hin].
    + exists ls. split; [|done]. do 2 f_equal. lia.
    + rewrite Forall_forall in Hl1. specialize (Hl1 l Hin). lia.
  - apply elem_of_cons in Hin as [->|Hin]; [lia|].
    destruct (IH Hin Hd) as (ls' & -> & Hp). exists (l1 :: ls'). split; [done|].
    rewrite Hp. constructor.
Qed.

(** *** Pools *)

(** The regions around what is handed out: blocks, then large allocations. *)
Definition outer (pool : ngx_pool_s) : list region :=
  (extent <$> blocks pool) ++ (large_region <$> large pool).

Lemma outer_inside pool : layout pool → Forall2 inside (outer pool) (owned pool).
Proof.
  intros H. unfold outer, owned, layout in *. destruct (blocks pool) as [|b bs]; [done|].
  destruct H as (Ha & He & Hbs). simpl. constructor.
  { unfold inside. simpl. lia. }
  apply Forall2_app.
  - clear He. induction Hbs as [|b' bs Hb' _ IH]; simpl; constructor; [|done].
    unfold inside. simpl. lia.
  - induction (large pool); simpl; constructor; [|done]. unfold inside. lia.
Qed.

Lemma outer_disjoint pool small :
  pool_parts pool small → pairwise disjoint_regions (outer pool).
Proof. intros []. eapply pairwise_inside; [by apply outer_inside | done]. Qed.

(** What a pool owns depends on the shape of its blocks only. *)
Lemma owned_shape pool bs c :
  shape <$> bs = shape <$> blocks pool →
  let pool' := Pool (p_addr pool) (large pool) bs c in
  owned pool' = owned pool ∧ (layout pool → layout pool').
Proof.
  intros Hsh. unfold owned, layout. simpl.
  destruct bs as [|b bs], (blocks pool) as [|b1 bs1]; try done. cbn in Hsh. cbn [tail].
  injection Hsh as Hb He Hbs.
  assert (Hbr : block_region <$> bs = block_region <$> bs1).
  { transitivity ((λ s, (s.1, PAGE_SIZE)) <$> (shape <$> bs)); [by rewrite <- list_fmap_compose|].
    rewrite Hbs. by rewrite <- list_fmap_compose. }
  split; [by rewrite Hbr|]. rewrite Hb, He. intros (Ha & Hend & Hall). split_and!; [done..|].
  clear -Hbs Hall. revert bs Hbs. induction Hall as [|b1 bs1 Hb1 _ IH]; intros [|b bs] Hbs; try done.
  cbn in Hbs. injection Hbs as Hb He Hbs. constructor; [congruence|by apply IH].
Qed.

Lemma parts_shape pool bs lives c :
  (∃ small, pool_parts pool small) → Forall2 block_ok bs lives →
  shape <$> bs = shape <$> blocks pool → (c < length bs)%nat →
  pool_parts (Pool (p_addr pool) (large pool) bs c) lives.
Proof.
  intros [small []] Hok Hsh Hc. destruct (owned_shape pool bs c Hsh) as [Ho Hl].
  split; [done | by apply Hl | by rewrite Ho | done | done].
Qed.

Lemma length_shape bs bs' : shape <$> bs = shape <$> bs' → length bs = length bs'.
Proof. intros H%(f_equal length). by rewrite !length_fmap in H. Qed.

Lemma take_drop_blocks n (bs : list ngx_block_s) lives :
  Forall2 block_ok bs lives →
  Forall2 block_ok (take n bs) (take n lives) ∧ Forall2 block_ok (drop n bs) (drop n lives).
Proof. intros H. split; [by apply Forall2_take | by apply Forall2_drop]. Qed.

Lemma palloc_small pool small size a bs :
  pool_parts pool small → 0 < size ≤ PAGE_SIZE →
  cut_block size (drop (curr pool) (blocks pool)) = Some (a, bs) →
  ∃ small', pool_parts
    (Pool (p_addr pool) (large pool) (take (curr pool) (blocks pool) ++ bs) (curr pool)) small' ∧
    concat small' ≡ₚ (a, size) :: concat small.
Proof.
  intros H Hs Hc. destruct (take_drop_blocks (curr pool) _ _ (pp_blocks _ _ H)) as [Ht Hd].
  destruct (cut_block_spec _ _ _ _ _ Hd Hs Hc) as (lives & Hok & Hp & Hsh).
  exists (take (curr pool) small ++ lives). split.
  - apply parts_shape; [by exists small | by apply Forall2_app | |].
    + by rewrite fmap_app, Hsh, <- fmap_app, take_drop.
    + pose proof (pp_curr _ _ H). apply length_shape in Hsh. rewrite length_drop in Hsh.
      rewrite length_app, length_take. lia.
  - assert (Hsm : concat small = concat (take (curr pool) small) ++ concat (drop (curr pool) small))
      by (rewrite <- concat_app; by rewrite take_drop).
    rewrite Hsm, concat_app, Hp. by rewrite Permutation_middle.
Qed.

Lemma palloc_block al pool small size r pool' :
  pool_parts pool small → alloc_spec al (owned pool) → 0 < size ≤ PAGE_SIZE - sizeof_block →
  ngx_allocate_block al pool size = (r, pool') →
  match r with
  | Some a => ∃ small', pool_parts pool' small' ∧ concat small' ≡ₚ (a, size) :: concat small ∧
                large pool' = large pool
  | None => pool' = pool
  end.
Proof.
  intros H Hal Hs Hr. unfold ngx_allocate_block in Hr.
  destruct (posix_memalign al PAGE_SIZE PAGE_SIZE) as [a|] eqn:Ha; [|by simplify_eq].
  apply (memalign_fresh _ _ Hal) in Ha as [(Hpos & Hmax & Hfresh) Halign]. simpl in Hpos, Hmax.
  destruct (take_drop_blocks (curr pool) _ _ (pp_blocks _ _ H)) as [Ht Hd].
  destruct (count_failures _ _ _) as [cur bs] eqn:Hcf. simplify_eq.
  pose proof (pp_curr _ _ H) as Hcurr.
  apply (count_failures_spec _ _ _ _ _ _ Hd) in Hcf as (Hok & Hsh & Hcur);
    [|rewrite length_drop; lia].
  rewrite length_drop in Hcur.
  set (nb := Block _ _ _ _ _ _). set (bs1 := take (curr pool) (blocks pool) ++ bs).
  assert (Hsh1 : shape <$> bs1 = shape <$> blocks pool).
  { unfold bs1. by rewrite fmap_app, Hsh, <- fmap_app, take_drop. }
  pose proof (length_shape _ _ Hsh1) as Hlen.
  assert (H1 : pool_parts (Pool (p_addr pool) (large pool) bs1 cur) small).
  { apply parts_shape; [by exists small | | done | lia].
    rewrite <- (take_drop (curr pool) small). by apply Forall2_app. }
  destruct (owned_shape pool bs1 cur Hsh1) as [Ho _].
  assert (Hnb : block_ok nb [(a + sizeof_block, size)]).
  { unfold nb, sizeof_block, PAGE_SIZE in *.
    split; simpl; unfold PAGE_SIZE; try lia; [|by rewrite Forall_nil].
    constructor; [simpl; lia|done]. }
  exists (small ++ [[(a + sizeof_block, size)]]). split; [|split; [|done]].
  - unfold bs1 in H1. rewrite (app_assoc _ bs). fold bs1. fold bs1 in H1.
    destruct H1 as [Hb1 Hl1 Ho1 Hlg1 Hc1]. clearbody bs1. cbn [blocks large curr p_addr] in *.
    split; cbn [blocks large curr p_addr]; [| | |done|].
    + apply Forall2_app; [done|]. constructor; [exact Hnb | constructor].
    + unfold layout in *. simpl in *. destruct bs1; [done|]. simpl.
      destruct Hl1 as (? & ? & ?). split_and!; [done..|]. apply Forall_app. split; [done|].
      by repeat constructor.
    + assert (Hperm : owned (Pool (p_addr pool) (large pool) (bs1 ++ [nb]) cur)
                      ≡ₚ block_region nb :: owned pool).
      { rewrite <- Ho. unfold owned. simpl. destruct bs1 as [|b bs1]; [done|]. simpl.
        rewrite fmap_app. simpl. rewrite <- app_assoc. simpl.
        rewrite <- Permutation_middle. by rewrite Permutation_swap. }
      rewrite Hperm. split; [exact Hfresh | by apply H].
    + rewrite length_app. simpl. lia.
  - rewrite concat_app. simpl. by rewrite <- Permutation_cons_append.
Qed.

Lemma palloc_large al pool small size r pool' :
  pool_parts pool small → alloc_spec al (owned pool) → 0 < size < 2 ^ 64 - sizeof_large →
  ngx_allocate_large al pool size = (r, pool') →
  match r with
  | Some a => pool_parts pool' small ∧
      (large_user <$> large pool') ≡ₚ (a, size) :: (large_user <$> large pool)
  | None => pool' = pool
  end.
Proof.
  intros H Hal Hs Hr. unfold ngx_allocate_large in Hr. rewrite wrap_small in Hr by (unfold sizeof_large in *; lia).
  destruct (malloc al (size + sizeof_large)) as [a|] eqn:Ha; [|by simplify_eq]. simplify_eq.
  apply (malloc_fresh _ _ Hal) in Ha as [(Hpos & Hmax & Hfresh) Halign]. simpl in Hpos.
  split.
  - destruct H as [Hb Hl Ho Hlg Hc]. split; cbn [blocks large curr p_addr]; [done|done| | |done].
    + assert (Hperm : owned (Pool (p_addr pool) (large pool ++ [Large a size]) (blocks pool) (curr pool))
                      ≡ₚ large_region (Large a size) :: owned pool).
      { unfold owned. simpl. rewrite fmap_app, app_assoc. simpl.
        by rewrite <- Permutation_cons_append, Permutation_swap. }
      rewrite Hperm. by split.
    + apply Forall_app. split; [done|]. repeat constructor; simpl; lia.
  - simpl. rewrite fmap_app. simpl. by rewrite <- Permutation_cons_append.
Qed.

(** [ngx_palloc] keeps the invariant; it fails only with the system allocator. *)
Lemma palloc_inv al pool live size r pool' :
  pool_inv pool live → alloc_spec al (owned pool) → 0 < size < 2 ^ 64 - sizeof_large →
  ngx_palloc al pool size = (r, pool') →
  match r with
  | Some a => pool_inv pool' ((a, size) :: live)
  | None => pool' = pool
  end.
Proof.
  intros (small & H & Hlive) Hal Hs Hr. unfold ngx_palloc in Hr.
  destruct (Z.leb_spec size 0); [lia|].
  destruct (Z.ltb_spec (PAGE_SIZE - sizeof_block) size).
  - pose proof (palloc_large al pool small size r pool' H Hal Hs Hr) as Hp.
    destruct r as [a|]; [|done]. destruct Hp as [H' Hp]. exists small. split; [done|].
    by rewrite Hp, Hlive, Permutation_middle.
  - destruct (cut_block _ _) as [[a bs]|] eqn:Hc.
    + simplify_eq. destruct (palloc_small pool small size a bs H) as (small' & H' & Hp);
        [unfold PAGE_SIZE, sizeof_block in *; lia | done |].
      exists small'. split; [done|]. simpl. by rewrite Hp, Hlive.
    + pose proof (palloc_block al pool small size r pool' H Hal ltac:(lia) Hr) as Hp.
      destruct r as [a|]; [|done]. destruct Hp as (small' & H' & Hp & Hl).
      exists small'. split; [done|]. by rewrite Hp, Hl, Hlive.
Qed.

Lemma larges_distinct pool small :
  pool_parts pool small → pairwise (λ l1 l2, l_addr l1 ≠ l_addr l2) (large pool).
Proof.
  intros H. pose proof (outer_disjoint pool small H) as Hd. apply pairwise_app in Hd as (_ & Hd & _).
  pose proof (pp_large _ _ H) as Hl. clear H. induction Hl as [|l ls Hl Hls IH]; simpl in *; [done|].
  destruct Hd as [Hld Hd]. split; [|by apply IH]. clear IH Hd.
  induction Hls as [|l' ls Hl' Hls IH]; [done|]. apply Forall_cons in Hld as [Hx Hld].
  constructor; [|by apply IH]. unfold disjoint_regions, large_region, sizeof_large in Hx.
  simpl in *. lia.
Qed.

(** [ngx_free] of what is held: a small region goes back to its block, a large
    one is handed to [free]. *)
Lemma free_inv pool live live' a n pool' f :
  pool_inv pool live → live ≡ₚ (a, n) :: live' → ngx_free pool a = (pool', f) →
  pool_inv pool' live' ∧
  (f = None ∧ owned pool' = owned pool ∨
   ∃ l, f = Some (l_addr l) ∧ large_user l = (a, n) ∧ owned pool ≡ₚ large_region l :: owned pool').
Proof.
  intros (small & H & Hlive) Hp Hf.
  pose proof (outer_disjoint pool small H) as Hout. unfold outer in Hout.
  apply pairwise_app in Hout as (Hext & _ & Hcross).
  assert (Hin : (a, n) ∈ concat small ++ (large_user <$> large pool))
    by (rewrite <- Hlive, Hp; by left).
  unfold ngx_free in Hf. apply elem_of_app in Hin as [Hin|Hin].
  - destruct (free_small_spec _ _ a n (pp_blocks _ _ H) Hext Hin) as (bs & lives & Hfs & Hok & Hsh & Hpl).
    assert (Ha0 : a ≠ 0).
    { apply elem_of_concat in Hin as (g & Hg & Hgs). apply list_elem_of_lookup in Hgs as [i Hi].
      destruct (Forall2_lookup_r _ _ _ _ _ (pp_blocks _ _ H) Hi) as (b & _ & Hb).
      pose proof (block_contains b g a n Hb Hg). destruct Hb. lia. }
    destruct (Z.eqb_spec a 0); [done|]. rewrite Hfs in Hf. simplify_eq.
    destruct (owned_shape pool bs (curr pool) Hsh) as [Ho _].
    split; [|by left]. exists lives. split.
    + apply parts_shape; [by exists small | done | done |].
      rewrite (length_shape _ _ Hsh). apply H.
    + simpl. apply (Permutation.Permutation_cons_inv (a := (a, n))).
      by rewrite <- Hp, Hlive, Hpl.
  - apply list_elem_of_fmap in Hin as (l & Hl & Hlin).
    assert (Hlo : 0 < l_addr l ∧ 0 < l_size l).
    { pose proof (pp_large _ _ H) as Hlg. rewrite Forall_forall in Hlg. destruct (Hlg l Hlin); tauto. }
    unfold large_user in Hl. simplify_eq.
    destruct (Z.eqb_spec (l_addr l + sizeof_large) 0); [unfold sizeof_large in *; lia|].
    rewrite (free_small_none (blocks pool) small) in Hf; [|by apply H|].
    2: { eapply Forall_impl; [exact Hcross|]. intros o Ho. rewrite Forall_forall in Ho.
         specialize (Ho (large_region l) ltac:(by apply list_elem_of_fmap_2)).
         unfold disjoint_regions, large_region, sizeof_large in *. simpl in Ho. lia. }
    destruct (free_large_spec (large pool) l Hlin (larges_distinct pool small H)) as (ls & Hfl & Hpl).
    rewrite Hfl in Hf. simplify_eq.
    assert (Hperm : owned pool ≡ₚ
      large_region l :: owned (Pool (p_addr pool) ls (blocks pool) (curr pool))).
    { unfold owned. simpl. rewrite Hpl, fmap_cons.
      by rewrite <- (Permutation_middle (block_region <$> _)), Permutation_swap. }
    split; [|right; by exists l]. exists small. split.
    + destruct H as [Hb Hly Ho Hlg Hc]. split; cbn [blocks large curr p_addr]; [done|done| | |done].
      * rewrite Hperm in Ho. apply Ho.
      * rewrite Hpl in Hlg. apply Forall_cons in Hlg. apply Hlg.
    + simpl. apply (Permutation.Permutation_cons_inv (a := (l_addr l + sizeof_large, l_size l))).
      rewrite <- Hp, Hlive, Hpl, fmap_cons. by rewrite <- Permutation_middle.
Qed.

Lemma concat_singles {A B} (f : A → B) l : concat ((λ x, [f x]) <$> l) = f <$> l.
Proof. induction l as [|x l IH]; [done|]. rewrite !fmap_cons. cbn [concat app]. by rewrite IH. Qed.

(** What is held lies inside what is owned, and no two held regions overlap. *)
Lemma live_safe pool live :
  pool_inv pool live →
  pairwise disjoint_regions live ∧
  Forall (λ r, 0 < r.2 ∧ r.1 mod NGX_ALIGNMENT = 0 ∧ ∃ o, o ∈ owned pool ∧ inside r o) live.
Proof.
  intros (small & H & Hlive). rewrite Hlive. split.
  - rewrite <- concat_singles, <- concat_app.
    apply (pairwise_groups (outer pool)); [|by eapply outer_disjoint].
    apply Forall2_app.
    + apply Forall2_fmap_l. eapply Forall2_impl; [apply H|]. intros b g [Ho _ _ _ Hl Hd].
      split; [|done]. eapply Forall_impl; [exact Hl|]. intros r Hr. unfold inside. simpl in *. lia.
    + apply Forall2_fmap. apply Forall_Forall2_diag, Forall_forall. intros l _.
      split; [|simpl; split; [done|done]]. constructor; [|done]. unfold inside, large_region, large_user, sizeof_large. simpl. lia.
  - assert (Hown : ∀ o, o ∈ outer pool → ∃ o', o' ∈ owned pool ∧ inside o o').
    { intros o [i Hi]%list_elem_of_lookup.
      destruct (Forall2_lookup_l _ _ _ _ _ (outer_inside pool (pp_layout _ _ H)) Hi) as (o' & Ho' & Hins).
      exists o'. split; [by eapply list_elem_of_lookup_2 | done]. }
    apply Forall_app. split; apply Forall_forall.
    + intros r (g & Hg & Hgs)%elem_of_concat. apply list_elem_of_lookup in Hgs as [i Hi].
      destruct (Forall2_lookup_r _ _ _ _ _ (pp_blocks _ _ H) Hi) as (b & Hb & [Ho _ _ _ Hl _]).
      rewrite Forall_forall in Hl. specialize (Hl r Hg). simpl in Hl.
      split_and!; [lia | unfold NGX_ALIGNMENT; lia |].
      destruct (Hown (extent b)) as (o' & Ho' & Hins).
      { apply elem_of_app. left. apply list_elem_of_fmap_2. by eapply list_elem_of_lookup_2. }
      exists o'. split; [done|]. unfold inside, extent in *. simpl in *. lia.
    + intros r (l & -> & Hl)%list_elem_of_fmap. pose proof (pp_large _ _ H) as Hlg.
      rewrite Forall_forall in Hlg. specialize (Hlg l Hl). simpl in *.
      unfold large_user, NGX_ALIGNMENT, sizeof_large in *. simpl in *. split_and!; [lia | lia |].
      exists (large_region l). split.
      * unfold owned. right. apply elem_of_app. right. by apply list_elem_of_fmap_2.
      * unfold inside, large_region, large_user, sizeof_large. simpl. lia.
Qed.

(** *** Runs *)

(** A pool in use: the pool and the regions its users hold. *)
Inductive pool_step : ngx_pool_s * list region → ngx_pool_s * list region → Prop :=
| ps_alloc al pool live size a pool' :
    alloc_spec al (owned pool) → 0 < size < 2 ^ 64 - sizeof_large →
    ngx_palloc al pool size = (Some a, pool') →
    pool_step (pool, live) (pool', (a, size) :: live)
| ps_fail al pool live size pool' :
    alloc_spec al (owned pool) → 0 ≤ size < 2 ^ 64 - sizeof_large →
    ngx_palloc al pool size = (None, pool') →
    pool_step (pool, live) (pool', live)
| ps_free pool live live' a n pool' f :
    live ≡ₚ (a, n) :: live' → ngx_free pool a = (pool', f) →
    pool_step (pool, live) (pool', live').

Definition pool_init (s : ngx_pool_s * list region) : Prop :=
  ∃ al size pool, alloc_spec al [] ∧ ngx_create_pool al size = Some pool ∧ s = (pool, []).

Lemma create_inv al size pool :
  alloc_spec al [] → ngx_create_pool al size = Some pool → pool_inv pool [].
Proof.
  intros Hal Hc. unfold ngx_create_pool in Hc.
  destruct (posix_memalign al NGX_ALIGNMENT _) as [a|] eqn:Ha; [|done]. simplify_eq/=.
  apply (memalign_fresh _ _ Hal) in Ha as [(Hpos & Hmax & _) Hm].
  unfold NGX_ALIGNMENT in Hm. simpl in Hpos, Hmax.
  assert (Hmax' : a + PAGE_SIZE ≤ 2 ^ 63).
  { destruct (Z.ltb_spec size PAGE_SIZE); simpl in *; [done|]. destruct (_ =? _); simpl in *; lia. }
  unfold PAGE_SIZE in *.
  exists [[]]. split; [|done]. split; simpl.
  - constructor; [|constructor].
    split; simpl; unfold sizeof_pool, sizeof_block, PAGE_SIZE; try lia; done.
  - unfold layout, sizeof_pool, PAGE_SIZE. simpl. split_and!; [lia | done | constructor].
  - by repeat constructor.
  - constructor.
  - lia.
Qed.

Lemma pool_step_inv s s' : pool_step s s' → pool_inv s.1 s.2 → pool_inv s'.1 s'.2.
Proof.
  intros [al pool live size a pool' Hal Hs Hp | al pool live size pool' Hal Hs Hp | pool live live' a n pool' f Hp Hf] H;
    cbn [fst snd] in *.
  - exact (palloc_inv al pool live size (Some a) pool' H Hal Hs Hp).
  - destruct (decide (size = 0)) as [->|]; [unfold ngx_palloc in Hp; simpl in Hp; by simplify_eq|].
    pose proof (palloc_inv al pool live size None pool' H Hal ltac:(lia) Hp) as ->. done.
  - by apply (free_inv pool live live' a n pool' f).
Qed.

(** ** Properties *)

(** C5: whatever the sequence of allocations and frees, and whenever the system
    allocator fails, the regions in use never overlap, are aligned, lie inside
    memory the pool owns, and the memory it owns never overlaps. *)
Theorem ngx_pool_safe pool live :
  reachable pool_init pool_step (pool, live) →
  pairwise disjoint_regions live ∧ pairwise disjoint_regions (owned pool) ∧
  Forall (λ r, 0 < r.2 ∧ r.1 mod NGX_ALIGNMENT = 0 ∧ ∃ o, o ∈ owned pool ∧ inside r o) live.
Proof.
  intros Hr. assert (H : pool_inv pool live).
  { refine (reachable_invariant pool_init pool_step (λ s, pool_inv s.1 s.2) _ _ (pool, live) Hr).
    - intros s (al & size & p & Hal & Hc & ->). by eapply create_inv.
    - intros s s' Hs Hst. by eapply pool_step_inv. }
  destruct (live_safe pool live H) as [Hd Hin]. destruct H as (small & [] & _). done.
Qed.

(** freeing a region in use terminates the walk at the right block or large
    allocation: the region and nothing else leaves the set of regions in use,
    memory goes back to the system exactly when the region is a large one, and
    then it is the address the system gave. *)
Theorem ngx_free_correct pool live live' a n :
  pool_inv pool live → live ≡ₚ (a, n) :: live' →
  let '(pool', f) := ngx_free pool a in
  pool_inv pool' live' ∧
  match f with
  | None => owned pool' = owned pool
  | Some base => base = a - sizeof_large ∧ owned pool ≡ₚ (base, n + sizeof_large) :: owned pool'
  end.
Proof.
  intros H Hp. destruct (ngx_free pool a) as [pool' f] eqn:Hf.
  destruct (free_inv pool live live' a n pool' f H Hp Hf) as [H' [[-> Ho] | (l & -> & Hl & Ho)]];
    (split; [done|]); [done|].
  unfold large_user in Hl. simplify_eq. split; [lia|]. exact Ho.
Qed.

(** destroying a pool frees every region it owns exactly once. *)
Theorem ngx_destroy_frees_owned pool live :
  pool_inv pool live →
  ngx_destroy_pool (Some pool) ≡ₚ (fst <$> owned pool) ∧ NoDup (ngx_destroy_pool (Some pool)).
Proof.
  intros (small & [] & _). assert (Hp : ngx_destroy_pool (Some pool) ≡ₚ (fst <$> owned pool)).
  { unfold ngx_destroy_pool, owned. simpl. rewrite fmap_app, <- !list_fmap_compose.
    rewrite app_assoc, <- Permutation_cons_append. done. }
  split; [done|]. rewrite Hp. assert (Hpos : Forall (λ r : region, 0 < r.2) (owned pool)).
  { unfold owned. constructor; [done|]. apply Forall_app. split; apply Forall_fmap, Forall_forall.
    - done.
    - intros l Hl. rewrite Forall_forall in pp_large0. specialize (pp_large0 l Hl).
      unfold large_region, sizeof_large. simpl in *. lia. }
  clear -pp_owned0 Hpos. induction (owned pool) as [|r rs IH]; [constructor|].
  destruct pp_owned0 as [Hr Hrs]. apply Forall_cons in Hpos as [Hr0 Hpos].
  rewrite fmap_cons. constructor; [|by apply IH]. intros (r' & Heq & Hin)%list_elem_of_fmap.
  rewrite Forall_forall in Hr, Hpos. specialize (Hr r' Hin). specialize (Hpos r' Hin).
  unfold disjoint_regions in Hr. simpl in *. lia.
Qed.

(** ** Witnesses *)

(** An allocator that serves requests of at most 64 KB at the address [a]. *)
Definition demo_al (a : Z) : allocator := {|
  malloc n := if (0 <? n) && (n <=? 65536) then Some a else None;
  posix_memalign k n :=
    if ((k =? 8) || (k =? 4096)) && ((0 <? n) && (n <=? 65536)) then Some a else None
|}.

Lemma demo_al_spec a used :
  0 < a ≤ 2 ^ 40 → a mod 4096 = 0 → Forall (disjoint_regions (a, 65536)) used →
  alloc_spec (demo_al a) used.
Proof.
  intros Ha Hm Hu.
  assert (Hf : ∀ n, 0 < n ≤ 65536 → fresh_region used (a, n)).
  { intros n Hn. split_and!; simpl; [lia | lia |]. eapply Forall_impl; [exact Hu|].
    intros r. unfold disjoint_regions. simpl. lia. }
  split; simpl.
  - intros n b Hb. destruct (Z.ltb_spec 0 n), (Z.leb_spec n 65536); simplify_eq/=.
    split; [by apply Hf | lia].
  - intros k n b Hb. destruct (Z.ltb_spec 0 n), (Z.leb_spec n 65536);
      rewrite ?andb_false_r in Hb; simplify_eq/=.
    destruct (Z.eqb_spec k 8), (Z.eqb_spec k 4096); simplify_eq/=; (split; [by apply Hf | lia]).
Qed.

Definition demo_pool0 : ngx_pool_s :=
  Pool 8192 [] [Block 8216 8264 12288 8264 0 0] 0.
Definition demo_pool1 : ngx_pool_s :=
  Pool 8192 [] [Block 8216 8264 12288 8364 1 0] 0.
Definition demo_pool2 : ngx_pool_s :=
  Pool 8192 [Large 131072 5000] [Block 8216 8264 12288 8364 1 0] 0.

Lemma demo_pool_init : pool_init (demo_pool0, []).
Proof.
  exists (demo_al 8192), 100, demo_pool0. split_and!; [|done|done].
  apply demo_al_spec; [lia|done|constructor].
Qed.

Lemma demo_pool_steps : rtc pool_step (demo_pool0, []) (demo_pool2, [(131088, 5000); (8264, 100)]).
Proof.
  eapply rtc_l; [|apply rtc_once].
  - eapply (ps_alloc (demo_al 65536) demo_pool0 [] 100 8264 demo_pool1).
    + apply demo_al_spec; [lia|done|]. unfold owned, block_region; simpl.
      repeat (apply Forall_cons_2; [unfold disjoint_regions, PAGE_SIZE; simpl; lia|]). constructor.
    + unfold sizeof_large. lia.
    + reflexivity.
  - eapply (ps_alloc (demo_al 131072) demo_pool1 _ 5000 131088 demo_pool2).
    + apply demo_al_spec; [lia|done|]. unfold owned, block_region; simpl.
      repeat (apply Forall_cons_2; [unfold disjoint_regions, PAGE_SIZE; simpl; lia|]). constructor.
    + unfold sizeof_large. lia.
    + reflexivity.
Qed.

Lemma demo_pool_inv : pool_inv demo_pool2 [(131088, 5000); (8264, 100)].
Proof.
  refine (reachable_invariant pool_init pool_step (λ s, pool_inv s.1 s.2) _ _ (demo_pool2, _) _).
  - intros s (al & size & p & Hal & Hc & ->). by eapply create_inv.
  - intros s s' Hs Hst. by eapply pool_step_inv.
  - eexists. split; [apply demo_pool_init | apply demo_pool_steps].
Qed.

Lemma ngx_pool_safe_witness :
  reachable pool_init pool_step (demo_pool2, [(131088, 5000); (8264, 100)]) ∧
  pairwise disjoint_regions [(131088, 5000); (8264, 100)].
Proof.
  assert (Hr : reachable pool_init pool_step (demo_pool2, [(131088, 5000); (8264, 100)]))
    by (eexists; split; [apply demo_pool_init | apply demo_pool_steps]).
  split; [exact Hr | exact (proj1 (ngx_pool_safe demo_pool2 _ Hr))].
Defined.

Lemma ngx_free_correct_witness :
  ngx_free demo_pool2 131088 = (demo_pool1, Some 131072) ∧ pool_inv demo_pool1 [(8264, 100)].
Proof.
  split; [reflexivity|].
  exact (proj1 (ngx_free_correct demo_pool2 _ [(8264, 100)] 131088 5000 demo_pool_inv ltac:(reflexivity))).
Defined.

Lemma ngx_destroy_frees_owned_witness :
  ngx_destroy_pool (Some demo_pool2) = [131072; 8192] ∧ NoDup [131072; 8192].
Proof.
  split; [reflexivity|].
  exact (proj2 (ngx_destroy_frees_owned demo_pool2 _ demo_pool_inv)).
Defined.
