(* ===== verification/Fifo.v ===== *)
(** * Bounded first-in first-out queues

    What the clients of a queue rely on, as a class of operations and a class
    of laws; what follows from the laws alone; and the ring buffer as the first
    implementation (the pool-allocated queue of core/ is the second, in
    NgxQueue.v). *)

From S2P Require Import Prelude Ringbuffer.

(** ** The interface *)

Class FifoOps (Q A : Type) := {
  fifo_push : A → Q → res (bool * Q);
  fifo_pop : Q → res (option A * Q);
  fifo_rep : Q → list A → Prop;
  fifo_cap : Q → nat
}.

Class FifoLaws (Q A : Type) `{FifoOps Q A} := {
  fifo_push_ok q l (x : A) :
    fifo_rep q l → length l < fifo_cap q →
    ∃ q', fifo_push x q = Ok (true, q') ∧ fifo_rep q' (l ++ [x]) ∧ fifo_cap q' = fifo_cap q;
  fifo_pop_ok q (l : list A) :
    fifo_rep q l →
    ∃ q', fifo_pop q = Ok (head l, q') ∧ fifo_rep q' (tail l) ∧ fifo_cap q' = fifo_cap q
}.

(** ** Clients *)

Section clients.
Context {Q A : Type} `{FifoLaws Q A}.

(** A producer and a consumer that share a queue: [Some x] pushes, [None] pops. *)
Fixpoint fifo_run (ops : list (option A)) (q : Q) : res (list (option A) * Q) :=
  match ops with
  | [] => mret ([], q)
  | Some x :: ops => '(_, q) ← fifo_push x q; fifo_run ops q
  | None :: ops => '(o, q) ← fifo_pop q; '(os, q) ← fifo_run ops q; mret (o :: os, q)
  end.

(** The same on a list; [None] when the bound is exceeded. *)
Fixpoint list_run (cap : nat) (ops : list (option A)) (l : list A)
    : option (list (option A) * list A) :=
  match ops with
  | [] => Some ([], l)
  | Some x :: ops => if length l <? cap then list_run cap ops (l ++ [x]) else None
  | None :: ops => '(os, l') ← list_run cap ops (tail l); Some (head l :: os, l')
  end.

(** The loop [while (not empty) handle(get())] that the consumers run. *)
Definition drain_body (s : Q * list A) : res (Q * list A + list A * Q) :=
  let '(q, out) := s in
  '(o, q) ← fifo_pop q;
  match o with
  | Some x => mret (inl (q, out ++ [x]))
  | None => mret (inr (out, q))
  end.

Definition drain (fuel : nat) (q : Q) : res (list A * Q) := run_loop fuel drain_body (q, []).

Lemma fifo_run_list ops q l os l' :
  fifo_rep q l → list_run (fifo_cap q) ops l = Some (os, l') →
  ∃ q', fifo_run ops q = Ok (os, q') ∧ fifo_rep q' l'.
Proof.
  revert q l os l'. induction ops as [|[x|] ops IH]; intros q l os l' Hq Hl; simpl in *.
  - simplify_eq. by exists q.
  - destruct (Nat.ltb_spec (length l) (fifo_cap q)) as [Hlt|]; [|done].
    destruct (fifo_push_ok q l x Hq Hlt) as (q1 & -> & Hq1 & Hc). simpl.
    rewrite <- Hc in Hl. by apply (IH q1 (l ++ [x])).
  - destruct (fifo_pop_ok q l Hq) as (q1 & -> & Hq1 & Hc). simpl. rewrite <- Hc in Hl.
    destruct (list_run (fifo_cap q1) ops (tail l)) as [[os1 l1]|] eqn:Hr; simplify_eq/=.
    destruct (IH q1 _ _ _ Hq1 Hr) as (q' & -> & Hq'). by exists q'.
Qed.

Lemma drain_list q l fuel :
  fifo_rep q l → length l < fuel → ∃ q', drain fuel q = Ok (l, q') ∧ fifo_rep q' [].
Proof.
  intros Hq Hf. unfold drain.
  assert (Hgen : ∀ l q out fuel, fifo_rep q l → length l < fuel →
    ∃ q', run_loop fuel drain_body (q, out) = Ok (out ++ l, q') ∧ fifo_rep q' []).
  { clear Hq Hf l q fuel. induction l as [|x l IH]; intros q out [|fuel] Hq Hf; simpl in Hf; try lia;
      destruct (fifo_pop_ok q _ Hq) as (q1 & Hp & Hq1 & _); simpl in *; rewrite Hp; simpl.
    - exists q1. by rewrite app_nil_r.
    - destruct (IH q1 (out ++ [x]) fuel Hq1 ltac:(lia)) as (q' & Hr & Hq').
      exists q'. by rewrite Hr, <- app_assoc. }
  exact (Hgen l q [] fuel Hq Hf).
Qed.

End clients.

(** ** The ring buffer *)

Section ringbuffer_fifo.
Context {T : Type} (k w : Z) (P : rb_params k w) (Hw : (32 ≤ w)%Z).

Definition ringbuffer_fifo : FifoOps (ringbuffer T) T := {|
  fifo_push x rb := mret (insert k w x rb);
  fifo_pop rb := remove k w rb;
  fifo_rep rb l := rb_ok k w rb ∧ contents k w rb = l;
  fifo_cap _ := capacity k
|}.

Lemma ringbuffer_fifo_laws : @FifoLaws _ _ ringbuffer_fifo.
Proof using P Hw.
  split; simpl.
  - intros rb l x [Hok <-] Hlt.
    pose proof (insert_refines k w P x rb Hw Hok) as Hi. destruct (insert k w x rb) as [b rb'].
    rewrite decide_True in Hi by done. destruct Hi as (Hok' & -> & Hc). by exists rb'.
  - intros rb l [Hok <-].
    destruct (remove_refines k w P rb Hok) as (rb' & -> & Hok' & Hc). by exists rb'.
Qed.

End ringbuffer_fifo.
