(* ===== verification/NgxQueue.v ===== *)
(** * Buffers, queues and list headers of a pool (core: ngx_buf, ngx_queue, ngx_list)

    The three are cut from a memory pool: the model calls [ngx_palloc] and
    [ngx_free] and keeps the fields of each object. *)

From S2P Require Import Prelude Ringbuffer Fifo NgxPool.

(** ** Data and operations *)

(** [ngx_align(n, NGX_ALIGNMENT)] for a [size_t]. *)
Definition ngx_align (n : Z) : Z := ngx_align_ptr n.

(** *** Buffers *)

Definition sizeof_buf : Z := 32.

(** [buf_data] is the address [buf + 1]. *)
Record ngx_buf_s := Buf { buf_cap : Z; buf_len : Z; buf_ref : Z; buf_data : Z }.

(** The pool is never null in the model; the address and the buffer. *)
Definition ngx_create_buf (al : allocator) (pool : ngx_pool_s) (cap : Z)
    : option (Z * ngx_buf_s) * ngx_pool_s :=
  let size := ngx_align (wrap 64 (cap + sizeof_buf)) in
  match ngx_palloc al pool size with
  | (None, pool) => (None, pool)
  | (Some buf, pool) => (Some (buf, Buf (size - sizeof_buf) 0 1 (buf + sizeof_buf)), pool)
  end%Z.

(** [ngx_buf_free(pool, buf)]: the buffer with one reference less. *)
Definition ngx_buf_free (pool : ngx_pool_s) (addr : Z) (buf : ngx_buf_s)
    : ngx_buf_s * ngx_pool_s * option Z :=
  let buf := Buf (buf_cap buf) (buf_len buf) (wrap 64 (buf_ref buf - 1)) (buf_data buf) in
  if (buf_ref buf =? 0)%Z then
    let '(pool, f) := ngx_free pool addr in (buf, pool, f)
  else (buf, pool, None).

(** *** Queues *)

Definition sizeof_queue : Z := 40.

(** [elts] as the [nalloc] elements of [size] bytes they are. *)
Record ngx_queue_s (A : Type) := Queue {
  elts : list A; nalloc : nat; q_head : nat; q_end : nat
}.
Arguments Queue {A}.
Arguments elts {A}.
Arguments nalloc {A}.
Arguments q_head {A}.
Arguments q_end {A}.

Section queue.
Context {A : Type}.
Implicit Types q : ngx_queue_s A.

(** The result of [ngx_palloc] is used without a test. *)
Definition ngx_create_queue (al : allocator) (pool : ngx_pool_s) (size : Z) (garbage : list A)
    : res (Z * ngx_queue_s A * ngx_pool_s) :=
  let n := length garbage in
  let s := ngx_align (wrap 64 (sizeof_queue + size * Z.of_nat n)) in
  let '(a, pool) := ngx_palloc al pool s in
  a ← deref NullDeref a;
  mret (a, Queue garbage n 0 0, pool).

Definition ngx_queue_size q : nat :=
  if q_end q <? q_head q then q_end q + nalloc q - q_head q else q_end q - q_head q.

Definition ngx_queue_empty q : bool := q_end q =? q_head q.

(** The position of the element that the returned pointer points to. *)
Definition ngx_queue_get q : option nat * ngx_queue_s A :=
  if ngx_queue_empty q then (None, q)
  else
    let head := if nalloc q <=? q_head q then 0 else q_head q in
    (Some head, Queue (elts q) (nalloc q) (S head) (q_end q)).

Definition ngx_queue_push (val : A) q : res (bool * ngx_queue_s A) :=
  if nalloc q =? ngx_queue_size q then mret (false, q)
  else
    let end_ := if nalloc q <=? q_end q then 0 else q_end q in
    if decide (end_ < length (elts q)) then
      mret (true, Queue (<[end_ := val]> (elts q)) (nalloc q) (q_head q) (S end_))
    else Fault OutOfBounds.

(** [*ngx_queue_get(q)], as the callers use it. *)
Definition ngx_queue_pop q : res (option A * ngx_queue_s A) :=
  match ngx_queue_get q with
  | (None, q) => mret (None, q)
  | (Some i, q) => x ← deref OutOfBounds (elts q !! i); mret (Some x, q)
  end.

End queue.

(** *** List headers *)

Definition sizeof_list : Z := 56.

(** One part: its elements, their number and capacity. *)
Record ngx_list_s := NgxList { part_elts : Z; part_nelts : Z; l_elt_size : Z; l_nalloc : Z }.

(** [ngx_list_init]: [None] when it returns -1. *)
Definition ngx_list_init (al : allocator) (pool : ngx_pool_s) (n size : Z)
    : option ngx_list_s * ngx_pool_s :=
  match ngx_palloc al pool (wrap 64 (n * size)) with
  | (None, pool) => (None, pool)
  | (Some a, pool) => (Some (NgxList a 0 size n), pool)
  end%Z.

(** Two calls of the system allocator, so one allocator for each. *)
Definition ngx_create_create (al1 al2 : allocator) (pool : ngx_pool_s) (n size : Z)
    : option (Z * ngx_list_s) * ngx_pool_s :=
  match ngx_palloc al1 pool sizeof_list with
  | (None, pool) => (None, pool)
  | (Some a, pool) =>
      match ngx_list_init al2 pool n size with
      | (None, pool) => (None, pool)
      | (Some l, pool) => (Some (a, l), pool)
      end
  end.

(** ** Specification *)

Section spec.
Context {A : Type}.
Implicit Types q : ngx_queue_s A.

(** The queue stands for a list: its elements sit at consecutive positions from
    [head] on, modulo the allocated length. *)
Record queue_rep q (l : list A) : Prop := {
  qr_elts : length (elts q) = nalloc q;
  qr_range : q_head q ≤ nalloc q ∧ q_end q ≤ nalloc q ∧ (q_end q = 0 → q_head q = 0);
  qr_len : length l = ngx_queue_size q ∧ length l ≤ nalloc q;
  qr_at : ∀ i x, l !! i = Some x → elts q !! ((q_head q + i) mod nalloc q) = Some x
}.

(** ** Lemmas *)

Lemma queue_end_pos q l :
  queue_rep q l → 0 < nalloc q → (q_head q + length l) mod nalloc q = q_end q mod nalloc q.
Proof using.
  intros [_ [Hh [He _]] [Hl _] _] Hn. rewrite Hl. unfold ngx_queue_size.
  destruct (Nat.ltb_spec (q_end q) (q_head q)).
  - replace (q_head q + (q_end q + nalloc q - q_head q)) with (q_end q + 1 * nalloc q) by lia.
    by rewrite Nat.Div0.mod_add.
  - f_equal. lia.
Qed.

Lemma wrapped_pos q p : p ≤ nalloc q → 0 < nalloc q →
  (if nalloc q <=? p then 0 else p) = p mod nalloc q.
Proof using.
  intros Hp Hn. destruct (Nat.leb_spec (nalloc q) p).
  - replace p with (nalloc q) by lia. by rewrite Nat.Div0.mod_same.
  - by rewrite Nat.mod_small.
Qed.

Lemma mod_shift_inj n a i j : i < n → j < n → (a + i) mod n = (a + j) mod n → i = j.
Proof using.
  intros Hi Hj H. assert (Hn : n ≠ 0) by lia.
  pose proof (Nat.div_mod_eq (a + i) n). pose proof (Nat.div_mod_eq (a + j) n).
  assert ((a + i) / n = (a + j) / n ∨ (a + i) / n < (a + j) / n ∨ (a + j) / n < (a + i) / n) by lia.
  nia.
Qed.

(** A push that leaves one place free, or fills a queue never read. *)
Lemma queue_push_ok q l x :
  queue_rep q l → (length l < nalloc q - 1 ∨ q_head q = 0 ∧ length l < nalloc q) →
  ∃ q', ngx_queue_push x q = Ok (true, q') ∧ queue_rep q' (l ++ [x]) ∧ nalloc q' = nalloc q.
Proof using.
  intros H Hroom. pose proof H as [Hel [Hh [He Hz]] [Hl Hln] Hat]. unfold ngx_queue_push.
  rewrite <- Hl. destruct (Nat.eqb_spec (nalloc q) (length l)); [lia|].
  rewrite wrapped_pos by lia.
  pose proof (Nat.mod_upper_bound (q_end q) (nalloc q) ltac:(lia)) as Hlt.
  rewrite decide_True by lia. eexists; split; [done|]. split; [|done].
  split; simpl.
  - by rewrite length_insert.
  - lia.
  - rewrite length_app. simpl. split; [|lia]. rewrite Hl. unfold ngx_queue_size in *. simpl.
    destruct (Nat.eq_dec (q_end q) (nalloc q)) as [Heq|Hne].
    + rewrite Heq, Nat.Div0.mod_same in *. 
      revert Hl. destruct (Nat.ltb_spec (nalloc q) (q_head q)); [lia|].
      destruct (Nat.ltb_spec 1 (q_head q)); lia.
    + rewrite Nat.mod_small by lia. revert Hl.
      destruct (Nat.ltb_spec (q_end q) (q_head q)), (Nat.ltb_spec (S (q_end q)) (q_head q)); lia.
  - intros i y Hy. destruct (decide (i < length l)) as [Hi|Hi].
    + rewrite lookup_app_l in Hy by done. rewrite list_lookup_insert_ne; [by apply Hat|].
      rewrite <- (queue_end_pos q l H) by lia. intros Heq.
      apply mod_shift_inj in Heq; lia.
    + pose proof (lookup_lt_Some _ _ _ Hy) as Hb. rewrite length_app in Hb. simpl in Hb.
      assert (i = length l) as -> by lia. rewrite lookup_app_r, Nat.sub_diag in Hy by done.
      simplify_eq/=. rewrite (queue_end_pos q l H) by lia.
      apply list_lookup_insert_eq. lia.
Qed.

Lemma queue_get_ok q l :
  queue_rep q l →
  match l with
  | [] => ngx_queue_get q = (None, q)
  | x :: l' => ∃ i q', ngx_queue_get q = (Some i, q') ∧ elts q' !! i = Some x ∧ queue_rep q' l' ∧
                 nalloc q' = nalloc q
  end.
Proof using.
  intros H. pose proof H as [Hel [Hh [He Hz]] [Hl Hln] Hat]. unfold ngx_queue_get, ngx_queue_empty.
  unfold ngx_queue_size in Hl. destruct l as [|x l']; simpl in *.
  { revert Hl. destruct (Nat.ltb_spec (q_end q) (q_head q)); intros Hl.
    - destruct (Nat.eqb_spec (q_end q) (q_head q)); [done|]. lia.
    - by destruct (Nat.eqb_spec (q_end q) (q_head q)); [|lia]. }
  destruct (Nat.eqb_spec (q_end q) (q_head q)) as [Heq|Hne].
  { revert Hl. destruct (Nat.ltb_spec (q_end q) (q_head q)); lia. }
  rewrite wrapped_pos by lia.
  pose proof (Nat.mod_upper_bound (q_head q) (nalloc q) ltac:(lia)) as Hlt.
  eexists _, _. split; [done|]. simpl. split_and!; [| |done].
  - specialize (Hat 0 x eq_refl). by rewrite Nat.add_0_r in Hat.
  - split; simpl; [done|lia| |].
    + split; [|lia]. unfold ngx_queue_size. simpl.
      destruct (Nat.eq_dec (q_head q) (nalloc q)) as [Hq|Hq].
      * rewrite Hq, Nat.Div0.mod_same in *. revert Hl.
        destruct (Nat.ltb_spec (q_end q) (nalloc q)), (Nat.ltb_spec (q_end q) 1); lia.
      * rewrite Nat.mod_small in * by lia. revert Hl.
        destruct (Nat.ltb_spec (q_end q) (q_head q)), (Nat.ltb_spec (q_end q) (S (q_head q))); lia.
    + intros i y Hy. specialize (Hat (S i) y Hy). rewrite <- Hat. f_equal.
      rewrite <- Nat.add_succ_r. by rewrite Nat.Div0.add_mod_idemp_l.
Qed.

(** The queue as a bounded queue of [nalloc - 1] elements. *)
Definition ngx_queue_fifo : FifoOps (ngx_queue_s A) A := {|
  fifo_push := ngx_queue_push;
  fifo_pop := ngx_queue_pop;
  fifo_rep := queue_rep;
  fifo_cap q := nalloc q - 1
|}.

Lemma ngx_queue_fifo_laws : @FifoLaws _ _ ngx_queue_fifo.
Proof using.
  split; simpl.
  - intros q l x H Hlt. destruct (queue_push_ok q l x H) as (q' & Hp & Hr & Hn); [by left|].
    exists q'. by rewrite Hn.
  - intros q l H. pose proof (queue_get_ok q l H) as Hg. unfold ngx_queue_pop.
    destruct l as [|x l]; [rewrite Hg; by exists q|].
    destruct Hg as (i & q' & -> & Hx & Hr & Hn). rewrite Hx. simpl. exists q'. by rewrite Hn.
Qed.

End spec.

(** *** Buffers *)

Section buffers.
Local Open Scope Z_scope.

Lemma ngx_align_bounds n : 0 ≤ n < 2 ^ 63 → n ≤ ngx_align n ≤ n + 7 ∧ ngx_align n mod 8 = 0.
Proof using.
  intros Hn. unfold ngx_align. rewrite align_ptr_spec by lia. lia.
Qed.

Lemma palloc_inv_some al pool live size a pool' :
  pool_inv pool live → alloc_spec al (owned pool) → 0 < size < 2 ^ 63 →
  ngx_palloc al pool size = (Some a, pool') → pool_inv pool' ((a, size) :: live).
Proof using.
  intros H Hal Hs Hp. apply (palloc_inv al pool live size (Some a) pool' H Hal); [|done].
  unfold sizeof_large. lia.
Qed.

(** Reading a queue through the positions of its elements. *)
Lemma queue_rep_create {A} (garbage : list A) :
  queue_rep (Queue garbage (length garbage) 0 0) [].
Proof using.
  split; simpl; [done | lia | unfold ngx_queue_size; simpl; lia |]. intros i x Hx. done.
Qed.

End buffers.

(** ** Properties *)

(** C25: a queue of [n] places is a first-in first-out list for any interleaving
    of pushes and gets that keeps at most [n - 1] elements in it. *)
Theorem ngx_queue_refines_fifo {A} (q : ngx_queue_s A) l ops os l' :
  queue_rep q l → list_run (nalloc q - 1) ops l = Some (os, l') →
  ∃ q', @fifo_run _ _ ngx_queue_fifo ops q = Ok (os, q') ∧ queue_rep q' l'.
Proof.
  intros H Hr. exact (@fifo_run_list _ _ ngx_queue_fifo ngx_queue_fifo_laws ops q l os l' H Hr).
Qed.

(** the [n]-th outstanding element makes the queue look empty once its head
    has moved: the push succeeds, the size is 0, and the next get returns null
    although [n] elements were stored and not read.  A queue whose head has not
    moved refuses a push exactly when it is full. *)
Theorem ngx_queue_full_after_read {A} (q : ngx_queue_s A) l x :
  queue_rep q l → 0 < nalloc q →
  (0 < q_head q → S (length l) = nalloc q →
   ∃ q', ngx_queue_push x q = Ok (true, q') ∧ ngx_queue_size q' = 0 ∧
     ngx_queue_get q' = (None, q')) ∧
  (q_head q = 0 →
   match ngx_queue_push x q with
   | Ok (b, q') => b = negb (length l =? nalloc q) ∧ (b = true → queue_rep q' (l ++ [x]))
   | _ => False
   end).
Proof.
  intros H Hn. pose proof H as [Hel [Hh [He Hz]] [Hl Hln] Hat]. split.
  - intros Hh0 Hlen. unfold ngx_queue_push. rewrite <- Hl.
    destruct (Nat.eqb_spec (nalloc q) (length l)); [lia|]. rewrite wrapped_pos by lia.
    pose proof (Nat.mod_upper_bound (q_end q) (nalloc q) ltac:(lia)) as Hlt.
    rewrite decide_True by lia. eexists. split; [done|].
    assert (Heq : S (q_end q mod nalloc q) = q_head q).
    { rewrite Hl in Hlen. unfold ngx_queue_size in Hlen.
      destruct (Nat.eq_dec (q_end q) (nalloc q)) as [Heq|Hne].
      - rewrite Heq, Nat.Div0.mod_same in *. revert Hlen.
        destruct (Nat.ltb_spec (nalloc q) (q_head q)); lia.
      - rewrite Nat.mod_small in * by lia. revert Hlen.
        destruct (Nat.ltb_spec (q_end q) (q_head q)); lia. }
    unfold ngx_queue_size, ngx_queue_get, ngx_queue_empty. cbn [elts nalloc q_head q_end]. rewrite Heq.
    destruct (Nat.ltb_spec (q_head q) (q_head q)); [lia|]. split; [lia|].
    by rewrite Nat.eqb_refl.
  - intros Hh0. destruct (decide (length l = nalloc q)) as [Hfull|Hroom].
    + unfold ngx_queue_push. rewrite <- Hl, Hfull, Nat.eqb_refl. simpl. done.
    + destruct (queue_push_ok q l x H) as (q' & -> & Hr & _); [right; lia|].
      simpl. destruct (Nat.eqb_spec (length l) (nalloc q)); [done|]. done.
Qed.

(** a buffer created for [cap] bytes lies in memory of its own, holds at
    least [cap] bytes after its header, starts with one reference, and dropping
    that reference gives its memory back. *)
Theorem ngx_create_buf_correct al pool live (cap : Z) a buf pool' :
  pool_inv pool live → alloc_spec al (owned pool) → (0 ≤ cap < 2 ^ 62)%Z →
  ngx_create_buf al pool cap = (Some (a, buf), pool') →
  (cap ≤ buf_cap buf ∧ buf_len buf = 0 ∧ buf_data buf = a + sizeof_buf)%Z ∧
  pool_inv pool' ((a, buf_cap buf + sizeof_buf)%Z :: live) ∧
  let '(buf', pool'', _) := ngx_buf_free pool' a buf in
  buf_ref buf' = 0%Z ∧ pool_inv pool'' live.
Proof.
  intros H Hal Hcap Hc. unfold ngx_create_buf in Hc.
  rewrite (wrap_small 64) in Hc by (unfold sizeof_buf; lia).
  pose proof (ngx_align_bounds (cap + sizeof_buf) ltac:(unfold sizeof_buf; lia)) as [Hb _].
  set (size := ngx_align (cap + sizeof_buf)) in *. unfold sizeof_buf in Hb.
  destruct (ngx_palloc al pool size) as [[b|] p] eqn:Hp; [|done]. simplify_eq/=.
  pose proof (palloc_inv_some al pool live size a pool' H Hal ltac:(lia) Hp) as Hinv.
  split; [unfold sizeof_buf; lia|]. replace (size - sizeof_buf + sizeof_buf)%Z with size by lia.
  split; [done|]. unfold ngx_buf_free. simpl. rewrite wrap_small by lia. simpl.
  destruct (ngx_free pool' a) as [p f] eqn:Hf. simpl. split; [done|].
  by apply (free_inv pool' ((a, size) :: live) live a size p f).
Qed.

(** ** Witnesses *)

Lemma ngx_queue_refines_fifo_witness :
  ∃ q', @fifo_run _ _ ngx_queue_fifo [Some 5; Some 6; None; Some 7; None; None; None]
          (Queue [0; 0; 0] 3 0 0) = Ok ([Some 5; Some 6; Some 7; None], q') ∧ queue_rep q' [].
Proof.
  exact (ngx_queue_refines_fifo (Queue [0; 0; 0] 3 0 0) []
    [Some 5; Some 6; None; Some 7; None; None; None] _ _
    (queue_rep_create [0; 0; 0]) eq_refl).
Defined.

(** Three places, one element read, two outstanding: the third push empties it. *)
Lemma ngx_queue_full_after_read_witness :
  ∃ q', ngx_queue_push 9 (Queue [1; 7; 8] 3 1 3) = Ok (true, q') ∧ ngx_queue_size q' = 0 ∧
    ngx_queue_get q' = (None, q').
Proof.
  assert (H : queue_rep (Queue [1; 7; 8] 3 1 3) [7; 8]).
  { split; simpl; [done | lia | unfold ngx_queue_size; simpl; lia |].
    intros [|[|i]] x Hx; simplify_eq/=; done. }
  apply (proj1 (ngx_queue_full_after_read _ _ 9 H ltac:(simpl; lia))); simpl; lia.
Defined.

Lemma ngx_create_buf_correct_witness :
  ∃ a buf pool', ngx_create_buf (demo_al 262144) demo_pool2 100 = (Some (a, buf), pool') ∧
    (100 ≤ buf_cap buf)%Z.
Proof.
  do 3 eexists. split; [reflexivity|].
  refine (proj1 (proj1 (ngx_create_buf_correct (demo_al 262144) demo_pool2 _ 100 _ _ _
    demo_pool_inv _ _ eq_refl))).
  - apply demo_al_spec; [lia|done|]. unfold owned, large_region; simpl.
    repeat (apply Forall_cons_2; [unfold disjoint_regions, PAGE_SIZE, sizeof_large; simpl; lia|]).
    constructor.
  - lia.
Defined.
