(* ===== verification/CText.v ===== *)
(** * Byte strings and the number conversions of the C++ library

    [std::string] as a list of bytes; [std::to_string], [std::stoi],
    [std::stol] and [std::stoul], [std::getline] on a string stream. *)

From Stdlib Require Export Ascii.
From Stdlib Require Import String.
From S2P Require Import Prelude.
Local Open Scope Z_scope.

Definition str : Type := list ascii.

Definition lit (s : string) : str := list_ascii_of_string s.

Definition code (c : ascii) : Z := Z.of_N (N_of_ascii c).

Definition newline : ascii := "010".
Definition dquote : ascii := "034".
Definition squote : ascii := "039".
Definition backslash : ascii := "092".

(** [std::isspace], [std::isdigit] in the C locale. *)
Definition is_space (c : ascii) : bool := (code c =? 32) || ((9 <=? code c) && (code c <=? 13)).
Definition is_digit (c : ascii) : bool := (48 <=? code c) && (code c <=? 57).

Fixpoint starts_with (p s : str) : bool :=
  match p, s with
  | [], _ => true
  | a :: p, b :: s => Ascii.eqb a b && starts_with p s
  | _ :: _, [] => false
  end.

(** [s.find(c)]: what precedes the first [c] and what follows it. *)
Fixpoint split_at (c : ascii) (s : str) : option (str * str) :=
  match s with
  | [] => None
  | a :: s => if Ascii.eqb a c then Some ([], s)
              else '(x, y) ← split_at c s; Some (a :: x, y)
  end.

(** The lines that repeated [std::getline] calls return. *)
Fixpoint getlines_from (cur : str) (s : str) : list str :=
  match s with
  | [] => if decide (cur = []) then [] else [reverse cur]
  | c :: s => if Ascii.eqb c newline then reverse cur :: getlines_from [] s
              else getlines_from (c :: cur) s
  end.
Definition getlines (s : str) : list str := getlines_from [] s.

(** ** Numbers *)

Definition digit_char (d : Z) : ascii := ascii_of_N (Z.to_N (48 + d)).

Fixpoint dec_digits (fuel : nat) (n : Z) (acc : str) : str :=
  match fuel with
  | O => acc
  | S fuel => if n <? 10 then digit_char n :: acc
              else dec_digits fuel (n / 10) (digit_char (n mod 10) :: acc)
  end.

(** [std::to_string] of an integer. *)
Definition to_string (z : Z) : str :=
  let digits n := dec_digits (S (Z.to_nat (Z.log2 n))) n [] in
  if z <? 0 then "-"%char :: digits (- z) else digits z.

Definition digit_val (base : Z) (c : ascii) : option Z :=
  let v :=
    if is_digit c then code c - 48
    else if (97 <=? code c) && (code c <=? 122) then code c - 87
    else if (65 <=? code c) && (code c <=? 90) then code c - 55
    else base in
  if v <? base then Some v else None.

Fixpoint digits_from (base acc : Z) (s : str) : Z :=
  match s with
  | [] => acc
  | c :: s => match digit_val base c with
              | Some d => digits_from base (acc * base + d) s
              | None => acc
              end
  end.

Fixpoint skip_space (s : str) : str :=
  match s with
  | c :: s' => if is_space c then skip_space s' else s
  | [] => []
  end.

(** The part of [strtol] after the sign: an optional prefix that must be
    followed by a digit, then at least one digit.  C23 added the prefix of base
    2, so its support depends on the library. *)
Definition magnitude (c23 : bool) (base : Z) (s : str) : option Z :=
  let number s := match s with
    | c :: _ => match digit_val base c with Some _ => Some (digits_from base 0 s) | None => None end
    | [] => None
    end in
  let prefixed (lower upper : ascii) := match s with
    | "0"%char :: x :: s' => if Ascii.eqb x lower || Ascii.eqb x upper then number s' else None
    | _ => None
    end in
  let pre :=
    if base =? 16 then prefixed "x"%char "X"%char
    else if (base =? 2) && c23 then prefixed "b"%char "B"%char
    else None in
  match pre with Some v => Some v | None => number s end.

(** Sign and magnitude. *)
Definition scan_number (c23 : bool) (base : Z) (s : str) : option (bool * Z) :=
  match skip_space s with
  | "-"%char :: s => m ← magnitude c23 base s; Some (true, m)
  | "+"%char :: s => m ← magnitude c23 base s; Some (false, m)
  | s => m ← magnitude c23 base s; Some (false, m)
  end.

Section conversions.
Context (c23 : bool).

Definition stol (base : Z) (s : str) : res Z :=
  match scan_number c23 base s with
  | None => Throw InvalidArgument
  | Some (neg, m) =>
      let v := if neg : bool then - m else m in
      if (- 2 ^ 63 <=? v) && (v <? 2 ^ 63) then mret v else Throw OutOfRange
  end.

Definition stoul (base : Z) (s : str) : res Z :=
  match scan_number c23 base s with
  | None => Throw InvalidArgument
  | Some (neg, m) =>
      if m <? 2 ^ 64 then mret (if neg : bool then wrap 64 (- m) else m) else Throw OutOfRange
  end.

Definition stoi (s : str) : res Z :=
  v ← stol 10 s;
  if (- 2 ^ 31 <=? v) && (v <? 2 ^ 31) then mret v else Throw OutOfRange.

End conversions.

(** ** Lemmas *)

Lemma ascii_eqb_refl c : Ascii.eqb c c = true.
Proof. apply Ascii.eqb_refl. Qed.

Lemma code_digit_char d : 0 ≤ d < 10 → code (digit_char d) = 48 + d.
Proof.
  intros Hd. unfold code, digit_char. rewrite N_ascii_embedding; lia.
Qed.

Lemma is_digit_digit_char d : 0 ≤ d < 10 → is_digit (digit_char d) = true.
Proof. intros Hd. unfold is_digit. rewrite code_digit_char by done. lia. Qed.

Lemma digit_val_digit_char d : 0 ≤ d < 10 → digit_val 10 (digit_char d) = Some d.
Proof.
  intros Hd. unfold digit_val. rewrite is_digit_digit_char, code_digit_char by done.
  replace (48 + d - 48) with d by lia. by destruct (Z.ltb_spec d 10); [|lia].
Qed.

(** Printing then reading the digits of a number. *)
Lemma dec_digits_spec fuel n acc :
  0 ≤ n < 2 ^ Z.of_nat fuel → (0 < fuel)%nat →
  (∀ a, ∃ b, (∀ s, digits_from 10 a (dec_digits fuel n [] ++ s) = digits_from 10 (a * 10 ^ b + n) s) ∧ 0 < b)
  ∧ dec_digits fuel n acc = dec_digits fuel n [] ++ acc
  ∧ Forall (λ c, is_digit c = true) (dec_digits fuel n []) ∧ dec_digits fuel n [] ≠ [].
Proof.
  revert n acc. induction fuel as [|fuel IH]; intros n acc Hn Hf; [lia|].
  replace (Z.of_nat (S fuel)) with (Z.succ (Z.of_nat fuel)) in Hn by lia.
  rewrite Z.pow_succ_r in Hn by lia. cbn [dec_digits].
  destruct (Z.ltb_spec n 10) as [Hlt|Hge].
  - split_and!; [|done| |done].
    + intros a. exists 1. split; [|lia]. intros s. cbn [app digits_from].
      rewrite digit_val_digit_char by lia. by rewrite Z.pow_1_r.
    + constructor; [|constructor]. apply is_digit_digit_char. lia.
  - assert (Hfuel : (0 < fuel)%nat) by (destruct fuel; [simpl in Hn; lia|lia]).
    destruct (IH (n / 10) (digit_char (n mod 10) :: acc) ltac:(lia) Hfuel) as (Hv & Ha & Hd & Hne).
    destruct (IH (n / 10) [digit_char (n mod 10)] ltac:(lia) Hfuel) as (_ & Ha1 & _ & _).
    rewrite Ha, Ha1. split_and!.
    + intros a. destruct (Hv a) as (b & Hb & Hb0). exists (b + 1). split; [|lia]. intros s.
      rewrite <- app_assoc. cbn [app]. rewrite Hb. cbn [digits_from].
      rewrite digit_val_digit_char by lia. f_equal. rewrite Z.pow_add_r by lia. lia.
    + by rewrite <- app_assoc.
    + apply Forall_app. split; [done|]. constructor; [|constructor].
      apply is_digit_digit_char. lia.
    + by destruct (dec_digits fuel (n / 10) []).
Qed.

Lemma log2_fuel n : 0 ≤ n → n < 2 ^ Z.of_nat (S (Z.to_nat (Z.log2 n))).
Proof.
  intros Hn. pose proof (Z.log2_nonneg n). replace (Z.of_nat (S (Z.to_nat (Z.log2 n)))) with (Z.succ (Z.log2 n)) by lia.
  destruct (Z.eq_dec n 0) as [->|]; [done|]. apply Z.log2_spec. lia.
Qed.

Lemma digits_spec n :
  0 ≤ n →
  let ds := dec_digits (S (Z.to_nat (Z.log2 n))) n [] in
  digits_from 10 0 ds = n ∧ Forall (λ c, is_digit c = true) ds ∧ ds ≠ [].
Proof.
  intros Hn ds. destruct (dec_digits_spec (S (Z.to_nat (Z.log2 n))) n []
    (conj Hn (log2_fuel n Hn)) ltac:(lia)) as (Hv & _ & Hd & Hne).
  split; [|done]. destruct (Hv 0) as (b & Hb & _). specialize (Hb []).
  rewrite app_nil_r in Hb. unfold ds. rewrite Hb. done.
Qed.

Lemma is_digit_facts c :
  is_digit c = true → is_space c = false ∧ c ≠ "-"%char ∧ c ≠ "+"%char ∧ c ≠ newline ∧ c ≠ dquote ∧
  c ≠ squote ∧ c ≠ backslash ∧ ∃ d, digit_val 10 c = Some d.
Proof.
  intros H. unfold is_digit, is_space in *. split_and!.
  - lia.
  - intros ->. done.
  - intros ->. done.
  - intros ->. done.
  - intros ->. done.
  - intros ->. done.
  - intros ->. done.
  - unfold digit_val, is_digit. rewrite H. destruct (Z.ltb_spec (code c - 48) 10); [by eexists|lia].
Qed.

Lemma scan_digits c23 ds :
  Forall (λ c, is_digit c = true) ds → ds ≠ [] → magnitude c23 10 ds = Some (digits_from 10 0 ds).
Proof.
  intros Hd Hne. destruct ds as [|c ds]; [done|]. apply Forall_cons in Hd as [Hc _].
  destruct (is_digit_facts c Hc) as (_ & _ & _ & _ & _ & _ & _ & d & Hd).
  unfold magnitude. cbn [Z.eqb Pos.eqb andb]. by rewrite Hd.
Qed.

Lemma scan_number_plain c23 base c s :
  is_space c = false → c ≠ "-"%char → c ≠ "+"%char →
  scan_number c23 base (c :: s) = m ← magnitude c23 base (c :: s); Some (false, m).
Proof.
  intros Hs Hm Hp. unfold scan_number. cbn [skip_space]. rewrite Hs.
  destruct c as [[] [] [] [] [] [] [] []]; done.
Qed.

(** Reading back a printed integer. *)
Lemma scan_to_string c23 z :
  scan_number c23 10 (to_string z) = Some (z <? 0, Z.abs z).
Proof.
  unfold to_string, scan_number. destruct (Z.ltb_spec z 0) as [Hz|Hz].
  - destruct (digits_spec (- z) ltac:(lia)) as (Hv & Hd & Hne). cbn [skip_space].
    change (is_space "-"%char) with false. cbv iota.
    rewrite (scan_digits c23) by done. rewrite Hv. simpl. do 2 f_equal. lia.
  - destruct (digits_spec z ltac:(lia)) as (Hv & Hd & Hne).
    set (ds := dec_digits _ _ _) in *. clearbody ds.
    pose proof (scan_digits c23 ds Hd Hne) as Hm.
    destruct ds as [|c ds]; [done|]. apply Forall_cons in Hd as [Hc _].
    destruct (is_digit_facts c Hc) as (Hs & Hminus & Hplus & _).
    fold (scan_number c23 10 (c :: ds)). rewrite scan_number_plain, Hm, Hv by done.
    simpl. do 2 f_equal. lia.
Qed.

Lemma stol_to_string c23 z : - 2 ^ 63 ≤ z < 2 ^ 63 → stol c23 10 (to_string z) = Ok z.
Proof.
  intros Hz. unfold stol. rewrite scan_to_string.
  replace (if z <? 0 then - Z.abs z else Z.abs z) with z by (destruct (Z.ltb_spec z 0); lia).
  by assert (((- 2 ^ 63 <=? z) && (z <? 2 ^ 63)) = true) as -> by lia.
Qed.

Lemma stoi_to_string c23 z : - 2 ^ 31 ≤ z < 2 ^ 31 → stoi c23 (to_string z) = Ok z.
Proof.
  intros Hz. unfold stoi. rewrite stol_to_string by lia. cbn [mbind res_bind].
  by assert (((- 2 ^ 31 <=? z) && (z <? 2 ^ 31)) = true) as -> by lia.
Qed.

Lemma stoul_to_string c23 z : 0 ≤ z < 2 ^ 64 → stoul c23 10 (to_string z) = Ok z.
Proof.
  intros Hz. unfold stoul. rewrite scan_to_string.
  destruct (Z.ltb_spec z 0); [lia|]. rewrite Z.abs_eq by lia.
  by destruct (Z.ltb_spec z (2 ^ 64)); [|lia].
Qed.

(** *** Lines *)

Lemma getlines_from_app cur l s :
  newline ∉ l → getlines_from cur (l ++ newline :: s) = (reverse cur ++ l) :: getlines s.
Proof.
  revert cur. induction l as [|c l IH]; intros cur Hl; simpl.
  - by rewrite app_nil_r.
  - destruct (Ascii.eqb_spec c newline) as [->|]; [set_solver|].
    rewrite IH by set_solver. rewrite reverse_cons. by rewrite <- app_assoc.
Qed.

Lemma getlines_app l s : newline ∉ l → getlines (l ++ newline :: s) = l :: getlines s.
Proof. apply (getlines_from_app []). Qed.

Lemma split_at_app c x y : c ∉ x → split_at c (x ++ c :: y) = Some (x, y).
Proof.
  induction x as [|a x IH]; intros Hc; simpl.
  - by rewrite ascii_eqb_refl.
  - destruct (Ascii.eqb_spec a c) as [->|]; [set_solver|]. rewrite IH by set_solver. done.
Qed.

Lemma starts_with_app p s : starts_with p (p ++ s) = true.
Proof. induction p as [|a p IH]; simpl; [done|]. by rewrite ascii_eqb_refl. Qed.
