(* ===== verification/ConfigNode.v ===== *)
(** * Configuration nodes (basic/config/config_parser.h)

    [ConfigNode] holds a scalar, an object or an array.  An operation that
    returns a reference to a child is an update of that child; the conversions
    of [get] are those of the C++ library, with [std::stod] and [std::stof] as
    parameters.  Floating-point values are kept as their bits. *)

From S2P Require Import Prelude CText.
Local Open Scope Z_scope.

(** ** Data *)

Inductive int_type := I32 | U32 | I64 | U64 | I16 | U16 | I8 | U8.

#[export] Instance int_type_eq_dec : EqDecision int_type.
Proof. solve_decision. Defined.

Inductive value_type :=
| VString (s : str)
| VBool (b : bool)
| VDouble (bits : Z)
| VFloat (bits : Z)
| VInt (t : int_type) (z : Z)
| VChar (c : ascii)
| VNull.

(** The types [T] of the template members. *)
Inductive ctype := TString | TBool | TDouble | TFloat | TInt (t : int_type) | TChar | TNull.

#[warnings="-register-all"]
Inductive ConfigNode :=
| Value (v : value_type)
| Object (m : gmap str ConfigNode)
| Array (a : list ConfigNode).

(** A default-constructed node. *)
Definition null_node : ConfigNode := Value (VString []).

(** ** Queries *)

Definition is_object (n : ConfigNode) : bool := match n with Object _ => true | _ => false end.
Definition is_array (n : ConfigNode) : bool := match n with Array _ => true | _ => false end.
Definition is_value (n : ConfigNode) : bool := match n with Value _ => true | _ => false end.

(** [value.index() != variant_npos] holds for every value. *)
Definition node_empty (n : ConfigNode) : bool :=
  match n with
  | Object m => bool_decide (m = ∅)
  | Array a => bool_decide (length a = 0%nat)
  | Value _ => true
  end.

Definition reset (n : ConfigNode) : ConfigNode := null_node.

(** The children are cleared first, then dropped with the container. *)
Definition node_clear (n : ConfigNode) : ConfigNode :=
  match n with
  | Object _ => Object ∅
  | Array _ => Array []
  | Value _ => Value (VString [])
  end.

Definition is_string (n : ConfigNode) : bool :=
  match n with Value (VString _) => true | _ => false end.

Definition is_int (n : ConfigNode) : bool :=
  match n with Value (VInt I8 _) => false | Value (VInt _ _) => true | _ => false end.

Definition is_double (n : ConfigNode) : bool :=
  match n with Value (VDouble _) => true | _ => false end.

Definition is_bool (n : ConfigNode) : bool :=
  match n with Value (VBool _) => true | _ => false end.

Definition is_char (n : ConfigNode) : bool :=
  match n with Value (VChar _) => true | _ => false end.

Definition array_size (n : ConfigNode) : nat :=
  match n with Array a => length a | _ => 0 end.

Definition object_size (n : ConfigNode) : nat :=
  match n with Object m => base.size m | _ => 0 end.

(** ** Children *)

Definition as_object (n : ConfigNode) : gmap str ConfigNode :=
  match n with Object m => m | _ => ∅ end.

Definition as_array (n : ConfigNode) : list ConfigNode :=
  match n with Array a => a | _ => [] end.

(** [node[key]] on a constant node. *)
Definition index_key (key : str) (n : ConfigNode) : ConfigNode :=
  default null_node (as_object n !! key).

(** [f(node[key])] on a mutable node: it becomes an object and has the key. *)
Definition index_key_update (key : str) (f : ConfigNode → ConfigNode) (n : ConfigNode) : ConfigNode :=
  Object (<[key := f (default null_node (as_object n !! key))]> (as_object n)).

Definition index_at (index : nat) (n : ConfigNode) : ConfigNode :=
  default null_node (as_array n !! index).

(** [arr.resize(index + 1)] when [index >= arr.size()]. *)
Definition resize_for (index : nat) (a : list ConfigNode) : list ConfigNode :=
  if (length a <=? index)%nat then a ++ replicate (S index - length a) null_node else a.

Definition index_at_update (index : nat) (f : ConfigNode → ConfigNode) (n : ConfigNode) : ConfigNode :=
  Array (alter f index (resize_for index (as_array n))).

(** [set(value)], [append], [insert(key, value)] (and [set(key, value)], whose
    body is the same), [set(index, value)]. *)
Definition set_value (v : value_type) (n : ConfigNode) : ConfigNode := Value v.

Definition append (v : value_type) (n : ConfigNode) : ConfigNode :=
  Array (as_array n ++ [set_value v null_node]).

Definition insert_key (key : str) (v : value_type) (n : ConfigNode) : ConfigNode :=
  Object (<[key := set_value v null_node]> (<[key := null_node]> (as_object n))).

Definition set_at (index : nat) (v : value_type) (n : ConfigNode) : ConfigNode :=
  Array (alter (set_value v) index (resize_for index (as_array n))).

(** ** Conversions *)

Definition holds (t : ctype) (v : value_type) : bool :=
  match t, v with
  | TString, VString _ | TBool, VBool _ | TDouble, VDouble _ | TFloat, VFloat _
  | TChar, VChar _ | TNull, VNull => true
  | TInt t, VInt t' _ => bool_decide (t = t')
  | _, _ => false
  end.

Definition has_prefix (p q : String.string) (s : str) : bool :=
  starts_with (lit p) s || starts_with (lit q) s.

Definition is_hex (s : str) : bool := has_prefix "0x" "0X" s.
Definition is_bin (s : str) : bool := has_prefix "0b" "0B" s.

Definition true_words : list str :=
  lit <$> ["true"; "True"; "TRUE"; "t"; "T"; "yes"; "YES"; "Yes"; "y"; "Y"; "ON"; "on"; "On"]%string.

Section conversions.
Context (c23 : bool) (stod stof : str → res Z).

(** The three-way choice of the base by the prefix. *)
Definition by_prefix {A} (conv : Z → str → res A) (s : str) : res A :=
  if is_hex s then conv 16 s else if is_bin s then conv 2 s else conv 10 s.

Definition convert (t : ctype) (s : str) (default_value : value_type) : res value_type :=
  match t with
  | TInt I32 => z ← stoi c23 s; mret (VInt I32 z)
  | TDouble => z ← stod s; mret (VDouble z)
  | TFloat => z ← stof s; mret (VFloat z)
  | TBool =>
      if forallb is_digit s then z ← stoi c23 s; mret (VBool (negb (z =? 0)))
      else if is_hex s then z ← stoul c23 16 s; mret (VBool (negb (z =? 0)))
      else if is_bin s then z ← stoul c23 2 s; mret (VBool (negb (z =? 0)))
      else mret (VBool (bool_decide (s ∈ true_words)))
  | TInt I64 => z ← by_prefix (stol c23) s; mret (VInt I64 z)
  | TInt U32 => z ← by_prefix (stoul c23) s; mret (VInt U32 (wrap 32 z))
  | TInt U64 => z ← by_prefix (stoul c23) s; mret (VInt U64 z)
  | TInt I16 =>
      z ← (if is_hex s then stol c23 16 s else if is_bin s then stol c23 2 s else stoi c23 s);
      mret (VInt I16 (swrap 16 z))
  | TInt U16 => z ← by_prefix (stoul c23) s; mret (VInt U16 (wrap 16 z))
  | TChar => mret (VChar (default "000"%char (head s)))
  | _ => mret default_value
  end.

(** [get<T>(default_value)] *)
Definition get (t : ctype) (default_value : value_type) (n : ConfigNode) : res value_type :=
  match n with
  | Value v =>
      if holds t v then mret v
      else match v with
           | VString s => convert t s default_value
           | _ => mret default_value
           end
  | _ => mret default_value
  end.

End conversions.

(** ** Lemmas *)

Lemma is_prefix_digits s :
  Forall (λ c, is_digit c = true) s → is_hex s = false ∧ is_bin s = false.
Proof.
  intros Hs. destruct s as [|a [|b s]]; [done| |].
  - unfold is_hex, is_bin, has_prefix. simpl. by rewrite !andb_false_r.
  - apply Forall_cons in Hs as [_ Hs]. apply Forall_cons in Hs as [Hb _].
    unfold is_hex, is_bin, has_prefix. cbn [starts_with lit String.list_ascii_of_string].
    assert (Hx : ∀ x, is_digit x = false → Ascii.eqb x b = false).
    { intros x Hx. destruct (Ascii.eqb_spec x b); [congruence|done]. }
    by rewrite !Hx, !andb_false_r.
Qed.

Lemma is_prefix_to_string z : is_hex (to_string z) = false ∧ is_bin (to_string z) = false.
Proof.
  unfold to_string. destruct (Z.ltb_spec z 0); [done|].
  destruct (digits_spec z ltac:(lia)) as (_ & Hd & _). by apply is_prefix_digits.
Qed.

Lemma by_prefix_to_string {A} (conv : Z → str → res A) z :
  by_prefix conv (to_string z) = conv 10 (to_string z).
Proof. unfold by_prefix. by destruct (is_prefix_to_string z) as [-> ->]. Qed.

Lemma index_key_update_ne k k' f n :
  k ≠ k' → index_key k' (index_key_update k f n) = index_key k' n.
Proof. intros. unfold index_key, index_key_update. simpl. by rewrite lookup_insert_ne. Qed.

Lemma index_key_update_eq k f n : index_key k (index_key_update k f n) = f (index_key k n).
Proof. unfold index_key, index_key_update. simpl. by rewrite lookup_insert_eq. Qed.

Lemma index_key_update_twice k f g n :
  index_key_update k f (index_key_update k g n) = index_key_update k (f ∘ g) n.
Proof.
  unfold index_key_update. simpl. rewrite lookup_insert_eq. simpl. by rewrite insert_insert_eq.
Qed.

(** ** Properties *)

(** the children of a node are a finite map and a growing array: an update
    of a key is read back at that key and nowhere else, an update past the end
    of an array extends it with default nodes, and a node of another kind is
    replaced by an empty container first. *)
Theorem config_children_laws n k k' f i j v :
  index_key k' (index_key_update k f n) = (if decide (k = k') then f (index_key k n) else index_key k' n) ∧
  insert_key k v n = index_key_update k (λ _, Value v) n ∧
  index_at j (index_at_update i f n) = (if decide (i = j) then f (index_at i n) else index_at j n) ∧
  set_at i v n = index_at_update i (λ _, Value v) n ∧
  array_size (index_at_update i f n) = (S i `max` array_size n)%nat ∧
  index_at (array_size n) (append v n) = Value v ∧ array_size (append v n) = S (array_size n).
Proof.
  assert (Hres : ∀ a, length (resize_for i a) = (S i `max` length a)%nat ∧
            ∀ j, default null_node (resize_for i a !! j) = default null_node (a !! j)).
  { intros a. unfold resize_for. destruct (Nat.leb_spec (length a) i) as [Hle|Hlt]; [|split; [lia|done]].
    split; [rewrite length_app, length_replicate; lia|]. intros j'.
    destruct (decide (j' < length a)%nat).
    - by rewrite lookup_app_l.
    - rewrite lookup_app_r, (lookup_ge_None_2 a) by lia. simpl.
      destruct (replicate _ _ !! _) eqn:E; [|done]. by apply lookup_replicate in E as [-> _]. }
  destruct (Hres (as_array n)) as [Hlen Hget]. split_and!.
  - case_decide; subst; [apply index_key_update_eq | by apply index_key_update_ne].
  - unfold insert_key, index_key_update, set_value. by rewrite insert_insert_eq.
  - unfold index_at, index_at_update. cbn [as_array]. case_decide; subst.
    + rewrite list_lookup_alter_eq. rewrite <- Hget.
      destruct (lookup_lt_is_Some_2 (resize_for j (as_array n)) j) as [x ->]; [lia|done].
    + by rewrite list_lookup_alter_ne, Hget.
  - done.
  - unfold index_at_update, array_size at 1. rewrite length_alter, Hlen. by destruct n.
  - unfold index_at, append, array_size. cbn [as_array]. destruct n; simpl;
      [done|done|by rewrite lookup_app_r, Nat.sub_diag by lia].
  - unfold append, array_size. destruct n; simpl; [done|done|]. rewrite length_app. simpl. lia.
Qed.

(** C29: reading back a printed integer.  [get<int>] is exact; the 64-bit types
    are exact; the unsigned 32- and 16-bit types and the signed 16-bit one
    return the value modulo their width, with no error; the 8-bit types return
    the default although a value is there. *)
Theorem config_get_int_spec c23 stod stof z d :
  let g t := get c23 stod stof (TInt t) d (Value (VString (to_string z))) in
  (- 2 ^ 31 ≤ z < 2 ^ 31 → g I32 = Ok (VInt I32 z) ∧ g I16 = Ok (VInt I16 (swrap 16 z))) ∧
  (- 2 ^ 63 ≤ z < 2 ^ 63 → g I64 = Ok (VInt I64 z)) ∧
  (0 ≤ z < 2 ^ 64 → g U64 = Ok (VInt U64 z) ∧ g U32 = Ok (VInt U32 (wrap 32 z)) ∧
                    g U16 = Ok (VInt U16 (wrap 16 z))) ∧
  g I8 = Ok d ∧ g U8 = Ok d.
Proof.
  cbn zeta. unfold get, convert. cbn [holds]. destruct (is_prefix_to_string z) as [Hh Hb]. split_and!; try done.
  - intros Hz. rewrite Hh, Hb, stoi_to_string by done. done.
  - intros Hz. rewrite by_prefix_to_string, stol_to_string by done. done.
  - intros Hz. rewrite !by_prefix_to_string, !stoul_to_string by done. done.
Qed.

(** reading a key that is not there: the constant [operator[]] yields a
    node that holds the empty string, so [get] does not return the caller's
    default: the numeric and boolean types throw, [std::string] and [char]
    return an empty value. *)
Theorem config_get_missing c23 stod stof n k d :
  as_object n !! k = None →
  let g t := get c23 stod stof t d (index_key k n) in
  Forall (λ t, g t = Throw InvalidArgument)
    [TBool; TInt I32; TInt U32; TInt I64; TInt U64; TInt I16; TInt U16] ∧
  g TString = Ok (VString []) ∧ g TChar = Ok (VChar "000"%char) ∧ g (TInt U8) = Ok d.
Proof.
  intros Hk g. unfold g, index_key. rewrite Hk. split_and!; [|done..]. by repeat constructor.
Qed.

(** without the C23 extension of [strtol] a string with a binary prefix is
    accepted and read as 0 whatever its digits; with it, the digits count. *)
Theorem config_get_binary stod stof d s :
  (∀ t, t ∈ [I64; U64; U32; U16; I16] →
     get false stod stof (TInt t) d (Value (VString (lit "0b" ++ s))) = Ok (VInt t 0)) ∧
  get false stod stof TBool d (Value (VString (lit "0b" ++ s))) = Ok (VBool false) ∧
  get true stod stof (TInt I64) d (Value (VString (lit "0b101"))) = Ok (VInt I64 5).
Proof.
  assert (Hm : scan_number false 2 (lit "0b" ++ s) = Some (false, 0)) by done.
  assert (Hl : stol false 2 (lit "0b" ++ s) = Ok 0) by (unfold stol; by rewrite Hm).
  assert (Hu : stoul false 2 (lit "0b" ++ s) = Ok 0) by (unfold stoul; by rewrite Hm).
  assert (Hbin : is_hex (lit "0b" ++ s) = false ∧ is_bin (lit "0b" ++ s) = true) by done.
  destruct Hbin as [Hhex Hbin]. assert (Hdig : forallb is_digit (lit "0b" ++ s) = false) by done.
  split_and!; [|unfold get, convert; cbn [holds]; by rewrite Hdig, Hhex, Hbin, Hu|done].
  intros t Ht. unfold get, convert, by_prefix. cbn [holds]. rewrite Hhex, Hbin.
  repeat (apply elem_of_cons in Ht as [->|Ht]; [by rewrite ?Hl, ?Hu|]). by apply elem_of_nil in Ht.
Qed.

(** ** Witnesses *)

Lemma config_get_int_spec_witness :
  get false (λ _, Ok 0) (λ _, Ok 0) (TInt I32) VNull (Value (VString (lit "-17"))) = Ok (VInt I32 (-17)) ∧
  get false (λ _, Ok 0) (λ _, Ok 0) (TInt U16) VNull (Value (VString (lit "70000"))) = Ok (VInt U16 4464).
Proof.
  split.
  - exact (proj1 (proj1 (config_get_int_spec false (λ _, Ok 0) (λ _, Ok 0) (-17) VNull) ltac:(lia))).
  - exact (proj2 (proj2 (proj1 (proj2 (proj2 (config_get_int_spec false (λ _, Ok 0) (λ _, Ok 0) 70000 VNull)))
      ltac:(lia)))).
Defined.

Lemma config_get_missing_witness :
  get false (λ _, Ok 0) (λ _, Ok 0) (TInt I32) (VInt I32 42) (index_key (lit "port") (Object ∅))
  = Throw InvalidArgument.
Proof.
  pose proof (proj1 (config_get_missing false (λ _, Ok 0) (λ _, Ok 0) (Object ∅) (lit "port")
    (VInt I32 42) eq_refl)) as H.
  rewrite Forall_forall in H. apply (H (TInt I32)). set_solver.
Defined.

Lemma config_get_binary_witness :
  get false (λ _, Ok 0) (λ _, Ok 0) (TInt I64) VNull (Value (VString (lit "0b101"))) = Ok (VInt I64 0).
Proof. exact (proj1 (config_get_binary (λ _, Ok 0) (λ _, Ok 0) VNull (lit "101")) I64 ltac:(set_solver)). Defined.

