(* ===== verification/ConfigParser.v ===== *)
(** * INI and CONF files (basic/config/config_parser.cpp)

    Parsing and dumping of configuration nodes.  The iteration order of an
    [unordered_map] and the formatting of floating-point values are parameters. *)

From S2P Require Import Prelude CText ConfigNode.

(** ** String utilities ([namespace util]) *)

Definition whitespace : str := lit " " ++ ["009"; "010"; "013"; "012"; "011"]%char.

Definition is_ws (c : ascii) : bool := bool_decide (c ∈ whitespace).

(** [str.erase(0, str.find_first_not_of(whitespace))] *)
Fixpoint ltrim (s : str) : str :=
  match s with
  | c :: s' => if is_ws c then ltrim s' else s
  | [] => []
  end.

(** [str.erase(str.find_last_not_of(whitespace) + 1)] *)
Definition rtrim (s : str) : str := reverse (ltrim (reverse s)).

Definition trim (s : str) : str := rtrim (ltrim s).

Definition escape_char (c : ascii) : str :=
  if Ascii.eqb c newline then [backslash; "n"%char]
  else if Ascii.eqb c "009" then [backslash; "t"%char]
  else if Ascii.eqb c "013" then [backslash; "r"%char]
  else if Ascii.eqb c backslash then [backslash; backslash]
  else if Ascii.eqb c dquote then [backslash; dquote]
  else if Ascii.eqb c squote then [backslash; squote]
  else [c].

Definition escape (s : str) : str := s ≫= escape_char.

Definition unescape_char (c : ascii) : option ascii :=
  if Ascii.eqb c "n" then Some newline
  else if Ascii.eqb c "t" then Some "009"%char
  else if Ascii.eqb c "r" then Some "013"%char
  else if Ascii.eqb c backslash then Some backslash
  else if Ascii.eqb c dquote then Some dquote
  else if Ascii.eqb c squote then Some squote
  else None.

Fixpoint unescape (s : str) : str :=
  match s with
  | [] => []
  | c :: s' =>
      if Ascii.eqb c backslash then
        match s' with
        | [] => [c]
        | d :: s'' =>
            match unescape_char d with
            | Some e => e :: unescape s''
            | None => c :: unescape s'
            end
        end
      else c :: unescape s'
  end.

Definition needs_quotes_char (c : ascii) : bool :=
  is_space c || Ascii.eqb c dquote || Ascii.eqb c squote || Ascii.eqb c backslash.

Definition add_quotes_if_needed (s : str) : str :=
  if existsb needs_quotes_char s then dquote :: escape s ++ [dquote] else s.

Definition trim_quotes (s : str) : str :=
  match s, reverse s with
  | a :: (_ :: _) as s', z :: _ =>
      if (Ascii.eqb a dquote && Ascii.eqb z dquote) || (Ascii.eqb a squote && Ascii.eqb z squote)
      then take (length s - 2) (drop 1 s) else s
  | _, _ => s
  end.

(** ** Options *)

Inductive opt_value := OString (s : str) | OInt (z : Z) | OBool (b : bool) | ODouble (bits : Z) | OChar (c : ascii).

Definition options : Type := gmap str opt_value.

Definition set_option (key : string) (v : opt_value) (o : options) : options := <[lit key := v]> o.

Definition get_option_string (key : string) (default_value : str) (o : options) : res str :=
  match o !! lit key with
  | None => mret default_value
  | Some (OString s) => mret s
  | Some _ => Throw BadVariantAccess
  end.

Definition get_option_int (key : string) (default_value : Z) (o : options) : res Z :=
  match o !! lit key with
  | None => mret default_value
  | Some (OInt z) => mret z
  | Some _ => Throw BadVariantAccess
  end.

(** What the constructors of both parsers set. *)
Definition default_options : options :=
  set_option "fmt_double_precision" (OInt 6)
    (set_option "fmt_boolean_false" (OString (lit "false"))
       (set_option "fmt_boolean_true" (OString (lit "true")) ∅)).

(** [std::string::operator[](0)]: the terminator of an empty string. *)
Definition first_char (s : str) : ascii := default "000"%char (head s).

(** ** Dumping and parsing *)

Section parser.
Context (fmt_float : Z → str) (fmt_double : Z → Z → str)
  (order : gmap str ConfigNode → list (str * ConfigNode)).

(** The formatted double goes through a buffer of 64 bytes. *)
Definition config_node_value_to_string (n : ConfigNode) (o : options) : res str :=
  match n with
  | Value (VString s) => mret s
  | Value (VInt I8 _) => mret []
  | Value (VInt _ z) => mret (to_string z)
  | Value (VFloat x) => mret (fmt_float x)
  | Value (VDouble x) =>
      p ← get_option_int "fmt_double_precision" 6 o;
      let s := fmt_double p x in
      if (length s <? 64)%nat then mret s else Fault OutOfBounds
  | Value (VBool b) =>
      t ← get_option_string "fmt_boolean_true" (lit "true") o;
      f ← get_option_string "fmt_boolean_false" (lit "false") o;
      mret (if b : bool then t else f)
  | Value (VChar c) => mret [c]
  | _ => mret []
  end.

(** The function-local statics of a [dump]: taken from the options of the first
    parser that dumps, kept for every later one. *)
Definition statics : Type := option (str * str).

Definition dump_statics (delimiter : string) (o : options) (st : statics) : res (str * str) :=
  match st with
  | Some x => mret x
  | None =>
      enter_line ← get_option_string "enter_line" [newline] o;
      delim ← get_option_string delimiter (lit "=") o;
      mret (enter_line, delim)
  end.

(** The loop over the entries of one object; nested containers are skipped. *)
Fixpoint dump_entries (quote : str → str) (o : options) (el d : str)
    (kvs : list (str * ConfigNode)) : res str :=
  match kvs with
  | [] => mret []
  | (_, Object _) :: kvs | (_, Array _) :: kvs => dump_entries quote o el d kvs
  | (key, v) :: kvs =>
      s ← config_node_value_to_string v o;
      rest ← dump_entries quote o el d kvs;
      mret (key ++ lit " " ++ d ++ lit " " ++ quote s ++ el ++ rest)
  end.

Fixpoint ini_dump_sections (o : options) (el d : str) (secs : list (str * ConfigNode)) : res str :=
  match secs with
  | [] => mret []
  | (section, Object m) :: secs =>
      body ← dump_entries add_quotes_if_needed o el d (order m);
      rest ← ini_dump_sections o el d secs;
      mret (lit "[" ++ section ++ lit "]" ++ el ++ body ++ el ++ rest)
  | _ :: _ => Throw BadVariantAccess
  end.

Definition ini_dump (o : options) (st : statics) (root : ConfigNode) : res (str * statics) :=
  '(el, d) ← dump_statics "ini_key_value_delimiter" o st;
  s ← match root with
      | Object m => ini_dump_sections o el d (order m)
      | Value _ => config_node_value_to_string root o
      | Array _ => mret []
      end;
  mret (s, Some (el, d)).

Definition conf_dump (o : options) (st : statics) (root : ConfigNode) : res (str * statics) :=
  '(el, d) ← dump_statics "conf_key_value_delimiter" o st;
  s ← match root with
      | Object m => dump_entries (λ s, s) o el d (order m)
      | Value _ => config_node_value_to_string root o
      | Array _ => Throw RuntimeError
      end;
  mret (s, Some (el, d)).

(** [util::trim_quotes(util::unescape(util::trim(s)))] *)
Definition parse_value (s : str) : ConfigNode := Value (VString (trim_quotes (unescape (trim s)))).

(** One line: the current section and the root. *)
Definition ini_line (delimiter : ascii) (st : str * ConfigNode) (line : str) : str * ConfigNode :=
  let '(current_section, root) := st in
  let line := trim line in
  match line with
  | [] => st
  | c :: _ =>
      if Ascii.eqb c ";" || Ascii.eqb c "#" then st
      else if Ascii.eqb c "[" && bool_decide (last line = Some "]"%char) then
        let current_section := trim (take (length line - 2) (drop 1 line)) in
        (current_section, index_key_update current_section (λ _, null_node) root)
      else
        match split_at delimiter line with
        | Some (k, v) =>
            if decide (current_section = []) then st
            else (current_section,
                  index_key_update current_section (index_key_update (trim k) (λ _, parse_value v)) root)
        | None => st
        end
  end.

Definition ini_parse (o : options) (data : str) (root : ConfigNode) : res ConfigNode :=
  d ← get_option_string "ini_key_value_delimiter" (lit "=") o;
  mret (foldl (ini_line (first_char d)) ([], root) (getlines data)).2.

Definition conf_line (delimiter : ascii) (root : ConfigNode) (line : str) : ConfigNode :=
  let line := trim line in
  match line with
  | [] => root
  | c :: _ =>
      if Ascii.eqb c "#" then root
      else
        match split_at delimiter line with
        | Some (k, v) => index_key_update (trim k) (λ _, parse_value v) root
        | None => root
        end
  end.

Definition conf_parse (o : options) (data : str) (root : ConfigNode) : res ConfigNode :=
  d ← get_option_string "conf_key_value_delimiter" (lit "=") o;
  mret (foldl (conf_line (first_char d)) root (getlines data)).

(** ** Specification *)

(** Names that the line format can carry. *)
Definition trimmed (s : str) : Prop := ltrim s = s ∧ rtrim s = s.

Definition plain_section (s : str) : Prop := trimmed s ∧ (newline ∉ s) ∧ s ≠ [].

Definition plain_key (s : str) : Prop :=
  trimmed s ∧ (newline ∉ s) ∧ ("="%char ∉ s) ∧
  ∀ c, head s = Some c → c ∉ (["["; ";"; "#"]%char : str).

(** What a value is read back as. *)
Definition text_image (n : ConfigNode) : option ConfigNode :=
  match n with
  | Value _ => match config_node_value_to_string n default_options with
               | Ok s => Some (Value (VString s))
               | _ => None
               end
  | _ => None
  end.

Definition section_image (n : ConfigNode) : ConfigNode :=
  let vs := omap text_image (as_object n) in
  if decide (vs = ∅) then null_node else Object vs.

(** A section that can be dumped: every value has a text. *)
Definition dumpable (n : ConfigNode) : Prop :=
  ∃ ms, n = Object ms ∧ ∀ k v, ms !! k = Some v →
    plain_key k ∧ (is_value v = true → ∃ s, config_node_value_to_string v default_options = Ok s).

End parser.

(** ** Lemmas *)

(** *** Trimming *)

Lemma is_ws_space c : is_ws c = is_space c.
Proof. destruct c as [[] [] [] [] [] [] [] []]; reflexivity. Qed.

Lemma ltrim_app_char x c y : is_ws c = false → ltrim (x ++ c :: y) = ltrim x ++ c :: y.
Proof.
  intros Hc. induction x as [|a x IH]; simpl; [by rewrite Hc|]. by destruct (is_ws a).
Qed.

Lemma rtrim_app_char x c y : is_ws c = false → rtrim (x ++ c :: y) = x ++ c :: rtrim y.
Proof.
  intros Hc. unfold rtrim. rewrite reverse_app, reverse_cons, <- app_assoc. simpl.
  rewrite ltrim_app_char by done. rewrite reverse_app, reverse_cons, reverse_involutive.
  by rewrite <- app_assoc.
Qed.

Lemma rtrim_snoc_ws x c : is_ws c = true → rtrim (x ++ [c]) = rtrim x.
Proof. intros Hc. unfold rtrim. rewrite reverse_snoc. simpl. by rewrite Hc. Qed.

Lemma rtrim_snoc_char x c : is_ws c = false → rtrim (x ++ [c]) = x ++ [c].
Proof. intros Hc. by rewrite rtrim_app_char. Qed.

Lemma length_ltrim s : length (ltrim s) ≤ length s.
Proof. induction s as [|c s IH]; simpl; [done|]. case_match; simpl; lia. Qed.

Lemma trimmed_trim s : trimmed s → trim s = s.
Proof. intros [Hl Hr]. unfold trim. by rewrite Hl. Qed.

Lemma trimmed_head c s : trimmed (c :: s) → is_ws c = false.
Proof.
  intros [Hl _]. simpl in Hl. destruct (is_ws c); [|done].
  pose proof (length_ltrim s) as Hlen. rewrite Hl in Hlen. simpl in Hlen. lia.
Qed.

Lemma trimmed_chars s : Forall (λ c, is_ws c = false) s → trimmed s.
Proof.
  intros Hs. split.
  - destruct s as [|c s]; [done|]. apply Forall_cons in Hs as [Hc _]. simpl. by rewrite Hc.
  - destruct s as [|c s _] using rev_ind; [done|]. apply Forall_app in Hs as [_ Hc].
    apply Forall_cons in Hc as [Hc _]. by apply rtrim_snoc_char.
Qed.

Lemma trimmed_ends a s z : is_ws a = false → is_ws z = false → trimmed (a :: s ++ [z]).
Proof.
  intros Ha Hz. split; [simpl; by rewrite Ha|]. by apply (rtrim_snoc_char (a :: s)).
Qed.

(** Around the delimiter of a line. *)
Lemma trim_before k : trimmed k → trim (ltrim (k ++ lit " ")) = k.
Proof.
  intros H. destruct k as [|c k]; [done|]. pose proof (trimmed_head c k H) as Hc.
  assert (Hl : ∀ t, ltrim ((c :: k) ++ t) = (c :: k) ++ t) by (intros t; simpl; by rewrite Hc).
  rewrite Hl. unfold trim. rewrite Hl. change (lit " ") with [" "%char].
  rewrite rtrim_snoc_ws by done. apply H.
Qed.

Lemma rtrim_cons_ws c q : is_ws c = true → rtrim (c :: q) = if decide (rtrim q = []) then [] else c :: rtrim q.
Proof.
  intros Hc. unfold rtrim. rewrite reverse_cons.
  assert (H : ∀ x, ltrim (x ++ [c]) = if decide (ltrim x = []) then [] else ltrim x ++ [c]).
  { induction x as [|a x IH]; simpl; [by rewrite Hc|]. destruct (is_ws a); [done|]. done. }
  rewrite H. case_decide as Hd.
  - rewrite Hd. by rewrite decide_True.
  - rewrite decide_False; [by rewrite reverse_snoc|].
    intros Hr. apply Hd. by rewrite <- (reverse_involutive (ltrim _)), Hr.
Qed.

Lemma trim_after q : trimmed q → trim (rtrim (lit " " ++ q)) = q.
Proof.
  intros [Hl Hr]. change (lit " " ++ q) with (" "%char :: q). rewrite rtrim_cons_ws by done.
  case_decide as Hd; rewrite Hr in *; [by subst|]. unfold trim. simpl. by rewrite Hl.
Qed.

Lemma split_line (d : ascii) k q :
  trimmed k → trimmed q → d ∉ k → is_ws d = false →
  let line := trim (k ++ lit " " ++ d :: lit " " ++ q) in
  ∃ x y, split_at d line = Some (x, y) ∧ trim x = k ∧ trim y = q ∧
    head line = Some (default d (head k)) ∧ last line = Some (default d (last q)).
Proof.
  intros Hk Hq Hdk Hd line. exists (ltrim (k ++ lit " ")), (rtrim (lit " " ++ q)).
  assert (Hline : line = ltrim (k ++ lit " ") ++ d :: rtrim (lit " " ++ q)).
  { unfold line, trim. rewrite app_assoc, ltrim_app_char by done. by rewrite rtrim_app_char. }
  rewrite Hline. split_and!.
  - apply split_at_app. intros Hin.
    assert (Hsub : ∀ s, d ∈ ltrim s → d ∈ s).
    { induction s as [|a s IH]; simpl; [done|]. destruct (is_ws a); set_solver. }
    apply Hsub, elem_of_app in Hin as [Hin|Hin]; [done|].
    apply list_elem_of_singleton in Hin. subst. done.
  - by apply trim_before.
  - by apply trim_after.
  - destruct k as [|c k]; [done|]. simpl. by rewrite (trimmed_head c k Hk).
  - rewrite last_app, last_cons. destruct Hq as [Hql Hqr].
    change (lit " " ++ q) with (" "%char :: q). rewrite rtrim_cons_ws, Hqr by done.
    case_decide as Hq0; [by subst|]. rewrite last_cons. by destruct (last q) eqn:E; [|apply last_None in E].
Qed.

(** *** Escapes and quotes *)

Lemma unescape_escape s t : unescape (escape s ++ t) = s ++ unescape t.
Proof.
  induction s as [|c s IH]; [done|]. unfold escape in *. rewrite bind_cons, <- app_assoc.
  unfold escape_char at 1.
  destruct (Ascii.eqb_spec c newline) as [->|Hn]; [simpl; by rewrite IH|].
  destruct (Ascii.eqb_spec c "009") as [->|Ht]; [simpl; by rewrite IH|].
  destruct (Ascii.eqb_spec c "013") as [->|Hr]; [simpl; by rewrite IH|].
  destruct (Ascii.eqb_spec c backslash) as [->|Hb]; [simpl; by rewrite IH|].
  destruct (Ascii.eqb_spec c dquote) as [->|Hq]; [simpl; by rewrite IH|].
  destruct (Ascii.eqb_spec c squote) as [->|Hs]; [simpl; by rewrite IH|].
  cbn [app unescape]. destruct (Ascii.eqb_spec c backslash); [done|]. by rewrite IH.
Qed.

Lemma unescape_plain s : backslash ∉ s → unescape s = s.
Proof.
  induction s as [|c s IH]; intros Hs; [done|]. cbn [unescape].
  destruct (Ascii.eqb_spec c backslash) as [->|]; [set_solver|]. rewrite IH; [done|set_solver].
Qed.

Lemma trim_quotes_quoted s : trim_quotes (dquote :: s ++ [dquote]) = s.
Proof.
  unfold trim_quotes. destruct (s ++ [dquote]) as [|a l] eqn:E; [by destruct s|].
  assert (Hr : reverse (dquote :: a :: l) = dquote :: reverse (dquote :: s)).
  { rewrite <- E. apply (reverse_snoc (dquote :: s)). }
  rewrite Hr, !ascii_eqb_refl. cbn [andb orb]. rewrite <- E. cbn [drop length].
  rewrite drop_0, length_app. cbn [length].
  replace (S (length s + 1) - 2) with (length s) by lia. by rewrite take_app_length.
Qed.

Lemma trim_quotes_plain s : dquote ∉ s → squote ∉ s → trim_quotes s = s.
Proof.
  intros Hd Hs. unfold trim_quotes. destruct s as [|a [|b s]]; [done|by destruct (reverse [a])|].
  destruct (reverse _); [done|]. destruct (Ascii.eqb_spec a dquote) as [->|]; [set_solver|].
  destruct (Ascii.eqb_spec a squote) as [->|]; [set_solver|]. done.
Qed.

Lemma escape_no_newline s : newline ∉ escape s.
Proof.
  unfold escape. intros (c & Hc & _)%list_elem_of_bind. revert Hc. unfold escape_char.
  repeat match goal with |- context [Ascii.eqb c ?x] => destruct (Ascii.eqb_spec c x) end;
    intros Hc; repeat (apply elem_of_cons in Hc as [Hc|Hc]; [by (subst; simplify_eq)|]);
    by apply elem_of_nil in Hc.
Qed.

Lemma needs_quotes_false s :
  existsb needs_quotes_char s = false →
  Forall (λ c, is_ws c = false ∧ c ≠ dquote ∧ c ≠ squote ∧ c ≠ backslash ∧ c ≠ newline) s.
Proof.
  intros H. apply Forall_forall. intros c Hc.
  assert (Hq : needs_quotes_char c = false).
  { apply not_true_iff_false. intros Ht. apply not_true_iff_false in H. apply H.
    apply existsb_exists. exists c. by rewrite <- list_elem_of_In. }
  unfold needs_quotes_char in Hq. rewrite <- is_ws_space in Hq.
  apply orb_false_iff in Hq as [Hq Hb]. apply orb_false_iff in Hq as [Hq Hs].
  apply orb_false_iff in Hq as [Hw Hd].
  split_and!; [done| | | |]; intros ->; done.
Qed.

(** What a dumped value is read back as, and that it fits on a line. *)
Lemma quoted_value s :
  let q := add_quotes_if_needed s in
  trimmed q ∧ (newline ∉ q) ∧ trim_quotes (unescape q) = s.
Proof.
  unfold add_quotes_if_needed. destruct (existsb needs_quotes_char s) eqn:Hq.
  - split_and!.
    + by apply trimmed_ends.
    + pose proof (escape_no_newline s). set_solver by done.
    + change (dquote :: escape s ++ [dquote]) with ([dquote] ++ (escape s ++ [dquote])).
      cbn [app unescape]. destruct (Ascii.eqb_spec dquote backslash); [done|].
      rewrite unescape_escape. apply trim_quotes_quoted.
  - apply needs_quotes_false in Hq. split_and!.
    + apply trimmed_chars. eapply Forall_impl; [exact Hq|]. by intros c (Hc & _).
    + intros Hin. rewrite Forall_forall in Hq. by destruct (Hq _ Hin) as (_ & _ & _ & _ & ?).
    + rewrite unescape_plain, trim_quotes_plain; [done| | |]; intros Hin;
        rewrite Forall_forall in Hq; destruct (Hq _ Hin); tauto.
Qed.

(** *** Building a map by updates *)

Section building.
Context (f : ConfigNode → option ConfigNode).

Definition pairs (kvs : list (str * ConfigNode)) : list (str * ConfigNode) :=
  omap (λ kv, pair kv.1 <$> f kv.2) kvs.

Lemma elem_of_pairs kvs k t : (k, t) ∈ pairs kvs ↔ ∃ v, (k, v) ∈ kvs ∧ f v = Some t.
Proof using.
  unfold pairs. rewrite list_elem_of_omap. split.
  - intros ([k' v] & Hin & Hf). simpl in Hf. destruct (f v) eqn:E; simplify_eq/=. eauto.
  - intros (v & Hin & Hf). exists (k, v). simpl. by rewrite Hf.
Qed.

Lemma NoDup_pairs kvs : NoDup kvs.*1 → NoDup (pairs kvs).*1.
Proof using.
  induction kvs as [|[k v] kvs IH]; intros Hnd; [constructor|].
  rewrite fmap_cons in Hnd. apply NoDup_cons in Hnd as [Hk Hnd]. unfold pairs. cbn [omap list_omap].
  simpl. destruct (f v) as [t|] eqn:E; simpl; [|by apply IH].
  constructor; [|by apply IH]. intros ([k' t'] & Heq & Hin)%list_elem_of_fmap.
  simpl in Heq. subst k'. apply Hk. apply elem_of_pairs in Hin as (v' & Hin & _).
  apply list_elem_of_fmap. by exists (k, v').
Qed.

Lemma list_to_map_pairs kvs m :
  kvs ≡ₚ map_to_list m → list_to_map (pairs kvs) = omap f m.
Proof using.
  intros Hp. assert (Hnd : NoDup kvs.*1) by (rewrite Hp; apply NoDup_fst_map_to_list).
  apply map_eq. intros k. apply option_eq. intros t.
  rewrite <- elem_of_list_to_map by (by apply NoDup_pairs).
  rewrite elem_of_pairs, lookup_omap_Some. setoid_rewrite Hp.
  setoid_rewrite elem_of_map_to_list. naive_solver.
Qed.

End building.

Definition update_all (n : ConfigNode) (kvs : list (str * ConfigNode)) : ConfigNode :=
  foldl (λ n kv, index_key_update kv.1 (λ _, kv.2) n) n kvs.

Lemma update_all_spec kvs n :
  NoDup kvs.*1 →
  update_all n kvs = if decide (kvs = []) then n else Object (list_to_map kvs ∪ as_object n).
Proof.
  revert n. induction kvs as [|[k t] kvs IH]; intros n Hnd; [done|].
  rewrite fmap_cons in Hnd. apply NoDup_cons in Hnd as [Hk Hnd].
  unfold update_all in *. cbn [foldl fst snd]. rewrite IH by done. rewrite (decide_False (P := _ :: _ = [])) by done.
  unfold index_key_update. cbn [as_object list_to_map foldr uncurry]. case_decide as Hd.
  - subst. unfold list_to_map. simpl. by rewrite <- insert_union_l, (left_id_L ∅ (∪)).
  - f_equal. rewrite <- insert_union_r, insert_union_l; [done|].
    by apply not_elem_of_list_to_map_1.
Qed.

(** *** Lines *)

Lemma ini_section_step d cur root s :
  plain_section s →
  ini_line d (cur, root) (lit "[" ++ s ++ lit "]") = (s, index_key_update s (λ _, null_node) root).
Proof.
  intros (Ht & _ & _). change (lit "[" ++ s ++ lit "]") with ("["%char :: s ++ ["]"%char]).
  unfold ini_line. rewrite trimmed_trim by (by apply trimmed_ends).
  cbn [Ascii.eqb Bool.eqb orb andb]. rewrite bool_decide_true by (rewrite app_comm_cons; apply last_snoc).
  cbn [length drop]. rewrite drop_0, length_app. simpl.
  replace (length s + 1 - 1) with (length s) by lia. rewrite take_app_length.
  by rewrite trimmed_trim.
Qed.

Lemma ini_entry_step cur root k q :
  plain_key k → cur ≠ [] → trimmed q →
  ini_line "=" (cur, root) (k ++ lit " " ++ lit "=" ++ lit " " ++ q)
  = (cur, index_key_update cur
            (index_key_update k (λ _, Value (VString (trim_quotes (unescape q))))) root).
Proof.
  intros (Hk & Hkn & Hke & Hhd) Hcur Hq.
  destruct (split_line "=" k q Hk Hq Hke eq_refl) as (x & y & Hs & Hx & Hy & Hh & _).
  change (lit "=" ++ lit " " ++ q) with ("="%char :: lit " " ++ q).
  unfold ini_line. destruct (trim _) as [|c l] eqn:Hl; [done|]. simpl in Hh. injection Hh as ->.
  assert (Hc : default "="%char (head k) ∉ ["["; ";"; "#"]%char).
  { destruct k as [|c k]; simpl; [by vm_compute; intros [?|[?|[?|[]%elem_of_nil]%elem_of_cons]%elem_of_cons]%elem_of_cons|].
    by apply Hhd. }
  set (c := default "="%char (head k)) in *. clearbody c.
  destruct (Ascii.eqb_spec c ";") as [->|]; [set_solver|].
  destruct (Ascii.eqb_spec c "#") as [->|]; [set_solver|].
  destruct (Ascii.eqb_spec c "[") as [->|]; [set_solver|]. cbn [orb andb].
  rewrite Hs, decide_False by done. rewrite Hx. unfold parse_value. by rewrite Hy.
Qed.

Lemma conf_entry_step root k q :
  plain_key k → trimmed q →
  conf_line "=" root (k ++ lit " " ++ lit "=" ++ lit " " ++ q)
  = index_key_update k (λ _, Value (VString (trim_quotes (unescape q)))) root.
Proof.
  intros (Hk & Hkn & Hke & Hhd) Hq.
  destruct (split_line "=" k q Hk Hq Hke eq_refl) as (x & y & Hs & Hx & Hy & Hh & _).
  change (lit "=" ++ lit " " ++ q) with ("="%char :: lit " " ++ q).
  unfold conf_line. destruct (trim _) as [|c l] eqn:Hl; [done|]. simpl in Hh. injection Hh as ->.
  destruct (Ascii.eqb_spec (default "="%char (head k)) "#") as [He|].
  { exfalso. destruct k as [|c k]; [done|]. simpl in He. subst. apply (Hhd "#"%char eq_refl). set_solver. }
  rewrite Hs, Hx. unfold parse_value. by rewrite Hy.
Qed.

(** *** Whole files *)

Section files.
Context (fmt_float : Z → str) (fmt_double : Z → Z → str)
  (order : gmap str ConfigNode → list (str * ConfigNode))
  (order_perm : ∀ m, order m ≡ₚ map_to_list m).

Notation to_str v := (config_node_value_to_string fmt_float fmt_double v default_options).
Notation image := (text_image fmt_float fmt_double).
Notation entries quote kvs :=
  (dump_entries fmt_float fmt_double quote default_options [newline] (lit "=") kvs).

(** The keys of a dumped object and the texts of its values. *)
Definition entries_ok (kvs : list (str * ConfigNode)) : Prop :=
  Forall (λ kv, plain_key kv.1 ∧ (is_value kv.2 = true → ∃ s, to_str kv.2 = Ok s)) kvs.

(** A parser step that turns the line of each entry into an update. *)
Lemma entries_fold {St} (Inv : St → Prop) (step : St → str → St) (upd : str → ConfigNode → St → St)
    (quote : str → str) kvs :
  (∀ k v st, Inv st → Inv (upd k v st)) →
  (∀ k s, (k, Value (VString s)) ∈ pairs image kvs → newline ∉ quote s) →
  (∀ k s st, Inv st → plain_key k → (k, Value (VString s)) ∈ pairs image kvs →
     step st (k ++ lit " " ++ lit "=" ++ lit " " ++ quote s) = upd k (Value (VString s)) st) →
  entries_ok kvs →
  ∃ body, entries quote kvs = Ok body ∧
    ∀ rest st, Inv st → foldl step st (getlines (body ++ rest))
      = foldl step (foldl (λ st kv, upd kv.1 kv.2 st) st (pairs image kvs)) (getlines rest).
Proof using.
  intros HInv. induction kvs as [|[k v] kvs IH]; intros Hnl Hstep Hok.
  { exists []. done. }
  apply Forall_cons in Hok as [[Hk Hv] Hok]. simpl in Hk, Hv.
  assert (Hincl : ∀ kv, kv ∈ pairs image kvs → kv ∈ pairs image ((k, v) :: kvs)).
  { intros [k' t] (v' & Hin & Hf)%elem_of_pairs. apply elem_of_pairs. exists v'. split; [by right|done]. }
  destruct IH as (body & Hb & Hfold); [|intros k' s st Hst Hk' Hin; apply Hstep; [done|done|by apply Hincl]|done|].
  { intros k' s Hin. apply (Hnl k'), Hincl, Hin. }
  destruct v as [v|m|a]; [|by exists body..].
  destruct (Hv eq_refl) as [s Hs].
  assert (Himg : image (Value v) = Some (Value (VString s))) by (unfold text_image; by rewrite Hs).
  assert (Hin : (k, Value (VString s)) ∈ pairs image ((k, Value v) :: kvs)).
  { apply elem_of_pairs. exists (Value v). split; [by left|done]. }
  assert (Hpairs : pairs image ((k, Value v) :: kvs) = (k, Value (VString s)) :: pairs image kvs).
  { unfold pairs. change (omap ?f (?x :: ?l)) with (match f x with Some y => y :: omap f l | None => omap f l end).
    cbn [fst snd]. by rewrite Himg. }
  exists (k ++ lit " " ++ lit "=" ++ lit " " ++ quote s ++ [newline] ++ body). split.
  { cbn [dump_entries]. rewrite Hs. cbn [mbind res_bind]. rewrite Hb. done. }
  intros rest st Hst.
  replace ((k ++ lit " " ++ lit "=" ++ lit " " ++ quote s ++ [newline] ++ body) ++ rest)
    with ((k ++ lit " " ++ lit "=" ++ lit " " ++ quote s) ++ newline :: body ++ rest)
    by (by rewrite <- !app_assoc).
  rewrite getlines_app.
  - cbn [foldl]. rewrite Hstep by done. rewrite Hfold, Hpairs; [done|by apply HInv].
  - pose proof (Hnl k s Hin). destruct Hk as (_ & Hk & _). rewrite !elem_of_app.
    assert (newline ∉ lit " " ∧ newline ∉ lit "=") as [? ?] by (split; intros ?%list_elem_of_singleton; done).
    tauto.
Qed.

Lemma entries_ok_order m :
  (∀ k v, m !! k = Some v → plain_key k ∧ (is_value v = true → ∃ s, to_str v = Ok s)) →
  entries_ok (order m).
Proof using order_perm.
  intros H. unfold entries_ok. rewrite order_perm. apply Forall_forall. intros [k v] Hin.
  apply elem_of_map_to_list in Hin. by apply H.
Qed.

Lemma update_all_image m n :
  update_all n (pairs image (order m))
  = if decide (omap image m = ∅) then n else Object (omap image m ∪ as_object n).
Proof using order_perm.
  rewrite update_all_spec.
  2: { apply NoDup_pairs. rewrite order_perm. apply NoDup_fst_map_to_list. }
  rewrite (list_to_map_pairs image _ m (order_perm m)).
  destruct (decide (pairs image (order m) = [])) as [Hp|Hp].
  - rewrite decide_True; [done|]. by rewrite <- (list_to_map_pairs image _ m (order_perm m)), Hp.
  - rewrite decide_False; [done|]. intros He. apply Hp.
    destruct (pairs image (order m)) as [|[k t] ps] eqn:E; [done|].
    assert (Hin : (k, t) ∈ pairs image (order m)) by (rewrite E; by left).
    apply elem_of_pairs in Hin as (v & Hin & Hf). rewrite order_perm in Hin.
    apply elem_of_map_to_list in Hin.
    assert (Hl : omap image m !! k = Some t) by (apply lookup_omap_Some; eauto).
    by rewrite He in Hl.
Qed.

(** The update of one section by the lines of its entries. *)
Definition ini_upd (k : str) (v : ConfigNode) (st : str * ConfigNode) : str * ConfigNode :=
  (st.1, index_key_update st.1 (index_key_update k (λ _, v)) st.2).

Lemma ini_upd_all ps s n root :
  foldl (λ st kv, ini_upd kv.1 kv.2 st) (s, index_key_update s (λ _, n) root) ps
  = (s, index_key_update s (λ _, update_all n ps) root).
Proof using.
  revert n. induction ps as [|[k t] ps IH]; intros n; [done|]. cbn [foldl fst snd].
  etrans; [|apply (IH (index_key_update k (λ _, t) n))]. f_equal. unfold ini_upd. cbn [fst snd].
  by rewrite index_key_update_twice.
Qed.

Lemma ini_sections secs :
  Forall (λ kv, plain_section kv.1 ∧ dumpable fmt_float fmt_double kv.2) secs →
  ∃ text, ini_dump_sections fmt_float fmt_double order default_options [newline] (lit "=") secs = Ok text ∧
    ∀ cur root, (foldl (ini_line "=") (cur, root) (getlines text)).2
      = update_all root (prod_map id (section_image fmt_float fmt_double) <$> secs).
Proof using order_perm.
  induction 1 as [|[s n] secs [Hs Hm] _ (text & Ht & IH)]; [by exists []|]. simpl in Hs, Hm.
  destruct Hm as (m & -> & Hm).
  pose proof (entries_ok_order m Hm) as Hok.
  destruct (entries_fold (λ st, st.1 ≠ []) (ini_line "=") ini_upd add_quotes_if_needed (order m))
    as (body & Hb & Hfold); [done| | |done|].
  { intros k v _. apply quoted_value. }
  { intros k v [cur root] Hcur Hk _. destruct (quoted_value v) as (Htr & _ & Hq).
    rewrite ini_entry_step by done. by rewrite Hq. }
  exists (lit "[" ++ s ++ lit "]" ++ [newline] ++ body ++ [newline] ++ text). split.
  { cbn [ini_dump_sections]. rewrite Hb. cbn [mbind res_bind]. rewrite Ht. done. }
  intros cur root.
  replace (lit "[" ++ s ++ lit "]" ++ [newline] ++ body ++ [newline] ++ text)
    with ((lit "[" ++ s ++ lit "]") ++ newline :: body ++ [newline] ++ text)
    by (by rewrite <- !app_assoc).
  rewrite getlines_app.
  2: { destruct Hs as (_ & Hs & _). rewrite !elem_of_app.
       assert (newline ∉ lit "[" ∧ newline ∉ lit "]") as [? ?]
         by (split; intros ?%list_elem_of_singleton; done). tauto. }
  cbn [foldl]. rewrite ini_section_step by done. rewrite Hfold by apply Hs.
  rewrite ini_upd_all. change (getlines ([newline] ++ text)) with ([] :: getlines text).
  cbn [foldl ini_line trim ltrim rtrim]. change (trim []) with (@nil ascii). cbv iota beta.
  rewrite IH. unfold update_all at 3. rewrite fmap_cons. cbn [foldl fst snd prod_map].
  rewrite update_all_image. f_equal. unfold index_key_update, section_image. cbn [as_object].
  case_decide; [done|]. cbn [null_node as_object]. by rewrite (right_id_L ∅ (∪)).
Qed.

Lemma NoDup_keys m (g : ConfigNode → ConfigNode) : NoDup (prod_map id g <$> order m).*1.
Proof using order_perm.
  rewrite <- list_fmap_compose.
  rewrite (list_fmap_ext _ fst) by (by intros i [k v]). rewrite order_perm. apply NoDup_fst_map_to_list.
Qed.

Lemma list_to_map_order m (g : ConfigNode → ConfigNode) :
  list_to_map (prod_map id g <$> order m) = g <$> m.
Proof using order_perm.
  rewrite list_to_map_fmap. f_equal.
  rewrite (list_to_map_proper _ (map_to_list m)); [apply list_to_map_to_list | |apply order_perm].
  rewrite order_perm. apply NoDup_fst_map_to_list.
Qed.

(** Dumping a file of sections, then parsing it on top of [root]. *)
Lemma ini_dump_parse m root :
  map_Forall (λ s n, plain_section s ∧ dumpable fmt_float fmt_double n) m →
  ∃ text, ini_dump fmt_float fmt_double order default_options None (Object m)
          = Ok (text, Some ([newline], lit "=")) ∧
    ini_parse default_options text root
    = Ok (if decide (m = ∅) then root
          else Object ((section_image fmt_float fmt_double <$> m) ∪ as_object root)).
Proof using order_perm.
  intros H. destruct (ini_sections (order m)) as (text & Ht & Hp).
  { rewrite order_perm. apply Forall_forall. intros [s n] Hin%elem_of_map_to_list. by apply H. }
  exists text. split.
  { unfold ini_dump. assert (dump_statics "ini_key_value_delimiter" default_options None
      = Ok ([newline], lit "=")) as -> by done. cbn [mbind res_bind]. by rewrite Ht. }
  unfold ini_parse. assert (get_option_string "ini_key_value_delimiter" (lit "=") default_options
    = Ok (lit "=")) as -> by done. cbn [mbind res_bind mret res_ret].
  change (first_char (lit "=")) with "="%char. rewrite Hp, update_all_spec by apply NoDup_keys.
  rewrite list_to_map_order. f_equal.
  destruct (decide (m = ∅)) as [->|Hm].
  - assert (Ho : order ∅ = []) by (apply Permutation_nil_r; by rewrite order_perm, map_to_list_empty).
    by rewrite Ho.
  - rewrite decide_False; [done|]. intros He%fmap_nil_inv. apply Hm.
    apply map_to_list_empty_iff, Permutation_nil_r. by rewrite <- order_perm, He.
Qed.

(** The same for a flat file without quoting. *)
Definition conf_read (n : ConfigNode) : ConfigNode :=
  match n with
  | Value (VString s) => Value (VString (trim_quotes (unescape s)))
  | _ => n
  end.

Definition conf_entry (k : str) (n : ConfigNode) : Prop :=
  plain_key k ∧ ∃ s, n = Value (VString s) ∧ trimmed s ∧ newline ∉ s.

Lemma conf_dump_parse m root :
  map_Forall conf_entry m →
  ∃ text, conf_dump fmt_float fmt_double order default_options None (Object m)
          = Ok (text, Some ([newline], lit "=")) ∧
    conf_parse default_options text root
    = Ok (if decide (m = ∅) then root else Object ((conf_read <$> m) ∪ as_object root)).
Proof using order_perm.
  intros H. set (upd k v (st : ConfigNode) := index_key_update k (λ _, conf_read v) st).
  assert (Himg : ∀ k s, (k, Value (VString s)) ∈ pairs image (order m) → trimmed s ∧ newline ∉ s).
  { intros k s (v & Hin & Hf)%elem_of_pairs. rewrite order_perm in Hin. apply elem_of_map_to_list in Hin.
    destruct (H k v Hin) as (_ & s' & -> & Hs). simpl in Hf. by simplify_eq. }
  destruct (entries_fold (λ _, True) (conf_line "=") upd (λ s, s) (order m)) as (body & Hb & Hfold).
  { done. }
  { intros k s Hin. by apply (Himg k). }
  { intros k s st _ Hk Hin. destruct (Himg k s Hin). by rewrite conf_entry_step. }
  { apply entries_ok_order. intros k v Hv. destruct (H k v Hv) as (Hk & s & -> & _). eauto. }
  exists body. split.
  { unfold conf_dump. assert (dump_statics "conf_key_value_delimiter" default_options None
      = Ok ([newline], lit "=")) as -> by done. cbn [mbind res_bind]. by rewrite Hb. }
  unfold conf_parse. assert (get_option_string "conf_key_value_delimiter" (lit "=") default_options
    = Ok (lit "=")) as -> by done. cbn [mbind res_bind mret res_ret].
  change (first_char (lit "=")) with "="%char. f_equal.
  specialize (Hfold [] root I). rewrite app_nil_r in Hfold. rewrite Hfold. cbn [getlines getlines_from foldl].
  rewrite decide_True by done. cbn [foldl].
  assert (Hall : ∀ ps st, foldl (λ st kv, upd kv.1 kv.2 st) st ps
                          = update_all st (prod_map id conf_read <$> ps)).
  { induction ps as [|[k v] ps IH]; intros st; [done|]. cbn [foldl fst snd]. by rewrite IH. }
  rewrite Hall. assert (Hpairs : pairs image (order m) = order m).
  { assert (Hok : Forall (λ kv, image kv.2 = Some kv.2) (order m)).
    { rewrite order_perm. apply Forall_forall. intros [k v] Hin%elem_of_map_to_list.
      by destruct (H k v Hin) as (_ & s & -> & _). }
    clear -Hok. induction Hok as [|[k v] kvs Hkv _ IH]; [done|]. unfold pairs in *.
    change (match (pair (k, v).1 <$> image (k, v).2) with
            | Some y => y :: omap (λ kv, pair kv.1 <$> image kv.2) kvs
            | None => omap (λ kv, pair kv.1 <$> image kv.2) kvs end = (k, v) :: kvs).
    rewrite Hkv. simpl. by f_equal. }
  rewrite Hpairs, update_all_spec by apply NoDup_keys. rewrite list_to_map_order.
  destruct (decide (m = ∅)) as [->|Hm].
  - assert (Ho : order ∅ = []) by (apply Permutation_nil_r; by rewrite order_perm, map_to_list_empty).
    by rewrite Ho.
  - rewrite decide_False; [done|]. intros He%fmap_nil_inv. apply Hm.
    apply map_to_list_empty_iff, Permutation_nil_r. by rewrite <- order_perm, He.
Qed.

End files.

(** ** Properties *)

(** What a caller may put in a configuration of strings. *)
Definition string_section (s : str) (n : ConfigNode) : Prop :=
  plain_section s ∧ ∃ ms, n = Object ms ∧ ms ≠ ∅ ∧
    map_Forall (λ k v, plain_key k ∧ ∃ t, v = Value (VString t)) ms.

(** Sections of strings are printed and read without loss. *)
Lemma string_section_image (fmt_float : Z → str) (fmt_double : Z → Z → str) (m : gmap str ConfigNode) : map_Forall string_section m →
  ∀ s n, m !! s = Some n →
    dumpable fmt_float fmt_double n ∧ section_image fmt_float fmt_double n = n.
Proof.
  intros H s n Hn. destruct (H s n Hn) as (_ & ms & -> & Hms & Hall). split.
  - exists ms. split; [done|]. intros k v Hv. destruct (Hall k v Hv) as [Hk [t ->]]. eauto.
  - unfold section_image. cbn [as_object].
    assert (Ho : omap (text_image fmt_float fmt_double) ms = ms).
    { apply map_eq. intros k. rewrite lookup_omap. destruct (ms !! k) as [v|] eqn:Hv; [|done].
      by destruct (Hall k v Hv) as [_ [t ->]]. }
    by rewrite Ho, decide_False.
Qed.

(** C9: dumping an INI configuration whose values are strings, any strings
    whatever (line breaks, quotes, backslashes and outer blanks included), and
    parsing the text gives the configuration back, for every iteration order of
    the hash maps. *)
Theorem ini_roundtrip fmt_float fmt_double order m :
  (∀ m, order m ≡ₚ map_to_list m) → m ≠ ∅ → map_Forall string_section m →
  ∃ text st, ini_dump fmt_float fmt_double order default_options None (Object m) = Ok (text, st) ∧
    ini_parse default_options text null_node = Ok (Object m).
Proof.
  intros Hord Hm H.
  pose proof (string_section_image fmt_float fmt_double m H) as Himg.
  destruct (ini_dump_parse fmt_float fmt_double order Hord m null_node) as (text & Hd & Hp).
  { intros s n Hn. split; [by apply (H s n)|by apply (Himg s)]. }
  eexists text, _. split; [exact Hd|]. rewrite Hp, decide_False by done.
  cbn [as_object null_node]. rewrite (right_id_L ∅ (∪)). do 2 f_equal. apply map_eq. intros s.
  rewrite lookup_fmap. destruct (m !! s) as [n|] eqn:Hn; [|done]. simpl. f_equal. by apply (Himg s).
Qed.

(** with values of any type, dumping then parsing on top of an existing root
    replaces exactly the dumped sections: every scalar comes back as the string
    it was printed as, nested containers are dropped, and a section without
    scalars comes back as an empty value. *)
Theorem ini_roundtrip_image fmt_float fmt_double order m root :
  (∀ m, order m ≡ₚ map_to_list m) → m ≠ ∅ →
  map_Forall (λ s n, plain_section s ∧ dumpable fmt_float fmt_double n) m →
  ∃ text st, ini_dump fmt_float fmt_double order default_options None (Object m) = Ok (text, st) ∧
    ini_parse default_options text root
    = Ok (Object ((section_image fmt_float fmt_double <$> m) ∪ as_object root)).
Proof.
  intros Hord Hm H. destruct (ini_dump_parse fmt_float fmt_double order Hord m root H) as (text & Hd & Hp).
  eexists text, _. split; [exact Hd|]. by rewrite Hp, decide_False.
Qed.

(** a CONF dump does not quote: for values without line breaks and outer
    blanks, parsing gives back the unescaped and unquoted form of each value,
    so the configuration survives exactly when that form is the value itself. *)
Theorem conf_roundtrip fmt_float fmt_double order m :
  (∀ m, order m ≡ₚ map_to_list m) → m ≠ ∅ → map_Forall conf_entry m →
  ∃ text st, conf_dump fmt_float fmt_double order default_options None (Object m) = Ok (text, st) ∧
    conf_parse default_options text null_node = Ok (Object (conf_read <$> m)).
Proof.
  intros Hord Hm H. destruct (conf_dump_parse fmt_float fmt_double order Hord m null_node H) as (text & Hd & Hp).
  eexists text, _. split; [exact Hd|]. rewrite Hp, decide_False by done.
  cbn [as_object null_node]. by rewrite (right_id_L ∅ (∪)).
Qed.

(** a file with a section header and no entry parses to a section that is
    not an object, and dumping what was parsed throws. *)
Theorem ini_empty_section_throws fmt_float fmt_double order s st :
  (∀ m, order m ≡ₚ map_to_list m) → plain_section s →
  ∃ root, ini_parse default_options (lit "[" ++ s ++ lit "]" ++ [newline]) null_node = Ok root ∧
    ini_dump fmt_float fmt_double order default_options st root = Throw BadVariantAccess.
Proof.
  intros Hord Hs. exists (Object {[s := null_node]}). split.
  - unfold ini_parse. assert (get_option_string "ini_key_value_delimiter" (lit "=") default_options
      = Ok (lit "=")) as -> by done. cbn [mbind res_bind mret res_ret].
    replace (lit "[" ++ s ++ lit "]" ++ [newline]) with ((lit "[" ++ s ++ lit "]") ++ newline :: [])
      by (by rewrite <- !app_assoc).
    rewrite getlines_app.
    + cbn [foldl]. rewrite ini_section_step by done. done.
    + destruct Hs as (_ & Hs & _). rewrite !elem_of_app.
      assert (newline ∉ lit "[" ∧ newline ∉ lit "]") as [? ?]
        by (split; intros ?%list_elem_of_singleton; done). tauto.
  - unfold ini_dump. assert (Hst : ∃ x, dump_statics "ini_key_value_delimiter" default_options st = Ok x)
      by (destruct st; eauto). destruct Hst as [[el d] ->]. cbn [mbind res_bind].
    assert (Ho : order {[s := null_node]} = [(s, null_node)]).
    { apply Permutation_singleton_r. by rewrite Hord, map_to_list_singleton. }
    by rewrite Ho.
Qed.

(** ** Witnesses *)

(** Decides that a literal name is plain. *)
Ltac plain :=
  repeat match goal with
  | |- plain_section _ => unfold plain_section
  | |- plain_key _ => unfold plain_key
  | |- trimmed _ => split; reflexivity
  | |- _ ∧ _ => split
  | |- _ ∉ _ => apply (bool_decide_unpack _); vm_compute; exact I
  | |- ∀ c, head _ = Some c → _ =>
      intros c Hc; vm_compute in Hc; injection Hc as <-; apply (bool_decide_unpack _); vm_compute; exact I
  end.

(** A value with a line break, quotes, a backslash and outer blanks. *)
Definition odd_value : str :=
  lit " a" ++ [newline; dquote; backslash; squote] ++ lit "b= ".

Definition demo_config : gmap str ConfigNode :=
  {[lit "net" := Object {[lit "banner" := Value (VString odd_value)]}]}.

Lemma ini_roundtrip_witness :
  ∃ text st, ini_dump (λ _, []) (λ _ _, []) map_to_list default_options None (Object demo_config) = Ok (text, st) ∧
    ini_parse default_options text null_node = Ok (Object demo_config).
Proof.
  apply (ini_roundtrip (λ _, []) (λ _ _, []) map_to_list demo_config); [done | done |].
  apply map_Forall_singleton. split; [plain; done|]. eexists. split; [done|]. split; [done|].
  apply map_Forall_singleton. split; [plain|]. by eexists.
Defined.

Lemma ini_roundtrip_image_witness :
  ∃ text st, ini_dump (λ _, []) (λ _ _, []) map_to_list default_options None
      (Object {[lit "net" := Object {[lit "port" := Value (VInt U16 8080)]}]}) = Ok (text, st) ∧
    ini_parse default_options text (Object {[lit "log" := null_node]})
    = Ok (Object {[lit "net" := Object {[lit "port" := Value (VString (lit "8080"))]};
                   lit "log" := null_node]}).
Proof.
  replace (Object {[lit "net" := Object {[lit "port" := Value (VString (lit "8080"))]};
                    lit "log" := null_node]})
    with (Object ((section_image (λ _, []) (λ _ _, []) <$>
                     {[lit "net" := Object {[lit "port" := Value (VInt U16 8080)]}]})
                  ∪ as_object (Object {[lit "log" := null_node]}))) by (vm_compute; reflexivity).
  apply (ini_roundtrip_image (λ _, []) (λ _ _, []) map_to_list
    {[lit "net" := Object {[lit "port" := Value (VInt U16 8080)]}]} (Object {[lit "log" := null_node]}));
    [done | done |].
  apply map_Forall_singleton. split; [plain; done|]. eexists. split; [done|].
  apply map_Forall_singleton. split; [plain|]. by eexists.
Defined.

(** The value [\n] (two characters) comes back as a line break. *)
Lemma conf_roundtrip_witness :
  ∃ text st, conf_dump (λ _, []) (λ _ _, []) map_to_list default_options None
      (Object {[lit "sep" := Value (VString [backslash; "n"%char])]}) = Ok (text, st) ∧
    conf_parse default_options text null_node
    = Ok (Object {[lit "sep" := Value (VString [newline])]}).
Proof.
  replace (Object {[lit "sep" := Value (VString [newline])]})
    with (Object (conf_read <$> {[lit "sep" := Value (VString [backslash; "n"%char])]}))
    by (vm_compute; reflexivity).
  apply (conf_roundtrip (λ _, []) (λ _ _, []) map_to_list
    {[lit "sep" := Value (VString [backslash; "n"%char])]}); [done | done |].
  apply map_Forall_singleton. split; [plain|]. eexists. split; [done|]. plain.
Defined.

Lemma ini_empty_section_throws_witness :
  ∃ root, ini_parse default_options (lit "[net]" ++ [newline]) null_node = Ok root ∧
    ini_dump (λ _, []) (λ _ _, []) map_to_list default_options None root = Throw BadVariantAccess.
Proof.
  apply (ini_empty_section_throws (λ _, []) (λ _ _, []) map_to_list (lit "net") None); [done | plain; done].
Defined.
