(* ===== verification/EventLoop.v ===== *)
(** * Connections and the event loop (core/net_io, core/eventloop)

    Connections live in a store and are reference counted; the loop keeps the
    set of registered ones, the timers and the queued tasks.  What the user's
    callbacks do is a parameter; calls of callbacks, system calls that close a
    descriptor and deletions are recorded as events. *)

From S2P Require Import Prelude.
From stdpp Require Import sets.
Local Open Scope Z_scope.

(** ** Data *)

(** [in_loop] is [_loop != nullptr], [has_cb] is [_disconn_cb != NULL]. *)
Record net_io := NetIo {
  fd : Z; brk_tm : Z; err : Z; in_loop : bool; has_cb : bool; ref_ : Z
}.

Record timer_info_t := Timer {
  tid : Z; count : Z; gap : Z; expire : Z; param : Z
}.

Inductive event :=
| EvDisconnect (errno : Z) (p : positive)
| EvSysClose (fd : Z)
| EvDelete (p : positive)
| EvTask (t : nat)
| EvTimer (param : Z).

Record world := World {
  objs : gmap positive net_io;
  conns : gset positive;
  timers : list timer_info_t;
  tasks : list nat;
  running : bool;
  wakes : Z;
  clock : Z;
  events : list event
}.

Definition set_objs (m : gmap positive net_io) (w : world) : world :=
  World m (conns w) (timers w) (tasks w) (running w) (wakes w) (clock w) (events w).
Definition set_conns (s : gset positive) (w : world) : world :=
  World (objs w) s (timers w) (tasks w) (running w) (wakes w) (clock w) (events w).
Definition set_timers (l : list timer_info_t) (w : world) : world :=
  World (objs w) (conns w) l (tasks w) (running w) (wakes w) (clock w) (events w).
Definition set_tasks (l : list nat) (w : world) : world :=
  World (objs w) (conns w) (timers w) l (running w) (wakes w) (clock w) (events w).
Definition set_running (b : bool) (w : world) : world :=
  World (objs w) (conns w) (timers w) (tasks w) b (wakes w) (clock w) (events w).
Definition set_wakes (n : Z) (w : world) : world :=
  World (objs w) (conns w) (timers w) (tasks w) (running w) n (clock w) (events w).
Definition emit (e : event) (w : world) : world :=
  World (objs w) (conns w) (timers w) (tasks w) (running w) (wakes w) (clock w) (events w ++ [e]).

(** ** Connections *)

Definition get_obj (p : positive) (w : world) : res net_io := deref UseAfterFree (objs w !! p).

Definition put_obj (p : positive) (c : net_io) (w : world) : world := set_objs (<[p := c]> (objs w)) w.

(** [net_io(fnc, disconn_cb)] *)
Definition net_io_create (disconn_cb : bool) : net_io := NetIo (-1) 0 0 false disconn_cb 1.

(** [create()]: [s] is what [::socket] returns and [e] the [errno] it leaves. *)
Definition net_io_socket (s e : Z) (c : net_io) : net_io * Z :=
  let c := NetIo s (brk_tm c) (if s =? -1 then e else err c) (in_loop c) (has_cb c) (ref_ c) in
  let c := NetIo (fd c) (brk_tm c) 0 (in_loop c) (has_cb c) (ref_ c) in
  (c, s).

(** [connect]: the result of [::connect]. *)
Definition net_io_connect (ret e : Z) (c : net_io) : bool * net_io :=
  if ret =? -1 then (false, NetIo (fd c) (brk_tm c) e (in_loop c) (has_cb c) (ref_ c))
  else (true, NetIo (fd c) 0 (err c) (in_loop c) (has_cb c) (ref_ c)).

(** [bind] and [listen]: the result of the system call. *)
Definition net_io_syscall (ret e : Z) (c : net_io) : bool * net_io :=
  (ret =? 0, if ret =? -1 then NetIo (fd c) (brk_tm c) e (in_loop c) (has_cb c) (ref_ c) else c).

Definition add_ref (p : positive) (w : world) : res world :=
  c ← get_obj p w;
  mret (put_obj p (NetIo (fd c) (brk_tm c) (err c) (in_loop c) (has_cb c) (ref_ c + 1)) w).

Definition net_io_close (p : positive) (w : world) : res world :=
  c ← get_obj p w;
  if fd c <? 0 then
    mret (put_obj p (NetIo (-1) (brk_tm c) (err c) (in_loop c) (has_cb c) (ref_ c))
            (emit (EvSysClose (fd c)) w))
  else mret w.

Definition OnClose (p : positive) (w : world) : res world :=
  c ← get_obj p w;
  if has_cb c then
    mret (put_obj p (NetIo (fd c) (brk_tm c) (err c) (in_loop c) false (ref_ c))
            (emit (EvDisconnect (err c) p) w))
  else mret w.

Definition set_in_loop (b : bool) (p : positive) (w : world) : res world :=
  c ← get_obj p w;
  mret (put_obj p (NetIo (fd c) (brk_tm c) (err c) b (has_cb c) (ref_ c)) w).

Definition wakeup (w : world) : world := if running w then set_wakes (wakes w + 1) w else w.

(** [release], given the destructor. *)
Definition release_with (dtor : positive → world → res world) (p : positive) (w : world) : res world :=
  c ← get_obj p w;
  let r := ref_ c - 1 in
  let w := put_obj p (NetIo (fd c) (brk_tm c) (err c) (in_loop c) (has_cb c) r) w in
  if r =? 0 then
    w ← dtor p w;
    mret (set_objs (delete p (objs w)) (emit (EvDelete p) w))
  else mret w.

Definition remove_net_with (dtor : positive → world → res world) (p : positive) (w : world) : res world :=
  w ← (if decide (p ∈ conns w) then
         w ← set_in_loop false p w;
         w ← release_with dtor p w;
         mret (set_conns (conns w ∖ {[p]}) w)
       else mret w);
  mret (wakeup w).

(** [terminate], which the destructor runs too. *)
Fixpoint terminate_fuel (fuel : nat) (p : positive) (w : world) : res world :=
  match fuel with
  | O => NoFuel
  | S fuel =>
      c ← get_obj p w;
      w ← (if in_loop c then
             w ← remove_net_with (terminate_fuel fuel) p w;
             w ← set_in_loop false p w;
             OnClose p w
           else mret w);
      c ← get_obj p w;
      w ← (if brk_tm c =? 0 then mret w else net_io_close p w);
      c ← get_obj p w;
      mret (put_obj p (NetIo (fd c) (clock w) (err c) (in_loop c) (has_cb c) (ref_ c)) w)
  end.

(** A destructor reached from [terminate] finds the connection out of the loop,
    so two levels are enough. *)
Definition terminate : positive → world → res world := terminate_fuel 3.
Definition release : positive → world → res world := release_with terminate.
Definition remove_net : positive → world → res world := remove_net_with terminate.

(** ** The loop *)

Definition add_net (p : positive) (w : world) : res world :=
  if running w then
    w ← set_in_loop true p w;
    mret (wakeup (set_conns ({[p]} ∪ conns w) w))
  else mret w.

Fixpoint remove_each (ps : list positive) (w : world) : res world :=
  match ps with
  | [] => mret w
  | p :: ps =>
      w ← set_in_loop false p w;
      w ← OnClose p w;
      w ← release p w;
      remove_each ps w
  end.

Definition remove_all (w : world) : res world :=
  w ← remove_each (elements (conns w)) w;
  mret (set_conns ∅ w).

Definition add_timer (now : Z) (t : timer_info_t) (w : world) : world :=
  set_timers (timers w ++ [Timer (tid t) (count t) (gap t) (now + gap t) (param t)]) w.

(** The loop of [remove_timer] *)
Fixpoint erase_timers (timer_id : Z) (l : list timer_info_t) : list timer_info_t :=
  match l with
  | [] => []
  | t :: l => if tid t =? timer_id then erase_timers timer_id l else t :: erase_timers timer_id l
  end.

Definition remove_timer (timer_id : Z) (w : world) : world :=
  set_timers (erase_timers timer_id (timers w)) w.

(** One round of the loop of [process_timer]: the iterator as a position
    ([None] once its element has been erased), the list, the due timers. *)
Definition timer_body (now : Z) (s : option nat * list timer_info_t * list timer_info_t)
    : res (option nat * list timer_info_t * list timer_info_t + list timer_info_t * list timer_info_t) :=
  let '(it, l, due) := s in
  it ← deref InvalidIterator it;
  match l !! it with
  | None => mret (inr (l, due))
  | Some t =>
      if now <? expire t then mret (inl (Some it, l, due))
      else
        let due := due ++ [t] in
        let count := if 0 <? count t then count t - 1 else count t in
        if count =? 0 then mret (inl (None, delete it l, due))
        else
          let t := Timer (tid t) count (gap t) (expire t + gap t) (param t) in
          mret (inl (Some it, <[it := t]> l, due))
  end.

Definition process_timer (fuel : nat) (now : Z) (w : world) : res world :=
  '(l, due) ← run_loop fuel (timer_body now) (Some 0%nat, timers w, []);
  mret (foldl (λ w t, emit (EvTimer (param t)) w) (set_timers l w) due).

(** [process_task]: the effect of a task on the world is a parameter. *)
Definition process_task (run_task : nat → world → world) (w : world) : world :=
  let tsks := tasks w in
  foldl (λ w t, run_task t (emit (EvTask t) w)) (set_tasks [] w) tsks.

Definition add_task (t : nat) (w : world) : world :=
  if running w then wakeup (set_tasks (tasks w ++ [t]) w) else w.

Definition stop (w : world) : world := wakeup (set_running false w).

Definition handle_read (w : world) : world := set_wakes 0 w.

(** [FD_SET] on an [fd_set] of 1024 bits. *)
Definition fd_setsize : Z := 1024.

Fixpoint collect (ps : list positive) (w : world) : res world :=
  match ps with
  | [] => mret w
  | p :: ps =>
      w ← add_ref p w;
      c ← get_obj p w;
      if (0 <=? fd c) && (fd c <? fd_setsize) then collect ps w else Fault OutOfBounds
  end.

(** The objects of the loop may have a state of their own (the classes derived
    from [net_io]): the handlers run on a state that contains the loop's. *)
Class HasWorld (S : Type) := {
  the_world : S → world;
  with_world : world → S → S;
  the_with_world : ∀ w s, the_world (with_world w s) = w
}.

#[export] Instance world_alone : HasWorld world :=
  {| the_world w := w; with_world w _ := w; the_with_world _ _ := eq_refl |}.

Section handlers.
Context {S : Type} `{HasWorld S} (on_read on_send : positive → S → res S).

(** What [select] left in the two sets. *)
Context (readable writable : Z → bool).

Fixpoint dispatch (ps : list positive) (s : S) : res S :=
  match ps with
  | [] => mret s
  | p :: ps =>
      c ← get_obj p (the_world s);
      s ← (if readable (fd c) then on_read p s else mret s);
      c ← get_obj p (the_world s);
      s ← (if writable (fd c) then on_send p s else mret s);
      w ← release p (the_world s);
      dispatch ps (with_world w s)
  end.

(** One round of [loop] after the timers and the tasks. *)
Definition loop_io (wake_ready : bool) (s : S) : res S :=
  let ps := elements (conns (the_world s)) in
  w ← collect ps (the_world s);
  dispatch ps (with_world (if wake_ready then handle_read w else w) s).

End handlers.

(** The constructor; the wakeup descriptor of [create_wakeup_fd] is only the
    count [wakes] here. *)
Definition eventloop_create (now : Z) : world := World ∅ ∅ [] [] true 0 now [].

(** The destructor. *)
Definition eventloop_destroy (w : world) : res world :=
  w ← remove_all (set_running false w);
  mret (set_timers [] w).

(** One round of [loop]: timers, tasks, then the connections. *)
Definition loop_round {S} `{HasWorld S} (fuel : nat) (now : Z) (run_task : nat → world → world)
    (on_read on_send : positive → S → res S) (readable writable : Z → bool)
    (wake_ready : bool) (s : S) : res S :=
  w ← process_timer fuel now (the_world s);
  loop_io on_read on_send readable writable wake_ready (with_world (process_task run_task w) s).

(** The busy variant runs the tasks first and does not call [select]: every
    descriptor it has put in a set is still there. *)
Definition loop_busy_round {S} `{HasWorld S} (fuel : nat) (now : Z) (run_task : nat → world → world)
    (on_read on_send : positive → S → res S) (pending : Z → bool) (s : S) : res S :=
  w ← process_timer fuel now (process_task run_task (the_world s));
  loop_io on_read on_send (λ _, true) pending true (with_world w s).

(** *** Acceptor (core/ngx_acceptor) *)

(** [init]: the results of [::socket], [::bind] and [::listen] with the [errno]
    each leaves; the flag tells that the acceptor is ready. *)
Definition ngx_acceptor_init (sock bind_ listen_ : Z * Z) (c : net_io) : bool * net_io :=
  let '(c, s) := net_io_socket sock.1 sock.2 c in
  if fd c <? 0 then (false, c)
  else
    let '(ok, c) := net_io_syscall bind_.1 bind_.2 c in
    if negb ok then (false, c)
    else net_io_syscall listen_.1 listen_.2 c.

(** [OnRead]: the result of [::accept]; [Some] is the argument of the callback. *)
Definition ngx_acceptor_on_read (cli e : Z) (cb : bool) (c : net_io) : option Z * net_io :=
  if cli =? -1 then (None, NetIo (fd c) (brk_tm c) e (in_loop c) (has_cb c) (ref_ c))
  else (if cb then Some cli else None, c).

(** ** Specification *)

(** References: one for the registration in the loop, [ext p] held elsewhere. *)
Definition conn_ok (ext : positive → Z) (w : world) (p : positive) : Prop :=
  0 ≤ ext p ∧
  match objs w !! p with
  | Some c => ref_ c = (if decide (p ∈ conns w) then 1 else 0) + ext p ∧ 0 < ref_ c ∧
              in_loop c = bool_decide (p ∈ conns w)
  | None => ext p = 0 ∧ p ∉ conns w
  end.

Definition refs_ok (ext : positive → Z) (w : world) : Prop := ∀ p, conn_ok ext w p.

(** One more, or one less, external reference to [p]. *)
Definition hold (p : positive) (n : Z) (ext : positive → Z) (q : positive) : Z :=
  if decide (q = p) then ext q + n else ext q.

(** No valid descriptor is closed between two worlds, and the loop is not
    stopped nor given work. *)
Definition harmless (e : event) : Prop :=
  match e with EvSysClose fd => fd < 0 | _ => True end.

Definition quiet (w w' : world) : Prop :=
  (running w' = running w ∧ timers w' = timers w ∧ tasks w' = tasks w) ∧
  ∃ es, events w' = events w ++ es ∧ Forall harmless es.

#[export] Instance quiet_preorder : PreOrder quiet.
Proof.
  split.
  - intros w. split; [done|]. exists []. by rewrite app_nil_r.
  - intros a b c (R1 & es & H1 & F1) (R2 & es' & H2 & F2).
    split; [destruct R1 as (? & ? & ?), R2 as (? & ? & ?); split_and!; congruence|]. exists (es ++ es').
    split; [by rewrite H2, H1, app_assoc | by apply Forall_app].
Qed.

Lemma quiet_same w w' : events w' = events w → running w' = running w →
  timers w' = timers w → tasks w' = tasks w → quiet w w'.
Proof. intros H R1 R2 R3. split; [done|]. exists []. by rewrite app_nil_r. Qed.

Lemma quiet_emit e w w' : harmless e → events w' = events w ++ [e] → running w' = running w →
  timers w' = timers w → tasks w' = tasks w → quiet w w'.
Proof. intros H He R1 R2 R3. split; [done|]. exists [e]. split; [done|]. by constructor. Qed.

(** ** Lemmas *)

(** *** References *)

Lemma refs_same ext w w' :
  objs w' = objs w → conns w' = conns w → refs_ok ext w → refs_ok ext w'.
Proof. intros Ho Hc H p. specialize (H p). unfold conn_ok in *. by rewrite Ho, Hc. Qed.

Lemma refs_ext ext ext' w : (∀ q, ext q = ext' q) → refs_ok ext w → refs_ok ext' w.
Proof. intros He H q. specialize (H q). unfold conn_ok in *. by rewrite <- (He q). Qed.

Lemma refs_live ext w p :
  refs_ok ext w → 0 < ext p ∨ p ∈ conns w → ∃ c, objs w !! p = Some c ∧
    ref_ c = (if decide (p ∈ conns w) then 1 else 0) + ext p ∧ in_loop c = bool_decide (p ∈ conns w).
Proof.
  intros H Hp. destruct (H p) as [H0 Hc]. destruct (objs w !! p) as [c|]; [|naive_solver lia].
  exists c. naive_solver.
Qed.

(** Changing one connection, its registration and its external references. *)
Lemma refs_put ext ext' w w' p c' :
  refs_ok ext w → (∀ q, q ≠ p → ext' q = ext q ∧ (q ∈ conns w' ↔ q ∈ conns w)) →
  objs w' = <[p := c']> (objs w) → 0 ≤ ext' p → 0 < ref_ c' →
  ref_ c' = (if decide (p ∈ conns w') then 1 else 0) + ext' p →
  in_loop c' = bool_decide (p ∈ conns w') →
  refs_ok ext' w'.
Proof.
  intros H Hq Ho He Hr Hrc Hin q. unfold conn_ok. rewrite Ho. destruct (decide (q = p)) as [->|Hne].
  - rewrite lookup_insert_eq. by split_and!.
  - rewrite lookup_insert_ne by done. destruct (Hq q Hne) as [He' Hc']. specialize (H q).
    unfold conn_ok in H. rewrite He'. destruct (objs w !! q) as [c|].
    + rewrite (bool_decide_ext _ _ Hc'). destruct (decide (q ∈ conns w')), (decide (q ∈ conns w)); naive_solver.
    + naive_solver.
Qed.

(** Deleting one. *)
Lemma refs_delete ext ext' w w' p :
  refs_ok ext w → (∀ q, q ≠ p → ext' q = ext q ∧ (q ∈ conns w' ↔ q ∈ conns w)) →
  objs w' = delete p (objs w) → ext' p = 0 → p ∉ conns w' →
  refs_ok ext' w'.
Proof.
  intros H Hq Ho He Hp q. unfold conn_ok. rewrite Ho. destruct (decide (q = p)) as [->|Hne].
  - rewrite lookup_delete_eq. split; [lia|done].
  - rewrite lookup_delete_ne by done. destruct (Hq q Hne) as [He' Hc']. specialize (H q).
    unfold conn_ok in H. rewrite He'. destruct (objs w !! q) as [c|].
    + rewrite (bool_decide_ext _ _ Hc'). destruct (decide (q ∈ conns w')), (decide (q ∈ conns w)); naive_solver.
    + naive_solver.
Qed.

(** *** Operations on one connection *)

(** An operation that changes neither the reference count nor the registration. *)
Definition touches (p : positive) (w w' : world) : Prop :=
  ∃ c c', objs w !! p = Some c ∧ objs w' = <[p := c']> (objs w) ∧ conns w' = conns w ∧
    ref_ c' = ref_ c ∧ in_loop c' = in_loop c ∧ clock w' = clock w ∧ running w' = running w ∧ quiet w w'.

Lemma touches_refs ext p w w' : refs_ok ext w → touches p w w' → refs_ok ext w'.
Proof.
  intros H (c & c' & Hc & Ho & Hcs & Hr & Hin & _). pose proof (H p) as Hp. unfold conn_ok in Hp.
  rewrite Hc in Hp. apply (refs_put ext ext w w' p c' H); rewrite ?Hcs; try naive_solver congruence.
Qed.

Lemma touches_refl p w c : objs w !! p = Some c → touches p w w.
Proof.
  intros Hc. exists c, c. split_and!; try done. by rewrite insert_id.
Qed.

Lemma touches_trans p a b c : touches p a b → touches p b c → touches p a c.
Proof.
  intros (x & x' & Hx & Ho & Hcs & Hr & Hin & Hk & Hrun & Hq) (y & y' & Hy & Ho' & Hcs' & Hr' & Hin' & Hk' & Hrun' & Hq').
  rewrite Ho in Hy. rewrite lookup_insert_eq in Hy. simplify_eq. exists x, y'.
  split_and!; try congruence; [|by etrans].
  rewrite Ho', Ho. by rewrite insert_insert_eq.
Qed.

Lemma get_obj_Ok p w c : objs w !! p = Some c → get_obj p w = Ok c.
Proof. intros H. unfold get_obj. by rewrite H. Qed.

Lemma OnClose_touches p w c : objs w !! p = Some c → ∃ w', OnClose p w = Ok w' ∧ touches p w w'.
Proof.
  intros Hc. unfold OnClose, get_obj. rewrite Hc. simpl. destruct (has_cb c).
  - eexists; split; [done|]. exists c. eexists. split_and!; try done. eapply quiet_emit; [|reflexivity..]; done.
  - eexists; split; [done|]. by eapply touches_refl.
Qed.

Lemma net_io_close_touches p w c : objs w !! p = Some c → ∃ w', net_io_close p w = Ok w' ∧ touches p w w'.
Proof.
  intros Hc. unfold net_io_close, get_obj. rewrite Hc. simpl. destruct (Z.ltb_spec (fd c) 0).
  - eexists; split; [done|]. exists c. eexists. split_and!; try done. eapply quiet_emit; [|reflexivity..]; done.
  - eexists; split; [done|]. by eapply touches_refl.
Qed.

(** The end of [terminate]: close when broken before, then take the time. *)
Lemma terminate_tail p w c :
  objs w !! p = Some c →
  ∃ w', (c ← get_obj p w;
         w ← (if brk_tm c =? 0 then mret w else net_io_close p w);
         c ← get_obj p w;
         mret (put_obj p (NetIo (fd c) (clock w) (err c) (in_loop c) (has_cb c) (ref_ c)) w)) = Ok w' ∧
    touches p w w'.
Proof.
  intros Hc. unfold get_obj. rewrite Hc. cbn [deref mbind res_bind].
  assert (Hclose : ∃ w1, (if brk_tm c =? 0 then mret w else net_io_close p w) = Ok w1 ∧ touches p w w1).
  { destruct (_ =? _); [|by eapply net_io_close_touches]. exists w. split; [done|by eapply touches_refl]. }
  destruct Hclose as (w1 & -> & Ht). cbn [mbind res_bind]. pose proof Ht as (x & x' & _ & Ho & _).
  unfold get_obj. rewrite Ho, lookup_insert_eq. cbn [deref mbind res_bind].
  eexists; split; [done|]. eapply touches_trans; [exact Ht|]. exists x'. eexists.
  split_and!; try done; [by rewrite Ho, lookup_insert_eq | by apply quiet_same].
Qed.

Lemma terminate_S f p w :
  terminate_fuel (S f) p w
  = (c ← get_obj p w;
     w ← (if in_loop c then
            w ← remove_net_with (terminate_fuel f) p w;
            w ← set_in_loop false p w;
            OnClose p w
          else mret w);
     c ← get_obj p w;
     w ← (if brk_tm c =? 0 then mret w else net_io_close p w);
     c ← get_obj p w;
     mret (put_obj p (NetIo (fd c) (clock w) (err c) (in_loop c) (has_cb c) (ref_ c)) w)).
Proof. done. Qed.

Lemma terminate_unregistered f p w c :
  objs w !! p = Some c → in_loop c = false →
  ∃ w', terminate_fuel (S f) p w = Ok w' ∧ touches p w w'.
Proof.
  intros Hc Hin. rewrite terminate_S. rewrite (get_obj_Ok p w c Hc). cbn [mbind res_bind].
  rewrite Hin. cbn [mbind res_bind mret res_ret]. by eapply terminate_tail.
Qed.

(** A release through the destructor, with the bookkeeping of one reference. *)
Lemma release_step f p w c :
  objs w !! p = Some c → in_loop c = false ∨ 1 < ref_ c →
  ∃ w', release_with (terminate_fuel (S f)) p w = Ok w' ∧ conns w' = conns w ∧ running w' = running w ∧ quiet w w' ∧
    if ref_ c =? 1 then objs w' = delete p (objs w)
    else objs w' = <[p := NetIo (fd c) (brk_tm c) (err c) (in_loop c) (has_cb c) (ref_ c - 1)]> (objs w).
Proof.
  intros Hc Hin. unfold release_with, get_obj. rewrite Hc. cbn [deref mbind res_bind].
  destruct (Z.eqb_spec (ref_ c) 1) as [H1|H1].
  - destruct (Z.eqb_spec (ref_ c - 1) 0); [|lia]. set (w1 := put_obj p _ w).
    destruct (terminate_unregistered f p w1 (NetIo (fd c) (brk_tm c) (err c) (in_loop c) (has_cb c) (ref_ c - 1)))
      as (w2 & -> & x & x' & _ & Ho & Hcs & _ & _ & _ & Hrun & Hq);
      [by apply lookup_insert_eq | destruct Hin; [done|lia] |].
    cbn [mbind res_bind]. eexists; split; [done|]. split_and!; [done | done | |].
    + etrans; [exact Hq|]. by apply (quiet_emit (EvDelete p)).
    + simpl. rewrite Ho, delete_insert_eq. unfold w1. simpl. by rewrite delete_insert_eq.
  - destruct (Z.eqb_spec (ref_ c - 1) 0); [lia|].
    eexists; split; [done|]. split_and!; [done | done | by apply quiet_same | done].
Qed.

Lemma release_ok f ext p w :
  refs_ok (hold p 1 ext) w → 0 ≤ ext p →
  ∃ w', release_with (terminate_fuel (S f)) p w = Ok w' ∧ refs_ok ext w' ∧ conns w' = conns w ∧ quiet w w'.
Proof.
  intros H He. assert (Hh : hold p 1 ext p = ext p + 1) by (unfold hold; by rewrite decide_True).
  assert (Hq : ∀ q, q ≠ p → ext q = hold p 1 ext q) by (intros q Hq; unfold hold; by rewrite decide_False).
  destruct (refs_live _ w p H) as (c & Hc & Hr & Hin); [left; lia|]. rewrite Hh in Hr.
  destruct (release_step f p w c Hc) as (w' & Hrel & Hcs & _ & Hqu & Ho).
  { rewrite Hin. case_decide; [right; lia | left; by rewrite bool_decide_false]. }
  exists w'. split; [done|]. split; [|done]. destruct (Z.eqb_spec (ref_ c) 1) as [H1|H1].
  - apply (refs_delete (hold p 1 ext) ext w w' p H); [|done|case_decide; lia|].
    + intros q Hne. split; [by apply Hq|by rewrite Hcs].
    + rewrite Hcs. case_decide; [lia|done].
  - eapply (refs_put (hold p 1 ext) ext w w' p); [done| |exact Ho|done|..]; simpl.
    + intros q Hne. split; [by apply Hq|by rewrite Hcs].
    + case_decide; lia.
    + rewrite Hcs. lia.
    + by rewrite Hcs.
Qed.

Lemma remove_net_ok f ext p w :
  refs_ok ext w →
  ∃ w', remove_net_with (terminate_fuel (S f)) p w = Ok w' ∧ refs_ok ext w' ∧
    conns w' = conns w ∖ {[p]} ∧ quiet w w'.
Proof.
  intros H. unfold remove_net_with.
  assert (Hwake : ∀ v, objs (wakeup v) = objs v ∧ conns (wakeup v) = conns v ∧
    events (wakeup v) = events v ∧ running (wakeup v) = running v ∧
    timers (wakeup v) = timers v ∧ tasks (wakeup v) = tasks v)
    by (intros v; unfold wakeup; by destruct (running v) eqn:?).
  destruct (decide (p ∈ conns w)) as [Hp|Hp].
  - destruct (refs_live ext w p H (or_intror Hp)) as (c & Hc & Hr & Hin). rewrite decide_True in Hr by done.
    unfold set_in_loop, get_obj. rewrite Hc. cbn [deref mbind res_bind mret res_ret].
    set (w1 := put_obj p _ w).
    destruct (release_step f p w1 (NetIo (fd c) (brk_tm c) (err c) false (has_cb c) (ref_ c)))
      as (w2 & Hrel & Hcs & _ & Hqu & Ho); [apply lookup_insert_eq | by left |].
    rewrite Hrel. cbn [mbind res_bind mret res_ret]. eexists; split; [done|].
    destruct (Hwake (set_conns (conns w2 ∖ {[p]}) w2)) as (Hwo & Hwc & Hwe & Hwr & Hwt & Hwk). simpl in Hwo, Hwc, Hwe, Hwr, Hwt, Hwk, Ho.
    assert (Hq1 : quiet w w1) by by apply quiet_same.
    split_and!; [|by rewrite Hwc, Hcs | etrans; [exact Hq1|]; etrans; [exact Hqu|]; by apply quiet_same].
    assert (Hcs' : ∀ q, q ≠ p → ext q = ext q ∧ (q ∈ conns w2 ∖ {[p]} ↔ q ∈ conns w)).
    { intros q Hq. rewrite Hcs. split; [done|]. simpl. set_solver. }
    rewrite !delete_insert_eq, insert_insert_eq in Ho.
    destruct (H p) as [He _]. destruct (Z.eqb_spec (ref_ c) 1) as [H1|H1].
    + apply (refs_delete ext ext w _ p H); rewrite ?Hwc; [done | by rewrite Hwo | lia | set_solver].
    + eapply (refs_put ext ext w _ p _ H); rewrite ?Hwc; [done | by rewrite Hwo, Ho | done |..]; simpl.
      * lia.
      * rewrite decide_False by set_solver. lia.
      * by rewrite bool_decide_false by set_solver.
  - cbn [mbind res_bind mret res_ret]. eexists; split; [done|].
    destruct (Hwake w) as (Hwo & Hwc & Hwe & Hwr & Hwt & Hwk). split_and!; [by apply (refs_same ext w) | | by apply quiet_same].
    rewrite Hwc. set_solver.
Qed.

Lemma terminate_ok f ext p w :
  refs_ok ext w → 0 < ext p →
  ∃ w', terminate_fuel (S (S f)) p w = Ok w' ∧ refs_ok ext w' ∧ conns w' = conns w ∖ {[p]} ∧ quiet w w'.
Proof.
  intros H Hext. destruct (refs_live ext w p H (or_introl Hext)) as (c & Hc & Hr & Hin).
  destruct (in_loop c) eqn:Hil.
  - rewrite terminate_S. rewrite (get_obj_Ok p w c Hc). cbn [mbind res_bind]. rewrite Hil.
    destruct (remove_net_ok f ext p w H) as (w1 & -> & H1 & Hcs & Hq1). cbn [mbind res_bind].
    destruct (refs_live ext w1 p H1 (or_introl Hext)) as (c1 & Hc1 & Hr1 & Hin1).
    assert (Hnot : p ∉ conns w1) by (rewrite Hcs; set_solver).
    unfold set_in_loop. rewrite (get_obj_Ok p w1 c1 Hc1). cbn [mbind res_bind mret res_ret].
    set (w2 := put_obj p _ w1). rewrite bool_decide_false in Hin1 by done.
    assert (Ht2 : touches p w1 w2) by (exists c1; eexists; split_and!; try done; by apply quiet_same).
    destruct (OnClose_touches p w2 _ (lookup_insert_eq _ _ _)) as (w3 & -> & Ht3). cbn [mbind res_bind].
    pose proof Ht3 as (x & x' & _ & Ho3 & _).
    destruct (terminate_tail p w3 x') as (w4 & Heq4 & Ht4); [by rewrite Ho3, lookup_insert_eq|].
    assert (Ht : touches p w1 w4) by (eapply touches_trans; [|exact Ht4]; by eapply touches_trans).
    exists w4. split; [exact Heq4|]. split; [by eapply touches_refs|].
    destruct Ht as (? & ? & _ & _ & Hcs4 & _ & _ & _ & _ & Hq4). split; [by rewrite Hcs4|by etrans].
  - destruct (terminate_unregistered (S f) p w c Hc Hil) as (w' & Ht & Hto).
    exists w'. split; [exact Ht|]. split; [by eapply touches_refs|].
    assert (Hnot : p ∉ conns w) by (intros Hp; by rewrite bool_decide_true in Hin).
    destruct Hto as (? & ? & _ & _ & Hcs4 & _ & _ & _ & _ & Hq4). split; [|done]. rewrite Hcs4. set_solver.
Qed.

(** *** The loop *)

(** One more external reference per occurrence in a list. *)
Definition holds (ps : list positive) (ext : positive → Z) (q : positive) : Z :=
  ext q + Z.of_nat (count_occ Pos.eq_dec ps q).

Lemma holds_cons p ps ext q : holds (p :: ps) ext q = hold p 1 (holds ps ext) q.
Proof.
  unfold holds, hold. simpl. destruct (Pos.eq_dec p q), (decide (q = p)); try congruence; lia.
Qed.

Lemma holds_cons_in p ps ext q : holds (p :: ps) ext q = holds ps (hold p 1 ext) q.
Proof.
  unfold holds, hold. simpl. destruct (Pos.eq_dec p q), (decide (q = p)); try congruence; lia.
Qed.

Lemma add_ref_ok ext p w :
  refs_ok ext w → p ∈ conns w →
  ∃ w' c, add_ref p w = Ok w' ∧ refs_ok (hold p 1 ext) w' ∧ conns w' = conns w ∧
    objs w !! p = Some c ∧
    objs w' = <[p := NetIo (fd c) (brk_tm c) (err c) (in_loop c) (has_cb c) (ref_ c + 1)]> (objs w).
Proof.
  intros H Hp. destruct (refs_live ext w p H (or_intror Hp)) as (c & Hc & Hr & Hin).
  destruct (H p) as [He _]. unfold add_ref. rewrite (get_obj_Ok p w c Hc). simpl.
  eexists _, c. split; [done|]. split; [|done].
  rewrite decide_True in Hr by done.
  eapply (refs_put ext (hold p 1 ext) w _ p); [done| |done|..]; simpl; rewrite ?decide_True by done; try done;
    unfold hold; rewrite ?decide_True by done; try lia.
  intros q Hq. by rewrite decide_False.
Qed.

(** [FD_SET] of a descriptor that does not fit writes outside the set. *)
Definition fd_overflows (w : world) : Prop :=
  ∃ p c, objs w !! p = Some c ∧ p ∈ conns w ∧ ¬ 0 ≤ fd c < fd_setsize.

Lemma collect_ends ps : ∀ ext w, refs_ok ext w → Forall (λ p, p ∈ conns w) ps →
  ends (λ f, f = OutOfBounds ∧ fd_overflows w) (λ w', refs_ok (holds ps ext) w' ∧ conns w' = conns w) (collect ps w).
Proof.
  induction ps as [|p ps IH]; intros ext w H Hps.
  - split; [|done]. eapply refs_ext; [|exact H]. intros q. unfold holds. simpl. lia.
  - apply Forall_cons in Hps as [Hp Hps].
    destruct (add_ref_ok ext p w H Hp) as (w1 & c & Ha & H1 & Hcs & Hc & Ho).
    cbn [collect]. rewrite Ha. cbn [mbind res_bind].
    rewrite (get_obj_Ok p w1 (NetIo (fd c) (brk_tm c) (err c) (in_loop c) (has_cb c) (ref_ c + 1)))
      by (by rewrite Ho, lookup_insert_eq).
    cbn [mbind res_bind fd]. destruct ((0 <=? fd c) && (fd c <? fd_setsize)) eqn:Hr.
    + eapply ends_weaken; [| |apply (IH (hold p 1 ext) w1 H1); by rewrite Hcs].
      * intros f [-> (q & d & Hd & Hq & Hf)]. split; [done|]. rewrite Hcs in Hq. rewrite Ho in Hd.
        apply lookup_insert_Some in Hd as [[<- <-]|[_ Hd]]; [by exists p, c|by exists q, d].
      * intros w' [H' Hcs']. split; [|congruence].
        eapply refs_ext; [|exact H']. intros q. symmetry. apply holds_cons_in.
    + split; [done|]. exists p, c. split_and!; [done..|].
      intros [? ?]. rewrite andb_false_iff, Z.leb_gt, Z.ltb_ge in Hr. lia.
Qed.

Lemma collect_ok ps ext w :
  refs_ok ext w → Forall (λ p, p ∈ conns w) ps →
  (∀ p c, objs w !! p = Some c → p ∈ conns w → 0 ≤ fd c < fd_setsize) →
  ∃ w', collect ps w = Ok w' ∧ refs_ok (holds ps ext) w' ∧ conns w' = conns w.
Proof.
  intros H Hps Hfd. destruct (proj1 (ends_no_fault (λ w', refs_ok (holds ps ext) w' ∧ conns w' = conns w) (collect ps w)))
    as (w' & ? & ? & ?); [|by exists w'].
  eapply ends_weaken; [| |by apply collect_ends]; [|done].
  intros f [_ (p & c & Hc & Hp & Hn)]. exact (Hn (Hfd p c Hc Hp)).
Qed.

(** What a handler may rely on and must re-establish, whoever holds references:
    the counts, and a property [I] of the loop that releases keep; it may end
    in a fault that [B] allows. *)
Definition handler_ends {S} `{HasWorld S} (B : fault → Prop) (I : S → Prop) (on : positive → S → res S) : Prop :=
  ∀ ext p s, I s → refs_ok ext (the_world s) → 0 < ext p →
    ends B (λ s', refs_ok ext (the_world s') ∧ I s') (on p s).

Definition handler_ok (on : positive → world → res world) : Prop :=
  ∀ ext p w, refs_ok ext w → 0 < ext p → ∃ w', on p w = Ok w' ∧ refs_ok ext w'.

Lemma handler_ok_ends on : handler_ok on → handler_ends no_fault (λ _, True) on.
Proof. intros H ext p w _ Hr He. destruct (H ext p w Hr He) as (w' & -> & ?). by split. Qed.

Lemma holds_head p ps ext : (∀ q, 0 ≤ ext q) → 0 < holds (p :: ps) ext p.
Proof. intros He. unfold holds. simpl. specialize (He p). destruct (Pos.eq_dec p p); [lia|done]. Qed.

Lemma holds_nonneg ps ext : (∀ q, 0 ≤ ext q) → ∀ q, 0 ≤ holds ps ext q.
Proof. intros He q. unfold holds. specialize (He q). lia. Qed.

Lemma holds_swap ps qs ext q : holds ps (holds qs ext) q = holds qs (holds ps ext) q.
Proof. unfold holds. lia. Qed.

(** One connection of a round: what its handlers establish, step by step.  [L]
    are the objects that a handler has made and handed to nobody: their
    references belong to no one. *)
Lemma dispatch_cons {S} `{HasWorld S} B (Q : S → Prop) (I1 I2 I3 I4 : list positive → S → Prop)
    on_read on_send readable writable p ps ext L s :
  let calls on (sel : Z → bool) (I J : list positive → S → Prop) := ∀ L s c,
    I L s → objs (the_world s) !! p = Some c → refs_ok (holds (p :: ps) (holds L ext)) (the_world s) →
    ends B (λ s', ∃ L', refs_ok (holds (p :: ps) (holds L' ext)) (the_world s') ∧ J L' s')
      (if sel (fd c) then on p s else mret s) in
  calls on_read readable I1 I2 → calls on_send writable I2 I3 →
  (∀ L s w', release p (the_world s) = Ok w' → I3 L s → I4 L (with_world w' s)) →
  (∀ L s', refs_ok (holds ps (holds L ext)) (the_world s') → I4 L s' →
     ends B Q (dispatch on_read on_send readable writable ps s')) →
  (∀ q, 0 ≤ ext q) → I1 L s → refs_ok (holds (p :: ps) (holds L ext)) (the_world s) →
  ends B Q (dispatch on_read on_send readable writable (p :: ps) s).
Proof.
  intros calls Hread Hsend Hrel Hrest He HI Hs.
  assert (Hpos : ∀ L, 0 < holds (p :: ps) (holds L ext) p) by (intros L'; by apply holds_head, holds_nonneg).
  cbn [dispatch].
  destruct (refs_live _ _ p Hs (or_introl (Hpos L))) as (c & Hc & _). rewrite (get_obj_Ok p _ c Hc). cbn [mbind res_bind].
  eapply ends_bind; [by eapply Hread|]. intros s1 (L1 & H1 & HI1).
  destruct (refs_live _ _ p H1 (or_introl (Hpos L1))) as (c1 & Hc1 & _). rewrite (get_obj_Ok p _ c1 Hc1). cbn [mbind res_bind].
  eapply ends_bind; [by eapply Hsend|]. intros s2 (L2 & H2 & HI2).
  destruct (release_ok 2 (holds ps (holds L2 ext)) p (the_world s2)) as (w3 & Hr & H3 & _).
  - eapply refs_ext; [|exact H2]. intros q. apply holds_cons.
  - by apply holds_nonneg, holds_nonneg.
  - pose proof (Hrel L2 s2 w3 Hr HI2). unfold release, terminate. rewrite Hr. cbn [mbind res_bind].
    apply (Hrest L2); [by rewrite the_with_world|done].
Qed.

(** What a handler does to the objects of nobody: some may be new. *)
Definition loses {S} `{HasWorld S} (B : fault → Prop) (ext : positive → Z) (J : list positive → S → Prop)
    (m : res S) : Prop :=
  ends B (λ s', ∃ new, refs_ok (holds new ext) (the_world s') ∧ J new s') m.

Lemma loses_none {S} `{HasWorld S} B ext (J : list positive → S → Prop) s :
  refs_ok ext (the_world s) → J [] s → loses B ext J (mret s).
Proof. intros Hr HJ. exists []. split; [|done]. eapply refs_ext; [|exact Hr]. intros q. unfold holds. simpl. lia. Qed.

Lemma loses_holds {S} `{HasWorld S} B ps ext L (J : list positive → S → Prop) m :
  loses B (holds ps (holds L ext)) (λ new s, J (new ++ L) s) m →
  ends B (λ s', ∃ L', refs_ok (holds ps (holds L' ext)) (the_world s') ∧ J L' s') m.
Proof.
  apply ends_weaken; [done|]. intros s' (new & Hr & HJ). exists (new ++ L). split; [|done].
  eapply refs_ext; [|exact Hr]. intros q. rewrite holds_swap. unfold holds. rewrite count_occ_app. lia.
Qed.

(** A round: [I rem L s] holds while [rem] are the connections to come. *)
Lemma dispatch_loses {S} `{HasWorld S} B (I : list positive → list positive → S → Prop)
    on_read on_send readable writable :
  (∀ p ps L s w', release p (the_world s) = Ok w' → I ps L s → I ps L (with_world w' s)) →
  (∀ p ps L s, I (p :: ps) L s → I ps L s) →
  (∀ ext p ps L s, I (p :: ps) L s → refs_ok ext (the_world s) → (∀ q, 0 ≤ ext q) → 0 < ext p →
     loses B ext (λ new s', I ps (new ++ L) s') (on_read p s)) →
  (∀ ext p ps L s, I ps L s → refs_ok ext (the_world s) → (∀ q, 0 ≤ ext q) → 0 < ext p →
     loses B ext (λ new s', I ps (new ++ L) s') (on_send p s)) →
  ∀ ps ext L s, (∀ q, 0 ≤ ext q) → I ps L s → refs_ok (holds ps (holds L ext)) (the_world s) →
  ends B (λ s', ∃ L', refs_ok (holds L' ext) (the_world s') ∧ I [] L' s')
    (dispatch on_read on_send readable writable ps s).
Proof.
  intros Hrel Hskip Hread Hsend. induction ps as [|p ps IH]; intros ext L s He HI Hs.
  - exists L. split; [|done]. eapply refs_ext; [|exact Hs]. intros q. unfold holds. simpl. lia.
  - assert (He' : ∀ L q, 0 ≤ holds (p :: ps) (holds L ext) q) by (intros; by apply holds_nonneg, holds_nonneg).
    assert (Hpos : ∀ L, 0 < holds (p :: ps) (holds L ext) p) by (intros; by apply holds_head, holds_nonneg).
    apply (dispatch_cons B _ (I (p :: ps)) (I ps) (I ps) (I ps) _ _ _ _ p ps ext L); try done.
    + intros L' s' c HI' _ Hr. apply (loses_holds B _ ext L' (I ps)). destruct (readable _); [by apply Hread|].
      apply loses_none; [done|]. by eapply Hskip.
    + intros L' s' c HI' _ Hr. apply (loses_holds B _ ext L' (I ps)). destruct (writable _); [by apply Hsend|]. by apply loses_none.
    + intros L' s' w'. apply Hrel.
    + intros L' s' Hr HI'. by apply (IH ext L').
Qed.

Lemma dispatch_ends {S} `{HasWorld S} B (I : S → Prop) on_read on_send readable writable ps :
  (∀ p s w', release p (the_world s) = Ok w' → I s → I (with_world w' s)) →
  handler_ends B I on_read → handler_ends B I on_send →
  ∀ ext s, (∀ q, 0 ≤ ext q) → I s → refs_ok (holds ps ext) (the_world s) →
  ends B (λ s', refs_ok ext (the_world s') ∧ I s') (dispatch on_read on_send readable writable ps s).
Proof.
  intros Hrel Hread Hsend ext s He HI Hs.
  assert (H0 : ∀ q, holds [] ext q = ext q) by (intros q; unfold holds; simpl; lia).
  assert (Hon : ∀ on, handler_ends B I on → ∀ ext p (ps L : list positive) s,
    L = [] ∧ I s → refs_ok ext (the_world s) → (∀ q, 0 ≤ ext q) → 0 < ext p →
    loses B ext (λ new s', new ++ L = [] ∧ I s') (on p s)).
  { intros on Hon ext' p qs L s' [-> HI'] Hr _ Hp. eapply ends_weaken; [done| |by apply (Hon ext')].
    intros s2 [Hr2 HI2]. exists []. split; [|done]. eapply refs_ext; [|exact Hr2]. intros q. unfold holds. simpl. lia. }
  eapply ends_weaken; [done| |apply (dispatch_loses B (λ _ L s, L = [] ∧ I s) on_read on_send readable writable) with (ext := ext) (L := [])].
  - intros s' (L' & Hr & -> & HI'). split; [|done]. by eapply refs_ext.
  - intros p qs L s' w' Hr [-> HI']. split; [done|]. by eapply Hrel.
  - done.
  - intros. by apply Hon.
  - intros. by apply Hon.
  - done.
  - done.
  - eapply refs_ext; [|exact Hs]. intros q. unfold holds. simpl. lia.
Qed.

(** A round in which the read handler of a ready connection always fails fails. *)
Lemma dispatch_fails {S} `{HasWorld S} B (I : S → Prop) on_read on_send readable writable x :
  (∀ p s w', p ≠ x → release p (the_world s) = Ok w' → I s → I (with_world w' s)) →
  (∀ ext p s, p ≠ x → I s → refs_ok ext (the_world s) → 0 < ext p →
     loses B ext (λ _ s', I s') (on_read p s) ∧ loses B ext (λ _ s', I s') (on_send p s)) →
  (∀ s c, I s → objs (the_world s) !! x = Some c → readable (fd c) = true) →
  (∀ s, I s → ends B (λ _, False) (on_read x s)) →
  ∀ ps ext L s, x ∈ ps → (∀ q, 0 ≤ ext q) → I s → refs_ok (holds ps (holds L ext)) (the_world s) →
  ends B (λ _, False) (dispatch on_read on_send readable writable ps s).
Proof.
  intros Hrel Hon Hready Hx. induction ps as [|p ps IH]; intros ext L s Hin He HI Hs; [by apply not_elem_of_nil in Hin|].
  destruct (decide (p = x)) as [->|Hne].
  - apply (dispatch_cons B _ (λ _, I) (λ _ _, False) (λ _ _, False) (λ _ _, False) _ _ _ _ x ps ext L); try done.
    intros L' s' c HI' Hc _. rewrite (Hready s' c HI' Hc). eapply ends_weaken; [done| |by apply Hx]. done.
  - apply elem_of_cons in Hin as [?|Hin]; [done|].
    assert (Hpos : ∀ L, 0 < holds (p :: ps) (holds L ext) p) by (intros; by apply holds_head, holds_nonneg).
    apply (dispatch_cons B _ (λ _, I) (λ _, I) (λ _, I) (λ _, I) _ _ _ _ p ps ext L); try done.
    + intros L' s' c HI' _ Hr. apply (loses_holds B _ ext L' (λ _, I)). destruct (readable _); [by eapply Hon|by apply loses_none].
    + intros L' s' c HI' _ Hr. apply (loses_holds B _ ext L' (λ _, I)). destruct (writable _); [by eapply Hon|by apply loses_none].
    + intros L' s' w' Hr HI'. by apply (Hrel p).
    + intros L' s' Hr HI'. by apply (IH ext L').
Qed.

Lemma dispatch_ok on_read on_send readable writable ps : handler_ok on_read → handler_ok on_send →
  ∀ ext w, (∀ q, 0 ≤ ext q) → refs_ok (holds ps ext) w →
  ∃ w', dispatch on_read on_send readable writable ps w = Ok w' ∧ refs_ok ext w'.
Proof.
  intros Hread%handler_ok_ends Hsend%handler_ok_ends ext w He H.
  destruct (proj1 (ends_no_fault _ _) (dispatch_ends no_fault (λ _, True) on_read on_send readable writable ps
    (λ _ _ _ _, id) Hread Hsend ext w He Logic.I H)) as (w' & ? & ? & _). by exists w'.
Qed.

Lemma remove_each_ok ext ps : ∀ w,
  NoDup ps → refs_ok ext (set_conns (list_to_set ps) w) →
  ∃ w', remove_each ps w = Ok w' ∧ refs_ok ext (set_conns ∅ w').
Proof.
  induction ps as [|p ps IH]; intros w Hnd H; [by exists w|].
  apply NoDup_cons in Hnd as [Hp Hnd].
  destruct (refs_live ext _ p H) as (c & Hc & Hr & Hin); [right; simpl; set_solver|].
  simpl in Hc, Hr. rewrite decide_True in Hr by set_solver. destruct (H p) as [He _].
  cbn [remove_each]. unfold set_in_loop. rewrite (get_obj_Ok p w c Hc). cbn [mbind res_bind mret res_ret].
  set (w1 := put_obj p _ w).
  destruct (OnClose_touches p w1 _ (lookup_insert_eq _ _ _))
    as (w2 & -> & x & x' & Hx & Ho & Hcs & Href & Hil & _). cbn [mbind res_bind].
  assert (Hx1 : x = NetIo (fd c) (brk_tm c) (err c) false (has_cb c) (ref_ c)).
  { unfold w1 in Hx. simpl in Hx. rewrite lookup_insert_eq in Hx. congruence. } subst x. simpl in Href, Hil.
  destruct (release_step 2 p w2 x') as (w3 & Hrel & Hcs3 & _ & _ & Ho3);
    [by rewrite Ho, lookup_insert_eq | by left |].
  unfold release, terminate. rewrite Hrel. cbn [mbind res_bind]. apply IH; [done|].
  rewrite Ho, delete_insert_eq, insert_insert_eq in Ho3. unfold w1 in Ho3. simpl in Ho3.
  rewrite delete_insert_eq, insert_insert_eq in Ho3.
  assert (Hothers : ∀ q, q ≠ p → ext q = ext q ∧
    (q ∈ conns (set_conns (list_to_set ps) w3) ↔ q ∈ conns (set_conns (list_to_set (p :: ps)) w))).
  { intros q Hq. simpl. split; [done|]. set_solver. }
  assert (Hps : p ∉ (list_to_set ps : gset positive)) by (by rewrite elem_of_list_to_set).
  destruct (Z.eqb_spec (ref_ x') 1).
  - eapply refs_delete; [exact H | exact Hothers | exact Ho3 | lia | done].
  - eapply refs_put; [exact H | exact Hothers | exact Ho3 | done |..]; simpl.
    + lia.
    + rewrite decide_False by done. lia.
    + rewrite bool_decide_false by done. done.
Qed.

(** *** Descriptors *)

(** A preorder on worlds that every elementary change, to the objects of [P],
    respects is respected by the operations that end connections of [P]. *)
Section preserved.
Context (P : positive → Prop) (R : world → world → Prop) `{!PreOrder R}.
Context (R_put : ∀ p c c' w, P p → objs w !! p = Some c → (0 ≤ fd c → fd c' = fd c) → R w (put_obj p c' w)).
Context (R_emit : ∀ e w, harmless e → R w (emit e w)).
Context (R_delete : ∀ p w, P p → R w (set_objs (delete p (objs w)) w)).
Context (R_conns : ∀ s w, s ⊆ conns w → R w (set_conns s w)).
Context (R_wakes : ∀ n w, R w (set_wakes n w)).

Lemma close_R p w w' : P p → net_io_close p w = Ok w' → R w w'.
Proof using All.
  intros Hp. unfold net_io_close. intros (c & Hc%deref_Ok & H)%bind_Ok.
  destruct (Z.ltb_spec (fd c) 0); simplify_eq/=; [|done].
  etrans; [by apply (R_emit (EvSysClose (fd c)))|]. apply (R_put p c); [done|done|cbn; lia].
Qed.

Lemma OnClose_R p w w' : P p → OnClose p w = Ok w' → R w w'.
Proof using All.
  intros Hp. unfold OnClose. intros (c & Hc%deref_Ok & H)%bind_Ok. destruct (has_cb c); simplify_eq/=; [|done].
  etrans; [by apply (R_emit (EvDisconnect (err c) p))|]. by apply (R_put p c).
Qed.

Lemma set_in_loop_R b p w w' : P p → set_in_loop b p w = Ok w' → R w w'.
Proof using All.
  intros Hp. unfold set_in_loop. intros (c & Hc%deref_Ok & H)%bind_Ok. simplify_eq/=. by apply (R_put p c).
Qed.

Lemma release_R dtor p w w' : P p →
  (∀ w w', dtor p w = Ok w' → R w w') → release_with dtor p w = Ok w' → R w w'.
Proof using All.
  intros Hp Hd. unfold release_with. intros (c & Hc%deref_Ok & H)%bind_Ok.
  assert (Hput : R w (put_obj p (NetIo (fd c) (brk_tm c) (err c) (in_loop c) (has_cb c) (ref_ c - 1)) w))
    by by apply (R_put p c).
  destruct (_ =? _); [|by simplify_eq/=].
  apply bind_Ok in H as (w1 & H1 & H2). simplify_eq/=. apply Hd in H1.
  etrans; [exact Hput|]. etrans; [exact H1|]. etrans; [by apply (R_emit (EvDelete p))|].
  by apply (R_delete p (emit (EvDelete p) w1)).
Qed.

Lemma wakeup_R w : R w (wakeup w).
Proof using All. unfold wakeup. destruct (running w); [apply R_wakes|done]. Qed.

Lemma remove_net_R dtor p w w' :
  P p → (∀ w w', dtor p w = Ok w' → R w w') → remove_net_with dtor p w = Ok w' → R w w'.
Proof using All.
  intros Hp Hd. unfold remove_net_with. intros (w1 & H1 & H2)%bind_Ok. simplify_eq/=.
  etrans; [|apply wakeup_R]. case_decide; simplify_eq/=; [|done].
  apply bind_Ok in H1 as (w2 & H2 & H1). apply bind_Ok in H1 as (w3 & H3 & H1). simplify_eq/=.
  etrans; [by eapply set_in_loop_R|]. etrans; [by eapply release_R|]. apply R_conns. set_solver.
Qed.

Lemma terminate_R f p w w' : P p → terminate_fuel f p w = Ok w' → R w w'.
Proof using All.
  intros Hp. revert w w'. induction f as [|f IH]; intros w w'; [done|]. rewrite terminate_S.
  intros (c & _ & H)%bind_Ok. apply bind_Ok in H as (w1 & H1 & H).
  apply bind_Ok in H as (c1 & _ & H). apply bind_Ok in H as (w2 & H2 & H).
  apply bind_Ok in H as (c2 & Hc2%deref_Ok & H). simplify_eq/=.
  transitivity w1; [|transitivity w2; [|by apply (R_put p c2)]].
  - destruct (in_loop c); simplify_eq/=; [|done].
    apply bind_Ok in H1 as (w3 & H3 & H1). apply bind_Ok in H1 as (w4 & H4 & H1).
    etrans; [by eapply remove_net_R|]. etrans; [by eapply set_in_loop_R|]. by eapply OnClose_R.
  - destruct (brk_tm c1 =? 0); [by simplify_eq/=|]. by apply (close_R p).
Qed.

Lemma one_R p w w' : P p →
  terminate p w = Ok w' ∨ release p w = Ok w' ∨ remove_net p w = Ok w' → R w w'.
Proof using All.
  intros Hp [H|[H|H]].
  - by eapply terminate_R.
  - eapply release_R; [done| |exact H]. intros. by eapply terminate_R.
  - eapply remove_net_R; [done| |exact H]. intros. by eapply terminate_R.
Qed.

Lemma remove_each_R ps : (∀ p, P p) → ∀ w w', remove_each ps w = Ok w' → R w w'.
Proof using All.
  intros HP. induction ps as [|p ps IH]; intros w w' H; simplify_eq/=; [done|].
  apply bind_Ok in H as (w1 & H1 & H). apply bind_Ok in H as (w2 & H2 & H). apply bind_Ok in H as (w3 & H3 & H).
  etrans; [by eapply set_in_loop_R|]. etrans; [by eapply OnClose_R|].
  etrans; [eapply release_R; [done| |exact H3]; intros; by eapply terminate_R|]. by apply IH.
Qed.

(** All the ways to end connections. *)
Lemma ending_R p w w' : (∀ p, P p) →
  terminate p w = Ok w' ∨ release p w = Ok w' ∨ remove_net p w = Ok w' ∨ remove_all w = Ok w' → R w w'.
Proof using All.
  intros HP [H|[H|[H|H]]]; [by apply (one_R p); [|tauto]..|].
  unfold remove_all in H. apply bind_Ok in H as (w1 & H1 & H2). simplify_eq/=.
  etrans; [by eapply remove_each_R|]. apply R_conns. set_solver.
Qed.

End preserved.

(** Ending a connection does not touch the others. *)
Lemma one_others p w w' :
  terminate p w = Ok w' ∨ release p w = Ok w' ∨ remove_net p w = Ok w' →
  ∀ q, q ≠ p → objs w' !! q = objs w !! q.
Proof.
  assert (PreOrder (λ w w', ∀ q, q ≠ p → objs w' !! q = objs w !! q)).
  { split; [done|]. intros a b c Hab Hbc q Hq. by rewrite Hbc, Hab. }
  intros H'. refine (one_R (λ x, x = p) (λ w w', ∀ q, q ≠ p → objs w' !! q = objs w !! q) _ _ _ _ _ p w w' eq_refl H').
  - intros x c c' v -> _ _ q Hq. cbn. by rewrite lookup_insert_ne.
  - done.
  - intros x v -> q Hq. cbn. by rewrite lookup_delete_ne.
  - done.
  - done.
Qed.

Lemma ending_quiet p w w' :
  terminate p w = Ok w' ∨ release p w = Ok w' ∨ remove_net p w = Ok w' ∨ remove_all w = Ok w' → quiet w w'.
Proof.
  apply (ending_R (λ _, True)); [apply _| | | | | |done]; intros.
  - by apply quiet_same.
  - by eapply quiet_emit.
  - by apply quiet_same.
  - by apply quiet_same.
  - by apply quiet_same.
Qed.

(** No connection appears or is registered, and none gets another descriptor. *)
Definition fds_kept (w w' : world) : Prop :=
  conns w' ⊆ conns w ∧
  ∀ q c', objs w' !! q = Some c' → ∃ c, objs w !! q = Some c ∧ (0 ≤ fd c → fd c' = fd c).

#[export] Instance fds_kept_preorder : PreOrder fds_kept.
Proof.
  split.
  - intros w. split; [done|]. intros q c' Hq. by exists c'.
  - intros a b c [S1 H1] [S2 H2]. split; [by etrans|]. intros q x'' Hq.
    destruct (H2 q x'' Hq) as (x' & Hq' & E2), (H1 q x' Hq') as (x & Hx & E1).
    exists x. split; [done|]. intros Hx0. rewrite <- (E1 Hx0). apply E2. by rewrite E1.
Qed.

Lemma fds_kept_same w w' : objs w' = objs w → conns w' ⊆ conns w → fds_kept w w'.
Proof. intros Ho Hc. split; [done|]. intros q c' Hq. rewrite Ho in Hq. by exists c'. Qed.

Lemma fds_kept_put p c c' w : objs w !! p = Some c → (0 ≤ fd c → fd c' = fd c) → fds_kept w (put_obj p c' w).
Proof.
  intros Hc Hf. split; [done|]. intros q x Hq. cbn in Hq.
  apply lookup_insert_Some in Hq as [[<- <-]|[? Hq]]; [by exists c|by exists x].
Qed.

Lemma ending_fds p w w' :
  terminate p w = Ok w' ∨ release p w = Ok w' ∨ remove_net p w = Ok w' ∨ remove_all w = Ok w' → fds_kept w w'.
Proof.
  apply (ending_R (λ _, True)); [apply _| | | | | |done]; intros.
  - by eapply fds_kept_put.
  - by apply fds_kept_same.
  - split; [done|]. intros q c' Hq. cbn in Hq. apply lookup_delete_Some in Hq as [_ Hq]. by exists c'.
  - by apply fds_kept_same.
  - by apply fds_kept_same.
Qed.

Lemma collect_kept ps : ∀ w w', collect ps w = Ok w' → quiet w w' ∧ fds_kept w w'.
Proof.
  induction ps as [|p ps IH]; intros w w' H; simplify_eq/=; [done|].
  apply bind_Ok in H as (w1 & H1 & H). apply bind_Ok in H as (c1 & _ & H).
  unfold add_ref in H1. apply bind_Ok in H1 as (c & Hc%deref_Ok & H1). simplify_eq/=.
  destruct (_ && _); [|done]. destruct (IH _ _ H) as [Hq Hf]. split.
  - etrans; [|exact Hq]. by apply quiet_same.
  - etrans; [|exact Hf]. by eapply fds_kept_put.
Qed.

(** *** Timers *)

Lemma process_timer_stuck fuel now l due it :
  (match it with Some k => (k < length l)%nat | None => True end) →
  ∀ r, run_loop fuel (timer_body now) (it, l, due) ≠ Ok r.
Proof.
  intros Hit r Hr.
  refine (run_loop_partial (timer_body now)
    (λ s, match s.1.1 with Some k => (k < length s.1.2)%nat | None => True end)
    (λ _, False) _ fuel (it, l, due) r Hit Hr).
  clear. intros [[[k|] l] due] x Hk Hb; simpl in *; [|done].
  destruct (lookup_lt_is_Some_2 l k Hk) as [t Ht]. rewrite Ht in Hb.
  destruct (now <? expire t); [by simplify_eq/=|]. destruct (_ =? _); simplify_eq/=; [done|].
  by rewrite length_insert.
Qed.

Lemma erase_timers_filter id l : erase_timers id l = filter (λ t, tid t ≠ id) l.
Proof.
  induction l as [|t l IH]; simpl; [done|]. destruct (Z.eqb_spec (tid t) id) as [He|Hne].
  - by rewrite filter_cons_False by tauto.
  - by rewrite filter_cons_True, IH.
Qed.

(** ** Properties *)

(** C11: one round of the loop never touches a deleted connection and gives back
    every reference it takes, whatever the handlers do to the registrations
    (closing, removing or adding connections), as long as they respect the
    reference counts themselves. *)
Theorem loop_io_safe on_read on_send readable writable wake ext w :
  handler_ok on_read → handler_ok on_send → refs_ok ext w →
  (∀ p c, objs w !! p = Some c → p ∈ conns w → 0 ≤ fd c < fd_setsize) →
  ∃ w', loop_io on_read on_send readable writable wake w = Ok w' ∧ refs_ok ext w'.
Proof.
  intros Hr Hs H Hfd. unfold loop_io. cbn [the_world with_world world_alone].
  destruct (collect_ok (elements (conns w)) ext w H) as (w1 & -> & H1 & _); [|done|].
  { apply Forall_forall. intros p. by rewrite elem_of_elements. }
  cbn [mbind res_bind]. apply dispatch_ok; [done | done | intros q; apply (H q) |].
  destruct wake; [|done]. by apply (refs_same _ w1).
Qed.

(** C31: [terminate] on a connection to which the caller holds a reference
    unregisters it and keeps every count right; called on a registered
    connection to which nobody else holds a reference it deletes the connection
    and goes on using it. *)
Theorem terminate_references ext p w :
  refs_ok ext w →
  (0 < ext p → ∃ w', terminate p w = Ok w' ∧ refs_ok ext w' ∧ conns w' = conns w ∖ {[p]}) ∧
  (ext p = 0 → p ∈ conns w → terminate p w = Fault UseAfterFree).
Proof.
  intros H. split.
  - intros He. destruct (terminate_ok 1 ext p w H He) as (w' & Ht & Hr & Hc & _). by exists w'.
  - intros He Hp. destruct (refs_live ext w p H (or_intror Hp)) as (c & Hc & Hr & Hin).
    rewrite decide_True, He in Hr by done. rewrite bool_decide_true in Hin by done.
    unfold terminate. rewrite terminate_S, (get_obj_Ok p w c Hc). cbn [mbind res_bind]. rewrite Hin.
    destruct (remove_net_ok 1 ext p w H) as (w' & -> & H' & Hcs & _). cbn [mbind res_bind].
    specialize (H' p). unfold conn_ok in H'. rewrite decide_False, He in H' by (rewrite Hcs; set_solver).
    unfold set_in_loop, get_obj. destruct (objs w' !! p) as [c'|]; [lia|done].
Qed.

(** no operation that ends a connection ever hands a valid descriptor to the
    system's [close]: [net_io::close] tests [_fd < 0], so every socket leaks. *)
Theorem descriptors_never_closed p w w' :
  terminate p w = Ok w' ∨ release p w = Ok w' ∨ remove_net p w = Ok w' ∨ remove_all w = Ok w' →
  ∀ s, EvSysClose s ∈ events w' → EvSysClose s ∈ events w ∨ s < 0.
Proof.
  intros H s Hs. pose proof (ending_quiet p w w' H) as Hq.
  destruct Hq as (_ & es & He & Hes). rewrite He in Hs. apply elem_of_app in Hs as [Hs|Hs]; [by left|].
  right. rewrite Forall_forall in Hes. exact (Hes _ Hs).
Qed.

(** the destructor's [remove_all] releases every registered connection once:
    the ones nobody else refers to are deleted, the others survive unregistered. *)
Theorem remove_all_releases ext w :
  refs_ok ext w →
  ∃ w', remove_all w = Ok w' ∧ refs_ok ext w' ∧ conns w' = ∅ ∧
    ∀ p, p ∈ conns w → (is_Some (objs w' !! p) ↔ 0 < ext p).
Proof.
  intros H. unfold remove_all.
  destruct (remove_each_ok ext (elements (conns w)) w) as (w' & -> & H').
  { apply NoDup_elements. }
  { apply (refs_same ext w); [done| |done]. simpl. apply leibniz_equiv, list_to_set_elements. }
  cbn [mbind res_bind]. eexists. split; [done|]. split; [done|]. split; [done|].
  intros p _. specialize (H' p). unfold conn_ok in H'. simpl in *.
  destruct (objs w' !! p) as [c|]; [split; [|by eexists]|split; [by intros []|lia]].
  intros _. rewrite decide_False in H' by set_solver. lia.
Qed.

(** C30: [process_timer] returns only when there is no timer: with one, whatever
    its expiry, count and gap, the loop goes round for ever on a timer that is
    not due or steps on the iterator of one it has erased. *)
Theorem process_timer_returns_iff_empty fuel now w :
  (timers w = [] → process_timer (S fuel) now w = Ok w) ∧
  (timers w ≠ [] → ∀ w', process_timer fuel now w ≠ Ok w').
Proof.
  split.
  - intros Ht. unfold process_timer. rewrite Ht. simpl. rewrite <- Ht. by destruct w.
  - intros Ht w'. unfold process_timer.
    destruct (run_loop fuel (timer_body now) (Some 0%nat, timers w, [])) as [[l due]| | |] eqn:E; try done.
    exfalso. refine (process_timer_stuck fuel now (timers w) [] (Some 0%nat) _ (l, due) E).
    destruct (timers w); [done|simpl; lia].
Qed.

(** [process_task] runs the queued tasks once each, in the order in which
    they were added, and leaves exactly the tasks that were added meanwhile. *)
Theorem process_task_fifo run_task (new : nat → list nat) w :
  (∀ t w, events (run_task t w) = events w ∧ tasks (run_task t w) = tasks w ++ new t) →
  let w' := process_task run_task w in
  events w' = events w ++ (EvTask <$> tasks w) ∧ tasks w' = tasks w ≫= new.
Proof.
  intros Hrun. unfold process_task. cbn zeta.
  assert (Hgen : ∀ ts v, let v' := foldl (λ w t, run_task t (emit (EvTask t) w)) v ts in
    events v' = events v ++ (EvTask <$> ts) ∧ tasks v' = tasks v ++ (ts ≫= new)).
  { induction ts as [|t ts IH]; intros v; simpl; [by rewrite !app_nil_r|].
    destruct (IH (run_task t (emit (EvTask t) v))) as [-> ->].
    destruct (Hrun t (emit (EvTask t) v)) as [-> ->]. simpl. by rewrite <- !app_assoc. }
  destruct (Hgen (tasks w) (set_tasks [] w)) as [-> ->]. done.
Qed.

(** whenever [socket] fails, the acceptor's [init] fails and the stored
    error is 0: [create] resets it after having stored it. *)
Theorem acceptor_error_lost e b l c :
  let '(ok, c') := ngx_acceptor_init (-1, e) b l c in ok = false ∧ err c' = 0 ∧ fd c' = -1.
Proof. done. Qed.

(** ** Witnesses *)

(** A loop with one connected socket, held by nobody else. *)
Definition demo_world : world :=
  World {[1%positive := NetIo 7 0 0 true true 1]} {[1%positive]} [] [] true 0 1000 [].

Lemma demo_refs : refs_ok (λ _, 0) demo_world.
Proof.
  intros p. split; [done|]. simpl. destruct (decide (p = 1%positive)) as [->|Hp].
  - rewrite lookup_singleton_eq. by vm_compute.
  - rewrite lookup_singleton_ne by done. split; [done|]. set_solver.
Qed.

(** The peer closes: the read handler terminates the connection. *)
Lemma loop_io_safe_witness :
  ∃ w', loop_io terminate (λ _ w, Ok w) (Z.eqb 7) (λ _, false) true demo_world = Ok w' ∧
    objs w' = ∅ ∧ events w' = [EvDisconnect 0 1; EvDelete 1].
Proof.
  destruct (loop_io_safe terminate (λ _ w, Ok w) (Z.eqb 7) (λ _, false) true (λ _, 0) demo_world)
    as (w' & Hw & _).
  - intros ext p w H He. destruct (terminate_ok 1 ext p w H He) as (w' & Ht & Hr & _). by exists w'.
  - intros ext p w H He. by exists w.
  - exact demo_refs.
  - intros p c Hc _. simpl in Hc. apply lookup_singleton_Some in Hc as [_ <-]. simpl. unfold fd_setsize. lia.
  - exists w'. split; [exact Hw|]. vm_compute in Hw. injection Hw as <-. split; reflexivity.
Defined.

Lemma terminate_references_witness : terminate 1 demo_world = Fault UseAfterFree.
Proof.
  apply (proj2 (terminate_references (λ _, 0) 1 demo_world demo_refs)); [reflexivity|].
  apply (bool_decide_unpack _). vm_compute. exact I.
Defined.

Lemma descriptors_never_closed_witness :
  ∃ w', remove_all demo_world = Ok w' ∧ EvSysClose 7 ∉ events w'.
Proof.
  eexists. split; [reflexivity|]. intros Hin.
  destruct (descriptors_never_closed 1 demo_world _ (or_intror (or_intror (or_intror eq_refl))) 7 Hin) as [H|H].
  - by apply elem_of_nil in H.
  - lia.
Defined.

Lemma remove_all_releases_witness : ∃ w', remove_all demo_world = Ok w' ∧ conns w' = ∅.
Proof.
  destruct (remove_all_releases (λ _, 0) demo_world demo_refs) as (w' & Hw & _ & Hc & _). by exists w'.
Defined.

Lemma process_timer_returns_iff_empty_witness :
  process_timer 1 5 demo_world = Ok demo_world ∧
  ∀ w', process_timer 1000 5 (add_timer 5 (Timer 1 (-1) 10 0 0) demo_world) ≠ Ok w'.
Proof.
  split.
  - exact (proj1 (process_timer_returns_iff_empty 0 5 demo_world) eq_refl).
  - apply (proj2 (process_timer_returns_iff_empty 1000 5 (add_timer 5 (Timer 1 (-1) 10 0 0) demo_world))).
    discriminate.
Defined.

Lemma process_task_fifo_witness :
  events (process_task (λ _ w, w) (add_task 4 (add_task 3 demo_world))) = [EvTask 3; EvTask 4].
Proof.
  refine (proj1 (process_task_fifo (λ _ w, w) (λ _, []) (add_task 4 (add_task 3 demo_world)) _)).
  intros t w. by rewrite app_nil_r.
Defined.
