(* ===== verification/TcpConn.v ===== *)
(** * A TCP connection: framing and sending (core/tcp_conn)

    The connection is one of the event loop's store: its error and break fields
    are there ([EventLoop.net_io]), its buffers here.  What the socket returns
    is an argument of every operation; [wire] is what it has accepted and
    [delivered] what the message handler was given.  A flush that finds the socket
    not ready moves the position in the buffer back by one ([transmits]). *)

From S2P Require Import Prelude NgxPool NgxQueue EventLoop.
Local Open Scope Z_scope.

(** ** Data *)

(** The result of [::send] or [::recv], and the [errno] it left. *)
Record sysret := Sys { ret : Z; eno : Z }.

Definition EAGAIN : Z := 11.
Definition EINTR : Z := 4.

(** An outgoing buffer: its header and the [len] bytes at [data]. *)
Record sndbuf := SndBuf { sb_addr : Z; sb_hdr : ngx_buf_s; sb_data : list Z }.

(** The places of the queue hold pointers; [None] is an uninitialised one. *)
Record sender := Sender {
  snd_len : Z; snd_buf : option sndbuf; wait_snds : ngx_queue_s (option sndbuf); wire : list Z
}.

(** An incoming buffer as raw memory: the 32 bytes of the header, then [cap] bytes. *)
Record rcvbuf := RcvBuf { rb_addr : Z; rb_mem : list Z }.

Record receiver := Receiver {
  head_len : Z; expected_len : Z; rcv_buf : option rcvbuf; delivered : list (list Z)
}.

Record tcp_conn := Tcp { pool : ngx_pool_s; queue_addr : Z; tx : sender; rx : receiver }.

Definition set_pool (q : ngx_pool_s) (t : tcp_conn) : tcp_conn := Tcp q (queue_addr t) (tx t) (rx t).
Definition set_tx (s : sender) (t : tcp_conn) : tcp_conn := Tcp (pool t) (queue_addr t) s (rx t).
Definition set_rx (r : receiver) (t : tcp_conn) : tcp_conn := Tcp (pool t) (queue_addr t) (tx t) r.

(** [ngx_create_pool(1)] and a queue of 1024 pointers, neither result tested. *)
Definition tcp_conn_create (al1 al2 : allocator) (nHeadLen : Z) : res tcp_conn :=
  pool ← deref NullDeref (ngx_create_pool al1 1);
  '(a, q, pool) ← ngx_create_queue al2 pool 8 (replicate 1024 None);
  mret (Tcp pool a (Sender 0 None q []) (Receiver nHeadLen nHeadLen None [])).

(** ** Operations *)

(** [_errno = e; terminate();] *)
Definition fail_with (e : Z) (p : positive) (w : world) : res world :=
  c ← get_obj p w;
  terminate p (put_obj p (NetIo (fd c) (brk_tm c) e (in_loop c) (has_cb c) (ref_ c)) w).

(** *** Sending *)

(** [ngx_create_buf], [memcpy] and the assignment of [len]. *)
Definition make_buf (al : allocator) (pool : ngx_pool_s) (data : list Z)
    : res (option sndbuf * ngx_pool_s) :=
  match ngx_create_buf al pool (Z.of_nat (length data)) with
  | (None, pool) => mret (None, pool)
  | (Some (a, b), pool) =>
      if Z.of_nat (length data) <=? buf_cap b then
        let b := Buf (buf_cap b) (Z.of_nat (length data)) (buf_ref b) (buf_data b) in
        mret (Some (SndBuf a b data), pool)
      else Fault OutOfBounds
  end.

Definition push_msg (al : allocator) (data : list Z) (t : tcp_conn) : res (Z * tcp_conn) :=
  '(b, pool) ← make_buf al (pool t) data;
  match b with
  | None => mret (-1, set_pool pool t)
  | Some b =>
      let s := tx t in
      '(ok, q) ← ngx_queue_push (Some b) (wait_snds s);
      mret (if ok : bool then 0 else -1,
            set_tx (Sender (snd_len s) (snd_buf s) q (wire s)) (set_pool pool t))
  end.

(** What a call of [::send] with [chunk] adds to the stream. *)
Definition net_send (r : sysret) (chunk : list Z) (t : tcp_conn) : tcp_conn :=
  let s := tx t in
  set_tx (Sender (snd_len s) (snd_buf s) (wait_snds s) (wire s ++ take (Z.to_nat (ret r)) chunk)) t.

Definition again (r : sysret) : bool := (eno r =? EAGAIN) || (eno r =? EINTR).

Definition send_msg (al : allocator) (r : sysret) (data : list Z)
    (t : tcp_conn) (p : positive) (w : world) : res (Z * tcp_conn * world) :=
  c ← get_obj p w;
  if negb (brk_tm c =? 0) then mret (-1, t, w)
  else if bool_decide (is_Some (snd_buf (tx t))) || negb (ngx_queue_empty (wait_snds (tx t))) then
    '(rc, t) ← push_msg al data t; mret (rc, t, w)
  else
    let t := net_send r data t in
    if ret r <? 0 then
      if negb (again r) then w ← fail_with (eno r) p w; mret (-1, t, w)
      else '(rc, t) ← push_msg al data t; mret (rc, t, w)
    else if ret r =? 0 then w ← fail_with (-1) p w; mret (-1, t, w)
    else if Z.of_nat (length data) =? wrap 32 (ret r) then mret (0, t, w)
    else
      '(b, pool) ← make_buf al (pool t) data;
      b ← deref NullDeref b;
      let s := tx t in
      mret (0, set_tx (Sender (ret r) (Some b) (wait_snds s) (wire s)) (set_pool pool t), w).

(** The part of [_snd_buf] that the next [::send] is given. *)
Definition send_chunk (s : sender) (b : sndbuf) : list Z :=
  take (Z.to_nat (wrap 32 (buf_len (sb_hdr b) - snd_len s)))
       (drop (Z.to_nat (snd_len s)) (sb_data b)).

(** The address that [ngx_queue_get] returns is that of a place of the queue,
    not of a buffer: using it as one is undefined. *)
Definition OnSend (r : sysret) (t : tcp_conn) (p : positive) (w : world) : res (tcp_conn * world) :=
  match snd_buf (tx t) with
  | None =>
      if negb (ngx_queue_empty (wait_snds (tx t))) then mret (t, w)
      else
        match ngx_queue_get (wait_snds (tx t)) with
        | (None, _) => mret (t, w)
        | (Some _, _) => Fault OutOfBounds
        end
  | Some b =>
      if buf_len (sb_hdr b) <=? snd_len (tx t) then mret (t, w)
      else
        let t := net_send r (send_chunk (tx t) b) t in
        if (ret r <? 0) && negb (again r) then w ← fail_with (eno r) p w; mret (t, w)
        else if ret r =? 0 then w ← fail_with (-1) p w; mret (t, w)
        else
          let s := tx t in
          let n := wrap 64 (snd_len s + ret r) in
          if n =? buf_len (sb_hdr b) then
            let '(pool, _) := ngx_free (pool t) (sb_addr b) in
            mret (set_tx (Sender 0 None (wait_snds s) (wire s)) (set_pool pool t), w)
          else mret (set_tx (Sender n (Some b) (wait_snds s) (wire s)) t, w)
  end.

Definition wait_sndmsg_size (t : tcp_conn) : nat := ngx_queue_size (wait_snds (tx t)).

(** *** Receiving *)

Fixpoint le_bytes (n : nat) (v : Z) : list Z :=
  match n with O => [] | S n => v mod 256 :: le_bytes n (v / 256) end.

Fixpoint of_le (l : list Z) : Z :=
  match l with [] => 0 | b :: l => b + 256 * of_le l end.

(** The [size_t] field at an offset of the raw memory. *)
Definition load64 (mem : list Z) (off : nat) : Z := of_le (take 8 (drop off mem)).
Definition store64 (mem : list Z) (off : nat) (v : Z) : list Z :=
  list_inserts off (le_bytes 8 (wrap 64 v)) mem.

Definition cap_off : nat := 0.
Definition len_off : nat := 8.
Definition data_off : nat := 24.

(** The memory of a new buffer; [junk i] is the byte [malloc] left at [i]. *)
Definition raw_buf (junk : nat → Z) (a : Z) (b : ngx_buf_s) : rcvbuf :=
  RcvBuf a (le_bytes 8 (buf_cap b) ++ le_bytes 8 (buf_len b) ++ le_bytes 8 (buf_ref b) ++
            le_bytes 8 (buf_data b) ++ (junk <$> seq 0 (Z.to_nat (buf_cap b)))).

(** The bytes that the [data] pointer points to: any other address is wild. *)
Definition payload (b : rcvbuf) : res (list Z) :=
  if load64 (rb_mem b) data_off =? rb_addr b + sizeof_buf then
    mret (drop (Z.to_nat sizeof_buf) (rb_mem b))
  else Fault OutOfBounds.

(** The length that [recv] is given. *)
Definition recv_room (t : tcp_conn) (b : rcvbuf) : Z :=
  wrap 32 (expected_len (rx t) - load64 (rb_mem b) len_off).

Section OnRead.
Context (msg_head_fnc : list Z → Z → Z).

(** Growing the buffer: [None] when [ngx_create_buf] fails. *)
Definition grow_buf (al : allocator) (junk : nat → Z) (pool : ngx_pool_s) (expected : Z) (b : rcvbuf)
    : res (option rcvbuf * ngx_pool_s) :=
  match ngx_create_buf al pool expected with
  | (None, pool) => mret (None, pool)
  | (Some (a, h), pool) =>
      let new := raw_buf junk a h in
      old ← payload b;
      bytes ← memread old 0 (Z.to_nat (load64 (rb_mem b) len_off));
      mem ← memcpy (rb_mem new) (Z.to_nat sizeof_buf) bytes;
      let '(pool, _) := ngx_free pool (rb_addr b) in
      mret (Some (RcvBuf a mem), pool)
  end.

(** The end of [OnRead]: a complete message goes to the handler. *)
Definition deliver (t : tcp_conn) (expected : Z) (b : rcvbuf) : res tcp_conn :=
  let len := load64 (rb_mem b) len_off in
  if (len =? expected) && (head_len (rx t) <=? len) then
    data ← payload b;
    mret (set_rx (Receiver (head_len (rx t)) (head_len (rx t))
                   (Some (RcvBuf (rb_addr b) (store64 (rb_mem b) len_off 0)))
                   (delivered (rx t) ++ [take (Z.to_nat (wrap 32 expected)) data])) t)
  else mret (set_rx (Receiver (head_len (rx t)) expected (Some b) (delivered (rx t))) t).

(** [chunk]: the bytes [recv] wrote, when [ret] is positive. *)
Definition OnRead (al1 al2 : allocator) (junk : nat → Z) (r : sysret) (chunk : list Z)
    (t : tcp_conn) (p : positive) (w : world) : res (tcp_conn * world) :=
  let expected := expected_len (rx t) in
  let '(b, pl) :=
    match rcv_buf (rx t) with
    | Some b => (Some b, pool t)
    | None =>
        match ngx_create_buf al1 (pool t) expected with
        | (None, pl) => (None, pl)
        | (Some (a, h), pl) => (Some (raw_buf junk a h), pl)
        end
    end in
  let t := set_rx (Receiver (head_len (rx t)) expected b (delivered (rx t))) (set_pool pl t) in
  match b with
  | None => mret (t, w)
  | Some b =>
      if ret r <? 0 then
        if negb (eno r =? EAGAIN) || negb (eno r =? EINTR) then
          w ← fail_with (eno r) p w; mret (t, w)
        else mret (t, w)
      else if ret r =? 0 then w ← fail_with (-1) p w; mret (t, w)
      else
        mem ← memcpy (rb_mem b) (Z.to_nat (load64 (rb_mem b) len_off)) chunk;
        let b := RcvBuf (rb_addr b) (store64 mem len_off (load64 mem len_off + ret r)) in
        if expected =? head_len (rx t) then
          data ← payload b;
          let expected := msg_head_fnc data (load64 (rb_mem b) len_off) in
          if (head_len (rx t) <? expected) && (load64 (rb_mem b) cap_off <? expected) then
            '(nb, pl) ← grow_buf al2 junk (pool t) expected b;
            let t := set_pool pl t in
            match nb with
            | None => mret (set_rx (Receiver (head_len (rx t)) expected (Some b) (delivered (rx t))) t, w)
            | Some b => t ← deliver t expected b; mret (t, w)
            end
          else t ← deliver t expected b; mret (t, w)
        else t ← deliver t expected b; mret (t, w)
  end.

End OnRead.

(** [~tcp_conn]; the pool itself is not destroyed. *)
Definition tcp_conn_destroy (t : tcp_conn) : ngx_pool_s :=
  let addr {A} (f : A → Z) (b : option A) := match b with Some b => f b | None => 0 end in
  let '(pool, _) := ngx_free (pool t) (addr rb_addr (rcv_buf (rx t))) in
  let '(pool, _) := ngx_free pool (addr sb_addr (snd_buf (tx t))) in
  let '(pool, _) := ngx_free pool (queue_addr t) in
  pool.

(** ** Specification *)

(** What POSIX says of [send]: it accepts no more than it is given. *)
Definition honest (r : sysret) (chunk : list Z) : Prop := ret r ≤ Z.of_nat (length chunk).

Definition bytes_queued (bs : list sndbuf) : list Z := concat (sb_data <$> bs).

(** The bytes of [_snd_buf] still to be sent. *)
Definition pending (s : sender) : list Z :=
  match snd_buf s with
  | Some b => drop (Z.to_nat (snd_len s)) (sb_data b)
  | None => []
  end.

(** The queue holds the buffers [bs]; nothing was ever taken out of it. *)
Record queued (bs : list sndbuf) (s : sender) : Prop := {
  q_rep : queue_rep (wait_snds s) (Some <$> bs);
  q_untouched : q_head (wait_snds s) = 0%nat
}.

(** A buffer in transmission is partly sent. *)
Definition partial (s : sender) : Prop :=
  match snd_buf s with
  | None => snd_len s = 0
  | Some b => buf_len (sb_hdr b) = Z.of_nat (length (sb_data b)) ∧
              0 < snd_len s < buf_len (sb_hdr b) ∧ buf_len (sb_hdr b) < 2 ^ 32
  end.

(** A flush that finds the socket not ready at the beginning of the buffer wraps
    the position around: the buffer is not sent any more. *)
Definition stuck (s : sender) : bool := snd_len s =? 2 ^ 64 - 1.

Definition in_flight (s : sender) : Prop :=
  match snd_buf s with
  | None => snd_len s = 0
  | Some b => buf_len (sb_hdr b) = Z.of_nat (length (sb_data b)) ∧
              buf_len (sb_hdr b) < 2 ^ 32 ∧ (0 ≤ snd_len s < buf_len (sb_hdr b) ∨ stuck s = true)
  end.

(** The bytes of the buffer in transmission, and the position in it. *)
Definition buffered (s : sender) : list Z :=
  match snd_buf s with Some b => sb_data b | None => [] end.
Definition pos_in (s : sender) : nat := if stuck s then 0 else Z.to_nat (snd_len s).

(** [transmits str from to bytes k]: the bytes are sent out of [str], the position
    goes from [from] to [to], and [k] times it is moved back by one. *)
Inductive transmits (str : list Z) (from : nat) : nat → list Z → nat → Prop :=
| tr_start : transmits str from from [] 0
| tr_send to bytes k n :
    transmits str from to bytes k → (to + n ≤ length str)%nat →
    transmits str from (to + n) (bytes ++ take n (drop to str)) k
| tr_back to bytes k : transmits str from (S to) bytes k → transmits str from to bytes (S k).

(** The flush finds the socket not ready. *)
Definition flush_not_ready (r : sysret) (s : sender) : bool :=
  match snd_buf s with
  | None => false
  | Some b => (snd_len s <? buf_len (sb_hdr b)) && (ret r <? 0) && again r
  end.

(** The accepted messages are those that are finished, the buffer in transmission
    and the queue; [k] flushes have found the socket not ready. *)
Record stream (bs : list sndbuf) (accepted : list (list Z)) (k : nat) (s : sender) : Prop := {
  st_queued : queued bs s;
  st_flight : in_flight s;
  st_bytes : ∃ sent k', concat accepted = sent ++ buffered s ++ bytes_queued bs ∧
    transmits (concat accepted) 0 (length sent + pos_in s) (wire s) k' ∧
    k = (k' + if stuck s then 1 else 0)%nat
}.

(** A run of calls of [send_msg] and [OnSend], with the messages accepted so far
    and the number of flushes that found the socket not ready. *)
Inductive tx_step : tcp_conn * list (list Z) * nat → tcp_conn * list (list Z) * nat → Prop :=
| step_send al r data t acc k p w rc t' w' :
    Z.of_nat (length data) < 2 ^ 32 → honest r data →
    send_msg al r data t p w = Ok (rc, t', w') →
    tx_step (t, acc, k) (t', if rc =? 0 then acc ++ [data] else acc, k)
| step_flush r t acc k p w t' w' :
    (∀ b, snd_buf (tx t) = Some b → -1 ≤ ret r ∧ honest r (send_chunk (tx t) b)) →
    OnSend r t p w = Ok (t', w') →
    tx_step (t, acc, k) (t', acc, (k + if flush_not_ready r (tx t) then 1 else 0)%nat).

Definition tx_init (s : tcp_conn * list (list Z) * nat) : Prop :=
  ∃ al1 al2 n t, tcp_conn_create al1 al2 n = Ok t ∧ s = (t, [], 0%nat).

(** ** Lemmas *)

(** *** Buffers *)

Lemma create_buf_room al pool n a b pool' :
  0 ≤ n < 2 ^ 62 → ngx_create_buf al pool n = (Some (a, b), pool') →
  n ≤ buf_cap b ∧ buf_cap b < 2 ^ 63 ∧ buf_len b = 0 ∧ buf_data b = a + sizeof_buf.
Proof.
  intros Hn. unfold ngx_create_buf. rewrite (wrap_small 64) by (unfold sizeof_buf; lia).
  pose proof (ngx_align_bounds (n + sizeof_buf) ltac:(unfold sizeof_buf; lia)) as [Hb _].
  destruct (ngx_palloc _ _ _) as [[x|] p]; intros ?; simplify_eq/=. unfold sizeof_buf in *. lia.
Qed.

Lemma make_buf_total al pool data :
  Z.of_nat (length data) < 2 ^ 32 →
  ∃ b pool', make_buf al pool data = Ok (b, pool') ∧
    ∀ b', b = Some b' → sb_data b' = data ∧ buf_len (sb_hdr b') = Z.of_nat (length data).
Proof.
  intros Hl. unfold make_buf.
  destruct (ngx_create_buf al pool _) as [[[a b]|] p] eqn:E; [|by eexists _, _].
  destruct (create_buf_room al pool (Z.of_nat (length data)) a b p ltac:(lia) E) as (H & _).
  rewrite (proj2 (Z.leb_le _ _) H). eexists _, _. split; [done|]. by intros b' [= <-].
Qed.

Lemma push_head0 {A} (q : ngx_queue_s A) l x :
  queue_rep q l → q_head q = 0%nat →
  ∃ b q', ngx_queue_push x q = Ok (b, q') ∧ q_head q' = 0%nat ∧
    queue_rep q' (if b : bool then l ++ [x] else l).
Proof.
  intros H Hh. pose proof H as [_ _ [Hl Hln] _].
  destruct (decide (length l = nalloc q)) as [Hf|Hf].
  - unfold ngx_queue_push. rewrite <- Hl, <- Hf, Nat.eqb_refl. by exists false, q.
  - destruct (queue_push_ok q l x H) as (q' & Hp & Hr & _); [right; lia|].
    exists true, q'. split; [done|]. split; [|done]. revert Hp. unfold ngx_queue_push.
    destruct (nalloc q =? ngx_queue_size q)%nat; [done|]. case_decide; [|done]. by intros [= <-].
Qed.

Lemma queue_empty_rep {A} (q : ngx_queue_s A) l :
  queue_rep q l → ngx_queue_empty q = bool_decide (l = []).
Proof.
  intros H. pose proof (queue_get_ok q l H) as Hg. unfold ngx_queue_get in Hg.
  destruct l as [|x l]; destruct (ngx_queue_empty q); [done| done | | done].
  by destruct Hg as (? & ? & ? & _).
Qed.

Lemma push_msg_ok al data t bs :
  queued bs (tx t) → Z.of_nat (length data) < 2 ^ 32 →
  ∃ rc t' new, push_msg al data t = Ok (rc, t') ∧ queued (bs ++ new) (tx t') ∧
    snd_buf (tx t') = snd_buf (tx t) ∧ snd_len (tx t') = snd_len (tx t) ∧ wire (tx t') = wire (tx t) ∧
    (rc = 0 ∧ bytes_queued new = data ∨ rc = -1 ∧ new = []).
Proof.
  intros [Hq Hh] Hl. unfold push_msg.
  destruct (make_buf_total al (pool t) data Hl) as (b & pl & -> & Hb). simpl.
  destruct b as [b|]; [|exists (-1), (set_pool pl t), []; rewrite app_nil_r; by split_and!; [| | | | |right]].
  destruct (push_head0 _ _ (Some b) Hq Hh) as (ok & q' & -> & Hh' & Hr). simpl.
  destruct (Hb b eq_refl) as [Hd _]. destruct ok.
  - eexists 0, _, [b]. split_and!; [done | | done | done | done |].
    + split; [by rewrite fmap_app|done].
    + left. split; [done|]. unfold bytes_queued. simpl. by rewrite app_nil_r.
  - eexists (-1), _, []. rewrite app_nil_r. by split_and!; [| | | | |right].
Qed.

Lemma bytes_queued_app bs new : bytes_queued (bs ++ new) = bytes_queued bs ++ bytes_queued new.
Proof. unfold bytes_queued. by rewrite fmap_app, concat_app. Qed.

(** *** Positions in the stream *)

Lemma transmits_trans str p0 p1 p2 w1 w2 j1 j2 :
  transmits str p0 p1 w1 j1 → transmits str p1 p2 w2 j2 → transmits str p0 p2 (w1 ++ w2) (j1 + j2).
Proof.
  intros H1. induction 1 as [|to w j n _ IH Hn|to w j _ IH].
  - by rewrite app_nil_r, Nat.add_0_r.
  - rewrite app_assoc. by apply tr_send.
  - rewrite Nat.add_succ_r. by apply tr_back.
Qed.

(** Around the text there may be more. *)
Lemma transmits_inside pre str post p0 p w j :
  transmits str p0 p w j → transmits (pre ++ str ++ post) (length pre + p0) (length pre + p) w j.
Proof.
  induction 1 as [|to w j n _ IH Hn|to w j _ IH].
  - apply tr_start.
  - replace (take n (drop to str)) with (take n (drop (length pre + to) (pre ++ str ++ post))).
    + rewrite Nat.add_assoc. apply tr_send; [done|]. rewrite !length_app. lia.
    + rewrite drop_app_add, drop_app_le, take_app_le; [done|rewrite length_drop; lia|lia].
  - apply tr_back. by rewrite <- Nat.add_succ_r.
Qed.

Lemma transmits_more str post p w j : transmits str 0 p w j → transmits (str ++ post) 0 p w j.
Proof. apply (transmits_inside [] str post). Qed.

(** Sending from one position to a later one, nothing moved back. *)
Lemma transmits_once str p n : (p + n ≤ length str)%nat →
  transmits str p (p + n) (take n (drop p str)) 0.
Proof. intros Hn. by apply (tr_send str p p [] 0 n (tr_start _ _)). Qed.

Lemma transmits_ready str p w k : transmits str 0 p w k → k = 0%nat → w = take p str.
Proof.
  induction 1 as [|to w k n _ IH Hn|]; [done| |done]. intros ->. rewrite IH by done.
  by rewrite take_take_drop.
Qed.

Lemma transmits_length str from p w k : transmits str from p w k → (length w + from = p + k)%nat.
Proof.
  induction 1 as [|to w k n _ IH Hn|]; [done| |lia].
  rewrite length_app, length_take, length_drop. lia.
Qed.

(** The two ways a message is stored are one case of [stream]. *)
Lemma push_msg_stream al data t bs acc k rc t' :
  stream bs acc k (tx t) → Z.of_nat (length data) < 2 ^ 32 → push_msg al data t = Ok (rc, t') →
  ∃ new, stream (bs ++ new) (if rc =? 0 then acc ++ [data] else acc) k (tx t').
Proof.
  intros [Hq Hp (sent & k' & Hb & Ht & Hk)] Hl Hpush.
  destruct (push_msg_ok al data t bs Hq Hl) as (rc1 & t1 & new & Heq & Hq' & Hs & Hn & Hw & Hrc).
  rewrite Heq in Hpush. simplify_eq. exists new. split; [done| |].
  - unfold in_flight, stuck in *. by rewrite Hs, Hn.
  - exists sent, k'. unfold pos_in, stuck, buffered in *. rewrite Hs, Hn, Hw, bytes_queued_app.
    destruct Hrc as [[-> Hd]|[-> ->]]; simpl.
    + rewrite concat_app. simpl. rewrite app_nil_r. split_and!; [by rewrite Hb, Hd, <- !app_assoc| |done].
      by apply transmits_more.
    + rewrite app_nil_r. done.
Qed.

Lemma net_send_none r chunk t : ret r ≤ 0 → net_send r chunk t = t.
Proof.
  intros Hr. unfold net_send, set_tx. replace (Z.to_nat (ret r)) with 0%nat by lia.
  destruct t as [? ? [] ?]. simpl. by rewrite app_nil_r.
Qed.

(** *** [send_msg] *)

(** Nothing in transmission and nothing queued: the message goes to the socket. *)
Lemma send_direct_stream al r data t acc k p w rc t' w' :
  stream [] acc k (tx t) → snd_buf (tx t) = None → Z.of_nat (length data) < 2 ^ 32 → honest r data →
  send_msg al r data t p w = Ok (rc, t', w') →
  ∃ new, stream new (if rc =? 0 then acc ++ [data] else acc) k (tx t').
Proof.
  intros Hst Hs Hl Hh. pose proof Hst as [Hq Hp Hb]. unfold send_msg.
  destruct (get_obj p w) as [c| | |]; try done. cbn [mbind res_bind].
  destruct (negb (brk_tm c =? 0)); [intros [= <- <- <-]; by exists []|].
  rewrite Hs, (queue_empty_rep _ _ (q_rep _ _ Hq)). simpl.
  destruct (Z.ltb_spec (ret r) 0) as [Hneg|Hpos].
  { rewrite net_send_none by lia. destruct (again r); simpl.
    - destruct (push_msg al data t) as [[rc1 t1]| | |] eqn:E; simpl; try done. intros [= <- <- <-].
      destruct (push_msg_stream _ _ _ _ _ _ _ _ Hst Hl E) as (new & Hnew). by exists new.
    - destruct (fail_with (eno r) p w); simpl; try done. intros [= <- <- <-]. by exists []. }
  destruct (Z.eqb_spec (ret r) 0) as [Hz|Hz].
  { rewrite net_send_none by lia. destruct (fail_with (-1) p w); simpl; try done.
    intros [= <- <- <-]. by exists []. }
  unfold honest in Hh. rewrite wrap_small by lia. unfold in_flight in Hp. rewrite Hs in Hp.
  unfold buffered, pos_in, stuck in Hb. rewrite Hs, Hp in Hb. destruct Hb as (sent & k' & Hb & Ht & Hk).
  change (bytes_queued []) with (@nil Z) in Hb. simpl app in Hb. simpl in Hk, Ht.
  rewrite app_nil_r in Hb. rewrite Nat.add_0_r in *. subst k'.
  assert (Hsent : transmits (concat acc ++ data) 0 (length sent + Z.to_nat (ret r))
    (wire (tx t) ++ take (Z.to_nat (ret r)) data) k).
  { pose proof (transmits_more _ data _ _ _ Ht) as Ht'. rewrite Hb in Ht' |- *.
    eapply tr_send in Ht' as Ht2; [|shelve]. revert Ht2. rewrite drop_app_length. done.
    Unshelve. rewrite length_app. lia. }
  destruct (Z.eqb_spec (Z.of_nat (length data)) (ret r)) as [Hfull|Hpart].
  - intros [= <- <- <-]. exists []. split; simpl; [by destruct Hq|unfold in_flight; simpl; by rewrite Hs|].
    exists (concat acc ++ data), k. unfold buffered, pos_in, stuck. simpl. rewrite Hs, Hp, concat_app. simpl.
    rewrite !app_nil_r, !Nat.add_0_r. split_and!; [done| |done].
    rewrite length_app. replace (length data) with (Z.to_nat (ret r)) by lia. by rewrite Hb in Hsent |- *.
  - destruct (make_buf_total al (pool t) data Hl) as (b & pl & -> & Hbuf). simpl.
    destruct b as [b|]; simpl; [|done]. intros [= <- <- <-]. exists [].
    destruct (Hbuf b eq_refl) as [Hd Hlen]. assert (Hns : (ret r =? 2 ^ 64 - 1) = false) by (apply Z.eqb_neq; lia).
    split; simpl; [by destruct Hq|unfold in_flight; simpl; rewrite Hlen, Hd; lia|].
    exists sent, k. unfold buffered, pos_in, stuck. cbn [snd_buf snd_len wire]. rewrite Hns, Hd, concat_app. simpl.
    rewrite !app_nil_r, Nat.add_0_r. split_and!; [by rewrite Hb|exact Hsent|done].
Qed.

(** Something in transmission or queued: the message is queued, if at all. *)
Lemma send_queues al r data t bs p w rc t' w' :
  queued bs (tx t) → snd_buf (tx t) ≠ None ∨ bs ≠ [] →
  send_msg al r data t p w = Ok (rc, t', w') →
  (rc = -1 ∧ t' = t) ∨ push_msg al data t = Ok (rc, t').
Proof.
  intros Hq Hne. unfold send_msg.
  destruct (get_obj p w) as [c| | |]; try done. cbn [mbind res_bind].
  destruct (negb (brk_tm c =? 0)); [intros [= <- <- <-]; by left|].
  assert (bool_decide (is_Some (snd_buf (tx t))) || negb (ngx_queue_empty (wait_snds (tx t))) = true) as ->.
  { rewrite (queue_empty_rep _ _ (q_rep _ _ Hq)). destruct Hne as [Hs|Hs].
    - destruct (snd_buf (tx t)); [|done]. by rewrite bool_decide_true.
    - destruct bs; [done|]. simpl. by rewrite orb_true_r. }
  destruct (push_msg al data t) as [[rc1 t1]| | |] eqn:E; simpl; try done. intros [= <- <- <-]. by right.
Qed.

Lemma send_stream al r data t bs acc k p w rc t' w' :
  stream bs acc k (tx t) → Z.of_nat (length data) < 2 ^ 32 → honest r data →
  send_msg al r data t p w = Ok (rc, t', w') →
  ∃ new, stream new (if rc =? 0 then acc ++ [data] else acc) k (tx t').
Proof.
  intros Hst Hl Hh H. destruct (decide (snd_buf (tx t) ≠ None ∨ bs ≠ [])) as [Hne|Hno].
  - destruct (send_queues _ _ _ _ _ _ _ _ _ _ (st_queued _ _ _ _ Hst) Hne H) as [[-> ->]|Hp]; [by exists bs|].
    destruct (push_msg_stream _ _ _ _ _ _ _ _ Hst Hl Hp) as (new & Hnew). by eexists.
  - destruct bs; [|naive_solver]. eapply send_direct_stream; try done.
    destruct (snd_buf (tx t)); naive_solver.
Qed.

(** *** [OnSend] *)

Lemma OnSend_idle r t p w bs :
  queued bs (tx t) → snd_buf (tx t) = None → OnSend r t p w = Ok (t, w).
Proof.
  intros [Hq _] Hs. unfold OnSend. rewrite Hs, (queue_empty_rep _ _ Hq).
  case_bool_decide as Hb; simpl; [|done]. pose proof (queue_get_ok _ _ Hq) as Hg.
  destruct bs; [|done]. simpl in Hg. by rewrite Hg.
Qed.

Lemma stuck_false s n : 0 ≤ n < 2 ^ 32 → snd_len s = n → stuck s = false.
Proof. intros Hn Hs. unfold stuck. apply Z.eqb_neq. lia. Qed.

(** What a flush does to the buffer in transmission: it sends a piece of it,
    moves the position back by one, or leaves everything. *)
Definition flushed (r : sysret) (b : sndbuf) (s s' : sender) : Prop :=
  wait_snds s' = wait_snds s ∧ in_flight s' ∧
  ∃ extra pos j, wire s' = wire s ++ extra ∧ transmits (sb_data b) (pos_in s) pos extra j ∧
    (snd_buf s' = Some b ∧ pos = pos_in s' ∨ snd_buf s' = None ∧ pos = length (sb_data b)) ∧
    (j + (if stuck s' then 1 else 0) = (if stuck s then 1 else 0) + if flush_not_ready r s then 1 else 0)%nat.

Lemma flushed_same r b s : snd_buf s = Some b → in_flight s → flush_not_ready r s = false → flushed r b s s.
Proof.
  intros Hs Hf Hn. split; [done|]. split; [done|]. exists [], (pos_in s), 0%nat. rewrite app_nil_r, Hn.
  split_and!; [done|apply tr_start|by left|by rewrite Nat.add_0_r].
Qed.

(** The socket is not ready: one byte back, or stuck at the beginning. *)
Lemma flushed_back r b s : snd_buf s = Some b → buf_len (sb_hdr b) = Z.of_nat (length (sb_data b)) →
  buf_len (sb_hdr b) < 2 ^ 32 → 0 ≤ snd_len s < buf_len (sb_hdr b) → flush_not_ready r s = true →
  flushed r b s (Sender (wrap 64 (snd_len s + -1)) (Some b) (wait_snds s) (wire s)).
Proof.
  intros Hs Hl Hb Hn Hready. pose proof (stuck_false s (snd_len s) ltac:(lia) eq_refl) as Hst.
  assert (Hcase : snd_len s = 0 ∧ wrap 64 (snd_len s + -1) = 2 ^ 64 - 1 ∨
    0 < snd_len s ∧ wrap 64 (snd_len s + -1) = snd_len s - 1) by (unfold wrap; lia).
  split; [done|]. unfold in_flight, pos_in. rewrite Hst, Hready. unfold stuck.
  cbn [snd_len snd_buf wire]. destruct Hcase as [[Hz ->]|[Hz ->]].
  - split; [split_and!; [done..|right; by apply Z.eqb_eq]|]. exists [], 0%nat, 0%nat. rewrite app_nil_r, Hz.
    split_and!; [done|apply tr_start|by left|done].
  - assert (Hns : (snd_len s - 1 =? 2 ^ 64 - 1) = false) by (apply Z.eqb_neq; lia). rewrite Hns.
    split; [split_and!; [done..|left; lia]|]. exists [], (Z.to_nat (snd_len s - 1)), 1%nat. rewrite app_nil_r.
    split_and!; [done| |by left|done].
    replace (Z.to_nat (snd_len s)) with (S (Z.to_nat (snd_len s - 1))) by lia. apply tr_back, tr_start.
Qed.

Lemma OnSend_flushed r t b p w t' w' :
  snd_buf (tx t) = Some b → in_flight (tx t) → -1 ≤ ret r → honest r (send_chunk (tx t) b) →
  OnSend r t p w = Ok (t', w') → flushed r b (tx t) (tx t').
Proof.
  intros Hs Hf Hr Hh. pose proof Hf as Hf'. unfold in_flight in Hf'. rewrite Hs in Hf'. destruct Hf' as (Hl & Hb & Hn).
  unfold OnSend. rewrite Hs. destruct (Z.leb_spec (buf_len (sb_hdr b)) (snd_len (tx t))) as [Hle|Hlt].
  { intros [= <- <-]. apply flushed_same; [done..|]. unfold flush_not_ready. rewrite Hs.
    by rewrite (proj2 (Z.ltb_ge _ _) Hle). }
  destruct Hn as [Hn|Hn]; [|unfold stuck in Hn; lia]. pose proof (stuck_false (tx t) (snd_len (tx t)) ltac:(lia) eq_refl) as Hst.
  assert (Hready : flush_not_ready r (tx t) = (ret r <? 0) && again r).
  { unfold flush_not_ready. rewrite Hs, (proj2 (Z.ltb_lt _ _) Hlt). done. }
  unfold honest, send_chunk in Hh. rewrite (wrap_small 32), length_take, length_drop in Hh by lia.
  destruct (decide (ret r ≤ 0)) as [Hle|Hgt].
  { rewrite (net_send_none r _ t Hle). destruct (Z.eqb_spec (ret r) 0) as [Hz|Hz].
    - rewrite Hz. simpl. destruct (fail_with (-1) p w); simpl; try done. intros [= <- <-].
      apply flushed_same; [done..|]. by rewrite Hready, Hz.
    - replace (ret r <? 0) with true in * by (symmetry; apply Z.ltb_lt; lia). destruct (again r); simpl in *.
      + replace (ret r) with (-1) by lia.
        destruct (Z.eqb_spec (wrap 64 (snd_len (tx t) + -1)) (buf_len (sb_hdr b))) as [He|_].
        { revert He. unfold wrap. lia. }
        intros [= <- <-]. by apply flushed_back.
      + destruct (fail_with (eno r) p w); simpl; try done. intros [= <- <-]. by apply flushed_same. }
  destruct (Z.ltb_spec (ret r) 0) as [|_]; [lia|]. destruct (Z.eqb_spec (ret r) 0) as [|_]; [lia|]. simpl.
  rewrite wrap_small by lia. set (n := snd_len (tx t) + ret r) in *.
  assert (Htr : transmits (sb_data b) (pos_in (tx t)) (Z.to_nat n) (take (Z.to_nat (ret r)) (send_chunk (tx t) b)) 0).
  { unfold pos_in, send_chunk. rewrite Hst, (wrap_small 32), take_take, Nat.min_l by lia.
    replace (Z.to_nat n) with (Z.to_nat (snd_len (tx t)) + Z.to_nat (ret r))%nat by lia.
    apply transmits_once. lia. }
  destruct (Z.eqb_spec n (buf_len (sb_hdr b))) as [Hd|Hd].
  - destruct (ngx_free _ _) as [pl f]. intros [= <- <-]. split; [done|]. split; [done|]. simpl.
    eexists _, _, 0%nat. split; [done|]. split; [exact Htr|]. rewrite Hst, Hready. split; [right; split; [done|lia]|done].
  - intros [= <- <-]. pose proof (stuck_false (Sender n (Some b) (wait_snds (tx t)) (wire (tx t))) n ltac:(lia) eq_refl) as Hs'.
    split; [done|]. split; [unfold in_flight; simpl; lia|]. eexists _, _, 0%nat. split; [done|]. split; [exact Htr|].
    rewrite Hst, Hready. simpl. unfold pos_in. unfold stuck in Hs' |- *. simpl in *. rewrite Hs'. split; [by left|done].
Qed.

Lemma OnSend_stream r t bs acc k p w t' w' :
  stream bs acc k (tx t) →
  (∀ b, snd_buf (tx t) = Some b → -1 ≤ ret r ∧ honest r (send_chunk (tx t) b)) →
  OnSend r t p w = Ok (t', w') → stream bs acc (k + if flush_not_ready r (tx t) then 1 else 0) (tx t').
Proof.
  intros Hst Hh H. pose proof Hst as [Hq Hp (sent & k' & Hb & Ht & Hk)].
  destruct (snd_buf (tx t)) as [b|] eqn:Hs.
  - destruct (Hh b eq_refl) as [Hr Hh']. destruct (OnSend_flushed _ _ _ _ _ _ _ Hs Hp Hr Hh' H)
      as (Hw & Hf & extra & pos & j & Hwire & Htr & Hend & Hj).
    assert (Hbuf : buffered (tx t) = sb_data b) by (unfold buffered; by rewrite Hs). rewrite Hbuf in Hb.
    pose proof (transmits_inside sent _ (bytes_queued bs) _ _ _ _ Htr) as Htr'. rewrite <- Hb in Htr'.
    pose proof (transmits_trans _ _ _ _ _ _ _ _ Ht Htr') as Hall. rewrite <- Hwire in Hall.
    split; [by destruct Hq; split; rewrite Hw|done|]. destruct Hend as [[Hs' ->]|[Hs' ->]].
    + exists sent, (k' + j)%nat. split_and!; [by unfold buffered; rewrite Hs'|done|lia].
    + assert (Hns : stuck (tx t') = false).
      { unfold in_flight in Hf. rewrite Hs' in Hf. unfold stuck. by rewrite Hf. }
      exists (sent ++ sb_data b), (k' + j)%nat. unfold buffered, pos_in. rewrite Hs', Hns in *. split_and!.
      * by rewrite Hb, <- app_assoc.
      * unfold in_flight in Hf. rewrite Hs' in Hf. rewrite Hf, length_app, Nat.add_0_r. done.
      * lia.
  - rewrite (OnSend_idle _ _ _ _ bs Hq Hs) in H. simplify_eq. unfold flush_not_ready. by rewrite Hs, Nat.add_0_r.
Qed.

(** *** Errors *)

Lemma fail_with_ok ext e p w :
  refs_ok ext w → 0 < ext p → ∃ w', fail_with e p w = Ok w' ∧ refs_ok ext w' ∧ p ∉ conns w'.
Proof.
  intros H Hp. destruct (refs_live ext w p H (or_introl Hp)) as (c & Hc & _ & _).
  unfold fail_with. rewrite (get_obj_Ok p w c Hc). cbn [mbind res_bind].
  set (w1 := put_obj p _ w).
  assert (Ht : touches p w w1) by (exists c; eexists; split_and!; try done; by apply quiet_same).
  destruct (terminate_ok 1 ext p w1 (touches_refs _ _ _ _ H Ht) Hp) as (w' & Heq & Hr & Hcs & _).
  exists w'. split; [exact Heq|]. split; [done|]. rewrite Hcs. set_solver.
Qed.

Lemma get_obj_live ext p w : refs_ok ext w → 0 < ext p → ∃ c, get_obj p w = Ok c.
Proof.
  intros H Hp. destruct (refs_live ext w p H (or_introl Hp)) as (c & Hc & _). exists c. by apply get_obj_Ok.
Qed.

Lemma OnSend_total ext r t bs p w :
  queued bs (tx t) → refs_ok ext w → 0 < ext p →
  ∃ t' w', OnSend r t p w = Ok (t', w') ∧ refs_ok ext w'.
Proof.
  intros Hq H Hp. destruct (snd_buf (tx t)) as [b|] eqn:Hs; [|by eexists _, _; rewrite (OnSend_idle _ _ _ _ bs)].
  unfold OnSend. rewrite Hs. destruct (_ <=? _); [by eexists _, _|].
  destruct ((ret r <? 0) && negb (again r)).
  { destruct (fail_with_ok ext (eno r) p w H Hp) as (w' & -> & Hr & _). by eexists _, _. }
  destruct (ret r =? 0).
  { destruct (fail_with_ok ext (-1) p w H Hp) as (w' & -> & Hr & _). by eexists _, _. }
  destruct (_ =? _); [|by eexists _, _]. destruct (ngx_free _ _). by eexists _, _.
Qed.

(** So flushing is a handler that the event loop can call safely. *)
Lemma OnSend_handler_ok (conn : positive → tcp_conn) (r : positive → sysret) :
  (∀ p, ∃ bs, queued bs (tx (conn p))) →
  handler_ok (λ p w, '(_, w) ← OnSend (r p) (conn p) p w; mret w).
Proof.
  intros Hq ext p w H Hp. destruct (Hq p) as [bs Hbs].
  destruct (OnSend_total ext (r p) (conn p) bs p w Hbs H Hp) as (t' & w' & -> & Hr). by exists w'.
Qed.

Lemma push_msg_total al data t bs :
  queued bs (tx t) → Z.of_nat (length data) < 2 ^ 32 → ∃ rc t', push_msg al data t = Ok (rc, t').
Proof.
  intros Hq Hl. destruct (push_msg_ok al data t bs Hq Hl) as (rc & t' & new & -> & _). by eexists _, _.
Qed.

(** *** Queued messages *)

(** The queue holds [bs] and something since [s0]; all that was sent since then
    is out of the buffer that was in transmission. *)
Definition waiting (bs : list sndbuf) (s0 s : sender) : Prop :=
  queued bs s ∧ bs ≠ [] ∧ in_flight s ∧
  ∃ extra pos j, wire s = wire s0 ++ extra ∧ transmits (buffered s0) (pos_in s0) pos extra j ∧
    (snd_buf s = snd_buf s0 ∧ pos = pos_in s ∨ snd_buf s = None).

Lemma waiting_step bs s0 t acc k s' :
  waiting bs s0 (tx t) → tx_step (t, acc, k) s' → ∃ new, waiting (bs ++ new) s0 (tx s'.1.1).
Proof.
  intros (Hq & Hne & Hf & extra & pos & j & Hw & Htr & Hend) H.
  inversion H as [al r data ? ? ? p w rc t' w' Hl _ Hsend | r ? ? ? p w t' w' Hr Hsend]; subst; cbn [fst].
  - destruct (send_queues _ _ _ _ _ _ _ _ _ _ Hq (or_intror Hne) Hsend) as [[_ ->]|Hp].
    { exists []. rewrite app_nil_r. split_and!; [done..|]. by exists extra, pos, j. }
    destruct (push_msg_ok al data t bs Hq Hl) as (rc1 & t1 & new & Hp' & Hq1 & Hs1 & Hn1 & Hw1 & _).
    rewrite Hp in Hp'. injection Hp' as <- <-. exists new.
    assert (Hfl : in_flight (tx t') ∧ pos_in (tx t') = pos_in (tx t)).
    { unfold in_flight, pos_in, stuck in *. by rewrite Hs1, Hn1. }
    destruct Hfl as [Hf' Hpos]. split_and!; [done|by destruct bs|done|].
    exists extra, pos, j. by rewrite Hw1, Hs1, Hpos.
  - exists []. rewrite app_nil_r. destruct (snd_buf (tx t)) as [b|] eqn:Hs.
    + destruct Hend as [[Hb ->]|]; [|done]. destruct (Hr b eq_refl) as [Hr1 Hh].
      destruct (OnSend_flushed _ _ _ _ _ _ _ Hs Hf Hr1 Hh Hsend)
        as (Hwq & Hf' & e & pos & j' & Hw' & Htr' & Hend & _).
      split_and!; [by destruct Hq; split; rewrite Hwq|done..|].
      exists (extra ++ e), pos, (j + j')%nat. rewrite Hw', Hw, app_assoc. split_and!; [done| |].
      * eapply transmits_trans; [done|]. unfold buffered. by rewrite <- Hb.
      * destruct Hend as [[-> ->]|[-> _]]; [left|by right]. done.
    + rewrite (OnSend_idle _ _ _ _ bs Hq Hs) in Hsend. injection Hsend as <- <-.
      split_and!; [done..|]. exists extra, pos, j. by rewrite Hs.
Qed.

Lemma transmits_nil p0 p w j : transmits [] p0 p w j → w = [].
Proof. induction 1 as [|to w j n _ -> Hn|]; [done| |done]. simpl in Hn. by destruct n; [|lia]. Qed.

(** *** Flushes that find the socket not ready *)

(** One flush after another, with the results of [::send]. *)
Fixpoint OnSend_run (rs : list sysret) (t : tcp_conn) (p : positive) (w : world)
    : res (tcp_conn * world) :=
  match rs with
  | [] => mret (t, w)
  | r :: rs => '(t, w) ← OnSend r t p w; OnSend_run rs t p w
  end.

Definition not_ready : sysret := Sys (-1) EAGAIN.

Definition with_snd_len (n : Z) (t : tcp_conn) : tcp_conn :=
  let s := tx t in set_tx (Sender n (snd_buf s) (wait_snds s) (wire s)) t.

Lemma OnSend_not_ready t b p w :
  snd_buf (tx t) = Some b → 0 ≤ snd_len (tx t) < buf_len (sb_hdr b) → buf_len (sb_hdr b) < 2 ^ 32 →
  OnSend not_ready t p w = Ok (with_snd_len (wrap 64 (snd_len (tx t) - 1)) t, w).
Proof.
  intros Hs Hn Hb. unfold OnSend. rewrite Hs. destruct (Z.leb_spec (buf_len (sb_hdr b)) (snd_len (tx t))); [lia|].
  rewrite net_send_none by done. simpl. change (snd_len (tx t) + -1) with (snd_len (tx t) - 1).
  destruct (Z.eqb_spec (wrap 64 (snd_len (tx t) - 1)) (buf_len (sb_hdr b))) as [He|_].
  - revert He. unfold wrap. lia.
  - unfold with_snd_len. by rewrite Hs.
Qed.

Lemma OnSend_run_not_ready k t b p w :
  snd_buf (tx t) = Some b → Z.of_nat k ≤ snd_len (tx t) < buf_len (sb_hdr b) → buf_len (sb_hdr b) < 2 ^ 32 →
  OnSend_run (replicate k not_ready) t p w = Ok (with_snd_len (snd_len (tx t) - Z.of_nat k) t, w).
Proof.
  revert t. induction k as [|k IH]; intros t Hs Hn Hb.
  - simpl. rewrite Z.sub_0_r. by destruct t as [? ? [] ?].
  - change (OnSend_run (replicate (S k) not_ready) t p w)
      with ('(t, w) ← OnSend not_ready t p w; OnSend_run (replicate k not_ready) t p w).
    rewrite (OnSend_not_ready t b) by (done || lia). cbn [mbind res_bind].
    rewrite wrap_small by lia. rewrite IH; [| done | simpl; lia | done].
    unfold with_snd_len, set_tx. simpl. do 4 f_equal. lia.
Qed.

(** *** Raw memory *)

Lemma length_le_bytes n v : length (le_bytes n v) = n.
Proof. revert v. induction n as [|n IH]; intros v; simpl; [done|by rewrite IH]. Qed.

Lemma of_le_bytes n v : of_le (le_bytes n v) = wrap (8 * Z.of_nat n) v.
Proof.
  revert v. induction n as [|n IH]; intros v; [symmetry; apply Z.mod_1_r|].
  cbn [le_bytes of_le]. rewrite IH. unfold wrap.
  replace (2 ^ (8 * Z.of_nat (S n))) with (256 * 2 ^ (8 * Z.of_nat n)).
  - rewrite Z.rem_mul_r by lia. lia.
  - change 256 with (2 ^ 8). rewrite <- Z.pow_add_r by lia. f_equal. lia.
Qed.

Lemma load64_app l1 l2 l3 off : length l1 = off → length l2 = 8%nat → load64 (l1 ++ l2 ++ l3) off = of_le l2.
Proof. intros <- Hl. unfold load64. rewrite drop_app_length, take_app_length' by done. done. Qed.

Lemma load_store_same mem off v :
  (off + 8 ≤ length mem)%nat → load64 (store64 mem off v) off = wrap 64 v.
Proof.
  intros Hl. unfold store64. rewrite list_inserts_split by (rewrite length_le_bytes; lia).
  rewrite load64_app, of_le_bytes.
  - by rewrite wrap_wrap by lia.
  - rewrite length_take. lia.
  - by rewrite length_le_bytes.
Qed.

Lemma length_store64 mem off v : length (store64 mem off v) = length mem.
Proof. apply length_inserts. Qed.

(** A write leaves the fields that it does not reach alone. *)
Lemma read_outside (mem src : list Z) off at_ n :
  (at_ + n ≤ off ∨ off + length src ≤ at_)%nat →
  take n (drop at_ (list_inserts off src mem)) = take n (drop at_ mem).
Proof.
  intros Hd. apply list_eq. intros i. destruct (decide (i < n)%nat) as [Hi|Hi].
  - rewrite !lookup_take_lt, !lookup_drop by done. destruct Hd.
    + apply list_lookup_inserts_lt. lia.
    + apply list_lookup_inserts_ge. lia.
  - by rewrite !lookup_take_ge by lia.
Qed.

Lemma load_store_other mem off off' v :
  (off' + 8 ≤ off ∨ off + 8 ≤ off')%nat → load64 (store64 mem off v) off' = load64 mem off'.
Proof. intros Hd. unfold load64, store64. by rewrite read_outside by (rewrite length_le_bytes; lia). Qed.

Lemma load_inserts_other mem src off off' :
  (off' + 8 ≤ off ∨ off + length src ≤ off')%nat →
  load64 (list_inserts off src mem) off' = load64 mem off'.
Proof. intros Hd. unfold load64. by rewrite read_outside. Qed.

(** A new buffer: its fields, its size and its bytes. *)
Lemma raw_buf_fields junk a b :
  0 ≤ buf_data b < 2 ^ 64 → 0 ≤ buf_len b < 2 ^ 64 →
  let m := rb_mem (raw_buf junk a b) in
  load64 m len_off = buf_len b ∧ load64 m data_off = buf_data b ∧
  length m = (32 + Z.to_nat (buf_cap b))%nat ∧
  drop 32 m = junk <$> seq 0 (Z.to_nat (buf_cap b)).
Proof.
  intros Hd Hl. cbn [rb_mem raw_buf].
  set (j := junk <$> _). assert (Hj : length j = Z.to_nat (buf_cap b)) by (unfold j; by rewrite length_fmap, length_seq).
  split_and!.
  - rewrite load64_app, of_le_bytes by apply length_le_bytes. by apply wrap_small.
  - rewrite !app_assoc. rewrite <- (app_assoc _ (le_bytes 8 (buf_data b)) j).
    rewrite load64_app, of_le_bytes; [by apply wrap_small | | apply length_le_bytes].
    by rewrite !length_app, !length_le_bytes.
  - rewrite !length_app, !length_le_bytes, Hj. lia.
  - rewrite !app_assoc. rewrite drop_app_length'; [done|]. by rewrite !length_app, !length_le_bytes.
Qed.

(** *** The first read *)

(** The memory after the first read of a chunk: it was written over the header. *)
Definition first_mem (junk : nat → Z) (a : Z) (b : ngx_buf_s) (chunk : list Z) : list Z :=
  let mem := list_inserts 0 chunk (rb_mem (raw_buf junk a b)) in
  store64 mem len_off (load64 mem len_off + Z.of_nat (length chunk)).

Lemma drop_inserts_short (mem src : list Z) off n :
  (off + length src ≤ n)%nat → drop n (list_inserts off src mem) = drop n mem.
Proof.
  intros Hn. apply list_eq. intros i. rewrite !lookup_drop. apply list_lookup_inserts_ge. lia.
Qed.

Lemma first_mem_fields junk a b chunk :
  0 ≤ buf_data b < 2 ^ 64 → 0 ≤ buf_len b < 2 ^ 64 → (length chunk ≤ 24)%nat →
  let m := first_mem junk a b chunk in
  load64 m len_off = wrap 64 (load64 (list_inserts 0 chunk (rb_mem (raw_buf junk a b))) len_off
                              + Z.of_nat (length chunk)) ∧
  load64 m data_off = buf_data b ∧ length m = (32 + Z.to_nat (buf_cap b))%nat ∧
  drop 32 m = junk <$> seq 0 (Z.to_nat (buf_cap b)).
Proof.
  intros Hd Hl Hc m. destruct (raw_buf_fields junk a b Hd Hl) as (_ & Hda & Hlen & Hdrop). subst m.
  unfold first_mem. split_and!.
  - apply load_store_same. rewrite length_inserts, Hlen. unfold len_off. lia.
  - rewrite load_store_other by (unfold len_off, data_off; lia).
    rewrite load_inserts_other by (unfold data_off; lia). done.
  - by rewrite length_store64, length_inserts.
  - unfold store64. rewrite drop_inserts_short by (rewrite length_le_bytes; unfold len_off; lia).
    by rewrite drop_inserts_short by lia.
Qed.

(** Sixteen bytes fill the capacity and the length of the header. *)
Lemma first_mem_peer junk a b c8 v :
  0 ≤ buf_data b < 2 ^ 64 → 0 ≤ buf_len b < 2 ^ 64 → length c8 = 8%nat → 0 ≤ v < 2 ^ 64 - 16 →
  let m := first_mem junk a b (c8 ++ le_bytes 8 v) in
  load64 m len_off = v + 16 ∧ load64 m cap_off = of_le c8.
Proof.
  intros Hd Hl Hc8 Hv m. set (chunk := c8 ++ le_bytes 8 v) in *.
  assert (Hcl : length chunk = 16%nat) by (unfold chunk; rewrite length_app, length_le_bytes; lia).
  destruct (raw_buf_fields junk a b Hd Hl) as (_ & _ & Hraw & _).
  destruct (first_mem_fields junk a b chunk Hd Hl ltac:(lia)) as (Hlen & _). fold m in Hlen.
  assert (Hmem : list_inserts 0 chunk (rb_mem (raw_buf junk a b)) =
                 c8 ++ le_bytes 8 v ++ drop 16 (rb_mem (raw_buf junk a b))).
  { rewrite list_inserts_split by lia. rewrite take_0, app_nil_l, Hcl. unfold chunk. by rewrite <- app_assoc. }
  split.
  - rewrite Hlen, Hmem, load64_app, of_le_bytes, Hcl by (done || apply length_le_bytes).
    change (8 * Z.of_nat 8) with 64. rewrite (wrap_small 64 v), wrap_small by lia. lia.
  - unfold m, first_mem. rewrite load_store_other by (unfold len_off, cap_off; lia).
    rewrite Hmem. unfold load64, cap_off. by rewrite drop_0, take_app_length' by done.
Qed.

Section reads.
Context (msg_head_fnc : list Z → Z → Z).

(** The first read of a connection, up to the call of the length parser. *)
Lemma OnRead_first al1 al2 junk r chunk t p w a b pl :
  rcv_buf (rx t) = None → expected_len (rx t) = head_len (rx t) → 0 ≤ head_len (rx t) < 2 ^ 32 →
  ngx_create_buf al1 (pool t) (head_len (rx t)) = (Some (a, b), pl) → 0 ≤ a < 2 ^ 63 →
  ret r = Z.of_nat (length chunk) → 0 < ret r ≤ 24 →
  let m := first_mem junk a b chunk in
  let data := junk <$> seq 0 (Z.to_nat (buf_cap b)) in
  let e := msg_head_fnc data (load64 m len_off) in
  let t1 := set_rx (Receiver (head_len (rx t)) (head_len (rx t)) (Some (raw_buf junk a b)) (delivered (rx t)))
              (set_pool pl t) in
  OnRead msg_head_fnc al1 al2 junk r chunk t p w =
    if (head_len (rx t) <? e) && (load64 m cap_off <? e) then
      '(nb, pool) ← grow_buf al2 junk pl e (RcvBuf a m);
      match nb with
      | None => mret (set_rx (Receiver (head_len (rx t)) e (Some (RcvBuf a m)) (delivered (rx t))) (set_pool pool t1), w)
      | Some b => t ← deliver (set_pool pool t1) e b; mret (t, w)
      end
    else t ← deliver t1 e (RcvBuf a m); mret (t, w).
Proof.
  intros Hrcv Hexp Hh Hc Ha Hret Hn m data e t1.
  destruct (create_buf_room al1 (pool t) (head_len (rx t)) a b pl ltac:(lia) Hc) as (Hcap & Hcap' & Hlen & Hda).
  pose proof (first_mem_fields junk a b chunk) as Hf. rewrite Hlen, Hda in Hf.
  destruct Hf as (_ & Hdata & Hl & Hdrop); [unfold sizeof_buf; lia | lia | lia |].
  fold m in Hdata, Hdrop.
  pose proof (raw_buf_fields junk a b) as Hraw. rewrite Hlen, Hda in Hraw.
  destruct Hraw as (Hl0 & _ & Hlm & _); [unfold sizeof_buf; lia | lia |].
  unfold OnRead. rewrite Hrcv, Hexp, Hc. destruct (Z.ltb_spec (ret r) 0); [lia|].
  destruct (Z.eqb_spec (ret r) 0); [lia|]. rewrite Hl0. unfold memcpy at 1.
  rewrite decide_True by (rewrite Hlm; lia). cbn [mbind res_bind]. change (Z.to_nat 0) with 0%nat.
  rewrite Hret. simpl rx. cbn [head_len expected_len]. rewrite Z.eqb_refl.
  change (store64 (list_inserts 0 chunk (rb_mem (raw_buf junk a b))) len_off _) with m.
  unfold payload at 1. cbn [rb_mem rb_addr raw_buf]. rewrite Hdata, Z.eqb_refl.
  cbn [mbind res_bind mret res_ret]. change (Z.to_nat sizeof_buf) with 32%nat.
  rewrite Hdrop. done.
Qed.

End reads.

Lemma deliver_ok t e a m cap_ data :
  load64 m data_off = a + sizeof_buf → drop 32 m = data → cap_ = load64 m len_off →
  deliver t e (RcvBuf a m) =
    Ok (if (cap_ =? e) && (head_len (rx t) <=? cap_)
        then set_rx (Receiver (head_len (rx t)) (head_len (rx t))
                      (Some (RcvBuf a (store64 m len_off 0)))
                      (delivered (rx t) ++ [take (Z.to_nat (wrap 32 e)) data])) t
        else set_rx (Receiver (head_len (rx t)) e (Some (RcvBuf a m)) (delivered (rx t))) t).
Proof.
  intros Hd Hdr ->. unfold deliver. cbn [rb_mem rb_addr]. case_match; [|done].
  unfold payload. cbn [rb_mem rb_addr]. rewrite Hd, Z.eqb_refl. cbn [mbind res_bind mret res_ret].
  change (Z.to_nat sizeof_buf) with 32%nat. by rewrite Hdr.
Qed.

(** Growing a buffer whose header length is within its payload. *)
Lemma grow_buf_ok al junk pl e a m n data :
  load64 m data_off = a + sizeof_buf → drop 32 m = data → load64 m len_off = Z.of_nat n →
  (n ≤ length data)%nat → Z.of_nat n ≤ e < 2 ^ 62 → (∀ a b pl', ngx_create_buf al pl e = (Some (a, b), pl') → 0 ≤ a < 2 ^ 63) →
  ∃ nb pl', grow_buf al junk pl e (RcvBuf a m) = Ok (nb, pl') ∧
    ∀ b, nb = Some b → load64 (rb_mem b) len_off = 0.
Proof.
  intros Hd Hdr Hn Hlen He Ha. unfold grow_buf.
  destruct (ngx_create_buf al pl e) as [[[a' h]|] pl'] eqn:Hc; [|by eexists _, _].
  destruct (create_buf_room al pl e a' h pl' ltac:(lia) Hc) as (Hcap & Hcap' & Hl0 & Hda).
  specialize (Ha a' h pl' eq_refl).
  pose proof (raw_buf_fields junk a' h) as Hraw. rewrite Hl0, Hda in Hraw.
  destruct Hraw as (Hl & _ & Hlm & _); [unfold sizeof_buf; lia | lia |].
  unfold payload. cbn [rb_mem rb_addr]. rewrite Hd, Z.eqb_refl. cbn [mbind res_bind mret res_ret].
  change (Z.to_nat sizeof_buf) with 32%nat. rewrite Hdr, Hn, Nat2Z.id. unfold memread.
  rewrite decide_True by lia. cbn [mbind res_bind]. unfold memcpy.
  rewrite decide_True by (rewrite Hlm, length_take, length_drop; lia). cbn [mbind res_bind].
  destruct (ngx_free pl' a) as [pl'' f]. eexists _, _. split; [done|]. intros b [= <-]. cbn [rb_mem].
  rewrite load_inserts_other by (unfold len_off; lia). done.
Qed.

(** *** Reads in general *)

Section outcomes.
Context (B : fault → Prop) (B_oob : B OutOfBounds).

Lemma payload_ends b : ends B (λ _, True) (payload b).
Proof using B_oob. unfold payload. by destruct (_ =? _). Qed.

Lemma memcpy_ends (dst src : list Z) off : ends B (λ _, True) (memcpy dst off src).
Proof using B_oob. unfold memcpy. by case_decide. Qed.

Lemma memread_ends (src : list Z) off n : ends B (λ _, True) (memread src off n).
Proof using B_oob. unfold memread. by case_decide. Qed.

Lemma grow_buf_ends al junk pl e b : ends B (λ _, True) (grow_buf al junk pl e b).
Proof using B_oob.
  unfold grow_buf. destruct (ngx_create_buf _ _ _) as [[[a h]|] pl']; [|done].
  eapply ends_bind; [apply payload_ends|]. intros old _.
  eapply ends_bind; [apply memread_ends|]. intros bytes _.
  eapply ends_bind; [apply memcpy_ends|]. intros mem _. by destruct (ngx_free _ _).
Qed.

Lemma deliver_ends t e b : ends B (λ t', tx t' = tx t) (deliver t e b).
Proof using B_oob.
  unfold deliver. destruct (_ && _); [|done]. eapply ends_bind; [apply payload_ends|]. done.
Qed.

End outcomes.

(** Whatever arrives, a read leaves the sender alone, the world too unless the
    connection is ended, and the only undefined behaviour is an access out of
    bounds, after some bytes arrived. *)
Lemma OnRead_ends f al1 al2 junk ext r chunk t p w :
  refs_ok ext w → 0 < ext p →
  ends (λ flt, flt = OutOfBounds ∧ 0 < ret r)
    (λ '(t', w'), tx t' = tx t ∧ refs_ok ext w' ∧ (w' = w ∨ ∃ e, fail_with e p w = Ok w'))
    (OnRead f al1 al2 junk r chunk t p w).
Proof.
  intros H Hp. unfold OnRead.
  assert (Hfail : ∀ (B : fault → Prop) e t', tx t' = tx t →
    ends B (λ '(t', w'), tx t' = tx t ∧ refs_ok ext w' ∧ (w' = w ∨ ∃ e, fail_with e p w = Ok w'))
      (w ← fail_with e p w; mret (t', w))).
  { intros B e t' Ht. destruct (fail_with_ok ext e p w H Hp) as (w' & Hf & ? & _). rewrite Hf.
    split; [done|]. split; [done|]. right. by exists e. }
  destruct (match rcv_buf (rx t) with Some b => _ | None => _ end) as [[b|] pl]; [|split_and!; [done..|by left]].
  destruct (Z.ltb_spec (ret r) 0).
  { destruct (_ || _); [by apply Hfail|]. split_and!; [done..|by left]. }
  destruct (Z.eqb_spec (ret r) 0); [by apply Hfail|].
  assert (Hdel : ∀ t1 e b1, tx t1 = tx t →
    ends (λ flt, flt = OutOfBounds ∧ 0 < ret r)
      (λ '(t', w'), tx t' = tx t ∧ refs_ok ext w' ∧ (w' = w ∨ ∃ e, fail_with e p w = Ok w'))
      (t2 ← deliver t1 e b1; mret (t2, w))).
  { intros t1 e b1 Ht1. eapply ends_bind; [apply deliver_ends; split; [done|lia]|].
    intros t2 Ht2. split_and!; [by rewrite Ht2|done|by left]. }
  eapply ends_bind; [apply memcpy_ends; split; [done|lia]|]. intros mem _.
  destruct (_ =? _); [|by apply Hdel].
  eapply ends_bind; [apply payload_ends; split; [done|lia]|]. intros data _.
  destruct (_ && _); [|by apply Hdel].
  eapply ends_bind; [apply grow_buf_ends; split; [done|lia]|]. intros [[nb|] pl'] _; [by apply Hdel|].
  split_and!; [done..|by left].
Qed.

(** Sixteen bytes that announce a message longer than the buffer: growing it
    copies that many bytes out of the old one. *)
Lemma OnRead_overread f al1 al2 junk r c8 v t p w a b pl :
  rcv_buf (rx t) = None → expected_len (rx t) = head_len (rx t) → 16 ≤ head_len (rx t) < 2 ^ 32 →
  ngx_create_buf al1 (pool t) (head_len (rx t)) = (Some (a, b), pl) → 0 ≤ a < 2 ^ 63 →
  length c8 = 8%nat → ret r = 16 → 0 ≤ v < 2 ^ 62 → head_len (rx t) < v + 16 → of_le c8 < v + 16 →
  (∀ data, f data (v + 16) = v + 16) → buf_cap b < v + 16 →
  is_Some (ngx_create_buf al2 pl (v + 16)).1 →
  OnRead f al1 al2 junk r (c8 ++ le_bytes 8 v) t p w = Fault OutOfBounds.
Proof.
  intros Hrcv Hexp Hh Hc Ha Hc8 Hr Hv Hlong Hcap Hf Hout [[a' b'] Ha2].
  assert (Hcl : length (c8 ++ le_bytes 8 v) = 16%nat) by (rewrite length_app, length_le_bytes; lia).
  destruct (create_buf_room al1 (pool t) (head_len (rx t)) a b pl ltac:(lia) Hc) as (_ & Hcap' & Hl0 & Hda).
  pose proof (first_mem_fields junk a b (c8 ++ le_bytes 8 v)) as Hff. pose proof (first_mem_peer junk a b c8 v) as Hpeer.
  rewrite Hl0, Hda in Hff, Hpeer.
  destruct Hff as (_ & Hdata & Hlm & Hdrop); [unfold sizeof_buf; lia | lia | lia |].
  destruct Hpeer as [Hlen Hcapm]; [unfold sizeof_buf; lia | lia | done | lia |].
  rewrite (OnRead_first f al1 al2 junk r _ t p w a b pl) by (done || lia). rewrite Hlen, Hcapm, Hf.
  rewrite !(proj2 (Z.ltb_lt _ _)) by done. cbn [andb]. unfold grow_buf.
  destruct (ngx_create_buf al2 pl (v + 16)) as [[[a1 b1]|] pl2]; [|done].
  unfold payload. cbn [rb_mem rb_addr]. rewrite Hdata, Z.eqb_refl. cbn [mbind res_bind mret res_ret].
  change (Z.to_nat sizeof_buf) with 32%nat. rewrite Hdrop, Hlen. unfold memread.
  rewrite decide_False; [done|]. rewrite length_fmap, length_seq. lia.
Qed.

(** *** New connections *)

Lemma tcp_conn_create_cases al1 al2 n :
  tcp_conn_create al1 al2 n = Fault NullDeref ∨
  ∃ t, tcp_conn_create al1 al2 n = Ok t ∧ queued [] (tx t) ∧ snd_buf (tx t) = None ∧ snd_len (tx t) = 0 ∧
    wire (tx t) = [] ∧ rx t = Receiver n n None [].
Proof.
  unfold tcp_conn_create, ngx_create_queue.
  destruct (ngx_create_pool al1 1) as [pl|]; [|by left]. cbn [deref mbind res_bind].
  destruct (ngx_palloc _ _ _) as [[a|] pl']; [|by left]. right. eexists. split; [done|].
  split_and!; [split; [apply (queue_rep_create (replicate 1024 None))|done]|done..].
Qed.

Lemma tcp_conn_create_stream al1 al2 n t : tcp_conn_create al1 al2 n = Ok t → stream [] [] 0 (tx t).
Proof.
  intros Hc. destruct (tcp_conn_create_cases al1 al2 n) as [Hn|(t1 & Ht & Hq & Hs & Hl & Hw & _)]; [congruence|].
  rewrite Ht in Hc. injection Hc as <-. split; [done|unfold in_flight; by rewrite Hs|].
  exists [], 0%nat. unfold buffered, pos_in, stuck. rewrite Hs, Hl, Hw. split_and!; [done|apply tr_start|done].
Qed.

(** What is before the position, in transmission and queued is the stream. *)
Lemma stream_split bs sent accepted s :
  in_flight s → stuck s = false → concat accepted = sent ++ buffered s ++ bytes_queued bs →
  take (length sent + pos_in s) (concat accepted) ++ pending s ++ bytes_queued bs = concat accepted.
Proof.
  intros Hf Hst ->. unfold pos_in, pending, buffered, in_flight in *. rewrite Hst in *.
  destruct (snd_buf s) as [b|].
  - destruct Hf as (Hl & _ & [Hn|]); [|done]. rewrite take_app_add, take_app_le, <- app_assoc by lia.
    f_equal. by rewrite app_assoc, take_drop.
  - rewrite Hf, Nat.add_0_r, take_app_length. done.
Qed.

(** ** Properties *)

(** C14: in every run of [send_msg] and flushes the messages for which [send_msg]
    returned 0 are, in order, those that are finished, the buffer in transmission
    and the queue, whatever the sizes of the partial sends, the allocation
    failures and the errors.  The bytes the socket accepted are this stream from
    its beginning to the present position, read on and moved back by one byte
    for every flush that found the socket not ready (except the one that finds
    it so at the first byte of the buffer), so the socket has got exactly that
    many bytes more than once.  As long as no flush finds it so, every byte is
    sent once. *)
Theorem tcp_send_stream s t accepted k :
  tx_init s → rtc tx_step s (t, accepted, k) →
  ∃ bs sent k', queue_rep (wait_snds (tx t)) (Some <$> bs) ∧
    concat accepted = sent ++ buffered (tx t) ++ bytes_queued bs ∧
    transmits (concat accepted) 0 (length sent + pos_in (tx t)) (wire (tx t)) k' ∧
    k = (k' + if stuck (tx t) then 1 else 0)%nat ∧
    length (wire (tx t)) = (length sent + pos_in (tx t) + k')%nat ∧
    (k = 0%nat → wire (tx t) ++ pending (tx t) ++ bytes_queued bs = concat accepted).
Proof.
  intros Hinit Hsteps. assert (Hinv : ∃ bs, stream bs accepted k (tx t)).
  { change t with (t, accepted, k).1.1. change accepted with (t, accepted, k).1.2.
    change k with (t, accepted, k).2 at 2.
    apply (reachable_invariant tx_init tx_step (λ s, ∃ bs, stream bs s.1.2 s.2 (tx s.1.1))).
    - intros s0 (al1 & al2 & n & t0 & Hc & ->). exists []. by apply (tcp_conn_create_stream al1 al2 n).
    - intros s1 s2 (bs & Hst) Hstep. destruct Hstep; cbn [fst snd] in *.
      + by eapply send_stream.
      + exists bs. by eapply OnSend_stream.
    - by exists s. }
  destruct Hinv as (bs & [Hq Hf (sent & k' & Hb & Ht & Hk)]). exists bs, sent, k'.
  split_and!; [apply Hq|done..| |].
  - pose proof (transmits_length _ _ _ _ _ Ht). lia.
  - intros ->. destruct k'; [|lia]. rewrite (transmits_ready _ _ _ _ Ht eq_refl).
    destruct (stuck (tx t)) eqn:Hst; [lia|]. by apply (stream_split bs).
Qed.

(** C21: once a message is queued the queue is never drained: from then on no
    call of [send_msg] or [OnSend], whatever the socket answers, puts a byte on
    the wire that is not of the buffer in transmission at that time, and when
    there is none, none at all; the queue only grows. *)
Theorem tcp_queue_never_drained bs t acc k s' :
  queue_rep (wait_snds (tx t)) (Some <$> bs) → q_head (wait_snds (tx t)) = 0%nat →
  bs ≠ [] → in_flight (tx t) → rtc tx_step (t, acc, k) s' →
  ∃ new extra pos j, queue_rep (wait_snds (tx s'.1.1)) (Some <$> bs ++ new) ∧
    wire (tx s'.1.1) = wire (tx t) ++ extra ∧
    transmits (buffered (tx t)) (pos_in (tx t)) pos extra j ∧
    (snd_buf (tx t) = None → extra = []) ∧
    (snd_buf (tx s'.1.1) = snd_buf (tx t) ∨ snd_buf (tx s'.1.1) = None).
Proof.
  intros Hq Hh Hne Hf Hsteps.
  assert (Hinv : ∃ new, waiting (bs ++ new) (tx t) (tx s'.1.1)).
  { refine (rtc_ind_r (λ s, ∃ new, waiting (bs ++ new) (tx t) (tx s.1.1)) _ _ _ _ Hsteps).
    - exists []. rewrite app_nil_r. split_and!; [done..|]. exists [], (pos_in (tx t)), 0%nat.
      rewrite app_nil_r. split_and!; [done|apply tr_start|by left].
    - intros [[t1 acc1] k1] s2 _ Hstep (new & Hp).
      destruct (waiting_step _ _ _ _ _ _ Hp Hstep) as (new' & Hp'). exists (new ++ new'). by rewrite app_assoc. }
  destruct Hinv as (new & [Hq' _] & _ & _ & extra & pos & j & Hw & Htr & Hend).
  exists new, extra, pos, j. split_and!; [done..| |destruct Hend as [[? _]|?]; auto].
  intros Hs. unfold buffered in Htr. rewrite Hs in Htr. by apply transmits_nil in Htr.
Qed.

(** every flush that finds the socket not ready moves the position in the
    buffer back by one: after [k] of them the last [k] bytes already sent are
    sent again, and after one more than was sent the position wraps to
    [2^64 - 1] and the buffer is never sent. *)
Theorem tcp_not_ready_resends t b (k : nat) p w :
  snd_buf (tx t) = Some b → partial (tx t) →
  (Z.of_nat k ≤ snd_len (tx t) →
   ∃ t', OnSend_run (replicate k not_ready ++ [Sys (buf_len (sb_hdr b) - snd_len (tx t) + Z.of_nat k) 0]) t p w
         = Ok (t', w) ∧
     wire (tx t') = wire (tx t) ++ drop (Z.to_nat (snd_len (tx t)) - k) (sb_data b)) ∧
  (Z.of_nat k = snd_len (tx t) + 1 →
   ∃ t', OnSend_run (replicate k not_ready) t p w = Ok (t', w) ∧ wire (tx t') = wire (tx t) ∧
     ∀ r p w, OnSend r t' p w = Ok (t', w)).
Proof.
  intros Hs Hp. unfold partial in Hp. rewrite Hs in Hp. destruct Hp as (Hl & Hn & Hb).
  assert (Happ : ∀ rs rs' t, OnSend_run (rs ++ rs') t p w
            = ('(t, w) ← OnSend_run rs t p w; OnSend_run rs' t p w)).
  { clear. intros rs rs'. generalize w. induction rs as [|r rs IH]; intros v t; [done|]. simpl.
    destruct (OnSend r t p v) as [[t1 v1]| | |]; simpl; try done. }
  split.
  - intros Hk. rewrite Happ, (OnSend_run_not_ready k t b) by (done || lia). cbn [mbind res_bind].
    set (t1 := with_snd_len _ t). set (n := snd_len (tx t) - Z.of_nat k). simpl OnSend_run.
    unfold OnSend. change (snd_buf (tx t1)) with (snd_buf (tx t)). rewrite Hs.
    change (snd_len (tx t1)) with n. destruct (Z.leb_spec (buf_len (sb_hdr b)) n); [lia|].
    assert (Hchunk : send_chunk (tx t1) b = drop (Z.to_nat (snd_len (tx t)) - k) (sb_data b)).
    { unfold send_chunk. change (snd_len (tx t1)) with n. rewrite (wrap_small 32) by lia.
      replace (Z.to_nat n) with (Z.to_nat (snd_len (tx t)) - k)%nat by lia. apply take_ge. rewrite length_drop. lia. }
    rewrite Hchunk. set (m := buf_len (sb_hdr b) - snd_len (tx t) + Z.of_nat k). cbn [ret].
    destruct (Z.ltb_spec m 0); [lia|]. destruct (Z.eqb_spec m 0); [lia|]. cbn [andb].
    change (snd_len (tx (net_send _ _ t1))) with n. rewrite wrap_small by lia.
    destruct (Z.eqb_spec (n + m) (buf_len (sb_hdr b))); [|lia].
    destruct (ngx_free _ _) as [pl f]. eexists. split; [done|]. simpl. f_equal.
    apply take_ge. rewrite length_drop. unfold m. lia.
  - intros Hk. replace k with (pred k + 1)%nat by lia. rewrite replicate_add, Happ.
    rewrite (OnSend_run_not_ready (pred k) t b) by (done || lia). cbn [mbind res_bind].
    replace (snd_len (tx t) - Z.of_nat (pred k)) with 0 by lia.
    change (OnSend_run (replicate 1 not_ready) (with_snd_len 0 t) p w)
      with ('(t, w) ← OnSend not_ready (with_snd_len 0 t) p w; mret (t, w)).
    rewrite (OnSend_not_ready _ b); [| done | simpl; lia | done].
    eexists. split; [done|]. split; [done|]. intros r p' w'.
    assert (Hle : (buf_len (sb_hdr b) <=? wrap 64 (0 - 1)) = true).
    { apply Z.leb_le. change (wrap 64 (0 - 1)) with (2 ^ 64 - 1). lia. }
    unfold OnSend, with_snd_len, set_tx. cbn [tx snd_buf snd_len]. rewrite Hs. by rewrite Hle.
Qed.


(** C35: the first read of a connection is written over the buffer's header.
    A chunk of at most 8 bytes reaches neither the length parser nor the
    message handler: both get the bytes that [malloc] left, and only the
    number of received bytes matters. *)
Theorem tcp_first_read_lost f al1 al2 junk r chunk t p w a b pl :
  rcv_buf (rx t) = None → expected_len (rx t) = head_len (rx t) → 0 < head_len (rx t) < 2 ^ 32 →
  ngx_create_buf al1 (pool t) (head_len (rx t)) = (Some (a, b), pl) → 0 ≤ a < 2 ^ 63 →
  ret r = Z.of_nat (length chunk) → 0 < ret r ≤ 8 → ret r ≤ head_len (rx t) →
  let data := junk <$> seq 0 (Z.to_nat (buf_cap b)) in
  let e := f data (ret r) in
  0 ≤ e < 2 ^ 62 → (∀ a' b' pl', ngx_create_buf al2 pl e = (Some (a', b'), pl') → 0 ≤ a' < 2 ^ 63) →
  ∃ t', OnRead f al1 al2 junk r chunk t p w = Ok (t', w) ∧
    delivered (rx t') = delivered (rx t) ++
      (if (ret r =? e) && (head_len (rx t) <=? ret r) then [take (Z.to_nat e) data] else []).
Proof.
  intros Hrcv Hexp Hh Hc Ha Hret Hn Hle data e He Ha2.
  destruct (create_buf_room al1 (pool t) (head_len (rx t)) a b pl ltac:(lia) Hc) as (Hcap & Hcap' & Hl0 & Hda).
  pose proof (first_mem_fields junk a b chunk) as Hff. rewrite Hl0, Hda in Hff.
  destruct Hff as (Hlen & Hdata & Hlm & Hdrop); [unfold sizeof_buf; lia | lia | lia |].
  pose proof (raw_buf_fields junk a b) as Hraw. rewrite Hl0, Hda in Hraw.
  destruct Hraw as (Hlr & _ & _ & _); [unfold sizeof_buf; lia | lia |].
  rewrite load_inserts_other, Hlr, wrap_small in Hlen by (unfold len_off; lia). rewrite Z.add_0_l in Hlen.
  rewrite (OnRead_first f al1 al2 junk r chunk t p w a b pl) by (done || lia).
  set (m := first_mem junk a b chunk) in *. rewrite Hlen, <- Hret. fold data e.
  destruct (Z.ltb_spec (head_len (rx t)) e) as [Hgt|Hng]; simpl andb.
  - destruct (Z.eqb_spec (ret r) e); [lia|]. simpl andb. rewrite app_nil_r.
    assert (Hdel : ∀ t1 b1, load64 (rb_mem b1) len_off ≠ e →
      deliver t1 e b1 = Ok (set_rx (Receiver (head_len (rx t1)) e (Some b1) (delivered (rx t1))) t1)).
    { intros t1 b1 Hne. unfold deliver. by rewrite (proj2 (Z.eqb_neq _ _) Hne). }
    destruct (load64 m cap_off <? e).
    + destruct (grow_buf_ok al2 junk pl e a m (length chunk) data) as (nb & pl' & -> & Hnb); try done.
      * unfold data. rewrite length_fmap, length_seq. lia.
      * lia.
      * cbn [mbind res_bind]. destruct nb as [nb|]; [|by eexists].
        rewrite Hdel by (rewrite (Hnb nb) by done; lia). by eexists.
    + rewrite Hdel by (simpl; lia). by eexists.
  - rewrite (deliver_ok _ e a m (ret r) data); [|done|done|lia]. cbn [head_len rx set_rx].
    destruct (Z.eqb_spec (ret r) e) as [He'|He'], (Z.leb_spec (head_len (rx t)) (ret r)); simpl andb; cbn iota;
      eexists; (split; [reflexivity|]); simpl; rewrite ?app_nil_r; try done.
    by rewrite wrap_small by lia.
Qed.

(** sixteen received bytes set the buffer's length field: its value is the
    peer's second eight bytes plus 16, and when that lies outside the buffer
    the next read that brings any byte writes there. *)
Theorem tcp_peer_controls_write f al1 al2 junk r c8 v t p w a b pl :
  rcv_buf (rx t) = None → expected_len (rx t) = head_len (rx t) → 16 ≤ head_len (rx t) < 2 ^ 32 →
  ngx_create_buf al1 (pool t) (head_len (rx t)) = (Some (a, b), pl) → 0 ≤ a < 2 ^ 63 →
  (∀ data n, f data n = head_len (rx t)) →
  length c8 = 8%nat → ret r = 16 → 0 ≤ v < 2 ^ 64 - 16 → 32 + buf_cap b ≤ v + 16 →
  ∃ t', OnRead f al1 al2 junk r (c8 ++ le_bytes 8 v) t p w = Ok (t', w) ∧
    (∃ m, rcv_buf (rx t') = Some (RcvBuf a m) ∧ load64 m len_off = v + 16) ∧
    ∀ al1 al2 junk r chunk p w, 0 < ret r → chunk ≠ [] →
      OnRead f al1 al2 junk r chunk t' p w = Fault OutOfBounds.
Proof.
  intros Hrcv Hexp Hh Hc Ha Hf Hc8 Hr Hv Hout.
  set (chunk := c8 ++ le_bytes 8 v). assert (Hcl : length chunk = 16%nat).
  { unfold chunk. rewrite length_app, length_le_bytes. lia. }
  destruct (create_buf_room al1 (pool t) (head_len (rx t)) a b pl ltac:(lia) Hc) as (Hcap & Hcap' & Hl0 & Hda).
  pose proof (first_mem_fields junk a b chunk) as Hff. pose proof (first_mem_peer junk a b c8 v) as Hpeer.
  rewrite Hl0, Hda in Hff, Hpeer.
  destruct Hff as (_ & Hdata & Hlm & Hdrop); [unfold sizeof_buf; lia | lia | lia |].
  destruct Hpeer as [Hlen _]; [unfold sizeof_buf; lia | lia | done | done |]. fold chunk in Hlen.
  rewrite (OnRead_first f al1 al2 junk r chunk t p w a b pl) by (done || lia). rewrite Hf.
  set (m := first_mem junk a b chunk) in *. rewrite Z.ltb_irrefl. cbn [andb].
  rewrite (deliver_ok _ (head_len (rx t)) a m (v + 16) _ Hdata eq_refl) by done.
  destruct (Z.eqb_spec (v + 16) (head_len (rx t))); [lia|]. cbn [andb mbind res_bind mret res_ret].
  eexists. split; [reflexivity|]. split; [by exists m|].
  intros al1' al2' junk' r' chunk' p' w' Hr' Hne. unfold OnRead. cbn [rx set_rx rcv_buf expected_len head_len].
  destruct (Z.ltb_spec (ret r') 0); [lia|]. destruct (Z.eqb_spec (ret r') 0); [lia|].
  cbn [rb_mem]. rewrite Hlen. unfold memcpy. rewrite decide_False; [done|].
  rewrite Hlm. destruct chunk'; [done|]. simpl. lia.
Qed.

(** ** Witnesses *)

(** A pool of one page at 65536, the queue at 131088 outside it. *)
Definition demo_conn : tcp_conn :=
  match tcp_conn_create (demo_al 65536) (demo_al 131072) 24 with
  | Ok t => t
  | _ => Tcp demo_pool0 0 (Sender 0 None (Queue [] 0 0 0) []) (Receiver 0 0 None [])
  end.

Definition run_send (r : sysret) (data : list Z) (t : tcp_conn) : tcp_conn :=
  match send_msg (demo_al 262144) r data t 1 demo_world with Ok (_, t, _) => t | _ => t end.

(** Three bytes sent, of which the socket took two. *)
Definition demo_partial : tcp_conn := run_send (Sys 2 0) [7; 8; 9] demo_conn.

(** The socket was not ready: the message is queued. *)
Definition demo_parked : tcp_conn := run_send (Sys (-1) EAGAIN) [7; 8; 9] demo_conn.

Lemma demo_conn_init : tx_init (demo_conn, [], 0%nat).
Proof. exists (demo_al 65536), (demo_al 131072), 24, demo_conn. split; [vm_compute|]; reflexivity. Qed.

(** Two bytes are taken, a flush finds the socket not ready, the next one sends
    the rest: the second byte is sent twice. *)
Definition run_flush (r : sysret) (t : tcp_conn) : tcp_conn :=
  match OnSend r t 1 demo_world with Ok (t, _) => t | _ => t end.

Lemma demo_partial_step : rtc tx_step (demo_conn, [], 0%nat) (demo_partial, [[7; 8; 9]], 0%nat).
Proof.
  apply rtc_once.
  refine (step_send (demo_al 262144) (Sys 2 0) [7; 8; 9] demo_conn [] 0 1 demo_world 0 demo_partial demo_world _ _ _).
  - reflexivity.
  - unfold honest. simpl. lia.
  - vm_compute. reflexivity.
Qed.

Lemma tcp_send_stream_witness :
  let t := run_flush (Sys 2 0) (run_flush not_ready demo_partial) in
  wire (tx demo_partial) = [7; 8] ∧ pending (tx demo_partial) = [9] ∧
  (∃ bs, wire (tx demo_partial) ++ pending (tx demo_partial) ++ bytes_queued bs = [7; 8; 9]) ∧
  wire (tx t) = [7; 8; 8; 9] ∧ ∃ n, transmits [7; 8; 9] 0 n [7; 8; 8; 9] 1.
Proof.
  intros t. split; [vm_compute; reflexivity|]. split; [vm_compute; reflexivity|]. split; [|split].
  - destruct (tcp_send_stream _ _ _ _ demo_conn_init demo_partial_step) as (bs & _ & _ & _ & _ & _ & _ & _ & Hb).
    exists bs. by apply Hb.
  - vm_compute. reflexivity.
  - destruct (tcp_send_stream _ t [[7; 8; 9]] 1 demo_conn_init) as (bs & sent & k' & _ & _ & Ht & Hk & _).
    + etrans; [exact demo_partial_step|].
      eapply rtc_l; [|apply rtc_once].
      * refine (step_flush not_ready demo_partial _ 0 1 demo_world (run_flush not_ready demo_partial) demo_world _ _).
        -- intros b _. unfold honest. simpl. lia.
        -- vm_compute. reflexivity.
      * refine (step_flush (Sys 2 0) (run_flush not_ready demo_partial) _ 1 1 demo_world t demo_world _ _).
        -- intros b Hb. vm_compute in Hb. injection Hb as <-. vm_compute. split; discriminate.
        -- vm_compute. reflexivity.
    + change (stuck (tx t)) with false in Hk. rewrite Nat.add_0_r in Hk. subst k'.
      change (wire (tx t)) with [7; 8; 8; 9] in Ht. by eexists.
Defined.

Lemma demo_parked_queue :
  ∃ b, queue_rep (wait_snds (tx demo_parked)) (Some <$> [b]) ∧ sb_data b = [7; 8; 9] ∧
    q_head (wait_snds (tx demo_parked)) = 0%nat ∧ snd_buf (tx demo_parked) = None.
Proof.
  destruct (push_msg_ok (demo_al 262144) [7; 8; 9] demo_conn []) as (rc & t' & new & Hp & [Hq Hh] & Hs & _ & _ & Hn).
  - split; [|reflexivity].
    assert (wait_snds (tx demo_conn) = Queue (replicate 1024 None) 1024 0 0) as -> by (vm_compute; reflexivity).
    apply (queue_rep_create (replicate 1024 None)).
  - reflexivity.
  - assert (Ht : push_msg (demo_al 262144) [7; 8; 9] demo_conn = Ok (0, demo_parked)) by (vm_compute; reflexivity).
    rewrite Ht in Hp. injection Hp as <- <-. simpl app in Hq.
    destruct Hn as [[_ Hd]|[? _]]; [|done].
    assert (Hlen : length (Some <$> new) = 1%nat).
    { destruct (qr_len _ _ Hq) as [-> _]. vm_compute. reflexivity. }
    destruct new as [|b [|? ?]]; try done. exists b. unfold bytes_queued in Hd. simpl in Hd.
    rewrite app_nil_r in Hd. by split_and!.
Qed.

(** A message is queued behind the one in transmission; the next flush sends the
    rest of that one, and the queued message stays where it is. *)
Definition demo_behind : tcp_conn := run_send (Sys 1 0) [5] demo_partial.

Lemma demo_behind_queue :
  ∃ b, queue_rep (wait_snds (tx demo_behind)) (Some <$> [b]) ∧ q_head (wait_snds (tx demo_behind)) = 0%nat.
Proof.
  destruct (push_msg_ok (demo_al 262144) [5] demo_partial []) as (rc & t' & new & Hp & [Hq Hh] & _ & _ & _ & Hn).
  - split; [|reflexivity].
    assert (wait_snds (tx demo_partial) = Queue (replicate 1024 None) 1024 0 0) as -> by (vm_compute; reflexivity).
    apply (queue_rep_create (replicate 1024 None)).
  - reflexivity.
  - assert (Ht : push_msg (demo_al 262144) [5] demo_partial = Ok (0, demo_behind)) by (vm_compute; reflexivity).
    rewrite Ht in Hp. injection Hp as <- <-. simpl app in Hq.
    assert (Hlen : length (Some <$> new) = 1%nat).
    { destruct (qr_len _ _ Hq) as [-> _]. vm_compute. reflexivity. }
    destruct new as [|b [|? ?]]; try done. by exists b.
Qed.

Lemma tcp_queue_never_drained_witness :
  wire (tx (run_send (Sys 1 0) [5] demo_parked)) = [] ∧
  ∃ extra pos j, wire (tx (run_flush (Sys 1 0) demo_behind)) = [7; 8] ++ extra ∧
    transmits [7; 8; 9] 2 pos extra j.
Proof.
  split.
  - destruct demo_parked_queue as (b & Hq & _ & Hh & Hs).
    destruct (tcp_queue_never_drained [b] demo_parked [[7; 8; 9]] 0
      (run_send (Sys 1 0) [5] demo_parked, [[7; 8; 9]; [5]], 0%nat) Hq Hh) as (new & extra & pos & j & _ & Hw & _ & He & _).
    + discriminate.
    + unfold in_flight. rewrite Hs. vm_compute. reflexivity.
    + apply rtc_once.
      refine (step_send (demo_al 262144) (Sys 1 0) [5] demo_parked [[7; 8; 9]] 0 1 demo_world 0 _ demo_world _ _ _).
      * reflexivity.
      * unfold honest. simpl. lia.
      * vm_compute. reflexivity.
    + rewrite (He Hs) in Hw. refine (eq_trans Hw _). vm_compute. reflexivity.
  - destruct demo_behind_queue as (b & Hq & Hh).
    destruct (tcp_queue_never_drained [b] demo_behind [[7; 8; 9]; [5]] 0
      (run_flush (Sys 1 0) demo_behind, [[7; 8; 9]; [5]], 0%nat) Hq Hh) as (new & extra & pos & j & _ & Hw & Ht & _).
    + discriminate.
    + unfold in_flight. vm_compute. split; [reflexivity|]. split; [reflexivity|]. left. split; [discriminate|reflexivity].
    + apply rtc_once.
      refine (step_flush (Sys 1 0) demo_behind _ 0 1 demo_world _ demo_world _ _).
      * intros b' Hb. vm_compute in Hb. injection Hb as <-. vm_compute. split; discriminate.
      * vm_compute. reflexivity.
    + exists extra, pos, j. split; [exact Hw|]. exact Ht.
Defined.

(** One flush that is not ready: the second byte goes out twice. *)
Lemma tcp_not_ready_resends_witness :
  ∃ t', OnSend_run [not_ready; Sys 2 0] demo_partial 1 demo_world = Ok (t', demo_world) ∧
    wire (tx t') = [7; 8; 8; 9].
Proof.
  destruct (snd_buf (tx demo_partial)) as [b|] eqn:Hs; [|vm_compute in Hs; discriminate].
  pose proof Hs as Hs'. vm_compute in Hs'. injection Hs' as <-.
  destruct (proj1 (tcp_not_ready_resends demo_partial _ 1 1 demo_world Hs ltac:(
    unfold partial; rewrite Hs; simpl; change (snd_len (tx demo_partial)) with 2; lia)))
    as (t' & Hr & Hw).
  - change (snd_len (tx demo_partial)) with 2. lia.
  - exists t'. split; [exact Hr|]. rewrite Hw. reflexivity.
Defined.

(** Two of three bytes were taken and the next allocation fails. *)
Definition no_memory : allocator := {| malloc _ := None; posix_memalign _ _ := None |}.

Definition full_pool : ngx_pool_s := Pool 65536 [] [] 0.

Definition demo_full : tcp_conn := set_pool full_pool demo_conn.


(** A header of 24 bytes of which the first four arrive: the parser is given
    the bytes of the allocation (here 255 each) and their number. *)
Lemma tcp_first_read_lost_witness :
  ∃ t', OnRead (λ data n, of_le (take 1 data)) (demo_al 262144) (demo_al 262144) (λ _, 255)
          (Sys 4 0) [1; 2; 3; 4] demo_conn 1 demo_world = Ok (t', demo_world) ∧ delivered (rx t') = [].
Proof.
  destruct (tcp_first_read_lost (λ data n, of_le (take 1 data)) (demo_al 262144) (demo_al 262144) (λ _, 255)
    (Sys 4 0) [1; 2; 3; 4] demo_conn 1 demo_world 65608 (Buf 24 0 1 65640)
    (ngx_create_buf (demo_al 262144) (pool demo_conn) 24).2) as (t' & Ht & Hd).
  - reflexivity.
  - reflexivity.
  - split; reflexivity.
  - vm_compute. reflexivity.
  - split; [discriminate|reflexivity].
  - reflexivity.
  - split; [reflexivity|discriminate].
  - discriminate.
  - split; [discriminate|reflexivity].
  - intros a' b' pl' H. vm_compute in H. injection H as <- _ _. lia.
  - exists t'. split; [exact Ht|]. rewrite Hd. reflexivity.
Defined.

(** The peer asks for a write one megabyte behind the buffer. *)
Lemma tcp_peer_controls_write_witness :
  ∃ t', OnRead (λ _ _, 24) (demo_al 262144) (demo_al 262144) (λ _, 0) (Sys 16 0)
          ([0; 0; 0; 0; 0; 0; 0; 0] ++ le_bytes 8 1048576) demo_conn 1 demo_world = Ok (t', demo_world) ∧
    OnRead (λ _ _, 24) (demo_al 262144) (demo_al 262144) (λ _, 0) (Sys 1 0) [65] t' 1 demo_world
      = Fault OutOfBounds.
Proof.
  destruct (tcp_peer_controls_write (λ _ _, 24) (demo_al 262144) (demo_al 262144) (λ _, 0) (Sys 16 0)
    [0; 0; 0; 0; 0; 0; 0; 0] 1048576 demo_conn 1 demo_world 65608 (Buf 24 0 1 65640)
    (ngx_create_buf (demo_al 262144) (pool demo_conn) 24).2) as (t' & Ht & _ & Hout).
  - reflexivity.
  - reflexivity.
  - split; [discriminate|reflexivity].
  - vm_compute. reflexivity.
  - split; [discriminate|reflexivity].
  - reflexivity.
  - reflexivity.
  - reflexivity.
  - split; [discriminate|reflexivity].
  - discriminate.
  - exists t'. split; [exact Ht|]. by apply Hout.
Defined.
