(* ===== verification/Synchronizer.v ===== *)
(** * One-shot results: threadpool/synchronizer.h, core/synchronizer.h,
      basic/async_result_syncer.h

    A [std::promise] with its [std::future] is the standard library's one-shot
    cell.  Each operation of the classes is atomic here, except that a timed
    wait of [SyncPair] has two steps, before and after the blocking. *)

From S2P Require Import Prelude.
Local Open Scope Z_scope.

(** ** The standard library's cell *)

(** [valid] is [future.valid()]: false once the value was fetched. *)
Record shared (T : Type) := Shared { value : option T; valid : bool }.
Arguments Shared {T}.
Arguments value {T}.
Arguments valid {T}.

Section std.
Context {T : Type}.

Definition new_shared : shared T := Shared None true.

(** [promise.set_value]: throws [promise_already_satisfied] the second time. *)
Definition set_value (v : T) (s : shared T) : res (shared T) :=
  match value s with
  | Some _ => Throw FutureError
  | None => mret (Shared (Some v) (valid s))
  end.

(** [future.wait_for(...) == ready] when the wait ends. *)
Definition wait_ready (s : shared T) : res bool :=
  if valid s then mret (bool_decide (is_Some (value s))) else Throw FutureError.

(** [future.get()]; [None] while it blocks. *)
Definition future_get (s : shared T) : res (option T * shared T) :=
  if valid s then
    match value s with
    | Some v => mret (Some v, Shared (Some v) false)
    | None => mret (None, s)
    end
  else Throw FutureError.

End std.

(** ** [Synchronizer] *)

Section synchronizer.
Context {T : Type} (dflt : T).

(** [wait(timeout)]: [{}] when the time is over. *)
Definition sync_wait (s : shared T) : res (T * shared T) :=
  r ← wait_ready s;
  if r : bool then
    '(v, s) ← future_get s;
    mret (default dflt v, s)
  else mret (dflt, s).

(** [wait(output, timeout)] *)
Definition sync_wait_out (output : T) (s : shared T) : res (bool * T * shared T) :=
  r ← wait_ready s;
  if r : bool then
    '(v, s) ← future_get s;
    mret (true, default output v, s)
  else mret (false, output, s).

Definition sync_notify (v : T) (s : shared T) : res (shared T) := set_value v s.

(** *** [BatchSynchronizer] *)

Record batch := Batch { sync_list : gmap Z (shared T); id_ : Z }.

Definition batch_new : batch := Batch ∅ 0.

Definition batch_entry (id : Z) (b : batch) : shared T := default new_shared (sync_list b !! id).

Definition batch_wait (id : Z) (b : batch) : res (T * batch) :=
  '(v, s) ← sync_wait (batch_entry id b);
  mret (v, Batch (<[id := s]> (sync_list b)) (id_ b)).

Definition batch_notify (id : Z) (v : T) (b : batch) : res batch :=
  s ← sync_notify v (batch_entry id b);
  mret (Batch (<[id := s]> (sync_list b)) (id_ b)).

(** [get(id)]: [None] while it blocks. *)
Definition batch_get (id : Z) (b : batch) : res (option T * batch) :=
  match sync_list b !! id with
  | None => mret (Some dflt, b)
  | Some s =>
      '(v, s) ← future_get s;
      mret (v, Batch (<[id := s]> (sync_list b)) (id_ b))
  end.

Definition batch_fetch_id (b : batch) : Z * batch := (id_ b + 1, Batch (sync_list b) (id_ b + 1)).

End synchronizer.
Arguments batch : clear implicits.

(** ** [SyncPair] and [AsyncResultSyncer] *)

Section pair.
Context {T : Type}.

Record SyncData := MkSync { cell : shared T; is_set : bool; is_get : bool }.

Definition new_data : SyncData := MkSync new_shared false false.

(** [SyncData::set] *)
Definition data_set (v : T) (d : SyncData) : res (bool * SyncData) :=
  if valid (cell d) && negb (is_set d) then
    s ← set_value v (cell d);
    mret (true, MkSync s true (is_get d))
  else mret (false, d).

(** [SyncData::get], called when the future is ready. *)
Definition data_get (out : T) (d : SyncData) : res (bool * T * SyncData) :=
  if valid (cell d) && negb (is_get d) then
    '(v, s) ← future_get (cell d);
    mret (true, default out v, MkSync s (is_set d) true)
  else mret (false, out, d).

Definition is_done (d : SyncData) : bool := is_set d && is_get d.

(** Entries carry the number of their creation, so that a reference to an
    erased entry is not confused with a new entry for the same id. *)
Record SyncPair := Pair { sync_data_map : gmap Z (nat * SyncData); created : nat; seqId : Z }.

Definition pair_new (seq : Z) : SyncPair := Pair ∅ 0 seq.

Definition create_sync_data (id : Z) (p : SyncPair) : SyncPair :=
  match sync_data_map p !! id with
  | Some _ => p
  | None => Pair (<[id := (created p, new_data)]> (sync_data_map p)) (S (created p)) (seqId p)
  end.

(** The reference, as the number of the entry. *)
Definition get_sync_data (id : Z) (p : SyncPair) : res nat :=
  e ← deref OutOfBounds (sync_data_map p !! id); mret e.1.

(** The entry behind a reference. *)
Definition follow (id : Z) (g : nat) (p : SyncPair) : res SyncData :=
  match sync_data_map p !! id with
  | Some (g', d) => if decide (g = g') then mret d else Fault UseAfterFree
  | None => Fault UseAfterFree
  end.

Definition store (id : Z) (g : nat) (d : SyncData) (p : SyncPair) : SyncPair :=
  Pair (<[id := (g, d)]> (sync_data_map p)) (created p) (seqId p).

Definition remove_sync_data (id : Z) (p : SyncPair) : SyncPair :=
  match sync_data_map p !! id with
  | Some (_, d) =>
      if is_done d then Pair (delete id (sync_data_map p)) (created p) (seqId p) else p
  | None => p
  end.

Definition pair_notify (id : Z) (v : T) (p : SyncPair) : res SyncPair :=
  let p := create_sync_data id p in
  g ← get_sync_data id p;
  d ← follow id g p;
  '(_, d) ← data_set v d;
  mret (store id g d p).

(** [wait_for] up to the blocking, and from its end on. *)
Definition wait_for_begin (id : Z) (p : SyncPair) : res (nat * SyncPair) :=
  let p := create_sync_data id p in
  g ← get_sync_data id p;
  mret (g, p).

Definition wait_for_end (out : T) (id : Z) (g : nat) (p : SyncPair) : res (bool * T * SyncPair) :=
  d ← follow id g p;
  r ← wait_ready (cell d);
  if r : bool then
    '(b, v, d) ← data_get out d;
    mret (b, v, remove_sync_data id (store id g d p))
  else mret (false, out, p).

Definition pair_reset (p : SyncPair) : SyncPair := Pair ∅ (created p) (seqId p).

(** [seqId_++] *)
Definition pair_fetch_id (p : SyncPair) : Z * SyncPair :=
  (seqId p, Pair (sync_data_map p) (created p) (seqId p + 1)).

End pair.
Arguments SyncData : clear implicits.
Arguments SyncPair : clear implicits.

(** ** Specification *)

(** *** A batch is a family of one-shot cells *)

Inductive one_shot (T : Type) := Empty | Full (v : T) | Taken.
Arguments Empty {T}.
Arguments Full {T}.
Arguments Taken {T}.

Inductive batch_op (T : Type) := BNotify (id : Z) (v : T) | BWait (id : Z).
Arguments BNotify {T}.
Arguments BWait {T}.

(** *** A pair is a family of mailboxes with room for one value *)

Inductive pair_op (T : Type) := PNotify (id : Z) (v : T) | PBegin (id : Z) | PEnd (id : Z).
Arguments PNotify {T}.
Arguments PBegin {T}.
Arguments PEnd {T}.

Section spec.
Context {T : Type} (dflt : T).

Fixpoint batch_run (ops : list (batch_op T)) (b : batch T) : res (list T * batch T) :=
  match ops with
  | [] => mret ([], b)
  | BNotify id v :: ops => b ← batch_notify id v b; batch_run ops b
  | BWait id :: ops =>
      '(v, b) ← batch_wait dflt id b;
      '(vs, b) ← batch_run ops b;
      mret (v :: vs, b)
  end.

(** A wait on an empty cell times out, a second value or a second fetch throws. *)
Fixpoint cells_run (ops : list (batch_op T)) (m : Z → one_shot T) : res (list T * (Z → one_shot T)) :=
  match ops with
  | [] => mret ([], m)
  | BNotify id v :: ops =>
      match m id with
      | Empty => cells_run ops (λ i, if decide (i = id) then Full v else m i)
      | _ => Throw FutureError
      end
  | BWait id :: ops =>
      match m id with
      | Empty => '(vs, m) ← cells_run ops m; mret (dflt :: vs, m)
      | Full v => '(vs, m) ← cells_run ops (λ i, if decide (i = id) then Taken else m i); mret (v :: vs, m)
      | Taken => Throw FutureError
      end
  end.

Definition cell_of (s : shared T) : one_shot T :=
  match value s, valid s with
  | None, true => Empty
  | Some v, true => Full v
  | _, false => Taken
  end.

Definition cells_of (b : batch T) (id : Z) : one_shot T := cell_of (batch_entry id b).

(** A cell without value still has its future. *)
Definition batch_ok (b : batch T) : Prop :=
  ∀ id s, sync_list b !! id = Some s → value s = None → valid s = true.

(** Waits of a pair, with the references of those in progress. *)
Fixpoint pair_run (ops : list (pair_op T)) (open : gmap Z nat) (p : SyncPair T)
    : res (list (bool * T) * SyncPair T) :=
  match ops with
  | [] => mret ([], p)
  | PNotify id v :: ops => p ← pair_notify id v p; pair_run ops open p
  | PBegin id :: ops => '(g, p) ← wait_for_begin id p; pair_run ops (<[id := g]> open) p
  | PEnd id :: ops =>
      g ← deref Uninitialised (open !! id);
      '(b, v, p) ← wait_for_end dflt id g p;
      '(vs, p) ← pair_run ops (delete id open) p;
      mret ((b, v) :: vs, p)
  end.

Fixpoint mailbox_run (ops : list (pair_op T)) (m : Z → option T) : list (bool * T) * (Z → option T) :=
  match ops with
  | [] => ([], m)
  | PNotify id v :: ops =>
      mailbox_run ops (λ i, if decide (i = id) then Some (default v (m id)) else m i)
  | PBegin _ :: ops => mailbox_run ops m
  | PEnd id :: ops =>
      let '(vs, m') := mailbox_run ops (λ i, if decide (i = id) then None else m i) in
      ((bool_decide (is_Some (m id)), default dflt (m id)) :: vs, m')
  end.

(** At most one wait per id at a time, and waits end after they began. *)
Fixpoint well_nested (ops : list (pair_op T)) (open : gset Z) : Prop :=
  match ops with
  | [] => True
  | PNotify _ _ :: ops => well_nested ops open
  | PBegin id :: ops => (id ∉ open) ∧ well_nested ops ({[id]} ∪ open)
  | PEnd id :: ops => id ∈ open ∧ well_nested ops (open ∖ {[id]})
  end.

(** An entry is a mailbox whose value has not been fetched. *)
Definition mail (o : option T) : SyncData T := MkSync (Shared o true) (bool_decide (is_Some o)) false.

Record pair_ok (p : SyncPair T) (open : gmap Z nat) (m : Z → option T) : Prop := {
  po_entry id g d : sync_data_map p !! id = Some (g, d) → d = mail (m id);
  po_absent id : sync_data_map p !! id = None → m id = None;
  po_open id g : open !! id = Some g → ∃ d, sync_data_map p !! id = Some (g, d)
}.

(** ** Lemmas *)

Lemma cell_of_set s v : (value s = None → valid s = true) →
  match cell_of s with
  | Empty => ∃ s', set_value v s = Ok s' ∧ cell_of s' = Full v ∧ value s' ≠ None
  | _ => set_value v s = Throw FutureError
  end.
Proof using.
  destruct s as [[x|] [|]]; simpl; intros H; try (by specialize (H eq_refl)); try done; by eexists.
Qed.

Lemma cell_of_wait s : (value s = None → valid s = true) →
  match cell_of s with
  | Empty => sync_wait dflt s = Ok (dflt, s)
  | Full v => ∃ s', sync_wait dflt s = Ok (v, s') ∧ cell_of s' = Taken ∧ value s' ≠ None
  | Taken => sync_wait dflt s = Throw FutureError
  end.
Proof using.
  destruct s as [[x|] [|]]; simpl; intros H; try (by specialize (H eq_refl)); try done; by eexists.
Qed.

Lemma batch_entry_ok b id : batch_ok b → value (batch_entry id b) = None → valid (batch_entry id b) = true.
Proof using.
  intros H. unfold batch_entry. destruct (sync_list b !! id) eqn:E; simpl; [by apply (H id)|done].
Qed.

(** Storing a cell under an id. *)
Lemma batch_put b id s n :
  batch_ok b → (value s = None → valid s = true) →
  batch_ok (Batch (<[id := s]> (sync_list b)) n) ∧
  ∀ i, cells_of (Batch (<[id := s]> (sync_list b)) n) i = if decide (i = id) then cell_of s else cells_of b i.
Proof using.
  intros H Hs. split.
  - intros i x. simpl. rewrite lookup_insert. case_decide; [by intros [= <-]|apply H].
  - intros i. unfold cells_of, batch_entry. simpl. rewrite lookup_insert. by do 2 case_decide; subst.
Qed.

(** The same outputs, or the same exception. *)
Definition same_outcome {A} (vs : res (list T * A)) (b : res (list T * (Z → one_shot T)))
    (R : A → (Z → one_shot T) → Prop) : Prop :=
  match vs, b with
  | Ok (l, x), Ok (l', m) => l = l' ∧ R x m
  | Throw e, Throw e' => e = e'
  | _, _ => False
  end.

Definition represents (b : batch T) (m : Z → one_shot T) : Prop :=
  batch_ok b ∧ ∀ i, cells_of b i = m i.

Lemma same_outcome_cons {A} v (r : res (list T * A)) r' R :
  same_outcome r r' R →
  same_outcome ('(vs, b) ← r; mret (v :: vs, b)) ('(vs, m) ← r'; mret (v :: vs, m)) R.
Proof using.
  destruct r as [[? ?]| | |], r' as [[? ?]| | |]; simpl; try done. by intros [-> ?].
Qed.

Lemma batch_simulation ops b m :
  represents b m → same_outcome (batch_run ops b) (cells_run ops m) represents.
Proof using.
  revert b m. induction ops as [|[id v|id] ops IH]; intros b m [Hok Hm]; [done| |]; simpl.
  - unfold batch_notify, sync_notify.
    pose proof (cell_of_set (batch_entry id b) v (batch_entry_ok b id Hok)) as Hs.
    rewrite <- (Hm id). change (cells_of b id) with (cell_of (batch_entry id b)).
    destruct (cell_of (batch_entry id b)); [|by rewrite Hs|by rewrite Hs].
    destruct Hs as (s' & -> & Hc & Hv). cbn [mbind res_bind mret res_ret]. apply IH.
    destruct (batch_put b id s' (id_ b) Hok ltac:(done)) as [Hok' Hm']. split; [done|].
    intros i. rewrite Hm', Hc. by rewrite Hm.
  - unfold batch_wait.
    pose proof (cell_of_wait (batch_entry id b) (batch_entry_ok b id Hok)) as Hs.
    rewrite <- (Hm id). change (cells_of b id) with (cell_of (batch_entry id b)).
    destruct (cell_of (batch_entry id b)) eqn:Hc; [| |by rewrite Hs].
    + rewrite Hs. cbn [mbind res_bind mret res_ret]. apply same_outcome_cons, IH.
      destruct (batch_put b id (batch_entry id b) (id_ b) Hok (batch_entry_ok b id Hok)) as [Hok' Hm'].
      split; [done|]. intros i. rewrite Hm'. case_decide; subst; [|by rewrite Hm].
      by rewrite <- Hm.
    + destruct Hs as (s' & -> & Hc' & Hv). cbn [mbind res_bind mret res_ret]. apply same_outcome_cons, IH.
      destruct (batch_put b id s' (id_ b) Hok ltac:(done)) as [Hok' Hm']. split; [done|].
      intros i. rewrite Hm', Hc'. by rewrite Hm.
Qed.

(** *** Pairs *)

Lemma data_set_mail v o : ∃ b, data_set v (mail o) = Ok (b, mail (Some (default v o))).
Proof using. destruct o; by eexists. Qed.

Lemma create_ok p open m id :
  pair_ok p open m →
  ∃ g, pair_ok (create_sync_data id p) open m ∧ get_sync_data id (create_sync_data id p) = Ok g ∧
    sync_data_map (create_sync_data id p) !! id = Some (g, mail (m id)) ∧
    (open !! id = None ∨ open !! id = Some g).
Proof using.
  intros [He Ha Ho]. unfold create_sync_data, get_sync_data.
  destruct (sync_data_map p !! id) as [[g d]|] eqn:E.
  - exists g. rewrite E. pose proof (He id g d E) as ->. split_and!; try done.
    destruct (open !! id) as [g'|] eqn:Ho'; [|by left]. right.
    destruct (Ho id g' Ho') as (d & Hd). naive_solver.
  - exists (created p). simpl. rewrite lookup_insert_eq, (Ha id E). split_and!; try done.
    + split; simpl.
      * intros i g d. rewrite lookup_insert. case_decide as Hi; [subst i|apply He].
        intros [= <- <-]. by rewrite (Ha id E).
      * intros i. rewrite lookup_insert. case_decide; [done|apply Ha].
      * intros i g Hi. rewrite lookup_insert. case_decide as Heq; [subst i|by apply Ho].
        destruct (Ho id g Hi) as (d & Hd). by rewrite Hd in E.
    + left. destruct (open !! id) as [g'|] eqn:Ho'; [|done].
      destruct (Ho id g' Ho') as (d & Hd). by rewrite Hd in E.
Qed.

(** Storing the mail of an id. *)
Lemma store_ok p open m id g o :
  pair_ok p open m → (open !! id = None ∨ open !! id = Some g) →
  pair_ok (store id g (mail o) p) open (λ i, if decide (i = id) then o else m i).
Proof using.
  intros [He Ha Ho] Hg. split; simpl.
  - intros i g' d. rewrite lookup_insert. do 2 case_decide; try done; [by intros [= _ <-] | apply He].
  - intros i. rewrite lookup_insert. do 2 case_decide; done || apply Ha.
  - intros i g' Hi. rewrite lookup_insert. case_decide as Heq; [subst i|by apply Ho].
    exists (mail o). destruct Hg as [Hg|Hg]; rewrite Hg in Hi; [done|]. by simplify_eq.
Qed.

Lemma notify_ok p open m id v :
  pair_ok p open m →
  ∃ p', pair_notify id v p = Ok p' ∧
    pair_ok p' open (λ i, if decide (i = id) then Some (default v (m id)) else m i).
Proof using.
  intros H. unfold pair_notify. destruct (create_ok p open m id H) as (g & H' & -> & Hl & Hg).
  cbn [mbind res_bind]. unfold follow. rewrite Hl, decide_True by done. cbn [mbind res_bind mret res_ret].
  destruct (data_set_mail v (m id)) as (b & ->). cbn [mbind res_bind mret res_ret].
  eexists. split; [done|]. by apply store_ok.
Qed.

Lemma begin_ok p open m id :
  pair_ok p open m → open !! id = None →
  ∃ g p', wait_for_begin id p = Ok (g, p') ∧ pair_ok p' (<[id := g]> open) m.
Proof using.
  intros H Hn. unfold wait_for_begin. destruct (create_ok p open m id H) as (g & H' & -> & Hl & _).
  exists g, (create_sync_data id p). split; [done|]. destruct H' as [He Ha Ho]. split; [done|done|].
  intros i g'. rewrite lookup_insert. case_decide as Heq; [subst i|apply Ho]. intros [= <-]. by eexists.
Qed.

Lemma end_ok p open m id g :
  pair_ok p open m → open !! id = Some g →
  ∃ p', wait_for_end dflt id g p = Ok (bool_decide (is_Some (m id)), default dflt (m id), p') ∧
    pair_ok p' (delete id open) (λ i, if decide (i = id) then None else m i).
Proof using.
  intros [He Ha Ho] Hg. destruct (Ho id g Hg) as (d & Hd). pose proof (He id g d Hd) as ->.
  unfold wait_for_end, follow. rewrite Hd, decide_True by done. cbn [mbind res_bind mret res_ret].
  assert (Hdel : ∀ i g', delete id open !! i = Some g' → i ≠ id ∧ open !! i = Some g').
  { intros i g'. rewrite lookup_delete_Some. naive_solver. }
  destruct (m id) as [v|] eqn:Hm; simpl; eexists; (split; [reflexivity|]).
  - unfold remove_sync_data, store. simpl. rewrite lookup_insert_eq. simpl. split; simpl.
    + intros i g' d'. rewrite delete_insert_eq, lookup_delete_Some. intros [Hi Hl].
      rewrite decide_False by done. by apply (He i g').
    + intros i. rewrite delete_insert_eq. case_decide as Hi; [done|].
      rewrite lookup_delete_ne by done. apply Ha.
    + intros i g' Hi. apply Hdel in Hi as [Hi Hl]. rewrite delete_insert_eq, lookup_delete_ne by done. by apply Ho.
  - split.
    + intros i g' d' Hi. case_decide as Heq; [subst i|by apply (He i g')]. rewrite Hd in Hi. by simplify_eq.
    + intros i Hi. case_decide; [done|by apply Ha].
    + intros i g' Hi. apply Hdel in Hi as [Hi Hl]. by apply Ho.
Qed.

Lemma pair_simulation ops p open m :
  pair_ok p open m → well_nested ops (dom open) →
  ∃ p', pair_run ops open p = Ok ((mailbox_run ops m).1, p').
Proof using.
  revert p open m. induction ops as [|[id v|id|id] ops IH]; intros p open m H Hw; simpl in *.
  - by eexists.
  - destruct (notify_ok p open m id v H) as (p' & -> & H'). cbn [mbind res_bind]. by apply IH.
  - destruct Hw as [Hn Hw]. destruct (begin_ok p open m id H) as (g & p' & -> & H'); [by apply not_elem_of_dom|].
    cbn [mbind res_bind]. apply IH; [done|]. by rewrite dom_insert_L.
  - destruct Hw as [Hin Hw]. apply elem_of_dom in Hin as [g Hg]. rewrite Hg. cbn [deref mbind res_bind].
    destruct (end_ok p open m id g H Hg) as (p' & -> & H'). cbn [mbind res_bind mret res_ret].
    destruct (IH p' (delete id open) _ H') as (p'' & ->); [by rewrite dom_delete_L|].
    cbn [mbind res_bind mret res_ret]. destruct (mailbox_run _ _) as [vs m']. by eexists.
Qed.

Lemma pair_new_ok seq : pair_ok (pair_new seq) ∅ (λ _, None).
Proof using. split; [done|done|done]. Qed.

End spec.

(** ** Properties *)

(** C16: [SyncPair] is a family of mailboxes, one per id, each with room for one
    value: a notification into a full mailbox is dropped, a timed wait takes the
    value whether it arrived before or during the wait and times out when there
    is none, an id can be used again after its value was taken, and no sequence
    of operations throws or follows a reference to an erased entry as long as
    every id has at most one wait at a time. *)
Theorem async_result_mailbox {T} (dflt : T) seq ops :
  well_nested ops ∅ →
  ∃ p', pair_run dflt ops ∅ (pair_new seq) = Ok ((mailbox_run dflt ops (λ _, None)).1, p').
Proof.
  intros Hw. apply pair_simulation; [apply pair_new_ok|]. by rewrite dom_empty_L.
Qed.

(** [BatchSynchronizer] is a family of one-shot cells: a wait that ends
    before the notification returns the default value and leaves the cell
    empty, the value is returned once, and a second notification of an id or a
    wait after the value was taken throws. *)
Theorem batch_one_shot {T} (dflt : T) ops :
  same_outcome (batch_run dflt ops batch_new) (cells_run dflt ops (λ _, Empty)) represents.
Proof. apply batch_simulation. by split. Qed.

(** ** Witnesses *)

(** A value before the wait, one during it, one dropped, one never sent. *)
Lemma async_result_mailbox_witness :
  ∃ p', pair_run 0 [PNotify 1 10; PBegin 1; PEnd 1; PBegin 2; PNotify 2 20; PNotify 2 21; PEnd 2;
                    PBegin 1; PEnd 1] ∅ (pair_new 0)
        = Ok ([(true, 10); (true, 20); (false, 0)], p').
Proof.
  apply (async_result_mailbox 0 0 [PNotify 1 10; PBegin 1; PEnd 1; PBegin 2; PNotify 2 20; PNotify 2 21; PEnd 2;
                    PBegin 1; PEnd 1]).
  simpl. split_and!; set_solver.
Defined.
