(* ===== verification/AsyncMove.v ===== *)
(** * Objects of AsyncResultSyncer and their moves (basic/async_result_syncer.h)

    Several [AsyncResultSyncer]s, their predicates, and the move operations of
    the three classes.  As with the GNU library, a moved map is left empty, a
    moved function cannot be called, and a moved future is not valid. *)

From S2P Require Import Prelude Synchronizer.
Local Open Scope Z_scope.

Section moves.
Context {T : Type}.

(** [SyncData(SyncData &&)] and the assignments: the new value and the old. *)
Definition data_move (d : SyncData T) : SyncData T * SyncData T :=
  (d, MkSync (Shared None false) (is_set d) (is_get d)).

(** [SyncPair(SyncPair &&)] and [operator=(SyncPair &&)]: entries keep their
    place in memory when their map is moved. *)
Definition pair_move (p : SyncPair T) : SyncPair T * SyncPair T :=
  (p, Pair ∅ (created p) (seqId p)).

Record AsyncResultSyncer := Atrs {
  sync_pair : SyncPair T; predicate_ : option (T → bool); atrs_seqId : Z
}.

Definition atrs_new (predicate : T → bool) (seq : Z) : AsyncResultSyncer :=
  Atrs (pair_new seq) (Some predicate) 0.

Definition atrs_move (a : AsyncResultSyncer) : AsyncResultSyncer * AsyncResultSyncer :=
  let (new, old) := pair_move (sync_pair a) in
  (Atrs new (predicate_ a) (atrs_seqId a), Atrs old None (atrs_seqId a)).

Definition make_atrs (predicate : T → bool) (seq : Z) : AsyncResultSyncer :=
  (atrs_move (atrs_new predicate seq)).1.

(** [predicate_(data)] *)
Definition call_predicate (a : AsyncResultSyncer) (data : T) : res bool :=
  match predicate_ a with Some f => mret (f data) | None => Throw BadFunctionCall end.

Definition set_pair (p : SyncPair T) (a : AsyncResultSyncer) : AsyncResultSyncer :=
  Atrs p (predicate_ a) (atrs_seqId a).

(** [wait_for(data, id, timeout)], undisturbed by other threads. *)
Definition atrs_wait_for (data : T) (id : Z) (a : AsyncResultSyncer) : res (bool * T * AsyncResultSyncer) :=
  '(g, p) ← wait_for_begin id (sync_pair a);
  '(b, data, p) ← wait_for_end data id g p;
  if b : bool then
    ok ← call_predicate a data;
    mret (ok, data, set_pair p a)
  else mret (false, data, set_pair p a).

Definition atrs_fetch_id (a : AsyncResultSyncer) : Z * AsyncResultSyncer :=
  let (id, p) := pair_fetch_id (sync_pair a) in (id, set_pair p a).

Definition atrs_notify (id : Z) (data : T) (a : AsyncResultSyncer) : res AsyncResultSyncer :=
  p ← pair_notify id data (sync_pair a); mret (set_pair p a).

(** The end of a [wait_for] on a pair whose map was moved to another one
    during the wait: the entry is now there, and is removed here. *)
Definition wait_for_end_moved (out : T) (id : Z) (g : nat) (here there : SyncPair T)
    : res (bool * T * SyncPair T * SyncPair T) :=
  d ← follow id g there;
  r ← wait_ready (cell d);
  if r : bool then
    '(b, v, d) ← data_get out d;
    mret (b, v, remove_sync_data id here, store id g d there)
  else mret (false, out, here, there).

(** Notifications of one id. *)
Fixpoint notify_each (id : Z) (vs : list T) (p : SyncPair T) : res (SyncPair T) :=
  match vs with
  | [] => mret p
  | v :: vs => p ← pair_notify id v p; notify_each id vs p
  end.

End moves.
Arguments AsyncResultSyncer : clear implicits.

(** ** Programs over several objects *)

Inductive atrs_op (T : Type) :=
  | ANotify (o : nat) (id : Z) (v : T)
  | AWait (o : nat) (id : Z)
  | AFetch (o : nat)
  | AMove (from to : nat).
Arguments ANotify {T}.
Arguments AWait {T}.
Arguments AFetch {T}.
Arguments AMove {T}.

(** What an operation returns. *)
Inductive atrs_result (T : Type) := RDone | RWait (b : bool) (v : T) | RId (id : Z).
Arguments RDone {T}.
Arguments RWait {T}.
Arguments RId {T}.

(** A mailbox per id, the next id and the predicate. *)
Record box (T : Type) := Box { mails : Z → option T; next_id : Z; accepts : option (T → bool) }.
Arguments Box {T}.
Arguments mails {T}.
Arguments next_id {T}.
Arguments accepts {T}.

Section programs.
Context {T : Type} (dflt : T).

Definition atrs_step (op : atrs_op T) (objs : gmap nat (AsyncResultSyncer T))
    : res (atrs_result T * gmap nat (AsyncResultSyncer T)) :=
  match op with
  | ANotify o id v =>
      a ← deref Uninitialised (objs !! o);
      a ← atrs_notify id v a;
      mret (RDone, <[o := a]> objs)
  | AWait o id =>
      a ← deref Uninitialised (objs !! o);
      '(b, v, a) ← atrs_wait_for dflt id a;
      mret (RWait b v, <[o := a]> objs)
  | AFetch o =>
      a ← deref Uninitialised (objs !! o);
      let (id, a) := atrs_fetch_id a in
      mret (RId id, <[o := a]> objs)
  | AMove from to =>
      a ← deref Uninitialised (objs !! from);
      if decide (from = to) then mret (RDone, objs)
      else let (new, old) := atrs_move a in mret (RDone, <[to := new]> (<[from := old]> objs))
  end.

Fixpoint atrs_run (ops : list (atrs_op T)) (objs : gmap nat (AsyncResultSyncer T)) : res (list (atrs_result T)) :=
  match ops with
  | [] => mret []
  | op :: ops =>
      '(r, objs) ← atrs_step op objs;
      rs ← atrs_run ops objs;
      mret (r :: rs)
  end.

(** *** Specification *)

Definition put_mail (id : Z) (o : option T) (b : box T) : box T :=
  Box (λ i, if decide (i = id) then o else mails b i) (next_id b) (accepts b).

Definition box_step (op : atrs_op T) (bs : gmap nat (box T)) : res (atrs_result T * gmap nat (box T)) :=
  match op with
  | ANotify o id v =>
      b ← deref Uninitialised (bs !! o);
      mret (RDone, <[o := put_mail id (Some (default v (mails b id))) b]> bs)
  | AWait o id =>
      b ← deref Uninitialised (bs !! o);
      match mails b id, accepts b with
      | None, _ => mret (RWait false dflt, <[o := put_mail id None b]> bs)
      | Some v, Some f => mret (RWait (f v) v, <[o := put_mail id None b]> bs)
      | Some _, None => Throw BadFunctionCall
      end
  | AFetch o =>
      b ← deref Uninitialised (bs !! o);
      mret (RId (next_id b), <[o := Box (mails b) (next_id b + 1) (accepts b)]> bs)
  | AMove from to =>
      b ← deref Uninitialised (bs !! from);
      if decide (from = to) then mret (RDone, bs)
      else mret (RDone, <[to := b]> (<[from := Box (λ _, None) (next_id b) None]> bs))
  end.

Fixpoint box_run (ops : list (atrs_op T)) (bs : gmap nat (box T)) : res (list (atrs_result T)) :=
  match ops with
  | [] => mret []
  | op :: ops => '(r, bs) ← box_step op bs; rs ← box_run ops bs; mret (r :: rs)
  end.

Definition is_box (a : AsyncResultSyncer T) (b : box T) : Prop :=
  pair_ok (sync_pair a) ∅ (mails b) ∧ seqId (sync_pair a) = next_id b ∧ predicate_ a = accepts b.

Definition are_boxes (objs : gmap nat (AsyncResultSyncer T)) (bs : gmap nat (box T)) : Prop :=
  ∀ o, option_Forall2 is_box (objs !! o) (bs !! o).

End programs.

(** ** Lemmas *)

Section lemmas.
Context {T : Type} (dflt : T).

Lemma create_seqId id (p : SyncPair T) : seqId (create_sync_data id p) = seqId p.
Proof using. unfold create_sync_data. by destruct (_ !! _). Qed.

Lemma notify_seqId id v (p p' : SyncPair T) : pair_notify id v p = Ok p' → seqId p' = seqId p.
Proof using.
  unfold pair_notify. destruct (get_sync_data _ _) as [g| | |]; simpl; try done.
  destruct (follow _ _ _) as [d| | |]; simpl; try done.
  destruct (data_set v d) as [[b d']| | |]; simpl; try done. intros [= <-]. apply (create_seqId id p).
Qed.

Lemma remove_seqId id (p : SyncPair T) : seqId (remove_sync_data id p) = seqId p.
Proof using. unfold remove_sync_data. destruct (_ !! _) as [[g d]|]; [|done]. by destruct (is_done d). Qed.

Lemma wait_end_seqId id g b v (p p' : SyncPair T) :
  wait_for_end dflt id g p = Ok (b, v, p') → seqId p' = seqId p.
Proof using.
  unfold wait_for_end. destruct (follow _ _ _) as [d| | |]; simpl; try done.
  destruct (wait_ready _) as [[|]| | |]; simpl; try done; [|by intros [= _ _ <-]].
  destruct (data_get dflt d) as [[[b' v'] d']| | |]; simpl; try done. intros [= _ _ <-].
  by rewrite remove_seqId.
Qed.

(** A whole wait of an object is one of its box. *)
Lemma wait_box a (b : box T) id : is_box a b →
  match mails b id, accepts b with
  | Some _, None => atrs_wait_for dflt id a = Throw BadFunctionCall
  | o, f => ∃ a', atrs_wait_for dflt id a =
                Ok (match o, f with Some v, Some f => f v | _, _ => false end, default dflt o, a') ∧
              is_box a' (put_mail id None b)
  end.
Proof using.
  intros (Hp & Hs & Hf).
  destruct (begin_ok _ _ _ id Hp (lookup_empty _)) as (g & p1 & Hb & Hp1).
  destruct (end_ok dflt _ _ _ id g Hp1 (lookup_insert_eq _ _ _)) as (p2 & He & Hp2).
  rewrite delete_insert_eq, delete_empty in Hp2.
  assert (Hs2 : seqId p2 = next_id b).
  { rewrite (wait_end_seqId _ _ _ _ _ _ He), <- Hs. unfold wait_for_begin in Hb.
    destruct (get_sync_data _ _); simpl in Hb; simplify_eq. apply create_seqId. }
  assert (is_box (set_pair p2 a) (put_mail id None b)) by by split_and!.
  unfold atrs_wait_for. rewrite Hb. cbn [mbind res_bind]. rewrite He. cbn [mbind res_bind].
  unfold call_predicate. rewrite Hf. destruct (mails b id) as [v|]; simpl.
  - destruct (accepts b); simpl; eauto.
  - destruct (accepts b); simpl; eauto.
Qed.

Lemma notify_box a (b : box T) id v : is_box a b →
  ∃ a', atrs_notify id v a = Ok a' ∧ is_box a' (put_mail id (Some (default v (mails b id))) b).
Proof using.
  intros (Hp & Hs & Hf). destruct (notify_ok _ _ _ id v Hp) as (p' & Hn & Hp').
  unfold atrs_notify. rewrite Hn. eexists. split; [done|]. split_and!; [done| |done].
  simpl. by rewrite (notify_seqId _ _ _ _ Hn).
Qed.

Lemma are_boxes_insert objs bs o a (b : box T) :
  are_boxes objs bs → is_box a b → are_boxes (<[o := a]> objs) (<[o := b]> bs).
Proof using. intros H Hb o'. rewrite !lookup_insert. case_decide; [by constructor|apply H]. Qed.

Lemma are_boxes_get objs (bs : gmap nat (box T)) o : are_boxes objs bs →
  (objs !! o = None ∧ bs !! o = None) ∨ ∃ a b, objs !! o = Some a ∧ bs !! o = Some b ∧ is_box a b.
Proof using. intros H. specialize (H o). inversion H; [right; by do 2 eexists | by left]. Qed.

Lemma empty_box a (b : box T) : is_box a b → is_box (atrs_move a).2 (Box (λ _, None) (next_id b) None).
Proof using. intros (Hp & Hs & Hf). split_and!; [|done|done]. split; done. Qed.

Lemma atrs_step_box op objs bs : are_boxes objs bs →
  match atrs_step dflt op objs, box_step dflt op bs with
  | Ok (r, objs'), Ok (r', bs') => r = r' ∧ are_boxes objs' bs'
  | Throw e, Throw e' => e = e'
  | Fault f, Fault f' => f = f'
  | _, _ => False
  end.
Proof using.
  intros H. destruct op as [o id v|o id|o|o o']; cbn [atrs_step box_step];
    destruct (are_boxes_get _ _ o H) as [[-> ->]|(a & b & -> & -> & Hb)]; cbn [deref mbind res_bind]; try done.
  - destruct (notify_box a b id v Hb) as (a' & -> & Hb'). cbn. split; [done|]. by apply are_boxes_insert.
  - pose proof (wait_box a b id Hb) as Hw. destruct (mails b id) as [v|] eqn:Em.
    + destruct (accepts b) as [f|]; [|by rewrite Hw]. destruct Hw as (a' & -> & Hb'). cbn.
      split; [done|]. by apply are_boxes_insert.
    + destruct (accepts b) as [f|]; destruct Hw as (a' & -> & Hb'); cbn;
        (split; [done|]); by apply are_boxes_insert.
  - destruct Hb as (Hp & Hs & Hf). cbn. split; [by rewrite Hs|]. apply are_boxes_insert; [done|].
    split_and!; [by destruct Hp|by simpl; rewrite Hs|done].
  - destruct (decide (o = o')) as [->|Hne]; [by split|]. cbn. split; [done|].
    apply are_boxes_insert; [|by destruct a, Hb as (?&?&?)]. apply are_boxes_insert; [done|]. by apply empty_box.
Qed.

Lemma atrs_run_boxes ops objs bs : are_boxes objs bs → atrs_run dflt ops objs = box_run dflt ops bs.
Proof using.
  revert objs bs. induction ops as [|op ops IH]; intros objs bs H; [done|]. cbn [atrs_run box_run].
  pose proof (atrs_step_box op objs bs H) as Hs.
  destruct (atrs_step _ _ _) as [[r objs']| | |], (box_step _ _ _) as [[r' bs']| | |]; try done; cbn; try by subst.
  destruct Hs as [-> Hs]. by rewrite (IH _ _ Hs).
Qed.

(** An entry whose value was fetched takes no other. *)
Definition spent (p : SyncPair T) (id : Z) : Prop :=
  ∃ g v, sync_data_map p !! id = Some (g, MkSync (Shared (Some v) false) true true).

Lemma notify_spent p id v : spent p id →
  ∃ p', pair_notify id v p = Ok p' ∧ sync_data_map p' = sync_data_map p.
Proof using.
  intros (g & w & Hl). unfold pair_notify, create_sync_data, get_sync_data, follow. rewrite !Hl. cbn.
  rewrite decide_True by done. cbn. eexists. split; [done|]. cbn. by apply insert_id.
Qed.

Lemma notify_each_spent vs p id : spent p id →
  ∃ p', notify_each id vs p = Ok p' ∧ sync_data_map p' = sync_data_map p.
Proof using.
  revert p. induction vs as [|v vs IH]; intros p Hs; [by eexists|]. cbn [notify_each].
  destruct (notify_spent p id v Hs) as (p1 & -> & H1). cbn [mbind res_bind].
  destruct (IH p1) as (p2 & -> & H2); [by unfold spent; rewrite H1|]. eexists. split; [done|]. by rewrite H2.
Qed.

Lemma wait_spent p id g : spent p id → wait_for_begin id p = Ok (g, p) →
  wait_for_end dflt id g p = Throw FutureError.
Proof using.
  intros (g' & w & Hl). unfold wait_for_begin, create_sync_data, get_sync_data. rewrite !Hl. cbn. rewrite ?Hl.
  cbn. intros [= <-]. unfold wait_for_end, follow. by rewrite Hl, decide_True.
Qed.

Lemma begin_spent p id : spent p id → ∃ g, wait_for_begin id p = Ok (g, p).
Proof using.
  intros (g & w & Hl). unfold wait_for_begin, create_sync_data, get_sync_data. rewrite !Hl. cbn. rewrite ?Hl. by eexists.
Qed.

End lemmas.

(** ** Properties *)

(** programs over any number of [AsyncResultSyncer]s made by [make_atrs]
    behave as programs over boxes, each with a mailbox per id, a counter and a
    predicate.  A move carries all of a box to its new place and leaves a box
    with empty mailboxes, the same counter, and no predicate: it still takes
    notifications, but a wait that finds one throws. *)
Theorem atrs_objects_boxes {T} (dflt : T) (ps : gmap nat ((T → bool) * Z)) ops :
  atrs_run dflt ops ((λ q, make_atrs q.1 q.2) <$> ps) =
  box_run dflt ops ((λ q, Box (λ _, None) q.2 (Some q.1)) <$> ps).
Proof.
  apply atrs_run_boxes. intros o. rewrite !lookup_fmap. destruct (ps !! o) as [q|]; constructor.
  split_and!; [|done|done]. apply (pair_new_ok q.2).
Qed.

(** an object that is moved during a wait.  A notification at its new place
    still ends the wait, but the entry is not removed there: from then on every
    notification of that id is accepted and lost, and every wait for it throws.
    What a moved entry leaves behind takes no value and gives none. *)
Theorem move_during_wait {T} (dflt : T) p m id v :
  pair_ok p ∅ m → m id = None →
  (∃ g p1 p2 p3 old,
     wait_for_begin id p = Ok (g, p1) ∧ pair_notify id v (pair_move p1).1 = Ok p2 ∧
     wait_for_end_moved dflt id g (pair_move p1).2 p2 = Ok (true, v, old, p3) ∧ sync_data_map old = ∅ ∧
     ∀ vs, ∃ p4 g4, notify_each id vs p3 = Ok p4 ∧ wait_for_begin id p4 = Ok (g4, p4) ∧
       wait_for_end dflt id g4 p4 = Throw FutureError) ∧
  ∀ d, data_set v (data_move d).2 = Ok (false, (data_move d).2) ∧
       data_get dflt (data_move d).2 = Ok (false, dflt, (data_move d).2).
Proof.
  intros Hp Hm. split; [|done].
  destruct (begin_ok _ _ _ id Hp (lookup_empty _)) as (g & p1 & Hb & Hp1).
  destruct (notify_ok _ _ _ id v Hp1) as (p2 & Hn & [He Ha Ho]).
  destruct (Ho id g (lookup_insert_eq _ _ _)) as (d & Hd). pose proof (He id g d Hd) as ->.
  rewrite decide_True, Hm in Hd by done.
  set (p3 := store id g (MkSync (Shared (Some v) false) true true) p2).
  exists g, p1, p2, p3, (pair_move p1).2. split_and!; try done.
  - unfold wait_for_end_moved, follow. rewrite Hd, decide_True by done. done.
  - assert (Hs : spent p3 id) by (exists g, v; apply lookup_insert_eq). intros vs.
    destruct (notify_each_spent vs p3 id Hs) as (p4 & Hv & H4).
    assert (Hs4 : spent p4 id) by (by unfold spent; rewrite H4).
    destruct (begin_spent p4 id Hs4) as (g4 & Hg4).
    exists p4, g4. split_and!; [done|done|]. by apply wait_spent.
Qed.

(** ** Witness *)

Lemma move_during_wait_witness :
  ∃ g p1 p2 p3 old,
     wait_for_begin 1 (pair_new 0) = Ok (g, p1) ∧ pair_notify 1 7 (pair_move p1).1 = Ok p2 ∧
     wait_for_end_moved 0 1 g (pair_move p1).2 p2 = Ok (true, 7, old, p3) ∧ sync_data_map old = ∅ ∧
     ∀ vs, ∃ p4 g4, notify_each 1 vs p3 = Ok p4 ∧ wait_for_begin 1 p4 = Ok (g4, p4) ∧
       wait_for_end 0 1 g4 p4 = Throw FutureError.
Proof.
  refine (proj1 (move_during_wait 0 (pair_new 0) (λ _, None) 1 7 _ _)); [|reflexivity].
  split; intros; done.
Defined.
