(* ===== verification/Executor.v ===== *)
(** * The task executor (threadpool/executor)

    Contexts are allocated objects, named by the order of their creation; what
    the other threads ask for goes through a list of operations that the
    executor's thread takes at the beginning of every round. *)

From S2P Require Import Prelude Synchronizer.
Local Open Scope Z_scope.

(** ** Data *)

Inductive OperateTypeEnum := ADD | RMV | CLR.

(** The live contexts with their ids ([task] is the context's own name); a
    pointer is [None] when null. *)
Record executor := Exec {
  ctxs : gmap positive Z;
  next : positive;
  tasks : list (option positive);
  task_ops : list (OperateTypeEnum * positive);
  task_size : nat;
  running : bool;
  syncer : batch bool;
  ran : list positive
}.

Definition cap : nat := 256.

Definition set_tasks (l : list (option positive)) (n : nat) (x : executor) : executor :=
  Exec (ctxs x) (next x) l (task_ops x) n (running x) (syncer x) (ran x).
Definition set_ops (l : list (OperateTypeEnum * positive)) (x : executor) : executor :=
  Exec (ctxs x) (next x) (tasks x) l (task_size x) (running x) (syncer x) (ran x).
Definition set_syncer (b : batch bool) (x : executor) : executor :=
  Exec (ctxs x) (next x) (tasks x) (task_ops x) (task_size x) (running x) b (ran x).
Definition set_ctxs (m : gmap positive Z) (x : executor) : executor :=
  Exec m (next x) (tasks x) (task_ops x) (task_size x) (running x) (syncer x) (ran x).

Definition executor_create : executor :=
  Exec ∅ 1 (replicate cap None) [] 0 true batch_new [].

(** ** Operations *)

Definition ctx_id (c : positive) (x : executor) : res Z := deref UseAfterFree (ctxs x !! c).

Definition exec_notify (id : Z) (x : executor) : res executor :=
  b ← batch_notify id true (syncer x); mret (set_syncer b x).

Definition exec_wait (id : Z) (x : executor) : res (bool * executor) :=
  '(v, b) ← batch_wait false id (syncer x); mret (v, set_syncer b x).

(** A new context with a fresh id and an operation on it. *)
Definition submit (op : OperateTypeEnum) (x : executor) : positive * executor :=
  let '(id, b) := batch_fetch_id (syncer x) in
  let c := next x in
  (c, Exec (<[c := id]> (ctxs x)) (Pos.succ c) (tasks x) (task_ops x ++ [(op, c)]) (task_size x)
        (running x) b (ran x)).

(** [add_task], up to the wait of the blocking mode. *)
Definition add_task (x : executor) : positive * executor := submit ADD x.

(** [rmv_task], up to its wait. *)
Definition rmv_task (c : option positive) (x : executor) : executor :=
  match c with
  | None => x
  | Some c => set_ops (task_ops x ++ [(RMV, c)]) x
  end.

(** The wait at the end of a blocking call reads the id from the context. *)
Definition wait_task (c : positive) (x : executor) : res (bool * executor) :=
  id ← ctx_id c x; exec_wait id x.

(** The two steps of [stop] before its wait. *)
Definition stop_submit (x : executor) : positive * executor := submit CLR x.

Definition stop_flag (x : executor) : executor :=
  Exec (ctxs x) (next x) (tasks x) (task_ops x) (task_size x) false (syncer x) (ran x).

Definition process_add (c : positive) (x : executor) : res executor :=
  x ← (if decide (task_size x < cap)%nat then
         if decide (task_size x < length (tasks x))%nat then
           mret (set_tasks (<[task_size x := Some c]> (tasks x)) (S (task_size x)) x)
         else Fault OutOfBounds
       else mret (set_tasks (tasks x ++ [Some c]) (S (task_size x)) x));
  id ← ctx_id c x;
  exec_notify id x.

(** [tasks_[i]->id] *)
Definition task_id_at (i : nat) (x : executor) : res (positive * Z) :=
  o ← deref OutOfBounds (tasks x !! i);
  c ← deref NullDeref o;
  id ← ctx_id c x;
  mret (c, id).

(** The loop of [process_rmv]; [n] rounds are left. *)
Fixpoint rmv_loop (n i : nat) (c : positive) (x : executor) : res executor :=
  match n with
  | O => mret x
  | S n =>
      '(_, idi) ← task_id_at i x;
      id ← ctx_id c x;
      if idi =? id then
        let last := (task_size x - 1)%nat in
        let l := list_swap i last (tasks x) in
        o ← deref OutOfBounds (l !! last);
        d ← deref NullDeref o;
        let x := set_tasks (<[last := None]> l) last (set_ctxs (delete d (ctxs x)) x) in
        id ← ctx_id c x;
        exec_notify id x
      else rmv_loop n (S i) c x
  end.

Definition process_rmv (c : positive) (x : executor) : res executor := rmv_loop (task_size x) 0 c x.

(** The loop of [process_clr]. *)
Fixpoint clr_loop (n i : nat) (x : executor) : res executor :=
  match n with
  | O => mret x
  | S n =>
      '(c, id) ← task_id_at i x;
      let x := set_tasks (<[i := None]> (tasks x)) (task_size x) (set_ctxs (delete c (ctxs x)) x) in
      x ← exec_notify id x;
      clr_loop n (S i) x
  end.

Definition process_clr (c : positive) (x : executor) : res executor :=
  x ← clr_loop (task_size x) 0 x;
  id ← ctx_id c x;
  exec_notify id x.

Fixpoint process_ops (l : list (OperateTypeEnum * positive)) (x : executor) : res executor :=
  match l with
  | [] => mret x
  | (op, c) :: l =>
      x ← match op with
          | ADD => process_add c x
          | RMV => process_rmv c x
          | CLR => process_clr c x
          end;
      process_ops l x
  end.

(** [task->task()] for every index below [task_size_]. *)
Fixpoint run_tasks (n i : nat) (x : executor) : res executor :=
  match n with
  | O => mret x
  | S n =>
      '(c, _) ← task_id_at i x;
      run_tasks n (S i) (Exec (ctxs x) (next x) (tasks x) (task_ops x) (task_size x) (running x) (syncer x)
                           (ran x ++ [c]))
  end.

Definition process_task (x : executor) : res executor :=
  x' ← process_ops (task_ops x) (set_ops [] x);
  run_tasks (task_size x') 0 x'.

(** [loop]: a round while [running_]. *)
Definition exec_loop_round (x : executor) : res (executor * bool) :=
  if running x then x ← process_task x; mret (x, true) else mret (x, false).

(** ** Specification *)

(** The contexts in the list, those still to be added, and the runs so far. *)
Record executor_spec := Spec { s_next : positive; registered : list positive; pending : list positive; runs : list positive }.

Inductive exec_op := EAdd | ERound.

Definition exec_step (op : exec_op) (x : executor) : res executor :=
  match op with
  | EAdd => mret (add_task x).2
  | ERound => process_task x
  end.

Fixpoint exec_run (ops : list exec_op) (x : executor) : res executor :=
  match ops with
  | [] => mret x
  | op :: ops => x ← exec_step op x; exec_run ops x
  end.

(** A round adds what is pending and runs every registered task once, in the
    order of registration. *)
Definition spec_step (op : exec_op) (s : executor_spec) : executor_spec :=
  match op with
  | EAdd => Spec (Pos.succ (s_next s)) (registered s) (pending s ++ [s_next s]) (runs s)
  | ERound =>
      let cs := registered s ++ pending s in
      Spec (s_next s) cs [] (runs s ++ cs)
  end.

Definition spec_run (ops : list exec_op) (s : executor_spec) : executor_spec :=
  foldl (λ s op, spec_step op s) s ops.

Definition spec_init : executor_spec := Spec 1 [] [] [].

(** The array: the registered contexts, padded to the reserved capacity. *)
Definition slots (cs : list positive) : list (option positive) :=
  (Some <$> cs) ++ replicate (cap - length cs) None.

Record exec_rep (x : executor) (s : executor_spec) : Prop := {
  er_tasks : tasks x = slots (registered s) ∧ task_size x = length (registered s);
  er_ops : task_ops x = pair ADD <$> pending s;
  er_next : next x = s_next s ∧ id_ (syncer x) = Z.pos (s_next s) - 1;
  er_ctx c : c ∈ registered s ++ pending s → ctxs x !! c = Some (Z.pos c) ∧ (c < s_next s)%positive;
  er_sync : batch_ok (syncer x);
  er_done c : c ∈ registered s → cells_of (syncer x) (Z.pos c) = Full true;
  er_todo c : c ∈ pending s ∨ (s_next s ≤ c)%positive → cells_of (syncer x) (Z.pos c) = Empty;
  er_disj : NoDup (pending s) ∧ ∀ c, c ∈ registered s → c ∉ pending s;
  er_ran : ran x = runs s;
  er_running : running x = true
}.

(** ** Lemmas *)

Lemma ctx_id_Ok c x id : ctxs x !! c = Some id → ctx_id c x = Ok id.
Proof. intros H. unfold ctx_id. by rewrite H. Qed.

Lemma slots_lookup cs i c : cs !! i = Some c → slots cs !! i = Some (Some c).
Proof.
  intros Hc. unfold slots. rewrite lookup_app_l.
  - by rewrite list_lookup_fmap, Hc.
  - rewrite length_fmap. by eapply lookup_lt_Some.
Qed.

(** The two ways of storing the next context agree. *)
Lemma slots_snoc cs c :
  (if decide (length cs < cap)%nat then
     (length cs < length (slots cs))%nat ∧ <[length cs := Some c]> (slots cs) = slots (cs ++ [c])
   else slots cs ++ [Some c] = slots (cs ++ [c])).
Proof.
  unfold slots. rewrite fmap_app, !length_app, length_fmap, length_replicate. simpl.
  destruct (decide (length cs < cap)%nat) as [Hlt|Hge].
  - split; [lia|].
    rewrite insert_app_r_alt by (rewrite length_fmap; lia). rewrite length_fmap, Nat.sub_diag, <- app_assoc.
    f_equal. destruct (cap - length cs)%nat as [|k] eqn:E; [lia|]. simpl. f_equal. f_equal. lia.
  - replace (cap - length cs)%nat with 0%nat by lia. replace (cap - (length cs + 1))%nat with 0%nat by lia.
    simpl. by rewrite !app_nil_r.
Qed.

(** Notifying an empty cell fills it. *)
Lemma exec_notify_ok id x :
  batch_ok (syncer x) → cells_of (syncer x) id = Empty →
  ∃ b, exec_notify id x = Ok (set_syncer b x) ∧ batch_ok b ∧ id_ b = id_ (syncer x) ∧
    ∀ i, cells_of b i = if decide (i = id) then Full true else cells_of (syncer x) i.
Proof.
  intros Hok Hc. unfold exec_notify, batch_notify, sync_notify.
  pose proof (cell_of_set (batch_entry id (syncer x)) true (batch_entry_ok _ id Hok)) as Hs.
  unfold cells_of in Hc. rewrite Hc in Hs. destruct Hs as (s' & -> & Hs' & Hv). cbn [mbind res_bind mret res_ret].
  destruct (batch_put (syncer x) id s' (id_ (syncer x)) Hok ltac:(done)) as [Hok' Hm].
  eexists. split; [done|]. split; [done|]. split; [done|]. intros i. by rewrite Hm, Hs'.
Qed.

Lemma exec_notify_twice id x v : batch_ok (syncer x) → cells_of (syncer x) id = Full v →
  exec_notify id x = Throw FutureError.
Proof.
  intros Hok Hc. unfold exec_notify, batch_notify, sync_notify.
  pose proof (cell_of_set (batch_entry id (syncer x)) true (batch_entry_ok _ id Hok)) as Hs.
  unfold cells_of in Hc. rewrite Hc in Hs. by rewrite Hs.
Qed.

Lemma exec_wait_full id x v : batch_ok (syncer x) → cells_of (syncer x) id = Full v →
  ∃ x', exec_wait id x = Ok (v, x').
Proof.
  intros Hok Hc. unfold exec_wait, batch_wait.
  pose proof (cell_of_wait false (batch_entry id (syncer x)) (batch_entry_ok _ id Hok)) as Hs.
  unfold cells_of in Hc. rewrite Hc in Hs. destruct Hs as (s' & -> & _). by eexists.
Qed.

Lemma exec_wait_empty id x : batch_ok (syncer x) → cells_of (syncer x) id = Empty →
  ∃ x', exec_wait id x = Ok (false, x').
Proof.
  intros Hok Hc. unfold exec_wait, batch_wait.
  pose proof (cell_of_wait false (batch_entry id (syncer x)) (batch_entry_ok _ id Hok)) as Hs.
  unfold cells_of in Hc. rewrite Hc in Hs. rewrite Hs. by eexists.
Qed.

(** *** A round *)

(** The executor in the middle of a round: the operations are in hand. *)
Definition in_round (x : executor) (s : executor_spec) : Prop :=
  exec_rep (set_ops (pair ADD <$> pending s) x) s ∧ task_ops x = [].

Lemma process_add_ok x s c ps :
  in_round x (Spec (s_next s) (registered s) (c :: ps) (runs s)) →
  ∃ x', process_add c x = Ok x' ∧ in_round x' (Spec (s_next s) (registered s ++ [c]) ps (runs s)).
Proof.
  intros [[[Ht Hn] Ho [Hnx Hid] Hctx Hsy Hdone Htodo [Hnd Hdis] Hran Hrun] Hops]. simpl in *.
  destruct (Hctx c) as [Hc Hlt]; [set_solver|].
  assert (Hstore : (if decide (task_size x < cap)%nat then
         if decide (task_size x < length (tasks x))%nat then
           mret (set_tasks (<[task_size x := Some c]> (tasks x)) (S (task_size x)) x)
         else Fault OutOfBounds
       else mret (set_tasks (tasks x ++ [Some c]) (S (task_size x)) x))
       = Ok (set_tasks (slots (registered s ++ [c])) (S (task_size x)) x)).
  { pose proof (slots_snoc (registered s) c) as Hs. rewrite Hn, Ht.
    destruct (decide (length (registered s) < cap)%nat); [|by rewrite Hs].
    destruct Hs as [Hl Hs]. by rewrite decide_True, Hs. }
  unfold process_add. rewrite Hstore. clear Hstore. cbn [mbind res_bind]. unfold ctx_id. simpl. rewrite Hc. cbn [deref mbind res_bind].
  destruct (exec_notify_ok (Z.pos c) (set_tasks (slots (registered s ++ [c])) (S (task_size x)) x))
    as (b & -> & Hok & Hidb & Hcell); [done | apply Htodo; left; set_solver |].
  eexists. split; [done|]. apply NoDup_cons in Hnd as [Hcn Hnd]. split; [|done]. split; simpl in *.
  - split; [done|]. rewrite length_app, Hn. simpl. lia.
  - done.
  - by rewrite Hidb.
  - intros c' Hc'. apply Hctx. set_solver.
  - done.
  - intros c' Hc'. rewrite Hcell. case_decide as Heq; [done|]. apply Hdone. set_solver.
  - intros c' Hc'. rewrite Hcell. case_decide as Heq.
    + exfalso. assert (c' = c) as -> by congruence. destruct Hc' as [?|?]; [done|lia].
    + apply Htodo. set_solver.
  - split; [done|]. intros c' Hc' Hp. apply elem_of_app in Hc' as [Hc'|Hc'].
    + apply (Hdis c' Hc'). set_solver.
    + set_solver.
  - done.
  - done.
Qed.

Lemma process_adds_ok ps x s :
  in_round x (Spec (s_next s) (registered s) ps (runs s)) →
  ∃ x', process_ops (pair ADD <$> ps) x = Ok x' ∧
    in_round x' (Spec (s_next s) (registered s ++ ps) [] (runs s)).
Proof.
  revert x s. induction ps as [|c ps IH]; intros x s H; simpl.
  - exists x. by rewrite app_nil_r.
  - destruct (process_add_ok x s c ps H) as (x' & -> & H'). cbn [mbind res_bind].
    destruct (IH x' (Spec (s_next s) (registered s ++ [c]) ps (runs s)) H') as (x'' & Hp & H'').
    exists x''. simpl in H''. by rewrite <- app_assoc in H''.
Qed.

Definition set_ran (l : list positive) (x : executor) : executor :=
  Exec (ctxs x) (next x) (tasks x) (task_ops x) (task_size x) (running x) (syncer x) l.

Lemma task_id_at_ok x cs i c :
  tasks x = slots cs → cs !! i = Some c → ctxs x !! c = Some (Z.pos c) →
  task_id_at i x = Ok (c, Z.pos c).
Proof.
  intros Ht Hi Hc. unfold task_id_at. rewrite Ht, (slots_lookup cs i c Hi). cbn [deref mbind res_bind].
  unfold ctx_id. rewrite Hc. done.
Qed.

Lemma run_tasks_ok x cs1 cs2 :
  tasks x = slots (cs1 ++ cs2) → (∀ c, c ∈ cs2 → ctxs x !! c = Some (Z.pos c)) →
  run_tasks (length cs2) (length cs1) x = Ok (set_ran (ran x ++ cs2) x).
Proof.
  revert x cs1. induction cs2 as [|c cs2 IH]; intros x cs1 Ht Hc; simpl.
  - rewrite app_nil_r. by destruct x.
  - rewrite (task_id_at_ok x (cs1 ++ c :: cs2) _ c Ht); [|by rewrite lookup_app_r, Nat.sub_diag | apply Hc; set_solver].
    cbn [mbind res_bind]. specialize (IH (set_ran (ran x ++ [c]) x) (cs1 ++ [c])).
    rewrite length_app in IH. simpl in IH. rewrite Nat.add_1_r in IH. unfold set_ran in IH at 1. simpl in IH.
    unfold set_ran at 1. rewrite IH.
    + unfold set_ran. simpl. by rewrite <- app_assoc.
    + by rewrite <- app_assoc.
    + intros c' Hc'. apply Hc. set_solver.
Qed.

Lemma round_ok x s :
  exec_rep x s → ∃ x', process_task x = Ok x' ∧ exec_rep x' (spec_step ERound s).
Proof.
  intros H. assert (Hin : in_round (set_ops [] x) (Spec (s_next s) (registered s) (pending s) (runs s))).
  { split; [|done]. destruct H as [? Ho ????????]. destruct s. split; try done. }
  unfold process_task. rewrite (er_ops x s H).
  destruct (process_adds_ok (pending s) _ s Hin) as (x1 & -> & [H1 Hops]). cbn [mbind res_bind].
  destruct H1 as [[Ht Hn] Ho Hnx Hctx Hsy Hdone Htodo Hd Hran Hrun]. simpl in *. rewrite Hn.
  pose proof (run_tasks_ok x1 [] (registered s ++ pending s) Ht) as Hr. simpl in Hr. rewrite Hr.
  - eexists. split; [done|]. split; simpl; try done. by rewrite Hran.
  - intros c Hc. apply Hctx. by rewrite app_nil_r.
Qed.

Lemma add_ok x s : exec_rep x s → exec_rep (add_task x).2 (spec_step EAdd s).
Proof.
  intros [Ht Ho [Hnx Hid] Hctx Hsy Hdone Htodo [Hnd Hdis] Hran Hrun]. split; simpl.
  - done.
  - rewrite Ho, fmap_app. simpl. by rewrite Hnx.
  - rewrite Hnx, Hid. split; [done|]. lia.
  - intros c Hc. rewrite app_assoc in Hc. apply elem_of_app in Hc as [Hc|Hc%list_elem_of_singleton].
    + destruct (Hctx c Hc) as [Hl Hlt]. rewrite Hnx, lookup_insert_ne by lia. split; [done|lia].
    + subst c. rewrite Hnx, lookup_insert_eq, Hid. split; [f_equal; lia|lia].
  - done.
  - done.
  - intros c Hc. change (cells_of (syncer x) (Z.pos c) = Empty). apply Htodo.
    rewrite elem_of_app, list_elem_of_singleton in Hc. destruct Hc as [[Hc|Hc]|Hc]; [by left | right; lia | right; lia].
  - split.
    + apply NoDup_app. split; [done|]. split; [|apply NoDup_singleton].
      intros c Hc Hs%list_elem_of_singleton. subst c. destruct (Hctx (s_next s)) as [_ ?]; [set_solver|lia].
    + intros c Hc Hp. apply elem_of_app in Hp as [Hp|Hp%list_elem_of_singleton]; [by apply (Hdis c)|].
      subst c. destruct (Hctx (s_next s)) as [_ ?]; [set_solver|lia].
  - done.
  - done.
Qed.

Lemma exec_create_ok : exec_rep executor_create spec_init.
Proof.
  assert (Hno : ∀ c : positive, c ∉ @nil positive) by (intros c; by apply not_elem_of_nil).
  split; simpl; try done; try (by intros c Hc%Hno). by split; [apply NoDup_nil|].
Qed.

Lemma run_ok ops x s : exec_rep x s → ∃ x', exec_run ops x = Ok x' ∧ exec_rep x' (spec_run ops s).
Proof.
  revert x s. induction ops as [|op ops IH]; intros x s H; simpl; [by exists x|].
  destruct op; simpl.
  - apply IH. by apply add_ok.
  - destruct (round_ok x s H) as (x' & -> & H'). cbn [mbind res_bind]. by apply IH.
Qed.

(** *** Removing and stopping *)

(** Up to the first entry with the id that is looked for. *)
Lemma rmv_loop_found x cs c n i :
  tasks x = slots cs → task_size x = length cs → (∀ c, c ∈ cs → ctxs x !! c = Some (Z.pos c)) →
  c ∈ drop i cs → (i + n)%nat = length cs → rmv_loop n i c x = Fault UseAfterFree.
Proof.
  intros Ht Hn Hc. revert i. induction n as [|n IH]; intros i Hin Hi.
  - rewrite drop_ge in Hin by lia. by apply not_elem_of_nil in Hin.
  - destruct (lookup_lt_is_Some_2 cs i ltac:(lia)) as [ci Hci].
    assert (Hmem : ci ∈ cs) by (by eapply list_elem_of_lookup_2).
    assert (Hcin : c ∈ cs) by (rewrite <- (take_drop i cs); set_solver).
    cbn [rmv_loop]. rewrite (task_id_at_ok x cs i ci Ht Hci) by auto. cbn [mbind res_bind].
    rewrite (ctx_id_Ok _ _ _ (Hc c Hcin)). cbn [mbind res_bind].
    destruct (Z.eqb_spec (Z.pos ci) (Z.pos c)) as [Heq|Hne].
    + assert (ci = c) as -> by congruence. rewrite Hn, Ht.
      pose proof (slots_lookup cs i c Hci) as Hsi.
      assert (Hlast : (length cs - 1 < length (slots cs))%nat).
      { unfold slots. rewrite length_app, length_fmap. lia. }
      rewrite (list_swap_lookup_r i (length cs - 1) (slots cs) (Some c) Hsi Hlast).
      cbn [deref mbind res_bind]. unfold ctx_id. simpl. by rewrite lookup_delete_eq.
    + apply IH; [|lia]. rewrite (drop_S cs ci i Hci) in Hin. apply elem_of_cons in Hin as [->|Hin]; done.
Qed.

Lemma rmv_loop_absent x cs c n i :
  tasks x = slots cs → (∀ c, c ∈ cs → ctxs x !! c = Some (Z.pos c)) →
  c ∉ cs → ctxs x !! c = Some (Z.pos c) → (i + n)%nat = length cs → rmv_loop n i c x = Ok x.
Proof.
  intros Ht Hc Hno Hid. revert i. induction n as [|n IH]; intros i Hi; [done|].
  destruct (lookup_lt_is_Some_2 cs i ltac:(lia)) as [ci Hci].
  assert (Hmem : ci ∈ cs) by (by eapply list_elem_of_lookup_2).
  cbn [rmv_loop]. rewrite (task_id_at_ok x cs i ci Ht Hci) by auto. cbn [mbind res_bind].
  rewrite (ctx_id_Ok _ _ _ Hid). cbn [mbind res_bind].
  destruct (Z.eqb_spec (Z.pos ci) (Z.pos c)); [exfalso; naive_solver congruence|]. apply IH. lia.
Qed.

(** A round that starts with no other operation than [op] on [c]. *)
Lemma process_task_single x op c x' :
  task_ops x = [(op, c)] →
  match op with
  | ADD => process_add c (set_ops [] x)
  | RMV => process_rmv c (set_ops [] x)
  | CLR => process_clr c (set_ops [] x)
  end = x' →
  (∀ y, x' ≠ Ok y) → process_task x = x'.
Proof.
  intros Hops Hx Hno. unfold process_task. rewrite Hops. cbn [process_ops]. rewrite Hx.
  destruct x'; try done. by destruct (Hno a).
Qed.

(** ** Properties *)

(** C19: for any interleaving of submissions and rounds the executor runs, in
    every round, each context registered before it exactly once, in the order
    of submission and whatever their number (beyond the reserved capacity too),
    and the blocking wait of every registered context succeeds. *)
Theorem executor_refines_spec ops :
  ∃ x, exec_run ops executor_create = Ok x ∧
    let s := spec_run ops spec_init in
    ran x = runs s ∧
    ∀ c, c ∈ registered s → ∃ x', wait_task c x = Ok (true, x').
Proof.
  destruct (run_ok ops executor_create spec_init exec_create_ok) as (x & Hx & Hrep). exists x. split; [done|].
  cbn zeta. split; [by apply (er_ran _ _ Hrep)|]. intros c Hc. unfold wait_task, ctx_id.
  destruct (er_ctx _ _ Hrep c) as [-> _]; [set_solver|]. cbn [deref mbind res_bind].
  apply exec_wait_full; [by apply (er_sync _ _ Hrep)|by apply (er_done _ _ Hrep)].
Qed.

(** removing a registered context frees it and then reads its id from the
    freed memory to notify the caller; removing one that is not registered
    changes nothing. *)
Theorem executor_remove x s c :
  exec_rep x s → pending s = [] →
  (c ∈ registered s → process_task (rmv_task (Some c) x) = Fault UseAfterFree) ∧
  (c ∉ registered s → ctxs x !! c = Some (Z.pos c) →
   process_task (rmv_task (Some c) x) = process_task x).
Proof.
  intros [[Ht Hn] Ho _ Hctx _ _ _ _ _ _] Hp. rewrite Hp in *. simpl in Ho.
  assert (Hc : ∀ c, c ∈ registered s → ctxs x !! c = Some (Z.pos c)).
  { intros c' Hc'. apply Hctx. by rewrite app_nil_r. }
  assert (Hops : task_ops (rmv_task (Some c) x) = [(RMV, c)]) by (simpl; by rewrite Ho). split.
  - intros Hin. apply (process_task_single _ RMV c _ Hops); [|done].
    unfold process_rmv. apply (rmv_loop_found _ (registered s)); simpl; by rewrite ?Hn, ?drop_0.
  - intros Hno Hid. unfold process_task. rewrite Hops, Ho. simpl. unfold process_rmv.
    rewrite (rmv_loop_absent _ (registered s)); try done; by destruct x.
Qed.

(** [stop] with a registered context: a round between its two steps throws
    [future_error], since every context was already notified when it was
    added; a round after them does nothing, so that the request is never
    processed and the wait of [stop] times out. *)
Theorem executor_stop x s :
  exec_rep x s → pending s = [] →
  let '(c, x1) := stop_submit x in
  (registered s ≠ [] → process_task x1 = Throw FutureError) ∧
  exec_loop_round (stop_flag x1) = Ok (stop_flag x1, false) ∧
  ∃ x2, wait_task c (stop_flag x1) = Ok (false, x2).
Proof.
  intros [[Ht Hn] Ho [Hnx Hid] Hctx Hsy Hdone Htodo _ _ _] Hp. rewrite Hp in *. simpl in Ho.
  unfold stop_submit, submit, batch_fetch_id. split_and!.
  - intros Hne. apply (process_task_single _ CLR (next x)); [simpl; by rewrite Ho| |done].
    unfold process_clr. simpl. rewrite Hn. destruct (registered s) as [|c cs]; [done|]. simpl.
    assert (Hcx : ctxs x !! c = Some (Z.pos c) ∧ (c < s_next s)%positive) by (apply Hctx; set_solver).
    rewrite (task_id_at_ok _ (c :: cs) 0 c); [| done | done |].
    + cbn [mbind res_bind]. rewrite (exec_notify_twice _ _ true); [done|done|].
      change (cells_of (syncer x) (Z.pos c) = Full true). apply Hdone. set_solver.
    + simpl. rewrite lookup_insert_ne by lia. naive_solver.
  - done.
  - unfold wait_task, ctx_id. simpl. rewrite lookup_insert_eq. cbn [deref mbind res_bind].
    apply exec_wait_empty; [done|]. change (cells_of (syncer x) (id_ (syncer x) + 1) = Empty).
    replace (id_ (syncer x) + 1) with (Z.pos (s_next s)) by lia. apply Htodo. right. lia.
Qed.

(** ** Witnesses *)

Definition demo_exec : executor :=
  match exec_run [EAdd; EAdd; ERound] executor_create with Ok x => x | _ => executor_create end.

Lemma demo_exec_rep : exec_rep demo_exec (Spec 3 [1; 2]%positive [] [1; 2]%positive).
Proof.
  destruct (run_ok [EAdd; EAdd; ERound] _ _ exec_create_ok) as (x & Hx & Hr). unfold demo_exec. by rewrite Hx.
Qed.

Lemma executor_remove_witness : process_task (rmv_task (Some 2%positive) demo_exec) = Fault UseAfterFree.
Proof.
  apply (proj1 (executor_remove demo_exec (Spec 3 [1; 2]%positive [] [1; 2]%positive) 2 demo_exec_rep eq_refl)).
  simpl. set_solver.
Defined.

Lemma executor_stop_witness : process_task (stop_submit demo_exec).2 = Throw FutureError.
Proof.
  refine (proj1 (executor_stop demo_exec (Spec 3 [1; 2]%positive [] [1; 2]%positive) demo_exec_rep eq_refl) _).
  discriminate.
Defined.
