(* ===== verification/FString.v ===== *)
(** * Fixed-length strings (basic/fstring.h)

    The array of [N] bytes and the operations on it, on top of the C string
    functions, whose reads beyond the memory they are given are undefined. *)

From S2P Require Import Prelude CText.
Local Open Scope nat_scope.

(** ** C string functions

    A pointer is the bytes of the object from there on. *)

Definition nul : ascii := "000".

(** The bytes before the first NUL. *)
Fixpoint until_nul (m : str) : str :=
  match m with
  | [] => []
  | c :: m => if decide (c = nul) then [] else c :: until_nul m
  end.

Definition strlen (m : str) : res nat :=
  if decide (nul ∈ m) then mret (length (until_nul m)) else Fault OutOfBounds.

Definition strnlen (m : str) (n : nat) : nat := length (until_nul (take n m)).

Fixpoint strcmp (a b : str) : res Z :=
  match a, b with
  | x :: a, y :: b =>
      if decide (x = y) then if decide (x = nul) then mret 0%Z else strcmp a b
      else mret (code x - code y)%Z
  | _, _ => Fault OutOfBounds
  end.

Fixpoint strncmp (n : nat) (a b : str) : res Z :=
  match n with
  | O => mret 0%Z
  | S n =>
      match a, b with
      | x :: a, y :: b =>
          if decide (x = y) then if decide (x = nul) then mret 0%Z else strncmp n a b
          else mret (code x - code y)%Z
      | _, _ => Fault OutOfBounds
      end
  end.

Fixpoint memcmp (n : nat) (a b : str) : res Z :=
  match n with
  | O => mret 0%Z
  | S n =>
      match a, b with
      | x :: a, y :: b => if decide (x = y) then memcmp n a b else mret (code x - code y)%Z
      | _, _ => Fault OutOfBounds
      end
  end.

(** What [strncpy(dst, m, n)] writes: padded with NULs. *)
Definition strncpy_bytes (m : str) (n : nat) : res str :=
  let s := until_nul (take n m) in
  if decide (n ≤ length m ∨ nul ∈ m) then mret (s ++ replicate (n - length s) nul)
  else Fault OutOfBounds.

(** The memory behind [std::string::c_str()]. *)
Definition c_str (s : str) : str := s ++ [nul].

(** ** [fstring<N>] *)

Section fstring.
Context (N : nat).

Definition fstring : Type := str.

Definition put (i : nat) (c : ascii) (d : list ascii) : res (list ascii) :=
  if decide (i < length d) then mret (<[i := c]> d) else Fault OutOfBounds.

Definition fstring_default : fstring := replicate N nul.

(** The constructor from a C string: [None] is the null pointer. *)
Definition fstring_cstr (other : option str) : res fstring :=
  d ← match other with
      | Some m => s ← strncpy_bytes m N; memcpy fstring_default 0 s
      | None => mret fstring_default
      end;
  put (N - 1) nul d.

(** [fstring(const std::string&)] *)
Definition fstring_string (other : str) : res fstring :=
  s ← strncpy_bytes (c_str other) (N - 1);
  d ← memcpy fstring_default 0 s;
  put (N - 1) nul d.

(** [fstring(const std::string_view&)]: the memory from [data()] on. *)
Definition fstring_view (mem : str) : res fstring :=
  s ← memread mem 0 (N - 1);
  d ← memcpy fstring_default 0 s;
  put (N - 1) nul d.

(** [fstring(ch, n)] *)
Definition fstring_fill (ch : ascii) (n : nat) : res fstring :=
  let num := n `min` N in
  d ← memcpy fstring_default 0 (replicate num ch);
  d ← (if num <? N then put num nul d else mret d);
  if N <=? n then put (N - 1) nul d else mret d.

(** Moving: the target and the source afterwards. *)
Definition fstring_move (rhs : fstring) : fstring * fstring := (rhs, fstring_default).

(** The copy constructor. *)
Definition fstring_copy (rhs : fstring) : res fstring := s ← memread rhs 0 N; memcpy fstring_default 0 s.

(** Assignment of a C string. *)
Definition assign_cstr (other : option str) (d : fstring) : res fstring :=
  d ← match other with
      | Some m => s ← memread m 0 (N - 1); memcpy d 0 s
      | None => mret d
      end;
  put (N - 1) nul d.

Definition fs_length (d : fstring) : nat := strnlen d N.

(** [append(data, size)] *)
Definition append (data : option str) (size : nat) (d : fstring) : res fstring :=
  match data with
  | None => mret d
  | Some m =>
      if size =? 0 then mret d
      else
        let len := fs_length d in
        if N - len <=? size then mret d
        else
          s ← memread m 0 size;
          d ← memcpy d len s;
          put (size + len) nul d
  end.

(** [operator+] with a [std::string], a [const char*] and a [char]. *)
Definition plus_string (rhs : str) (d : fstring) : res fstring := append (Some (c_str rhs)) (length rhs) d.
Definition plus_cstr (rhs : str) (d : fstring) : res fstring := n ← strlen rhs; append (Some rhs) n d.
Definition plus_char (ch : ascii) (d : fstring) : res fstring := append (Some [ch]) 1 d.

(** Comparisons with a [const char*]. *)
Definition eq_cstr (other : option str) (d : fstring) : res bool :=
  match other with None => mret false | Some m => r ← strcmp d m; mret (r =? 0)%Z end.
Definition lt_cstr (other : option str) (d : fstring) : res bool :=
  match other with None => mret true | Some m => r ← strcmp d m; mret (r <? 0)%Z end.
Definition gt_cstr (other : option str) (d : fstring) : res bool :=
  match other with None => mret false | Some m => r ← strcmp d m; mret (0 <? r)%Z end.

(** Comparisons with another [fstring]: [>] is the conversion of [memcmp]. *)
Definition eq_fs (rhs d : fstring) : res bool := r ← memcmp N d rhs; mret (r =? 0)%Z.
Definition lt_fs (rhs d : fstring) : res bool := r ← memcmp N d rhs; mret (r <? 0)%Z.
Definition gt_fs (rhs d : fstring) : res bool := r ← memcmp N d rhs; mret (negb (r =? 0))%Z.

(** Comparisons with a [std::string]. *)
Definition eq_string (rhs : str) (d : fstring) : res bool :=
  if negb (length rhs =? N) then mret false
  else r ← strncmp N d (c_str rhs); mret (r =? 0)%Z.
Definition lt_string (rhs : str) (d : fstring) : res bool :=
  r ← strncmp N d (c_str rhs); mret (r <? 0)%Z.
Definition gt_string (rhs : str) (d : fstring) : res bool :=
  r ← strncmp N d (c_str rhs); mret (0 <? r)%Z.

(** [operator[]] and [at], read and written. *)
Definition fs_at (idx : nat) (d : fstring) : res ascii :=
  if N <=? idx then Throw RuntimeError else deref OutOfBounds (d !! idx).
Definition fs_set (idx : nat) (c : ascii) (d : fstring) : res fstring :=
  if N <=? idx then Throw RuntimeError else put idx c d.

(** [str()], and [to_string()] with the conversions to [std::string] and
    [std::string_view]. *)
Definition fs_str (d : fstring) : res str := n ← strlen d; mret (take n d).
Definition fs_to_string (d : fstring) : str := take (fs_length d) d.

(** [substr(idx, n)]: [idx + n - 1] in [size_t]. *)
Definition substr (idx n : nat) (d : fstring) : res str :=
  if N <? idx then Throw RuntimeError
  else memread d idx (if (wrap 64 (Z.of_nat idx + Z.of_nat n - 1) <=? Z.of_nat N)%Z then n else N - idx).

(** The loop of [find_first_of]: it looks at [data_[off]] in every round. *)
Definition find_first (p : ascii → bool) (off : nat) (d : list ascii) : res (option nat) :=
  run_loop (S (N - off)) (λ i : nat,
    if i <? N then
      c ← deref OutOfBounds (d !! off);
      if p c then mret (inr (Some off)) else mret (inl (S i))
    else mret (inr None)) off.

Definition find_first_of (ch : ascii) : nat → fstring → res (option nat) :=
  find_first (λ c, bool_decide (c = ch)).
Definition find_first_not_of (ch : ascii) : nat → fstring → res (option nat) :=
  find_first (λ c, bool_decide (c ≠ ch)).

Definition fs_empty (d : fstring) : res bool := c ← deref OutOfBounds (d !! 0); mret (bool_decide (c = nul)).

Definition fs_bool (d : fstring) : res bool := e ← fs_empty d; mret (negb e).

(** What [operator<<] prints. *)
Definition fs_print (d : fstring) : res str := fs_str d.

(** The [operator==] of the namespace with a [std::string] and with a C string,
    given as its memory, on the left. *)
Definition eq_std (lhs : str) (d : fstring) : res bool :=
  if length lhs =? fs_length d then r ← strcmp (c_str lhs) d; mret (r =? 0)%Z else mret false.
Definition eq_lit (lhs : str) (d : fstring) : res bool := r ← strcmp lhs d; mret (r =? 0)%Z.

(** The friend [swap]: the whole arrays, once per index. *)
Definition swap_friend (lft rht : fstring) : fstring * fstring :=
  Nat.iter N (λ '(a, b), (b, a)) (lft, rht).

End fstring.

(** Comparison of two strings of lengths [N1] and [N2]. *)
Definition eq_fs_fs (N1 N2 : nat) (lhs rhs : fstring) : res bool :=
  if fs_length N1 lhs =? fs_length N2 rhs then r ← strcmp lhs rhs; mret (r =? 0)%Z else mret false.

(** ** Specification *)

(** The text of a string, and the arrays all whose bytes after it are NUL. *)
Definition text (d : fstring) : str := until_nul d.

Definition nul_free (s : str) : Prop := nul ∉ s.

(** The array of a text that fits. *)
Definition padded (N : nat) (s : str) : fstring := s ++ replicate (N - length s) nul.

Definition fs_ok (N : nat) (s : str) (d : fstring) : Prop :=
  d = padded N s ∧ nul_free s ∧ length s < N.

(** Lexicographic order of unsigned bytes. *)
Fixpoint str_compare (a b : str) : comparison :=
  match a, b with
  | [], [] => Eq
  | [], _ => Lt
  | _, [] => Gt
  | x :: a, y :: b => match (code x ?= code y)%Z with Eq => str_compare a b | r => r end
  end.

(** ** Lemmas *)

Lemma until_nul_app s m : nul_free s → until_nul (s ++ nul :: m) = s.
Proof.
  unfold nul_free. induction s as [|c s IH]; intros Hs; [done|]. simpl.
  rewrite decide_False by set_solver. f_equal. apply IH. set_solver.
Qed.

Lemma until_nul_free s : nul_free s → until_nul s = s.
Proof.
  unfold nul_free. induction s as [|c s IH]; intros Hs; simpl; [done|].
  rewrite decide_False by set_solver. f_equal. apply IH. set_solver.
Qed.

Lemma nul_free_take n s : nul_free s → nul_free (take n s).
Proof. unfold nul_free. intros H Hin. apply H. rewrite <- (take_drop n s). set_solver. Qed.

Lemma length_padded N s : length s ≤ N → length (padded N s) = N.
Proof. intros H. unfold padded. rewrite length_app, length_replicate. lia. Qed.

Lemma padded_terminated N s : length s < N → padded N s = s ++ nul :: replicate (N - length s - 1) nul.
Proof.
  intros H. unfold padded. f_equal. destruct (N - length s) as [|k] eqn:E; [lia|]. simpl. f_equal. f_equal. lia.
Qed.

Lemma text_padded N s : nul_free s → length s < N → text (padded N s) = s.
Proof. intros Hs Hl. rewrite padded_terminated by done. by apply until_nul_app. Qed.

Lemma fs_length_padded N s : nul_free s → length s < N → fs_length N (padded N s) = length s.
Proof.
  intros Hs Hl. unfold fs_length, strnlen. rewrite take_ge by (rewrite length_padded; lia).
  fold (text (padded N s)). by rewrite (text_padded N s Hs Hl).
Qed.

Lemma strncpy_bytes_string s n :
  nul_free s → strncpy_bytes (c_str s) n = Ok (take n s ++ replicate (n - length s) nul).
Proof.
  intros Hs. unfold strncpy_bytes. rewrite decide_True by (right; unfold c_str; set_solver).
  assert (until_nul (take n (c_str s)) = take n s) as ->.
  { unfold c_str. destruct (decide (n ≤ length s)).
    - rewrite take_app_le by done. apply until_nul_free. by apply nul_free_take.
    - rewrite !take_ge by (rewrite ?length_app; simpl; lia). by apply until_nul_app. }
  rewrite length_take. simpl. do 3 f_equal. lia.
Qed.

(** Writing a text at the end of another one, and the NUL after it. *)
Lemma padded_write N s t :
  length s + length t < N →
  ∃ d, memcpy (padded N s) (length s) t = Ok d ∧ put (length t + length s) nul d = Ok (padded N (s ++ t)).
Proof.
  intros Hl. unfold memcpy. rewrite length_padded by lia. rewrite decide_True by lia.
  eexists. split; [done|]. unfold put. rewrite length_inserts, length_padded by lia. rewrite decide_True by lia.
  rewrite list_inserts_split by (rewrite length_padded; lia). unfold padded.
  rewrite take_app_length, <- drop_drop, drop_app_length, drop_replicate.
  simpl. f_equal. rewrite app_assoc, length_app.
  rewrite list_insert_id; [by rewrite Nat.sub_add_distr|].
  rewrite lookup_app_r by (rewrite length_app; lia). rewrite length_app.
  replace (length t + length s - (length s + length t)) with 0 by lia. apply lookup_replicate_2. lia.
Qed.

Lemma fstring_string_ok N s :
  0 < N → nul_free s → fstring_string N s = Ok (padded N (take (N - 1) s)).
Proof.
  intros HN Hs. unfold fstring_string. rewrite (strncpy_bytes_string s (N - 1) Hs). cbn [mbind res_bind].
  set (t := take (N - 1) s). set (z := replicate (N - 1 - length s) nul).
  assert (Hlen : length (t ++ z) = N - 1).
  { unfold t, z. rewrite length_app, length_take, length_replicate. lia. }
  unfold memcpy, fstring_default. rewrite length_replicate. rewrite decide_True by lia. cbn [mbind res_bind].
  rewrite list_inserts_split by (rewrite length_replicate; lia). unfold put.
  rewrite take_0, app_nil_l, length_app, length_drop, length_replicate, Hlen.
  rewrite decide_True by lia. f_equal. rewrite drop_replicate. unfold padded.
  replace (N - (0 + (N - 1))) with 1 by lia. simpl. rewrite insert_app_r_alt by lia. rewrite Hlen, Nat.sub_diag. simpl.
  rewrite <- app_assoc. f_equal. unfold z, t. rewrite length_take.
  rewrite <- replicate_S_end. f_equal. lia.
Qed.

(** *** Comparison *)

Lemma code_inj x y : code x = code y → x = y.
Proof.
  unfold code. intros H%N2Z.inj. rewrite <- (ascii_N_embedding x), <- (ascii_N_embedding y). by rewrite H.
Qed.

Lemma code_pos x : x ≠ nul → (0 < code x)%Z.
Proof.
  intros H. assert (code x ≠ code nul) by (intros E; by apply H, code_inj).
  change (code nul) with 0%Z in *. unfold code in *. lia.
Qed.

Lemma str_compare_eq a b : str_compare a b = Eq ↔ a = b.
Proof.
  revert b. induction a as [|x a IH]; intros [|y b]; simpl; try done.
  destruct (Z.compare_spec (code x) (code y)) as [H|H|H].
  - apply code_inj in H. rewrite IH. naive_solver.
  - split; [done|]. intros [= -> ->]. lia.
  - split; [done|]. intros [= -> ->]. lia.
Qed.

(** A result of one of the three functions has the sign of the comparison. *)
Definition sign_of (r : res Z) (c : comparison) : Prop := ∃ z, r = Ok z ∧ (z ?= 0)%Z = c.

Lemma sign_diff x y (c : comparison) : x ≠ y → sign_of (mret (code x - code y)%Z) (match (code x ?= code y)%Z with Eq => c | r => r end).
Proof.
  intros H. exists (code x - code y)%Z. split; [done|].
  destruct (Z.compare_spec (code x) (code y)) as [E|E|E]; [by apply code_inj in E| |].
  - apply Z.compare_lt_iff. lia.
  - apply Z.compare_gt_iff. lia.
Qed.

Lemma sign_nul y :
  y ≠ nul → sign_of (mret (code nul - code y)%Z) Lt ∧ sign_of (mret (code y - code nul)%Z) Gt.
Proof.
  intros H%code_pos. change (code nul) with 0%Z. split; eexists; (split; [done|]).
  - apply Z.compare_lt_iff. lia.
  - apply Z.compare_gt_iff. lia.
Qed.

Lemma cons_nul_free x s : nul_free (x :: s) → x ≠ nul ∧ nul_free s.
Proof. unfold nul_free. set_solver. Qed.

Lemma strcmp_spec a b x y :
  nul_free a → nul_free b → sign_of (strcmp (a ++ nul :: x) (b ++ nul :: y)) (str_compare a b).
Proof.
  revert b. induction a as [|c a IH]; intros [|e b] Ha Hb; simpl.
  - by exists 0%Z.
  - apply cons_nul_free in Hb as [He _]. rewrite decide_False by done. by apply (sign_nul e).
  - apply cons_nul_free in Ha as [Hc _]. rewrite decide_False by done. by apply (sign_nul c).
  - apply cons_nul_free in Ha as [Hc Ha], Hb as [He Hb]. destruct (decide (c = e)) as [->|Hne].
    + rewrite decide_False, Z.compare_refl by done. by apply IH.
    + by apply sign_diff.
Qed.

Lemma padded_cons n c s : padded (S n) (c :: s) = c :: padded n s.
Proof. done. Qed.

Lemma padded_nil_S n : padded (S n) [] = nul :: padded n [].
Proof. unfold padded. simpl. by rewrite Nat.sub_0_r. Qed.

Lemma memcmp_padded n a b :
  nul_free a → nul_free b → length a ≤ n → length b ≤ n →
  sign_of (memcmp n (padded n a) (padded n b)) (str_compare a b).
Proof.
  revert a b. induction n as [|n IH]; intros [|c a] [|e b] Ha Hb La Lb; simpl in La, Lb; try lia.
  - by exists 0%Z.
  - rewrite !padded_nil_S. cbn [memcmp]. rewrite decide_True by done. apply (IH [] []); simpl; done || lia.
  - apply cons_nul_free in Hb as [He _]. rewrite padded_nil_S, padded_cons. cbn [memcmp str_compare].
    rewrite decide_False by done. by apply (sign_nul e).
  - apply cons_nul_free in Ha as [Hc _]. rewrite padded_nil_S, padded_cons. cbn [memcmp str_compare].
    rewrite decide_False by done. by apply (sign_nul c).
  - apply cons_nul_free in Ha as [Hc Ha], Hb as [He Hb]. rewrite !padded_cons. cbn [memcmp str_compare].
    destruct (decide (c = e)) as [->|Hne].
    + rewrite Z.compare_refl. apply IH; done || lia.
    + by apply sign_diff.
Qed.

Lemma of_sign r c : sign_of r c →
  (z ← r; mret (z =? 0)%Z) = Ok (bool_decide (c = Eq)) ∧
  (z ← r; mret (z <? 0)%Z) = Ok (bool_decide (c = Lt)) ∧
  (z ← r; mret (0 <? z)%Z) = Ok (bool_decide (c = Gt)) ∧
  (z ← r; mret (negb (z =? 0)%Z)) = Ok (bool_decide (c ≠ Eq)).
Proof.
  intros (z & -> & Hz). simpl. destruct (Z.compare_spec z 0); subst c;
    split_and!; f_equal; case_bool_decide as E; try (exfalso; (congruence || by apply E)); lia.
Qed.

(** ** Properties *)

(** a string built from a text keeps its first [N - 1] bytes, and every way
    of reading it back returns them. *)
Theorem fstring_roundtrip N s :
  0 < N → nul_free s →
  let s' := take (N - 1) s in
  ∃ d, fstring_string N s = Ok d ∧ fs_ok N s' d ∧
    fs_length N d = length s' ∧ fs_str d = Ok s' ∧ fs_to_string N d = s' ∧
    fs_empty d = Ok (bool_decide (s' = [])).
Proof.
  intros HN Hs s'. assert (Hs' : nul_free s') by by apply nul_free_take.
  assert (Hl : length s' < N) by (unfold s'; rewrite length_take; lia).
  exists (padded N s'). split; [by apply fstring_string_ok|]. split; [done|].
  pose proof (fs_length_padded N s' Hs' Hl) as Hlen. rewrite padded_terminated in * by done. split_and!.
  - done.
  - unfold fs_str, strlen. rewrite decide_True by set_solver. rewrite until_nul_app by done. simpl.
    by rewrite take_app_length.
  - unfold fs_to_string. by rewrite Hlen, take_app_length.
  - destruct s' as [|c s'']; [done|]. apply cons_nul_free in Hs' as [Hc _]. simpl.
    assert (c ≠ nul) by done. unfold fs_empty. simpl. f_equal. case_bool_decide; done.
Qed.

(** appending the bytes [t] gives the concatenation when it leaves room for
    the final NUL, and changes nothing otherwise: the text is never cut and the
    array stays padded with NULs. *)
Theorem fstring_append_spec N s t m d :
  fs_ok N s d → nul_free t →
  let s' := if length s + length t <? N then s ++ t else s in
  ∃ d', append N (Some (t ++ m)) (length t) d = Ok d' ∧ fs_ok N s' d'.
Proof.
  intros (-> & Hs & Hl) Ht s'. unfold append. rewrite (fs_length_padded N s Hs Hl).
  assert (Hs' : nul_free (s ++ t)) by (unfold nul_free in *; set_solver).
  destruct (Nat.eqb_spec (length t) 0) as [H0|H0].
  { assert (t = []) as -> by (by destruct t). exists (padded N s). split; [done|]. unfold s'.
    rewrite app_nil_r. by destruct (_ <? _). }
  unfold s'. destruct (Nat.leb_spec (N - length s) (length t)) as [Hfull|Hroom].
  - exists (padded N s). destruct (Nat.ltb_spec (length s + length t) N); [lia|done].
  - unfold memread. rewrite decide_True by (rewrite length_app; lia). rewrite drop_0, take_app_length. simpl.
    destruct (padded_write N s t) as (d' & -> & Hput); [lia|]. simpl. rewrite Hput. eexists. split; [done|].
    destruct (Nat.ltb_spec (length s + length t) N); [|lia]. split; [done|]. split; [done|].
    rewrite length_app. lia.
Qed.

(** between two strings [==] and [<] decide equality and the order of the
    texts, but [>] is true whenever they differ; the comparisons with a C
    string are all right; [==] with a [std::string] is never true. *)
Theorem fstring_compare_spec N a b da db :
  fs_ok N a da → fs_ok N b db →
  (eq_fs N db da = Ok (bool_decide (a = b)) ∧ lt_fs N db da = Ok (bool_decide (str_compare a b = Lt)) ∧
   gt_fs N db da = Ok (bool_decide (a ≠ b))) ∧
  (eq_cstr (Some (c_str b)) da = Ok (bool_decide (a = b)) ∧
   lt_cstr (Some (c_str b)) da = Ok (bool_decide (str_compare a b = Lt)) ∧
   gt_cstr (Some (c_str b)) da = Ok (bool_decide (str_compare a b = Gt))) ∧
  (∀ s, nul_free s → eq_string N s da = Ok false).
Proof.
  intros (-> & Ha & La) (-> & Hb & Lb).
  assert (He : bool_decide (str_compare a b = Eq) = bool_decide (a = b)) by apply bool_decide_ext, str_compare_eq.
  assert (Hn : bool_decide (str_compare a b ≠ Eq) = bool_decide (a ≠ b)).
  { apply bool_decide_ext. by rewrite str_compare_eq. }
  split; [|split].
  - destruct (of_sign _ _ (memcmp_padded N a b Ha Hb ltac:(lia) ltac:(lia))) as (E1 & E2 & _ & E4).
    rewrite <- He, <- Hn. by split_and!.
  - pose proof (strcmp_spec a b (replicate (N - length a - 1) nul) [] Ha Hb) as Hsig.
    rewrite <- padded_terminated in Hsig by done.
    destruct (of_sign _ _ Hsig) as (E1 & E2 & E3 & _). rewrite <- He. by split_and!.
  - intros s Hs. unfold eq_string. destruct (Nat.eqb_spec (length s) N) as [Hl|Hl]; [|done]. simpl.
    assert (Hsig : ∀ n a s, nul_free a → nul_free s → length a < n → length s = n →
      ∃ z, strncmp n (padded n a) (c_str s) = Ok z ∧ z ≠ 0%Z).
    { clear. intros n. induction n as [|n IH]; intros [|c a] [|e s] Ha Hs Hla Hls; simpl in Hla, Hls; try lia.
      - apply cons_nul_free in Hs as [He%code_pos _]. rewrite padded_nil_S. simpl.
        rewrite decide_False by (intros <-; done). eexists. split; [done|]. change (code nul) with 0%Z. lia.
      - apply cons_nul_free in Ha as [Hc Ha], Hs as [He Hs]. rewrite padded_cons. simpl.
        destruct (decide (c = e)) as [->|Hne].
        + rewrite decide_False by done. apply IH; done || lia.
        + eexists. split; [done|]. intros E. apply Hne, code_inj. lia. }
    destruct (Hsig N a s Ha Hs La Hl) as (z & -> & Hz). simpl. by rewrite (proj2 (Z.eqb_neq _ _) Hz).
Qed.

(** a copy is equal; the conversion to bool tells whether there is any text,
    which is what is printed; [==] with a [std::string] or a C string on the
    left decides equality of the texts, also for a [std::string] that contains
    NULs, which no string equals. *)
Theorem fstring_outside_spec N b d :
  fs_ok N b d →
  fstring_copy N d = Ok d ∧ fs_bool d = Ok (bool_decide (b ≠ [])) ∧ fs_print d = Ok b ∧
  (∀ a, eq_std N a d = Ok (bool_decide (a = b))) ∧
  (∀ a x, nul_free a → eq_lit (a ++ nul :: x) d = Ok (bool_decide (a = b))).
Proof.
  intros (-> & Hb & Lb). pose proof (length_padded N b ltac:(lia)) as Hlen.
  assert (Hcmp : ∀ a x, nul_free a → eq_lit (a ++ nul :: x) (padded N b) = Ok (bool_decide (a = b))).
  { intros a x Ha. pose proof (strcmp_spec a b x (replicate (N - length b - 1) nul) Ha Hb) as Hsig.
    rewrite <- padded_terminated in Hsig by done. destruct (of_sign _ _ Hsig) as (E & _).
    unfold eq_lit. rewrite E. f_equal. apply bool_decide_ext, str_compare_eq. }
  split_and!; [| | | |done].
  - unfold fstring_copy, memread. rewrite decide_True by (rewrite Hlen; lia). cbn [mbind res_bind].
    unfold memcpy, fstring_default. rewrite drop_0, take_ge by lia.
    rewrite decide_True by (rewrite length_replicate, Hlen; lia).
    rewrite list_inserts_split by (rewrite length_replicate, Hlen; lia).
    rewrite take_0, app_nil_l, Nat.add_0_l, Hlen, drop_ge by (rewrite length_replicate; lia). by rewrite app_nil_r.
  - unfold fs_bool, fs_empty. rewrite padded_terminated by done. destruct b as [|c b]; [done|]. simpl.
    apply cons_nul_free in Hb as [Hc _]. by rewrite bool_decide_false.
  - unfold fs_print, fs_str, strlen. rewrite padded_terminated by done. rewrite decide_True by set_solver.
    rewrite until_nul_app by done. simpl. by rewrite take_app_length.
  - intros a. unfold eq_std. rewrite fs_length_padded by done. destruct (decide (nul ∈ a)) as [Hin|Hfree].
    + apply list_elem_of_split_l in Hin as (a1 & a2 & -> & Ha1).
      rewrite (bool_decide_false (_ = b)) by (intros <-; apply Hb; set_solver).
      destruct (Nat.eqb_spec (length (a1 ++ nul :: a2)) (length b)) as [Hl|]; [|done].
      unfold c_str. rewrite <- app_assoc. cbn [app].
      specialize (Hcmp a1 (a2 ++ [nul]) Ha1). unfold eq_lit in Hcmp. rewrite Hcmp. f_equal.
      apply bool_decide_false. intros ->. rewrite length_app in Hl. simpl in Hl. lia.
    + destruct (Nat.eqb_spec (length a) (length b)) as [|Hl]; [by apply (Hcmp a [])|].
      rewrite bool_decide_false; [done|]. by intros ->.
Qed.

(** looking for a byte from [off] on finds it only at [off] itself: the
    loop tests the same place in every round.  [substr] returns the [n] bytes
    from [idx] on inside the array, the whole rest for [n = 0] at the
    beginning, and reads one byte too far when [idx + n = N + 1]. *)
Theorem fstring_search_spec N d p off :
  length d = N → (Z.of_nat N < 2 ^ 63)%Z →
  find_first N p off d = Ok (if bool_decide (off < N) && default false (p <$> d !! off) then Some off else None) ∧
  (∀ idx n, 0 < n → idx + n ≤ N → substr N idx n d = Ok (take n (drop idx d))) ∧
  (0 < N → substr N 0 0 d = Ok d) ∧
  (∀ idx n, idx ≤ N → idx + n = S N → substr N idx n d = Fault OutOfBounds).
Proof.
  intros Hd HN. split; [|split; [|split]].
  - unfold find_first. case_bool_decide as Hoff; cbn [andb].
    + destruct (lookup_lt_is_Some_2 d off ltac:(lia)) as [c Hc]. rewrite Hc. cbn [fmap option_fmap option_map default].
      destruct (p c) eqn:Hp.
      * cbn [run_loop]. destruct (Nat.ltb_spec off N); [|lia]. simpl. by rewrite Hp.
      * match goal with |- run_loop _ ?f _ = _ => set (body := f) end.
        assert (Hb : ∀ i, body i = Ok (if i <? N then inl (S i) else inr None)).
        { intros i. unfold body. destruct (i <? N); [|done]. simpl. by rewrite Hp. }
        clearbody body.
        assert (Hloop : ∀ k i, i + k = N → run_loop (S k) body i = Ok None).
        { induction k as [|k IH]; intros i Hi; cbn [run_loop]; rewrite Hb;
            destruct (Nat.ltb_spec i N); try lia; [done|]. apply IH. lia. }
        apply Hloop. lia.
    + cbn [run_loop]. destruct (Nat.ltb_spec off N); [lia|done].
  - intros idx n Hn Hle. unfold substr. destruct (Nat.ltb_spec N idx); [lia|].
    rewrite wrap_small by lia. destruct (Z.leb_spec (Z.of_nat idx + Z.of_nat n - 1) (Z.of_nat N)); [|lia].
    unfold memread. by rewrite decide_True by lia.
  - intros H0. unfold substr. destruct (Nat.ltb_spec N 0); [lia|].
    change (wrap 64 (Z.of_nat 0 + Z.of_nat 0 - 1))%Z with (2 ^ 64 - 1)%Z.
    destruct (Z.leb_spec (2 ^ 64 - 1) (Z.of_nat N)); [lia|]. unfold memread. rewrite decide_True by lia.
    rewrite drop_0, take_ge by lia. done.
  - intros idx n Hi Hn. unfold substr. destruct (Nat.ltb_spec N idx); [lia|].
    rewrite wrap_small by lia. destruct (Z.leb_spec (Z.of_nat idx + Z.of_nat n - 1) (Z.of_nat N)); [|lia].
    unfold memread. by rewrite decide_False by lia.
Qed.

(** ** Witnesses *)

Lemma demo_free : nul_free (lit "hello,world").
Proof. unfold nul_free. by apply (bool_decide_unpack _). Qed.

Lemma fstring_roundtrip_witness :
  ∃ d, fstring_string 8 (lit "hello,world") = Ok d ∧ fs_str d = Ok (lit "hello,w").
Proof.
  destruct (fstring_roundtrip 8 (lit "hello,world")) as (d & Hd & _ & _ & Hs & _).
  - lia.
  - exact demo_free.
  - exists d. split; [exact Hd|exact Hs].
Defined.

Lemma fstring_append_spec_witness :
  ∃ d, append 16 (Some (c_str (lit "by"))) 2 (padded 16 (lit "hello,world")) = Ok d ∧
    fs_ok 16 (lit "hello,worldby") d.
Proof.
  apply (fstring_append_spec 16 (lit "hello,world") (lit "by") [nul]).
  - split; [reflexivity|]. split; [exact demo_free|]. simpl. lia.
  - unfold nul_free. by apply (bool_decide_unpack _).
Defined.

(** [w] comes after [W], and still [hello,World > hello,world]. *)
Lemma fstring_compare_spec_witness :
  gt_fs 16 (padded 16 (lit "hello,world")) (padded 16 (lit "hello,World")) = Ok true ∧
  str_compare (lit "hello,World") (lit "hello,world") = Lt.
Proof.
  split; [|reflexivity].
  refine (eq_trans (proj2 (proj2 (proj1 (fstring_compare_spec 16 (lit "hello,World") (lit "hello,world") _ _ _ _)))) _).
  - split; [reflexivity|]. split; [unfold nul_free; by apply (bool_decide_unpack _)|]. simpl. lia.
  - split; [reflexivity|]. split; [exact demo_free|]. simpl. lia.
  - reflexivity.
Defined.

Lemma fstring_search_spec_witness :
  find_first_of 4 "b" 0 (lit "abc" ++ [nul]) = Ok None ∧
  substr 4 2 3 (lit "abc" ++ [nul]) = Fault OutOfBounds.
Proof.
  split.
  - refine (eq_trans (proj1 (fstring_search_spec 4 (lit "abc" ++ [nul]) _ 0 _ _)) _); reflexivity.
  - apply (fstring_search_spec 4 (lit "abc" ++ [nul]) (λ _, true) 0); [reflexivity | reflexivity | lia | lia].
Defined.

Lemma fstring_outside_spec_witness :
  eq_std 16 (lit "hello" ++ [nul]) (padded 16 (lit "hello,")) = Ok false ∧
  eq_lit (lit "hello," ++ nul :: lit "x") (padded 16 (lit "hello,")) = Ok true.
Proof.
  destruct (fstring_outside_spec 16 (lit "hello,") (padded 16 (lit "hello,"))) as (_ & _ & _ & H1 & H2).
  - split; [reflexivity|]. split; [unfold nul_free; by apply (bool_decide_unpack _)|]. simpl. lia.
  - split; [exact (H1 _)|]. refine (H2 (lit "hello,") (lit "x") _). unfold nul_free. by apply (bool_decide_unpack _).
Defined.
