(* ===== verification/Buffers.v ===== *)
(** * Byte buffers (basic/dynamic_buffer.h, fbuffer.h, fixed_buffer.h, buffer.h,
      core/cycle_memory_block.h)

    Memory that was allocated and not written is the list that the allocation
    is given. *)

From S2P Require Import Prelude.
Local Open Scope nat_scope.

Section bytes.
Context {byte : Type} (zero : byte).

(** ** [DynamicBufferr] *)

(** [dyn_data] has [capacity_] bytes; sizes are far below [2^64]. *)
Record dynamic_buffer := Dyn {
  capacity : nat; dyn_size : nat; head : nat; dyn_data : list byte; expand_size : nat
}.

Definition dyn_create : dynamic_buffer := Dyn 0 0 0 [] 256.

Definition set_head_size (h : nat) (b : dynamic_buffer) : dynamic_buffer :=
  Dyn (capacity b) (dyn_size b) h (dyn_data b) (expand_size b).
Definition set_expand_size (n : nat) (b : dynamic_buffer) : dynamic_buffer :=
  Dyn (capacity b) (dyn_size b) (head b) (dyn_data b) n.

(** The loop of [reserve]. *)
Definition grow (fuel size expand : nat) : nat → res nat :=
  run_loop fuel (λ n, if n <? size then mret (inl (n + expand)) else mret (inr n)).

(** [fresh n]: the [n] bytes that [new char[n]] left. *)
Definition reserve (fresh : nat → list byte) (size : nat) (b : dynamic_buffer) : res dynamic_buffer :=
  if size <=? capacity b then mret b
  else
    n ← grow (S size) size (expand_size b) (capacity b);
    old ← memread (dyn_data b) 0 (dyn_size b);
    data ← memcpy (fresh n) 0 old;
    data ← memcpy data (n - 1) [zero];
    mret (Dyn n (dyn_size b) (head b) data (expand_size b)).

Definition resize (fresh : nat → list byte) (size : nat) (b : dynamic_buffer) : res dynamic_buffer :=
  b ← reserve fresh size b;
  mret (Dyn (capacity b) size (head b) (dyn_data b) (expand_size b)).

Definition dyn_append (fresh : nat → list byte) (data : list byte) (b : dynamic_buffer)
    : res dynamic_buffer :=
  b ← reserve fresh (dyn_size b + length data) b;
  d ← memcpy (dyn_data b) (dyn_size b) data;
  mret (Dyn (capacity b) (dyn_size b + length data) (head b) d (expand_size b)).

Definition dyn_clear (reset_capacity : bool) (b : dynamic_buffer) : dynamic_buffer :=
  if reset_capacity then Dyn 0 0 0 [] (expand_size b)
  else Dyn (capacity b) 0 0 (dyn_data b) (expand_size b).

(** [operator[]], [to_string] and [as<T>]: from [data()] on. *)
Definition dyn_at (i : nat) (b : dynamic_buffer) : res byte := deref OutOfBounds (dyn_data b !! (head b + i)).
Definition dyn_to_string (b : dynamic_buffer) : res (list byte) := memread (dyn_data b) (head b) (dyn_size b).
Definition dyn_as (sizeof_T : nat) (b : dynamic_buffer) : res (option (list byte)) :=
  if dyn_size b <? sizeof_T then mret None
  else d ← memread (dyn_data b) (head b) sizeof_T; mret (Some d).

(** The copy constructor; the copy's [expand_size_] is the default. *)
Definition dyn_copy (fresh : nat → list byte) (rhs : dynamic_buffer) : res dynamic_buffer :=
  old ← memread (dyn_data rhs) 0 (dyn_size rhs);
  data ← memcpy (fresh (capacity rhs)) 0 old;
  mret (Dyn (capacity rhs) (dyn_size rhs) (head rhs) data 256).

(** The move constructor: the new buffer and what is left. *)
Definition dyn_move (rhs : dynamic_buffer) : dynamic_buffer * dynamic_buffer :=
  (Dyn (capacity rhs) (dyn_size rhs) (head rhs) (dyn_data rhs) 256,
   Dyn 0 0 (head rhs) [] (expand_size rhs)).

(** Copy assignment to another object, and to the object itself: then the bytes
    are copied from the new memory. *)
Definition dyn_assign (fresh : nat → list byte) (b rhs : dynamic_buffer) : res dynamic_buffer :=
  old ← memread (dyn_data rhs) 0 (dyn_size rhs);
  data ← memcpy (fresh (capacity rhs)) 0 old;
  mret (Dyn (capacity rhs) (dyn_size rhs) (head rhs) data (expand_size b)).
Definition dyn_assign_self (fresh : nat → list byte) (b : dynamic_buffer) : dynamic_buffer :=
  Dyn (capacity b) (dyn_size b) (head b) (fresh (capacity b)) (expand_size b).

(** ** [fbuffer<N>] and [FixedBuffer<N>] *)

Section fbuffer.
Context (N : nat).

Record fbuffer := Fbuf { fb_data : list byte; fb_head : nat; fb_tail : nat }.

Definition fb_length (b : fbuffer) : nat :=
  if fb_head b <=? fb_tail b then fb_tail b - fb_head b else N + 1 - fb_head b + fb_tail b.

(** [peak(off)]: the position of the result. *)
Definition peak (off : nat) (b : fbuffer) : option nat * fbuffer :=
  if fb_tail b <? fb_head b + off then (None, b)
  else (Some (fb_head b + off), Fbuf (fb_data b) (fb_head b + off) (fb_tail b)).

(** [data()] is the beginning of the array. *)
Definition shrink_to_fit (b : fbuffer) : res fbuffer :=
  s ← memread (fb_data b) 0 (fb_length b);
  d ← memcpy (fb_data b) 0 s;
  mret (Fbuf d 0 (fb_tail b - fb_head b)).

Definition fb_empty (b : fbuffer) : bool := fb_head b =? fb_tail b.

Definition fb_append (data : option (list byte)) (b : fbuffer) : res (bool * fbuffer) :=
  match data with
  | None => mret (false, b)
  | Some data =>
      if N - fb_tail b <? length data then mret (false, b)
      else
        d ← memcpy (fb_data b) (fb_tail b) data;
        mret (true, Fbuf d (fb_head b) (fb_tail b + length data))
  end.

Definition fb_at (i : nat) (b : fbuffer) : res byte := deref OutOfBounds (fb_data b !! ((fb_head b + i) mod N)).

Definition contious_size (b : fbuffer) : nat := N - fb_tail b.

End fbuffer.

(** ** [buffer_t] *)

(** The data pointer is null or the bytes behind it; [data_offset_] is 0 and
    never changes. *)
Record buffer_t := Buft { bt_cap : nat; bt_size : nat; bt_data : option (list byte) }.

Definition buffer_create : buffer_t := Buft 0 0 None.

Definition buffer_append (data : list byte) (b : buffer_t) : res (bool * buffer_t) :=
  if bt_cap b - bt_size b <? length data then mret (false, b)
  else if decide (data = []) then mret (true, b)
  else
    d ← deref NullDeref (bt_data b);
    d ← memcpy d (bt_size b) data;
    mret (true, Buft (bt_cap b) (bt_size b + length data) (Some d)).

Definition buffer_resize (len : nat) (b : buffer_t) : nat := bt_cap b.

(** Copies allocate [cap_] bytes. *)
Definition buffer_copy (fresh : nat → list byte) (rhs : buffer_t) : res buffer_t :=
  if bt_size rhs =? 0 then mret (Buft (bt_cap rhs) 0 (Some (fresh (bt_cap rhs))))
  else
    d ← deref NullDeref (bt_data rhs);
    s ← memread d 0 (bt_size rhs);
    d ← memcpy (fresh (bt_cap rhs)) 0 s;
    mret (Buft (bt_cap rhs) (bt_size rhs) (Some d)).

Definition buffer_move (rhs : buffer_t) : buffer_t * buffer_t := (rhs, Buft 0 0 None).

(** ** [cycle_memory_block] *)

(** Positions in the block; [None] before the first [clear]. *)
Record cycle_block := Cyc {
  cy_cap : nat; cy_data : list byte; data_start : option nat; data_end : option nat
}.

Definition cycle_create (mem : list byte) : cycle_block := Cyc (length mem) mem None None.

(** [size()]: 0 for the two null pointers. *)
Definition cycle_size (b : cycle_block) : nat :=
  match data_start b, data_end b with
  | Some s, Some e => if e <? s then e + cy_cap b - s else e - s
  | _, _ => 0
  end.

Definition cycle_clear (b : cycle_block) : cycle_block := Cyc (cy_cap b) (cy_data b) (Some 0) (Some 0).

(** The first copy goes to [_data_end + 1]; [_data_end] is not advanced. *)
Definition cycle_append (data : list byte) (b : cycle_block) : res (bool * cycle_block) :=
  if cy_cap b - cycle_size b <? length data then mret (false, b)
  else
    e ← deref NullDeref (data_end b);
    if cy_cap b <? e + length data then
      let c_len := cy_cap b - e in
      d ← memcpy (cy_data b) e (take c_len data);
      d ← memcpy d 0 (drop c_len data);
      mret (true, Cyc (cy_cap b) d (data_start b) (data_end b))
    else
      d ← memcpy (cy_data b) (e + 1) data;
      mret (true, Cyc (cy_cap b) d (data_start b) (data_end b)).

(** [pop(size_)]; a larger request pops everything. *)
Definition cycle_pop (n : nat) (b : cycle_block) : cycle_block :=
  let n := n `min` cycle_size b in
  if n =? cycle_size b then cycle_clear b
  else
    match data_start b with
    | Some s =>
        Cyc (cy_cap b) (cy_data b) (Some (if cy_cap b <? s + n then n - (cy_cap b - s) else s + n)) (data_end b)
    | None => b
    end.

Definition cycle_empty (b : cycle_block) : bool := bool_decide (data_start b = data_end b).

(** [c_length]: the bytes up to the end of the block, or one block more. *)
Definition c_length (b : cycle_block) : res nat :=
  match data_start b, data_end b with
  | Some s, Some e => mret (if e <? s then 2 * cy_cap b - s else cy_cap b - s)
  | _, _ => Fault NullDeref
  end.

End bytes.
Arguments dynamic_buffer : clear implicits.
Arguments fbuffer : clear implicits.
Arguments buffer_t : clear implicits.
Arguments cycle_block : clear implicits.

(** ** Specification *)

Section spec.
Context {byte : Type} (zero : byte).
Implicit Types b : dynamic_buffer byte.

Definition alloc_ok (fresh : nat → list byte) : Prop := ∀ n, length (fresh n) = n.

Definition dyn_ok b : Prop := length (dyn_data b) = capacity b ∧ dyn_size b ≤ capacity b.

Definition contents b : list byte := take (dyn_size b) (dyn_data b).

Definition fb_ok (N : nat) (b : fbuffer byte) : Prop :=
  length (fb_data b) = N ∧ fb_head b ≤ fb_tail b ≤ N.

Definition fb_contents (b : fbuffer byte) : list byte := drop (fb_head b) (take (fb_tail b) (fb_data b)).

(** Everything that can be done to a [buffer_t] and its copies. *)
Inductive buffer_step : buffer_t byte → buffer_t byte → Prop :=
| bs_append data (b b' : buffer_t byte) r : buffer_append data b = Ok (r, b') → buffer_step b b'
| bs_copy fresh (b b' : buffer_t byte) : buffer_copy fresh b = Ok b' → buffer_step b b'
| bs_move (b : buffer_t byte) : buffer_step b (buffer_move b).1
| bs_moved (b : buffer_t byte) : buffer_step b (buffer_move b).2.

Inductive cycle_step : cycle_block byte → cycle_block byte → Prop :=
| cs_append data (b b' : cycle_block byte) r : cycle_append data b = Ok (r, b') → cycle_step b b'
| cs_pop n (b : cycle_block byte) : cycle_step b (cycle_pop n b)
| cs_clear (b : cycle_block byte) : cycle_step b (cycle_clear b).

(** ** Lemmas *)

(** The capacity grows by the smallest sufficient number of steps. *)
Lemma grow_ok fuel size expand n :
  0 < expand → size - n < fuel →
  ∃ m, grow fuel size expand n = Ok m ∧ size ≤ m ∧ n ≤ m ∧ (m = n ∨ m < size + expand).
Proof using.
  intros He. revert n. induction fuel as [|fuel IH]; intros n Hf; [lia|].
  unfold grow. cbn [run_loop]. destruct (Nat.ltb_spec n size) as [Hlt|Hge].
  - cbn [mret res_ret]. destruct (IH (n + expand)) as (m & Hm & Hs & Hn & Hor); [lia|].
    exists m. split; [exact Hm|]. lia.
  - exists n. cbn [mret res_ret]. split; [done|lia].
Qed.

Lemma reserve_ok fresh size b :
  alloc_ok fresh → dyn_ok b → 0 < expand_size b →
  ∃ b', reserve zero fresh size b = Ok b' ∧ dyn_ok b' ∧ contents b' = contents b ∧
    dyn_size b' = dyn_size b ∧ head b' = head b ∧ expand_size b' = expand_size b ∧ size ≤ capacity b' ∧
    (capacity b' = capacity b ∨ capacity b' < size + expand_size b).
Proof using.
  intros Hf [Hl Hs] He. unfold reserve. destruct (Nat.leb_spec size (capacity b)) as [Hle|Hgt].
  - exists b. repeat split; auto.
  - destruct (grow_ok (S size) size (expand_size b) (capacity b)) as (n & -> & Hn & Hn' & Hor); [done|lia|].
    cbn [mbind res_bind]. unfold memread. rewrite decide_True by lia. cbn [mbind res_bind].
    unfold memcpy. rewrite drop_0, length_take. rewrite decide_True by (rewrite Hf; lia).
    cbn [mbind res_bind length]. rewrite length_inserts, Hf. rewrite decide_True by lia.
    eexists. split; [reflexivity|]. unfold dyn_ok, contents. simpl.
    rewrite !length_insert, length_inserts, Hf. split_and!; auto with lia.
    rewrite take_insert_ge by lia. rewrite list_inserts_split by (rewrite length_take, Hf; lia).
    rewrite take_0, app_nil_l. apply take_app_length'. rewrite length_take. lia.
Qed.

Lemma append_ok fresh data b :
  alloc_ok fresh → dyn_ok b → 0 < expand_size b →
  ∃ b', dyn_append zero fresh data b = Ok b' ∧ dyn_ok b' ∧ contents b' = contents b ++ data ∧ head b' = head b ∧
    expand_size b' = expand_size b.
Proof using.
  intros Hf Hb He. unfold dyn_append.
  destruct (reserve_ok fresh (dyn_size b + length data) b Hf Hb He) as (b1 & -> & [Hl Hs] & Hc & Hsz & Hh & Hx & Hcap & _).
  cbn [mbind res_bind]. unfold memcpy. rewrite decide_True by lia. cbn [mbind res_bind].
  eexists. split; [reflexivity|]. unfold dyn_ok, contents in *. simpl.
  rewrite length_inserts. split_and!; [done | lia | | done | done].
  rewrite <- Hc, Hsz, list_inserts_split, app_assoc by lia. apply take_app_length'.
  rewrite length_app, length_take. lia.
Qed.

End spec.

Section more_lemmas.
Context {byte : Type}.

(** The array around the contents. *)
Lemma fb_split (N : nat) (b : fbuffer byte) : fb_ok N b → fb_length N b = length (fb_contents b).
Proof using.
  intros (Hl & Hht & Ht). unfold fb_length, fb_contents. rewrite length_drop, length_take.
  destruct (Nat.leb_spec (fb_head b) (fb_tail b)); lia.
Qed.

Lemma buffer_step_empty (b b' : buffer_t byte) :
  buffer_step b b' → bt_cap b = 0 ∧ bt_size b = 0 → bt_cap b' = 0 ∧ bt_size b' = 0.
Proof using.
  intros [data b1 b1' r H|fresh b1 b1' H|b1|b1] [Hc Hs]; [ | |done|done].
  - revert H. unfold buffer_append. rewrite Hc, Hs. destruct data as [|x data]; simpl; by intros [= _ <-].
  - revert H. unfold buffer_copy. rewrite Hs. simpl. by intros [= <-].
Qed.

Definition cycle_unused (b : cycle_block byte) : Prop :=
  data_start b = None ∧ data_end b = None ∨ data_start b = Some 0 ∧ data_end b = Some 0.

Lemma cycle_unused_size b : cycle_unused b → cycle_size b = 0.
Proof using. unfold cycle_size. by intros [[-> _]|[-> ->]]. Qed.

Lemma cycle_step_unused (b b' : cycle_block byte) : cycle_step b b' → cycle_unused b → cycle_unused b'.
Proof using.
  intros [data b1 b1' r H|n b1|b1] Hu; [| |by right].
  - revert H. unfold cycle_append. destruct (_ <? _); [by intros [= _ <-]|].
    destruct (data_end b1) as [e|] eqn:He; [|done]. cbn [deref mbind res_bind].
    destruct (cy_cap b1 <? e + length data).
    + destruct (memcpy _ e _); simpl; try done. destruct (memcpy _ 0 _); simpl; try done. intros [= _ <-].
      unfold cycle_unused in *. simpl. by rewrite <- He.
    + destruct (memcpy _ _ _); simpl; try done. intros [= _ <-]. unfold cycle_unused in *. simpl. by rewrite <- He.
  - unfold cycle_pop. rewrite (cycle_unused_size b1 Hu), Nat.min_0_r. by right.
Qed.

End more_lemmas.

(** ** Properties *)

(** appending to a [DynamicBufferr] whose growth step is not 0 always
    succeeds and gives the concatenation, growing the memory when needed; any
    sequence of appends builds the concatenation of its arguments, and without
    head the text read back is the contents.  A growth step of 0 makes the
    growth of a full buffer endless. *)
Theorem dynamic_buffer_appends {byte} (zero : byte) fresh b datas :
  alloc_ok fresh → dyn_ok b → 0 < expand_size b →
  (∃ b', foldl (λ b data, b ← b; dyn_append zero fresh data b) (Ok b) datas = Ok b' ∧ dyn_ok b' ∧
     contents b' = contents b ++ concat datas ∧
     (head b = 0 → dyn_to_string b' = Ok (contents b'))) ∧
  (∀ fuel size, capacity b < size → grow fuel size 0 (capacity b) = NoFuel).
Proof.
  intros Hf Hb He. split.
  - revert b Hb He. induction datas as [|data datas IH]; intros b Hb He; simpl.
    + exists b. rewrite app_nil_r. split_and!; try done; try apply Hb. destruct Hb as [Hl Hs]. intros Hh.
      unfold dyn_to_string, memread. rewrite Hh, decide_True by lia. done.
    + destruct (append_ok zero fresh data b Hf Hb He) as (b1 & -> & Hb1 & Hc1 & Hh1 & He1).
      destruct (IH b1 Hb1) as (b2 & -> & Hb2 & Hc2 & Hr); [by rewrite He1|]. exists b2.
      split_and!; try done; try apply Hb2; [|by rewrite <- Hh1]. by rewrite Hc2, Hc1, <- app_assoc.
  - intros fuel size Hlt. unfold grow.
    apply (run_loop_diverges _ (λ n, n = capacity b)); [|done]. intros n ->. exists (capacity b + 0).
    destruct (Nat.ltb_spec (capacity b) size); [|lia]. split; [done|lia].
Qed.

(** an [fbuffer] is a queue of bytes over an array that is never reused:
    [append] adds at the end while the array has room behind the tail, [peak]
    drops bytes from the front, [length] and indexing see the contents.
    [shrink_to_fit] keeps the first bytes of the array instead of the contents. *)
Theorem fbuffer_spec {byte} N (b : fbuffer byte) data off :
  fb_ok N b →
  (∃ b', fb_append N (Some data) b = Ok (bool_decide (fb_tail b + length data ≤ N), b') ∧ fb_ok N b' ∧
     fb_contents b' = if decide (fb_tail b + length data ≤ N) then fb_contents b ++ data else fb_contents b) ∧
  (let '(r, b') := peak off b in
   fb_ok N b' ∧ (r = None ↔ length (fb_contents b) < off) ∧
   fb_contents b' = if decide (off ≤ length (fb_contents b)) then drop off (fb_contents b) else fb_contents b) ∧
  fb_length N b = length (fb_contents b) ∧
  (∀ i x, fb_contents b !! i = Some x → fb_at N i b = Ok x) ∧
  (∃ b', shrink_to_fit N b = Ok b' ∧ fb_ok N b' ∧ fb_contents b' = take (fb_length N b) (fb_data b)).
Proof.
  intros Hb. pose proof (fb_split N b Hb) as Hlen. pose proof Hb as (Hl & Hht & Ht).
  assert (Hlc : length (fb_contents b) = fb_tail b - fb_head b).
  { unfold fb_contents. rewrite length_drop, length_take. lia. }
  split_and!; [| |done| |].
  - unfold fb_append. destruct (Nat.ltb_spec (N - fb_tail b) (length data)) as [Hno|Hroom].
    + exists b. rewrite bool_decide_false, decide_False by lia. done.
    + unfold memcpy. rewrite decide_True by lia. cbn [mbind res_bind]. rewrite bool_decide_true, decide_True by lia.
      eexists. split; [reflexivity|]. unfold fb_ok, fb_contents. simpl. rewrite length_inserts. split; [lia|].
      rewrite take_list_inserts by lia. by rewrite drop_app_le by (rewrite length_take; lia).
  - unfold peak. destruct (Nat.ltb_spec (fb_tail b) (fb_head b + off)) as [Hno|Hok].
    + rewrite decide_False by lia. split; [done|]. split; [|done]. split; [lia|done].
    + rewrite decide_True by lia. split; [unfold fb_ok; simpl; lia|]. split; [split; [done|lia]|].
      unfold fb_contents. simpl. by rewrite drop_drop.
  - intros i x Hi. pose proof (lookup_lt_Some _ _ _ Hi) as Hlt. unfold fb_at.
    rewrite Nat.mod_small by lia. unfold fb_contents in Hi. rewrite lookup_drop, lookup_take_Some in Hi.
    by destruct Hi as [-> _].
  - unfold shrink_to_fit, memread. rewrite decide_True by lia. cbn [mbind res_bind]. rewrite drop_0.
    unfold memcpy. rewrite decide_True by (rewrite length_take; lia). cbn [mbind res_bind].
    eexists. split; [reflexivity|]. unfold fb_ok, fb_contents. simpl. rewrite length_inserts. split; [lia|].
    rewrite list_inserts_split by (rewrite length_take; lia). rewrite take_0, app_nil_l.
    apply take_app_length'. rewrite length_take. lia.
Qed.

(** a [buffer_t] never holds a byte: whatever is appended to, copied or
    moved from a default-constructed one, its capacity stays 0 and appending a
    non-empty block fails. *)
Theorem buffer_never_holds {byte} (b : buffer_t byte) data :
  rtc buffer_step buffer_create b → data ≠ [] →
  bt_cap b = 0 ∧ buffer_append data b = Ok (false, b).
Proof.
  intros Hr Hd.
  destruct (reachable_invariant (λ b, b = buffer_create) buffer_step (λ b : buffer_t byte, bt_cap b = 0 ∧ bt_size b = 0)
    ltac:(intros ? ->; by split) (λ b b' H S, buffer_step_empty b b' S H) b) as [Hc Hs]; [by exists buffer_create|].
  split; [done|]. unfold buffer_append. rewrite Hc. by destruct data.
Qed.

(** a [cycle_memory_block] never shows the data put into it: its size stays
    0 for every sequence of operations, and before the first [clear] an append
    that fits writes through the null pointer. *)
Theorem cycle_block_stays_empty {byte} (mem : list byte) b data :
  rtc cycle_step (cycle_create mem) b →
  cycle_size b = 0 ∧
  (length data ≤ length mem → cycle_append data (cycle_create mem) = Fault NullDeref).
Proof.
  intros Hr. split.
  - apply cycle_unused_size.
    apply (reachable_invariant (λ b, b = cycle_create mem) cycle_step cycle_unused).
    + intros ? ->. by left.
    + intros b1 b2 H S. by eapply cycle_step_unused.
    + by exists (cycle_create mem).
  - intros Hl. unfold cycle_append.
    destruct (Nat.ltb_spec (cy_cap (cycle_create mem) - cycle_size (cycle_create mem)) (length data)) as [H|H];
      [cbn in H; rewrite ?Nat.sub_0_r in H; lia|done].
Qed.

(** ** Witnesses *)

Definition zeros (n : nat) : list Z := replicate n 0%Z.

Lemma zeros_ok : alloc_ok zeros.
Proof. intros n. apply length_replicate. Qed.

Lemma dynamic_buffer_appends_witness :
  ∃ b', foldl (λ b data, b ← b; dyn_append 0%Z zeros data b) (Ok dyn_create) [[1; 2]; [3]]%Z = Ok b' ∧
    contents b' = [1; 2; 3]%Z.
Proof.
  destruct (proj1 (dynamic_buffer_appends 0%Z zeros dyn_create [[1; 2]; [3]]%Z zeros_ok ltac:(done)
    ltac:(simpl; lia))) as (b' & Hb & _ & Hc & _).
  exists b'. split; [exact Hb|exact Hc].
Defined.

Lemma fbuffer_spec_witness :
  (peak 1 (Fbuf [7; 8; 9; 0]%Z 0 3)).2 = Fbuf [7; 8; 9; 0]%Z 1 3 ∧
  ∃ b', shrink_to_fit 4 (Fbuf [7; 8; 9; 0]%Z 1 3) = Ok b' ∧ fb_contents b' = [7; 8]%Z ∧
    fb_contents (Fbuf [7; 8; 9; 0]%Z 1 3) = [8; 9]%Z.
Proof.
  split; [reflexivity|].
  destruct (fbuffer_spec 4 (Fbuf [7; 8; 9; 0]%Z 1 3) [] 0) as (_ & _ & _ & _ & b' & Hb & _ & Hc).
  - unfold fb_ok. simpl. lia.
  - exists b'. split; [exact Hb|]. split; [exact Hc|reflexivity].
Defined.

Lemma buffer_never_holds_witness : buffer_append [1%Z] buffer_create = Ok (false, buffer_create).
Proof. apply (buffer_never_holds buffer_create [1%Z]); [apply rtc_refl|discriminate]. Defined.

Lemma cycle_block_stays_empty_witness :
  ∃ b, cycle_append [5%Z] (cycle_clear (cycle_create (zeros 8))) = Ok (true, b) ∧ cycle_size b = 0.
Proof.
  eexists. split; [reflexivity|].
  refine (proj1 (cycle_block_stays_empty (zeros 8) _ [] _)).
  apply (rtc_l _ _ (cycle_clear (cycle_create (zeros 8)))); [apply cs_clear|].
  apply rtc_once. by apply (cs_append [5%Z] _ _ true).
Defined.
