(* ===== verification/Shm.v ===== *)
(** * A file mapped into memory (basic/fixed_shm.h)

    The backing file is a parameter of the state: whether it exists and its
    bytes.  What [::open] and [mmap] return is an argument. *)

From S2P Require Import Prelude.
Local Open Scope Z_scope.

(** ** Data *)

(** [data_]: null, the result of a failed [mmap], or the address of the mapped
    bytes, as many as [size_]. *)
Inductive mapping := MNull | MFailed | MBytes (m : list Z).

(** [file]: the length of the file when it exists; [closed]: the descriptors
    given to [::close], in order. *)
Record fixed_shm := Shm {
  size_ : Z; data_ : mapping; fd_ : Z; file : option Z; closed : list Z
}.

Definition shm_create (size : Z) (file : option Z) : fixed_shm := Shm size MNull (-1) file [].

(** ** Operations *)

(** [open()]: an existing file is taken as it is, a new one gets its last byte. *)
Definition shm_open (fd : Z) (s : fixed_shm) : bool * fixed_shm :=
  if negb (fd_ s =? -1) then (false, s)
  else
    let do_fill := bool_decide (is_Some (file s)) in
    if fd <? 0 then (false, Shm (size_ s) (data_ s) fd (file s) (closed s))
    else
      let len := default 0 (file s) in
      let len := if negb do_fill && (0 <? size_ s) then size_ s else len in
      (true, Shm (size_ s) (data_ s) fd (Some len) (closed s)).

(** [touch_pages]: one byte of every page; there is nothing behind the last
    page that holds a byte of the file. *)
Definition touch_pages (page : Z) (len size : Z) : res unit :=
  let pages := (size + page - 1) / page in
  if bool_decide (pages * page ≤ (len + page - 1) / page * page) then mret tt else Fault OutOfBounds.

(** [map()]: [None] when [mmap] fails, else the bytes it shows; the result is
    stored before it is tested. *)
Definition shm_map (page : Z) (bytes : option (list Z)) (s : fixed_shm) : res (bool * fixed_shm) :=
  match bytes with
  | None => mret (false, Shm (size_ s) MFailed (fd_ s) (file s) (closed s))
  | Some m =>
      _ ← touch_pages page (default 0 (file s)) (size_ s);
      mret (true, Shm (size_ s) (MBytes m) (fd_ s) (file s) (closed s))
  end.

(** [unmap()]: [ok] tells whether [munmap] succeeds, which it cannot with the
    result of a failed [mmap]. *)
Definition shm_unmap (ok : bool) (s : fixed_shm) : fixed_shm :=
  match data_ s with
  | MBytes _ => if ok then Shm (size_ s) MNull (fd_ s) (file s) (closed s) else s
  | MFailed | MNull => s
  end.

(** [close()]; the destructor calls it too. *)
Definition shm_close (ok : bool) (s : fixed_shm) : fixed_shm :=
  let s := shm_unmap ok s in
  if negb (fd_ s =? -1) then Shm (size_ s) (data_ s) (fd_ s) (file s) (closed s ++ [fd_ s]) else s.

(** [memmove] between the mapping and memory of the caller. *)
Definition shm_copy_in (off : Z) (data : list Z) (m : list Z) : res (list Z) :=
  if bool_decide (off + Z.of_nat (length data) ≤ Z.of_nat (length m))
  then memcpy m (Z.to_nat off) data else Fault OutOfBounds.

Definition shm_copy_out (off n : Z) (m : list Z) : res (list Z) :=
  if bool_decide (off + n ≤ Z.of_nat (length m))
  then memread m (Z.to_nat off) (Z.to_nat n) else Fault OutOfBounds.

(** [writeto]: offsets and sizes are [uint64_t], the result is an [int]. *)
Definition writeto (offset : Z) (data : list Z) (s : fixed_shm) : res (Z * fixed_shm) :=
  match data_ s with
  | MNull => mret (-1, s)
  | MFailed => if wrap 64 (size_ s - offset) <? Z.of_nat (length data) then mret (-1, s) else Fault OutOfBounds
  | MBytes m =>
      if wrap 64 (size_ s - offset) <? Z.of_nat (length data) then mret (-1, s)
      else
        m ← shm_copy_in offset data m;
        mret (swrap 32 (Z.of_nat (length data)), Shm (size_ s) (MBytes m) (fd_ s) (file s) (closed s))
  end.

(** [readfrom]: the result and the bytes copied to the caller.  The first test
    always holds, also with a pointer that is not one. *)
Definition readfrom (offset n : Z) (s : fixed_shm) : res (Z * list Z) :=
  match data_ s with
  | MNull => mret (-1, [])
  | MFailed => Fault OutOfBounds
  | MBytes m =>
      if 0 <=? wrap 64 (wrap 64 (size_ s - offset) - n) then
        d ← shm_copy_out offset n m; mret (swrap 32 n, d)
      else if (offset <? size_ s) && (wrap 64 (size_ s - offset) <? n) then
        let k := wrap 64 (size_ s - offset) in
        d ← shm_copy_out offset k m; mret (swrap 32 k, d)
      else mret (-1, [])
  end.

(** The move constructor and the move assignment: the new object (or the one
    assigned to) and what is left of the other; neither unmaps or closes
    anything. *)
Definition shm_move (rhs : fixed_shm) : fixed_shm * fixed_shm :=
  (Shm (size_ rhs) (data_ rhs) (fd_ rhs) (file rhs) [], Shm (size_ rhs) MNull (-1) (file rhs) (closed rhs)).
Definition shm_move_assign (s rhs : fixed_shm) : fixed_shm * fixed_shm :=
  (Shm (size_ rhs) (data_ rhs) (fd_ rhs) (file rhs) (closed s),
   Shm (size_ rhs) MNull (-1) (file rhs) (closed rhs)).

(** The destructor: the bytes that [fsync] writes, and the object after
    [close]. *)
Definition shm_destroy (ok : bool) (s : fixed_shm) : mapping * fixed_shm := (data_ s, shm_close ok s).

(** ** Specification *)

(** A mapping of [size_] bytes. *)
Definition mapped (s : fixed_shm) (m : list Z) : Prop :=
  data_ s = MBytes m ∧ Z.of_nat (length m) = size_ s ∧ 0 ≤ size_ s < 2 ^ 63.

(** ** Lemmas *)

Lemma writeto_inside s m offset data :
  mapped s m → 0 ≤ offset → offset + Z.of_nat (length data) ≤ size_ s →
  ∃ m', writeto offset data s = Ok (swrap 32 (Z.of_nat (length data)), Shm (size_ s) (MBytes m') (fd_ s) (file s) (closed s)) ∧
    m' = take (Z.to_nat offset) m ++ data ++ drop (Z.to_nat offset + length data) m.
Proof.
  intros (Hd & Hl & Hs) Ho He. unfold writeto, shm_copy_in. rewrite Hd, wrap_small by lia.
  destruct (Z.ltb_spec (size_ s - offset) (Z.of_nat (length data))); [lia|].
  rewrite bool_decide_true by lia. unfold memcpy. rewrite decide_True by lia. cbn [mbind res_bind mret res_ret].
  eexists. split; [reflexivity|]. by rewrite list_inserts_split by lia.
Qed.

Lemma readfrom_any s m offset n :
  mapped s m → 0 ≤ offset → 0 ≤ n →
  readfrom offset n s =
    if bool_decide (offset + n ≤ size_ s)
    then Ok (swrap 32 n, take (Z.to_nat n) (drop (Z.to_nat offset) m)) else Fault OutOfBounds.
Proof.
  intros (Hd & Hl & Hs) Ho Hn. unfold readfrom, shm_copy_out. rewrite Hd.
  destruct (Z.leb_spec 0 (wrap 64 (wrap 64 (size_ s - offset) - n))) as [_|H].
  - rewrite Hl. case_bool_decide; [|done]. unfold memread. by rewrite decide_True by lia.
  - unfold wrap in H. lia.
Qed.

Lemma shm_close_fields ok s :
  fd_ (shm_close ok s) = fd_ s ∧
  closed (shm_close ok s) = closed s ++ (if fd_ s =? -1 then [] else [fd_ s]).
Proof.
  assert (H : fd_ (shm_unmap ok s) = fd_ s ∧ closed (shm_unmap ok s) = closed s).
  { unfold shm_unmap. destruct (data_ s), ok; done. }
  destruct H as [Hf Hc]. unfold shm_close. rewrite Hf. destruct (fd_ s =? -1); cbn [negb fd_ closed].
  - by rewrite app_nil_r, Hc.
  - by rewrite Hc.
Qed.

(** ** Properties *)

(** what is written inside the mapping is read back, and the bytes around
    it do not change. *)
Theorem shm_roundtrip s m offset data :
  mapped s m → 0 ≤ offset → offset + Z.of_nat (length data) ≤ size_ s →
  ∃ s' m', writeto offset data s = Ok (swrap 32 (Z.of_nat (length data)), s') ∧ mapped s' m' ∧
    readfrom offset (Z.of_nat (length data)) s' = Ok (swrap 32 (Z.of_nat (length data)), data) ∧
    ∀ i, (i < Z.to_nat offset ∨ Z.to_nat offset + length data ≤ i)%nat → m' !! i = m !! i.
Proof.
  intros Hm Ho He. destruct (writeto_inside s m offset data Hm Ho He) as (m' & -> & Heq).
  pose proof Hm as (Hd & Hl & Hs).
  assert (Hlen : length m' = length m).
  { rewrite Heq, !length_app, length_take, length_drop. lia. }
  eexists _, m'. split; [reflexivity|]. split; [|split].
  - unfold mapped. simpl. by rewrite Hlen.
  - rewrite (readfrom_any _ m'); [|unfold mapped; simpl; by rewrite Hlen|done|lia]. simpl.
    rewrite bool_decide_true by lia. do 2 f_equal. rewrite Nat2Z.id, Heq.
    rewrite drop_app_length' by (rewrite length_take; lia). by rewrite take_app_length.
  - intros i Hi. rewrite Heq. destruct Hi as [Hi|Hi].
    + rewrite lookup_app_l by (rewrite length_take; lia). by rewrite lookup_take_lt.
    + rewrite app_assoc, lookup_app_r by (rewrite length_app, length_take; lia).
      rewrite length_app, length_take, lookup_drop. f_equal. lia.
Qed.

(** neither bound check works: [readfrom] copies whenever the object is
    mapped and so reads outside for every range that is not inside, the partial
    read of its second branch being unreachable; [writeto] lets every short
    enough block with an offset beyond the end through. *)
Theorem shm_bounds s m offset :
  mapped s m → 0 ≤ offset < 2 ^ 63 →
  (∀ n, 0 ≤ n → size_ s < offset + n → readfrom offset n s = Fault OutOfBounds) ∧
  (∀ data, size_ s < offset → Z.of_nat (length data) < 2 ^ 62 → writeto offset data s = Fault OutOfBounds) ∧
  (∀ data, offset ≤ size_ s → size_ s < offset + Z.of_nat (length data) → writeto offset data s = Ok (-1, s)).
Proof.
  intros Hm Ho. pose proof Hm as (Hd & Hl & Hs). split_and!.
  - intros n Hn Hout. rewrite (readfrom_any s m) by (done || lia). by rewrite bool_decide_false by lia.
  - intros data Hout Hlen. unfold writeto, shm_copy_in. rewrite Hd.
    destruct (Z.ltb_spec (wrap 64 (size_ s - offset)) (Z.of_nat (length data))) as [H|_]; [unfold wrap in H; lia|].
    by rewrite bool_decide_false by lia.
  - intros data Hin Hout. unfold writeto. rewrite Hd, wrap_small by lia.
    destruct (Z.ltb_spec (size_ s - offset) (Z.of_nat (length data))); [done|lia].
Qed.

(** a closed object cannot be opened again and every further [close], the
    destructor's included, closes the same descriptor once more; an existing
    file shorter than the pages of the mapping makes [map] touch memory behind
    its end, a new file never does. *)
Theorem shm_lifecycle s fd page m :
  fd_ s = -1 → 0 ≤ fd → 0 < page → 0 < size_ s →
  let '(ok, s1) := shm_open fd s in
  ok = true ∧ fd_ s1 = fd ∧
  (∀ fd', shm_open fd' (shm_close true s1) = (false, shm_close true s1)) ∧
  closed (shm_close true (shm_close true s1)) = closed s ++ [fd; fd] ∧
  (file s = None → ∃ s2, shm_map page (Some m) s1 = Ok (true, s2)) ∧
  (∀ len, file s = Some len → (len + page - 1) / page < (size_ s + page - 1) / page →
     shm_map page (Some m) s1 = Fault OutOfBounds).
Proof.
  intros Hfd Hf Hp Hsz. unfold shm_open. rewrite Hfd. simpl. destruct (Z.ltb_spec fd 0); [lia|].
  assert (Hne : (fd =? -1) = false) by (apply Z.eqb_neq; lia).
  split; [done|]. split; [done|]. split_and!.
  - intros fd'. rewrite (proj1 (shm_close_fields _ _)). cbn [fd_]. by rewrite Hne.
  - destruct (shm_close_fields true (Shm (size_ s) (data_ s) fd (Some
      (if negb (bool_decide (is_Some (file s))) && (0 <? size_ s) then size_ s else default 0 (file s))) (closed s)))
      as [Hf1 Hc1].
    rewrite (proj2 (shm_close_fields _ _)), Hf1, Hc1. cbn [fd_ closed]. by rewrite Hne, <- app_assoc.
  - intros Hno. rewrite Hno. simpl. destruct (Z.ltb_spec 0 (size_ s)); [|lia]. simpl.
    unfold shm_map, touch_pages. simpl. rewrite bool_decide_true by lia. by eexists.
  - intros len Hlen Hlt. rewrite Hlen. simpl. unfold shm_map, touch_pages. simpl.
    rewrite bool_decide_false; [done|]. apply Z.lt_nge. by apply Z.mul_lt_mono_pos_r.
Qed.

(** after a move one of the two objects has the mapping, and destroying both
    closes the descriptor once; a move assignment forgets the mapping and the
    descriptor that the object had, which nothing closes afterwards; and a
    failed [map] leaves a pointer with which every read and every write that
    passes the size check is outside. *)
Theorem shm_moves s rhs page m :
  data_ rhs = MBytes m → 0 ≤ fd_ s → 0 ≤ fd_ rhs → fd_ s ≠ fd_ rhs →
  closed s = [] → closed rhs = [] →
  (let '(new, old) := shm_move rhs in
   data_ new = MBytes m ∧
   closed (shm_destroy true new).2 ++ closed (shm_destroy true old).2 = [fd_ rhs]) ∧
  (let '(this, old) := shm_move_assign s rhs in
   data_ this = MBytes m ∧
   fd_ s ∉ closed (shm_destroy true this).2 ++ closed (shm_destroy true old).2) ∧
  (∃ s', shm_map page None s = Ok (false, s') ∧
    (∀ off n, 0 ≤ n → readfrom off n s' = Fault OutOfBounds) ∧
    ∀ off data, Z.of_nat (length data) ≤ wrap 64 (size_ s - off) → writeto off data s' = Fault OutOfBounds).
Proof.
  intros Hd Hs Hr Hne Hcs Hcr. unfold shm_destroy. cbn [shm_move shm_move_assign snd].
  assert (Hs1 : (fd_ s =? -1) = false) by (apply Z.eqb_neq; lia).
  assert (Hr1 : (fd_ rhs =? -1) = false) by (apply Z.eqb_neq; lia). split_and!.
  - done.
  - rewrite !(proj2 (shm_close_fields _ _)). cbn [fd_ closed]. by rewrite Hr1, Hcr.
  - done.
  - rewrite !(proj2 (shm_close_fields _ _)). cbn [fd_ closed]. rewrite Hr1, Hcr, Hcs. cbn. set_solver.
  - eexists. split; [reflexivity|]. split; [done|]. intros off data Hw. unfold writeto. cbn [data_ size_].
    by rewrite (proj2 (Z.ltb_ge _ _)).
Qed.

(** ** Witnesses *)

Definition demo_shm : fixed_shm := Shm 4 (MBytes [0; 0; 0; 0]) 3 (Some 4) [].

Lemma demo_mapped : mapped demo_shm [0; 0; 0; 0].
Proof. unfold mapped. simpl. split; [reflexivity|]. split; [reflexivity|lia]. Qed.

Lemma shm_roundtrip_witness :
  ∃ s', writeto 1 [7; 8] demo_shm = Ok (2, s') ∧ readfrom 1 2 s' = Ok (2, [7; 8]).
Proof.
  destruct (shm_roundtrip demo_shm [0; 0; 0; 0] 1 [7; 8] demo_mapped ltac:(lia) ltac:(simpl; lia))
    as (s' & m' & Hw & _ & Hr & _). by exists s'.
Defined.

Lemma shm_bounds_witness : readfrom 2 4 demo_shm = Fault OutOfBounds ∧ writeto 5 [1] demo_shm = Fault OutOfBounds.
Proof.
  split.
  - apply (proj1 (shm_bounds demo_shm [0; 0; 0; 0] 2 demo_mapped ltac:(lia)) 4); [lia|reflexivity].
  - apply (proj1 (proj2 (shm_bounds demo_shm [0; 0; 0; 0] 5 demo_mapped ltac:(lia))) [1]); reflexivity.
Defined.

Lemma shm_lifecycle_witness :
  closed (shm_close true (shm_close true (shm_open 5 (shm_create 4096 None)).2)) = [5; 5].
Proof.
  apply (shm_lifecycle (shm_create 4096 None) 5 4096 [] eq_refl); [lia | lia | reflexivity].
Defined.

Lemma shm_moves_witness :
  closed (shm_destroy true (shm_move demo_shm).1).2 ++ closed (shm_destroy true (shm_move demo_shm).2).2 = [3].
Proof.
  apply (shm_moves (Shm 8 MNull 5 None []) demo_shm 4096 [0; 0; 0; 0] eq_refl);
    [cbn; lia | cbn; lia | cbn; lia | reflexivity | reflexivity].
Defined.
