(* ===== verification/LockFree.v ===== *)
(** * Lock-free code: the array queue (basic/lock_free_array.h) and the spin
      lock (core/spinlock.h)

    First the array used by one thread, with sizes that are powers of two and with
    those that it accepts, then both objects with any number of threads, where every load, store and atomic instruction is one step.  The
    counters of the array are numbers: [2^64] operations are out of reach. *)

From S2P Require Import Prelude Ringbuffer Fifo NgxQueue.
Local Open Scope nat_scope.

(** ** The array *)

Record lfa (A : Type) := Lfa {
  write_index : nat; read_index : nat; max_num_read_index : nat; queue_ : list A
}.
Arguments Lfa {A}.
Arguments write_index {A}.
Arguments read_index {A}.
Arguments max_num_read_index {A}.
Arguments queue_ {A}.

(** The condition of the [static_assert]. *)
Definition lfa_accepted (N : nat) : bool := negb (Nat.land N (N - 1) =? 0).

Section lfa.
Context {A : Type} (N : nat).
Implicit Types s : lfa A.

Definition lfa_create (garbage : list A) : lfa A := Lfa 0 0 0 garbage.

Definition index (c : nat) : nat := Nat.land c (N - 1).

(** [push] in one thread; the last loop spins for ever when the counter of the
    published elements is not the ticket. *)
Definition lfa_push (x : A) s : res (bool * lfa A) :=
  let w := write_index s in
  if index (w + 1) =? index (read_index s) then mret (false, s)
  else
    q ← (if decide (index w < length (queue_ s)) then mret (<[index w := x]> (queue_ s))
         else Fault OutOfBounds);
    if max_num_read_index s =? w then mret (true, Lfa (w + 1) (read_index s) (w + 1) q)
    else NoFuel.

Definition lfa_empty s : bool := read_index s =? write_index s.

Definition lfa_try_pop s : res (option A * lfa A) :=
  if lfa_empty s then mret (None, s)
  else
    let r := read_index s in
    x ← deref OutOfBounds (queue_ s !! index r);
    mret (Some x, Lfa (write_index s) (r + 1) (max_num_read_index s) (queue_ s)).

(** [pop]: a round of its loop. *)
Definition lfa_pop (fuel : nat) s : res (A * lfa A) :=
  run_loop fuel (λ s,
    '(o, s) ← lfa_try_pop s;
    mret (match o with Some x => inr (x, s) | None => inl s end)) s.

Definition lfa_size s : nat := Nat.land (write_index s - read_index s + N) (N - 1).

Definition lfa_full s : res bool :=
  let n := lfa_size s in
  if n =? 0 then Fault DivByZero else mret ((write_index s + 1) mod n =? read_index s).

(** The elements from [read_index] on. *)
Record lfa_rep s (l : list A) : Prop := {
  lr_len : length (queue_ s) = N;
  lr_count : write_index s = read_index s + length l ∧ length l < N;
  lr_max : max_num_read_index s = write_index s;
  lr_at i x : l !! i = Some x → queue_ s !! ((read_index s + i) mod N) = Some x
}.

Definition lfa_fifo : FifoOps (lfa A) A := {|
  fifo_push := lfa_push;
  fifo_pop := lfa_try_pop;
  fifo_rep := lfa_rep;
  fifo_cap _ := N - 1
|}.

(** *** Any number of producers and consumers *)

(** Where a thread is in [push] or [try_pop]. *)
Inductive lfa_pc :=
| LIdle
| PWriteLoaded (x : A) (w : nat)          (* write_index loaded *)
| PReadLoaded (x : A) (w r : nat)         (* read_index loaded *)
| PClaimed (x : A) (w : nat)              (* compare-and-swap of write_index done *)
| PWritten (x : A) (w : nat)              (* slot written, not yet published *)
| CNonEmpty                               (* the test of empty() passed *)
| CReadLoaded (r : nat)                   (* read_index loaded *)
| CTaken (x : A) (r : nat).               (* slot read *)

(** The array, the threads, and the elements that [try_pop] returned. *)
Record mpmc := Mpmc { arr : lfa A; threads : list lfa_pc; taken : list A }.

Definition set_pc (i : nat) (pc : lfa_pc) (a : lfa A) (m : mpmc) : mpmc :=
  Mpmc a (<[i := pc]> (threads m)) (taken m).

Inductive lfa_step : mpmc → mpmc → Prop :=
| ls_load_write i x m : threads m !! i = Some LIdle →
    lfa_step m (set_pc i (PWriteLoaded x (write_index (arr m))) (arr m) m)
| ls_load_read i x w m : threads m !! i = Some (PWriteLoaded x w) →
    lfa_step m (set_pc i (PReadLoaded x w (read_index (arr m))) (arr m) m)
| ls_full i x w r m : threads m !! i = Some (PReadLoaded x w r) → index (w + 1) = index r →
    lfa_step m (set_pc i LIdle (arr m) m)
| ls_claim i x w r m : threads m !! i = Some (PReadLoaded x w r) → index (w + 1) ≠ index r →
    write_index (arr m) = w →
    lfa_step m (set_pc i (PClaimed x w)
      (Lfa (w + 1) (read_index (arr m)) (max_num_read_index (arr m)) (queue_ (arr m))) m)
| ls_retry i x w r m : threads m !! i = Some (PReadLoaded x w r) → index (w + 1) ≠ index r →
    write_index (arr m) ≠ w →
    lfa_step m (set_pc i (PWriteLoaded x (write_index (arr m))) (arr m) m)
| ls_write i x w m : threads m !! i = Some (PClaimed x w) →
    lfa_step m (set_pc i (PWritten x w)
      (Lfa (write_index (arr m)) (read_index (arr m)) (max_num_read_index (arr m))
         (<[index w := x]> (queue_ (arr m)))) m)
| ls_publish i x w m : threads m !! i = Some (PWritten x w) → max_num_read_index (arr m) = w →
    lfa_step m (set_pc i LIdle (Lfa (write_index (arr m)) (read_index (arr m)) (w + 1) (queue_ (arr m))) m)
| ls_nonempty i m : threads m !! i = Some LIdle → lfa_empty (arr m) = false →
    lfa_step m (set_pc i CNonEmpty (arr m) m)
| ls_cload i m : threads m !! i = Some CNonEmpty →
    lfa_step m (set_pc i (CReadLoaded (read_index (arr m))) (arr m) m)
| ls_cread i r x m : threads m !! i = Some (CReadLoaded r) → queue_ (arr m) !! index r = Some x →
    lfa_step m (set_pc i (CTaken x r) (arr m) m)
| ls_cas i x r m : threads m !! i = Some (CTaken x r) → read_index (arr m) = r →
    lfa_step m (Mpmc (Lfa (write_index (arr m)) (r + 1) (max_num_read_index (arr m)) (queue_ (arr m)))
      (<[i := LIdle]> (threads m)) (taken m ++ [x]))
| ls_cas_fail i x r m : threads m !! i = Some (CTaken x r) → read_index (arr m) ≠ r →
    lfa_step m (set_pc i LIdle (arr m) m).

Definition lfa_init (garbage : list A) (n : nat) (m : mpmc) : Prop :=
  m = Mpmc (lfa_create garbage) (replicate n LIdle) [].

End lfa.
Arguments lfa_pc : clear implicits.
Arguments mpmc : clear implicits.

(** ** The spin lock *)

Section spin.

(** [flag_], and which threads are between [lock] and [unlock]. *)
Record spin := Spin { flag : bool; inside : list bool }.

(** [test_and_set]: the previous value and the new state. *)
Definition test_and_set (s : spin) : bool * spin := (flag s, Spin true (inside s)).

(** One round of the loop of [lock], and [try_lock]: [true] when acquired. *)
Definition spin_try_lock (i : nat) (s : spin) : bool * spin :=
  let '(old, s) := test_and_set s in
  if old then (false, s) else (true, Spin (flag s) (<[i := true]> (inside s))).

Definition spin_unlock (i : nat) (s : spin) : spin := Spin false (<[i := false]> (inside s)).

(** A thread outside tries, a thread inside leaves. *)
Inductive spin_step : spin → spin → Prop :=
| spin_try i s : inside s !! i = Some false → spin_step s (spin_try_lock i s).2
| spin_leave i s : inside s !! i = Some true → spin_step s (spin_unlock i s).

Definition spin_init (s : spin) : Prop := ∃ n, s = Spin false (replicate n false).

End spin.

(** ** Lemmas *)

(** *** Replacing one thread *)

Section replace.
Context {X B : Type} (f : X → option B).

Lemma omap_insert_perm (l : list X) i x y :
  l !! i = Some x → option_list (f x) ++ omap f (<[i := y]> l) ≡ₚ option_list (f y) ++ omap f l.
Proof using.
  intros Hi. pose proof (lookup_lt_Some _ _ _ Hi) as Hlt.
  rewrite (insert_take_drop l i y Hlt). rewrite <- (take_drop_middle l i x Hi) at 3.
  rewrite !omap_app. cbn [omap list_omap]. destruct (f x) as [bx|], (f y) as [by_|]; simpl; solve_Permutation.
Qed.

Lemma omap_insert_same (l : list X) i x y :
  l !! i = Some x → f x = f y → omap f (<[i := y]> l) = omap f l.
Proof using.
  intros Hi Hf. pose proof (lookup_lt_Some _ _ _ Hi) as Hlt.
  rewrite (insert_take_drop l i y Hlt). rewrite <- (take_drop_middle l i x Hi) at 3.
  rewrite !omap_app. cbn [omap list_omap]. by rewrite Hf.
Qed.

End replace.

(** *** Indices *)

Lemma index_pow2 k c : index (2 ^ k) c = c mod 2 ^ k.
Proof.
  unfold index. replace (2 ^ k - 1) with (Nat.ones k) by (rewrite Nat.ones_equiv; lia). apply Nat.land_ones.
Qed.

Section fifo_lemmas.
Context {A : Type} (k : nat).
Local Abbreviation N := (2 ^ k).

Lemma pow2_pos : 0 < N.
Proof using. apply Nat.neq_0_lt_0, Nat.pow_nonzero. lia. Qed.

(** The fullness test on a queue that stands for [l]. *)
Lemma full_test (s : lfa A) l : lfa_rep N s l →
  (index N (write_index s + 1) =? index N (read_index s)) = bool_decide (S (length l) = N).
Proof using.
  intros [_ [Hw Hl] _ _]. rewrite !index_pow2, Hw. pose proof pow2_pos as Hp. case_bool_decide as Hf.
  - replace (read_index s + length l + 1) with (read_index s + 1 * N) by lia.
    rewrite Nat.Div0.mod_add. apply Nat.eqb_refl.
  - apply Nat.eqb_neq. intros E. replace (read_index s) with (read_index s + 0) in E at 2 by lia.
    rewrite <- Nat.add_assoc in E. apply mod_shift_inj in E; lia.
Qed.

Lemma push_rep (s : lfa A) l x : lfa_rep N s l → S (length l) < N →
  ∃ s', lfa_push N x s = Ok (true, s') ∧ lfa_rep N s' (l ++ [x]).
Proof using.
  intros H Hl. unfold lfa_push. rewrite (full_test s l H), bool_decide_false by lia.
  destruct H as [Hlen [Hw Hlt] Hm Hat]. pose proof pow2_pos as Hp.
  rewrite index_pow2, Hlen. pose proof (Nat.mod_upper_bound (write_index s) N ltac:(lia)).
  rewrite decide_True by done. cbn [mbind res_bind mret res_ret]. rewrite Hm, Nat.eqb_refl.
  eexists. split; [reflexivity|]. split; simpl.
  - by rewrite length_insert.
  - rewrite length_app. simpl. lia.
  - done.
  - intros i y Hy. rewrite Hw. destruct (decide (i < length l)) as [Hi|Hi].
    + rewrite lookup_app_l in Hy by done. rewrite list_lookup_insert_ne; [by apply Hat|].
      intros E. apply mod_shift_inj in E; lia.
    + pose proof (lookup_lt_Some _ _ _ Hy) as Hb. rewrite length_app in Hb. simpl in Hb.
      assert (i = length l) as -> by lia. rewrite lookup_app_r, Nat.sub_diag in Hy by done. simplify_eq/=.
      apply list_lookup_insert_eq. rewrite <- Hw. lia.
Qed.

Lemma pop_rep (s : lfa A) l : lfa_rep N s l →
  ∃ s', lfa_try_pop N s = Ok (head l, s') ∧ lfa_rep N s' (tail l).
Proof using.
  intros [Hlen [Hw Hlt] Hm Hat]. unfold lfa_try_pop, lfa_empty. rewrite Hw.
  destruct l as [|x l]; simpl in *.
  - rewrite Nat.add_0_r, Nat.eqb_refl. exists s. split; [done|]. split; simpl; try done; try lia.
  - destruct (Nat.eqb_spec (read_index s) (read_index s + S (length l))); [lia|].
    pose proof (Hat 0 x eq_refl) as H0. rewrite Nat.add_0_r in H0. rewrite index_pow2, H0.
    cbn [deref mbind res_bind mret res_ret]. eexists. split; [reflexivity|]. split; simpl; [done|lia|lia|].
    intros i y Hy. rewrite <- (Hat (S i) y Hy). do 2 f_equal. lia.
Qed.

Lemma lfa_fifo_laws : @FifoLaws _ _ (@lfa_fifo A N).
Proof using.
  split; simpl.
  - intros s l x H Hl. destruct (push_rep s l x H ltac:(lia)) as (s' & Hp & Hr). by exists s'.
  - intros s l H. destruct (pop_rep s l H) as (s' & Hp & Hr). by exists s'.
Qed.

Lemma lfa_create_rep (garbage : list A) : length garbage = N → lfa_rep N (lfa_create garbage) [].
Proof using. intros H. pose proof pow2_pos. split; simpl; [done|lia|done|]. intros i x Hi. done. Qed.

End fifo_lemmas.

(** *** Sizes that the array accepts *)

(** One thread: [Some x] pushes, [None] tries to pop; with the results. *)
Fixpoint lfa_run {A} (N : nat) (ops : list (option A)) (s : lfa A) : res (list (bool + option A) * lfa A) :=
  match ops with
  | [] => mret ([], s)
  | Some x :: ops => '(b, s) ← lfa_push N x s; '(os, s) ← lfa_run N ops s; mret (inl b :: os, s)
  | None :: ops => '(o, s) ← lfa_try_pop N s; '(os, s) ← lfa_run N ops s; mret (inr o :: os, s)
  end.

(** A mask that is not all ones has a zero bit below a one. *)
Lemma mask_hole M : (∀ k, M ≠ Nat.ones k) → ∃ b, Nat.testbit M b = false ∧ Nat.testbit M (S b) = true.
Proof.
  intros Hones. assert (Hz : M ≠ 0) by exact (Hones 0).
  destruct (decide (Exists (λ b, Nat.testbit M b = false ∧ Nat.testbit M (S b) = true) (seq 0 (Nat.log2 M)))) as [H|H].
  { apply Exists_exists in H as (b & _ & Hb). by exists b. }
  exfalso. assert (Hall : ∀ d, d ≤ Nat.log2 M → Nat.testbit M (Nat.log2 M - d) = true).
  { induction d as [|d IH]; intros Hd; [rewrite Nat.sub_0_r; by apply Nat.bit_log2|].
    destruct (Nat.testbit M (Nat.log2 M - S d)) eqn:E; [done|]. exfalso. apply H, Exists_exists.
    exists (Nat.log2 M - S d). split; [apply elem_of_seq; lia|]. split; [done|].
    replace (S (Nat.log2 M - S d)) with (Nat.log2 M - d) by lia. apply IH. lia. }
  apply (Hones (S (Nat.log2 M))), Nat.bits_inj. intros i. destruct (decide (i ≤ Nat.log2 M)) as [Hi|Hi].
  - rewrite Nat.ones_spec_low by lia. replace i with (Nat.log2 M - (Nat.log2 M - i)) by lia. apply Hall. lia.
  - rewrite Nat.ones_spec_high by lia. apply Nat.bits_above_log2. lia.
Qed.

Lemma accepted_hole N : 0 < N → lfa_accepted N = true →
  ∃ b, Nat.testbit (N - 1) b = false ∧ Nat.testbit (N - 1) (S b) = true.
Proof.
  intros Hp HN. apply mask_hole. intros k Hk. revert HN. unfold lfa_accepted. rewrite Hk.
  replace N with (2 ^ k).
  - rewrite Nat.land_ones, Nat.Div0.mod_same. done.
  - rewrite Nat.ones_equiv in Hk. pose proof (Nat.pow_nonzero 2 k). lia.
Qed.

Lemma index_lt N c : 0 < N → index N c < N.
Proof. intros HN. unfold index. pose proof (Nat.land_le_r c (N - 1)). lia. Qed.

Lemma index_bit N c b : Nat.testbit (index N c) b = Nat.testbit c b && Nat.testbit (N - 1) b.
Proof. apply Nat.land_spec. Qed.

Section sizes.
Context {A : Type} (N : nat) (HN : 0 < N) (x : nat → A).

Lemma push_accepted w r (q : list A) y : length q = N → index N (w + 1) ≠ index N r →
  lfa_push N y (Lfa w r w q) = Ok (true, Lfa (w + 1) r (w + 1) (<[index N w := y]> q)).
Proof using All.
  intros Hq Hf. unfold lfa_push. cbn [write_index read_index queue_ max_num_read_index].
  rewrite (proj2 (Nat.eqb_neq _ _) Hf), decide_True by (rewrite Hq; by apply index_lt).
  cbn [mbind res_bind mret res_ret]. by rewrite Nat.eqb_refl.
Qed.

Lemma pop_some w r mx (q : list A) y : r ≠ w → q !! index N r = Some y →
  lfa_try_pop N (Lfa w r mx q) = Ok (Some y, Lfa w (r + 1) mx q).
Proof using.
  intros Hr Hq. unfold lfa_try_pop, lfa_empty. cbn [write_index read_index queue_ max_num_read_index].
  by rewrite (proj2 (Nat.eqb_neq _ _) Hr), Hq.
Qed.

Lemma lfa_run_app ops ops' (s : lfa A) os s1 : lfa_run N ops s = Ok (os, s1) →
  lfa_run N (ops ++ ops') s = ('(os', s') ← lfa_run N ops' s1; mret (os ++ os', s')).
Proof using.
  revert s os. induction ops as [|[y|] ops IH]; intros s os H; simplify_eq/=.
  - by destruct (lfa_run N ops' s1) as [[? ?]| | |].
  - destruct (lfa_push N y s) as [[b s2]| | |]; simplify_eq/=.
    destruct (lfa_run N ops s2) as [[os2 s3]| | |] eqn:E; simplify_eq/=. rewrite (IH _ _ E).
    by destruct (lfa_run N ops' s1) as [[? ?]| | |].
  - destruct (lfa_try_pop N s) as [[b s2]| | |]; simplify_eq/=.
    destruct (lfa_run N ops s2) as [[os2 s3]| | |] eqn:E; simplify_eq/=. rewrite (IH _ _ E).
    by destruct (lfa_run N ops' s1) as [[? ?]| | |].
Qed.

(** An even size: elements that are pushed and popped one at a time. *)
Definition one_by_one (r : nat) : list (option A) := seq 0 r ≫= λ i, [Some (x i); None].

Lemma run_one_by_one r (q : list A) : Nat.testbit (N - 1) 0 = true → length q = N →
  ∃ q', lfa_run N (one_by_one r) (Lfa 0 0 0 q) = Ok (seq 0 r ≫= λ i, [inl true; inr (Some (x i))], Lfa r r r q') ∧
    length q' = N.
Proof using All.
  intros Hodd Hq. induction r as [|r (q' & IH & Hl)]; [by exists q|].
  unfold one_by_one in *. rewrite seq_S, !bind_app. cbn [Nat.add mbind list_bind app].
  rewrite (lfa_run_app _ _ _ _ _ IH). cbn [lfa_run].
  rewrite push_accepted by (done || (intros E%(f_equal (λ z, Nat.testbit z 0)); rewrite !index_bit, Hodd, !andb_true_r in E;
    rewrite !Nat.bit0_odd, Nat.add_1_r, Nat.odd_succ, <- Nat.negb_odd in E; by destruct (Nat.odd r))).
  cbn [mbind res_bind]. pose proof (index_lt N r HN).
  rewrite (pop_some _ _ _ _ (x r)) by (lia || apply list_lookup_insert_eq; lia).
  cbn [mbind res_bind mret res_ret]. rewrite Nat.add_1_r. eexists. split; [done|]. by rewrite length_insert.
Qed.

(** Elements that are pushed one after another while the test for a full array
    does not stop it. *)
Lemma run_pushes r m (q : list A) : length q = N →
  (∀ j, r < j ≤ r + m + 1 → index N j ≠ index N r) →
  ∃ q', lfa_run N ((λ i, Some (x i)) <$> seq r (S m)) (Lfa r r r q) =
      Ok (replicate (S m) (inl true), Lfa (r + m + 1) r (r + m + 1) q') ∧
    length q' = N ∧ q' !! index N r = Some (x r) ∧ q' !! index N (r + m) = Some (x (r + m)).
Proof using All.
  intros Hq. induction m as [|m IH]; intros Hj.
  - simpl. rewrite push_accepted by (done || apply Hj; lia). pose proof (index_lt N r HN). rewrite Nat.add_0_r.
    eexists. split; [done|]. rewrite length_insert. split; [done|]. split; apply list_lookup_insert_eq; lia.
  - destruct IH as (q' & Hrun & Hl & Hr & Hm); [intros j Hj'; apply Hj; lia|].
    rewrite seq_S, fmap_app, (lfa_run_app _ _ _ _ _ Hrun). cbn [fmap list_fmap lfa_run].
    rewrite push_accepted by (done || apply Hj; lia). cbn [mbind res_bind mret res_ret].
    replace (r + S m + 1) with (r + m + 1 + 1) by lia. replace (r + S m) with (r + m + 1) by lia.
    pose proof (index_lt N (r + m + 1) HN). eexists. split; [by rewrite (replicate_S_end (S m))|].
    rewrite length_insert. split; [done|]. split; [|apply list_lookup_insert_eq; lia].
    rewrite list_lookup_insert_ne; [done|]. apply Hj. lia.
Qed.

End sizes.

Lemma odd_mask N : 0 < N → Nat.odd N = false → Nat.testbit (N - 1) 0 = true.
Proof.
  intros Hp He. rewrite Nat.bit0_odd. destruct N as [|n]; [lia|]. rewrite Nat.sub_succ, Nat.sub_0_r.
  rewrite Nat.odd_succ, <- Nat.negb_odd in He. by destruct (Nat.odd n).
Qed.

Lemma even_mask N : Nat.odd N = true → Nat.testbit (N - 1) 0 = false.
Proof.
  intros Ho. rewrite Nat.bit0_odd. destruct N as [|n]; [done|]. rewrite Nat.sub_succ, Nat.sub_0_r.
  rewrite Nat.odd_succ, <- Nat.negb_odd in Ho. by destruct (Nat.odd n).
Qed.

Lemma push_refused {A} N y (g : list A) : Nat.testbit (N - 1) 0 = false →
  lfa_push N y (lfa_create g) = Ok (false, lfa_create g).
Proof.
  intros H. unfold lfa_push, lfa_create. cbn [write_index read_index].
  assert (index N (0 + 1) = index N 0) as ->; [|by rewrite Nat.eqb_refl].
  apply Nat.bits_inj. intros i. rewrite !index_bit. change (0 + 1) with (2 ^ 0).
  rewrite Nat.bits_0, Nat.pow2_bits_eqb. destruct (Nat.eqb_spec 0 i) as [<-|]; [by rewrite H|done].
Qed.

Lemma pow_ge b : 1 ≤ b → 2 ≤ 2 ^ b.
Proof. intros Hb. pose proof (Nat.pow_le_mono_r 2 1 b ltac:(lia) Hb). simpl in *. lia. Qed.

(** Places on both sides of a bit of the mask. *)
Lemma index_differs N b j r : Nat.testbit (N - 1) (S b) = true →
  2 ^ S b ≤ j < 2 ^ S b + 2 ^ S b → r < 2 ^ S b → index N j ≠ index N r.
Proof.
  intros Hb Hj Hr E%(f_equal (λ z, Nat.testbit z (S b))). rewrite !index_bit, Hb, !andb_true_r in E.
  rewrite (proj2 (Nat.testbit_true j (S b))), (proj2 (Nat.testbit_false r (S b))) in E; [done| |].
  - by rewrite (Nat.div_small _ _ Hr).
  - assert (j / 2 ^ S b = 1) as ->; [|done]. symmetry. apply (Nat.div_unique j (2 ^ S b) 1 (j - 2 ^ S b)); lia.
Qed.

(** A place that differs in a zero bit of the mask. *)
Lemma index_same N b : Nat.testbit (N - 1) b = false → index N (2 ^ S b + 2 ^ b) = index N (2 ^ S b).
Proof.
  intros Hb. assert (Hl : Nat.land (2 ^ S b) (2 ^ b) = 0).
  { apply Nat.bits_inj. intros i. rewrite Nat.land_spec, !Nat.pow2_bits_eqb, Nat.bits_0.
    destruct (Nat.eqb_spec (S b) i), (Nat.eqb_spec b i); try done. lia. }
  rewrite (Nat.add_nocarry_lxor _ _ Hl). apply Nat.bits_inj. intros i.
  rewrite !index_bit, Nat.lxor_spec, !Nat.pow2_bits_eqb.
  destruct (Nat.eqb_spec b i) as [<-|]; [by rewrite Hb, !andb_false_r|by rewrite xorb_false_r].
Qed.

(** *** Runs *)

Section runs.
Context {A : Type} (k : nat) (Hk : 1 ≤ k).
Local Abbreviation N := (2 ^ k).

Lemma two_le_pow : 2 ≤ N.
Proof using Hk. pose proof (Nat.pow_le_mono_r 2 1 k ltac:(lia) Hk). simpl in *. lia. Qed.

Lemma index_01 : index N 0 = 0 ∧ index N 1 = 1.
Proof using Hk. pose proof two_le_pow. rewrite !index_pow2. split; apply Nat.mod_small; lia. Qed.

(** The first thread claims the first slot, and publishes it. *)
Lemma run_claim (garbage : list A) ts x :
  rtc (lfa_step N) (Mpmc (lfa_create garbage) (LIdle :: ts) [])
    (Mpmc (Lfa 1 0 0 garbage) (PClaimed x 0 :: ts) []).
Proof using Hk.
  destruct index_01 as [H0 H1]. eapply rtc_l; [by apply (ls_load_write N 0 x)|].
  eapply rtc_l; [by apply (ls_load_read N 0 x 0)|]. apply rtc_once.
  refine (ls_claim N 0 x 0 0 _ _ _ _); simpl; try done. by rewrite H0, H1.
Qed.

Lemma run_publish (g : A) gs ts x :
  rtc (lfa_step N) (Mpmc (Lfa 1 0 0 (g :: gs)) (PClaimed x 0 :: ts) [])
    (Mpmc (Lfa 1 0 1 (x :: gs)) (LIdle :: ts) []).
Proof using Hk.
  destruct index_01 as [H0 H1]. eapply rtc_l; [by apply (ls_write N 0 x 0)|].
  unfold set_pc. cbn [arr queue_ write_index read_index max_num_read_index threads taken]. rewrite H0. apply rtc_once.
  refine (ls_publish N 0 x 0 _ _ _); done.
Qed.

(** A consumer that has passed the test takes the element at [read_index]. *)
Lemma run_take i (q : list A) ts w r mx tk x :
  ts !! i = Some CNonEmpty → q !! index N r = Some x →
  rtc (lfa_step N) (Mpmc (Lfa w r mx q) ts tk) (Mpmc (Lfa w (r + 1) mx q) (<[i := LIdle]> ts) (tk ++ [x])).
Proof using.
  intros Hi Hq. pose proof (lookup_lt_Some _ _ _ Hi) as Hlt.
  eapply rtc_l; [by apply (ls_cload N i)|].
  eapply rtc_l; [apply (ls_cread N i r x); simpl; [by rewrite list_lookup_insert_eq|done]|].
  unfold set_pc. simpl. rewrite list_insert_insert_eq. apply rtc_once.
  replace (<[i:=LIdle]> ts) with (<[i := LIdle]> (<[i := CTaken x r]> ts)) by apply list_insert_insert_eq.
  apply (ls_cas N i x r (Mpmc (Lfa w r mx q) (<[i := CTaken x r]> ts) tk)); simpl; [by rewrite list_lookup_insert_eq|done].
Qed.

End runs.

(** *** The lock *)

Definition spin_ok (s : spin) : Prop :=
  if flag s then ∃ i, inside s !! i = Some true ∧ ∀ j, inside s !! j = Some true → j = i
  else ∀ j, inside s !! j ≠ Some true.

Lemma spin_ok_step s s' : spin_ok s → spin_step s s' → spin_ok s'.
Proof.
  intros H Hs. revert H. destruct Hs as [i s1 Hi|i s1 Hi]; unfold spin_ok; intros H.
  - unfold spin_try_lock, test_and_set. destruct (flag s1) eqn:Hf; simpl; [done|].
    pose proof (lookup_lt_Some _ _ _ Hi) as Hlt. exists i. split; [by rewrite list_lookup_insert_eq|].
    intros j Hj. destruct (decide (i = j)) as [|Hne]; [done|].
    rewrite list_lookup_insert_ne in Hj by done. by apply H in Hj.
  - simpl. intros j Hj. destruct (flag s1); [|by apply (H i)]. destruct H as (h & _ & Hu).
    destruct (decide (i = j)) as [->|Hne].
    + pose proof (lookup_lt_Some _ _ _ Hi). by rewrite list_lookup_insert_eq in Hj.
    + rewrite list_lookup_insert_ne in Hj by done. apply Hne. by rewrite (Hu i Hi), (Hu j Hj).
Qed.

(** ** Properties *)

(** used by one thread, an array whose size is a power of two is a
    first-in first-out queue of [N - 1] elements. *)
Theorem lfa_refines_fifo {A} k (s : lfa A) l ops os l' :
  lfa_rep (2 ^ k) s l → list_run (2 ^ k - 1) ops l = Some (os, l') →
  ∃ s', @fifo_run _ _ (lfa_fifo (2 ^ k)) ops s = Ok (os, s') ∧ lfa_rep (2 ^ k) s' l'.
Proof. exact (@fifo_run_list _ _ (lfa_fifo (2 ^ k)) (lfa_fifo_laws k) ops s l os l'). Qed.

(** C32: the [static_assert] refuses the sizes that work and accepts only sizes
    that do not.  With an odd one no element can ever be pushed.  With an even
    one there are [r] and [m] such that one thread that has pushed and popped
    [r] elements one by one can push [m + 1] more, all accepted, and then reads
    the first and, instead of the second, the last: the last one was stored over
    the second, which is lost. *)
Theorem lfa_no_size_works {A} N (g : list A) (x : nat → A) :
  0 < N → lfa_accepted N = true → length g = N →
  (∀ k, lfa_accepted (2 ^ k) = false) ∧
  (Nat.odd N = true → ∀ y, lfa_push N y (lfa_create g) = Ok (false, lfa_create g)) ∧
  (Nat.odd N = false → ∃ r m s, 1 < m ∧
     lfa_run N (one_by_one x r ++ ((λ i, Some (x i)) <$> seq r (S m)) ++ [None; None]) (lfa_create g) =
       Ok ((seq 0 r ≫= λ i, [inl true; inr (Some (x i))]) ++
           replicate (S m) (inl true) ++ [inr (Some (x r)); inr (Some (x (r + m)))], s)).
Proof.
  intros Hp HN Hg. split; [|split].
  - intros k. unfold lfa_accepted.
    change (Nat.land (2 ^ k) (2 ^ k - 1)) with (index (2 ^ k) (2 ^ k)).
    by rewrite index_pow2, Nat.Div0.mod_same.
  - intros Hodd y. apply push_refused. by apply even_mask.
  - intros Heven. destruct (accepted_hole N Hp HN) as (b & Hb0 & Hb1).
    assert (Hbit : Nat.testbit (N - 1) 0 = true) by (by apply odd_mask). assert (b ≠ 0) by congruence.
    set (r := 2 ^ S b - 1). set (m := 2 ^ b + 1). exists r, m.
    pose proof (pow_ge b ltac:(lia)) as Hpow.
    assert (Hr : S r = 2 ^ S b) by (unfold r; simpl; lia).
    destruct (run_one_by_one N Hp x r g Hbit Hg) as (q & Hrun & Hq).
    destruct (run_pushes N Hp x r m q Hq) as (q' & Hrun' & Hq' & Hf & Hl).
    { intros j Hj. apply (index_differs N b j r Hb1); unfold m in Hj; simpl in *; lia. }
    rewrite (lfa_run_app N _ _ _ _ _ Hrun), (lfa_run_app N _ _ _ _ _ Hrun'). cbn [lfa_run].
    rewrite (pop_some N _ _ _ _ (x r)) by (lia || done). cbn [mbind res_bind].
    rewrite (pop_some N _ _ _ _ (x (r + m))).
    + cbn [mbind res_bind mret res_ret]. eexists. split; [unfold m; lia|done].
    + unfold m. lia.
    + rewrite <- Hl. f_equal. replace (r + 1) with (2 ^ S b) by lia.
      replace (r + m) with (2 ^ S b + 2 ^ b) by (unfold m; lia). symmetry. by apply index_same.
Qed.

(** a consumer does not wait for the publication: it can return the bytes
    that were in a slot before the element was stored; and two consumers that
    both saw one element both take one, so that the read counter passes the
    write counter. *)
Theorem lfa_consumer_races {A} k (g0 g1 x : A) gs :
  1 ≤ k →
  (∃ m, reachable (lfa_init (g0 :: g1 :: gs) 2) (lfa_step (2 ^ k)) m ∧
     taken m = [g0] ∧ threads m !! 0 = Some (PClaimed x 0)) ∧
  (∃ m, reachable (lfa_init (g0 :: g1 :: gs) 3) (lfa_step (2 ^ k)) m ∧
     taken m = [x; g1] ∧ write_index (arr m) = 1 ∧ read_index (arr m) = 2).
Proof.
  intros Hk. destruct (index_01 k Hk) as [H0 H1]. split.
  - eexists. split; [eexists; split; [reflexivity|]|].
    + etrans; [apply (run_claim k Hk _ _ x)|]. eapply rtc_l; [by apply (ls_nonempty _ 1)|].
      apply (run_take k 1 (g0 :: g1 :: gs) _ 1 0 0 [] g0); [done|by rewrite H0].
    + done.
  - eexists. split; [eexists; split; [reflexivity|]|].
    + etrans; [apply (run_claim k Hk _ _ x)|]. etrans; [apply (run_publish k Hk)|].
      eapply rtc_l; [by apply (ls_nonempty _ 1)|]. eapply rtc_l; [by apply (ls_nonempty _ 2)|].
      etrans; [apply (run_take k 1 (x :: g1 :: gs) _ 1 0 1 [] x); [done|by rewrite H0]|].
      apply (run_take k 2 (x :: g1 :: gs) _ 1 1 1 [x] g1); [done|]. simpl. by rewrite H1.
    + done.
Qed.

(** at most one thread is between [lock] and [unlock], and the flag is set
    exactly while one is. *)
Theorem spinlock_mutual_exclusion s :
  reachable spin_init spin_step s →
  (∀ i j, inside s !! i = Some true → inside s !! j = Some true → i = j) ∧
  (flag s = true ↔ ∃ i, inside s !! i = Some true).
Proof.
  intros Hr. assert (H : spin_ok s).
  { refine (reachable_invariant _ _ spin_ok _ spin_ok_step s Hr). intros s0 [n ->]. simpl.
    intros j Hj. apply lookup_replicate in Hj as [? _]. done. }
  unfold spin_ok in H. destruct (flag s).
  - destruct H as (h & Hh & Hu). split; [|split; [by exists h|done]].
    intros i j Hi Hj. by rewrite (Hu i Hi), (Hu j Hj).
  - split; [intros i j Hi; by apply H in Hi|]. split; [done|]. intros [i Hi]. by apply H in Hi.
Qed.

(** ** Witnesses *)

Lemma lfa_refines_fifo_witness :
  ∃ s', @fifo_run _ _ (lfa_fifo 4) [Some 5; Some 6; Some 7; None; Some 8; None] (lfa_create [0; 0; 0; 0])
        = Ok ([Some 5; Some 6], s') ∧ lfa_rep 4 s' [7; 8].
Proof.
  exact (lfa_refines_fifo 2 (lfa_create [0; 0; 0; 0]) [] [Some 5; Some 6; Some 7; None; Some 8; None] _ _
    (lfa_create_rep 2 [0; 0; 0; 0] eq_refl) eq_refl).
Defined.

(** Size 6: three elements go through, then five are pushed, and the second of
    them is lost. *)
Lemma lfa_no_size_works_witness :
  (∀ y, lfa_push 3 y (lfa_create [0; 0; 0]) = Ok (false, lfa_create [0; 0; 0])) ∧
  ∃ r m s, 1 < m ∧
    lfa_run 6 (one_by_one id r ++ (Some <$> seq r (S m)) ++ [None; None]) (lfa_create [0; 0; 0; 0; 0; 0]) =
      Ok ((seq 0 r ≫= λ i, [inl true; inr (Some i)]) ++ replicate (S m) (inl true) ++ [inr (Some r); inr (Some (r + m))], s).
Proof.
  split.
  - apply (lfa_no_size_works 3 [0; 0; 0] id); [lia|reflexivity..].
  - apply (lfa_no_size_works 6 [0; 0; 0; 0; 0; 0] id); [lia|reflexivity..].
Defined.

Lemma lfa_consumer_races_witness :
  ∃ m, reachable (lfa_init [0; 0] 2) (lfa_step 2) m ∧ taken m = [0] ∧ threads m !! 0 = Some (PClaimed 7 0).
Proof. exact (proj1 (lfa_consumer_races 1 0 0 7 [] (le_n 1))). Defined.

Lemma spinlock_mutual_exclusion_witness :
  flag (Spin true [true; false]) = true ↔ ∃ i, inside (Spin true [true; false]) !! i = Some true.
Proof.
  refine (proj2 (spinlock_mutual_exclusion (Spin true [true; false]) _)).
  exists (Spin false [false; false]). split; [by exists 2|]. apply rtc_once.
  exact (spin_try 0 (Spin false [false; false]) eq_refl).
Defined.
