(* ===== verification/NgxLog.v ===== *)
(** * The log (core/ngx_log)

    Lines are formatted into buffers of the log's pool and queued; printing
    drains the queue into the file.  The formatted text, the number of arguments
    that the format reads and the time stamp are arguments, and so are the bytes
    that fresh memory holds. *)

From S2P Require Import Prelude CText Ringbuffer Fifo NgxPool NgxQueue.
Local Open Scope nat_scope.

(** ** Data *)

Definition nul_char : ascii := "000".

Definition log_level_off : nat := 8.

(** A queued buffer: its header, its address and its [cap] bytes. *)
Record logbuf := LogBuf { lb_addr : Z; lb_hdr : ngx_buf_s; lb_mem : str }.

(** [out] is what was written to the file. *)
Record ngx_log := Log {
  log_pool : ngx_pool_s; level_ : nat; wait_logs : ngx_queue_s (option logbuf); out : str
}.

Definition log_queue_len : nat := 4096.

(** ** Operations *)

Definition ngx_log_create (al1 al2 : allocator) : res ngx_log :=
  pool ← deref NullDeref (ngx_create_pool al1 1);
  '(_, q, pool) ← ngx_create_queue al2 pool 8 (replicate log_queue_len None);
  mret (Log pool 3 q []).

Definition set_level (n : nat) (l : ngx_log) : ngx_log := Log (log_pool l) n (wait_logs l) (out l).

(** What [vsnprintf(p, n, ...)] writes of the text. *)
Definition vsnprintf_bytes (n : nat) (text : str) : str :=
  if n =? 0 then [] else take (n - 1) text ++ [nul_char].

(** Filling the buffer of [write_level_log].  [nargs] is the number of arguments
    that the format reads, [text] what it makes of them.  The call of
    [vsnprintf] that measured the text has read them: what [args] is worth in
    the second call is indeterminate, so that reading any is undefined. *)
Definition log_fill (prefix : str) (nargs : nat) (text mem : str) : res str :=
  let prefix_len := length prefix in
  let nLen := length text + prefix_len in
  mem ← memcpy mem 0 prefix;
  if nargs =? 0 then
    mem ← memcpy mem prefix_len (vsnprintf_bytes (nLen - prefix_len) text);
    memcpy mem nLen [newline; nul_char]
  else Fault Uninitialised.

(** [prefix]: the time stamp and the name of the level. *)
Definition write_level_log (al : allocator) (junk : Z → str) (level : nat) (prefix : str) (nargs : nat) (text : str)
    (l : ngx_log) : res ngx_log :=
  if (level <? level_ l) || (log_level_off <=? level) then mret l
  else
    let nLen := length text + length prefix in
    match ngx_create_buf al (log_pool l) (Z.of_nat (nLen + 3)) with
    | (None, pool) => mret (Log pool (level_ l) (wait_logs l) (out l))
    | (Some (a, b), pool) =>
        mem ← log_fill prefix nargs text (junk (buf_cap b));
        let b := Buf (buf_cap b) (Z.of_nat (nLen + 1)) (buf_ref b) (buf_data b) in
        if ngx_queue_size (wait_logs l) <? nalloc (wait_logs l) then
          '(_, q) ← ngx_queue_push (Some (LogBuf a b mem)) (wait_logs l);
          mret (Log pool (level_ l) q (out l))
        else mret (Log pool (level_ l) (wait_logs l) (out l))
    end.

(** [write_data]: [buf->len] is not set. *)
Definition write_data (al : allocator) (junk : Z → str) (data : str) (l : ngx_log) : res ngx_log :=
  match ngx_create_buf al (log_pool l) (Z.of_nat (length data)) with
  | (None, pool) => mret (Log pool (level_ l) (wait_logs l) (out l))
  | (Some (a, b), pool) =>
      mem ← memcpy (junk (buf_cap b)) 0 data;
      '(ok, q) ← ngx_queue_push (Some (LogBuf a b mem)) (wait_logs l);
      if ok : bool then mret (Log pool (level_ l) q (out l))
      else let '(_, pool, _) := ngx_buf_free pool a b in mret (Log pool (level_ l) q (out l))
  end.

(** One round of the loop of [print_log_file]. *)
Definition print_body (l : ngx_log) : res (ngx_log + ngx_log) :=
  if ngx_queue_empty (wait_logs l) then mret (inr l)
  else
    '(o, q) ← ngx_queue_pop (wait_logs l);
    match o with
    | Some (Some b) =>
        bytes ← memread (lb_mem b) 0 (Z.to_nat (buf_len (lb_hdr b)));
        let '(pool, _) := ngx_free (log_pool l) (lb_addr b) in
        mret (inl (Log pool (level_ l) q (out l ++ bytes)))
    | Some None => Fault Uninitialised
    | None => mret (inr (Log (log_pool l) (level_ l) q (out l)))
    end.

(** [opened] tells whether [fopen] succeeded. *)
Definition print_log_file (fuel : nat) (opened : bool) (l : ngx_log) : res ngx_log :=
  if opened then run_loop fuel print_body l else mret l.

(** [ftell] just after [fopen]: the position at the beginning of the file. *)
Definition ngx_file_size (exists_ : bool) : Z := 0.

(** ** Specification *)

(** The text as it reaches the file: its last character is lost. *)
Definition clipped (text : str) : str :=
  if decide (text = []) then [] else removelast text ++ [nul_char].

Definition log_line (prefix text : str) : str := prefix ++ clipped text ++ [newline].

Inductive log_op := LWrite (level : nat) (prefix : str) (nargs : nat) (text : str) | LData (data : str).

(** An allocator and fresh memory for every call. *)
Definition log_step (al : allocator) (junk : Z → str) (op : log_op) (l : ngx_log) : res ngx_log :=
  match op with
  | LWrite level prefix nargs text => write_level_log al junk level prefix nargs text l
  | LData data => write_data al junk data l
  end.

Definition log_bytes (level : nat) (op : log_op) : option str :=
  match op with
  | LWrite n prefix _ text => if (n <? level) || (log_level_off <=? n) then None else Some (log_line prefix text)
  | LData _ => Some []
  end.

(** A message that is not logged, or whose format reads no argument. *)
Definition argless (level : nat) (op : log_op) : bool :=
  match op with LWrite n _ nargs _ => (n <? level) || (log_level_off <=? n) || (nargs =? 0) | LData _ => true end.

(** Sizes in the range of the model of the pool. *)
Definition log_small (op : log_op) : Prop :=
  match op with
  | LWrite _ prefix _ text => (Z.of_nat (length prefix + length text) < 2 ^ 32)%Z
  | LData data => (Z.of_nat (length data) < 2 ^ 32)%Z
  end.

Definition junk_ok (junk : Z → str) : Prop := ∀ n, (0 ≤ n)%Z → length (junk n) = Z.to_nat n.

(** The queued buffers show these texts. *)
Definition shows (b : option logbuf) (bytes : str) : Prop :=
  ∃ x, b = Some x ∧ memread (lb_mem x) 0 (Z.to_nat (buf_len (lb_hdr x))) = Ok bytes.

Definition log_rep (l : ngx_log) (texts : list str) : Prop :=
  nalloc (wait_logs l) = log_queue_len ∧
  ∃ bs, queue_rep (wait_logs l) bs ∧ Forall2 shows bs texts.

(** A system allocator that does not fail. *)
Definition al_total (al : allocator) : Prop :=
  (∀ n, is_Some (malloc al n)) ∧ (∀ a n, is_Some (posix_memalign al a n)).

Fixpoint log_run (al : allocator) (junk : Z → str) (ops : list log_op) (l : ngx_log) : res ngx_log :=
  match ops with
  | [] => mret l
  | op :: ops => l ← log_step al junk op l; log_run al junk ops l
  end.

(** ** Lemmas *)

Lemma vsnprintf_text text : vsnprintf_bytes (length text) text = clipped text.
Proof.
  unfold vsnprintf_bytes, clipped. destruct text as [|c text]; [done|].
  rewrite decide_False by done. rewrite removelast_firstn_len. cbn [length Nat.eqb Nat.pred].
  by replace (S (length text) - 1) with (length text) by lia.
Qed.

Lemma length_clipped text : length (clipped text) = length text.
Proof.
  unfold clipped. case_decide as H; [by subst|]. rewrite length_app, removelast_firstn_len, length_take. simpl.
  destruct text; [done|simpl; lia].
Qed.

Lemma log_fill_ok prefix text mem :
  length text + length prefix + 3 ≤ length mem →
  ∃ mem', log_fill prefix 0 text mem = Ok mem' ∧
    memread mem' 0 (length text + length prefix + 1) = Ok (log_line prefix text).
Proof.
  intros Hl. unfold log_fill. cbn [Nat.eqb]. replace (length text + length prefix - length prefix) with (length text) by lia.
  rewrite vsnprintf_text. unfold memcpy. rewrite decide_True by lia. cbn [mbind res_bind].
  rewrite length_inserts, length_clipped, decide_True by lia. cbn [mbind res_bind].
  rewrite !length_inserts. rewrite decide_True by (simpl; lia).
  eexists. split; [reflexivity|].
  unfold memread. rewrite !length_inserts, decide_True by lia. rewrite drop_0. f_equal.
  rewrite list_inserts_split by (rewrite !length_inserts; simpl; lia).
  rewrite (Nat.add_comm (length text)) at 2. rewrite <- (length_clipped text) at 2.
  rewrite take_list_inserts by (rewrite length_inserts, length_clipped; lia).
  rewrite <- (Nat.add_0_l (length prefix)) at 2. rewrite take_list_inserts by lia.
  rewrite take_0, app_nil_l. change ([newline; nul_char]) with ([newline] ++ [nul_char]).
  rewrite <- (app_assoc [newline]), (app_assoc (prefix ++ clipped text)). rewrite take_app_length'.
  - unfold log_line. by rewrite app_assoc.
  - rewrite !length_app, length_clipped. simpl. lia.
Qed.

Lemma palloc_total al pool n : al_total al → (0 < n)%Z → ∃ a pool', ngx_palloc al pool n = (Some a, pool').
Proof.
  intros [Hm Hp] Hn. unfold ngx_palloc. destruct (Z.leb_spec n 0); [lia|]. destruct (_ <? _)%Z.
  - unfold ngx_allocate_large. destruct (Hm (wrap 64 (n + sizeof_large))) as [a ->]. by eexists _, _.
  - destruct (cut_block _ _) as [[a bs]|]; [by eexists _, _|].
    unfold ngx_allocate_block. destruct (Hp PAGE_SIZE PAGE_SIZE) as [a ->].
    destruct (count_failures _ _ _). by eexists _, _.
Qed.

Lemma create_buf_total al pool n : al_total al → (0 ≤ n < 2 ^ 40)%Z →
  ∃ a b pool', ngx_create_buf al pool n = (Some (a, b), pool') ∧ (n ≤ buf_cap b)%Z ∧ buf_len b = 0%Z.
Proof.
  intros Hal Hn. unfold ngx_create_buf. rewrite (wrap_small 64) by (unfold sizeof_buf; lia).
  pose proof (ngx_align_bounds (n + sizeof_buf) ltac:(unfold sizeof_buf; lia)) as [Hb _]. unfold sizeof_buf in *.
  destruct (palloc_total al pool (ngx_align (n + 32)) Hal ltac:(lia)) as (a & pool' & ->).
  eexists _, _, _. split; [done|]. simpl. lia.
Qed.

(** Queueing one more buffer. *)
Lemma log_push l ts x bytes :
  log_rep l ts → length ts < log_queue_len - 1 →
  memread (lb_mem x) 0 (Z.to_nat (buf_len (lb_hdr x))) = Ok bytes →
  ∃ q, ngx_queue_push (Some x) (wait_logs l) = Ok (true, q) ∧
    (∀ pool, log_rep (Log pool (level_ l) q (out l)) (ts ++ [bytes])) ∧
    ngx_queue_size (wait_logs l) < nalloc (wait_logs l).
Proof.
  intros (Hn & bs & Hq & Hs) Hl Hx. pose proof (Forall2_length _ _ _ Hs) as Hlen.
  destruct (queue_push_ok _ bs (Some x) Hq) as (q & Hp & Hr & Hn'); [left; lia|].
  exists q. split; [done|]. split.
  - intros pool. split; [simpl; lia|]. exists (bs ++ [Some x]). split; [done|].
    apply Forall2_app; [done|]. constructor; [by exists x|done].
  - destruct Hq as [_ _ [<- _] _]. lia.
Qed.

Lemma log_fill_args prefix nargs text mem :
  length prefix ≤ length mem → nargs ≠ 0 → log_fill prefix nargs text mem = Fault Uninitialised.
Proof.
  intros Hl Hn. unfold log_fill, memcpy. rewrite decide_True by lia. cbn [mbind res_bind].
  by rewrite (proj2 (Nat.eqb_neq _ _)).
Qed.

Lemma log_step_ok al junk op l ts :
  log_rep l ts → length ts < log_queue_len - 1 → al_total al → junk_ok junk → log_small op →
  if argless (level_ l) op then
    ∃ l', log_step al junk op l = Ok l' ∧ level_ l' = level_ l ∧ out l' = out l ∧
      log_rep l' (ts ++ option_list (log_bytes (level_ l) op))
  else log_step al junk op l = Fault Uninitialised.
Proof.
  intros H Hl Hal Hj Hsm. destruct op as [level prefix nargs text|data]; cbn [argless log_step log_bytes log_small] in *.
  - unfold write_level_log. destruct (_ || (log_level_off <=? level)); [exists l; by rewrite app_nil_r|].
    cbn [orb]. destruct (create_buf_total al (log_pool l) (Z.of_nat (length text + length prefix + 3)) Hal ltac:(lia))
      as (a & b & pool & -> & Hcap & _).
    destruct (Nat.eqb_spec nargs 0) as [->|Hn]; [|rewrite log_fill_args by (rewrite ?Hj by lia; lia); done].
    destruct (log_fill_ok prefix text (junk (buf_cap b))) as (mem & -> & Hm); [rewrite Hj by lia; lia|].
    cbn [mbind res_bind].
    set (x := LogBuf a (Buf (buf_cap b) (Z.of_nat (length text + length prefix + 1)) (buf_ref b) (buf_data b)) mem).
    destruct (log_push l ts x (log_line prefix text) H Hl) as (q & -> & Hr & Hroom).
    { simpl. by rewrite Nat2Z.id. }
    destruct (Nat.ltb_spec (ngx_queue_size (wait_logs l)) (nalloc (wait_logs l))); [|lia].
    eexists. split; [reflexivity|]. split; [done|]. split; [done|]. apply Hr.
  - unfold write_data.
    destruct (create_buf_total al (log_pool l) (Z.of_nat (length data)) Hal ltac:(lia)) as (a & b & pool & -> & Hcap & Hb0).
    unfold memcpy. rewrite decide_True by (rewrite Hj by lia; lia). cbn [mbind res_bind].
    destruct (log_push l ts (LogBuf a b (list_inserts 0 data (junk (buf_cap b)))) [] H Hl) as (q & -> & Hr & _).
    { simpl. rewrite Hb0. unfold memread. by rewrite decide_True by lia. }
    eexists. split; [reflexivity|]. split; [done|]. split; [done|]. apply Hr.
Qed.

Lemma print_ok ts l fuel :
  log_rep l ts → length ts < fuel →
  ∃ l', run_loop fuel print_body l = Ok l' ∧ out l' = out l ++ concat ts ∧ log_rep l' [] ∧ level_ l' = level_ l.
Proof.
  revert l fuel. induction ts as [|bytes ts IH]; intros l [|fuel] (Hn & bs & Hq & Hs) Hf; simpl in Hf; try lia.
  - apply Forall2_nil_inv_r in Hs as ->. pose proof (queue_get_ok _ _ Hq) as Hg. simpl in Hg.
    assert (He : ngx_queue_empty (wait_logs l) = true).
    { revert Hg. unfold ngx_queue_get. by destruct (ngx_queue_empty (wait_logs l)). }
    cbn [run_loop]. unfold print_body. rewrite He. exists l. cbn [concat]. rewrite app_nil_r.
    repeat (split; [done|]). split; [|done]. split; [done|]. by exists [].
  - apply Forall2_cons_inv_r in Hs as (b & bs' & (x & -> & Hx) & Hs & ->).
    pose proof (queue_get_ok _ _ Hq) as (i & q & Hg & Hi & Hr & Hnq).
    assert (He : ngx_queue_empty (wait_logs l) = false).
    { revert Hg. unfold ngx_queue_get. by destruct (ngx_queue_empty (wait_logs l)). }
    cbn [run_loop]. unfold print_body at 1. rewrite He. unfold ngx_queue_pop. rewrite Hg, Hi.
    cbn [deref mbind res_bind mret res_ret]. rewrite Hx. cbn [mbind res_bind].
    destruct (ngx_free (log_pool l) (lb_addr x)) as [pool f].
    destruct (IH (Log pool (level_ l) q (out l ++ bytes)) fuel) as (l' & Hrun & Ho & Hl' & Hlev); [|lia|].
    + split; [simpl; congruence|]. by exists bs'.
    + exists l'. split; [exact Hrun|]. split; [|by split]. rewrite Ho. simpl. by rewrite <- app_assoc.
Qed.

Lemma log_run_ok al junk ops l ts :
  log_rep l ts → al_total al → junk_ok junk → Forall log_small ops →
  length ts + length (omap (log_bytes (level_ l)) ops) < log_queue_len →
  if forallb (argless (level_ l)) ops then
    ∃ l', log_run al junk ops l = Ok l' ∧ level_ l' = level_ l ∧ out l' = out l ∧
      log_rep l' (ts ++ omap (log_bytes (level_ l)) ops)
  else log_run al junk ops l = Fault Uninitialised.
Proof.
  intros H Hal Hj. revert l ts H. induction ops as [|op ops IH]; intros l ts H Hsm Hl.
  - exists l. simpl. by rewrite app_nil_r.
  - apply Forall_cons in Hsm as [Hsm1 Hsm]. cbn [omap list_omap forallb log_run] in *.
    destruct (log_bytes (level_ l) op) as [t|] eqn:Hb.
    + cbn [length] in Hl. pose proof (log_step_ok al junk op l ts H ltac:(lia) Hal Hj Hsm1) as Hs.
      rewrite Hb in Hs. destruct (argless (level_ l) op); cbn [andb]; [|by rewrite Hs].
      destruct Hs as (l1 & -> & Hlev & Hout & H1). cbn [mbind res_bind].
      specialize (IH l1 (ts ++ [t]) H1 Hsm). rewrite Hlev, length_app in IH. specialize (IH ltac:(simpl; lia)).
      destruct (forallb _ _); [|done]. destruct IH as (l2 & Hr & Hlev2 & Hout2 & H2). exists l2.
      rewrite <- app_assoc in H2. split_and!; try done; congruence.
    + (* a message below the level *)
      destruct op as [level prefix nargs text|data]; [|done]. cbn [log_bytes] in Hb.
      cbn [log_step argless]. unfold write_level_log.
      destruct (_ || (log_level_off <=? level)) eqn:Hskip; [|done]. cbn [orb andb mbind res_bind mret res_ret].
      by apply IH.
Qed.

(** ** Properties *)

(** C27: as long as at most 4095 messages wait and the allocator does not fail:
    printing the log appends, for every message of an enabled level, its line,
    once each and in the order of the calls, when the formats of these messages
    read no argument; the last character of every message is lost, and
    [write_data] writes nothing.  With a format that reads one the program is
    undefined: [args] is used for the measure and then again for the text. *)
Theorem log_prints_messages al junk ops l fuel :
  log_rep l [] → al_total al → junk_ok junk → Forall log_small ops →
  length (omap (log_bytes (level_ l)) ops) < log_queue_len → log_queue_len ≤ fuel →
  if forallb (argless (level_ l)) ops then
    ∃ l1 l2, log_run al junk ops l = Ok l1 ∧ print_log_file fuel true l1 = Ok l2 ∧
      out l2 = out l ++ concat (omap (log_bytes (level_ l)) ops) ∧ log_rep l2 []
  else log_run al junk ops l = Fault Uninitialised.
Proof.
  intros H Hal Hj Hsm Hl Hf. pose proof (log_run_ok al junk ops l [] H Hal Hj Hsm Hl) as Hr.
  destruct (forallb _ _); [|done]. destruct Hr as (l1 & Hr & Hlev & Hout & H1).
  destruct (print_ok (omap (log_bytes (level_ l)) ops) l1 fuel H1 (Nat.lt_le_trans _ _ _ Hl Hf)) as (l2 & Hp & Ho & H2 & _).
  exists l1, l2. split; [done|]. split; [done|]. split; [|done]. by rewrite Ho, Hout.
Qed.

(** ** Witnesses *)

Definition demo_log : ngx_log :=
  match ngx_log_create (demo_al 65536) (demo_al 131072) with
  | Ok l => l
  | _ => Log demo_pool0 3 (Queue [] 0 0 0) []
  end.

Lemma demo_log_rep : log_rep demo_log [].
Proof.
  assert (wait_logs demo_log = Queue (replicate log_queue_len None) log_queue_len 0 0) as Hq
    by (vm_compute; reflexivity).
  split; [by rewrite Hq|]. exists []. split; [|constructor]. rewrite Hq.
  apply (queue_rep_create (replicate log_queue_len None)).
Qed.

Definition plain_al : allocator := {| malloc _ := Some 262144%Z; posix_memalign _ _ := Some 262144%Z |}.

Lemma plain_al_total : al_total plain_al.
Proof. split; intros; exists 262144%Z; reflexivity. Qed.

Definition demo_junk (n : Z) : str := replicate (Z.to_nat n) "x"%char.

Lemma demo_junk_ok : junk_ok demo_junk.
Proof. intros n Hn. apply length_replicate. Qed.

(** A message, one below the level, raw data; then one whose format reads an
    argument. *)
Lemma log_prints_messages_witness :
  (∃ l1 l2, log_run plain_al demo_junk
             [LWrite 3 (lit "[INFO] ") 0 (lit "hello"); LWrite 2 (lit "[DEBUG] ") 1 (lit "no"); LData (lit "lost")] demo_log = Ok l1 ∧
    print_log_file log_queue_len true l1 = Ok l2 ∧ out l2 = lit "[INFO] hell" ++ [nul_char; newline]) ∧
  log_run plain_al demo_junk [LWrite 6 (lit "[ERROR] ") 1 (lit "port 2000")] demo_log = Fault Uninitialised.
Proof.
  split.
  - destruct (log_prints_messages plain_al demo_junk
      [LWrite 3 (lit "[INFO] ") 0 (lit "hello"); LWrite 2 (lit "[DEBUG] ") 1 (lit "no"); LData (lit "lost")]
      demo_log log_queue_len demo_log_rep plain_al_total demo_junk_ok) as (l1 & l2 & Hr & Hp & Ho & _).
    + repeat (apply Forall_cons_2; [vm_compute; reflexivity|]). constructor.
    + apply (bool_decide_unpack _). vm_compute. reflexivity.
    + reflexivity.
    + exists l1, l2. split; [exact Hr|]. split; [exact Hp|]. rewrite Ho. vm_compute. reflexivity.
  - apply (log_prints_messages plain_al demo_junk [LWrite 6 (lit "[ERROR] ") 1 (lit "port 2000")]
      demo_log log_queue_len demo_log_rep plain_al_total demo_junk_ok).
    + repeat (apply Forall_cons_2; [vm_compute; reflexivity|]). constructor.
    + apply (bool_decide_unpack _). vm_compute. reflexivity.
    + reflexivity.
Defined.
