(* ===== verification/NgxCore.v ===== *)
(** * Starting the API core (core/ngx_core)

    The list of servers is read from a URL string and resolved; the name
    service is a parameter, and so is what the other threads have done when a
    pointer they set is read. *)

From S2P Require Import Prelude CText NgxLog.
Local Open Scope Z_scope.

(** ** Data *)

Definition HOST_IP_MAX : nat := 4.

Record ngx_core := Core {
  url : str; timeout : Z; hearbeat_int : Z; log_level : Z; log_max_size : Z;
  started : bool; ip_cnt : Z; host_ip : list Z; port : list Z;
  mac : list str
}.

Definition set_ip_cnt (n : Z) (c : ngx_core) : ngx_core :=
  Core (url c) (timeout c) (hearbeat_int c) (log_level c) (log_max_size c) (started c) n (host_ip c) (port c) (mac c).
Definition set_port (l : list Z) (c : ngx_core) : ngx_core :=
  Core (url c) (timeout c) (hearbeat_int c) (log_level c) (log_max_size c) (started c) (ip_cnt c) (host_ip c) l (mac c).

(** ** C string functions *)

(** The separators: a semicolon and the two bytes of a full-width one. *)
Definition separators : str := [";"; "163"; "187"]%char.
Definition is_sep (c : ascii) : bool := bool_decide (c ∈ separators).

(** The bytes up to the first separator, and those behind it. *)
Fixpoint until_sep (s : str) : str * str :=
  match s with
  | [] => ([], [])
  | c :: s => if is_sep c then ([], s) else let '(t, r) := until_sep s in (c :: t, r)
  end.

Fixpoint skip_sep (s : str) : str :=
  match s with
  | c :: s' => if is_sep c then skip_sep s' else s
  | [] => []
  end.

(** [strtok_r]: the next token and the rest. *)
Definition strtok (s : str) : option (str * str) :=
  match skip_sep s with
  | [] => None
  | s => Some (until_sep s)
  end.

(** [strrchr(s, ':')]: what is before and behind the last colon. *)
Fixpoint last_colon (s : str) : option (str * str) :=
  match s with
  | [] => None
  | c :: s' =>
      match last_colon s' with
      | Some (a, b) => Some (c :: a, b)
      | None => if Ascii.eqb c ":" then Some ([], s') else None
      end
  end.

Definition atoi (s : str) : Z :=
  match scan_number false 10 s with
  | Some (neg, m) => swrap 32 (if neg : bool then - m else m)
  | None => 0
  end.

(** ** Hardware addresses *)

Definition HOST_MAC_MAX : nat := 5.
Definition MAC_LENGTH_MAX : nat := 24.

(** An entry of [SIOCGIFCONF]: what [SIOCGIFFLAGS] says about the loopback flag
    and [SIOCGIFHWADDR] about the address; [None] when the call fails. *)
Record iface := Iface { if_loopback : option bool; if_hwaddr : option (list Z) }.

(** [%02X] of a byte, and six of them with hyphens. *)
Definition hex_digit (d : Z) : ascii := nth (Z.to_nat d) (lit "0123456789ABCDEF") "0"%char.
Definition hex_byte (b : Z) : str := [hex_digit (b / 16 mod 16); hex_digit (b mod 16)].
Definition mac_text (hw : list Z) : str :=
  let b i := hex_byte (nth i hw 0) in
  b 0%nat ++ lit "-" ++ b 1%nat ++ lit "-" ++ b 2%nat ++ lit "-" ++
  b 3%nat ++ lit "-" ++ b 4%nat ++ lit "-" ++ b 5%nat.

(** The address of an interface that [get_mac] counts. *)
Definition usable (i : iface) : option (list Z) :=
  match if_loopback i with Some false => if_hwaddr i | _ => None end.

(** The loop; [core->mac] has [HOST_MAC_MAX] rows. *)
Fixpoint fill_mac (ifs : list iface) (idx : nat) (mac : list str) : res (nat * list str) :=
  match ifs with
  | [] => mret (idx, mac)
  | i :: ifs =>
      match usable i with
      | Some hw =>
          if decide (idx < length mac)%nat then fill_mac ifs (S idx) (<[idx := mac_text hw]> mac)
          else Fault OutOfBounds
      | None => fill_mac ifs idx mac
      end
  end.

(** [get_mac]: [None] when the socket or [SIOCGIFCONF] fails. *)
Definition get_mac (interfaces : option (list iface)) (mac : list str) : res (list str) :=
  match interfaces with
  | None => mret (<[0%nat := lit "n/a"]> mac)
  | Some ifs =>
      '(idx, mac) ← fill_mac ifs 0 mac;
      mret (if decide (idx = 0%nat) then <[0%nat := lit "00:00:00:00:00:00"]> mac else mac)
  end.

Definition set_mac (m : list str) (c : ngx_core) : ngx_core :=
  Core (url c) (timeout c) (hearbeat_int c) (log_level c) (log_max_size c) (started c) (ip_cnt c)
    (host_ip c) (port c) m.

(** ** Operations *)

Section resolver.

(** The slots of [h_addr_list] before its end, the null pointer included, as
    the numbers the pointers are; [None] when there is no IPv4 answer. *)
Context (gethostbyname : str → option (list Z)).

(** [ntohl] of the first four bytes of a slot. *)
Definition slot_ip (slot : Z) : Z :=
  let b i := Z.land (Z.shiftr slot (8 * i)) 255 in
  b 0 * 2 ^ 24 + b 1 * 2 ^ 16 + b 2 * 2 ^ 8 + b 3.

(** The loop over the addresses: its condition is the pointer into the array,
    which is never null. *)
Fixpoint add_hosts (slots : list Z) (c : ngx_core) : res ngx_core :=
  match slots with
  | [] => Fault OutOfBounds
  | s :: slots =>
      if decide (Z.to_nat (ip_cnt c) < length (host_ip c))%nat then
        add_hosts slots
          (Core (url c) (timeout c) (hearbeat_int c) (log_level c) (log_max_size c) (started c)
             (wrap 8 (ip_cnt c + 1)) (<[Z.to_nat (ip_cnt c) := slot_ip s]> (host_ip c)) (port c) (mac c))
      else Fault OutOfBounds
  end.

(** [core->port[core->ip_cnt] = v] *)
Definition put_port (v : Z) (c : ngx_core) : res ngx_core :=
  if decide (Z.to_nat (ip_cnt c) < length (port c))%nat then
    mret (set_port (<[Z.to_nat (ip_cnt c) := wrap 16 v]> (port c)) c)
  else Fault OutOfBounds.

(** One round of the loop of [parse_url]: the token at [ptr], the rest that
    [strtok_r] keeps.  The colon found is overwritten with a NUL. *)
Definition parse_body (s : option str * str * ngx_core) : res (option str * str * ngx_core + ngx_core) :=
  let '(ptr, rest, c) := s in
  match ptr with
  | None => mret (inr c)
  | Some ptr =>
      '(ptr, c) ← match last_colon ptr with
                  | None => c ← put_port 0 c; mret (ptr, c)
                  | Some (host, p) => c ← put_port (atoi p) c; mret (host, c)
                  end;
      match gethostbyname ptr with
      | None => mret (inl (Some ptr, rest, c))
      | Some slots =>
          c ← add_hosts slots c;
          match strtok rest with
          | None => mret (inl (None, [], c))
          | Some (t, rest) => mret (inl (Some t, rest, c))
          end
      end
  end.

Definition parse_url (fuel : nat) (c : ngx_core) : res ngx_core :=
  if decide (length (url c) < 256)%nat then
    match strtok (url c) with
    | None => run_loop fuel parse_body (None, [], c)
    | Some (t, rest) => run_loop fuel parse_body (Some t, rest, c)
    end
  else Fault OutOfBounds.

(** [ngx_core_uninit]: the flag; the wait for the loop thread is not modelled. *)
Definition ngx_core_uninit (c : ngx_core) : ngx_core :=
  Core (url c) (timeout c) (hearbeat_int c) (log_level c) (log_max_size c) false (ip_cnt c) (host_ip c) (port c) (mac c).

Definition LOG_FILE_MAX_SIZE : Z := 100 * 1024 * 1024.

(** [ngx_core_init]: the answers of the system to [get_mac]; [loop_set] tells
    whether the new thread has already stored its loop when the timer is added
    to it. *)
Definition ngx_core_init (interfaces : option (list iface)) (fuel : nat) (loop_set : bool) (c : ngx_core) : res (bool * ngx_core) :=
  let dflt v d := if v =? 0 then d else v in
  let c := Core (url c) (dflt (timeout c) 10) (dflt (hearbeat_int c) 30) (dflt (log_level c) 3)
             (dflt (log_max_size c) LOG_FILE_MAX_SIZE) (started c) 0 (host_ip c) (port c) (mac c) in
  c ← parse_url fuel c;
  m ← get_mac interfaces (mac c);
  let c := set_mac m c in
  _ ← (if started c then mret tt else deref NullDeref (if loop_set : bool then Some tt else None));
  if ip_cnt c =? 0 then mret (false, ngx_core_uninit c) else mret (true, c).

(** [write_log_timer]: whether the log file is renamed, and the log printed. *)
Definition write_log_timer (fuel : nat) (exists_ opened : bool) (c : ngx_core) (l : ngx_log)
    : res (bool * ngx_log) :=
  let renamed := log_max_size c <=? ngx_file_size exists_ in
  l ← print_log_file fuel opened l;
  mret (renamed, l).

(** ** Lemmas *)

Lemma add_hosts_faults slots c : add_hosts slots c = Fault OutOfBounds.
Proof using.
  revert c. induction slots as [|s slots IH]; intros c; simpl; [done|]. case_decide; [apply IH|done].
Qed.

(** Without a token at hand the loop ends; with one it never does. *)
Lemma parse_token_stuck fuel t rest c c' : run_loop fuel parse_body (Some t, rest, c) ≠ Ok c'.
Proof using.
  intros H.
  refine (run_loop_partial parse_body (λ s, is_Some s.1.1) (λ _, False) _ fuel (Some t, rest, c) c' _ H); [|by eexists].
  intros [[[ptr|] rest1] c1] r [t1 Ht1] Hb; [|done]. unfold parse_body in Hb.
  destruct (last_colon ptr) as [[host p]|].
  - destruct (put_port (atoi p) c1) as [c2| | |]; try done. cbn [mbind res_bind mret res_ret] in Hb.
    destruct (gethostbyname host) as [slots|]; [by rewrite add_hosts_faults in Hb|]. simplify_eq. by eexists.
  - destruct (put_port 0 c1) as [c2| | |]; try done. cbn [mbind res_bind mret res_ret] in Hb.
    destruct (gethostbyname ptr) as [slots|]; [by rewrite add_hosts_faults in Hb|]. simplify_eq. by eexists.
Qed.

End resolver.

(** The texts of the usable addresses, in order. *)
Definition mac_texts (ifs : list iface) : list str := mac_text <$> omap usable ifs.

Lemma fill_mac_fits ifs idx mac : (idx + length (mac_texts ifs) ≤ length mac)%nat →
  fill_mac ifs idx mac = Ok (idx + length (mac_texts ifs),
    take idx mac ++ mac_texts ifs ++ drop (idx + length (mac_texts ifs)) mac)%nat.
Proof.
  unfold mac_texts. revert idx mac. induction ifs as [|i ifs IH]; intros idx mac; cbn.
  { intros _. by rewrite Nat.add_0_r, take_drop. }
  destruct (usable i) as [hw|]; cbn; [|apply IH]. intros Hl. rewrite decide_True by lia.
  rewrite IH by (rewrite length_insert; lia). do 2 f_equal; [lia|].
  rewrite (take_S_r _ _ (mac_text hw)) by (apply list_lookup_insert_eq; lia).
  rewrite take_insert_ge, drop_insert_lt, <- app_assoc by lia. cbn. do 3 f_equal. f_equal. lia.
Qed.

Lemma fill_mac_overflows ifs idx mac : (length mac < idx + length (mac_texts ifs))%nat → (idx ≤ length mac)%nat →
  fill_mac ifs idx mac = Fault OutOfBounds.
Proof.
  unfold mac_texts. revert idx mac. induction ifs as [|i ifs IH]; intros idx mac; cbn; [lia|].
  destruct (usable i) as [hw|]; cbn; [|apply IH]. intros Hl Hi. destruct (decide _) as [Hlt|Hge]; [|done].
  apply IH; rewrite length_insert; lia.
Qed.

(** ** Properties *)

(** [parse_url] returns exactly when the URL has no token: a token that
    resolves makes it write behind the arrays of hosts, since the loop over the
    addresses tests the wrong pointer, and one that does not resolve is looked
    up for ever, since the loop goes on without taking the next token. *)
Theorem parse_url_returns_iff_empty gethostbyname fuel c :
  (length (url c) < 256)%nat →
  (strtok (url c) = None → parse_url gethostbyname (S fuel) c = Ok c) ∧
  (strtok (url c) ≠ None → ∀ c', parse_url gethostbyname fuel c ≠ Ok c').
Proof.
  intros Hl. unfold parse_url. rewrite !decide_True by done. split.
  - by intros ->.
  - intros Hne c'. destruct (strtok (url c)) as [[t rest]|]; [|done]. apply parse_token_stuck.
Qed.

(** [get_mac] writes the addresses of the interfaces that are not loopback
    into the first rows, in order and each within its row, and "00:00:00:00:00:00"
    when there is none; with more than five of them it writes behind the array. *)
Theorem get_mac_spec ifs mac :
  length mac = HOST_MAC_MAX →
  let n := length (mac_texts ifs) in
  Forall (λ t, (length t < MAC_LENGTH_MAX)%nat) (mac_texts ifs) ∧
  ((0 < n ≤ HOST_MAC_MAX)%nat → get_mac (Some ifs) mac = Ok (mac_texts ifs ++ drop n mac)) ∧
  (n = 0%nat → get_mac (Some ifs) mac = Ok (lit "00:00:00:00:00:00" :: drop 1 mac)) ∧
  ((HOST_MAC_MAX < n)%nat → get_mac (Some ifs) mac = Fault OutOfBounds).
Proof.
  intros Hm n. unfold get_mac. split_and!.
  - apply Forall_fmap, Forall_true. intros hw. unfold MAC_LENGTH_MAX. cbn. lia.
  - intros Hn. rewrite fill_mac_fits by lia. cbn. by rewrite decide_False by lia.
  - intros Hn. rewrite fill_mac_fits by lia. cbn. fold n. rewrite Hn. cbn.
    assert (mac_texts ifs = []) as -> by (by apply nil_length_inv). by destruct mac.
  - intros Hn. rewrite fill_mac_overflows; [done|lia|lia].
Qed.

(** so [ngx_core_init] never succeeds: it returns false for a URL without
    servers and does not return normally otherwise. *)
Theorem ngx_core_init_never_succeeds gethostbyname ifs fuel loop_set c c' :
  ngx_core_init gethostbyname ifs fuel loop_set c ≠ Ok (true, c').
Proof.
  unfold ngx_core_init. set (c0 := Core _ _ _ _ _ _ _ _ _ _).
  destruct (parse_url gethostbyname fuel c0) as [c1| | |] eqn:Hp; simpl; try done.
  assert (c1 = c0) as ->.
  { revert Hp. unfold parse_url. case_decide; [|done].
    destruct (strtok (url c0)) as [[t rest]|]; [by intros ?%parse_token_stuck|].
    destruct fuel; simpl; [done|]. by intros [= <-]. }
  destruct (get_mac ifs (mac c0)) as [m| | |]; simpl; try done.
  destruct (if started c0 then _ else _) as [[]| | |]; simpl; done.
Qed.

(** ** Witnesses *)

Definition demo_core : ngx_core := Core (lit "127.0.0.1:8080;") 0 0 0 0 false 0 [0; 0; 0; 0] [0; 0; 0; 0]
  (replicate HOST_MAC_MAX []).

Lemma parse_url_returns_iff_empty_witness :
  parse_url (λ _, Some [1; 0]) 100 demo_core ≠ Ok demo_core.
Proof.
  apply (proj2 (parse_url_returns_iff_empty (λ _, Some [1; 0]) 100 demo_core ltac:(simpl; lia))).
  vm_compute. discriminate.
Defined.

Lemma get_mac_spec_witness :
  get_mac (Some [Iface (Some true) None; Iface (Some false) (Some [0; 26; 43; 60; 77; 255])]) (replicate HOST_MAC_MAX [])
    = Ok (lit "00-1A-2B-3C-4D-FF" :: replicate 4 []) ∧
  get_mac (Some (replicate 6 (Iface (Some false) (Some [])))) (replicate HOST_MAC_MAX []) = Fault OutOfBounds.
Proof.
  split.
  - rewrite (proj1 (proj2 (get_mac_spec [Iface (Some true) None;
        Iface (Some false) (Some [0; 26; 43; 60; 77; 255])] (replicate HOST_MAC_MAX []) eq_refl)));
      [reflexivity|vm_compute; lia].
  - apply (proj2 (proj2 (proj2 (get_mac_spec _ (replicate HOST_MAC_MAX []) eq_refl)))). vm_compute. lia.
Defined.
