(* ===== verification/Staging.v ===== *)
(** * The staging buffer (basic/staging_buffer.h)

    [StagingBuffer<N>] hands out consecutive bytes of [storage_]; pointers into
    it are offsets.  The producer's [allocate] and the consumer's [deallocate]
    are modelled one call (one round of the waiting loop) at a time; the fences
    order their stores.

    [inv] describes the buffer when the consumer looks ([peek]) before it
    releases a record: the live records lie back to back from the consumer's
    position to the producer's, or to the end of the last lap and then from the
    beginning to the producer's.  But [peek] is private, and without it the
    consumer's position leaves the storage ([staging_deallocate_overruns]). *)

From S2P Require Import Prelude.
Local Open Scope Z_scope.

Section staging.
Context (N : Z).

Record staging := Stg {
  producer_pos : Z; consumer_pos : Z; end_of_record : Z; min_free_space : Z;
  num_allocates : Z
}.

(** [num_allocates_] has no initial value. *)
Definition staging_create (num : Z) : staging := Stg 0 0 N N num.

(** The difference of two pointers as a [size_t]. *)
Definition ptr_sub (a b : Z) : Z := wrap 64 (a - b).

(** The consumer's position, the bytes it may read, and the new state. *)
Definition peek (b : staging) : Z * Z * staging :=
  let cached := producer_pos b in
  if cached <? consumer_pos b then
    let avail := ptr_sub (end_of_record b) (consumer_pos b) in
    if 0 <? avail then (consumer_pos b, avail, b)
    else (0, ptr_sub cached 0,
          Stg cached 0 (end_of_record b) (min_free_space b) (num_allocates b))
  else (consumer_pos b, ptr_sub cached (consumer_pos b), b).

Definition deallocate (size : Z) (b : staging) : staging :=
  Stg (producer_pos b) (consumer_pos b + size) (end_of_record b) (min_free_space b)
    (num_allocates b).

(** After the loop. *)
Definition take_space (size : Z) (b : staging) : option Z * staging :=
  (Some (producer_pos b),
   Stg (producer_pos b + size) (consumer_pos b) (end_of_record b)
     (ptr_sub (min_free_space b) size) (wrap 64 (num_allocates b + 1))).

Definition set_free (n : Z) (b : staging) : staging :=
  Stg (producer_pos b) (consumer_pos b) (end_of_record b) n (num_allocates b).

(** From the end of the storage back to its beginning. *)
Definition wrap_around (cached : Z) (b : staging) : staging :=
  if cached =? 0 then
    Stg (producer_pos b) (consumer_pos b) (producer_pos b) (min_free_space b) (num_allocates b)
  else Stg 0 (consumer_pos b) (producer_pos b) (ptr_sub cached 0) (num_allocates b).

(** One round of [allocate]: [inr] leaves the function. *)
Definition alloc_round (size : Z) (blocking : bool) (b : staging)
    : res (staging + option Z * staging) :=
  if size <? min_free_space b then mret (inr (take_space size b))
  else
    let cached := consumer_pos b in
    let again b :=
      if negb blocking && (min_free_space b <=? size) then mret (inr (None, b))
      else mret (inl (peek b).2) in
    if cached <=? producer_pos b then
      let b := set_free (ptr_sub N (producer_pos b)) b in
      if size <? min_free_space b then mret (inr (take_space size b))
      else again (wrap_around cached b)
    else again (set_free (ptr_sub cached (producer_pos b)) b).

Definition allocate (fuel : nat) (size : Z) (blocking : bool) (b : staging)
    : res (option Z * staging) :=
  run_loop fuel (alloc_round size blocking) b.

#[local] Arguments allocate : simpl never.
#[local] Arguments ptr_sub : simpl never.

(** A sequence of the calls a client can make, with the results of [allocate]. *)
Inductive staging_op := OpAllocate (size : Z) | OpDeallocate (size : Z).

Fixpoint staging_run (ops : list staging_op) (b : staging) : res (list (option Z) * staging) :=
  match ops with
  | [] => mret ([], b)
  | OpAllocate size :: ops =>
      '(r, b) ← allocate 2 size false b;
      '(rs, b) ← staging_run ops b;
      mret (r :: rs, b)
  | OpDeallocate size :: ops => staging_run ops (deallocate size b)
  end.

(** ** The discipline: peek, then release the oldest record

    The second component holds the live records, oldest first. *)

Inductive staging_step : staging * list region → staging * list region → Prop :=
| staging_alloc fuel size blocking b live r b' :
    0 < size < 2 ^ 63 →
    allocate fuel size blocking b = Ok (r, b') →
    staging_step (b, live) (b', live ++ match r with Some p => [(p, size)] | None => [] end)
| staging_peek b live : staging_step (b, live) ((peek b).2, live)
| staging_release p size b live :
    staging_step (b, (p, size) :: live) (deallocate size (peek b).2, live).

Definition staging_init (s : staging * list region) : Prop := ∃ num, s = (staging_create num, []).

(** Records back to back from [lo] to [hi]. *)
Fixpoint tiles (lo hi : Z) (l : list region) : Prop :=
  match l with
  | [] => lo = hi
  | (p, size) :: l => p = lo ∧ 0 < size ∧ tiles (lo + size) hi l
  end.

Definition inv (b : staging) (live : list region) : Prop :=
  0 ≤ consumer_pos b ∧ 0 ≤ producer_pos b < N ∧ 0 < min_free_space b ∧
  ((consumer_pos b ≤ producer_pos b ∧ min_free_space b ≤ N - producer_pos b ∧
    tiles (consumer_pos b) (producer_pos b) live) ∨
   (producer_pos b < consumer_pos b ∧ min_free_space b ≤ consumer_pos b - producer_pos b ∧
    end_of_record b ≤ N ∧
    ∃ l1 l2, live = l1 ++ l2 ∧ tiles (consumer_pos b) (end_of_record b) l1 ∧
      tiles 0 (producer_pos b) l2)).

(** ** Lemmas *)

Lemma ptr_sub_small a b : 0 ≤ a - b < 2 ^ 64 → ptr_sub a b = a - b.
Proof. intros. apply wrap_small; lia. Qed.

Lemma tiles_le lo hi l : tiles lo hi l → lo ≤ hi.
Proof.
  revert lo. induction l as [|[p s] l IH]; intros lo; simpl; [lia|].
  intros (_ & ? & H%IH). lia.
Qed.

Lemma tiles_nil_inv lo l : tiles lo lo l → l = [].
Proof. destruct l as [|[p s] l]; [done|]. simpl. intros (_ & ? & H%tiles_le). lia. Qed.

Lemma tiles_snoc lo hi l size : 0 < size → tiles lo hi l → tiles lo (hi + size) (l ++ [(hi, size)]).
Proof.
  intros Hs. revert lo. induction l as [|[p s] l IH]; intros lo; simpl; [naive_solver lia|].
  intros (? & ? & ?). split_and!; [done..|]. by apply IH.
Qed.

Lemma tiles_inside lo hi l : 0 ≤ lo → hi ≤ N → tiles lo hi l →
  Forall (λ r, lo ≤ r.1 ∧ 0 < r.2 ∧ r.1 + r.2 ≤ hi) l.
Proof.
  intros Hlo Hhi. revert lo Hlo. induction l as [|[p s] l IH]; intros lo Hlo; simpl; [constructor|].
  intros (-> & ? & Ht). pose proof (tiles_le _ _ _ Ht). constructor; [simpl; lia|].
  eapply Forall_impl; [apply (IH (lo + s)); [lia | done]|]. simpl. lia.
Qed.

Lemma tiles_disjoint lo hi l : 0 ≤ lo → hi ≤ N → tiles lo hi l → pairwise disjoint_regions l.
Proof.
  intros Hlo Hhi. revert lo Hlo. induction l as [|[p s] l IH]; intros lo Hlo; simpl; [done|].
  intros (-> & ? & Ht). split; [|apply (IH (lo + s)); [lia | done]].
  eapply Forall_impl; [apply (tiles_inside (lo + s) hi); [lia | lia | done]|].
  unfold disjoint_regions. simpl. lia.
Qed.

Hypothesis HN : 0 < N < 2 ^ 60.

Lemma peek_inv b live : inv b live → inv (peek b).2 live.
Proof.
  destruct b as [p c e m n]. unfold inv, peek. cbn [producer_pos consumer_pos end_of_record min_free_space].
  intros (? & ? & ? & [(? & ? & Ht)|(? & ? & ? & l1 & l2 & -> & Ht1 & Ht2)]).
  - rewrite (proj2 (Z.ltb_ge _ _)) by lia. cbn. split_and!; [lia..|]. left. done.
  - rewrite (proj2 (Z.ltb_lt _ _)) by lia. pose proof (tiles_le _ _ _ Ht1).
    rewrite ptr_sub_small by lia. destruct (Z.ltb_spec 0 (e - c)); cbn.
    + split_and!; [lia..|]. right. split_and!; [lia..|]. by exists l1, l2.
    + assert (c = e) as -> by lia. apply tiles_nil_inv in Ht1 as ->.
      split_and!; [lia..|]. left. split_and!; [lia..|done].
Qed.

(** What the consumer finds: all the bytes up to the oldest record's end. *)
Lemma peek_front b p size live : inv b ((p, size) :: live) →
  (peek b).1.1 = p ∧ size ≤ (peek b).1.2 ∧ consumer_pos (peek b).2 = p.
Proof.
  destruct b as [pp c e m n]. unfold inv, peek. cbn [producer_pos consumer_pos end_of_record min_free_space].
  intros (? & ? & ? & [(? & ? & Ht)|(? & ? & ? & l1 & l2 & Hl & Ht1 & Ht2)]).
  - rewrite (proj2 (Z.ltb_ge _ _)) by lia. cbn. destruct Ht as (-> & ? & Ht).
    apply tiles_le in Ht. rewrite ptr_sub_small; lia.
  - rewrite (proj2 (Z.ltb_lt _ _)) by lia. pose proof (tiles_le _ _ _ Ht1).
    rewrite ptr_sub_small by lia. destruct l1 as [|[p1 s1] l1]; cbn in Hl.
    + subst l2. cbn in Ht1. subst e. destruct Ht2 as (-> & ? & Ht2). apply tiles_le in Ht2.
      rewrite (proj2 (Z.ltb_ge _ _)) by lia. cbn. rewrite ptr_sub_small; lia.
    + simplify_eq. destruct Ht1 as (-> & ? & Ht1). apply tiles_le in Ht1.
      rewrite (proj2 (Z.ltb_lt _ _)) by lia. cbn. lia.
Qed.

Lemma release_inv b p size live : inv b ((p, size) :: live) → inv (deallocate size (peek b).2) live.
Proof.
  intros Hi. pose proof (peek_front _ _ _ _ Hi) as (_ & _ & Hc). apply peek_inv in Hi.
  destruct (peek b).2 as [pp c e m n]. unfold inv in *. cbn in *. subst c.
  destruct Hi as (? & ? & ? & [(? & ? & _ & ? & Ht)|(? & ? & ? & l1 & l2 & Hl & Ht1 & Ht2)]).
  - pose proof (tiles_le _ _ _ Ht). split_and!; [lia..|]. left. split_and!; [lia..|done].
  - destruct l1 as [|[p1 s1] l1]; cbn in Hl, Ht1.
    + subst l2. destruct Ht2 as (-> & ? & ?). lia.
    + simplify_eq. destruct Ht1 as (_ & ? & Ht1). split_and!; [lia..|].
      right. split_and!; [lia..|]. by exists l1, l2.
Qed.

Lemma take_space_inv b live size : 0 < size → size < min_free_space b → inv b live →
  inv (take_space size b).2 (live ++ [(producer_pos b, size)]).
Proof.
  destruct b as [pp c e m n]. unfold inv, take_space. cbn.
  intros ? ? (? & ? & ? & [(? & ? & Ht)|(? & ? & ? & l1 & l2 & -> & Ht1 & Ht2)]).
  - rewrite ptr_sub_small by lia. split_and!; [lia..|]. left. split_and!; [lia..|].
    by apply tiles_snoc.
  - pose proof (tiles_le _ _ _ Ht1). rewrite ptr_sub_small by lia.
    split_and!; [lia..|]. right. split_and!; [lia..|].
    exists l1, (l2 ++ [(pp, size)]). rewrite <- app_assoc. split_and!; [done..|].
    replace pp with (0 + pp) at 1 by lia. by apply tiles_snoc.
Qed.

(** The state in which a round evaluates its guards. *)
Lemma refreshed_inv b live : inv b live → consumer_pos b ≤ producer_pos b →
  ptr_sub N (producer_pos b) = N - producer_pos b ∧
  inv (set_free (ptr_sub N (producer_pos b)) b) live ∧
  inv (wrap_around (consumer_pos b) (set_free (ptr_sub N (producer_pos b)) b)) live.
Proof.
  destruct b as [pp c e m n]. unfold inv, set_free, wrap_around. cbn.
  intros (? & ? & ? & [(? & ? & Ht)|(? & _)]) ?; [|lia].
  rewrite ptr_sub_small by lia. pose proof (tiles_le _ _ _ Ht).
  split; [done|].
  split; [split_and!; [lia..|left; split_and!; [lia..|done]]|].
  destruct (Z.eqb_spec c 0); cbn; [split_and!; [lia..|left; split_and!; [lia..|done]]|].
  rewrite ptr_sub_small by lia. split_and!; [lia..|]. right. split_and!; [lia..|].
  exists live, []. by rewrite app_nil_r.
Qed.

Lemma behind_inv b live : inv b live → producer_pos b < consumer_pos b →
  ptr_sub (consumer_pos b) (producer_pos b) = consumer_pos b - producer_pos b ∧
  inv (set_free (ptr_sub (consumer_pos b) (producer_pos b)) b) live.
Proof.
  destruct b as [pp c e m n]. unfold inv, set_free. cbn.
  intros (? & ? & ? & [(? & _)|(? & ? & ? & l1 & l2 & -> & Ht1 & Ht2)]) ?; [lia|].
  pose proof (tiles_le _ _ _ Ht1). rewrite ptr_sub_small by lia.
  split_and!; [lia..|]. right. split_and!; [lia..|]. by exists l1, l2.
Qed.

Definition granted (size : Z) (live : list region) (x : option Z * staging) : Prop :=
  inv x.2 (live ++ match x.1 with Some p => [(p, size)] | None => [] end).

Lemma alloc_round_inv size blocking b live x : 0 < size → inv b live →
  alloc_round size blocking b = Ok x →
  match x with inl b' => inv b' live | inr y => granted size live y end.
Proof.
  intros Hs Hi H. unfold alloc_round, granted in *. cbn [mret res_ret] in H.
  destruct (Z.ltb_spec size (min_free_space b)); [res_inv; by apply take_space_inv|].
  destruct (Z.leb_spec (consumer_pos b) (producer_pos b)).
  - destruct (refreshed_inv _ _ Hi ltac:(done)) as (_ & Hf & Hw).
    destruct (Z.ltb_spec size (min_free_space (set_free (ptr_sub N (producer_pos b)) b)));
      [res_inv; by apply (take_space_inv (set_free _ b))|].
    destruct (_ && _) in H; res_inv; [by rewrite app_nil_r | by apply peek_inv].
  - destruct (behind_inv _ _ Hi ltac:(done)) as (_ & Hf).
    destruct (_ && _) in H; res_inv; [by rewrite app_nil_r | by apply peek_inv].
Qed.

Lemma staging_step_inv s s' : staging_step s s' → inv s.1 s.2 → inv s'.1 s'.2.
Proof.
  intros [fuel size blocking b live r b' Hs Ha|b live|p size b live] Hi; cbn in *.
  - refine (run_loop_partial _ (λ b, inv b live) (granted size live) _ _ _ (r, b') Hi Ha).
    intros b0 x Hi' Hr. eapply alloc_round_inv; [|done..]. lia.
  - by apply peek_inv.
  - by eapply release_inv.
Qed.

Lemma staging_reachable_inv b live :
  reachable staging_init staging_step (b, live) → inv b live.
Proof.
  intros (s0 & [num ->] & Hrtc).
  apply (rtc_ind_r (λ s, inv s.1 s.2) (staging_create num, [])) in Hrtc; [done| |].
  - split_and!; cbn; [lia..|]. left. cbn. lia.
  - intros s s' _ Hs Hi. by eapply staging_step_inv.
Qed.

(** Without blocking two rounds are enough. *)
Lemma allocate_nonblocking size b : ∃ r, allocate 2 size false b = Ok r.
Proof.
  assert (Hpeek : ∀ b : staging, min_free_space (peek b).2 = min_free_space b).
  { intros b'. unfold peek. repeat case_match; done. }
  assert (Hagain : ∀ b : staging, ∃ r,
    match (if negb false && (min_free_space b <=? size)
           then mret (inr (None, b)) else mret (inl (peek b).2)) with
    | Ok (inl s') => run_loop 1 (alloc_round size false) s' | Ok (inr r) => Ok r
    | Throw x => Throw x | Fault f => Fault f | NoFuel => NoFuel end = Ok r).
  { intros b'. cbn [negb andb]. destruct (Z.leb_spec (min_free_space b') size); cbn [mret res_ret];
      [by eexists|]. cbn [run_loop]. unfold alloc_round. rewrite Hpeek.
    rewrite (proj2 (Z.ltb_lt _ _)) by lia. by eexists. }
  unfold allocate. set (n := 1%nat). change 2%nat with (S n). cbn [run_loop].
  unfold alloc_round at 1.
  destruct (size <? min_free_space b); [by eexists|].
  destruct (consumer_pos b <=? producer_pos b); [|apply Hagain].
  destruct (size <? min_free_space (set_free _ b)); [by eexists|apply Hagain].
Qed.

(** The three ways to a grant that [staging_deallocate_overruns] takes. *)
Lemma allocate_enough size b : size < min_free_space b →
  allocate 2 size false b = Ok (take_space size b).
Proof.
  intros. unfold allocate. cbn [run_loop]. unfold alloc_round at 1.
  by rewrite (proj2 (Z.ltb_lt _ _)) by lia.
Qed.

Lemma allocate_wraps size b : 0 < size →
  0 < consumer_pos b < producer_pos b → producer_pos b < N → min_free_space b <= size →
  N - producer_pos b <= size < consumer_pos b →
  allocate 2 size false b =
    Ok (take_space size (Stg 0 (consumer_pos b) (producer_pos b) (consumer_pos b) (num_allocates b))).
Proof.
  destruct b as [p c e m n]. cbn. intros. unfold allocate. cbn [run_loop]. unfold alloc_round at 1. cbn.
  rewrite (proj2 (Z.ltb_ge size m)), (proj2 (Z.leb_le c p)) by lia. rewrite ptr_sub_small by lia.
  rewrite (proj2 (Z.ltb_ge _ _)) by lia. unfold wrap_around. cbn.
  rewrite (proj2 (Z.eqb_neq c 0)) by lia. cbn. rewrite (ptr_sub_small c 0) by lia. rewrite Z.sub_0_r.
  rewrite (proj2 (Z.leb_gt _ _)) by lia. cbn. unfold peek. cbn.
  rewrite (proj2 (Z.ltb_lt 0 c)), (ptr_sub_small p c), (proj2 (Z.ltb_lt 0 (p - c))) by lia. cbn.
  unfold alloc_round. cbn. by rewrite (proj2 (Z.ltb_lt size c)) by lia.
Qed.

Lemma allocate_behind size b : 0 <= producer_pos b → end_of_record b < consumer_pos b < 2 ^ 62 →
  0 < end_of_record b → min_free_space b <= size < consumer_pos b - producer_pos b →
  producer_pos b < consumer_pos b →
  allocate 2 size false b = Ok (take_space size (set_free (consumer_pos b - producer_pos b) b)).
Proof.
  destruct b as [p c e m n]. cbn. intros. unfold allocate. cbn [run_loop]. unfold alloc_round at 1. cbn.
  rewrite (proj2 (Z.ltb_ge size m)), (proj2 (Z.leb_gt c p)) by lia. unfold set_free. cbn.
  rewrite (ptr_sub_small c p) by lia. rewrite (proj2 (Z.leb_gt _ _)) by lia. cbn. unfold peek. cbn.
  rewrite (proj2 (Z.ltb_lt p c)) by lia.
  rewrite (proj2 (Z.ltb_lt 0 (ptr_sub e c))) by (unfold ptr_sub, wrap; lia). cbn.
  unfold alloc_round. cbn. by rewrite (proj2 (Z.ltb_lt size (c - p))) by lia.
Qed.

(** A round never grants [N] bytes. *)
Lemma alloc_round_too_large size b live : N ≤ size → inv b live →
  ∃ b', alloc_round size true b = Ok (inl b') ∧ inv b' live.
Proof.
  intros Hs Hi. pose proof Hi as (? & ? & ? & Hc). unfold alloc_round.
  assert (min_free_space b ≤ N) as Hm.
  { destruct Hc as [?|(? & ? & ? & l1 & _ & _ & Ht%tiles_le & _)]; lia. }
  rewrite (proj2 (Z.ltb_ge _ _)) by lia. cbn [negb andb mret res_ret].
  destruct (Z.leb_spec (consumer_pos b) (producer_pos b)).
  - destruct (refreshed_inv _ _ Hi ltac:(done)) as (Hp & _ & Hw).
    rewrite (proj2 (Z.ltb_ge _ _)) by (cbn; lia). eexists; split; [done|by apply peek_inv].
  - destruct (behind_inv _ _ Hi ltac:(done)) as (_ & Hf).
    eexists; split; [done|by apply peek_inv].
Qed.

(** Blocking, with nothing live: the producer itself moves the consumer to the
    beginning. *)
Lemma allocate_empty size b : 0 < size < N → inv b [] →
  ∃ p b', allocate 3 size true b = Ok (Some p, b').
Proof.
  destruct b as [pp c e m n]. intros Hs (? & ? & ? & Hc).
  assert (He : (c = pp ∨ pp = 0 ∧ c = e ∧ e ≤ N) ∧ 0 ≤ c).
  { cbn in *. destruct Hc as [(? & ? & ?)|(? & ? & ? & l1 & l2 & Hl & Ht1 & Ht2)]; [lia|].
    symmetry in Hl. apply app_nil in Hl as [-> ->]. cbn in *. lia. }
  clear Hc. cbn in *. unfold allocate. cbn [run_loop].
  assert (Hlast : ∀ e m n, ∃ p b', match alloc_round size true (Stg 0 0 e m n) with
    | Ok (inl s') => run_loop 1 (alloc_round size true) s' | Ok (inr r) => Ok r
    | Throw x => Throw x | Fault f => Fault f | NoFuel => NoFuel end = Ok (Some p, b')).
  { intros e0 m0 n0. unfold alloc_round at 1. destruct (Z.ltb_spec size (min_free_space (Stg 0 0 e0 m0 n0))).
    { by eexists _, _. }
    cbn. rewrite ptr_sub_small by lia. rewrite (proj2 (Z.ltb_lt _ _)) by lia. by eexists _, _. }
  unfold alloc_round at 1. cbn [min_free_space consumer_pos producer_pos].
  destruct (Z.ltb_spec size m); [by eexists _, _|].
  destruct (Z.leb_spec c pp).
  - assert (c = pp) as -> by lia. unfold set_free. cbn. rewrite ptr_sub_small by lia.
    destruct (Z.ltb_spec size (N - pp)); [by eexists _, _|].
    unfold wrap_around. cbn. destruct (Z.eqb_spec pp 0); [lia|].
    unfold peek. cbn. rewrite (proj2 (Z.ltb_lt 0 pp)) by lia.
    rewrite (ptr_sub_small pp pp) by lia. rewrite Z.sub_diag. cbn. apply Hlast.
  - assert (pp = 0 ∧ c = e) as [-> ->] by lia. cbn. unfold peek. cbn.
    rewrite (proj2 (Z.ltb_lt 0 e)) by lia.
    rewrite (ptr_sub_small e e) by lia. rewrite Z.sub_diag. cbn. apply Hlast.
Qed.

(** The live records of both laps. *)
Lemma live_tiles b live : inv b live →
  Forall (λ r, inside r (0, N)) live ∧ pairwise disjoint_regions live.
Proof.
  assert (Hin : ∀ lo hi l, 0 ≤ lo → hi ≤ N → tiles lo hi l → Forall (λ r, inside r (0, N)) l).
  { intros lo hi l Hlo Hhi Ht. pose proof (tiles_inside _ _ _ Hlo Hhi Ht) as H.
    eapply Forall_impl; [exact H|]. unfold inside. cbn. lia. }
  intros (Hc & Hp & _ & [(_ & _ & Ht)|(Hlt & _ & He & l1 & l2 & -> & Ht1 & Ht2)]).
  { split; [apply (Hin _ (producer_pos b) _ Hc ltac:(lia) Ht) |
      apply (tiles_disjoint _ (producer_pos b) _ Hc ltac:(lia) Ht)]. }
  split; [apply Forall_app; split; [exact (Hin _ _ _ Hc He Ht1) | apply (Hin 0 (producer_pos b)); [lia..|done]]|].
  apply pairwise_app. split_and!.
  - exact (tiles_disjoint _ _ _ Hc He Ht1).
  - apply (tiles_disjoint 0 (producer_pos b)); [lia..|done].
  - pose proof (tiles_inside _ _ _ Hc He Ht1) as H1.
    assert (H2 := tiles_inside 0 (producer_pos b) l2 ltac:(lia) ltac:(lia) Ht2).
    eapply Forall_impl; [exact H1|]. intros r1 Hr1. eapply Forall_impl; [exact H2|].
    intros r2 Hr2. unfold disjoint_regions. cbn in *. lia.
Qed.

(** ** Theorems *)

(** C28: as long as the consumer looks before it releases, and releases whole
    records in order, the live records are inside the storage and apart, and
    the consumer finds the oldest one, complete, where it looks; allocation
    without blocking always returns. *)
Theorem staging_safe b live :
  reachable staging_init staging_step (b, live) →
  Forall (λ r, inside r (0, N)) live ∧ pairwise disjoint_regions live ∧
  (∀ p size rest, live = (p, size) :: rest → (peek b).1.1 = p ∧ size ≤ (peek b).1.2) ∧
  (∀ size, ∃ r, allocate 2 size false b = Ok r).
Proof.
  intros Hi%staging_reachable_inv. pose proof (live_tiles _ _ Hi) as [Hin Hdis].
  split_and!; [done|done| |].
  - intros p size rest ->. by apply peek_front in Hi as (? & ? & _).
  - intros size. apply allocate_nonblocking.
Qed.

(** C38: a blocking allocation from an empty buffer returns a place when the
    size is less than [N], wherever the positions are; one of [N] bytes or more
    never returns. *)
Theorem staging_blocking_returns_iff b live size :
  reachable staging_init staging_step (b, live) → 0 < size →
  (live = [] → size < N → ∃ p b', allocate 3 size true b = Ok (Some p, b')) ∧
  (N ≤ size → ∀ fuel, allocate fuel size true b = NoFuel).
Proof.
  intros Hi%staging_reachable_inv Hs. split.
  - intros -> ?. by apply allocate_empty.
  - intros HN' fuel. apply (run_loop_diverges _ (λ b, inv b live)); [|done].
    intros s Hi'. by apply alloc_round_too_large.
Qed.

(** C40: [peek] is private, so a client can only release: after a lap whose
    last record is released behind the beginning of the next one the consumer's
    position runs past the end, and a later allocation is outside the storage. *)
Theorem staging_deallocate_overruns num a b s t :
  0 < a → 0 < b → a + b < N → N - a - b <= s < a → a - s <= t < a + b → N < s + t →
  ∃ st, staging_run [OpAllocate a; OpAllocate b; OpDeallocate a; OpAllocate s;
      OpDeallocate b; OpDeallocate s; OpAllocate t] (staging_create num)
    = Ok ([Some 0; Some a; Some 0; Some s], st) ∧
  consumer_pos st = a + b + s ∧ N ≤ consumer_pos st ∧ N < consumer_pos st + t ∧ ¬ inside (s, t) (0, N).
Proof.
  intros Ha Hb Hab Hs Ht Hst. eexists. split; [|split_and!; [| | |unfold inside; cbn; lia]].
  - cbn [staging_run staging_create].
    rewrite (allocate_enough a) by (cbn; lia). cbn. rewrite (ptr_sub_small N a) by lia.
    rewrite (allocate_enough b) by (cbn; lia). cbn. rewrite (ptr_sub_small (N - a) b) by lia.
    rewrite (allocate_wraps s) by (cbn; lia). cbn.
    rewrite (ptr_sub_small (0 + a) s) by lia.
    rewrite (allocate_behind t) by (cbn; lia). cbn. reflexivity.
  - cbn. lia.
  - cbn. lia.
  - cbn. lia.
Qed.

End staging.

(** ** Witnesses *)

Definition staging_demo : staging := (take_space 50 (wrap_around 90 (deallocate 90 (take_space 10 (take_space 90 (staging_create 128 0)).2).2))).2.

Lemma staging_demo_reachable :
  reachable (staging_init 128) (staging_step 128) (staging_demo, [(90, 10); (0, 50)]).
Proof.
  exists (staging_create 128 0, []). split; [by exists 0|].
  eapply rtc_l; [eapply (staging_alloc _ 2 90 false _ [] (Some 0)); [lia|vm_compute; reflexivity]|].
  eapply rtc_l; [eapply (staging_alloc _ 2 10 false _ _ (Some 90)); [lia|vm_compute; reflexivity]|].
  eapply rtc_l; [apply staging_release|].
  eapply rtc_l; [eapply (staging_alloc _ 2 50 false _ _ (Some 0)); [lia|vm_compute; reflexivity]|].
  apply rtc_refl.
Qed.

Lemma staging_empty_reachable :
  reachable (staging_init 128) (staging_step 128) (Stg 60 60 128 68 1, []).
Proof.
  exists (staging_create 128 0, []). split; [by exists 0|].
  eapply rtc_l; [eapply (staging_alloc _ 2 60 false _ [] (Some 0)); [lia|vm_compute; reflexivity]|].
  eapply rtc_l; [apply staging_release|]. apply rtc_refl.
Qed.

Lemma staging_safe_witness :
  Forall (λ r, inside r (0, 128)) [(90, 10); (0, 50)] ∧ (peek staging_demo).1.1 = 90.
Proof.
  pose proof (staging_safe 128 ltac:(lia) _ _ staging_demo_reachable) as (Hin & _ & Hp & _).
  split; [exact Hin | exact (proj1 (Hp 90 10 [(0, 50)] eq_refl))].
Defined.

Lemma staging_blocking_returns_iff_witness :
  (∃ p b', allocate 128 3 70 true (Stg 60 60 128 68 1) = Ok (Some p, b')) ∧
  allocate 128 1000 128 true (Stg 60 60 128 68 1) = NoFuel.
Proof.
  split.
  - apply (staging_blocking_returns_iff 128 ltac:(lia) _ _ 70 staging_empty_reachable ltac:(lia)); [done|lia].
  - apply (staging_blocking_returns_iff 128 ltac:(lia) _ _ 128 staging_empty_reachable ltac:(lia)). lia.
Defined.

Lemma staging_deallocate_overruns_witness :
  ∃ st, staging_run 128 [OpAllocate 90; OpAllocate 10; OpDeallocate 90; OpAllocate 50;
      OpDeallocate 10; OpDeallocate 50; OpAllocate 90] (staging_create 128 0)
    = Ok ([Some 0; Some 90; Some 0; Some 50], st) ∧
  consumer_pos st = 90 + 10 + 50 ∧ 128 ≤ consumer_pos st ∧ 128 < consumer_pos st + 90 ∧ ¬ inside (50, 90) (0, 128).
Proof. apply (staging_deallocate_overruns 128 ltac:(lia) 0 90 10 50 90); lia. Defined.
