(* ===== verification/Net.v ===== *)
(** * Addresses, interfaces and multicast sockets (network/common, network/io/bsd)

    The C library is a parameter: [inet_addr], [inet_ntoa], [getifaddrs] with
    [getnameinfo], the interface indices.  The host is little-endian, so an
    [in_addr_t] holds the first byte of the address in its low bits.

    A socket object keeps a descriptor number; the kernel maps descriptors to
    open sockets.  The results of system calls are arguments ([rx_results],
    [tx_results]). *)

From S2P Require Import Prelude CText.
From Stdlib Require Import Ascii.
Local Open Scope Z_scope.

Definition text : Type := list ascii.

(** ** Byte order (ntohl, htonl, htons, ntohs on a little-endian host) *)

Definition byte_of (i x : Z) : Z := x / 2 ^ (8 * i) mod 256.
Definition bswap32 (x : Z) : Z :=
  byte_of 0 x * 2 ^ 24 + byte_of 1 x * 2 ^ 16 + byte_of 2 x * 2 ^ 8 + byte_of 3 x.
Definition bswap16 (x : Z) : Z := byte_of 0 x * 2 ^ 8 + byte_of 1 x.

(** The [in_addr_t] of a.b.c.d. *)
Definition quad (a b c d : Z) : Z := a + b * 2 ^ 8 + c * 2 ^ 16 + d * 2 ^ 24.

Section library.
Context (inet_addr : text → Z) (inet_ntoa : Z → text).

(** ** net_util.h *)

Definition is_multicast_addr (ipv4 : option text) : bool :=
  match ipv4 with
  | None => false
  | Some ipv4 =>
      let ip := bswap32 (inet_addr ipv4) in
      (0xE0000000 <=? ip) && (ip <=? 0xEFFFFFFF)
  end.

Definition ip_to_host_ip (ip : option text) : Z :=
  match ip with None => 0 | Some ip => bswap32 (inet_addr ip) end.

End library.

(** An element of the list of [getifaddrs]: its address is null or has a family
    and, when [getnameinfo] succeeds, a numeric host. *)
Record ifaddrs := Ifa { ifa_name : text; ifa_addr : option (Z * option text) }.

Definition AF_INET : Z := 2.

(** The loops; [None] is the failure of [getifaddrs]. *)
Fixpoint find_if (cond : text → text → bool) (ret : text → text → text) (l : list ifaddrs) : text :=
  match l with
  | [] => []
  | ifa :: l =>
      match ifa_addr ifa with
      | None => find_if cond ret l
      | Some (family, host) =>
          if negb (family =? AF_INET) then find_if cond ret l
          else
            match host with
            | Some host =>
                if cond (ifa_name ifa) host then ret (ifa_name ifa) host else find_if cond ret l
            | None => find_if cond ret l
            end
      end
  end.

Definition ipv4_to_if_name (ifs : option (list ifaddrs)) (ipv4 : text) : text :=
  match ifs with
  | None => []
  | Some l => find_if (λ _ host, bool_decide (ipv4 = host)) (λ name _, name) l
  end.

Definition if_name_to_ipv4 (ifs : option (list ifaddrs)) (if_name : text) : text :=
  match ifs with
  | None => []
  | Some l => find_if (λ name _, bool_decide (if_name = name)) (λ _ host, host) l
  end.

(** ** net_common.h *)

(** [addr_t]: [ip] has 16 bytes. *)
Record addr_t := Addr { ip : text; port : Z; family : Z }.

Definition NUL : ascii := Ascii.zero.

(** [strncpy(dst, src, n)]: at most [n] bytes, filled up with NULs. *)
Definition strncpy (dst src : text) (n : nat) : text :=
  take n (src ++ replicate n NUL) ++ drop n dst.

(** The C string at the beginning of a buffer. *)
Fixpoint c_str (b : text) : text :=
  match b with [] => [] | c :: b => if Ascii.eqb c NUL then [] else c :: c_str b end.

Definition addr_create : addr_t := Addr (replicate 16 NUL) 0 AF_INET.

Definition set_ip (p : option text) (a : addr_t) : addr_t :=
  match p with None => a | Some p => Addr (strncpy (ip a) p 15) (port a) (family a) end.
Definition set_port (p : Z) (a : addr_t) : addr_t := Addr (ip a) p (family a).

Record sockaddr_in := Sin { sin_family : Z; sin_port : Z; s_addr : Z }.

Definition to_sockaddr (inet_addr : text → Z) (a : addr_t) : sockaddr_in :=
  Sin (family a) (bswap16 (port a)) (inet_addr (c_str (ip a))).

Definition from_sockaddr (inet_ntoa : Z → text) (s : sockaddr_in) (a : addr_t) : addr_t :=
  Addr (strncpy (ip a) (inet_ntoa (s_addr s)) 15) (bswap16 (sin_port s)) (sin_family s).

(** [ip_pair::if_idx] is a [short].

    [\d+\.\d+\.\d+\.\d+]: [dots] groups are still to come after this one, which
    already has digits when [started]. *)
Fixpoint dotted (dots : nat) (started : bool) (s : text) : bool :=
  match s with
  | [] => match dots with O => started | S _ => false end
  | c :: s =>
      if is_digit c then dotted dots true s
      else if Ascii.eqb c "."%char then
        match dots with O => false | S dots => started && dotted dots false s end
      else false
  end.

(** [set_if_name]: [None] is the failed assertion. *)
Definition set_if_name (ifs : option (list ifaddrs)) (if_nametoindex : text → Z) (if_name : text)
    : option Z :=
  let ifn := if dotted 3 false if_name then ipv4_to_if_name ifs if_name else if_name in
  let if_idx := swrap 16 (if_nametoindex ifn) in
  if if_idx =? 0 then None else Some if_idx.

Definition get_if_name (if_index_to_name : Z → text) (if_idx : Z) : text :=
  if (if_idx =? -1) || (if_idx =? 0) then [] else if_index_to_name if_idx.

(** [net_io::get_ip]: the text that [sprintf] writes. *)
Definition dot : ascii := "."%char.

Definition get_ip (ip : Z) : text :=
  to_string (Z.shiftr ip 24) ++ dot :: to_string (Z.land (Z.shiftr ip 16) 0xFF) ++
  dot :: to_string (Z.land (Z.shiftr ip 8) 0xFF) ++ dot :: to_string (Z.land ip 0xFF).

(** The socket address that [net_io::connect] and [net_io::bind] build, and what
    [get_sock_name] and [get_peer_name] store of the answer of the system; when
    the call fails they read [junk], their uninitialised variable. *)
Definition socket_name (ip port : Z) : sockaddr_in := Sin AF_INET (bswap16 port) (bswap32 ip).
Definition read_name (answer : option sockaddr_in) (junk : sockaddr_in) : Z * Z :=
  let a := default junk answer in (bswap32 (s_addr a), bswap16 (sin_port a)).

(** [net_io::set_nio]: the flags given to [F_SETFL]; [flags] is the answer of
    [F_GETFL]. *)
Definition O_NONBLOCK : Z := 0x800.
Definition set_nio (mode flags : Z) : Z :=
  if mode =? 1 then Z.lor O_NONBLOCK flags else Z.land (Z.lnot O_NONBLOCK) flags.

(** ** Descriptors *)

(** [sk_id] numbers the sockets in the order of their creation. *)
Record sock := Sock { sk_id : nat; sk_nonblock : bool; sk_member : bool }.

Record kernel := Kern { fds : gmap Z sock; next_id : nat }.

Definition k_open (fd : Z) (k : kernel) : kernel :=
  Kern (<[fd := Sock (next_id k) false false]> (fds k)) (S (next_id k)).
Definition k_close (fd : Z) (k : kernel) : kernel := Kern (delete fd (fds k)) (next_id k).
Definition k_alter (f : sock → sock) (fd : Z) (k : kernel) : kernel :=
  Kern (alter f fd (fds k)) (next_id k).

Definition nonblock_on (s : sock) : sock := Sock (sk_id s) true (sk_member s).
Definition member_set (b : bool) (s : sock) : sock := Sock (sk_id s) (sk_nonblock s) b.

(** [if_index_to_name]: the new socket, if any, and the answer of [ioctl]. *)
Definition if_index_to_name (sock : option Z) (answer : option text) (k : kernel) : text * kernel :=
  match sock with
  | None => ([], k)
  | Some fd =>
      let k := k_open fd k in
      match answer with
      | None => ([], k_close fd k)
      | Some name => (name, k_close fd k)
      end
  end.

(** ** [rx_bsd_mcbc] *)

Record rx_cfg := RxCfg { join_multicast : bool; non_blocking : bool; dst_multicast : bool }.

(** [socket] and whether each later call succeeds.  The socket that
    [if_index_to_name] opens and closes again for the group is left out. *)
Record rx_results := RxRes {
  rx_socket : option Z; rx_reuse : bool; rx_timeo : bool; rx_bind : bool; rx_fcntl : bool;
  rx_join : bool; rx_drop : bool
}.

(** The state of an object is [fd_]. *)
Definition rx_open (c : rx_cfg) (o : rx_results) (fd_ : Z) (k : kernel) : bool * Z * kernel :=
  match rx_socket o with
  | None => (false, -1, k)
  | Some fd =>
      let k := k_open fd k in
      if negb (rx_reuse o) then (false, fd, k)
      else if negb (rx_timeo o) then (false, fd, k)
      else if negb (rx_bind o) then (false, fd, k)
      else if negb (non_blocking c) && negb (rx_fcntl o) then (false, fd, k)
      else
        let k := if negb (non_blocking c) then k_alter nonblock_on fd k else k in
        if join_multicast c && dst_multicast c then
          if negb (rx_join o) then (false, fd, k)
          else (true, fd, k_alter (member_set true) fd k)
        else (true, fd, k)
  end.

Definition rx_close (c : rx_cfg) (o : rx_results) (fd_ : Z) (k : kernel) : Z * kernel :=
  if fd_ <? 0 then (fd_, k)
  else
    let k := if join_multicast c && rx_drop o then k_alter (member_set false) fd_ k else k in
    (fd_, k_close fd_ k).

(** ** [tx_bsd_mcbc] *)

Record tx_results := TxRes {
  tx_socket : option Z; tx_reuse : bool; tx_timeo : bool; tx_ttl : bool; tx_loop : bool;
  tx_connect : bool
}.

Definition tx_open (c : rx_cfg) (o : tx_results) (fd_ : Z) (k : kernel) : bool * Z * kernel :=
  match tx_socket o with
  | None => (false, -1, k)
  | Some fd =>
      let k := k_open fd k in
      if negb (tx_reuse o) then (false, fd, k)
      else if negb (tx_timeo o) then (false, fd, k)
      else if join_multicast c && dst_multicast c && negb (tx_ttl o) then (false, fd, k)
      else if join_multicast c && dst_multicast c && negb (tx_loop o) then (false, fd, k)
      else if negb (tx_connect o) then (false, fd, k)
      else (true, fd, k)
  end.

Definition tx_close (fd_ : Z) (k : kernel) : Z * kernel :=
  if fd_ <? 0 then (fd_, k) else (-1, k_close fd_ k).

(** A program with one sender: its descriptor, the descriptor table of the
    process, the sockets that the sender has created, and those among them that
    it has forgotten: [open] overwrites [fd_] without looking at it. *)
Record tx_state := TxState { tx_fd : Z; tx_kernel : kernel; tx_own : gset nat; tx_lost : gset nat }.

(** The socket that a descriptor names. *)
Definition sock_at (fd : Z) (k : kernel) : gset nat :=
  match fds k !! fd with Some s => {[sk_id s]} | None => ∅ end.

(** [open] and [close] are called in any order, [open] also on a sender that is
    open or whose last [open] has failed; others open and close sockets. *)
Inductive tx_step : tx_state → tx_state → Prop :=
| tx_step_open c o fd k fd' k' b own lost :
    (∀ n, tx_socket o = Some n → 0 ≤ n ∧ fds k !! n = None) →
    tx_open c o fd k = (b, fd', k') →
    tx_step (TxState fd k own lost)
      (TxState fd' k' (match tx_socket o with Some _ => {[next_id k]} ∪ own | None => own end)
         (if 0 <=? fd then sock_at fd k ∪ lost else lost))
| tx_step_close fd k fd' k' own lost :
    tx_close fd k = (fd', k') → tx_step (TxState fd k own lost) (TxState fd' k' own lost)
| tx_other_open n fd k own lost :
    0 ≤ n → fds k !! n = None → tx_step (TxState fd k own lost) (TxState fd (k_open n k) own lost)
| tx_other_close n s fd k own lost :
    fds k !! n = Some s → sk_id s ∉ own → tx_step (TxState fd k own lost) (TxState fd (k_close n k) own lost).

Definition tx_init (s : tx_state) : Prop :=
  ∃ k, s = TxState (-1) k ∅ ∅ ∧
    (∀ n x, fds k !! n = Some x → (sk_id x < next_id k)%nat) ∧
    (∀ n n' x x', fds k !! n = Some x → fds k !! n' = Some x' → sk_id x = sk_id x' → n = n').

Definition is_open (i : nat) (k : kernel) : Prop := ∃ n x, fds k !! n = Some x ∧ sk_id x = i.

(** The descriptor names one of the sender's sockets, the lost ones are open at
    others, and no socket has two descriptors. *)
Record tx_inv (s : tx_state) : Prop := {
  ti_ids n x : fds (tx_kernel s) !! n = Some x → (sk_id x < next_id (tx_kernel s))%nat;
  ti_unique n n' x x' : fds (tx_kernel s) !! n = Some x → fds (tx_kernel s) !! n' = Some x' → sk_id x = sk_id x' → n = n';
  ti_own i : i ∈ tx_own s → (i < next_id (tx_kernel s))%nat;
  ti_named : 0 ≤ tx_fd s → ∃ x, fds (tx_kernel s) !! tx_fd s = Some x ∧ sk_id x ∈ tx_own s ∧ sk_id x ∉ tx_lost s;
  ti_lost i : i ∈ tx_lost s → i ∈ tx_own s ∧ is_open i (tx_kernel s);
  ti_all n x : fds (tx_kernel s) !! n = Some x → sk_id x ∈ tx_own s → sk_id x ∉ tx_lost s → n = tx_fd s ∧ 0 ≤ tx_fd s
}.

(** ** Lemmas *)

Definition is_byte (x : Z) : Prop := 0 ≤ x < 256.

Lemma bswap32_quad a b c d : is_byte a → is_byte b → is_byte c → is_byte d →
  bswap32 (quad a b c d) = ((a * 256 + b) * 256 + c) * 256 + d.
Proof. unfold is_byte, bswap32, quad, byte_of. intros. cbn -[Z.div Z.modulo Z.add Z.mul]. lia. Qed.

Lemma bswap16_involutive x : 0 ≤ x < 65536 → bswap16 (bswap16 x) = x.
Proof. unfold bswap16, byte_of. intros. cbn -[Z.div Z.modulo Z.add Z.mul]. lia. Qed.

Lemma byte_of_bound i x : 0 ≤ byte_of i x < 256.
Proof. unfold byte_of. apply Z.mod_pos_bound. lia. Qed.

Lemma bswap32_involutive x : 0 ≤ x < 2 ^ 32 → bswap32 (bswap32 x) = x.
Proof.
  intros Hx. assert (Hq : bswap32 x = quad (byte_of 3 x) (byte_of 2 x) (byte_of 1 x) (byte_of 0 x))
    by (unfold bswap32, quad; lia).
  rewrite Hq, bswap32_quad by (unfold is_byte; apply byte_of_bound).
  unfold byte_of. change (2 ^ 32) with 4294967296 in Hx. cbn -[Z.div Z.modulo Z.add Z.mul]. lia.
Qed.

Lemma testbit_nonblock i : Z.testbit O_NONBLOCK i = bool_decide (i = 11).
Proof.
  change O_NONBLOCK with (2 ^ 11). rewrite Z.pow2_bits_eqb by lia.
  destruct (Z.eqb_spec 11 i); case_bool_decide; congruence.
Qed.

Lemma find_if_spec cond ret l name host :
  Ifa name (Some (AF_INET, Some host)) ∈ l → cond name host = true →
  (∀ n h, Ifa n (Some (AF_INET, Some h)) ∈ l → cond n h = true → n = name ∧ h = host) →
  find_if cond ret l = ret name host.
Proof.
  intros Hin Hc Huniq. induction l as [|[n ad] l IH]; [by apply not_elem_of_nil in Hin|].
  assert (Hl : Ifa n ad ≠ Ifa name (Some (AF_INET, Some host)) → find_if cond ret l = ret name host).
  { intros Hne. apply IH; [|intros ? ? ? ?; apply Huniq; [by apply elem_of_cons; right|done]].
    by apply elem_of_cons in Hin as [?|?]; [congruence|]. }
  cbn. destruct ad as [[f [h|]]|]; [| |by apply Hl].
  - destruct (Z.eqb_spec f AF_INET) as [->|]; cbn [negb]; [|apply Hl; congruence].
    destruct (cond n h) eqn:E; [|apply Hl; congruence].
    destruct (Huniq n h) as [-> ->]; [by apply elem_of_cons; left|done..].
  - destruct (Z.eqb_spec f AF_INET) as [->|]; cbn [negb]; apply Hl; congruence.
Qed.

Lemma find_if_none cond ret l :
  (∀ n h, Ifa n (Some (AF_INET, Some h)) ∈ l → cond n h = false) → find_if cond ret l = [].
Proof.
  induction l as [|[n ad] l IH]; intros Hl; [done|].
  assert (find_if cond ret l = []) as Hr.
  { apply IH. intros ? ? ?. apply Hl. apply elem_of_cons. by right. }
  cbn. destruct ad as [[f [h|]]|]; [| |done].
  - destruct (Z.eqb_spec f AF_INET) as [->|]; [|done]. cbn [negb].
    rewrite (Hl n h); [done|]. apply elem_of_cons. by left.
  - by destruct (_ =? _).
Qed.

Definition ip_ok (a : addr_t) : Prop := ∃ l, ip a = l ++ [NUL] ∧ length l = 15%nat.

Lemma c_str_app l k : NUL ∉ l → c_str (l ++ NUL :: k) = l.
Proof.
  induction l as [|c l IH]; cbn; [done|]. intros [Hc Hl]%not_elem_of_cons.
  destruct (Ascii.eqb_spec c NUL) as [->|_]; [done|]. by rewrite IH.
Qed.

Lemma strncpy_ok a s : ip_ok a → ∃ l, strncpy (ip a) s 15 = l ++ [NUL] ∧ length l = 15%nat.
Proof.
  intros (l & -> & Hl). exists (take 15 (s ++ replicate 15 NUL)). unfold strncpy. split.
  - f_equal. by rewrite drop_app_length'.
  - rewrite length_take, length_app, length_replicate. lia.
Qed.

Lemma c_str_strncpy a s : ip_ok a → NUL ∉ s → c_str (strncpy (ip a) s 15) = take 15 s.
Proof.
  intros (l & -> & Hl) Hs. unfold strncpy. rewrite drop_app_length' by done.
  rewrite take_app, take_replicate. destruct (Nat.min _ _) as [|n] eqn:E; cbn [replicate].
  - rewrite app_nil_r. apply c_str_app. intros Hi. apply Hs. rewrite <- (take_drop 15 s). apply elem_of_app. by left.
  - rewrite <- app_assoc. cbn. apply c_str_app. intros Hi. apply Hs. rewrite <- (take_drop 15 s). apply elem_of_app. by left.
Qed.

(** Reading the four numbers back. *)
Definition read_quad (s : text) : option Z :=
  '(a, s) ← split_at dot s; '(b, s) ← split_at dot s; '(c, d) ← split_at dot s;
  match stoi false a, stoi false b, stoi false c, stoi false d with
  | Ok a, Ok b, Ok c, Ok d => Some (((a * 256 + b) * 256 + c) * 256 + d)
  | _, _, _, _ => None
  end.

Lemma byte_text z : 0 ≤ z < 256 →
  (length (to_string z) ≤ 3)%nat ∧ dot ∉ to_string z ∧ NUL ∉ to_string z ∧ stoi false (to_string z) = Ok z.
Proof.
  intros Hz. assert (Hall : forallb (λ n, (length (to_string (Z.of_nat n)) <=? 3)%nat &&
    forallb (λ c, negb (Ascii.eqb c dot) && negb (Ascii.eqb c NUL)) (to_string (Z.of_nat n))) (seq 0 256) = true)
    by (vm_compute; reflexivity).
  rewrite forallb_forall in Hall. specialize (Hall (Z.to_nat z)).
  rewrite Z2Nat.id in Hall by lia. destruct (andb_prop _ _ (Hall ltac:(apply in_seq; lia))) as [Hl Hc].
  apply Nat.leb_le in Hl. rewrite forallb_forall in Hc. split_and!; [done| | |apply stoi_to_string; lia].
  - intros Hi%list_elem_of_In%Hc. cbn in Hi. done.
  - intros Hi%list_elem_of_In%Hc. cbn in Hi. done.
Qed.

Lemma byte_of_land ip n : 0 ≤ n → Z.land (Z.shiftr ip n) 0xFF = ip / 2 ^ n mod 256.
Proof. intros Hn. change 0xFF with (Z.ones 8). by rewrite Z.land_ones, Z.shiftr_div_pow2 by lia. Qed.

Lemma tx_open_kernel c o fd k b fd' k' : tx_open c o fd k = (b, fd', k') →
  match tx_socket o with
  | None => b = false ∧ fd' = -1 ∧ k' = k
  | Some n => fd' = n ∧ k' = k_open n k
  end.
Proof. unfold tx_open. intros. repeat case_match; simplify_eq; done. Qed.

(** A new socket, by whomever. *)
Lemma ids_open n k : fds k !! n = None →
  (∀ m x, fds k !! m = Some x → (sk_id x < next_id k)%nat) →
  (∀ m m' x x', fds k !! m = Some x → fds k !! m' = Some x' → sk_id x = sk_id x' → m = m') →
  (∀ m x, fds (k_open n k) !! m = Some x → (sk_id x < next_id (k_open n k))%nat) ∧
  (∀ m m' x x', fds (k_open n k) !! m = Some x → fds (k_open n k) !! m' = Some x' → sk_id x = sk_id x' → m = m') ∧
  (∀ i, is_open i k → is_open i (k_open n k)).
Proof.
  intros Hfree Hid Hun. split_and!; cbn.
  - intros m x [[<- <-]|[? ?%Hid]]%lookup_insert_Some; cbn; lia.
  - intros m m' x x' [[<- <-]|[? Hx]]%lookup_insert_Some [[<- <-]|[? Hx']]%lookup_insert_Some; cbn; try done.
    + apply Hid in Hx'. lia.
    + apply Hid in Hx. lia.
    + by apply Hun.
  - intros i (m & x & Hm & Hi). exists m, x. split; [|done]. cbn. rewrite lookup_insert_ne by congruence. done.
Qed.

(** A closed one. *)
Lemma ids_close n k :
  (∀ m x, fds k !! m = Some x → (sk_id x < next_id k)%nat) →
  (∀ m m' x x', fds k !! m = Some x → fds k !! m' = Some x' → sk_id x = sk_id x' → m = m') →
  (∀ m x, fds (k_close n k) !! m = Some x → (sk_id x < next_id (k_close n k))%nat) ∧
  (∀ m m' x x', fds (k_close n k) !! m = Some x → fds (k_close n k) !! m' = Some x' → sk_id x = sk_id x' → m = m') ∧
  (∀ i, is_open i k → (∀ x, fds k !! n = Some x → sk_id x ≠ i) → is_open i (k_close n k)).
Proof.
  intros Hid Hun. split_and!; cbn.
  - by intros m x [_ ?%Hid]%lookup_delete_Some.
  - intros m m' x x' [_ Hx]%lookup_delete_Some [_ Hx']%lookup_delete_Some. by apply Hun.
  - intros i (m & x & Hm & Hi) Hne. exists m, x. split; [|done]. apply lookup_delete_Some. split; [|done].
    intros ->. by apply (Hne x).
Qed.

(** What [open] does to the sender, before it has a new socket. *)
Lemma forget_ok fd k own lost : tx_inv (TxState fd k own lost) →
  tx_inv (TxState (-1) k own (if 0 <=? fd then sock_at fd k ∪ lost else lost)).
Proof.
  intros [Hid Hun Hown Hfd Hlost Hall]; cbn in *. destruct (Z.leb_spec 0 fd) as [Hf|Hf].
  - destruct (Hfd Hf) as (x & Hx & Hin & Hno). unfold sock_at. rewrite Hx. split; cbn; try done; try lia.
    + intros i [->%elem_of_singleton|Hi]%elem_of_union; [|by apply Hlost]. split; [done|]. by exists fd, x.
    + intros n y Hy Hyi [Hy1 Hy2]%not_elem_of_union. destruct (Hall n y Hy Hyi Hy2) as [-> _].
      rewrite Hx in Hy. simplify_eq. destruct Hy1. by apply elem_of_singleton.
  - split; cbn; try done; try lia. intros n y Hy Hyi Hn. destruct (Hall n y Hy Hyi Hn). lia.
Qed.

Lemma tx_step_inv s s' : tx_step s s' → tx_inv s → tx_inv s'.
Proof.
  intros Hs H. destruct Hs as [c o fd k fd' k' b own lost Hfresh Ho|
    fd k fd' k' own lost Hc|n fd k own lost Hn Hfree|n x fd k own lost Hx Hno].
  - apply forget_ok in H. revert H. generalize (if 0 <=? fd then sock_at fd k ∪ lost else lost). intros l H.
    apply tx_open_kernel in Ho. destruct (tx_socket o) as [n|]; [|by destruct Ho as (-> & -> & ->)].
    destruct Ho as [-> ->], (Hfresh n eq_refl) as [Hn Hfree], H as [Hid Hun Hown Hfd Hlost Hall]; cbn in *.
    destruct (ids_open n k Hfree Hid Hun) as (Hid' & Hun' & Hop). split; [exact Hid'|exact Hun'|..]; cbn.
    + intros i [->%elem_of_singleton|?%Hown]%elem_of_union; lia.
    + intros _. eexists. rewrite lookup_insert_eq. split; [done|]. cbn. split; [set_solver|].
      intros [?%Hown _]%Hlost. lia.
    + intros i Hi. destruct (Hlost i Hi) as [? ?%Hop]. split; [set_solver|done].
    + intros m y [[<- <-]|[? Hm]]%lookup_insert_Some; [done|]. rewrite elem_of_union, elem_of_singleton.
      pose proof (Hid _ _ Hm). intros [?|Hin] Hl; [lia|]. destruct (Hall _ _ Hm Hin Hl). lia.
  - unfold tx_close in Hc. destruct (Z.ltb_spec fd 0) as [|Hf]; simplify_eq/=; [done|].
    destruct H as [Hid Hun Hown Hfd Hlost Hall]; cbn in *. destruct (Hfd Hf) as (x & Hx & Hin & Hno).
    destruct (ids_close fd k Hid Hun) as (Hid' & Hun' & Hop). split; [exact Hid'|exact Hun'|done|cbn; lia|..]; cbn.
    + intros i Hi. destruct (Hlost i Hi) as [? Ho]. split; [done|]. apply Hop; [done|]. intros y Hy E. congruence.
    + intros m y [? Hm]%lookup_delete_Some Hy Hl. destruct (Hall _ _ Hm Hy Hl). congruence.
  - destruct H as [Hid Hun Hown Hfd Hlost Hall]; cbn in *. destruct (ids_open n k Hfree Hid Hun) as (Hid' & Hun' & Hop).
    split; [exact Hid'|exact Hun'|..]; cbn.
    + intros i ?%Hown. lia.
    + intros (x & Hx & Hin)%Hfd. exists x. rewrite lookup_insert_ne by congruence. done.
    + intros i [? ?%Hop]%Hlost. done.
    + intros m y [[<- <-]|[? Hm]]%lookup_insert_Some; [|by apply Hall]. cbn. intros ?%Hown. lia.
  - destruct H as [Hid Hun Hown Hfd Hlost Hall]; cbn in *. destruct (ids_close n k Hid Hun) as (Hid' & Hun' & Hop).
    split; [exact Hid'|exact Hun'|done|..]; cbn.
    + intros (y & Hy & Hin)%Hfd. exists y. rewrite lookup_delete_ne; [done|]. intros ->. naive_solver.
    + intros i [Hi Ho]%Hlost. split; [done|]. apply Hop; [done|]. intros y Hy E. congruence.
    + intros m y [_ Hm]%lookup_delete_Some. by apply Hall.
Qed.

Lemma tx_reachable_inv s : reachable tx_init tx_step s → tx_inv s.
Proof.
  apply (reachable_invariant tx_init tx_step tx_inv).
  - intros s0 (k & -> & Hk & Hu). split; cbn; try done; try lia; try set_solver.
  - intros s1 s2 H1 Hs. by apply (tx_step_inv s1).
Qed.

(** ** Theorems *)

(** C36: a sender whose [open] and [close] are called in any order, while others
    open and close sockets.  [close] closes the socket that [fd_] names, which is
    one of the sender's own, and no other; called again it does nothing.  After
    it the sockets of the sender that are open are those that an [open] has
    overwritten: each [open] of a sender that is open, or that is tried again
    after it failed behind [socket], leaks one, for ever. *)
Theorem tx_owns_its_socket s fd1 k1 :
  reachable tx_init tx_step s → tx_close (tx_fd s) (tx_kernel s) = (fd1, k1) →
  (0 ≤ tx_fd s → ∃ x, fds (tx_kernel s) !! tx_fd s = Some x ∧ sk_id x ∈ tx_own s ∧ sk_id x ∉ tx_lost s) ∧
  (∀ n x, fds (tx_kernel s) !! n = Some x → sk_id x ∉ tx_own s → fds k1 !! n = Some x) ∧
  (∀ i, i ∈ tx_lost s ↔ i ∈ tx_own s ∧ is_open i k1) ∧
  tx_close fd1 k1 = (fd1, k1).
Proof.
  intros [Hid Hun Hown Hfd Hlost Hall]%tx_reachable_inv Hc. unfold tx_close in Hc.
  split; [done|]. destruct (Z.ltb_spec (tx_fd s) 0) as [Hneg|Hpos]; simplify_eq.
  - split; [done|]. split; [|by unfold tx_close; rewrite (proj2 (Z.ltb_lt _ _))]. intros i. split; [apply Hlost|].
    intros [Hi (n & x & Hx & <-)]. destruct (decide (sk_id x ∈ tx_lost s)) as [|Hn]; [done|].
    destruct (Hall n x Hx Hi Hn). lia.
  - destruct (Hfd Hpos) as (x & Hx & Hin & Hno). destruct (ids_close (tx_fd s) _ Hid Hun) as (_ & _ & Hop).
    split; [|split; [|done]].
    + intros n y Hy Hny. apply lookup_delete_Some. split; [|done]. intros <-. congruence.
    + intros i. split.
      * intros Hi. destruct (Hlost i Hi) as [? Ho]. split; [done|]. apply Hop; [done|]. intros y Hy E. congruence.
      * intros [Hi (n & y & Hy & <-)]. apply (lookup_delete_Some (fds (tx_kernel s))) in Hy as [Hne Hy]. destruct (decide (sk_id y ∈ tx_lost s)) as [|Hn]; [done|].
        destruct (Hall n y Hy Hi Hn). congruence.
Qed.

(** a receiver that opens is non-blocking exactly when its configuration
    asks for a blocking one, and is a member of the group exactly when that was
    asked for and the address is a multicast address; a failed [open] after
    [socket] leaves the socket open.  [close] keeps the descriptor: when the
    number has been given to a socket of someone else, the next [close] (the
    destructor calls it again) closes that socket. *)
Theorem rx_open_close_spec c o o' fd k b fd' k' :
  fds k !! fd = None → 0 ≤ fd → rx_socket o = Some fd →
  rx_open c o (-1) k = (b, fd', k') →
  fd' = fd ∧ (∃ x, fds k' !! fd = Some x ∧ sk_id x = next_id k ∧
    (b = true → sk_nonblock x = negb (non_blocking c) ∧
       sk_member x = join_multicast c && dst_multicast c)) ∧
  let '(fd1, k1) := rx_close c o' fd' k' in
  fd1 = fd ∧ fds k1 = fds k ∧
  let other := k_open fd k1 in
  is_Some (fds other !! fd) ∧ fds (rx_close c o' fd1 other).2 !! fd = None.
Proof.
  intros Hfree Hfd Hs Ho.
  assert (fd' = fd ∧ ∃ x, fds k' = <[fd := x]> (fds k) ∧ sk_id x = next_id k ∧
    (b = true → sk_nonblock x = negb (non_blocking c) ∧
       sk_member x = join_multicast c && dst_multicast c)) as (-> & x & Hx & Hid & Hb).
  { unfold rx_open in Ho. rewrite Hs in Ho. cbn in Ho.
    repeat case_match; simplify_eq; (split; [done|]); cbn [fds k_open k_alter];
      rewrite ?alter_insert_eq, ?alter_insert_eq; eexists; (split; [reflexivity|]); cbn;
      (split; [done|]); intros; done || (split; by rewrite ?H4). }
  split; [done|]. split; [exists x; by rewrite Hx, lookup_insert_eq|].
  unfold rx_close. rewrite (proj2 (Z.ltb_ge _ _)) by done. rewrite (proj2 (Z.ltb_ge _ _)) by done.
  split; [done|]. split.
  - case_match; cbn; rewrite Hx; rewrite ?alter_insert_eq; by rewrite delete_insert_id.
  - split; [by eexists; apply lookup_insert_eq|].
    case_match; cbn; by rewrite lookup_delete_eq.
Qed.

(** for interfaces with different names and addresses the two searches are
    inverse on every IPv4 interface, and give the empty string for a name or an
    address that none has. *)
Theorem interface_lookup_roundtrip l name host :
  (∀ n1 n2 h1 h2, Ifa n1 (Some (AF_INET, Some h1)) ∈ l → Ifa n2 (Some (AF_INET, Some h2)) ∈ l →
     (n1 = n2 ↔ h1 = h2)) →
  Ifa name (Some (AF_INET, Some host)) ∈ l →
  ipv4_to_if_name (Some l) host = name ∧ if_name_to_ipv4 (Some l) name = host ∧
  if_name_to_ipv4 (Some l) (ipv4_to_if_name (Some l) host) = host ∧
  (∀ other, (∀ n h, Ifa n (Some (AF_INET, Some h)) ∈ l → h ≠ other) → ipv4_to_if_name (Some l) other = []) ∧
  (∀ other, (∀ n h, Ifa n (Some (AF_INET, Some h)) ∈ l → n ≠ other) → if_name_to_ipv4 (Some l) other = []).
Proof.
  intros Hinj Hin.
  assert (H1 : ipv4_to_if_name (Some l) host = name).
  { cbn. apply (find_if_spec (λ _ h, bool_decide (host = h)) (λ n _, n) l name host Hin); [by apply bool_decide_eq_true|].
    intros n h Hn <-%bool_decide_eq_true. split; [|done]. by apply (Hinj _ _ _ _ Hn Hin). }
  assert (H2 : if_name_to_ipv4 (Some l) name = host).
  { cbn. apply (find_if_spec (λ n _, bool_decide (name = n)) (λ _ h, h) l name host Hin); [by apply bool_decide_eq_true|].
    intros n h Hn <-%bool_decide_eq_true. split; [done|]. by apply (Hinj _ _ _ _ Hn Hin). }
  split_and!; [done|done|by rewrite H1| |]; intros other Ho; cbn; apply find_if_none;
    intros n h Hn; apply bool_decide_eq_false; intros ->; by eapply Ho.
Qed.

(** the multicast addresses are those whose first byte is 224 to 239, and
    the host address is the number that the four bytes write. *)
Theorem multicast_spec inet_addr s a b c d :
  is_byte a → is_byte b → is_byte c → is_byte d → inet_addr s = quad a b c d →
  (is_multicast_addr inet_addr (Some s) = true ↔ 224 ≤ a ≤ 239) ∧
  ip_to_host_ip inet_addr (Some s) = ((a * 256 + b) * 256 + c) * 256 + d ∧
  is_multicast_addr inet_addr None = false ∧ ip_to_host_ip inet_addr None = 0.
Proof.
  intros Ha Hb Hc Hd Hs. unfold is_multicast_addr, ip_to_host_ip.
  rewrite Hs, bswap32_quad by done. unfold is_byte in *. split_and!; [|done..].
  rewrite andb_true_iff, !Z.leb_le. lia.
Qed.

(** an address of at most 15 characters and any port survive the
    conversion to a socket address and back into any other [addr_t]; longer
    texts are cut to 15 characters. *)
Theorem addr_roundtrip inet_addr inet_ntoa a a' s p :
  ip_ok a → ip_ok a' → NUL ∉ s → 0 ≤ p < 65536 →
  let a1 := set_port p (set_ip (Some s) a) in
  ip_ok a1 ∧ c_str (ip a1) = take 15 s ∧
  (inet_ntoa (inet_addr (take 15 s)) = take 15 s →
   let a2 := from_sockaddr inet_ntoa (to_sockaddr inet_addr a1) a' in
   ip_ok a2 ∧ c_str (ip a2) = take 15 s ∧ port a2 = p ∧ family a2 = family a).
Proof.
  intros Ha Ha' Hs Hp a1.
  assert (H1 : c_str (ip a1) = take 15 s) by (by apply c_str_strncpy).
  split_and!; [by apply strncpy_ok|done|]. intros Hn a2.
  assert (Hip : ip a2 = strncpy (ip a') (take 15 s) 15).
  { unfold a2, from_sockaddr, to_sockaddr. cbn [ip s_addr]. by rewrite H1, Hn. }
  split_and!; [unfold ip_ok; rewrite Hip; by apply strncpy_ok| | |done].
  - rewrite Hip, c_str_strncpy by (done || intros Hi; apply Hs;
      rewrite <- (take_drop 15 s); apply elem_of_app; by left).
    by rewrite take_take.
  - unfold a2, from_sockaddr, to_sockaddr. cbn. by apply bswap16_involutive.
Qed.

(** [set_if_name] and [get_if_name] are inverse as long as the index of the
    interface is below [2^15]; the index [65535] is stored as "none",
    and [65536] fails the assertion. *)
Theorem if_name_roundtrip ifs nametoindex indextoname name :
  dotted 3 false name = false →
  (0 < nametoindex name < 32768 → indextoname (nametoindex name) = name →
   ∃ i, set_if_name ifs nametoindex name = Some i ∧ get_if_name indextoname i = name) ∧
  (nametoindex name = 65535 →
   ∃ i, set_if_name ifs nametoindex name = Some i ∧ get_if_name indextoname i = []) ∧
  (nametoindex name = 65536 ∨ nametoindex name = 0 → set_if_name ifs nametoindex name = None).
Proof.
  intros Hd. unfold set_if_name. rewrite Hd. split_and!.
  - intros Hr Hi. assert (swrap 16 (nametoindex name) = nametoindex name) as ->.
    { unfold swrap, wrap. rewrite Z.mod_small by lia. rewrite (proj2 (Z.ltb_lt _ _)) by lia. done. }
    rewrite (proj2 (Z.eqb_neq _ _)) by lia. eexists. split; [done|].
    unfold get_if_name. rewrite !(proj2 (Z.eqb_neq _ _)) by lia. done.
  - intros ->. by eexists.
  - by intros [-> | ->].
Qed.

(** [if_index_to_name] leaves the descriptor table as it found it. *)
Theorem if_index_to_name_closes fd answer k :
  fds k !! fd = None →
  fds (if_index_to_name (Some fd) answer k).2 = fds k ∧
  (if_index_to_name (Some fd) answer k).1 = default [] answer ∧
  if_index_to_name None answer k = ([], k).
Proof. intros Hf. destruct answer; cbn; split_and!; try done; by rewrite delete_insert_id. Qed.

(** [get_ip] writes at most 15 characters and a NUL, so it stays inside the
    16 bytes its callers have, and its text determines the address. *)
Theorem get_ip_fits x :
  0 ≤ x < 2 ^ 32 →
  (length (get_ip x) ≤ 15)%nat ∧ NUL ∉ get_ip x ∧ read_quad (get_ip x) = Some x.
Proof.
  intros Hx. unfold get_ip. rewrite Z.shiftr_div_pow2 by lia. rewrite !byte_of_land by lia.
  change (Z.land x 0xFF) with (Z.land (Z.shiftr x 0) 0xFF). rewrite byte_of_land by lia.
  change (2 ^ 24) with 16777216. change (2 ^ 16) with 65536. change (2 ^ 8) with 256. change (2 ^ 0) with 1.
  destruct (byte_text (x / 16777216)) as (L1 & D1 & N1 & S1); [lia|].
  destruct (byte_text (x / 65536 mod 256)) as (L2 & D2 & N2 & S2); [lia|].
  destruct (byte_text (x / 256 mod 256)) as (L3 & D3 & N3 & S3); [lia|].
  destruct (byte_text (x / 1 mod 256)) as (L4 & D4 & N4 & S4); [lia|]. split_and!.
  - rewrite !length_app; cbn [length]; rewrite !length_app; cbn [length]; rewrite !length_app; cbn [length]. lia.
  - rewrite !not_elem_of_app, !not_elem_of_cons, !not_elem_of_app, !not_elem_of_cons,
      !not_elem_of_app, !not_elem_of_cons. done.
  - unfold read_quad. do 3 (rewrite split_at_app by done; cbn [mbind option_bind]).
    rewrite S1, S2, S3, S4. f_equal. lia.
Qed.

(** the address and port that a connection was made with are the ones read
    back from the socket, whatever was in the variable before. *)
Theorem peer_name_roundtrip ip port junk :
  0 ≤ ip < 2 ^ 32 → 0 ≤ port < 65536 →
  read_name (Some (socket_name ip port)) junk = (ip, port).
Proof.
  intros Hi Hp. unfold read_name, socket_name. cbn -[bswap32 bswap16].
  by rewrite bswap32_involutive, bswap16_involutive.
Qed.

(** [set_nio] changes the flag O_NONBLOCK and no other; only mode 1 sets it. *)
Theorem set_nio_spec mode flags :
  Z.testbit (set_nio mode flags) 11 = bool_decide (mode = 1) ∧
  (∀ i, 0 ≤ i → i ≠ 11 → Z.testbit (set_nio mode flags) i = Z.testbit flags i) ∧
  ∀ mode', set_nio mode (set_nio mode' flags) = set_nio mode flags.
Proof.
  assert (Hb : ∀ m f i, 0 ≤ i → Z.testbit (set_nio m f) i =
    if bool_decide (i = 11) then bool_decide (m = 1) else Z.testbit f i).
  { intros m f i Hi. unfold set_nio.
    destruct (Z.eqb_spec m 1); [rewrite Z.lor_spec|rewrite Z.land_spec, Z.lnot_spec by done];
      rewrite testbit_nonblock; repeat case_bool_decide; try done; by rewrite ?andb_false_l. }
  split_and!.
  - by rewrite Hb.
  - intros i Hi Hne. rewrite Hb by done. by rewrite bool_decide_false.
  - intros mode'. apply Z.bits_inj'. intros i Hi. rewrite !Hb by done. by case_bool_decide.
Qed.

(** ** Witnesses *)

Lemma get_ip_fits_witness : read_quad (get_ip 3232235777) = Some 3232235777.
Proof. apply (get_ip_fits 3232235777). lia. Defined.

Definition k0 : kernel := Kern ∅ 0.
Definition all_ok (fd : Z) : rx_results := RxRes (Some fd) true true true true true true.

(** [connect] fails, [open] is tried again and succeeds: the first socket is
    lost, and still open after [close]. *)
Lemma tx_owns_its_socket_witness :
  ∃ s, reachable tx_init tx_step s ∧ tx_fd s = 4 ∧
    let '(fd1, k1) := tx_close 4 (tx_kernel s) in fd1 = -1 ∧ is_open 0 k1 ∧ fds k1 !! 4 = None.
Proof.
  set (c := RxCfg false true false).
  assert (Hr : reachable tx_init tx_step (TxState 4 (k_open 4 (k_open 3 k0)) ({[1%nat]} ∪ ({[0%nat]} ∪ ∅)) ({[0%nat]} ∪ ∅))).
  { exists (TxState (-1) k0 ∅ ∅). split; [exists k0; by split|].
    eapply rtc_l; [apply (tx_step_open c (TxRes (Some 3) true true true true false) (-1) k0 3 (k_open 3 k0) false ∅ ∅)|].
    { intros n [= <-]. by split. } { reflexivity. }
    apply rtc_once.
    apply (tx_step_open c (TxRes (Some 4) true true true true true) 3 (k_open 3 k0) 4 (k_open 4 (k_open 3 k0)) true).
    { intros n [= <-]. by split. } { reflexivity. } }
  eexists. split; [exact Hr|]. split; [reflexivity|].
  destruct (tx_owns_its_socket _ (-1) (k_close 4 (k_open 4 (k_open 3 k0))) Hr eq_refl) as (_ & _ & Hl & _).
  split; [reflexivity|]. split; [|reflexivity]. apply (Hl 0%nat). cbn. set_solver.
Defined.

Lemma rx_open_close_spec_witness :
  ∃ x, fds (rx_open (RxCfg true false true) (all_ok 3) (-1) k0).2 !! 3 = Some x ∧ sk_nonblock x = true.
Proof.
  destruct (rx_open_close_spec (RxCfg true false true) (all_ok 3) (all_ok 3) 3 k0 true 3
    (rx_open (RxCfg true false true) (all_ok 3) (-1) k0).2 eq_refl ltac:(lia) eq_refl eq_refl)
    as (_ & (x & Hx & _ & Hb) & _).
  exists x. split; [exact Hx|]. apply Hb. reflexivity.
Defined.

Lemma interface_lookup_roundtrip_witness :
  if_name_to_ipv4 (Some [Ifa ["l";"o"]%char None; Ifa ["e"]%char (Some (2, Some ["1"]%char))]) ["e"%char]
    = ["1"%char].
Proof.
  apply interface_lookup_roundtrip.
  - intros n1 n2 h1 h2 H1 H2. apply list_elem_of_In in H1, H2. cbn in H1, H2. naive_solver.
  - apply list_elem_of_In. cbn. auto.
Defined.

Lemma multicast_spec_witness :
  is_multicast_addr (λ _, quad 239 1 2 3) (Some []) = true ∧
  ip_to_host_ip (λ _, quad 239 1 2 3) (Some []) = 4009820675.
Proof.
  destruct (multicast_spec (λ _, quad 239 1 2 3) [] 239 1 2 3) as (H1 & H2 & _);
    [unfold is_byte; lia..|reflexivity|]. split; [apply H1; lia|exact H2].
Defined.

Lemma addr_roundtrip_witness :
  c_str (ip (from_sockaddr (λ _, ["1"%char]) (to_sockaddr (λ _, 1)
    (set_port 80 (set_ip (Some ["1"%char]) addr_create))) addr_create)) = ["1"%char].
Proof.
  assert (H : ip_ok addr_create) by (exists (replicate 15 NUL); done).
  destruct (addr_roundtrip (λ _, 1) (λ _, ["1"%char]) addr_create addr_create ["1"%char] 80 H H)
    as (_ & _ & H3); [set_solver|lia|]. apply H3. reflexivity.
Defined.

Lemma if_name_roundtrip_witness :
  ∃ i, set_if_name None (λ _, 2) ["e"%char] = Some i ∧ get_if_name (λ _, ["e"%char]) i = ["e"%char].
Proof. apply (if_name_roundtrip None (λ _, 2) (λ _, ["e"%char]) ["e"%char] eq_refl); [lia|reflexivity]. Defined.

Lemma if_index_to_name_closes_witness :
  fds (if_index_to_name (Some 3) None k0).2 = fds k0.
Proof. apply (if_index_to_name_closes 3 None k0 eq_refl). Defined.

Lemma peer_name_roundtrip_witness :
  read_name (Some (socket_name 3232235777 8080)) (Sin 0 0 0) = (3232235777, 8080).
Proof. apply (peer_name_roundtrip 3232235777 8080 (Sin 0 0 0)); lia. Defined.

Lemma set_nio_spec_witness : Z.testbit (set_nio 1 2) 1 = true.
Proof. apply (proj1 (proj2 (set_nio_spec 1 2)) 1); lia. Defined.
