(* ===== verification/RtxTcp.v ===== *)
(** * TCP readers and writers (network/io/bsd/rtx_bsd_tcp)

    Opening and closing a TCP client against the table of descriptors of Net.
    [read] and [write] forward to [recv] and [send]. *)

From S2P Require Import Prelude Net.
From stdpp Require Import gmap.
Local Open Scope Z_scope.

(** [timeval] of a timeout in milliseconds: C's [/] and [%]. *)
Definition tv_of (timeout_ms : Z) : Z * Z := (Z.quot timeout_ms 1000, Z.rem timeout_ms 1000 * 1000).

(** [socket], and whether each later call succeeds. *)
Record rtx_results := RtxRes {
  rtx_socket : option Z; rtx_connect : bool; rtx_fcntl : bool; rtx_rcvtimeo : bool; rtx_sndtimeo : bool
}.

(** The state of an object is [opt_.fd], which its owner may set.  The old
    flags are those of the socket: [flag |= O_NONBLOCK]. *)
Definition rtx_open (nonblock : bool) (o : rtx_results) (fd_ : Z) (k : kernel) : bool * Z * kernel :=
  let connect (fd : Z) (k : kernel) :=
    if negb (rtx_connect o) then (false, fd, k)
    else if nonblock then
      if negb (rtx_fcntl o) then (false, fd, k) else (true, fd, k_alter nonblock_on fd k)
    else if negb (rtx_rcvtimeo o) then (false, fd, k)
    else if negb (rtx_sndtimeo o) then (false, fd, k)
    else (true, fd, k) in
  if fd_ <? 0 then
    match rtx_socket o with
    | None => (false, -1, k)
    | Some fd => connect fd (k_open fd k)
    end
  else connect fd_ k.

Definition rtx_close (fd_ : Z) (k : kernel) : Z * kernel :=
  if fd_ <? 0 then (fd_, k) else (-1, k_close fd_ k).

(** A client that tries again after each failure. *)
Fixpoint rtx_opens (nonblock : bool) (os : list rtx_results) (fd_ : Z) (k : kernel) : bool * Z * kernel :=
  match os with
  | [] => (false, fd_, k)
  | o :: os =>
      let '(b, fd_, k) := rtx_open nonblock o fd_ k in
      if b then (true, fd_, k) else rtx_opens nonblock os fd_ k
  end.

(** ** Specification *)

(** [socket] gives a number that is not in use. *)
Definition socket_new (k : kernel) (o : rtx_results) : Prop :=
  ∀ n, rtx_socket o = Some n → 0 ≤ n ∧ fds k !! n = None.

(** What the client has, compared with the table [k0] before it: nothing, or
    the one socket that its descriptor names. *)
Definition rtx_inv (k0 : kernel) (fd_ : Z) (k : kernel) : Prop :=
  (fd_ < 0 ∧ k = k0) ∨
  (0 ≤ fd_ ∧ fds k0 !! fd_ = None ∧ next_id k = S (next_id k0) ∧
   ∃ x, fds k = <[fd_ := x]> (fds k0) ∧ sk_id x = next_id k0).

Lemma rtx_open_inv nb o k0 fd k b fd' k' :
  socket_new k0 o → rtx_inv k0 fd k → rtx_open nb o fd k = (b, fd', k') →
  rtx_inv k0 fd' k' ∧
  (b = true → 0 ≤ fd' ∧ (nb = true → ∃ x, fds k' !! fd' = Some x ∧ sk_nonblock x = true)).
Proof.
  intros Hnew Hinv. unfold rtx_open.
  assert (Hconn : ∀ fd k, rtx_inv k0 fd k → 0 ≤ fd →
    (if negb (rtx_connect o) then (false, fd, k)
     else if nb then
       if negb (rtx_fcntl o) then (false, fd, k) else (true, fd, k_alter nonblock_on fd k)
     else if negb (rtx_rcvtimeo o) then (false, fd, k)
     else if negb (rtx_sndtimeo o) then (false, fd, k)
     else (true, fd, k)) = (b, fd', k') →
    rtx_inv k0 fd' k' ∧
    (b = true → 0 ≤ fd' ∧ (nb = true → ∃ x, fds k' !! fd' = Some x ∧ sk_nonblock x = true))).
  { clear. intros fd k [[? _]|(Hp & Hf & Hn & x & Hx & Hid)] Hfd Hr; [lia|].
    assert (Hk : rtx_inv k0 fd k) by (right; split_and!; try done; by exists x).
    assert (Hnb : rtx_inv k0 fd (k_alter nonblock_on fd k) ∧
      ∃ y, fds (k_alter nonblock_on fd k) !! fd = Some y ∧ sk_nonblock y = true).
    { cbn. rewrite Hx, alter_insert_eq. split; [|by rewrite lookup_insert_eq; eexists].
      right. cbn. rewrite Hx, alter_insert_eq. split_and!; try done. by eexists. }
    destruct (rtx_connect o), nb, (rtx_fcntl o), (rtx_rcvtimeo o), (rtx_sndtimeo o); simplify_eq/=;
      (split; [by try apply Hnb|]); intros; try done; split; try done; intros; try done; by apply Hnb. }
  destruct (Z.ltb_spec fd 0) as [Hneg|Hpos]; [|by apply Hconn].
  destruct Hinv as [[_ ->]|[? _]]; [|lia].
  destruct (rtx_socket o) as [n|] eqn:Hs; [|intros; simplify_eq; by split; [left|]].
  destruct (Hnew n Hs) as [Hn Hfree]. apply Hconn; [|done].
  right. cbn. split_and!; try done. by eexists.
Qed.

Lemma rtx_opens_inv nb os k0 : ∀ fd k b fd' k',
  Forall (socket_new k0) os → rtx_inv k0 fd k → rtx_opens nb os fd k = (b, fd', k') →
  rtx_inv k0 fd' k' ∧
  (b = true → 0 ≤ fd' ∧ (nb = true → ∃ x, fds k' !! fd' = Some x ∧ sk_nonblock x = true)).
Proof.
  induction os as [|o os IH]; intros fd k b fd' k' Hos Hinv H; simplify_eq/=; [done|].
  apply Forall_cons in Hos as [Ho Hos].
  destruct (rtx_open nb o fd k) as [[b1 fd1] k1] eqn:E. destruct (rtx_open_inv _ _ _ _ _ _ _ _ Ho Hinv E) as [H1 Hb1].
  destruct b1; simplify_eq; [done|]. by apply (IH fd1 k1).
Qed.

(** ** Theorems *)

(** however often [open] fails and is tried again, the client makes one
    socket at most, which its descriptor names from then on; [close] leaves the
    table as it was before the first attempt, and a second [close] changes
    nothing.  A client that answers true has a socket, in the mode asked for. *)
Theorem rtx_open_close_spec nb os k0 b fd k :
  Forall (socket_new k0) os → rtx_opens nb os (-1) k0 = (b, fd, k) →
  (next_id k ≤ S (next_id k0))%nat ∧
  (b = true → 0 ≤ fd ∧ ∃ x, fds k !! fd = Some x ∧ sk_id x = next_id k0 ∧ (nb = true → sk_nonblock x = true)) ∧
  let '(fd1, k1) := rtx_close fd k in
  fd1 < 0 ∧ fds k1 = fds k0 ∧ rtx_close fd1 k1 = (fd1, k1).
Proof.
  intros Hos H. destruct (rtx_opens_inv nb os k0 (-1) k0 b fd k Hos) as [Hinv Hb]; [by left|done|].
  unfold rtx_close. destruct Hinv as [[Hneg ->]|(Hpos & Hf & Hn & x & Hx & Hid)].
  - split; [lia|]. split; [intros Htrue; destruct (Hb Htrue); lia|].
    rewrite !(proj2 (Z.ltb_lt fd 0)) by done. done.
  - split; [lia|]. split.
    + intros Htrue. split; [done|]. exists x. rewrite Hx, lookup_insert_eq. split_and!; [done..|].
      intros Hnb. destruct (proj2 (Hb Htrue) Hnb) as (y & Hy & Hm). rewrite Hx, lookup_insert_eq in Hy. congruence.
    + rewrite (proj2 (Z.ltb_ge fd 0)) by done. cbn. rewrite Hx. split_and!; [done|by rewrite delete_insert_id|done].
Qed.

(** the timeouts are the milliseconds, as a valid [timeval] unless negative. *)
Theorem tv_of_spec ms :
  let '(s, us) := tv_of ms in s * 1000000 + us = ms * 1000 ∧ (0 ≤ ms → 0 ≤ s ∧ 0 ≤ us < 1000000).
Proof.
  unfold tv_of. pose proof (Z.quot_rem' ms 1000). split; [lia|]. intros Hm.
  pose proof (Z.rem_bound_pos ms 1000 Hm ltac:(lia)). pose proof (Z.quot_pos ms 1000 Hm ltac:(lia)). lia.
Qed.

(** ** Witnesses *)

Lemma rtx_open_close_spec_witness :
  ∃ k, rtx_opens true [RtxRes (Some 3) false true true true; RtxRes (Some 4) true true true true] (-1) k0
         = (true, 3, k) ∧ fds (rtx_close 3 k).2 = ∅.
Proof.
  eexists. split; [reflexivity|].
  pose proof (rtx_open_close_spec true [RtxRes (Some 3) false true true true; RtxRes (Some 4) true true true true]
    k0 true 3 _ ltac:(repeat (apply Forall_cons; split; [intros n [= <-]; by split|]); by apply Forall_nil) eq_refl) as (_ & _ & H).
  exact (proj1 (proj2 H)).
Defined.
