(* ===== verification/SockOpts.v ===== *)
(** * Socket options (core/net_io)

    The wrappers of [setsockopt] against the options of one socket, a map from
    level and name to the value.  Whether the system accepts a call is an
    argument. *)

From S2P Require Import Prelude.
From stdpp Require Import gmap.
Local Open Scope Z_scope.

Definition SOL_SOCKET : Z := 1.
Definition SO_REUSEADDR : Z := 2.
Definition SO_LINGER : Z := 13.
Definition SO_REUSEPORT : Z := 15.
Definition IPPROTO_IP : Z := 0.
Definition IP_TOS : Z := 1.
Definition IPPROTO_TCP : Z := 6.
Definition TCP_NODELAY : Z := 1.

Definition sockopts : Type := gmap (Z * Z) (list Z).

Definition setsockopt (accepted : bool) (level name : Z) (value : list Z) (o : sockopts) : bool * sockopts :=
  if accepted then (true, <[(level, name) := value]> o) else (false, o).

Definition flag_value (flag : bool) : list Z := [if flag then 1 else 0].

(** [l_onoff] and [l_linger]. *)
Definition set_tcp_linger (accepted : bool) (o : sockopts) : bool * sockopts :=
  setsockopt accepted SOL_SOCKET SO_LINGER [1; 30] o.

Definition set_tcp_nodelay (accepted : bool) (o : sockopts) : bool * sockopts :=
  setsockopt accepted IPPROTO_IP TCP_NODELAY [1] o.

Definition set_reuse_addr (flag accepted : bool) (o : sockopts) : bool * sockopts :=
  (true, (setsockopt accepted SOL_SOCKET SO_REUSEADDR (flag_value flag) o).2).

Definition set_reuse_port (flag accepted : bool) (o : sockopts) : bool * sockopts :=
  setsockopt accepted SOL_SOCKET SO_REUSEPORT (flag_value flag) o.

Inductive opt_call := CLinger | CNodelay | CReuseAddr (flag : bool) | CReusePort (flag : bool).

Definition opt_run (c : opt_call) (accepted : bool) (o : sockopts) : bool * sockopts :=
  match c with
  | CLinger => set_tcp_linger accepted o
  | CNodelay => set_tcp_nodelay accepted o
  | CReuseAddr f => set_reuse_addr f accepted o
  | CReusePort f => set_reuse_port f accepted o
  end.

(** Calls in order, with what the system answers. *)
Definition opt_runs (cs : list (opt_call * bool)) (o : sockopts) : sockopts :=
  foldl (λ o c, (opt_run c.1 c.2 o).2) o cs.

(** ** Specification *)

(** The option that a call is about, and the value it asks for. *)
Definition opt_meant (c : opt_call) : (Z * Z) * list Z :=
  match c with
  | CLinger => ((SOL_SOCKET, SO_LINGER), [1; 30])
  | CNodelay => ((IPPROTO_TCP, TCP_NODELAY), [1])
  | CReuseAddr f => ((SOL_SOCKET, SO_REUSEADDR), flag_value f)
  | CReusePort f => ((SOL_SOCKET, SO_REUSEPORT), flag_value f)
  end.

Definition is_nodelay (c : opt_call) : bool := match c with CNodelay => true | _ => false end.

(** ** Theorems *)

Lemma opt_run_spec c accepted o : is_nodelay c = false →
  (opt_run c accepted o).2 = if accepted then <[(opt_meant c).1 := (opt_meant c).2]> o else o.
Proof. by destruct c, accepted. Qed.

(** each wrapper but one sets exactly the option it is named after, when the
    system accepts the call; [set_reuse_addr] answers true in any case.
    [set_tcp_nodelay] passes the level of IP: whatever calls are made, the TCP
    option keeps its value, and what it sets is the type of service. *)
Theorem set_options_spec :
  (∀ c accepted o, is_nodelay c = false →
     (opt_run c accepted o).2 = if accepted then <[(opt_meant c).1 := (opt_meant c).2]> o else o) ∧
  (∀ f accepted o, (set_reuse_addr f accepted o).1 = true) ∧
  (∀ cs o, opt_runs cs o !! (IPPROTO_TCP, TCP_NODELAY) = o !! (IPPROTO_TCP, TCP_NODELAY)) ∧
  (∀ cs o, opt_runs cs o !! (IPPROTO_IP, IP_TOS) =
     if existsb (λ c, is_nodelay c.1 && c.2) cs then Some [1] else o !! (IPPROTO_IP, IP_TOS)).
Proof.
  split_and!.
  - apply opt_run_spec.
  - done.
  - intros cs. induction cs as [|[c a] cs IH]; intros o; [done|]. unfold opt_runs in *. cbn [foldl fst snd].
    rewrite IH. destruct a; [|by destruct c]. by destruct c; rewrite ?opt_run_spec by done; apply lookup_insert_ne.
  - intros cs. induction cs as [|[c a] cs IH]; intros o; [done|]. unfold opt_runs in *. cbn [foldl existsb fst snd].
    rewrite IH. destruct (existsb _ cs); [by rewrite orb_true_r|]. rewrite orb_false_r.
    destruct a; [|by destruct c].
    destruct c; rewrite ?opt_run_spec by done; [| apply lookup_insert_eq | |]; by apply lookup_insert_ne.
Qed.

(** ** Witness *)

(** What [api_apt_cb] does to the socket of a new client. *)
Lemma set_options_spec_witness :
  opt_runs [(CNodelay, true); (CLinger, true)] ∅ !! (IPPROTO_TCP, TCP_NODELAY) = None ∧
  opt_runs [(CNodelay, true); (CLinger, true)] ∅ !! (IPPROTO_IP, IP_TOS) = Some [1].
Proof.
  destruct set_options_spec as (_ & _ & H1 & H2). split.
  - exact (H1 [(CNodelay, true); (CLinger, true)] ∅).
  - exact (H2 [(CNodelay, true); (CLinger, true)] ∅).
Defined.
