(* ===== verification/Helpers.v ===== *)
(** * Small helpers (basic/repeat_filter_limit.h, allocator.h, raii.h,
      date_time.h, util/file_util.h, core/time.cpp)

    Objects of the slot allocator and guards are kept in explicit states with
    the history that the properties speak of. *)

From S2P Require Import Prelude.
From Stdlib Require Import Ascii.
Local Open Scope Z_scope.

(** ** [RepeatFilterLimit] *)

Record repeat_filter := Rf {
  counter : Z; bar1 : Z; bar2 : Z; threshold1 : Z; threshold2 : Z
}.

Definition rf_create (b1 t1 b2 t2 : Z) : repeat_filter := Rf 0 b1 b2 t1 t2.

(** A remainder by zero is undefined. *)
Definition divides_rem (a t : Z) : res bool :=
  if t =? 0 then Fault DivByZero else mret (wrap 64 a mod t =? 0).

Definition repeat_ (f : repeat_filter) : res (bool * repeat_filter) :=
  let c := wrap 64 (counter f + 1) in
  let f := Rf c (bar1 f) (bar2 f) (threshold1 f) (threshold2 f) in
  if c <? bar1 f then mret (true, f)
  else if c <? bar2 f then b ← divides_rem (c - bar1 f) (threshold1 f); mret (b, f)
  else
    b ← divides_rem (c - bar2 f) (threshold2 f);
    if b : bool then mret (true, f) else mret (false, f).

(** [n] calls. *)
Fixpoint repeat_calls (n : nat) (f : repeat_filter) : res (list bool * repeat_filter) :=
  match n with
  | O => mret ([], f)
  | S n => '(b, f) ← repeat_ f; '(bs, f) ← repeat_calls n f; mret (b :: bs, f)
  end.

(** What the [c]-th call answers. *)
Definition passes (b1 t1 b2 t2 c : Z) : bool :=
  if c <? b1 then true
  else if c <? b2 then (c - b1) mod t1 =? 0
  else (c - b2) mod t2 =? 0.

(** ** [Allocator<T, N>] *)

(** [mem_pool_]: the addresses of the free slots, in the order of the queue;
    [buf] is the block that the constructor allocated. *)
Definition alloc_create (buf size : Z) (N : nat) : list Z :=
  (λ i, buf + Z.of_nat i * size) <$> seq 0 N.

Definition alloc_allocate (pool : list Z) : option Z * list Z :=
  match pool with
  | [] => (None, [])
  | p :: pool => (Some p, pool)
  end.

Definition alloc_deallocate (p : option Z) (pool : list Z) : list Z :=
  match p with None => pool | Some p => pool ++ [p] end.

(** Clients: the second component holds the objects that are alive. *)
Inductive alloc_step : list Z * list Z → list Z * list Z → Prop :=
| alloc_step_allocate pool live p pool' :
    alloc_allocate pool = (p, pool') →
    alloc_step (pool, live) (pool', match p with Some p => p :: live | None => live end)
| alloc_step_deallocate pool live p live' :
    live ≡ₚ p :: live' → alloc_step (pool, live) (alloc_deallocate (Some p) pool, live').

(** ** [RAII] *)

(** The release function by its number; [None] is an empty [std::function]. *)
Record raii := Raii { commit_ : bool; release_func : option nat }.

(** Running an empty function in the destructor, which is [noexcept], ends the
    program. *)
Inductive raii_event := Released (id : nat) | Terminated.

(** The constructor; its second argument, the acquire function, is not used. *)
Definition raii_create (release : nat) (commit : bool) : raii := Raii commit (Some release).

(** The move constructor: the new guard, and what is left of the other. *)
Definition raii_move (other : raii) : raii * raii :=
  (Raii (commit_ other) (release_func other), Raii false None).

Definition raii_commit (flag : bool) (g : raii) : raii := Raii flag (release_func g).

Definition raii_destroy (g : raii) : list raii_event :=
  if commit_ g then match release_func g with Some id => [Released id] | None => [Terminated] end
  else [].

(** [make_raii]: the member function bound to its object. *)
Definition make_raii (rel : nat) (default_com : bool) : raii := raii_create rel default_com.

(** [RAIIVar]: the constructor acquires the resource and leaves [commit_] as it
    was in memory. *)
Record raii_var := RaiiVar { rv_commit : option bool; rv_resource : nat }.

Definition raii_var_create (acquired : nat) : raii_var := RaiiVar None acquired.
Definition raii_var_commit (flag : bool) (g : raii_var) : raii_var := RaiiVar (Some flag) (rv_resource g).
Definition raii_var_move (other : raii_var) : res (raii_var * raii_var) :=
  c ← deref Uninitialised (rv_commit other);
  mret (RaiiVar (Some c) (rv_resource other), RaiiVar (Some false) (rv_resource other)).
Definition raii_var_destroy (g : raii_var) : res (list raii_event) :=
  c ← deref Uninitialised (rv_commit g);
  mret (if c : bool then [Released (rv_resource g)] else []).

(** Programs that create, move and destroy guards. *)
Record guards := Guards { gs : gmap nat raii; created : list nat; log : list raii_event }.

Inductive guards_step : guards → guards → Prop :=
| step_create k id s :
    gs s !! k = None → id ∉ created s →
    guards_step s (Guards (<[k := raii_create id true]> (gs s)) (id :: created s) (log s))
| step_move k k' g s :
    gs s !! k = Some g → gs s !! k' = None →
    guards_step s (Guards (<[k' := (raii_move g).1]> (<[k := (raii_move g).2]> (gs s))) (created s) (log s))
| step_destroy k g s :
    gs s !! k = Some g →
    guards_step s (Guards (delete k (gs s)) (created s) (log s ++ raii_destroy g)).

Definition guards_init (s : guards) : Prop := s = Guards ∅ [] [].

(** ** Ticks *)

Definition TICKS_PER_US : Z := 1000.
Definition TICKS_PER_MS : Z := 1000 * TICKS_PER_US.
Definition TICKS_PER_SECOND : Z := 1000 * TICKS_PER_MS.
Definition TICKS_PER_MINUTE : Z := 60 * TICKS_PER_SECOND.
Definition TICKS_PER_HOUR : Z := 60 * TICKS_PER_MINUTE.
Definition TICKS_PER_DAY : Z := 24 * TICKS_PER_HOUR.

(** [now]: what [clock_gettime] returned. *)
Definition now (tv_sec tv_nsec : Z) : Z := wrap 64 (tv_sec * TICKS_PER_SECOND + tv_nsec).
Definition utc_to_tick (ts : Z) : Z := wrap 64 (TICKS_PER_SECOND * ts).

(** The seconds that [tick_to_timestamp] formats. *)
Definition tick_to_time (tick : Z) : Z := tick / TICKS_PER_SECOND.

Record tm := Tm { tm_sec : Z; tm_min : Z; tm_hour : Z; tm_mday : Z; tm_mon : Z; tm_year : Z }.

Definition timestamp_to_tick (mktime : tm → Z) (year month mday hour minute sec milli : Z) : Z :=
  let time_now := wrap 64 (mktime (Tm sec minute hour mday (month - 1) (year - 1900)) * TICKS_PER_SECOND) in
  wrap 64 (time_now + wrap 64 (TICKS_PER_MS * milli)).

(** [detail::time]: the two clocks at its construction or last [reset]. *)
Record time_base := TimeBase { start_time_since_epoch : Z; start_time_steady : Z }.

Definition time_reset (system steady : Z) : time_base := TimeBase system steady.
Definition time_now (steady : Z) (b : time_base) : Z :=
  start_time_since_epoch b + (steady - start_time_steady b).

(** ** Paths *)

Definition slash : ascii := "/"%char.

(** [strrchr] and [strchr]: what is before and behind the character. *)
Fixpoint split_last (s : list ascii) : option (list ascii * list ascii) :=
  match s with
  | [] => None
  | c :: s =>
      match split_last s with
      | Some (a, b) => Some (c :: a, b)
      | None => if Ascii.eqb c slash then Some ([], s) else None
      end
  end.

Fixpoint split_first (s : list ascii) : option (list ascii * list ascii) :=
  match s with
  | [] => None
  | c :: s =>
      if Ascii.eqb c slash then Some ([], s)
      else match split_first s with Some (a, b) => Some (c :: a, b) | None => None end
  end.

Definition path_base_name (file_name : option (list ascii)) : list ascii :=
  match file_name with
  | None => []
  | Some s => match split_last s with None => s | Some (_, b) => b end
  end.

Definition path_dir_name (file_name : option (list ascii)) : list ascii :=
  match file_name with
  | None => []
  | Some s => match split_first s with None => [] | Some (a, _) => a end
  end.

(** ** Lemmas *)

(** *** Repeat filter *)

Lemma divides_rem_ok a t : 0 < t → 0 ≤ a < 2 ^ 64 → divides_rem a t = Ok (a mod t =? 0).
Proof.
  intros Ht Ha. unfold divides_rem. rewrite (proj2 (Z.eqb_neq _ _)) by lia.
  by rewrite wrap_small by lia.
Qed.

Lemma repeat_ok b1 t1 b2 t2 c : 0 < t1 → 0 < t2 → 0 ≤ b1 → 0 ≤ b2 → 0 ≤ c → c + 1 < 2 ^ 64 →
  repeat_ (Rf c b1 b2 t1 t2) = Ok (passes b1 t1 b2 t2 (c + 1), Rf (c + 1) b1 b2 t1 t2).
Proof.
  intros. unfold repeat_, passes. cbn [counter bar1 bar2 threshold1 threshold2].
  rewrite wrap_small by lia.
  destruct (Z.ltb_spec (c + 1) b1); [done|]. destruct (Z.ltb_spec (c + 1) b2).
  - by rewrite divides_rem_ok by lia.
  - rewrite divides_rem_ok by lia. cbn [mbind res_bind]. by destruct (_ =? _).
Qed.

Lemma repeat_calls_ok b1 t1 b2 t2 n : 0 < t1 → 0 < t2 → 0 ≤ b1 → 0 ≤ b2 → ∀ c, 0 ≤ c →
  c + Z.of_nat n < 2 ^ 64 →
  repeat_calls n (Rf c b1 b2 t1 t2) =
    Ok ((λ i, passes b1 t1 b2 t2 (c + Z.of_nat i)) <$> seq 1 n, Rf (c + Z.of_nat n) b1 b2 t1 t2).
Proof.
  intros Ht1 Ht2 Hb1 Hb2. induction n as [|n IH]; intros c Hc Hn.
  - cbn. by rewrite Z.add_0_r.
  - cbn [repeat_calls]. rewrite repeat_ok by lia. cbn [mbind res_bind].
    rewrite IH by lia. cbn [mbind res_bind mret res_ret seq fmap list_fmap]. do 2 f_equal.
    + f_equal. rewrite <- (fmap_S_seq 1 n), <- list_fmap_compose. apply list_fmap_ext.
      intros i x _. cbn. f_equal. lia.
    + f_equal. lia.
Qed.

(** One multiple in every window of [t] numbers. *)
Lemma one_multiple t b s : 0 < t → b ≤ s → ∃ c, (s ≤ c < s + t ∧ (c - b) mod t = 0) ∧
  ∀ c', s ≤ c' < s + t → (c' - b) mod t = 0 → c' = c.
Proof.
  intros Ht Hb. exists (s + (b - s) mod t). pose proof (Z.mod_pos_bound (b - s) t Ht).
  assert (Hc : (s + (b - s) mod t - b) mod t = 0).
  { replace (s + (b - s) mod t - b) with ((b - s) mod t - (b - s)) by ring.
    rewrite Zminus_mod_idemp_l, Z.sub_diag. apply Z.mod_0_l. lia. }
  split; [split; [lia|done]|]. intros c' Hr Hm.
  assert (Hd : (c' - (s + (b - s) mod t)) mod t = 0).
  { replace (c' - (s + (b - s) mod t)) with ((c' - b) - (s + (b - s) mod t - b)) by ring.
    rewrite Zminus_mod, Hm, Hc, Z.sub_diag. apply Z.mod_0_l. lia. }
  apply Z.mod_divide in Hd as [q Hq]; [|lia].
  generalize dependent ((b - s) mod t). intros r Hr0 _ Hq. assert (q = 0) as -> by nia. lia.
Qed.

(** *** Allocator *)

Definition alloc_slots (buf size : Z) (N : nat) (s : list Z * list Z) : Prop :=
  s.1 ++ s.2 ≡ₚ alloc_create buf size N.

Lemma alloc_step_slots buf size N s s' :
  alloc_step s s' → alloc_slots buf size N s → alloc_slots buf size N s'.
Proof.
  unfold alloc_slots. intros [pool live p pool' Ha|pool live p live' Hl] H; cbn in *.
  - destruct pool as [|q pool]; cbn in Ha; simplify_eq; [done|]. cbn in H.
    by rewrite <- Permutation_middle.
  - rewrite Hl in H. rewrite <- app_assoc. exact H.
Qed.

Lemma alloc_reachable buf size N s :
  rtc alloc_step (alloc_create buf size N, []) s → alloc_slots buf size N s.
Proof.
  intros Hr. apply (rtc_ind_r (alloc_slots buf size N) (alloc_create buf size N, [])) in Hr; [done| |].
  - unfold alloc_slots. cbn. by rewrite app_nil_r.
  - intros ? ? _ Hs Hi. by eapply alloc_step_slots.
Qed.

Lemma alloc_create_disjoint buf size N : 0 < size →
  pairwise disjoint_regions ((λ p, (p, size)) <$> alloc_create buf size N).
Proof.
  intros Hs. unfold alloc_create. generalize 0%nat as k. induction N as [|N IH]; intros k; cbn; [done|].
  split; [|apply IH]. rewrite Forall_fmap, Forall_fmap. apply Forall_forall. intros i Hi.
  apply elem_of_seq in Hi. unfold disjoint_regions. cbn. nia.
Qed.

(** *** Guards *)

Record guards_inv (s : guards) : Prop := {
  gi_holder : ∀ k g, gs s !! k = Some g → commit_ g = true →
    ∃ id, release_func g = Some id ∧ id ∈ created s ∧ Released id ∉ log s;
  gi_unique : ∀ k k' g g' id, gs s !! k = Some g → gs s !! k' = Some g' →
    commit_ g = true → commit_ g' = true → release_func g = Some id → release_func g' = Some id → k = k';
  gi_log : ∃ l, log s = Released <$> l ∧ NoDup l ∧ l ⊆ created s;
  gi_all : ∀ id, id ∈ created s → Released id ∈ log s ∨
    ∃ k g, gs s !! k = Some g ∧ commit_ g = true ∧ release_func g = Some id;
  gi_nodup : NoDup (created s)
}.

Lemma guard_create_inv k id s : gs s !! k = None → id ∉ created s → guards_inv s →
  guards_inv (Guards (<[k := raii_create id true]> (gs s)) (id :: created s) (log s)).
Proof.
  intros Hk Hid [Hh Hu (l & Hl & Hnd & Hsub) Ha Hnc].
  assert (Hnl : Released id ∉ log s).
  { rewrite Hl. intros (x & [= ->] & Hx)%list_elem_of_fmap. by apply Hid, Hsub. }
  split; cbn [gs created log].
  - intros k1 g [[<- <-]|[? Hg]]%lookup_insert_Some Hc.
    + exists id. split_and!; [done|by left|done].
    + destruct (Hh _ _ Hg Hc) as (i & ? & ? & ?). exists i. split_and!; [done|by right|done].
  - assert (Hold : ∀ k1 g, gs s !! k1 = Some g → commit_ g = true → release_func g = Some id → False).
    { intros k1 g Hg Hc Hr. destruct (Hh _ _ Hg Hc) as (i & Hi & ? & _). congruence. }
    intros k1 k2 g1 g2 i [[<- <-]|[? H1]]%lookup_insert_Some [[<- <-]|[? H2]]%lookup_insert_Some C1 C2 R1 R2;
      [done| | |by eapply Hu].
    + cbn in R1. simplify_eq. by destruct (Hold _ _ H2 C2).
    + cbn in R2. simplify_eq. by destruct (Hold _ _ H1 C1).
  - exists l. split_and!; [done|done|set_solver].
  - intros i [->|Hi]%elem_of_cons.
    + right. exists k, (raii_create id true). split; [apply lookup_insert_eq|done].
    + destruct (Ha i Hi) as [?|(k1 & g & Hg & ? & ?)]; [by left|]. right. exists k1, g.
      rewrite lookup_insert_ne by congruence. done.
  - by constructor.
Qed.

Lemma move_inv k k' g s : gs s !! k = Some g → gs s !! k' = None → guards_inv s →
  guards_inv (Guards (<[k' := (raii_move g).1]> (<[k := (raii_move g).2]> (gs s))) (created s) (log s)).
Proof.
  intros Hk Hk' [Hh Hu Hl Ha Hnc].
  assert (Hback : ∀ k1 g1, <[k' := (raii_move g).1]> (<[k := (raii_move g).2]> (gs s)) !! k1 = Some g1 →
    commit_ g1 = true → (k1 = k' ∧ release_func g1 = release_func g ∧ commit_ g = true) ∨
      (k1 ≠ k' ∧ k1 ≠ k ∧ gs s !! k1 = Some g1)).
  { intros k1 g1 [[<- <-]|[? [[<- <-]|[? H]]%lookup_insert_Some]]%lookup_insert_Some Hc; [by left|done|by right]. }
  split; cbn [gs created log]; [| |done| |done].
  - intros k1 g1 H1 Hc. destruct (Hback _ _ H1 Hc) as [(-> & -> & Hg)|(? & ? & Hg)]; [exact (Hh _ _ Hk Hg)|].
    exact (Hh _ _ Hg Hc).
  - intros k1 k2 g1 g2 i H1 H2 C1 C2 R1 R2.
    destruct (Hback _ _ H1 C1) as [(-> & E1 & Cg)|(? & ? & G1)], (Hback _ _ H2 C2) as [(-> & E2 & Cg')|(? & ? & G2)];
      [done| | |by eapply Hu].
    + rewrite E1 in R1. by destruct (Hu _ _ _ _ _ Hk G2 Cg C2 R1 R2).
    + rewrite E2 in R2. by destruct (Hu _ _ _ _ _ Hk G1 Cg' C1 R2 R1).
  - intros i Hi. destruct (Ha i Hi) as [?|(k1 & g1 & Hg & Hc & Hr)]; [by left|]. right.
    destruct (decide (k1 = k)) as [->|Hne].
    + assert (g1 = g) as -> by congruence. exists k', (raii_move g).1. split; [apply lookup_insert_eq|]. by split.
    + exists k1, g1. rewrite !lookup_insert_ne by congruence. done.
Qed.

Lemma destroy_inv k g s : gs s !! k = Some g → guards_inv s →
  guards_inv (Guards (delete k (gs s)) (created s) (log s ++ raii_destroy g)).
Proof.
  intros Hk [Hh Hu (l & Hl & Hnd & Hsub) Ha Hnc]. unfold raii_destroy.
  destruct (commit_ g) eqn:Hc.
  - destruct (Hh _ _ Hk Hc) as (id & Hr & Hid & Hno). rewrite Hr.
    split; cbn [gs created log]; [| | | |done].
    + intros k1 g1 [Hne H1]%lookup_delete_Some C1. destruct (Hh _ _ H1 C1) as (i & Hi & ? & Hni).
      exists i. split_and!; [done..|]. intros [?|Heq]%elem_of_app; [done|].
      apply list_elem_of_singleton in Heq. injection Heq as ->. apply Hne.
      exact (Hu _ _ _ _ _ Hk H1 Hc C1 Hr Hi).
    + intros k1 k2 g1 g2 i [_ H1]%lookup_delete_Some [_ H2]%lookup_delete_Some.
      exact (Hu _ _ _ _ _ H1 H2).
    + exists (l ++ [id]). rewrite fmap_app, <- Hl. split_and!; [done| |].
      * apply NoDup_app. split_and!; [done| |apply NoDup_singleton].
        intros i Hi ->%list_elem_of_singleton. apply Hno. rewrite Hl. by apply list_elem_of_fmap_2.
      * intros i [?%Hsub| ->%list_elem_of_singleton]%elem_of_app; done.
    + intros i Hi. destruct (Ha i Hi) as [?|(k1 & g1 & Hg & C1 & R1)].
      * left. apply elem_of_app. by left.
      * destruct (decide (k1 = k)) as [->|Hne].
        -- simplify_eq. left. apply elem_of_app. right. by apply list_elem_of_singleton.
        -- right. exists k1, g1. by rewrite lookup_delete_ne by congruence.
  - rewrite app_nil_r. split; cbn [gs created log]; [| | | |done].
    + intros k1 g1 [_ H1]%lookup_delete_Some. exact (Hh _ _ H1).
    + intros k1 k2 g1 g2 i [_ H1]%lookup_delete_Some [_ H2]%lookup_delete_Some.
      exact (Hu _ _ _ _ _ H1 H2).
    + by exists l.
    + intros i Hi. destruct (Ha i Hi) as [?|(k1 & g1 & Hg & C1 & R1)]; [by left|].
      right. exists k1, g1. rewrite lookup_delete_ne by congruence. done.
Qed.

Lemma guards_reachable_inv s : reachable guards_init guards_step s → guards_inv s.
Proof.
  apply reachable_invariant.
  - intros ? ->. split; cbn; try done.
    + exists []. split_and!; [done|constructor|done].
    + intros i ?%elem_of_nil. done.
    + constructor.
  - intros s1 s2 Hi Hs. destruct Hs.
    + by apply guard_create_inv.
    + by apply move_inv.
    + by apply destroy_inv.
Qed.

(** *** Paths *)

Lemma split_last_app d b : slash ∉ b → split_last (d ++ slash :: b) = Some (d, b).
Proof.
  intros Hb. assert (Hn : split_last b = None).
  { clear d. induction b as [|c b IH]; [done|]. apply not_elem_of_cons in Hb as [Hc Hb].
    cbn. rewrite IH by done. destruct (Ascii.eqb_spec c slash); congruence. }
  induction d as [|c d IH]; cbn; [by rewrite Hn|]. by rewrite IH.
Qed.

Lemma split_last_none s : slash ∉ s → split_last s = None.
Proof.
  induction s as [|c s IH]; [done|]. intros [Hc Hs]%not_elem_of_cons. cbn. rewrite IH by done.
  destruct (Ascii.eqb_spec c slash); congruence.
Qed.

Lemma split_first_app d b : slash ∉ d → split_first (d ++ slash :: b) = Some (d, b).
Proof.
  induction d as [|c d IH]; [done|]. intros [Hc Hd]%not_elem_of_cons. cbn.
  destruct (Ascii.eqb_spec c slash); [congruence|]. by rewrite IH.
Qed.

(** ** Theorems *)

(** the answers of the first [n] calls; before the first bar every call
    passes, and after it exactly one in every [threshold] consecutive calls that
    stay on one side of the second bar.  A threshold of 0 is a division by 0 at
    the first call behind its bar. *)
Theorem repeat_filter_spec b1 t1 b2 t2 n :
  0 < t1 → 0 < t2 → 0 ≤ b1 → 0 ≤ b2 → Z.of_nat n < 2 ^ 64 →
  (∃ f, repeat_calls n (rf_create b1 t1 b2 t2) =
    Ok ((λ i, passes b1 t1 b2 t2 (Z.of_nat i)) <$> seq 1 n, f)) ∧
  (∀ s, b1 ≤ s → s + t1 ≤ b2 → ∃ c, (s ≤ c < s + t1 ∧ passes b1 t1 b2 t2 c = true) ∧
     ∀ c', s ≤ c' < s + t1 → passes b1 t1 b2 t2 c' = true → c' = c) ∧
  (∀ s, b1 ≤ s → b2 ≤ s → ∃ c, (s ≤ c < s + t2 ∧ passes b1 t1 b2 t2 c = true) ∧
     ∀ c', s ≤ c' < s + t2 → passes b1 t1 b2 t2 c' = true → c' = c) ∧
  (∀ c t, 0 ≤ b1 ≤ c + 1 → c + 1 < b2 → 0 ≤ c → c + 1 < 2 ^ 64 →
     repeat_ (Rf c b1 b2 0 t) = Fault DivByZero).
Proof.
  intros Ht1 Ht2 Hb1 Hb2 Hn. split_and!.
  - eexists. unfold rf_create. by rewrite repeat_calls_ok by lia.
  - intros s Hs Hs2. destruct (one_multiple t1 b1 s Ht1 Hs) as (c & [Hc Hm] & Hu).
    assert (Hp : ∀ x, s ≤ x < s + t1 → passes b1 t1 b2 t2 x = ((x - b1) mod t1 =? 0)).
    { intros x Hx. unfold passes. rewrite (proj2 (Z.ltb_ge _ _)), (proj2 (Z.ltb_lt _ _)) by lia. done. }
    exists c. rewrite Hp by done. split; [split; [done|by apply Z.eqb_eq]|].
    intros c' Hc'. rewrite Hp by done. intros ?%Z.eqb_eq. by apply Hu.
  - intros s Hs Hs2. destruct (one_multiple t2 b2 s Ht2 Hs2) as (c & [Hc Hm] & Hu).
    assert (Hp : ∀ x, s ≤ x < s + t2 → passes b1 t1 b2 t2 x = ((x - b2) mod t2 =? 0)).
    { intros x Hx. unfold passes. rewrite !(proj2 (Z.ltb_ge _ _)) by lia. done. }
    exists c. rewrite Hp by done. split; [split; [done|by apply Z.eqb_eq]|].
    intros c' Hc'. rewrite Hp by done. intros ?%Z.eqb_eq. by apply Hu.
  - intros c t ????. unfold repeat_. cbn [counter bar1 bar2 threshold1 threshold2].
    rewrite wrap_small by lia. rewrite (proj2 (Z.ltb_ge _ _)), (proj2 (Z.ltb_lt _ _)) by lia. done.
Qed.

(** for clients that release only objects that are alive, the living
    objects are different slots inside the block, apart from each other, and
    [allocate] fails exactly when [N] of them are alive.  Releasing an object
    twice breaks this: the slot is handed out to two owners. *)
Theorem allocator_safe buf size N pool live :
  0 < size → rtc alloc_step (alloc_create buf size N, []) (pool, live) →
  NoDup live ∧
  Forall (λ p, inside (p, size) (buf, Z.of_nat N * size)) live ∧
  pairwise disjoint_regions ((λ p, (p, size)) <$> live) ∧
  ((alloc_allocate pool).1 = None ↔ length live = N) ∧
  (∀ p, length pool = 0%nat → let pool' := alloc_deallocate (Some p) (alloc_deallocate (Some p) pool) in
     (alloc_allocate pool').1 = Some p ∧ (alloc_allocate (alloc_allocate pool').2).1 = Some p).
Proof.
  intros Hs Hr. pose proof (alloc_reachable _ _ _ _ Hr) as Hp. unfold alloc_slots in Hp. cbn in Hp.
  pose proof (alloc_create_disjoint buf size N Hs) as Hd.
  assert (Hd' : pairwise disjoint_regions ((λ p, (p, size)) <$> (pool ++ live))) by (by rewrite Hp).
  rewrite fmap_app, pairwise_app in Hd'. destruct Hd' as (_ & Hd' & _).
  assert (Hlen : (length pool + length live = N)%nat).
  { rewrite <- length_app, Hp. unfold alloc_create. by rewrite length_fmap, length_seq. }
  split_and!; [| |done| |].
  - clear -Hd' Hs. induction live as [|p live IH]; [constructor|]. destruct Hd' as [Hf Hd].
    constructor; [|by apply IH]. intros Hin. rewrite Forall_fmap in Hf.
    rewrite Forall_forall in Hf. specialize (Hf _ Hin). unfold disjoint_regions in Hf. cbn in Hf. lia.
  - apply Forall_forall. intros p Hin.
    assert (Hin' : p ∈ alloc_create buf size N) by (rewrite <- Hp; apply elem_of_app; by right).
    unfold alloc_create in Hin'. apply list_elem_of_fmap in Hin' as (i & -> & Hi%elem_of_seq).
    unfold inside. cbn. nia.
  - destruct pool; cbn in *; split; (done || lia).
  - intros p Hl. destruct pool; [done|discriminate].
Qed.

(** guards that are created, moved and destroyed in any order: no release
    function runs twice or is missing from an empty function object, the ones
    that have not run are held by exactly one guard, and once all the guards are
    gone every one has run exactly once. *)
Theorem raii_releases_once s :
  reachable guards_init guards_step s →
  (∃ l, log s = Released <$> l ∧ NoDup l ∧
     (gs s = ∅ → l ≡ₚ created s)) ∧
  (∀ id, id ∈ created s → Released id ∉ log s →
     ∃ k g, (gs s !! k = Some g ∧ commit_ g = true ∧ release_func g = Some id) ∧
       ∀ k' g', gs s !! k' = Some g' → commit_ g' = true → release_func g' = Some id → k' = k).
Proof.
  intros [Hh Hu (l & Hl & Hnd & Hsub) Ha Hnc]%guards_reachable_inv. split.
  - exists l. split_and!; [done|done|]. intros He. apply NoDup_Permutation; [done..|].
    intros i. split; [apply Hsub|]. intros Hi. destruct (Ha i Hi) as [Hin|(k & g & Hg & _)].
    + rewrite Hl in Hin. apply list_elem_of_fmap in Hin as (x & [= ->] & ?). done.
    + by rewrite He in Hg.
  - intros id Hid Hno. destruct (Ha id Hid) as [?|(k & g & Hg & Hc & Hr)]; [done|].
    exists k, g. split; [done|]. intros k' g' Hg' Hc' Hr'. by eapply Hu.
Qed.

(** seconds between 1970 and the year 2554 survive the conversion to ticks;
    times before 1970 do not, and a date that [mktime] refuses becomes a tick
    near the end of the range instead of an error. *)
Theorem ticks_roundtrip mktime y mo d h mi s ms ts :
  (0 ≤ ts < 2 ^ 64 / TICKS_PER_SECOND → tick_to_time (utc_to_tick ts) = ts) ∧
  (ts < 0 → - 2 ^ 34 < ts → tick_to_time (utc_to_tick ts) ≠ ts) ∧
  (let broken := mktime (Tm s mi h d (mo - 1) (y - 1900)) in
   (0 ≤ broken → 0 ≤ ms < 1000 → broken + 1 ≤ 2 ^ 64 / TICKS_PER_SECOND →
    tick_to_time (timestamp_to_tick mktime y mo d h mi s ms) = broken ∧
    timestamp_to_tick mktime y mo d h mi s ms mod TICKS_PER_SECOND = ms * TICKS_PER_MS) ∧
   (broken = -1 → 0 ≤ ms < 1000 →
    timestamp_to_tick mktime y mo d h mi s ms = 2 ^ 64 - TICKS_PER_SECOND + ms * TICKS_PER_MS)).
Proof.
  unfold utc_to_tick, tick_to_time, timestamp_to_tick, TICKS_PER_SECOND, TICKS_PER_MS, TICKS_PER_US.
  split_and!.
  - intros. rewrite wrap_small by lia. lia.
  - intros Hn Hl. unfold wrap. pose proof (Z.mod_pos_bound (1000 * (1000 * 1000) * ts) (2 ^ 64) eq_refl). lia.
  - intros Hb Hms Hr. rewrite (wrap_small 64 (mktime _ * _)), (wrap_small 64 (_ * ms)), wrap_small by lia. lia.
  - intros Hb Hms. rewrite Hb. rewrite (wrap_small 64 (_ * ms)) by lia.
    assert (wrap 64 (-1 * (1000 * (1000 * 1000))) = 2 ^ 64 - 1000 * (1000 * 1000)) as -> by reflexivity.
    rewrite wrap_small by lia. lia.
Qed.

(** the base name is what follows the last slash; the "directory name" is
    what precedes the first one, so it is the directory only for one slash. *)
Theorem path_names_spec d b :
  slash ∉ b →
  path_base_name (Some (d ++ slash :: b)) = b ∧ path_base_name (Some b) = b ∧
  path_dir_name (Some b) = [] ∧
  (slash ∉ d → path_dir_name (Some (d ++ slash :: b)) = d) ∧
  (∀ d1 d2, slash ∉ d1 → d = d1 ++ slash :: d2 → path_dir_name (Some (d ++ slash :: b)) = d1).
Proof.
  intros Hb. unfold path_base_name, path_dir_name. split_and!.
  - by rewrite split_last_app.
  - by rewrite split_last_none.
  - assert (split_first b = None) as ->; [|done]. clear -Hb. induction b as [|c b IH]; [done|].
    apply not_elem_of_cons in Hb as [Hc Hb]. cbn. rewrite IH by done.
    destruct (Ascii.eqb_spec c slash); congruence.
  - intros Hd. by rewrite split_first_app.
  - intros d1 d2 H1 ->. rewrite <- app_assoc. cbn. by rewrite split_first_app.
Qed.

(** ** Witnesses *)

Lemma repeat_filter_spec_witness :
  ∃ f, repeat_calls 8 (rf_create 3 2 100 5) =
    Ok ((λ i, passes 3 2 100 5 (Z.of_nat i)) <$> seq 1 8, f).
Proof. apply (repeat_filter_spec 3 2 100 5 8); lia. Defined.

Lemma allocator_safe_witness : NoDup [16; 0].
Proof.
  assert (Hr : rtc alloc_step (alloc_create 0 16 3, []) ([32], [16; 0])).
  { eapply rtc_l; [by eapply (alloc_step_allocate _ _ (Some 0))|].
    eapply rtc_l; [by eapply (alloc_step_allocate _ _ (Some 16))|]. apply rtc_refl. }
  exact (proj1 (allocator_safe 0 16 3 [32] [16; 0] ltac:(lia) Hr)).
Defined.

Lemma raii_releases_once_witness : ∃ s, reachable guards_init guards_step s ∧
  gs s = ∅ ∧ log s = [Released 7].
Proof.
  set (s := Guards (delete 0%nat (<[0%nat := raii_create 7 true]> ∅)) [7%nat] [Released 7]).
  assert (Hr : reachable guards_init guards_step s).
  { exists (Guards ∅ [] []). split; [done|].
    eapply rtc_l; [apply (step_create 0%nat 7%nat); [done|by apply not_elem_of_nil]|].
    apply rtc_once. apply (step_destroy 0%nat (raii_create 7 true)). reflexivity. }
  exists s. destruct (raii_releases_once s Hr) as [(l & Hl & _ & Hp) _].
  assert (He : gs s = ∅) by (cbn; by rewrite delete_insert_id).
  split_and!; [exact Hr|exact He|]. specialize (Hp He). cbn in Hp.
  apply Permutation_singleton_r in Hp as ->. exact Hl.
Defined.

Lemma ticks_roundtrip_witness : tick_to_time (utc_to_tick 1700000000) = 1700000000.
Proof. apply (ticks_roundtrip (λ _, 0) 0 0 0 0 0 0 0). vm_compute. split; congruence. Defined.

Lemma path_names_spec_witness : path_base_name (Some ["a"; "/"; "b"]%char) = ["b"%char].
Proof. apply (path_names_spec ["a"%char] ["b"%char]). apply not_elem_of_cons. split; [done|apply not_elem_of_nil]. Defined.
