(* ===== verification/LogLine.v ===== *)
(** * Lines of the log macros (basic/logging.h, core/log_def.h)

    What [SYS_LOG_PRINT], [SYS_LOG_PRINTEX] and [trace_print], [info_print],
    [error_print] print on POSIX systems, with [SYS_LOG] defined: the broken-down
    time, the microseconds, the thread and the formatted message are arguments.
    The time comes first in fields of fixed width, so the lines of a log sort
    by time. *)

From S2P Require Import Prelude CText FString Helpers.
Local Open Scope Z_scope.

(** ** Printing *)

Definition zeros (w : nat) (digits : str) : str := replicate (w - length digits) "0"%char ++ digits.

(** [%0wd] *)
Definition pad0 (w : nat) (z : Z) : str :=
  if z <? 0 then "-"%char :: zeros (w - 1) (to_string (- z)) else zeros w (to_string z).

(** ["%04d-%02d-%02d %02d:%02d:%02d.%06ld"] *)
Definition stamp (t : tm) (tv_usec : Z) : str :=
  pad0 4 (tm_year t + 1900) ++ "-"%char :: pad0 2 (tm_mon t + 1) ++ "-"%char :: pad0 2 (tm_mday t) ++
  " "%char :: pad0 2 (tm_hour t) ++ ":"%char :: pad0 2 (tm_min t) ++ ":"%char :: pad0 2 (tm_sec t) ++
  "."%char :: pad0 6 tv_usec.

Definition log_type_str : list str :=
  [[]; lit "TRACE"; lit "DEBUG"; lit "NOTICE"; lit "INFO"; lit "WARN"; lit "ERROR"; lit "FATAL"].

(** [%u] of the thread number. *)
Definition print_u (z : Z) : str := to_string (wrap 32 z).

Definition SYS_LOG_PRINT (log_level : nat) (t : tm) (tv_usec gettid : Z) (msg : str) : res str :=
  ty ← deref OutOfBounds (log_type_str !! log_level);
  mret (stamp t tv_usec ++ " "%char :: print_u gettid ++ lit " [" ++ ty ++ lit "] " ++ msg ++ [newline]).

Definition SYS_LOG_PRINTEX (log_level : nat) (file : str) (line : Z) (t : tm) (tv_usec gettid : Z) (msg : str)
    : res str :=
  ty ← deref OutOfBounds (log_type_str !! log_level);
  mret (stamp t tv_usec ++ " "%char :: print_u gettid ++ lit " [" ++ ty ++ lit "] [" ++ file ++ lit ":" ++
        to_string line ++ lit "] " ++ msg ++ [newline]).

(** The levels of the macros that are used. *)
Definition NLOG_TRACE := SYS_LOG_PRINT 1.
Definition NLOG_DEBUG := SYS_LOG_PRINT 2.
Definition NLOG_NOTICE := SYS_LOG_PRINT 3.
Definition NLOG_INFO := SYS_LOG_PRINT 4.
Definition NLOG_WARN := SYS_LOG_PRINTEX 5.
Definition NLOG_ERROR := SYS_LOG_PRINTEX 6.
Definition NLOG_FATAL := SYS_LOG_PRINTEX 7.

(** [strrchr(s, c) + 1]: what follows the last [c]. *)
Fixpoint after_last (c : ascii) (s : str) : option str :=
  match s with
  | [] => None
  | a :: s =>
      match after_last c s with
      | Some r => Some r
      | None => if Ascii.eqb a c then Some s else None
      end
  end.

Definition get_file_name (filename : option str) : str :=
  match filename with
  | None => []
  | Some f => default [] (after_last "/"%char f)
  end.

Definition trace_print (t : tm) (tv_usec : Z) (msg : str) : str := stamp t tv_usec ++ lit " [TRACE] " ++ msg.
Definition info_print (t : tm) (tv_usec : Z) (msg : str) : str := stamp t tv_usec ++ lit " [INFO] " ++ msg.
Definition error_print (file : option str) (line : Z) (t : tm) (tv_usec : Z) (msg : str) : str :=
  stamp t tv_usec ++ lit " [ERROR] " ++ get_file_name file ++ lit "(" ++ to_string line ++ lit ")" ++ msg.

(** ** Specification *)

(** What [localtime_r] and [gettimeofday] give before the year 10000. *)
Definition time_fields (t : tm) (tv_usec : Z) : list Z :=
  [tm_year t + 1900; tm_mon t + 1; tm_mday t; tm_hour t; tm_min t; tm_sec t; tv_usec].

Definition valid_time (t : tm) (tv_usec : Z) : Prop :=
  0 ≤ tm_year t + 1900 < 10000 ∧ 0 ≤ tm_mon t < 12 ∧ 1 ≤ tm_mday t ≤ 31 ∧ 0 ≤ tm_hour t < 24 ∧
  0 ≤ tm_min t < 60 ∧ 0 ≤ tm_sec t ≤ 60 ∧ 0 ≤ tv_usec < 1000000.

Fixpoint lex_compare (a b : list Z) : comparison :=
  match a, b with
  | x :: a, y :: b => match x ?= y with Eq => lex_compare a b | r => r end
  | _, _ => Eq
  end.

(** The digits of a number in a field of fixed width. *)
Fixpoint fixed (w : nat) (n : Z) : str :=
  match w with O => [] | S w => fixed w (n / 10) ++ [digit_char (n mod 10)] end.

(** ** Lemmas *)

Lemma length_fixed w n : length (fixed w n) = w.
Proof. revert n. induction w as [|w IH]; intros n; [done|]. cbn. rewrite length_app, IH. cbn. lia. Qed.

Lemma fixed_small w n : 0 ≤ n < 10 → fixed (S w) n = replicate w "0"%char ++ [digit_char n].
Proof.
  revert n. induction w as [|w IH]; intros n Hn.
  - cbn [fixed app replicate]. by rewrite Z.mod_small by lia.
  - change (fixed (S (S w)) n) with (fixed (S w) (n / 10) ++ [digit_char (n mod 10)]).
    rewrite Z.div_small, Z.mod_small, IH by lia. rewrite replicate_S_end. done.
Qed.

Lemma dec_digits_fixed fuel w n :
  0 ≤ n < 10 ^ Z.of_nat w → n < 2 ^ Z.of_nat fuel → (0 < fuel)%nat → (0 < w)%nat →
  zeros w (dec_digits fuel n []) = fixed w n ∧ (length (dec_digits fuel n []) ≤ w)%nat.
Proof.
  revert w n. induction fuel as [|fuel IH]; intros w n Hn Hf H0 Hw; [lia|].
  destruct w as [|w]; [lia|]. unfold zeros. cbn [dec_digits]. destruct (Z.ltb_spec n 10) as [Hlt|Hge].
  - rewrite fixed_small by lia. cbn [length]. replace (S w - 1)%nat with w by lia. split; [done|lia].
  - rewrite Nat2Z.inj_succ, Z.pow_succ_r in Hn, Hf by lia.
    assert (Hfuel : (0 < fuel)%nat) by (destruct fuel; [simpl in Hf; lia|lia]).
    assert (Hw' : (0 < w)%nat) by (destruct w; [simpl in Hn; lia|lia]).
    destruct (dec_digits_spec fuel (n / 10) [digit_char (n mod 10)] ltac:(lia) Hfuel) as (_ & -> & _).
    destruct (IH w (n / 10) ltac:(lia) ltac:(lia) Hfuel Hw') as [Hz Hl]. rewrite length_app. cbn [length fixed].
    replace (S w - (length (dec_digits fuel (n / 10) []) + 1))%nat with (w - length (dec_digits fuel (n / 10) []))%nat by lia.
    split; [|lia]. rewrite app_assoc. unfold zeros in Hz. by rewrite Hz.
Qed.

Lemma pad0_fixed w n : (0 < w)%nat → 0 ≤ n < 10 ^ Z.of_nat w → pad0 w n = fixed w n.
Proof.
  intros Hw Hn. unfold pad0, to_string. rewrite (proj2 (Z.ltb_ge n 0)) by lia.
  apply dec_digits_fixed; [done|apply log2_fuel; lia|lia|done].
Qed.

Lemma str_compare_app a b x y : length a = length b →
  str_compare (a ++ x) (b ++ y) = match str_compare a b with Eq => str_compare x y | r => r end.
Proof.
  revert b. induction a as [|c a IH]; intros [|e b] Hl; try done. cbn. destruct (code c ?= code e); [|done|done].
  apply IH. by injection Hl.
Qed.

Lemma fixed_compare w a b : 0 ≤ a < 10 ^ Z.of_nat w → 0 ≤ b < 10 ^ Z.of_nat w →
  str_compare (fixed w a) (fixed w b) = (a ?= b).
Proof.
  revert a b. induction w as [|w IH]; intros a b Ha Hb.
  - change (10 ^ Z.of_nat 0) with 1 in *. assert (a = 0) as -> by lia. assert (b = 0) as -> by lia. done.
  - rewrite Nat2Z.inj_succ, Z.pow_succ_r in Ha, Hb by lia. cbn [fixed].
    rewrite str_compare_app by (by rewrite !length_fixed). rewrite IH by lia. cbn [str_compare].
    rewrite !code_digit_char by lia.
    destruct (Z.compare_spec (a / 10) (b / 10)), (Z.compare_spec (48 + a mod 10) (48 + b mod 10)),
      (Z.compare_spec a b); try done; exfalso; lia.
Qed.

(** One field and what follows it. *)
Lemma field_compare w a b x y : (0 < w)%nat → 0 ≤ a < 10 ^ Z.of_nat w → 0 ≤ b < 10 ^ Z.of_nat w →
  str_compare (pad0 w a ++ x) (pad0 w b ++ y) = match a ?= b with Eq => str_compare x y | r => r end.
Proof.
  intros Hw Ha Hb. rewrite !pad0_fixed by done. rewrite str_compare_app by (by rewrite !length_fixed).
  by rewrite fixed_compare.
Qed.

Lemma sep_compare c x y : str_compare (c :: x) (c :: y) = str_compare x y.
Proof. cbn. by rewrite Z.compare_refl. Qed.

Lemma stamp_compare t1 u1 t2 u2 x y : valid_time t1 u1 → valid_time t2 u2 →
  str_compare (stamp t1 u1 ++ x) (stamp t2 u2 ++ y) =
    match lex_compare (time_fields t1 u1) (time_fields t2 u2) with Eq => str_compare x y | r => r end.
Proof.
  intros (Y1 & M1 & D1 & H1 & N1 & S1 & U1) (Y2 & M2 & D2 & H2 & N2 & S2 & U2).
  unfold stamp. rewrite <- !app_assoc. cbn [app]. rewrite <- !app_assoc. cbn [lex_compare time_fields].
  repeat (rewrite field_compare by lia; destruct (_ ?= _); [|done..]; rewrite <- ?app_comm_cons, ?sep_compare, <- ?app_assoc).
  by cbn.
Qed.

Lemma after_last_none c s : c ∉ s → after_last c s = None.
Proof.
  induction s as [|a s IH]; intros H; [done|]. cbn. rewrite IH by set_solver.
  destruct (Ascii.eqb_spec a c) as [->|]; [set_solver|done].
Qed.

Lemma after_last_app c x y : c ∉ y → after_last c (x ++ c :: y) = Some y.
Proof.
  intros Hy. induction x as [|a x IH]; cbn.
  - by rewrite after_last_none, Ascii.eqb_refl.
  - by rewrite IH.
Qed.

(** ** Theorems *)

(** A line of any of the macros. *)
Inductive printed (t : tm) (us : Z) : str → Prop :=
| printed_plain l tid m a : SYS_LOG_PRINT l t us tid m = Ok a → printed t us a
| printed_ex l f n tid m a : SYS_LOG_PRINTEX l f n t us tid m = Ok a → printed t us a
| printed_trace m : printed t us (trace_print t us m)
| printed_info m : printed t us (info_print t us m)
| printed_error f n m : printed t us (error_print f n t us m).

Lemma printed_stamp t us a : printed t us a → ∃ r, a = stamp t us ++ r.
Proof.
  intros [l tid m a' H|l f n tid m a' H|m|m|f n m]; try by eexists.
  - unfold SYS_LOG_PRINT in H. apply bind_Ok in H as (ty & _ & H). injection H as <-. by eexists.
  - unfold SYS_LOG_PRINTEX in H. apply bind_Ok in H as (ty & _ & H). injection H as <-. by eexists.
Qed.

(** two lines of a log compare as texts like the times at which they were
    printed, down to the microsecond, whichever macros printed them: sorting the
    lines of several logs merges them in time. *)
Theorem log_lines_sorted t1 u1 a t2 u2 b :
  printed t1 u1 a → printed t2 u2 b → valid_time t1 u1 → valid_time t2 u2 →
  lex_compare (time_fields t1 u1) (time_fields t2 u2) ≠ Eq →
  str_compare a b = lex_compare (time_fields t1 u1) (time_fields t2 u2).
Proof.
  intros (x & ->)%printed_stamp (y & ->)%printed_stamp V1 V2 Hne.
  rewrite (stamp_compare _ _ _ _ x y V1 V2). by destruct (lex_compare _ _).
Qed.

(** the level indexes a table of eight texts: a greater one is read out of
    bounds, the macros' own never; the file name of an error line is what
    follows the last slash, and empty for a name without one. *)
Theorem log_levels_spec l t us tid m :
  (SYS_LOG_PRINT l t us tid m = Fault OutOfBounds ↔ (7 < l)%nat) ∧
  (∀ f n, SYS_LOG_PRINTEX l f n t us tid m = Fault OutOfBounds ↔ (7 < l)%nat) ∧
  (∀ x y, "/"%char ∉ y → get_file_name (Some (x ++ "/"%char :: y)) = y ∧ get_file_name (Some y) = []).
Proof.
  unfold SYS_LOG_PRINT, SYS_LOG_PRINTEX.
  split_and!; [| |intros x y Hy; unfold get_file_name; by rewrite after_last_app, after_last_none].
  - do 8 (destruct l as [|l]; [split; [done|lia]|]). split; [lia|done].
  - intros f n. do 8 (destruct l as [|l]; [split; [done|lia]|]). split; [lia|done].
Qed.

(** ** Witnesses *)

Definition noon : tm := Tm 5 30 12 9 2 124.

Lemma log_lines_sorted_witness :
  ∃ a b, NLOG_INFO noon 42 77 (lit "up") = Ok a ∧ NLOG_ERROR (lit "main.cpp") 12 noon 1000 77 (lit "down") = Ok b ∧
    a = lit "2024-03-09 12:30:05.000042 77 [INFO] up" ++ [newline] ∧ str_compare a b = Lt.
Proof.
  destruct (NLOG_INFO noon 42 77 (lit "up")) as [a| | |] eqn:Ha; try (vm_compute in Ha; discriminate).
  destruct (NLOG_ERROR (lit "main.cpp") 12 noon 1000 77 (lit "down")) as [b| | |] eqn:Hb; try (vm_compute in Hb; discriminate).
  exists a, b. split; [reflexivity|]. split; [reflexivity|]. split.
  - vm_compute in Ha. injection Ha as <-. vm_compute. reflexivity.
  - apply (log_lines_sorted noon 42 a noon 1000 b).
    + exact (printed_plain _ _ _ _ _ _ Ha).
    + exact (printed_ex _ _ _ _ _ _ _ _ Hb).
    + unfold valid_time, noon. cbn. lia.
    + unfold valid_time, noon. cbn. lia.
    + discriminate.
Defined.

Lemma log_levels_spec_witness :
  get_file_name (Some (lit "src/demo/main.cpp")) = lit "main.cpp" ∧ get_file_name (Some (lit "main.cpp")) = [].
Proof.
  apply (log_levels_spec 0 noon 0 0 []) with (x := lit "src/demo") (y := lit "main.cpp"). by apply (bool_decide_unpack _).
Defined.
