(* ===== verification/FLog.v ===== *)
(** * The formatting log front end (log/flogging.h)

    The lines of [SYS_FLOG_PRINT] and [SYS_FLOG_PRINTEX] on POSIX systems, and
    the set-up of the quill logger.  [LogLevelEnum] and [log_level_flag] come
    from a header that is not in the repository: the table and the numbers of
    the levels are parameters, and so is what quill provides.  The arguments of
    a line after its heading are one text; a replacement field without a format
    prints a number as [std::to_string] does. *)

From S2P Require Import Prelude CText FString Helpers LogLine.
Local Open Scope Z_scope.

(** ** Lines *)

(** The levels that the macros name. *)
Inductive LogLevelEnum :=
| LOG_EVEL_TRACE | LOG_LEVEL_DEBUG | LOG_LEVEL_NOTICE | LOG_LEVEL_INFO | LOG_LEVEL_WARN | LOG_LEVEL_ERROR
| LOG_LEVEL_CRITICAL.

#[export] Instance LogLevelEnum_eq_dec : EqDecision LogLevelEnum.
Proof. solve_decision. Defined.

(** The fields of the time: the year without a width, the others with one. *)
Definition flog_stamp (t : tm) (tv_usec : Z) : str :=
  to_string (tm_year t + 1900) ++ "-"%char :: pad0 2 (tm_mon t + 1) ++ "-"%char :: pad0 2 (tm_mday t) ++
  " "%char :: pad0 2 (tm_hour t) ++ ":"%char :: pad0 2 (tm_min t) ++ ":"%char :: pad0 2 (tm_sec t) ++
  "."%char :: pad0 6 tv_usec.

Section lines.
Context (log_level_flag : list str) (level : LogLevelEnum → nat).

Definition SYS_FLOG_PRINT (log_level : LogLevelEnum) (t : tm) (tv_usec gettid : Z) (msg : str) : res str :=
  flag ← deref OutOfBounds (log_level_flag !! level log_level);
  mret (flog_stamp t tv_usec ++ " "%char :: to_string gettid ++ " "%char :: flag ++ " "%char :: msg ++ [newline]).

Definition SYS_FLOG_PRINTEX (log_level : LogLevelEnum) (file : str) (line : Z) (t : tm) (tv_usec gettid : Z)
    (msg : str) : res str :=
  flag ← deref OutOfBounds (log_level_flag !! level log_level);
  mret (flog_stamp t tv_usec ++ " "%char :: to_string gettid ++ " "%char :: flag ++ lit " [" ++
        path_base_name (Some file) ++ ":"%char :: to_string line ++ lit "] " ++ msg ++ [newline]).

Definition FLOG_TRACE := SYS_FLOG_PRINT LOG_EVEL_TRACE.
Definition FLOG_DEBUG := SYS_FLOG_PRINT LOG_LEVEL_DEBUG.
Definition FLOG_NOTICE := SYS_FLOG_PRINT LOG_LEVEL_NOTICE.
Definition FLOG_INFO := SYS_FLOG_PRINT LOG_LEVEL_INFO.
Definition FLOG_WARN := SYS_FLOG_PRINTEX LOG_LEVEL_WARN.
Definition FLOG_ERROR := SYS_FLOG_PRINTEX LOG_LEVEL_ERROR.
Definition FLOG_FATAL := SYS_FLOG_PRINTEX LOG_LEVEL_CRITICAL.

(** A line of either macro. *)
Inductive flog_printed (t : tm) (us : Z) : str → Prop :=
| flog_plain l tid m a : SYS_FLOG_PRINT l t us tid m = Ok a → flog_printed t us a
| flog_ex l f n tid m a : SYS_FLOG_PRINTEX l f n t us tid m = Ok a → flog_printed t us a.

End lines.

(** ** The quill logger *)

Section quill.
Context {quill_level quill_logger : Type}.
Context (q_debug q_info q_warning q_error q_critical q_default : quill_level).
Context (create_or_get_logger : str → quill_logger) (set_logger_level : quill_level → quill_logger → quill_logger).

(** [logger_] and the static [log_level_mapping] of [set_log_level]. *)
Record QuillWrapper := Quill { logger_ : option quill_logger; log_level_mapping : list (LogLevelEnum * quill_level) }.

Definition quill_instance : QuillWrapper :=
  Quill None [(LOG_LEVEL_DEBUG, q_debug); (LOG_LEVEL_INFO, q_info); (LOG_LEVEL_WARN, q_warning);
              (LOG_LEVEL_ERROR, q_error); (LOG_LEVEL_CRITICAL, q_critical)].

Definition set_logger (l : quill_logger) (q : QuillWrapper) : QuillWrapper := Quill (Some l) (log_level_mapping q).

Fixpoint find_level (l : LogLevelEnum) (m : list (LogLevelEnum * quill_level)) : option quill_level :=
  match m with
  | [] => None
  | (k, v) :: m => if decide (k = l) then Some v else find_level l m
  end.

(** [log_level_mapping[log_level]]: a level that is not there is added with
    the default value of its type. *)
Definition map_level (l : LogLevelEnum) (q : QuillWrapper) : quill_level * QuillWrapper :=
  match find_level l (log_level_mapping q) with
  | Some v => (v, q)
  | None => (q_default, Quill (logger_ q) (log_level_mapping q ++ [(l, q_default)]))
  end.

Definition set_log_level (l : LogLevelEnum) (q : QuillWrapper) : res QuillWrapper :=
  let (v, q) := map_level l q in
  logger ← deref NullDeref (logger_ q);
  mret (Quill (Some (set_logger_level v logger)) (log_level_mapping q)).

Definition log_file_name (log_dir app_name : str) : str := log_dir ++ "/"%char :: app_name.

Definition INIT_FLOG (log_level : LogLevelEnum) (log_dir app_name : str) (q : QuillWrapper) : res QuillWrapper :=
  set_log_level log_level (set_logger (create_or_get_logger (log_file_name log_dir app_name)) q).

(** The levels that are set, in order. *)
Fixpoint set_log_levels (ls : list LogLevelEnum) (q : QuillWrapper) : res QuillWrapper :=
  match ls with
  | [] => mret q
  | l :: ls => q ← set_log_level l q; set_log_levels ls q
  end.

(** *** Specification *)

Definition quill_level_of (l : LogLevelEnum) : quill_level :=
  match l with
  | LOG_LEVEL_DEBUG => q_debug
  | LOG_LEVEL_INFO => q_info
  | LOG_LEVEL_WARN => q_warning
  | LOG_LEVEL_ERROR => q_error
  | LOG_LEVEL_CRITICAL => q_critical
  | LOG_EVEL_TRACE | LOG_LEVEL_NOTICE => q_default
  end.

Definition mapping_ok (q : QuillWrapper) : Prop :=
  ∀ l, find_level l (log_level_mapping q) = Some (quill_level_of l) ∨
       (find_level l (log_level_mapping q) = None ∧ quill_level_of l = q_default).

Lemma find_level_app l m k v :
  find_level l (m ++ [(k, v)]) = match find_level l m with Some x => Some x | None => if decide (k = l) then Some v else None end.
Proof. induction m as [|[k' v'] m IH]; [done|]. cbn. by destruct (decide (k' = l)). Qed.

Lemma set_log_level_ok l q logger : mapping_ok q → logger_ q = Some logger →
  ∃ q', set_log_level l q = Ok q' ∧ logger_ q' = Some (set_logger_level (quill_level_of l) logger) ∧ mapping_ok q'.
Proof.
  intros H Hl. unfold set_log_level, map_level. destruct (H l) as [->|[Hn Hd]].
  - cbn. rewrite Hl. by eexists.
  - rewrite Hn. cbn. rewrite Hl. cbn. eexists. split_and!; [done|by rewrite Hd|].
    intros k. cbn. rewrite find_level_app. destruct (H k) as [->|[Hk Hdk]]; [by left|]. rewrite Hk.
    destruct (decide (l = k)) as [<-|]; [left; by rewrite Hd|by right].
Qed.

Lemma quill_instance_ok : mapping_ok quill_instance.
Proof. intros []; cbn; by (left + right). Qed.

End quill.

(** ** Lemmas *)

Lemma dec_digits_length fuel n : 0 ≤ n < 2 ^ Z.of_nat fuel → (0 < fuel)%nat →
  n < 10 ^ Z.of_nat (length (dec_digits fuel n [])).
Proof.
  revert n. induction fuel as [|fuel IH]; intros n Hn H0; [lia|]. cbn [dec_digits].
  destruct (Z.ltb_spec n 10) as [Hlt|Hge]; [cbn; lia|].
  rewrite Nat2Z.inj_succ, Z.pow_succ_r in Hn by lia.
  assert (Hfuel : (0 < fuel)%nat) by (destruct fuel; [simpl in Hn; lia|lia]).
  destruct (dec_digits_spec fuel (n / 10) [digit_char (n mod 10)] ltac:(lia) Hfuel) as (_ & -> & _).
  rewrite length_app. cbn [length]. specialize (IH (n / 10) ltac:(lia) Hfuel).
  rewrite Nat2Z.inj_add, Z.pow_add_r by lia. change (10 ^ Z.of_nat 1) with 10. lia.
Qed.

(** A year of four digits needs no padding. *)
Lemma to_string_year y : 1000 ≤ y < 10000 → to_string y = pad0 4 y.
Proof.
  intros Hy. unfold pad0. rewrite (proj2 (Z.ltb_ge y 0)) by lia.
  enough (4 ≤ length (to_string y))%nat by (unfold zeros; by replace (4 - length (to_string y))%nat with 0%nat by lia).
  unfold to_string. rewrite (proj2 (Z.ltb_ge y 0)) by lia.
  pose proof (dec_digits_length (S (Z.to_nat (Z.log2 y))) y) as Hl.
  set (n := length (dec_digits _ y [])) in *.
  assert (y < 10 ^ Z.of_nat n) by (apply Hl; [split; [lia|apply log2_fuel; lia]|lia]).
  destruct n as [|[|[|[|n]]]]; simpl in *; lia.
Qed.

Lemma flog_stamp_eq t us : 1000 ≤ tm_year t + 1900 < 10000 → flog_stamp t us = stamp t us.
Proof. intros H. unfold flog_stamp, stamp. by rewrite to_string_year. Qed.

Lemma flog_printed_stamp flags level t us a : flog_printed flags level t us a → ∃ r, a = flog_stamp t us ++ r.
Proof.
  intros [l tid m a' H|l f n tid m a' H].
  - unfold SYS_FLOG_PRINT in H. apply bind_Ok in H as (ty & _ & H). injection H as <-. by eexists.
  - unfold SYS_FLOG_PRINTEX in H. apply bind_Ok in H as (ty & _ & H). injection H as <-. by eexists.
Qed.

(** ** Properties *)

(** lines of either macro compare as texts like the times at which they were
    printed, from the year 1000 to 9999, and also with the lines of the other
    log macros. *)
Theorem flog_lines_sorted flags level t1 u1 a t2 u2 b :
  flog_printed flags level t1 u1 a → flog_printed flags level t2 u2 b ∨ printed t2 u2 b →
  valid_time t1 u1 → valid_time t2 u2 → 1000 ≤ tm_year t1 + 1900 → 1000 ≤ tm_year t2 + 1900 →
  lex_compare (time_fields t1 u1) (time_fields t2 u2) ≠ Eq →
  str_compare a b = lex_compare (time_fields t1 u1) (time_fields t2 u2).
Proof.
  intros (x & ->)%flog_printed_stamp Hb V1 V2 Y1 Y2 Hne.
  assert (Hs : ∃ y, b = stamp t2 u2 ++ y).
  { destruct Hb as [(y & ->)%flog_printed_stamp|(y & ->)%printed_stamp]; [|by eexists].
    rewrite flog_stamp_eq by (unfold valid_time in V2; lia). by eexists. }
  destruct Hs as (y & ->). rewrite flog_stamp_eq by (unfold valid_time in V1; lia).
  rewrite (stamp_compare _ _ _ _ x y V1 V2). by destruct (lex_compare _ _).
Qed.

(** without a logger [set_log_level] uses a null pointer.  After [INIT_FLOG]
    the levels that are set one after the other are those of the same names,
    but TRACE and NOTICE, which the table lacks, both become the default value
    of quill's type, and so every time. *)
Theorem flog_levels_spec {L K} (d i w e c z : L) (create : str → K) (set_level : L → K → K) l dir app ls :
  set_log_level z set_level l (quill_instance d i w e c) = Fault NullDeref ∧
  ∃ q q', INIT_FLOG z create set_level l dir app (quill_instance d i w e c) = Ok q ∧
    set_log_levels z set_level ls q = Ok q' ∧
    logger_ q' = Some (foldl (λ k l, set_level (quill_level_of d i w e c z l) k)
                         (create (dir ++ "/"%char :: app)) (l :: ls)).
Proof.
  split.
  { unfold set_log_level, map_level. by destruct (find_level _ _). }
  assert (Hall : ∀ ls q k, mapping_ok d i w e c z q → logger_ q = Some k →
    ∃ q', set_log_levels z set_level ls q = Ok q' ∧
      logger_ q' = Some (foldl (λ k l, set_level (quill_level_of d i w e c z l) k) k ls)).
  { clear l ls. intros ls. induction ls as [|l ls IH]; intros q k Hq Hk; [by eexists|].
    destruct (set_log_level_ok d i w e c z set_level l q k Hq Hk) as (q1 & H1 & H2 & H3).
    cbn [set_log_levels foldl]. rewrite H1. cbn [mbind res_bind]. by apply IH. }
  unfold INIT_FLOG. set (q0 := set_logger _ _).
  assert (H0 : mapping_ok d i w e c z q0) by apply quill_instance_ok.
  destruct (set_log_level_ok d i w e c z set_level l q0 _ H0 eq_refl) as (q1 & H1 & H2 & H3).
  destruct (Hall ls q1 _ H3 H2) as (q2 & Hq2 & Hk2). by exists q1, q2.
Qed.

(** ** Witness *)

Lemma flog_lines_sorted_witness :
  ∃ a b, FLOG_INFO [[]; lit "INFO"] (λ _, 1%nat) noon 42 77 (lit "up") = Ok a ∧
    NLOG_ERROR (lit "main.cpp") 12 noon 1000 77 (lit "down") = Ok b ∧
    a = lit "2024-03-09 12:30:05.000042 77 INFO up" ++ [newline] ∧ str_compare a b = Lt.
Proof.
  destruct (FLOG_INFO [[]; lit "INFO"] (λ _, 1%nat) noon 42 77 (lit "up")) as [a| | |] eqn:Ha; try (vm_compute in Ha; discriminate).
  destruct (NLOG_ERROR (lit "main.cpp") 12 noon 1000 77 (lit "down")) as [b| | |] eqn:Hb; try (vm_compute in Hb; discriminate).
  exists a, b. split; [reflexivity|]. split; [reflexivity|]. split.
  - vm_compute in Ha. injection Ha as <-. vm_compute. reflexivity.
  - apply (flog_lines_sorted [[]; lit "INFO"] (λ _, 1%nat) noon 42 a noon 1000 b).
    + exact (flog_plain _ _ _ _ _ _ _ _ Ha).
    + right. exact (printed_ex _ _ _ _ _ _ _ _ Hb).
    + unfold valid_time, noon. cbn. lia.
    + unfold valid_time, noon. cbn. lia.
    + unfold noon. cbn. lia.
    + unfold noon. cbn. lia.
    + discriminate.
Defined.
