(* ===== verification/Rdtsc.v ===== *)
(** * The clock over the cycle counter (basic/rdtsc.h)

    Floating-point values are rational numbers, and every operation on them
    rounds: [rnd] is the rounding of [double], [rndl] that of [long double].
    The counter and the system clocks are arguments. *)

From Stdlib Require Import QArith Qround Qfield Lqa.
From S2P Require Import Prelude.
Local Open Scope Z_scope.

Section rdtsc.
Context (rnd rndl : Q → Q).

Record RDTSC := MkRdtsc { frequence_ : Q; cycle_base_ : Z; timepoint_base_ : Z }.

(** The two halves that the instruction gives. *)
Definition now_cycle (lo hi : Z) : Z := Z.lor (wrap 64 (Z.shiftl hi 32)) lo.

(** A [timespec] as seconds and nanoseconds; the subtraction is unsigned. *)
Definition time_span (start end_ : Z * Z) : Z :=
  wrap 64 ((end_.1 - start.1) * 1000000000 + end_.2 - start.2).

(** Cycles per nanosecond over the second that was slept. *)
Definition calibrate (start end_ : Z * Z) (tsc_start tsc_end : Z) : Q :=
  rnd (rnd (inject_Z (wrap 64 (tsc_end - tsc_start))) / rnd (inject_Z (time_span start end_)))%Q.

Definition rdtsc_init (base : Z) (start end_ : Z * Z) (tsc_start tsc_end : Z) (tp : Z * Z) : RDTSC :=
  MkRdtsc (calibrate start end_ tsc_start tsc_end) base (wrap 64 (tp.1 * 1000000000 + tp.2)).

(** The conversion of a value that [uint64_t] cannot hold is undefined. *)
Definition to_uint64 (q : Q) : res Z :=
  let z := Qfloor q in if (0 <=? z) && (z <? 2 ^ 64) then mret z else Fault OutOfBounds.

(** [now()], when the counter is at [cycle]. *)
Definition rdtsc_now (r : RDTSC) (cycle : Z) : res Z :=
  let cycle_span := wrap 64 (cycle - cycle_base_ r) in
  ns_delta ← to_uint64 (rndl (inject_Z cycle_span / frequence_ r)%Q);
  mret (wrap 64 (timepoint_base_ r + ns_delta)).

End rdtsc.

(** ** Lemmas *)

Lemma Qdiv_mono a b f : (0 < f)%Q → a ≤ b → (inject_Z a / f <= inject_Z b / f)%Q.
Proof.
  intros Hf Hab. apply Qmult_le_compat_r; [by rewrite <- Zle_Qle|]. apply Qinv_le_0_compat, Qlt_le_weak, Hf.
Qed.

Lemma to_uint64_Ok q z : to_uint64 q = Ok z → z = Qfloor q ∧ 0 ≤ z < 2 ^ 64.
Proof.
  unfold to_uint64. destruct (_ && _) eqn:E; [|done]. intros [= <-]. apply andb_true_iff in E as [E1 E2]. lia.
Qed.

Lemma now_cycle_spec lo hi : 0 ≤ lo < 2 ^ 32 → 0 ≤ hi < 2 ^ 32 → now_cycle lo hi = hi * 2 ^ 32 + lo.
Proof.
  intros Hlo Hhi. unfold now_cycle. rewrite Z.shiftl_mul_pow2, wrap_small by lia.
  rewrite <- Z.shiftl_mul_pow2 by lia.
  assert (Z.land (Z.shiftl hi 32) lo = 0) as Hland.
  { apply Z.bits_inj'. intros n Hn. rewrite Z.land_spec, Z.bits_0. destruct (Z.lt_ge_cases n 32) as [Hlt|Hge].
    - by rewrite Z.shiftl_spec_low.
    - rewrite (Z.bits_above_log2 lo n) by (destruct (decide (lo = 0)) as [->|]; [cbn; lia|
        pose proof (Z.log2_lt_pow2 lo 32); lia]). apply andb_false_r. }
  pose proof (Z.add_lor_land (Z.shiftl hi 32) lo). lia.
Qed.

(** A rounding of relative precision [u], between [2^-200] and [2^200]. *)
Definition rounds (u : Q) (rnd : Q → Q) : Prop :=
  ∀ x : Q, ((1 # 2 ^ 200) <= x)%Q → (x <= inject_Z (2 ^ 200))%Q → (x * (1 - u) <= rnd x <= x * (1 + u))%Q.

Lemma inject_range a : 1 ≤ a < 2 ^ 64 → (1 <= inject_Z a)%Q ∧ (inject_Z a <= 18446744073709551616 # 1)%Q.
Proof.
  intros Ha. change 1%Q with (inject_Z 1). change (18446744073709551616 # 1) with (inject_Z (2 ^ 64)).
  rewrite <- !Zle_Qle. lia.
Qed.

Lemma Qdiv_times x y : (0 < y)%Q → (x / y * y == x)%Q.
Proof. intros Hy. field. intros E. rewrite E in Hy. by apply Qlt_irrefl in Hy. Qed.

(** The precisions, and the range of the values here, in digits. *)
Definition u53 : Q := 1 # 9007199254740992.
Definition u64 : Q := 1 # 18446744073709551616.

Lemma rounds_at u rnd x : rounds u rnd →
  ((1 # 1180591620717411303424) <= x)%Q → (x <= 5444517870735015415413993718908291383296 # 1)%Q →
  (x * (1 - u) <= rnd x <= x * (1 + u))%Q.
Proof.
  intros H H1 H2. apply H; [eapply Qle_trans; [|exact H1]|eapply Qle_trans; [exact H2|]]; by vm_compute.
Qed.

(** The same for a quotient [q] of [x] and [y], as products. *)
Lemma quotient_bounds (q x y : Q) lo hi : (0 < y)%Q → (q * y == x)%Q →
  (lo * y <= x)%Q → (x <= hi * y)%Q → (lo <= q)%Q ∧ (q <= hi)%Q.
Proof.
  intros Hy E Hlo Hhi. split; apply (Qmult_le_r _ _ y Hy); rewrite E; done.
Qed.

(** The measured frequency [F] of [a] cycles in [s] nanoseconds. *)
Lemma frequency_bound rnd a s :
  rounds u53 rnd → (1 <= a)%Q → (a <= 18446744073709551616 # 1)%Q → (1 <= s)%Q → (s <= 18446744073709551616 # 1)%Q →
  let F := rnd (rnd a / rnd s)%Q in
  ((1 # 147573952589676412928) <= F)%Q ∧ (F <= 147573952589676412928 # 1)%Q ∧
  (F * (s * (1 - u53)) <= a * (1 + u53) * (1 + u53))%Q.
Proof.
  intros Hr Ha1 Ha2 Hs1 Hs2 F. unfold F. clear F.
  destruct (rounds_at u53 rnd a Hr) as [A1 A2]; [lra..|].
  destruct (rounds_at u53 rnd s Hr) as [S1 S2]; [lra..|].
  set (A := rnd a) in *. set (S_ := rnd s) in *. clearbody A S_. unfold u53 in *.
  assert (HS : (0 < S_)%Q) by lra. pose proof (Qdiv_times A S_ HS) as E. set (Y := (A / S_)%Q) in *. clearbody Y.
  destruct (quotient_bounds Y A S_ (1 # 36893488147419103232) (36893488147419103232 # 1) HS E) as [Y1 Y2]; [lra..|].
  destruct (rounds_at _ rnd Y Hr) as [F1 F2]; [lra..|]. set (F := rnd Y) in *. clearbody F.
  split; [lra|]. split; [lra|].
  assert (HF : (0 < F)%Q) by lra.
  assert (F * (s * (1 - (1 # 9007199254740992))) <= F * S_)%Q by (rewrite (Qmult_comm F), (Qmult_comm F); apply Qmult_le_compat_r; lra).
  assert (F * S_ <= Y * (1 + (1 # 9007199254740992)) * S_)%Q by (apply Qmult_le_compat_r; lra).
  assert (Y * (1 + (1 # 9007199254740992)) * S_ == A * (1 + (1 # 9007199254740992)))%Q by (rewrite <- E; ring).
  lra.
Qed.

(** What [now] adds: [a] cycles were counted in [s] nanoseconds, and [n] since the
    beginning, of which the last [m] in [e] nanoseconds. *)
Lemma elapsed_bound rnd rndl (a s n m e : Q) :
  rounds u53 rnd → rounds u64 rndl →
  (1 <= a)%Q → (a <= 18446744073709551616 # 1)%Q → (1 <= s)%Q → (s <= 18446744073709551616 # 1)%Q →
  (n <= 18446744073709551616 # 1)%Q → (0 <= m)%Q → (m + a <= n)%Q → (e * a == m * s)%Q →
  ((e + s) * (1 - (1 # 2251799813685248)) <= rndl (n / rnd (rnd a / rnd s)))%Q.
Proof.
  intros Hr Hrl Ha1 Ha2 Hs1 Hs2 Hn2 Hm Hma He.
  destruct (frequency_bound rnd a s Hr Ha1 Ha2 Hs1 Hs2) as (F1 & F2 & F3). set (F := rnd (rnd a / rnd s)%Q) in *. clearbody F.
  assert (HF : (0 < F)%Q) by lra. pose proof (Qdiv_times n F HF) as E. set (X := (n / F)%Q) in *. clearbody X.
  destruct (quotient_bounds X n F (1 # 295147905179352825856) (5444517870735015415413993718908291383296 # 1) HF E) as [X1 X2]; [lra..|].
  destruct (rounds_at _ rndl X Hrl) as [L1 _]; [lra..|]. set (L := rndl X) in *. clearbody L.
  unfold u53, u64 in *.
  (* X * a * (1 + u)^2 >= n * s * (1 - u) *)
  assert (H1 : (n * (s * (1 - (1 # 9007199254740992))) <= X * (a * (1 + (1 # 9007199254740992)) * (1 + (1 # 9007199254740992))))%Q).
  { assert (Ex : (n * (s * (1 - (1 # 9007199254740992))) == F * (s * (1 - (1 # 9007199254740992))) * X)%Q)
      by (rewrite <- E; ring).
    rewrite Ex, (Qmult_comm X). apply Qmult_le_compat_r; [done|lra]. }
  assert (H2 : ((e + s) * a <= n * s)%Q).
  { assert (Ee : ((e + s) * a == (m + a) * s)%Q) by (rewrite Qmult_plus_distr_l, He; ring).
    rewrite Ee. apply Qmult_le_compat_r; lra. }
  assert (H3 : (X * (1 - (1 # 18446744073709551616)) * a <= L * a)%Q) by (apply Qmult_le_compat_r; lra).
  apply (Qmult_le_r _ _ a ltac:(lra)).
  set (na := (n * s)%Q) in *. set (xa := (X * a)%Q) in *. set (ea := ((e + s) * a)%Q) in *.
  assert (H1' : (na * (1 - (1 # 9007199254740992)) <= xa * ((1 + (1 # 9007199254740992)) * (1 + (1 # 9007199254740992))))%Q)
    by (unfold na, xa; lra).
  assert (H3' : (xa * (1 - (1 # 18446744073709551616)) <= L * a)%Q) by (unfold xa; lra).
  assert (H4 : (0 <= na)%Q) by (unfold na; apply Qmult_le_0_compat; lra).
  assert (Eg : ((e + s) * (1 - (1 # 2251799813685248)) * a == ea * (1 - (1 # 2251799813685248)))%Q) by (unfold ea; ring).
  rewrite Eg.
  clearbody na xa ea. lra.
Qed.

(** ** Properties *)

(** the two halves of the counter are put together, and for any rounding that
    keeps the order, while the counter does not run backwards and the time fits
    in 64 bits, [now] never goes back; where the counter started it is the time
    of the system clock. *)
Theorem rdtsc_now_monotone rndl r lo hi c1 c2 d t1 t2 :
  (∀ x y : Q, (x <= y)%Q → (rndl x <= rndl y)%Q) → (rndl (inject_Z 0 / frequence_ r) == 0)%Q →
  (0 < frequence_ r)%Q → 0 ≤ cycle_base_ r ≤ c1 → c1 ≤ c2 < 2 ^ 64 → 0 ≤ timepoint_base_ r →
  to_uint64 (rndl (inject_Z (c2 - cycle_base_ r) / frequence_ r)%Q) = Ok d → timepoint_base_ r + d < 2 ^ 64 →
  rdtsc_now rndl r c1 = Ok t1 → rdtsc_now rndl r c2 = Ok t2 → 0 ≤ lo < 2 ^ 32 → 0 ≤ hi < 2 ^ 32 →
  t1 ≤ t2 ∧ rdtsc_now rndl r (cycle_base_ r) = Ok (timepoint_base_ r) ∧ now_cycle lo hi = hi * 2 ^ 32 + lo.
Proof.
  intros Hmono Hzero Hf Hb Hc Htb Hd Hfit H1 H2 Hlo Hhi. unfold rdtsc_now in *.
  rewrite !wrap_small in H1, H2 by lia. rewrite Hd in H2. cbn [mbind res_bind mret res_ret] in H2.
  apply to_uint64_Ok in Hd as [Hd Hd0].
  apply bind_Ok in H1 as (d1 & [Hd1 Hd10]%to_uint64_Ok & H1). injection H1 as H1. injection H2 as H2.
  assert (d1 ≤ d).
  { rewrite Hd, Hd1. apply Qfloor_resp_le, Hmono, Qdiv_mono; [done|lia]. }
  rewrite wrap_small in H1, H2 by lia. split_and!; [lia| |by apply now_cycle_spec].
  rewrite Z.sub_diag, (wrap_small 64 0) by lia. unfold to_uint64.
  assert (Qfloor (rndl (inject_Z 0 / frequence_ r)%Q) = 0) as -> by (by rewrite Hzero).
  cbn [Z.leb Z.compare andb mbind res_bind mret res_ret]. change (0 <? 2 ^ 64) with true.
  cbn [mbind res_bind mret res_ret]. by rewrite Z.add_0_r, wrap_small by lia.
Qed.


(** ** Witnesses *)


(** Two cycles per nanosecond. *)
Lemma rdtsc_now_monotone_witness :
  rdtsc_now (λ q, q) (MkRdtsc (2 # 1) 100 5000) 107 = Ok 5003 ∧ 5003 ≤ 5050 ∧
  now_cycle 5 1 = 4294967301.
Proof.
  destruct (rdtsc_now_monotone (λ q, q) (MkRdtsc (2 # 1) 100 5000) 5 1 107 200 50 5003 5050) as (H1 & _ & H2);
    try done; try (cbn; lia).
Defined.
