(* ===== verification/AssertMacro.v ===== *)
(** * Checks (basic/assert_macro.h)

    The macros put the text of their argument next to an operator, so what they
    test depends on how the argument is written.  [cexpr] is the part of C
    expressions for which this matters: [==] binds tighter than [&&], and [!]
    tighter than both. *)

From S2P Require Import Prelude.
Local Open Scope Z_scope.

(** ** Expressions *)

(** [primary]: a name, a call, a literal; [paren]: an expression in
    parentheses.  An operand of [==] is not an [&&] without parentheses. *)
Inductive unary := UPrimary (v : Z) | UParen (e : cexpr) | UNot (u : unary)
with cexpr := CUnary (u : unary) | CEq (es : cexpr) (u : unary) | CAnd (a b : cexpr).

Definition truth (b : bool) : Z := if b then 1 else 0.

Fixpoint eval_u (u : unary) : Z :=
  match u with
  | UPrimary v => v
  | UParen e => eval e
  | UNot u => truth (eval_u u =? 0)
  end
with eval (e : cexpr) : Z :=
  match e with
  | CUnary u => eval_u u
  | CEq a u => truth (eval a =? eval_u u)
  | CAnd a b => truth (negb (eval a =? 0) && negb (eval b =? 0))
  end.

(** The text [!e]: the operator belongs to the first operand. *)
Fixpoint not_text (e : cexpr) : cexpr :=
  match e with
  | CUnary u => CUnary (UNot u)
  | CEq a u => CEq (not_text a) u
  | CAnd a b => CAnd (not_text a) b
  end.

(** The text [e == nullptr]: the operator belongs to the last operand. *)
Fixpoint null_text (e : cexpr) : cexpr :=
  match e with
  | CUnary _ | CEq _ _ => CEq e (UPrimary 0)
  | CAnd a b => CAnd a (null_text b)
  end.

(** ** The macros: whether they log and return *)

Definition UNLIKELY (x : cexpr) : bool := negb (eval (CUnary (UNot (UNot (UParen x)))) =? 0).

Definition assert_true (cond : cexpr) : bool := UNLIKELY (not_text cond).
Definition assert_true2 (cond : cexpr) : bool := UNLIKELY (CUnary (UNot (UParen cond))).
Definition assert_nullptr (cond : cexpr) : bool := UNLIKELY (null_text cond).
Definition assert_nullptr2 (cond : cexpr) : bool := UNLIKELY (null_text cond).

(** ** Properties *)

Lemma UNLIKELY_spec x : UNLIKELY x = negb (eval x =? 0).
Proof. unfold UNLIKELY. cbn. unfold truth. by destruct (eval x =? 0). Qed.

Lemma truth_zero b : (truth b =? 0) = negb b.
Proof. by destruct b. Qed.

(** [assert_true2] returns exactly when its condition is false, and
    [assert_nullptr] when its argument is null, if that is not an [&&];
    [assert_true] does for a condition that is one operand.  For [a == b] it
    tests whether [!a] is [b]: two values that differ, neither of them 0, pass
    the check. *)
Theorem assert_macros_spec cond u v a b :
  assert_true2 cond = (eval cond =? 0) ∧
  assert_true (CUnary u) = (eval (CUnary u) =? 0) ∧
  assert_true (CEq (CUnary u) v) = (truth (eval_u u =? 0) =? eval_u v) ∧
  (a ≠ b → a ≠ 0 → b ≠ 0 → assert_true (CEq (CUnary (UPrimary a)) (UPrimary b)) = false) ∧
  assert_nullptr (CUnary u) = (eval_u u =? 0) ∧
  assert_nullptr2 (CEq (CUnary u) v) = negb (eval_u u =? eval_u v).
Proof.
  unfold assert_true, assert_true2, assert_nullptr, assert_nullptr2. rewrite !UNLIKELY_spec. cbn.
  rewrite !truth_zero, !negb_involutive. split_and!; try done.
  intros _ Ha Hb. rewrite (proj2 (Z.eqb_neq a 0) Ha). unfold truth. lia.
Qed.

(** ** Witness *)

(** [assert_true(404 == 200, ret)] goes on. *)
Lemma assert_macros_spec_witness :
  assert_true (CEq (CUnary (UPrimary 404)) (UPrimary 200)) = false ∧
  assert_true2 (CEq (CUnary (UPrimary 404)) (UPrimary 200)) = true.
Proof.
  destruct (assert_macros_spec (CEq (CUnary (UPrimary 404)) (UPrimary 200)) (UPrimary 0) (UPrimary 0) 404 200)
    as (H2 & _ & _ & H1 & _).
  split; [apply H1; discriminate | exact H2].
Defined.
