(* ===== verification/ConfigFile.v ===== *)
(** * Configuration documents and files (ConfigDocument, ConfigFile,
      ConfigValidator of basic/config/config_parser.h)

    A document is its root node; the files are a map from paths to contents.
    [ConfigFile::data] keeps what it read in a function-local static variable,
    which all the objects of the program share. *)

From S2P Require Import Prelude CText ConfigNode ConfigParser.

(** ** [ConfigFile] *)

(** The file system and the static variable of [data], [None] until it is
    initialised. *)
Record cf_state := Cf { files : gmap str str; content : option str }.

(** [data()] of an object with this path. *)
Definition cf_data (path : str) (s : cf_state) : res (str * cf_state) :=
  match files s !! path with
  | None => Throw RuntimeError
  | Some text =>
      let c := match content s with Some c => c | None => text end in
      mret (c, Cf (files s) (Some c))
  end.

(** [dump(data)]: [writable] tells whether the file can be opened; it is
    truncated. *)
Definition cf_dump (writable : bool) (path data : str) (s : cf_state) : res cf_state :=
  if writable then mret (Cf (<[path := data]> (files s)) (content s)) else Throw RuntimeError.

(** Calls of a program; an exception is caught and nothing changes. *)
Inductive cf_op := CfData (path : str) | CfDump (writable : bool) (path data : str).

Definition cf_step (op : cf_op) (s : cf_state) : option (res str) * cf_state :=
  match op with
  | CfData path =>
      match cf_data path s with
      | Ok (t, s) => (Some (Ok t), s)
      | Throw e => (Some (Throw e), s)
      | Fault f => (Some (Fault f), s)
      | NoFuel => (Some NoFuel, s)
      end
  | CfDump w path data => (None, match cf_dump w path data s with Ok s => s | _ => s end)
  end.

(** The results of the calls of [data], in order. *)
Fixpoint cf_run (ops : list cf_op) (s : cf_state) : list (res str) * cf_state :=
  match ops with
  | [] => ([], s)
  | op :: ops =>
      let '(r, s) := cf_step op s in
      let '(rs, s) := cf_run ops s in
      (match r with Some r => r :: rs | None => rs end, s)
  end.

(** ** [ConfigDocument] *)

Section document.
Context (fmt_float : Z → str) (fmt_double : Z → Z → str) (order : gmap str ConfigNode → list (str * ConfigNode)).

(** [parse<IniParser>] and [dump<IniParser>]: a new parser each time, parsing
    on top of the root that is there. *)
Definition doc_parse (data : str) (root_ : ConfigNode) : res ConfigNode :=
  ini_parse default_options data root_.
Definition doc_dump (st : statics) (root_ : ConfigNode) : res (str * statics) :=
  ini_dump fmt_float fmt_double order default_options st root_.

(** The free functions [parse<T>] and [dump<T>]. *)
Definition parse (data : str) : res ConfigNode :=
  ini_parse default_options data null_node.
Definition dump (st : statics) (root : ConfigNode) : res (str * statics) :=
  ini_dump fmt_float fmt_double order default_options st root.

(** Saving a document and loading a file. *)
Definition save (st : statics) (writable : bool) (path : str) (root : ConfigNode) (s : cf_state)
    : res (statics * cf_state) :=
  '(text, st) ← doc_dump st root;
  s ← cf_dump writable path text s;
  mret (st, s).
Definition load (path : str) (root : ConfigNode) (s : cf_state) : res (ConfigNode * cf_state) :=
  '(text, s) ← cf_data path s;
  root ← doc_parse text root;
  mret (root, s).

End document.

(** ** [ConfigValidator] *)

Record ValidationResult := Validation { valid : bool; message : str; errors : list str }.

Definition validate {DomType : Type} (config schema : DomType) : ValidationResult :=
  Validation true (lit "OK") [].

(** ** Lemmas *)

(** The static variable is never assigned again. *)
Lemma cf_step_keeps op s t : content s = Some t →
  content (cf_step op s).2 = Some t ∧
  match (cf_step op s).1 with Some (Ok r) => r = t | Some r => r = Throw RuntimeError | None => True end.
Proof.
  destruct s as [fs c]. intros [= ->]. destruct op as [path|w path data]; cbn.
  - unfold cf_data. cbn. by destruct (fs !! path).
  - by destruct w.
Qed.

Lemma cf_run_keeps ops s t : content s = Some t →
  Forall (λ r, r = Ok t ∨ r = Throw RuntimeError) (cf_run ops s).1.
Proof.
  revert s. induction ops as [|op ops IH]; intros s Hs; cbn; [constructor|].
  destruct (cf_step_keeps op s t Hs) as [Hs' Hr]. destruct (cf_step op s) as [r s1]; cbn in *.
  specialize (IH s1 Hs'). destruct (cf_run ops s1) as [rs s2]; cbn in *.
  destruct r as [[]|]; [constructor; [by left; f_equal|done]| | | |done];
    constructor; (by right) || done.
Qed.

(** ** Theorems *)

(** C10: a document of string values that one run of a program saves is what the
    next run loads from the same path; loading it into a document with sections
    of its own replaces those the file has and keeps the others. *)
Theorem config_save_load fmt_float fmt_double order path m root s :
  (∀ m, order m ≡ₚ map_to_list m) → m ≠ ∅ → map_Forall string_section m →
  ∃ st s', save fmt_float fmt_double order None true path (Object m) s = Ok (st, s') ∧
    ∃ c, load path null_node (Cf (files s') None) = Ok (Object m, c) ∧
    load path root (Cf (files s') None) = Ok (Object (m ∪ as_object root), c).
Proof.
  intros Hord Hm H. pose proof (string_section_image fmt_float fmt_double m H) as Himg.
  assert (Hd : ∀ root, ∃ text, ini_dump fmt_float fmt_double order default_options None (Object m)
      = Ok (text, Some ([newline], lit "=")) ∧
    ini_parse default_options text root = Ok (Object (m ∪ as_object root))).
  { intros r. destruct (ini_dump_parse fmt_float fmt_double order Hord m r) as (text & Hd & Hp).
    { intros k n Hn. split; [by apply (H k n)|by apply (Himg k)]. }
    exists text. split; [exact Hd|]. rewrite Hp, decide_False by done. do 3 f_equal. apply map_eq.
    intros k. rewrite lookup_fmap. destruct (m !! k) as [n|] eqn:Hn; [|done]. simpl. f_equal. by apply (Himg k). }
  destruct (Hd null_node) as (text & Hdump & Hp1), (Hd root) as (text' & Hdump' & Hp2).
  rewrite Hdump in Hdump'. simplify_eq.
  eexists _, _. unfold save, doc_dump. rewrite Hdump. split; [reflexivity|]. eexists.
  unfold load, cf_data, doc_parse. cbn [files content]. rewrite lookup_insert_eq.
  cbn [mbind res_bind mret res_ret]. rewrite Hp1, Hp2. cbn [mbind res_bind mret res_ret].
  split; [|reflexivity]. cbn [as_object null_node]. by rewrite (right_id_L ∅ (∪)).
Qed.

(** the first call of [data] reads its file; every later call, of any object
    and after any [dump], returns that first text again or fails to open its
    file. *)
Theorem config_file_stale path text fs ops :
  fs !! path = Some text →
  ∃ s, cf_data path (Cf fs None) = Ok (text, s) ∧ files s = fs ∧
    Forall (λ r, r = Ok text ∨ r = Throw RuntimeError) (cf_run ops s).1.
Proof.
  intros Hf. unfold cf_data. cbn [files content]. rewrite Hf. eexists. split; [done|]. split; [done|].
  by apply cf_run_keeps.
Qed.

(** ** Witnesses *)

Definition file_config : gmap str ConfigNode :=
  {[ lit "net" := Object {[ lit "ip" := Value (VString (lit "10.0.0.1")) ]} ]}.

Lemma file_config_ok : map_Forall string_section file_config.
Proof.
  apply map_Forall_singleton. split; [plain; done|]. eexists. split; [done|]. split; [done|].
  apply map_Forall_singleton. split; [plain|]. by eexists.
Qed.

Lemma config_save_load_witness : ∃ st s',
  save (λ _, []) (λ _ _, []) map_to_list None true (lit "a.ini") (Object file_config) (Cf ∅ None) = Ok (st, s') ∧
  ∃ c, load (lit "a.ini") null_node (Cf (files s') None) = Ok (Object file_config, c).
Proof.
  destruct (config_save_load (λ _, []) (λ _ _, []) map_to_list (lit "a.ini") file_config null_node (Cf ∅ None))
    as (st & s' & Hs & c & Hl & _); [done|done|exact file_config_ok|].
  exists st, s'. split; [exact Hs|]. exists c. exact Hl.
Defined.

Lemma config_file_stale_witness : ∃ s,
  cf_data (lit "a") (Cf {[ lit "a" := lit "1" ]} None) = Ok (lit "1", s) ∧
  Forall (λ r, r = Ok (lit "1") ∨ r = Throw RuntimeError)
    (cf_run [CfDump true (lit "a") (lit "2"); CfData (lit "a")] s).1.
Proof.
  destruct (config_file_stale (lit "a") (lit "1") {[ lit "a" := lit "1" ]}
    [CfDump true (lit "a") (lit "2"); CfData (lit "a")]) as (s & H1 & _ & H2); [reflexivity|].
  exists s. split; [exact H1|exact H2].
Defined.
