(* ===== verification/ConnRace.v ===== *)
(** * A pool used by two threads (core/tcp_conn, core/ngx_pool)

    [send_msg] takes the connection's mutex before it allocates from the pool
    of the connection; [OnRead], which runs in the thread of the loop, allocates
    from the same pool without it, and the pool has no lock of its own.  Here
    two threads allocate from one block: every access to the block that
    [ngx_palloc] makes, and taking and giving back the mutex, is a step, in any
    interleaving, with sequentially consistent memory. *)

From S2P Require Import Prelude NgxPool.
Local Open Scope Z_scope.

(** Where a thread is: before the mutex; before the test of the block; found
    [a]; has read [ref]; has written it; has written [last]; has returned [a];
    went on to the next block. *)
Inductive place :=
| AStart | AIn | AFit (a : Z) | ALoad (a r : Z) | ARef (a : Z) | ALast (a : Z) | ADone (a : Z) | ANext.

(** The fields of the block that change, the mutex, and the two threads. *)
Record pool_race := Race { last_ : Z; ref_of : Z; mutex : option bool; at_ : bool → place }.

Definition goes (i : bool) (c : place) (s : pool_race) : bool → place :=
  λ j, if Bool.eqb j i then c else at_ s j.

Section race.
(** The end of the block, what each thread asks for, and whether it locks. *)
Context (block_end : Z) (size : bool → Z) (locks : bool → bool).

Definition fits (last n : Z) : bool := n <=? wrap 64 (block_end - ngx_align_ptr last).

Definition palloc_step (i : bool) (s : pool_race) : option pool_race :=
  match at_ s i with
  | AStart =>
      if locks i then
        match mutex s with
        | None => Some (Race (last_ s) (ref_of s) (Some i) (goes i AIn s))
        | Some _ => None
        end
      else Some (Race (last_ s) (ref_of s) (mutex s) (goes i AIn s))
  | AIn =>
      let c := if fits (last_ s) (size i) then AFit (ngx_align_ptr (last_ s)) else ANext in
      Some (Race (last_ s) (ref_of s) (mutex s) (goes i c s))
  | AFit a => Some (Race (last_ s) (ref_of s) (mutex s) (goes i (ALoad a (ref_of s)) s))
  | ALoad a r => Some (Race (last_ s) (wrap 32 (r + 1)) (mutex s) (goes i (ARef a) s))
  | ARef a => Some (Race (a + size i) (ref_of s) (mutex s) (goes i (ALast a) s))
  | ALast a =>
      Some (Race (last_ s) (ref_of s) (if locks i then None else mutex s) (goes i (ADone a) s))
  | ADone _ | ANext => None
  end.

Definition two_step (s s' : pool_race) : Prop := ∃ i, palloc_step i s = Some s'.

Definition two_start (last0 ref0 : Z) : pool_race := Race last0 ref0 None (λ _, AStart).

(** A schedule: whose step is next. *)
Fixpoint schedule (ks : list bool) (s : pool_race) : option pool_race :=
  match ks with
  | [] => Some s
  | i :: ks => s ← palloc_step i s; schedule ks s
  end.

Lemma schedule_rtc ks s s' : schedule ks s = Some s' → rtc two_step s s'.
Proof.
  revert s. induction ks as [|i ks IH]; intros s H; simplify_eq/=; [done|].
  apply bind_Some in H as (s1 & H1 & H). eapply rtc_l; [by exists i|by apply IH].
Qed.

(** ** Specification *)

(** A thread that runs alone from a block with [L] and [R]. *)
Definition tracks (L R : Z) (n : Z) (c : place) (s : pool_race) : Prop :=
  match c with
  | AStart | AIn => last_ s = L ∧ ref_of s = R
  | AFit a => fits L n = true ∧ a = ngx_align_ptr L ∧ last_ s = L ∧ ref_of s = R
  | ALoad a r => fits L n = true ∧ a = ngx_align_ptr L ∧ last_ s = L ∧ ref_of s = R ∧ r = R
  | ARef a => fits L n = true ∧ a = ngx_align_ptr L ∧ last_ s = L ∧ ref_of s = wrap 32 (R + 1)
  | ALast a | ADone a =>
      fits L n = true ∧ a = ngx_align_ptr L ∧ last_ s = a + n ∧ ref_of s = wrap 32 (R + 1)
  | ANext => last_ s = L ∧ ref_of s = R
  end.

Definition waiting (c : place) : bool := match c with AStart | AIn => true | _ => false end.
Definition stored (c : place) : option Z := match c with ALast a | ADone a => Some a | _ => None end.
Definition found (c : place) : option Z :=
  match c with AFit a | ALoad a _ | ARef a | ALast a | ADone a => Some a | _ => None end.
Definition inside_lock (c : place) : bool :=
  match c with AStart | ADone _ => false | _ => true end.

Definition mutex_ok (s : pool_race) : Prop :=
  ∀ i, locks i = true → inside_lock (at_ s i) = true → mutex s = Some i.

(** Thread [i] first: the other has not looked at the block; it has left room
    for it; it did not fit; or both found the same address. *)
Definition race_inv (last0 ref0 : Z) (s : pool_race) : Prop :=
  (∃ i, tracks last0 ref0 (size i) (at_ s i) s ∧ waiting (at_ s (negb i)) = true) ∨
  (∃ i, fits last0 (size i) = true ∧ stored (at_ s i) = Some (ngx_align_ptr last0) ∧
        tracks (ngx_align_ptr last0 + size i) (wrap 32 (ref0 + 1)) (size (negb i)) (at_ s (negb i)) s) ∨
  (∃ i, at_ s i = ANext ∧ tracks last0 ref0 (size (negb i)) (at_ s (negb i)) s) ∨
  ((∀ i, found (at_ s i) = Some (ngx_align_ptr last0)) ∧ locks true && locks false = false).

(** ** Lemmas *)

Lemma goes_same i c s : goes i c s i = c.
Proof. unfold goes. by rewrite Bool.eqb_reflx. Qed.

Lemma goes_other i c s : goes i c s (negb i) = at_ s (negb i).
Proof. by destruct i. Qed.

Lemma goes_other' i c s : goes (negb i) c s i = at_ s i.
Proof. by destruct i. Qed.

Lemma mutex_ok_step i s s' : mutex_ok s → palloc_step i s = Some s' → mutex_ok s'.
Proof.
  intros H Hs j Hj. pose proof (H i) as Hi. specialize (H j Hj). unfold palloc_step in Hs.
  assert (Hd : j = i ∨ j = negb i) by (destruct i, j; auto).
  destruct Hd as [->| ->]; [rewrite Hj in Hs, Hi|]; destruct (at_ s i) eqn:Hp; simplify_eq/=;
    repeat case_match; simplify_eq/=; rewrite ?goes_same, ?goes_other; try done; auto; intros Hin;
    specialize (H Hin); try done; specialize (Hi eq_refl eq_refl); destruct i; simpl in *; congruence.
Qed.

(** Two threads that both lock are not inside together. *)
Lemma mutex_excludes s i : mutex_ok s → inside_lock (at_ s i) = true → inside_lock (at_ s (negb i)) = true →
  locks true && locks false = false.
Proof.
  intros H H1 H2. destruct (locks i) eqn:E1, (locks (negb i)) eqn:E2;
    [|destruct i; simpl in *; rewrite ?E1, ?E2; by rewrite ?andb_false_r..].
  pose proof (H i E1 H1). pose proof (H (negb i) E2 H2). destruct i; simpl in *; congruence.
Qed.

Lemma tracks_frame L R n c s s' :
  last_ s' = last_ s → ref_of s' = ref_of s → tracks L R n c s → tracks L R n c s'.
Proof. unfold tracks. intros -> ->. done. Qed.

(** A thread that runs alone. *)
Lemma tracks_step L R i s s' :
  tracks L R (size i) (at_ s i) s → palloc_step i s = Some s' → tracks L R (size i) (at_ s' i) s'.
Proof.
  unfold palloc_step. intros Ht Hs. destruct (at_ s i); cbn in Ht; repeat case_match; simplify_eq;
    cbn [at_]; rewrite goes_same; cbn; intuition congruence.
Qed.

Lemma others_kept i s s' : palloc_step i s = Some s' → at_ s' (negb i) = at_ s (negb i).
Proof.
  unfold palloc_step. intros Hs. destruct (at_ s i); repeat case_match; simplify_eq; cbn [at_]; apply goes_other.
Qed.

(** The places where the block was not written yet. *)
Lemma found_step a i s s' : found (at_ s i) = Some a → palloc_step i s = Some s' → found (at_ s' i) = Some a.
Proof.
  unfold palloc_step. intros Hf Hs. destruct (at_ s i); cbn in Hf; simplify_eq; cbn [at_]; by rewrite goes_same.
Qed.

(** The second thread looks at the block. *)
Lemma race_enter last0 ref0 k s :
  tracks last0 ref0 (size k) (at_ s k) s →
  (inside_lock (at_ s k) = true → locks true && locks false = false) →
  let c := if fits (last_ s) (size (negb k)) then AFit (ngx_align_ptr (last_ s)) else ANext in
  at_ (Race (last_ s) (ref_of s) (mutex s) (goes (negb k) c s)) k = at_ s k →
  race_inv last0 ref0 (Race (last_ s) (ref_of s) (mutex s) (goes (negb k) c s)).
Proof.
  intros Ht Hexcl c Hk. set (s' := Race _ _ _ _) in *.
  assert (Hc : at_ s' (negb k) = c) by (unfold s'; cbn [at_]; apply goes_same).
  assert (Hnew : ∀ L R, last_ s = L → ref_of s = R → tracks L R (size (negb k)) (at_ s' (negb k)) s').
  { intros L R HL HR. rewrite Hc. unfold c. rewrite HL. destruct (fits L _) eqn:E; cbn; auto. }
  assert (Hfirst : last_ s = last0 → ref_of s = ref0 → waiting (at_ s k) = true → race_inv last0 ref0 s').
  { intros HL HR Hw. left. exists (negb k). rewrite negb_involutive, Hk. auto. }
  assert (Hboth : last_ s = last0 → found (at_ s k) = Some (ngx_align_ptr last0) → inside_lock (at_ s k) = true →
    tracks last0 ref0 (size k) (at_ s k) s → race_inv last0 ref0 s').
  { intros HL Hf Hin Htr. destruct (fits (last_ s) (size (negb k))) eqn:E.
    - right; right; right. split; [|by apply Hexcl]. intros j.
      assert (j = k ∨ j = negb k) as [->| ->] by (destruct j, k; auto); [by rewrite Hk|].
      rewrite Hc. unfold c. by rewrite ?E, ?HL.
    - right; right; left. exists (negb k). rewrite negb_involutive, Hk, Hc. unfold c. rewrite ?E.
      split; [done|]. by eapply tracks_frame; [| |exact Htr]. }
  pose proof Ht as Ht'. destruct (at_ s k) eqn:Hpk; cbn in Ht'.
  1,2: by destruct Ht'; apply Hfirst.
  1,2,3: apply Hboth; try done; cbn; intuition congruence.
  1,2: destruct Ht' as (Hf & -> & HL & HR); right; left; exists k; rewrite Hk;
    (split_and!; [done|done|by apply Hnew]).
  destruct Ht'. right; right; left. exists k. rewrite Hk. split; [done|]. by apply Hnew.
Qed.

Lemma race_inv_step last0 ref0 i s s' :
  mutex_ok s → race_inv last0 ref0 s → palloc_step i s = Some s' → race_inv last0 ref0 s'.
Proof.
  intros Hm [(k & Ht & Hw)|[(k & Hf & Hst & Ht)|[(k & Hn & Ht)|[Hf Hl]]]] Hs.
  - assert (Hd : i = k ∨ i = negb k) by (destruct i, k; auto). destruct Hd as [->| ->].
    + left. exists k. split; [by eapply tracks_step|]. by rewrite (others_kept _ _ _ Hs).
    + pose proof (others_kept _ _ _ Hs) as Hk. rewrite negb_involutive in Hk.
      revert Hs. unfold palloc_step. destruct (at_ s (negb k)) eqn:Hp; try done; intros Hs.
      * left. exists k. rewrite Hk. repeat case_match; simplify_eq; cbn [at_]; rewrite goes_same;
          (split; [by eapply tracks_frame; [| |exact Ht]|done]).
      * assert (Hexcl : inside_lock (at_ s k) = true → locks true && locks false = false).
        { intros Hin. apply (mutex_excludes s k Hm Hin). by rewrite Hp. }
        injection Hs as <-. cbn [at_] in Hk. apply (race_enter last0 ref0 k); [done|by apply Hexcl|done].
  - assert (Hd : i = k ∨ i = negb k) by (destruct i, k; auto). destruct Hd as [->| ->].
    + right; left. exists k. rewrite (others_kept _ _ _ Hs). split; [done|].
      revert Hs. unfold palloc_step. destruct (at_ s k) eqn:Hp; try done; intros Hs. simplify_eq. cbn [at_].
      rewrite goes_same. split; [done|]. by eapply tracks_frame; [| |exact Ht].
    + right; left. exists k. pose proof (others_kept _ _ _ Hs) as Hk. rewrite negb_involutive in Hk. rewrite Hk.
      split_and!; [done..|by eapply tracks_step].
  - assert (Hd : i = k ∨ i = negb k) by (destruct i, k; auto). destruct Hd as [->| ->].
    + revert Hs. unfold palloc_step. by rewrite Hn.
    + right; right; left. exists k. pose proof (others_kept _ _ _ Hs) as Hk. rewrite negb_involutive in Hk. rewrite Hk.
      split; [done|by eapply tracks_step].
  - right; right; right. split; [|done]. intros j.
    assert (Hd : j = i ∨ j = negb i) by (destruct i, j; auto). destruct Hd as [->| ->].
    + by apply (found_step _ i s).
    + by rewrite (others_kept _ _ _ Hs).
Qed.

Lemma race_reachable last0 ref0 s : rtc two_step (two_start last0 ref0) s →
  mutex_ok s ∧ race_inv last0 ref0 s.
Proof.
  intros H. refine (rtc_ind_r (λ s, mutex_ok s ∧ race_inv last0 ref0 s) _ _ _ s H).
  - split; [by intros i _|]. left. by exists true.
  - intros s1 s2 _ [i Hi] [Hm Hr]. split; [by eapply mutex_ok_step|by eapply race_inv_step].
Qed.

(** ** Theorem *)

(** C15: two threads that allocate from the same block of a connection's pool:
    when both take the mutex their pieces are disjoint and both are counted.
    When one does not, as [OnRead], the only other outcome is that they get the
    same address; an interleaving in which they do always exists, with one
    of the two references lost. *)
Theorem conn_pool_race last0 ref0 :
  0 ≤ last0 ≤ block_end → block_end ≤ 2 ^ 63 → block_end mod 8 = 0 → (∀ i, 0 < size i) →
  (∀ s a1 a2, rtc two_step (two_start last0 ref0) s → at_ s true = ADone a1 → at_ s false = ADone a2 →
     (disjoint_regions (a1, size true) (a2, size false) ∧ ref_of s = wrap 32 (wrap 32 (ref0 + 1) + 1)) ∨
     (a1 = a2 ∧ locks true && locks false = false)) ∧
  (locks true && locks false = false → fits last0 (size true) = true → fits last0 (size false) = true →
   ∃ s a, rtc two_step (two_start last0 ref0) s ∧ at_ s true = ADone a ∧ at_ s false = ADone a ∧
     ref_of s = wrap 32 (ref0 + 1)).
Proof.
  intros Hl He Hmod Hsz.
  assert (Hal : ∀ p, 0 ≤ p ≤ block_end → p ≤ ngx_align_ptr p ≤ block_end).
  { intros p Hp. rewrite align_ptr_spec by lia. lia. }
  assert (Hfit : ∀ p n, 0 ≤ p ≤ block_end → fits p n = true → ngx_align_ptr p + n ≤ block_end).
  { intros p n Hp Hf. specialize (Hal p Hp). apply Z.leb_le in Hf. rewrite wrap_small in Hf; lia. }
  split.
  - intros s a1 a2 Hr H1 H2.
    assert (Hat : ∀ i, at_ s i = ADone (if i then a1 else a2)) by (by intros []).
    destruct (race_reachable _ _ _ Hr) as [_ [(k & _ & Hw)|[(k & Hf & Hst & Ht)|[(k & Hn & _)|[Hf Hlk]]]]].
    + rewrite Hat in Hw. done.
    + left. rewrite Hat in Hst, Ht. cbn in Hst, Ht. injection Hst as Hk. destruct Ht as (_ & Ha & _ & Hrf).
      split; [|done]. pose proof (Hal last0 Hl). pose proof (Hfit last0 (size k) Hl Hf).
      pose proof (Hal (ngx_align_ptr last0 + size k) ltac:(specialize (Hsz k); lia)).
      unfold disjoint_regions. destruct k; cbn in *; lia.
    + rewrite Hat in Hn. done.
    + right. split; [|done]. pose proof (Hf true) as F1. pose proof (Hf false) as F2. rewrite Hat in F1, F2.
      cbn in F1, F2. congruence.
  - intros Hlk F1 F2.
    assert (∃ s, schedule [true; false; true; false; true; false; true; false; true; false; true; false]
        (two_start last0 ref0) = Some s ∧ at_ s true = ADone (ngx_align_ptr last0) ∧
      at_ s false = ADone (ngx_align_ptr last0) ∧ ref_of s = wrap 32 (ref0 + 1)) as (s & Hs & ? & ? & ?).
    { unfold schedule, palloc_step, two_start, goes.
      destruct (locks true), (locks false); try done; repeat (cbn; rewrite ?F1, ?F2); by eexists. }
    exists s, (ngx_align_ptr last0). split_and!; [by eapply schedule_rtc|done..].
Qed.

End race.

(** ** Witnesses *)

(** The loop's thread ([false]) reads a header of 24 bytes, another sends three
    bytes; the block is that of a new pool at 65536. *)
Definition demo_size (i : bool) : Z := if i then 40 else 56.

Lemma conn_pool_race_witness :
  ∃ s a, rtc (two_step 69632 demo_size (λ i, i)) (two_start 65608 0) s ∧
    at_ s true = ADone a ∧ at_ s false = ADone a ∧ ref_of s = 1.
Proof.
  destruct (proj2 (conn_pool_race 69632 demo_size (λ i, i) 65608 0 ltac:(lia) ltac:(lia) eq_refl
    ltac:(intros []; reflexivity)) eq_refl eq_refl eq_refl) as (s & a & Hs & H1 & H2 & H3).
  exists s, a. split; [exact Hs|]. split; [exact H1|]. split; [exact H2|exact H3].
Defined.
