(* ===== verification/CloseRace.v ===== *)
(** * Ending a connection from several threads (core/net_io, core/eventloop)

    [tcp_conn::send_msg] may be called by any thread and ends the connection
    when the socket fails, as [OnRead] and [OnSend] do in the thread of the
    loop.  [net_io::terminate] takes no lock except in [remove_net].  Here any
    number of threads end the same connection: every access to its fields is a
    step, the locked part of [remove_net] is one step, in any interleaving,
    with sequentially consistent memory.  A thread that has a reference gives it
    back at the end, as the loop does; a caller of [send_msg] may have none.
    [close], which does nothing with a valid descriptor, is left out. *)

From S2P Require Import Prelude.
Local Open Scope Z_scope.

(** ** The program *)

(** The fields of the connection; [alive] until it is deleted; [in_conns]: the
    loop has it registered; [callbacks] counts the calls of [_disconn_cb]. *)
Record shared_conn := Conn {
  alive : bool; in_conns : bool; loop_set : bool; cb_set : bool; brk_set : bool;
  ref_count : Z; callbacks : nat
}.

(** Where a thread is: at [if (_loop)]; at the second read of [_loop]; at the
    locked part of [remove_net]; at [_loop = NULL]; in [OnClose] at
    [if (_disconn_cb)], at the call, at [_disconn_cb = NULL]; at [_brk_tm]; at
    [release]; returned; or undefined. *)
Inductive term_at :=
| TLoop | TCall | TRemove | TNull | TTest | TNotify | TUnset | TBrk | TRelease | TDone | TDead (f : fault).

#[export] Instance term_at_eq_dec : EqDecision term_at.
Proof. solve_decision. Defined.

Definition with_ref (n : Z) (c : shared_conn) : shared_conn :=
  Conn (alive c) (in_conns c) (loop_set c) (cb_set c) (brk_set c) n (callbacks c).

(** [release]: the destructor calls [terminate] once more, which finds [_loop]
    null as the loop's reference is gone. *)
Definition conn_release (c : shared_conn) : shared_conn :=
  let c := with_ref (ref_count c - 1) c in
  if ref_count c =? 0 then Conn false (in_conns c) (loop_set c) (cb_set c) true (ref_count c) (callbacks c)
  else c.

(** The locked part of [remove_net] looks for the address in the set. *)
Definition remove_locked (c : shared_conn) : shared_conn :=
  if in_conns c then
    let c := Conn (alive c) (in_conns c) false (cb_set c) (brk_set c) (ref_count c) (callbacks c) in
    let c := conn_release c in
    Conn (alive c) false (loop_set c) (cb_set c) (brk_set c) (ref_count c) (callbacks c)
  else c.

(** [holds]: the thread has a reference. *)
Definition term_step (holds : bool) (t : term_at) (c : shared_conn) : option (term_at * shared_conn) :=
  let touch (r : term_at * shared_conn) := Some (if alive c then r else (TDead UseAfterFree, c)) in
  match t with
  | TLoop => touch (if loop_set c then TCall else TBrk, c)
  | TCall => touch (if loop_set c then TRemove else TDead NullDeref, c)
  | TRemove => Some (TNull, remove_locked c)
  | TNull => touch (TTest, Conn (alive c) (in_conns c) false (cb_set c) (brk_set c) (ref_count c) (callbacks c))
  | TTest => touch (if cb_set c then TNotify else TBrk, c)
  | TNotify =>
      touch (if cb_set c then
               (TUnset, Conn (alive c) (in_conns c) (loop_set c) (cb_set c) (brk_set c) (ref_count c) (S (callbacks c)))
             else (TDead NullDeref, c))
  | TUnset => touch (TBrk, Conn (alive c) (in_conns c) (loop_set c) false (brk_set c) (ref_count c) (callbacks c))
  | TBrk =>
      touch (if holds then TRelease else TDone,
             Conn (alive c) (in_conns c) (loop_set c) (cb_set c) true (ref_count c) (callbacks c))
  | TRelease => touch (TDone, conn_release c)
  | TDone | TDead _ => None
  end.

Inductive close_step : list (bool * term_at) * shared_conn → list (bool * term_at) * shared_conn → Prop :=
| close_one i h t ts c t' c' :
    ts !! i = Some (h, t) → term_step h t c = Some (t', c') → close_step (ts, c) (<[i := (h, t')]> ts, c').

(** A registered connection, the references of the loop and of the threads. *)
Definition close_start (hs : list bool) : list (bool * term_at) * shared_conn :=
  ((λ h, (h, TLoop)) <$> hs,
   Conn true true true true false (1 + Z.of_nat (length (filter (λ h : bool, h = true) hs))) 0).

(** A schedule: whose step is next. *)
Fixpoint close_run (ks : list nat) (s : list (bool * term_at) * shared_conn) : option (list (bool * term_at) * shared_conn) :=
  match ks with
  | [] => Some s
  | i :: ks =>
      '(h, t) ← s.1 !! i;
      '(t', c') ← term_step h t s.2;
      close_run ks (<[i := (h, t')]> s.1, c')
  end.

(** ** Specification *)

(** What a thread still owns. *)
Definition owns (x : bool * term_at) : Z :=
  if x.1 then match x.2 with TDone => 0 | _ => 1 end else 0.

Local Notation owned_refs := (sum_of owns).

(** How often a thread may have called the callback. *)
Definition called (t : term_at) : nat :=
  match t with TLoop | TCall | TRemove | TNull | TTest | TNotify => 0 | _ => 1 end.

Definition calls (ts : list (bool * term_at)) : nat := foldr (λ x n, called x.2 + n)%nat 0%nat ts.

(** A thread that is going to call it, or has. *)
Definition calling (t : term_at) : bool :=
  match t with TNull | TTest | TNotify => true | _ => false end.

Definition past_loop (t : term_at) : bool :=
  match t with TLoop | TCall | TRemove => false | _ => true end.

(** The thread is going to call the callback, or was undefined. *)
Definition pending (x : bool * term_at) : Prop := calling x.2 = true ∨ ∃ f, x.2 = TDead f.

(** What holds while every thread has a reference. *)
Record close_inv (s : list (bool * term_at) * shared_conn) : Prop := {
  ci_refs : ref_count s.2 = (if in_conns s.2 then 1 else 0) + owned_refs s.1;
  ci_alive : alive s.2 = bool_decide (0 < ref_count s.2);
  ci_loop : loop_set s.2 = in_conns s.2;
  ci_holds : Forall (λ x, x.1 = true ∧ x.2 ≠ TDead UseAfterFree) s.1;
  ci_past : in_conns s.2 = true → Forall (λ x, past_loop x.2 = false) s.1;
  ci_calls : (callbacks s.2 ≤ calls s.1)%nat;
  ci_unset : Forall (λ x, x.2 = TUnset → (1 ≤ callbacks s.2)%nat) s.1;
  ci_cb : cb_set s.2 = false → (1 ≤ callbacks s.2)%nat;
  ci_notified : in_conns s.2 = true ∨ (1 ≤ callbacks s.2)%nat ∨
    Exists pending s.1
}.

(** ** Lemmas *)

Lemma calls_insert ts i x y : ts !! i = Some x →
  (calls (<[i := y]> ts) + called x.2 = calls ts + called y.2)%nat.
Proof.
  revert i. induction ts as [|z ts IH]; intros [|i] H; simplify_eq/=; [lia|].
  specialize (IH i H). lia.
Qed.

Lemma owns_nonneg x : 0 ≤ owns x.
Proof. by destruct x as [[] []]. Qed.

Lemma Forall_insert_weaken {A} (P Q : A → Prop) l i x :
  Forall P l → (∀ y, P y → Q y) → Q x → Forall Q (<[i := x]> l).
Proof. intros Hl HPQ Hx. apply Forall_insert; [|done]. eapply Forall_impl; [exact Hl|exact HPQ]. Qed.

Lemma Exists_insert {A} (P : A → Prop) l i x : (i < length l)%nat → P x → Exists P (<[i := x]> l).
Proof. intros Hi Hx. apply Exists_exists. exists x. split; [by apply list_elem_of_insert|done]. Qed.

(** The thread's own step when it has a reference. *)
Lemma holder_alive s i t : close_inv s → s.1 !! i = Some (true, t) → t ≠ TDone →
  alive s.2 = true ∧ (if in_conns s.2 then 1 else 0) + 1 ≤ ref_count s.2.
Proof.
  intros [Hr Ha _ _ _ _ _ _ _] Hi Ht. pose proof (sum_of_le owns _ _ _ owns_nonneg Hi) as Ho.
  assert (owns (true, t) = 1) as H1 by (destruct t; done). rewrite Ha, Hr.
  split; [|lia]. apply bool_decide_true. destruct (in_conns s.2); lia.
Qed.

Lemma pending_kept ts i x y :
  ts !! i = Some x → ¬ pending x → Exists pending ts → Exists pending (<[i := y]> ts).
Proof.
  intros Hi Hn (z & Hz & HP)%Exists_exists. apply list_elem_of_lookup in Hz as [j Hj].
  apply Exists_exists. exists z. split; [|done]. apply list_elem_of_lookup. exists j.
  rewrite list_lookup_insert_ne; [done|]. intros <-. rewrite Hi in Hj. by simplify_eq.
Qed.

(** A step that changes neither the registration nor the references. *)
Lemma close_inv_quiet ts c i t t' c' :
  close_inv (ts, c) → ts !! i = Some (true, t) → t ≠ TDone → t' ≠ TDone → t' ≠ TDead UseAfterFree →
  ref_count c' = ref_count c → alive c' = alive c → in_conns c' = in_conns c → loop_set c' = loop_set c →
  (in_conns c = true → past_loop t' = false) →
  (callbacks c ≤ callbacks c' ∧ callbacks c' + called t ≤ callbacks c + called t')%nat →
  (t' = TUnset ∨ cb_set c' = false → 1 ≤ callbacks c')%nat →
  (callbacks c' = 0%nat → pending (true, t') ∨ ¬ pending (true, t)) →
  close_inv (<[i := (true, t')]> ts, c').
Proof.
  intros [Hr Ha Hl Hh Hp Hca Hu Hcb Hn] Hi Ht Ht' Hf Er Ea Ei El Hpast [Hc1 Hc2] Hset Hpend. cbn [fst snd] in *.
  pose proof (sum_of_insert owns ts i (true, t) (true, t') Hi) as Ho.
  pose proof (calls_insert ts i (true, t) (true, t') Hi) as Hc. cbn in Hc.
  assert (Hlt : (i < length ts)%nat) by (by apply lookup_lt_Some in Hi).
  assert (owns (true, t) = 1 ∧ owns (true, t') = 1) as [O1 O2] by (destruct t, t'; done).
  constructor; cbn [fst snd].
  - rewrite Er, Ei, Ho. lia.
  - by rewrite Ea, Er.
  - by rewrite El, Ei.
  - by apply Forall_insert.
  - intros Hin. rewrite Ei in Hin. apply Forall_insert; [by apply Hp|by apply Hpast].
  - lia.
  - eapply Forall_insert_weaken; [exact Hu| |].
    + intros y Hy Hy2. specialize (Hy Hy2). lia.
    + intros Hy. apply Hset. by left.
  - intros Hy. apply Hset. by right.
  - rewrite Ei. destruct (decide (1 ≤ callbacks c')%nat) as [|Hz]; [by right; left|].
    destruct Hn as [Hn|[Hn|Hn]]; [by left|lia|]. right; right.
    destruct Hpend as [Hx|Hx]; [lia|by apply Exists_insert|by eapply pending_kept].
Qed.

(** Its side conditions, in the order of the lemma. *)
Ltac quiet_step Hinv Hi Hnp Hcb :=
  eapply close_inv_quiet;
  [exact Hinv|exact Hi|done|done|done|done|try done|done|try (cbn; congruence)|try (cbn; congruence)|cbn; lia
  |intros [?|?]; cbn in *; first [done|congruence|lia|by auto]
  |intros ?; first [by left; left|by left; right; eexists|by right; apply Hnp|cbn in *; lia]].

(** A step of a thread that has a reference. *)
Lemma close_inv_step ts c i t t' c' :
  close_inv (ts, c) → ts !! i = Some (true, t) → term_step true t c = Some (t', c') →
  close_inv (<[i := (true, t')]> ts, c').
Proof.
  intros Hinv Hi Hs.
  assert (Hdone : t ≠ TDone) by (by intros ->).
  destruct (holder_alive (ts, c) i t Hinv Hi Hdone) as [Hal Hrc]. cbn in Hal, Hrc.
  pose proof Hinv as [Hr Ha Hl Hh Hp Hca Hu Hcb Hn]. cbn [fst snd] in *.
  assert (Hpast : past_loop t = true → in_conns c = false).
  { intros Ht. destruct (in_conns c); [|done]. specialize (Hp eq_refl). rewrite Forall_lookup in Hp.
    pose proof (Hp i _ Hi). cbn in *. congruence. }
  assert (Hu1 : t = TUnset → (1 ≤ callbacks c)%nat).
  { intros ->. rewrite Forall_lookup in Hu. exact (Hu i _ Hi eq_refl). }
  assert (Hnp : calling t = false → (∀ f, t ≠ TDead f) → ¬ pending (true, t)).
  { intros H1 H2 [H|[f H]]; cbn in *; [congruence|by eapply H2]. }
  unfold term_step in Hs. rewrite ?Hal in Hs.
  destruct t; simplify_eq; try specialize (Hpast eq_refl).
  - destruct (loop_set c') eqn:El; quiet_step Hinv Hi Hnp Hcb.
  - destruct (loop_set c') eqn:El; simplify_eq; quiet_step Hinv Hi Hnp Hcb.
  - pose proof (sum_of_insert owns ts i (true, TRemove) (true, TNull) Hi) as Ho.
    pose proof (calls_insert ts i (true, TRemove) (true, TNull) Hi) as Hc. cbn in Ho, Hc.
    assert (Hlt : (i < length ts)%nat) by (by apply lookup_lt_Some in Hi).
    unfold remove_locked. destruct (in_conns c) eqn:Ein; [|quiet_step Hinv Hi Hnp Hcb].
    unfold conn_release. cbn. rewrite (proj2 (Z.eqb_neq _ _)) by lia.
    constructor; cbn [fst snd ref_count alive in_conns loop_set cb_set callbacks with_ref].
    + lia.
    + rewrite bool_decide_true by lia. done.
    + done.
    + by apply Forall_insert.
    + done.
    + lia.
    + apply Forall_insert; [done|discriminate].
    + done.
    + right; right. apply Exists_insert; [done|by left].
  - quiet_step Hinv Hi Hnp Hcb.
  - destruct (cb_set c') eqn:El; try specialize (Hcb eq_refl); quiet_step Hinv Hi Hnp Hcb.
  - destruct (cb_set c) eqn:El; simplify_eq; try specialize (Hcb eq_refl); quiet_step Hinv Hi Hnp Hcb.
  - quiet_step Hinv Hi Hnp Hcb.
  - quiet_step Hinv Hi Hnp Hcb.
  - pose proof (sum_of_insert owns ts i (true, TRelease) (true, TDone) Hi) as Ho.
    pose proof (calls_insert ts i (true, TRelease) (true, TDone) Hi) as Hc. cbn in Ho, Hc.
    rewrite Hpast in *.
    assert (conn_release c = Conn (negb (ref_count c - 1 =? 0)) false (loop_set c) (cb_set c)
      (if ref_count c - 1 =? 0 then true else brk_set c) (ref_count c - 1) (callbacks c)) as ->.
    { unfold conn_release, with_ref. cbn. rewrite Hal, Hpast. by destruct (_ =? _). }
    constructor; cbn [fst snd ref_count alive in_conns loop_set cb_set callbacks].
    + lia.
    + destruct (Z.eqb_spec (ref_count c - 1) 0); cbn; [rewrite bool_decide_false by lia|rewrite bool_decide_true by lia]; done.
    + done.
    + by apply Forall_insert.
    + done.
    + lia.
    + by apply Forall_insert.
    + done.
    + destruct Hn as [|[|Hn]]; [done|by right; left|]. right; right.
      eapply pending_kept; [exact Hi| |done]. by apply Hnp.
Qed.

Lemma count_holders n : length (filter (λ h : bool, h = true) (replicate n true)) = n.
Proof. induction n as [|n IH]; [done|]. rewrite replicate_S, filter_cons_True by done. cbn. by rewrite IH. Qed.

Lemma owned_start n : owned_refs (replicate n (true, TLoop)) = Z.of_nat n.
Proof.
  induction n as [|n IH]; [done|]. change (1 + owned_refs (replicate n (true, TLoop)) = Z.of_nat (S n)). lia.
Qed.

Lemma close_reachable n s : rtc close_step (close_start (replicate n true)) s → close_inv s ∧ length s.1 = n.
Proof.
  intros H. refine (rtc_ind_r (λ s, close_inv s ∧ length s.1 = n) _ _ _ s H).
  - unfold close_start. rewrite fmap_replicate. split; [|by cbn; rewrite length_replicate].
    assert (Hall : ∀ P : bool * term_at → Prop, P (true, TLoop) → Forall P (replicate n (true, TLoop)))
      by (intros P HP; by apply Forall_replicate).
    pose proof (count_holders n) as Hf. pose proof (owned_start n) as Ho.
    constructor; cbn [fst snd ref_count alive in_conns loop_set cb_set callbacks]; rewrite ?Hf, ?Ho; try done.
    + rewrite bool_decide_true by lia. done.
    + by apply Hall.
    + intros _. by apply Hall.
    + lia.
    + by apply Hall.
    + by left.
  - intros [ts c] [ts' c'] _ Hst [Hinv Hl]. inversion Hst as [i h t ? ? t' ? Hi Ht]; subst. cbn in *.
    rewrite length_insert. split; [|done].
    assert (h = true) as ->.
    { pose proof (ci_holds _ Hinv) as Hh. cbn in Hh. rewrite Forall_lookup in Hh. by apply (Hh i _ Hi). }
    by eapply close_inv_step.
Qed.

Lemma close_run_rtc ks s s' : close_run ks s = Some s' → rtc close_step s s'.
Proof.
  revert s. induction ks as [|i ks IH]; intros [ts c] H; simplify_eq/=; [done|].
  apply bind_Some in H as ([h t] & Hi & H). apply bind_Some in H as ([t' c'] & Ht & H).
  eapply rtc_l; [by eapply close_one|by apply IH].
Qed.

Lemma calls_le ts : (calls ts <= length ts)%nat.
Proof.
  induction ts as [|x ts IH]; [done|]. cbn. fold (calls ts). assert (called x.2 <= 1)%nat by (destruct x as [? []]; cbn; lia). lia.
Qed.

(** One thread: the only run. *)
Lemma solo_run s : rtc close_step (close_start [true]) s →
  ∃ k, (k <= 9)%nat ∧ close_run (replicate k 0%nat) (close_start [true]) = Some s.
Proof.
  intros H. refine (rtc_ind_r (λ s, ∃ k, (k <= 9)%nat ∧ close_run (replicate k 0%nat) (close_start [true]) = Some s) _ _ _ s H).
  - exists 0%nat. split; [lia|done].
  - intros s1 s2 _ [i h t ts c t' c' Hi Ht] (k & Hk & Hr). exists (S k).
    do 10 (destruct k as [|k]; [vm_compute in Hr; injection Hr as <- <-; destruct i as [|i]; [|done];
      cbn in Hi; injection Hi as <- <-; vm_compute in Ht; (discriminate || (injection Ht as <- <-; split; [lia|done]))|]).
    lia.
Qed.

(** ** Theorems *)

Definition all_done (s : list (bool * term_at) * shared_conn) : Prop := Forall (λ x, x.2 = TDone) s.1.

(** C17: any number of threads that each have a reference end the same
    connection at once: it is never used after it was deleted, it is deleted
    exactly when all of them are done, and the disconnect callback has then been
    called at least once and at most once per thread.  With one thread nothing
    is undefined and the callback is called exactly once. *)
Theorem terminate_threads_safe n s :
  rtc close_step (close_start (replicate n true)) s →
  Forall (λ x, x.2 ≠ TDead UseAfterFree) s.1 ∧
  (all_done s → (0 < n)%nat → alive s.2 = false ∧ (1 <= callbacks s.2 <= n)%nat) ∧
  (n = 1%nat → Forall (λ x, ∀ f, x.2 ≠ TDead f) s.1 ∧ (all_done s → callbacks s.2 = 1%nat)).
Proof.
  intros H. destruct (close_reachable n s H) as [Hinv Hlen]. split_and!.
  - eapply Forall_impl; [exact (ci_holds _ Hinv)|]. by intros x [_ ?].
  - intros Hdone Hn. destruct s as [ts c]. cbn in *. unfold all_done in Hdone. cbn in Hdone.
    destruct ts as [|x ts]; [cbn in Hlen; lia|]. pose proof (Forall_inv Hdone) as Hx. cbn in Hx.
    assert (Hin : in_conns c = false).
    { destruct (in_conns c) eqn:E; [|done]. pose proof (ci_past _ Hinv E) as Hp. cbn in Hp.
      apply Forall_inv in Hp. by rewrite Hx in Hp. }
    assert (Ho : owned_refs (x :: ts) = 0).
    { clear -Hdone. induction Hdone as [|[h t] l Ht _ IH]; [done|]. cbn in Ht. subst t.
      change (owns (h, TDone) + owned_refs l = 0). rewrite IH. by destruct h. }
    pose proof (ci_refs _ Hinv) as Hr. cbn [fst snd] in Hr. rewrite Hin, Ho in Hr.
    pose proof (ci_alive _ Hinv) as Ha. cbn [fst snd] in Ha. rewrite Hr in Ha. split; [done|].
    pose proof (ci_calls _ Hinv) as Hc. pose proof (calls_le (x :: ts)) as Hle. cbn [fst snd] in Hc. split; [|lia].
    destruct (ci_notified _ Hinv) as [Hn1|[Hn1|Hn1]]; cbn [fst snd] in Hn1; [congruence|done|].
    exfalso. apply Exists_exists in Hn1 as (y & Hy & Hp). rewrite Forall_forall in Hdone.
    specialize (Hdone y Hy). destruct Hp as [Hp|[f Hp]]; rewrite Hdone in Hp; done.
  - intros ->. destruct (solo_run s H) as (k & Hk & Hr). unfold all_done.
    do 10 (destruct k as [|k]; [vm_compute in Hr; injection Hr as <-; split; [by repeat constructor|];
      intros Hd; apply Forall_inv in Hd; cbn in Hd; done|]). lia.
Qed.

(** two threads that end the same connection at once may call through the
    null pointer that the other has left in [_loop], or both call the disconnect
    callback; and a thread without a reference of its own, as a caller of
    [send_msg], uses the connection after the loop has deleted it. *)
Theorem terminate_threads_race :
  (∃ s, rtc close_step (close_start [true; true]) s ∧ s.1 !! 0%nat = Some (true, TDead NullDeref)) ∧
  (∃ s, rtc close_step (close_start [true; true]) s ∧ all_done s ∧ callbacks s.2 = 2%nat) ∧
  (∃ s, rtc close_step (close_start [true; false]) s ∧ s.1 !! 1%nat = Some (false, TDead UseAfterFree)).
Proof.
  assert (Hrun : ∀ hs ks s, close_run ks (close_start hs) = Some s → rtc close_step (close_start hs) s)
    by (intros hs ks s; apply close_run_rtc).
  split_and!.
  - eexists. split; [apply (Hrun _ [0; 1; 1; 1; 0]%nat); vm_compute; reflexivity|done].
  - eexists. split; [apply (Hrun _ [0; 0; 1; 1; 0; 0; 1; 1; 0; 1; 0; 1; 0; 1; 0; 1; 0; 1]%nat); vm_compute; reflexivity|].
    split; [by repeat constructor|done].
  - eexists. split; [apply (Hrun _ (replicate 9 0 ++ [1])%nat); vm_compute; reflexivity|done].
Qed.

(** ** Witness *)

Lemma terminate_threads_safe_witness :
  ∃ s, rtc close_step (close_start [true]) s ∧ all_done s ∧ callbacks s.2 = 1%nat.
Proof.
  assert (H : ∃ s, close_run (replicate 9 0%nat) (close_start [true]) = Some s ∧ all_done s)
    by (eexists; split; [vm_compute; reflexivity|repeat constructor]).
  destruct H as (s & Hs & Hd). exists s. pose proof (close_run_rtc _ _ _ Hs) as Hr. split; [exact Hr|]. split; [exact Hd|].
  destruct (terminate_threads_safe 1 s Hr) as (_ & _ & H1). exact (proj2 (H1 eq_refl) Hd).
Defined.
