(* ===== verification/RefObject.v ===== *)
(** * Counted objects (basic/object.h)

    [Object] between any number of threads: [ref_++], [--ref_ == 0] and
    [delete this] are steps of their own, in any interleaving, on a 32-bit
    counter.  A thread may act on the object while it has a reference, and may
    hand references to other threads. *)

From S2P Require Import Prelude.
Local Open Scope Z_scope.

(** ** The class *)

(** [deleted] counts the executions of [delete this]. *)
Record Object := MkObject { ref_ : Z; deleted : nat }.

Definition new_Object : Object := MkObject 1 0.

(** An access to the object. *)
Definition on_Object {A} (o : Object) (r : A) : res A :=
  if decide (deleted o = 0)%nat then mret r else Fault UseAfterFree.

Definition object_add_ref (o : Object) : res Object :=
  on_Object o (MkObject (swrap 32 (ref_ o + 1)) (deleted o)).

(** [--ref_ == 0], the test that decides on the deletion. *)
Definition object_drop (o : Object) : res (bool * Object) :=
  let r := swrap 32 (ref_ o - 1) in on_Object o (r =? 0, MkObject r (deleted o)).

Definition delete_this (o : Object) : res Object :=
  on_Object o (MkObject (ref_ o) (S (deleted o))).

(** [release], undisturbed. *)
Definition object_release (o : Object) : res Object :=
  '(last, o) ← object_drop o;
  if last : bool then delete_this o else mret o.

(** ** Threads *)

Inductive object_op := OUse | OAdd | ORelease | OGive (j : nat).

(** The references that a thread has, whether it is about to delete, and what
    it does next. *)
Record worker := Worker { held : Z; deleting : bool; todo : list object_op }.

(** The next step of a worker on the object; [None] when it has none, waits for
    a reference, or is to give one away. *)
Definition worker_do (w : worker) (o : Object) : option (res (worker * Object)) :=
  if deleting w then
    Some (o ← delete_this o; mret (Worker (held w) false (todo w), o))
  else if decide (held w ≤ 0) then None
  else match todo w with
  | [] | OGive _ :: _ => None
  | OUse :: ops => Some (on_Object o (Worker (held w) false ops, o))
  | OAdd :: ops => Some (o ← object_add_ref o; mret (Worker (held w + 1) false ops, o))
  | ORelease :: ops =>
      Some ('(last, o) ← object_drop o; mret (Worker (held w - 1) last ops, o))
  end.

(** Worker [i] hands a reference to another. *)
Definition worker_give (i : nat) (w : worker) (ws : list worker) : option (list worker) :=
  if deleting w then None
  else if decide (held w ≤ 0) then None
  else match todo w with
  | OGive j :: ops =>
      let ws := <[i := Worker (held w - 1) false ops]> ws in
      match ws !! j with
      | Some w' => Some (<[j := Worker (held w' + 1) (deleting w') (todo w')]> ws)
      | None => None
      end
  | _ => None
  end.

Definition worker_step (i : nat) (s : list worker * Object) : option (res (list worker * Object)) :=
  match s.1 !! i with
  | None => None
  | Some w =>
      match worker_do w s.2 with
      | Some r => Some ('(w, o) ← r; mret (<[i := w]> s.1, o))
      | None => match worker_give i w s.1 with Some ws => Some (mret (ws, s.2)) | None => None end
      end
  end.

Inductive objects_step : list worker * Object → list worker * Object → Prop :=
| objects_one i s s' : worker_step i s = Some (Ok s') → objects_step s s'.

(** The first worker has made the object. *)
Definition object_start (p : list object_op) (ps : list (list object_op)) : list worker * Object :=
  (Worker 1 false p :: ((λ p, Worker 0 false p) <$> ps), new_Object).

(** ** Specification *)

Definition objects_run (ks : list nat) (s : list worker * Object) : option (res (list worker * Object)) :=
  foldl (λ r i, match r with Some (Ok s) => worker_step i s | _ => r end) (Some (Ok s)) ks.

(** References that the programs can still make. *)
Definition add_of (op : object_op) : Z := match op with OAdd => 1 | _ => 0 end.

Definition adds (w : worker) : Z := sum_of add_of (todo w).

Definition about (w : worker) : Z := if deleting w then 1 else 0.

(** Alive as long as there is a reference or the last owner is deleting it. *)
Record objects_inv (s : list worker * Object) : Prop := {
  oi_held : Forall (λ w, 0 ≤ held w) s.1;
  oi_ref : ref_ s.2 = swrap 32 (sum_of held s.1);
  oi_adds : sum_of held s.1 + sum_of adds s.1 < 2 ^ 32;
  oi_deleted : sum_of about s.1 + Z.of_nat (deleted s.2) = if decide (sum_of held s.1 = 0) then 1 else 0
}.

(** ** Lemmas *)

Lemma adds_pos w : 0 ≤ adds w.
Proof. apply sum_of_pos. by intros []. Qed.

Lemma about_pos w : 0 ≤ about w.
Proof. unfold about. destruct (deleting w); lia. Qed.

Lemma swrap_add z d : swrap 32 (swrap 32 z + d) = swrap 32 (z + d).
Proof.
  unfold swrap, wrap. set (m := z mod 2 ^ 32).
  assert (H : ((if m <? 2 ^ (32 - 1) then m else m - 2 ^ 32) + d) mod 2 ^ 32 = (z + d) mod 2 ^ 32).
  { subst m. destruct (_ <? _).
    - by rewrite Zplus_mod_idemp_l.
    - replace (z mod 2 ^ 32 - 2 ^ 32 + d) with (z mod 2 ^ 32 + d + (-1) * 2 ^ 32) by lia.
      rewrite Z_mod_plus_full. by rewrite Zplus_mod_idemp_l. }
  by rewrite H.
Qed.

Lemma swrap_zero z : 0 ≤ z < 2 ^ 32 → (swrap 32 z =? 0) = bool_decide (z = 0).
Proof.
  intros Hz. unfold swrap, wrap. rewrite Z.mod_small by done.
  destruct (z <? 2 ^ (32 - 1)) eqn:E; case_bool_decide; lia.
Qed.

Lemma held_pos ws : Forall (λ w, 0 ≤ held w) ws → 0 ≤ sum_of held ws.
Proof. induction 1; simpl; lia. Qed.

Lemma held_le ws i w : Forall (λ w, 0 ≤ held w) ws → ws !! i = Some w → held w ≤ sum_of held ws.
Proof.
  intros H. revert i. induction H as [|w' ws Hw H IH]; intros [|i] Hi; simplify_eq/=.
  - pose proof (held_pos _ H). lia.
  - specialize (IH i Hi). lia.
Qed.

Lemma inv_insert ws o i w w' o' :
  objects_inv (ws, o) → ws !! i = Some w → 0 ≤ held w' →
  held w' + adds w' ≤ held w + adds w →
  ref_ o' = swrap 32 (sum_of held ws - held w + held w') →
  sum_of about ws - about w + about w' + Z.of_nat (deleted o') =
    (if decide (sum_of held ws - held w + held w' = 0) then 1 else 0) →
  objects_inv (<[i := w']> ws, o').
Proof.
  intros [Hh Hr Ha Hd] Hi Hw Hb Hr' Hd'. cbn [fst snd] in *.
  pose proof (sum_of_insert held ws i w w' Hi) as E1. pose proof (sum_of_insert adds ws i w w' Hi) as E2.
  pose proof (sum_of_insert about ws i w w' Hi) as E3.
  constructor; cbn [fst snd]; rewrite ?E1, ?E2, ?E3; [by apply Forall_insert|done|lia|done].
Qed.

(** A worker that deletes is the only one, and nobody holds a reference. *)
Lemma inv_deleting s i w : objects_inv s → s.1 !! i = Some w → deleting w = true →
  sum_of held s.1 = 0 ∧ sum_of about s.1 = 1 ∧ deleted s.2 = 0%nat ∧ held w = 0.
Proof.
  intros [Hh _ _ Hd] Hi Hw. pose proof (sum_of_le about _ _ _ about_pos Hi) as Hl.
  pose proof (held_le _ _ _ Hh Hi). rewrite Forall_lookup in Hh. specialize (Hh i w Hi). cbn in Hh.
  unfold about in Hl at 1. rewrite Hw in Hl. case_decide; lia.
Qed.

(** While there is a reference the object is there. *)
Lemma inv_held s i w : objects_inv s → s.1 !! i = Some w → 0 < held w →
  0 < sum_of held s.1 ∧ sum_of about s.1 = 0 ∧ deleted s.2 = 0%nat ∧ about w = 0.
Proof.
  intros [Hh _ _ Hd] Hi Hw. pose proof (sum_of_le about _ _ _ about_pos Hi) as Hl.
  pose proof (held_le _ _ _ Hh Hi). pose proof (about_pos w). pose proof (sum_of_pos about s.1 about_pos).
  case_decide; lia.
Qed.

Lemma do_inv ws o i w r : objects_inv (ws, o) → ws !! i = Some w → worker_do w o = Some r →
  ∃ w' o', r = Ok (w', o') ∧ objects_inv (<[i := w']> ws, o').
Proof.
  intros H Hi. pose proof (oi_ref _ H) as Hr. pose proof (oi_adds _ H) as Ha. unfold worker_do.
  destruct (deleting w) eqn:Ed.
  - destruct (inv_deleting _ _ _ H Hi Ed) as (E1 & E2 & E3 & E4). cbn [fst snd] in *. intros [= <-].
    unfold delete_this, on_Object. rewrite decide_True by done. cbn. do 2 eexists. split; [done|].
    assert (about w = 1) as Eb by (unfold about; by rewrite Ed).
    apply (inv_insert ws o i w); cbn [held ref_ deleted]; try done; [lia| |].
    + rewrite Hr. f_equal. lia.
    + change (about (Worker _ false _)) with 0. rewrite decide_True by lia. lia.
  - case_decide as Hh; [done|]. destruct (inv_held _ _ _ H Hi ltac:(lia)) as (E1 & E2 & E3 & E4). cbn [fst snd] in *.
    pose proof (sum_of_le adds _ _ _ adds_pos Hi) as Hle.
    destruct (todo w) as [|[| | |j] ops] eqn:Et; try done; intros [= <-];
      unfold object_add_ref, object_drop, on_Object; rewrite decide_True by done; cbn [mbind res_bind mret res_ret];
      do 2 eexists; (split; [done|]);
      apply (inv_insert ws o i w); unfold adds; rewrite ?Et; cbn [held ref_ deleted todo]; try done; try lia;
      change (about (Worker _ false ops)) with 0; cbn [sum_of add_of]; rewrite ?decide_False by lia; try lia.
    + rewrite Hr. f_equal. lia.
    + rewrite Hr, swrap_add. f_equal. lia.
    + rewrite Hr. unfold Z.sub at 1. rewrite swrap_add. f_equal. lia.
    + rewrite Hr. unfold Z.sub at 3. rewrite swrap_add.
      change (about (Worker _ ?b _)) with (if b then 1 else 0).
      pose proof (sum_of_pos adds ws adds_pos). rewrite swrap_zero by lia.
      rewrite E2, E3, E4. case_bool_decide; case_decide; lia.
Qed.

Lemma give_inv ws o i w ws' : objects_inv (ws, o) → ws !! i = Some w → worker_give i w ws = Some ws' →
  objects_inv (ws', o).
Proof.
  intros H Hi. unfold worker_give. destruct (deleting w) eqn:Ed; [done|]. case_decide as Hh; [done|].
  destruct (todo w) as [|[| | |j] ops] eqn:Et; try done.
  destruct (inv_held _ _ _ H Hi ltac:(lia)) as (E1 & E2 & E3 & E4). cbn [fst snd] in *.
  destruct H as [Hp Hr Ha Hd]. cbn [fst snd] in *.
  set (w1 := Worker (held w - 1) false ops). set (ws1 := <[i := w1]> ws).
  destruct (ws1 !! j) as [w2|] eqn:Ej; [|done]. intros [= <-].
  assert (Hp1 : Forall (λ w, 0 ≤ held w) ws1) by (apply Forall_insert; [done|cbn; lia]).
  pose proof Hp1 as Hp2. rewrite Forall_lookup in Hp2. specialize (Hp2 j w2 Ej). cbn in Hp2.
  pose proof (sum_of_insert held _ _ _ w1 Hi) as A1.
  pose proof (sum_of_insert held _ _ _ (Worker (held w2 + 1) (deleting w2) (todo w2)) Ej) as A2.
  pose proof (sum_of_insert adds _ _ _ w1 Hi) as B1.
  pose proof (sum_of_insert adds _ _ _ (Worker (held w2 + 1) (deleting w2) (todo w2)) Ej) as B2.
  pose proof (sum_of_insert about _ _ _ w1 Hi) as C1.
  pose proof (sum_of_insert about _ _ _ (Worker (held w2 + 1) (deleting w2) (todo w2)) Ej) as C2.
  assert (adds w1 = adds w) as D1 by (unfold adds; by rewrite Et).
  change (adds (Worker _ _ (todo w2))) with (adds w2) in B2.
  change (about (Worker _ (deleting w2) _)) with (about w2) in C2. change (about w1) with 0 in C1.
  cbn [held] in A2. change (held w1) with (held w - 1) in A1. fold ws1 in A1, B1, C1.
  assert (S1 : sum_of held (<[j := Worker (held w2 + 1) (deleting w2) (todo w2)]> ws1) = sum_of held ws) by lia.
  constructor; cbn [fst snd]; rewrite ?S1.
  - apply Forall_insert; [done|]. cbn. lia.
  - done.
  - lia.
  - rewrite C2, C1. case_decide; lia.
Qed.

Lemma step_inv s i r : objects_inv s → worker_step i s = Some r → ∃ s', r = Ok s' ∧ objects_inv s'.
Proof.
  destruct s as [ws o]. intros H. unfold worker_step. cbn [fst snd].
  destruct (ws !! i) as [w|] eqn:Hi; [|done]. destruct (worker_do w o) as [r'|] eqn:Hd.
  - destruct (do_inv _ _ _ _ _ H Hi Hd) as (w' & o' & -> & H'). cbn. intros [= <-]. eauto.
  - destruct (worker_give i w ws) as [ws'|] eqn:Hg; [|done]. intros [= <-]. eexists. split; [done|].
    by eapply give_inv.
Qed.

(** A worker that is to delete the object can go on. *)
Lemma stuck_about s : (∀ i, worker_step i s = None) → sum_of about s.1 = 0.
Proof.
  destruct s as [ws o]. intros Hs. cbn [fst]. assert (Hd : Forall (λ w, about w = 0) ws).
  { apply Forall_lookup. intros i w Hi. specialize (Hs i). unfold worker_step in Hs. cbn [fst snd] in Hs.
    rewrite Hi in Hs. unfold worker_do, about in *. by destruct (deleting w). }
  clear Hs. induction Hd as [|w ws Hw _ IH]; [done|]. cbn. lia.
Qed.

Lemma start_inv p ps :
  1 + sum_of add_of (concat (p :: ps)) < 2 ^ 32 → objects_inv (object_start p ps).
Proof.
  intros Hb. unfold object_start.
  set (f := λ p, Worker 0 false p).
  assert (E1 : sum_of held (f <$> ps) = 0) by (clear Hb; by induction ps).
  assert (E2 : sum_of about (f <$> ps) = 0) by (clear Hb E1; by induction ps).
  assert (E3 : sum_of adds (f <$> ps) = sum_of add_of (concat ps)).
  { clear Hb E1 E2. induction ps as [|q ps IH]; [done|].
    change (sum_of add_of q + sum_of adds (f <$> ps) = sum_of add_of (q ++ concat ps)).
    by rewrite sum_of_app, IH. }
  cbn [concat] in Hb. rewrite sum_of_app in Hb.
  constructor; cbn [fst snd sum_of held]; rewrite ?E1.
  - constructor; [done|]. apply Forall_fmap, Forall_true. done.
  - done.
  - rewrite E3. unfold adds. cbn [todo]. lia.
  - rewrite E2. done.
Qed.

(** ** Properties *)

(** threads that act on an [Object] while they have a reference, give each
    other references and make fewer than [2^32] of them never use the object
    after its deletion, in any interleaving.  It is not deleted while there is
    a reference, never deleted twice, and when no thread can go on it has been
    deleted exactly if no reference is left. *)
Theorem object_refs_safe p ps :
  1 + sum_of add_of (concat (p :: ps)) < 2 ^ 32 →
  ∀ s, reachable (eq (object_start p ps)) objects_step s →
  (∀ i r, worker_step i s = Some r → ∃ s', r = Ok s') ∧
  (deleted s.2 ≤ 1)%nat ∧ (0 < sum_of held s.1 → deleted s.2 = 0%nat) ∧
  ((∀ i, worker_step i s = None) → deleted s.2 = if decide (sum_of held s.1 = 0) then 1%nat else 0%nat).
Proof.
  intros Hb s Hs.
  assert (H : objects_inv s).
  { revert Hs. apply reachable_invariant; [intros ? <-; by apply start_inv|].
    intros s1 s2 H1 H2. destruct H2 as [i s1 s2 H2]. by destruct (step_inv _ _ _ H1 H2) as (s' & [= <-] & H'). }
  pose proof (oi_deleted _ H) as Hd. pose proof (sum_of_pos about s.1 about_pos).
  split_and!.
  - intros i r Hr. destruct (step_inv _ _ _ H Hr) as (s' & -> & _). by exists s'.
  - case_decide; lia.
  - intros Hp. case_decide; lia.
  - intros Hn. apply stuck_about in Hn. case_decide; lia.
Qed.

(** [n] references more. *)
Fixpoint add_refs (n : nat) (o : Object) : res Object :=
  match n with O => mret o | S n => o ← object_add_ref o; add_refs n o end.

Lemma add_refs_spec n z : 
  add_refs n (MkObject (swrap 32 z) 0) = Ok (MkObject (swrap 32 (z + Z.of_nat n)) 0).
Proof.
  revert z. induction n as [|n IH]; intros z; cbn [add_refs]; [by rewrite Z.add_0_r|].
  unfold object_add_ref, on_Object. cbn [ref_ deleted decide]. rewrite decide_True by done.
  cbn [mbind res_bind mret res_ret]. rewrite swrap_add, IH. do 3 f_equal. lia.
Qed.

(** the bound of [object_refs_safe] is needed: once [2^32] references have
    been added to the first one the counter is 1 again, and the next [release]
    deletes the object under all the others. *)
Theorem object_refs_wrap :
  ∃ o o', add_refs (Z.to_nat (2 ^ 32)) new_Object = Ok o ∧ object_release o = Ok o' ∧ deleted o' = 1%nat.
Proof.
  exists (MkObject 1 0), (MkObject 0 1). split_and!; [|done|done].
  change new_Object with (MkObject (swrap 32 1) 0).
  rewrite add_refs_spec, Z2Nat.id by lia. done.
Qed.

(** ** Witness *)

(** The creator gives its reference to a second thread after it took another. *)
Lemma object_refs_safe_witness :
  ∃ s, objects_run [0; 0; 0; 1; 1; 1]%nat
         (object_start [OAdd; OGive 1; ORelease] [[OUse; ORelease]]) = Some (Ok s) ∧
    deleted s.2 = 1%nat ∧ ∀ i r, worker_step i s = Some r → ∃ s', r = Ok s'.
Proof.
  set (s0 := object_start [OAdd; OGive 1; ORelease] [[OUse; ORelease]]).
  eexists. split; [reflexivity|]. split; [reflexivity|].
  refine (proj1 (object_refs_safe [OAdd; OGive 1%nat; ORelease] [[OUse; ORelease]] _ _ _)); [reflexivity|].
  exists s0. split; [reflexivity|].
  do 6 (eapply rtc_l; [first [apply (objects_one 0); reflexivity | apply (objects_one 1); reflexivity]|]).
  apply rtc_refl.
Defined.
