(* ===== verification/Gateway.v ===== *)
(** * The gateway: an acceptor and its clients in one loop (demo/main.cpp)

    The demo program puts the event loop, the acceptor and the TCP connections
    together: the acceptor's callback creates a connection for every accepted
    socket and registers it; a signal stops the loop.

    The state is the loop's, and the buffers of every [tcp_conn] that was
    created, by its address: an address without any is the acceptor's, the only
    object of another class.  (A deleted connection leaves its pool behind; its
    entry is overwritten when the address is used again.)

    A round of the program is a round of the loop with what the system answers
    in it: the descriptors that are ready, the result of [accept], the results
    of [recv] and [send] with the bytes received, the memory it gives, and the
    signals that arrive.  A signal may arrive anywhere.  The only thing its
    handler changes besides the wake-up count is [_running], which the loop reads
    only at its head, in [add_net] and in [wakeup]; so it is enough to let
    signals arrive at the points before those ([sig_point] and the arguments of
    [gateway_main]): at any other point the handler has the effect it has at the
    next of these, up to the wake-up count, on which nothing depends (whether
    the wake-up descriptor is ready is an argument, [r_wake]). *)

From S2P Require Import Prelude NgxPool NgxQueue EventLoop TcpConn.
From stdpp Require Import sets.
Local Open Scope Z_scope.

(** ** The program *)

Record gateway := Gw { gw_world : world; gw_conns : gmap positive tcp_conn }.

#[export] Instance gateway_world : HasWorld gateway :=
  {| the_world := gw_world; with_world w g := Gw w (gw_conns g); the_with_world _ _ := eq_refl |}.

Definition HEAD_LEN : Z := 24.

Definition msg_head_parse (data : list Z) (len : Z) : Z := if len <? 24 then 24 else len.

Inductive signal := SIGINT | SIGTERM | SIGSEGV | SIGOTHER.

Definition signal_handle (s : signal) (w : world) : world :=
  match s with SIGINT | SIGTERM => stop w | SIGSEGV | SIGOTHER => w end.

(** A signal that arrives, or not. *)
Definition interrupt (s : option signal) (w : world) : world :=
  match s with Some s => signal_handle s w | None => w end.

(** [api_apt_cb]: [p] is the address of the new connection, [sg] the signal
    before [add_net]; the socket options do not change the state. *)
Definition api_apt_cb (al : allocator * allocator) (sg : option signal) (p : positive) (s : Z) (g : gateway)
    : res gateway :=
  t ← tcp_conn_create al.1 al.2 HEAD_LEN;
  let c := net_io_create true in
  let c := NetIo s (brk_tm c) (err c) (in_loop c) (has_cb c) (ref_ c) in
  w ← add_net p (interrupt sg (put_obj p c (gw_world g)));
  mret (Gw w (<[p := t]> (gw_conns g))).

(** Where a signal may arrive in a round. *)
Inductive sig_point := AtStart | BeforeRead (p : positive) | BeforeRegister | BeforeSend (p : positive) | AtEnd.

(** What the system does in a round; [r_alloc p] serves the constructor of the
    connection at [p], or the allocations of its [OnRead]. *)
Record round := Round {
  r_now : Z;
  r_readable : Z → bool; r_writable : Z → bool; r_wake : bool;
  r_accept : Z * Z;
  r_recv : positive → sysret; r_data : positive → list Z; r_send : positive → sysret;
  r_alloc : positive → allocator * allocator; r_junk : positive → nat → Z;
  r_signal : sig_point → option signal
}.

Section program.
(** Where [new] puts an object. *)
Context (new : world → positive).

(** [OnRead] and [OnSend] of the objects of the loop; the acceptor's [OnSend]
    is the empty one of [net_io], the message handler of a connection returns
    without doing anything. *)
Definition gw_read (r : round) (p : positive) (g : gateway) : res gateway :=
  let w := interrupt (r_signal r (BeforeRead p)) (gw_world g) in
  match gw_conns g !! p with
  | None =>
      c ← get_obj p w;
      let '(cli, c) := ngx_acceptor_on_read (r_accept r).1 (r_accept r).2 true c in
      let w := put_obj p c w in
      match cli with
      | None => mret (Gw w (gw_conns g))
      | Some s => api_apt_cb (r_alloc r (new w)) (r_signal r BeforeRegister) (new w) s (Gw w (gw_conns g))
      end
  | Some t =>
      '(t, w) ← OnRead msg_head_parse (r_alloc r p).1 (r_alloc r p).2 (r_junk r p) (r_recv r p) (r_data r p) t p w;
      mret (Gw w (<[p := t]> (gw_conns g)))
  end.

Definition gw_send (r : round) (p : positive) (g : gateway) : res gateway :=
  let w := interrupt (r_signal r (BeforeSend p)) (gw_world g) in
  match gw_conns g !! p with
  | None => mret (Gw w (gw_conns g))
  | Some t => '(t, w) ← OnSend (r_send r p) t p w; mret (Gw w (<[p := t]> (gw_conns g)))
  end.

Definition gateway_round (r : round) (g : gateway) : res gateway :=
  let g := with_world (interrupt (r_signal r AtStart) (gw_world g)) g in
  g ← loop_round 1 (r_now r) (λ _ w, w) (gw_read r) (gw_send r)
        (r_readable r) (r_writable r) (r_wake r) g;
  mret (with_world (interrupt (r_signal r AtEnd) (gw_world g)) g).

(** [while (_running)], for the rounds [rs]. *)
Fixpoint gateway_loop (rs : list round) (g : gateway) : res gateway :=
  match rs with
  | [] => mret g
  | r :: rs => if running (gw_world g) then g ← gateway_round r g; gateway_loop rs g else mret g
  end.

(** [main]: the results of [socket], [bind] and [listen]; the command line is
    not modelled.  [sg]: the signals before the acceptor is registered and before
    the loop. *)
Definition gateway_main (now : Z) (sock bind_ listen_ : Z * Z) (sg : option signal * option signal)
    (rs : list round) : res (Z * gateway) :=
  let w := eventloop_create now in
  let apt := new w in
  let '(ok, c) := ngx_acceptor_init sock bind_ listen_ (net_io_create false) in
  let w := put_obj apt c w in
  if negb ok then mret (-1, Gw w ∅)
  else
    w ← add_net apt (interrupt sg.1 w);
    g ← gateway_loop rs (Gw (interrupt sg.2 w) ∅);
    mret (0, g).

End program.

(** ** Specification *)

(** What [accept] returns: a descriptor, or -1. *)
Definition accept_valid (r : round) : Prop := -1 ≤ (r_accept r).1.

(** The ways in which a run may be undefined: after data arrived on a
    connection, or when the memory for a new one is refused. *)
Definition gw_faults (rs : list round) (f : fault) : Prop :=
  (f = OutOfBounds ∧ ∃ r p, r ∈ rs ∧ 0 < ret (r_recv r p)) ∨
  (f = NullDeref ∧ ∃ r p, r ∈ rs ∧ tcp_conn_create (r_alloc r p).1 (r_alloc r p).2 HEAD_LEN = Fault NullDeref).

(** Nothing is in transmission and nothing queued. *)
Definition idle (t : tcp_conn) : Prop := snd_buf (tx t) = None ∧ queued [] (tx t).

(** The loop between two handlers; [D]: the descriptors there may be. *)
Definition gw_inv (D : Z → Prop) (g : gateway) : Prop :=
  let w := gw_world g in
  (timers w = [] ∧ tasks w = []) ∧
  (∀ p c, objs w !! p = Some c → p ∈ conns w → 0 ≤ fd c ∧ D (fd c)) ∧
  map_Forall (λ _ t, idle t) (gw_conns g).

(** A running loop whose descriptors all fit an [fd_set]. *)
Definition gw_ok (g : gateway) : Prop :=
  running (gw_world g) = true ∧ gw_inv (λ z, z < fd_setsize) g.

(** The acceptor is the only object of its class. *)
Definition one_acceptor (apt : positive) (g : gateway) : Prop :=
  ∀ p, p ∈ conns (gw_world g) → gw_conns g !! p = None → p = apt.

(** ** Lemmas *)

(** A signal changes nothing but the flag and the wake-up count. *)
Lemma interrupt_same s w : objs (interrupt s w) = objs w ∧ conns (interrupt s w) = conns w ∧
  timers (interrupt s w) = timers w ∧ tasks (interrupt s w) = tasks w ∧
  (running w = false → running (interrupt s w) = false).
Proof. by destruct s as [[]|]. Qed.

Lemma interrupt_refs ext s w : refs_ok ext w → refs_ok ext (interrupt s w).
Proof. destruct (interrupt_same s w) as (? & ? & _). by apply refs_same. Qed.

Lemma interrupt_kept s w : fds_kept w (interrupt s w).
Proof. destruct (interrupt_same s w) as (? & Hc & _). apply fds_kept_same; [done|by rewrite Hc]. Qed.

(** A change of the loop's world without new objects or registrations. *)
Record kept (w w' : world) : Prop := {
  k_fds : fds_kept w w';
  k_timers : timers w' = timers w;
  k_tasks : tasks w' = tasks w;
  k_stopped : running w = false → running w' = false
}.

#[export] Instance kept_preorder : PreOrder kept.
Proof.
  split; [by split|]. intros a b c [F1 T1 K1 R1] [F2 T2 K2 R2]. split; [by etrans|congruence|congruence|auto].
Qed.

Lemma quiet_is_kept w w' : quiet w w' → fds_kept w w' → kept w w'.
Proof. intros ((R & T & K) & _) F. split; [done|done|done|congruence]. Qed.

Lemma interrupt_is_kept s w : kept w (interrupt s w).
Proof. destruct (interrupt_same s w) as (_ & _ & ? & ? & ?). split; [apply interrupt_kept|done..]. Qed.

Lemma ending_kept p w w' :
  terminate p w = Ok w' ∨ release p w = Ok w' ∨ remove_net p w = Ok w' ∨ remove_all w = Ok w' → kept w w'.
Proof. intros H. apply quiet_is_kept; [by eapply ending_quiet|by eapply ending_fds]. Qed.

Lemma put_kept p c c' w : objs w !! p = Some c → (0 ≤ fd c → fd c' = fd c) → kept w (put_obj p c' w).
Proof. intros Hc Hf. split; [by eapply fds_kept_put|done..]. Qed.

Lemma gw_inv_kept D w' t' g : kept (gw_world g) w' →
  map_Forall (λ _ t, idle t) t' → gw_inv D g → gw_inv D (Gw w' t').
Proof.
  intros [[Hc Ho] T K _] Ht ((H2 & H3) & Hf & _).
  unfold gw_inv. cbn [gw_world gw_conns]. split_and!; [congruence..| |done].
  intros p c' Hp Hin. destruct (Ho p c' Hp) as (c & Hc0 & He).
  destruct (Hf p c Hc0 (Hc p Hin)) as [H0 HD]. by rewrite He.
Qed.

Lemma gw_inv_weaken (D D' : Z → Prop) g : (∀ z, D z → D' z) → gw_inv D g → gw_inv D' g.
Proof. intros HD (H1 & Hf & Hi). split_and!; [apply H1..| |done]. intros p c Hp Hin. destruct (Hf p c Hp Hin). auto. Qed.

Lemma one_acceptor_kept apt w' t' g : conns w' ⊆ conns (gw_world g) →
  (∀ q, t' !! q = None → gw_conns g !! q = None) → one_acceptor apt g → one_acceptor apt (Gw w' t').
Proof. intros Hc Ht H q Hq Hn. apply H; [by apply Hc|by apply Ht]. Qed.

Lemma fail_with_kept e p w w' : fail_with e p w = Ok w' →
  kept w w' ∧ ∀ q, q ≠ p → objs w' !! q = objs w !! q.
Proof.
  unfold fail_with. intros (c & Hc%deref_Ok & H)%bind_Ok. set (w1 := put_obj p _ w) in H. split.
  - transitivity w1; [by eapply put_kept|]. eapply ending_kept. by left.
  - intros q Hq. rewrite (one_others p w1 w') by (done || by left). cbn. by rewrite lookup_insert_ne.
Qed.

(** A new object is registered with its only reference. *)
Lemma add_new_ok ext p c w : refs_ok ext w → objs w !! p = None → running w = true →
  ref_ c = 1 → in_loop c = false →
  ∃ w', add_net p (put_obj p c w) = Ok w' ∧ refs_ok ext w' ∧
    objs w' = <[p := NetIo (fd c) (brk_tm c) (err c) true (has_cb c) 1]> (objs w) ∧
    conns w' = {[p]} ∪ conns w ∧
    running w' = true ∧ timers w' = timers w ∧ tasks w' = tasks w.
Proof.
  intros H Hp Hrun Hr Hl. pose proof (H p) as Hcp. unfold conn_ok in Hcp. rewrite Hp in Hcp.
  destruct Hcp as (_ & Hext & Hnc). unfold add_net.
  change (running (put_obj p _ w)) with (running w). rewrite Hrun.
  unfold set_in_loop, get_obj. cbn [objs put_obj set_objs]. rewrite lookup_insert_eq.
  cbn [deref mbind res_bind mret res_ret]. unfold wakeup. cbn [running set_conns put_obj set_objs].
  rewrite Hrun, Hr. eexists. split; [reflexivity|]. set (c' := NetIo _ _ _ true _ 1).
  assert (Ho : objs (set_wakes (wakes w + 1)
     (set_conns ({[p]} ∪ conns w) (put_obj p c' (put_obj p c w)))) = <[p := c']> (objs w))
    by (cbn; apply insert_insert_eq).
  cbn in *. split_and!; [|exact Ho|done|done|done|done].
  eapply (refs_put ext ext w _ p _ H); [|exact Ho| | | |]; cbn; rewrite ?Hext.
  - intros q Hq. split; [done|]. set_solver.
  - done.
  - done.
  - rewrite decide_True by set_solver. done.
  - by rewrite bool_decide_true by set_solver.
Qed.

(** The loop has been stopped: the object keeps its only reference, which
    nobody has. *)
Lemma add_stopped_ok ext p c w : refs_ok ext w → objs w !! p = None → running w = false →
  ref_ c = 1 → in_loop c = false →
  add_net p (put_obj p c w) = Ok (put_obj p c w) ∧ refs_ok (holds [p] ext) (put_obj p c w).
Proof.
  intros H Hp Hrun Hr Hl. pose proof (H p) as Hcp. unfold conn_ok in Hcp. rewrite Hp in Hcp.
  destruct Hcp as (_ & Hext & Hnc). unfold add_net. change (running (put_obj p c w)) with (running w).
  rewrite Hrun. split; [done|]. assert (Hh : ∀ q, holds [p] ext q = hold p 1 ext q).
  { intros q. unfold holds, hold. simpl. destruct (Pos.eq_dec p q), (decide (q = p)); try congruence; lia. }
  eapply (refs_ext (hold p 1 ext)); [by intros q; rewrite Hh|].
  eapply (refs_put ext (hold p 1 ext) w _ p _ H); [|reflexivity|..]; cbn;
    unfold hold; rewrite ?decide_True by done; rewrite ?Hext; try lia.
  - intros q Hq. by rewrite decide_False.
  - rewrite decide_False, decide_True by done. lia.
  - by rewrite bool_decide_false.
Qed.

Lemma interrupt_put s p c w : interrupt s (put_obj p c w) = put_obj p c (interrupt s w).
Proof. by destruct s as [[]|]. Qed.

(** A new object is given to [add_net], a signal before. *)
Lemma add_interrupted ext sg p c w : refs_ok ext w → objs w !! p = None → ref_ c = 1 → in_loop c = false →
  ∃ w' new, add_net p (interrupt sg (put_obj p c w)) = Ok w' ∧ refs_ok (holds new ext) w' ∧
    (new = [] ∨ new = [p] ∧ running w' = false) ∧ (running w = false → running w' = false) ∧
    timers w' = timers w ∧ tasks w' = tasks w ∧ conns w' ⊆ {[p]} ∪ conns w ∧
    (∃ c', objs w' = <[p := c']> (objs w) ∧ fd c' = fd c).
Proof.
  intros H Hp Hr Hl. rewrite interrupt_put. destruct (interrupt_same sg w) as (Ho & Hc & Ht & Hk & Hrun).
  set (w1 := interrupt sg w) in *. assert (H1 : refs_ok ext w1) by (by apply (refs_same ext w)).
  destruct (running w1) eqn:E.
  - destruct (add_new_ok ext p c w1 H1) as (w' & Ha & H' & Ho' & Hcs & R & T & K); [by rewrite Ho|done..|].
    exists w', []. split; [exact Ha|]. split; [|split_and!; [by left| |congruence|congruence|by rewrite Hcs, Hc|]].
    + eapply refs_ext; [|exact H']. intros q. unfold holds. simpl. lia.
    + intros Hw. by apply Hrun in Hw.
    + eexists. split; [by rewrite Ho', Ho|done].
  - destruct (add_stopped_ok ext p c w1 H1) as [Ha H']; [by rewrite Ho|done..|].
    exists (put_obj p c w1), [p]. split; [exact Ha|]. split; [done|].
    split_and!; [by right|done|done|done|cbn; rewrite Hc; set_solver|]. exists c. cbn. by rewrite Ho.
Qed.

(** The destructor of the loop: what is left are the objects of nobody. *)
Lemma remove_all_left lost w : refs_ok (holds lost (λ _, 0)) w →
  ∃ w', remove_all w = Ok w' ∧ ∀ p, is_Some (objs w' !! p) ↔ p ∈ lost.
Proof.
  intros H. unfold remove_all.
  destruct (remove_each_ok (holds lost (λ _, 0)) (elements (conns w)) w) as (w' & -> & H').
  { apply NoDup_elements. }
  { apply (refs_same _ w); [done| |done]. simpl. apply leibniz_equiv, list_to_set_elements. }
  cbn [mbind res_bind]. eexists. split; [done|]. intros q. cbn. rewrite list_elem_of_In, (count_occ_In Pos.eq_dec).
  specialize (H' q). unfold conn_ok, holds in H'. cbn in H'. destruct (objs w' !! q) as [c|].
  - rewrite decide_False in H' by set_solver. split; [lia|by eexists].
  - split; [by intros []|lia].
Qed.

Section facts.
Context (new : world → positive).
Hypothesis new_fresh : ∀ w, objs w !! new w = None.

(** What a read handler does besides its own object; [lost] are the objects it
    leaves to nobody. *)
Record read_post (D : Z → Prop) (p : positive) (g : gateway) (lost : list positive) (g' : gateway) : Prop := {
  rp_inv : gw_inv D g';
  rp_lost : lost = [] ∨ gw_conns g !! p = None ∧ running (gw_world g') = false ∧ ∃ x, lost = [x];
  rp_stopped : running (gw_world g) = false → running (gw_world g') = false;
  rp_conns q : q ∈ conns (gw_world g') → q ∈ conns (gw_world g) ∨ is_Some (gw_conns g' !! q);
  rp_grow q : gw_conns g' !! q = None → gw_conns g !! q = None;
  rp_others q : q ≠ p → is_Some (objs (gw_world g) !! q) →
    objs (gw_world g') !! q = objs (gw_world g) !! q ∧ gw_conns g' !! q = gw_conns g !! q
}.

Lemma read_post_kept D p g w' t' : kept (gw_world g) w' → map_Forall (λ _ t, idle t) t' → gw_inv D g →
  (∀ q, q ≠ p → objs w' !! q = objs (gw_world g) !! q ∧ t' !! q = gw_conns g !! q) →
  (t' !! p = None → gw_conns g !! p = None) → read_post D p g [] (Gw w' t').
Proof.
  intros Hk Ht Hg Ho Hp. split; cbn.
  - by apply (gw_inv_kept D _ _ g).
  - by left.
  - apply Hk.
  - intros q Hq. left. by apply (k_fds _ _ Hk).
  - intros q. destruct (decide (q = p)) as [->|Hne]; [done|]. by destruct (Ho q Hne) as [_ ->].
  - intros q Hne _. by apply Ho.
Qed.

(** The acceptor's callback. *)
Lemma api_apt_cb_ends D ext al sg p q s g :
  gw_inv D g → refs_ok ext (gw_world g) → objs (gw_world g) !! p = None → gw_conns g !! q = None → 0 ≤ s → D s →
  loses (λ f, f = NullDeref ∧ tcp_conn_create al.1 al.2 HEAD_LEN = Fault NullDeref) ext (read_post D q g)
    (api_apt_cb al sg p s g).
Proof.
  intros ((G2 & G3) & G4 & G5) H Hp Hq Hs HD. unfold api_apt_cb.
  destruct (tcp_conn_create_cases al.1 al.2 HEAD_LEN) as [Hn|(t & Hcr & Hqd & Hsn & _)].
  { rewrite Hn. done. }
  rewrite Hcr. cbn [mbind res_bind].
  destruct (add_interrupted ext sg p (NetIo s 0 0 false true 1) (gw_world g) H Hp eq_refl eq_refl)
    as (w' & lost & Ha & H' & Hl & Hrun & Ht & Hk & Hc & c' & Ho & Hf).
  cbn in Ha. cbn. rewrite Ha. cbn [mbind res_bind]. exists lost. split; [done|]. split; cbn.
  - split_and!; [cbn; congruence..| |by apply map_Forall_insert_2].
    intros x c Hx Hin. cbn in Hx, Hin. rewrite Ho in Hx. apply lookup_insert_Some in Hx as [[<- <-]|[Hne Hx]].
    + by rewrite Hf.
    + apply (G4 x c Hx). apply Hc in Hin. set_solver.
  - destruct Hl as [->|[-> Hr]]; [by left|]. right. split_and!; [done|done|by eexists].
  - done.
  - intros x Hx. destruct (decide (x = p)) as [->|Hne]; [right; by rewrite lookup_insert_eq|left].
    apply Hc in Hx. set_solver.
  - intros x Hx. by apply lookup_insert_None in Hx as [? _].
  - intros x Hx [d Hd]. assert (x ≠ p) by congruence. by rewrite Ho, !lookup_insert_ne.
Qed.

(** A connection that is ready. *)
Lemma conn_read_loses D r rs ext p t w g : r ∈ rs → gw_inv D g → 0 < ext p → gw_conns g !! p = Some t →
  kept (gw_world g) w → objs w = objs (gw_world g) → refs_ok ext w →
  loses (gw_faults rs) ext (read_post D p g)
    ('(t, w) ← OnRead msg_head_parse (r_alloc r p).1 (r_alloc r p).2 (r_junk r p) (r_recv r p) (r_data r p) t p w;
     mret (Gw w (<[p := t]> (gw_conns g)))).
Proof using.
  intros Hin Hg Hp Ht Hkw Hobjs Hw. unfold loses. eapply ends_bind; [eapply ends_weaken; [| |by apply (OnRead_ends _ _ _ _ ext)]|].
  - intros f [-> Hr]. left. split; [done|]. by exists r, p.
  - intros x Hx. exact Hx.
  - intros [t' w'] (Htx & H' & Hw').
    assert (Hidle : map_Forall (λ _ t, idle t) (<[p := t']> (gw_conns g))).
    { apply map_Forall_insert_2; [|apply Hg]. unfold idle. rewrite Htx. apply (proj2 (proj2 Hg) p t Ht). }
    assert (kept w w' ∧ ∀ q, q ≠ p → objs w' !! q = objs w !! q) as (Hk & Ho).
    { destruct Hw' as [->|[e He]]; [done|]. by eapply fail_with_kept. }
    apply loses_none; [done|]. apply read_post_kept; [by etrans|done|done| |by rewrite lookup_insert_eq].
    intros q Hne. by rewrite lookup_insert_ne, Ho, Hobjs.
Qed.

Lemma gw_read_loses D r rs ext p g : accept_valid r → r ∈ rs → D (r_accept r).1 →
  gw_inv D g → refs_ok ext (gw_world g) → 0 < ext p →
  loses (gw_faults rs) ext (read_post D p g) (gw_read new r p g).
Proof using new_fresh.
  intros Ha Hin HD Hg H Hp. unfold gw_read. set (w := interrupt _ (gw_world g)).
  assert (Hkw : kept (gw_world g) w) by apply interrupt_is_kept.
  assert (Hw : refs_ok ext w) by (by apply interrupt_refs).
  destruct (interrupt_same (r_signal r (BeforeRead p)) (gw_world g)) as (Hobjs & Hconns & _). fold w in Hobjs, Hconns.
  destruct (gw_conns g !! p) as [t|] eqn:Ht; [by apply (conn_read_loses D r rs ext p t w g)|].
  destruct (get_obj_live ext p w Hw Hp) as (c & Hc). rewrite Hc. cbn [mbind res_bind].
  apply deref_Ok in Hc. unfold ngx_acceptor_on_read. destruct (Z.eqb_spec (r_accept r).1 (-1)) as [|Hne].
  { apply loses_none.
    - eapply touches_refs; [exact Hw|]. exists c. eexists. split_and!; try done. by apply quiet_same.
    - apply read_post_kept; [|apply Hg|done| |done].
      + etrans; [exact Hkw|]. by eapply put_kept.
      + intros q Hq. cbn. by rewrite lookup_insert_ne, Hobjs. }
  assert (Hid : objs (put_obj p c w) = objs (gw_world g)) by (cbn; by rewrite insert_id, Hobjs).
  set (g1 := Gw (put_obj p c w) (gw_conns g)). set (x := new (put_obj p c w)).
  assert (Hg1 : gw_inv D g1).
  { apply (gw_inv_kept D _ _ g); [|apply Hg|done]. etrans; [exact Hkw|]. by eapply put_kept. }
  unfold loses. eapply ends_weaken; [| |apply (api_apt_cb_ends D ext (r_alloc r x) (r_signal r BeforeRegister) x p)].
  - intros f [-> Hf]. right. split; [done|]. by exists r, x.
  - intros g' (lost & Hr & [P1 P2 P3 P4 P5 P6]). exists lost. split; [done|]. cbn in *. split; [done..| | |done|].
    + intros Hrun. apply P3. by apply Hkw.
    + intros q Hq. rewrite <- Hconns. by apply P4.
    + intros q Hq Hs. destruct (P6 q Hq) as [Ho1 Ho2]; [by rewrite Hid|]. by rewrite Ho1, Hid.
  - done.
  - apply (refs_same ext w); [exact (eq_trans Hid (eq_sym Hobjs))|done|done].
  - apply new_fresh.
  - done.
  - unfold accept_valid in Ha. lia.
  - done.
Qed.

(** Nothing is ever sent. *)
Lemma gw_send_ok D r p g : gw_inv D g →
  gw_send r p g = Ok (Gw (interrupt (r_signal r (BeforeSend p)) (gw_world g)) (gw_conns g)).
Proof.
  intros Hg. unfold gw_send. destruct (gw_conns g !! p) as [t|] eqn:Ht; [|done].
  destruct (proj2 (proj2 Hg) p t Ht) as [Hs Hq]. rewrite (OnSend_idle _ _ _ _ [] Hq Hs). cbn.
  by rewrite insert_id.
Qed.

(** A round of the loop is [dispatch], after the references were taken, if all
    descriptors fit an [fd_set]. *)
Lemma gateway_round_dispatch D ext r g : gw_inv D g → refs_ok ext (gw_world g) →
  (∃ g1, gateway_round new r g =
      (g ← dispatch (gw_read new r) (gw_send r) (r_readable r) (r_writable r) (elements (conns (gw_world g))) g1;
       mret (with_world (interrupt (r_signal r AtEnd) (gw_world g)) g)) ∧
    gw_inv D g1 ∧ refs_ok (holds (elements (conns (gw_world g))) ext) (gw_world g1) ∧
    gw_conns g1 = gw_conns g ∧ kept (gw_world g) (gw_world g1)) ∨
  (gateway_round new r g = Fault OutOfBounds ∧ ∃ z, D z ∧ fd_setsize ≤ z).
Proof.
  intros Hg H. unfold gateway_round, loop_round. cbn [the_world with_world gateway_world gw_world gw_conns].
  set (w := interrupt (r_signal r AtStart) (gw_world g)).
  assert (Hkw : kept (gw_world g) w) by apply interrupt_is_kept.
  destruct (interrupt_same (r_signal r AtStart) (gw_world g)) as (Hobjs & Hconns & Htm & Htk & _). fold w in Hobjs, Hconns, Htm, Htk.
  pose proof Hg as ((Ht & Hk) & Hf & Hi).
  assert (process_timer 1 (r_now r) w = Ok w) as ->.
  { unfold process_timer. rewrite Htm, Ht. cbn. clear - Htm Ht. destruct w; cbn in *. by rewrite Htm, Ht. }
  cbn [mbind res_bind]. unfold process_task. rewrite Htk, Hk. cbn [foldl]. set (w0 := set_tasks [] w).
  assert (Hk0 : kept (gw_world g) w0).
  { etrans; [exact Hkw|]. split; [by apply fds_kept_same|done|cbn; by rewrite Htk|done]. }
  unfold loop_io. cbn [the_world with_world gateway_world gw_world gw_conns].
  change (conns w0) with (conns w). rewrite Hconns.
  assert (Hc : ends (λ f, f = OutOfBounds ∧ fd_overflows w0)
    (λ w', refs_ok (holds (elements (conns (gw_world g))) ext) w' ∧ conns w' = conns w0)
    (collect (elements (conns (gw_world g))) w0)).
  { apply collect_ends; [by apply (refs_same ext (gw_world g))|]. apply Forall_forall. intros p.
    change (conns w0) with (conns w). by rewrite Hconns, elem_of_elements. }
  destruct (collect _ w0) as [w1| |f|] eqn:Hcol; cbn in Hc; try done; cbn [mbind res_bind].
  - left. destruct Hc as [H1 Hcs1]. destruct (collect_kept _ _ _ Hcol) as [Hq1 Hf1].
    assert (Hk1 : kept (gw_world g) w1) by (etrans; [exact Hk0|by apply quiet_is_kept]).
    eexists. split; [reflexivity|].
    destruct (r_wake r); cbn; (split; [apply (gw_inv_kept D _ _ g); [|done|done]|split; [done|split; [done|]]]);
      (etrans; [exact Hk1|]; split; [by apply fds_kept_same|done..]).
  - right. destruct Hc as [-> (p & c & Hp & Hin & Hn)]. split; [done|]. cbn in Hp, Hin. rewrite Hobjs in Hp.
    rewrite Hconns in Hin. destruct (Hf p c Hp Hin) as [H0 HD]. exists (fd c). split; [done|]. lia.
Qed.

(** The loop during a round: [rem] are the connections to come, [lost] the
    objects that nobody has. *)
Record in_round (D : Z → Prop) (apt : positive) (rem lost : list positive) (g : gateway) : Prop := {
  ir_inv : gw_inv D g;
  ir_one : one_acceptor apt g;
  ir_nodup : NoDup rem;
  ir_rem q : q ∈ rem → gw_conns g !! q = None → q = apt;
  ir_length : (length lost ≤ 1)%nat;
  ir_before : apt ∈ rem → lost = [];
  ir_stopped : lost = [] ∨ running (gw_world g) = false
}.

Lemma in_round_kept D apt rem lost w' g : kept (gw_world g) w' →
  in_round D apt rem lost g → in_round D apt rem lost (Gw w' (gw_conns g)).
Proof.
  intros Hk [I1 I2 I3 I4 I5 I6 I7]. split; cbn; try done.
  - apply (gw_inv_kept D _ _ g); [done|apply I1|done].
  - apply (one_acceptor_kept apt _ _ g); [apply Hk|done|done].
  - destruct I7 as [|Hr]; [by left|right]. by apply Hk.
Qed.

Lemma in_round_read D apt p ps lost g new_lost g' :
  in_round D apt (p :: ps) lost g → read_post D p g new_lost g' → in_round D apt ps (new_lost ++ lost) g'.
Proof.
  intros [I1 I2 I3 I4 I5 I6 I7] [P1 P2 P3 P4 P5 P6]. apply NoDup_cons in I3 as [Hp I3].
  assert (Hapt : new_lost = [] ∨ p = apt ∧ lost = [] ∧ running (gw_world g') = false ∧ ∃ x, new_lost = [x]).
  { destruct P2 as [|(Hn & Hr & Hx)]; [by left|right]. pose proof (I4 p (list_elem_of_here _ _) Hn) as ->.
    split_and!; [done|apply I6; left|done|done]. }
  split; [done| |done| | | |].
  - intros q Hq Hn. apply I2; [|by apply P5]. destruct (P4 q Hq) as [|[? ?]]; [done|congruence].
  - intros q Hq Hn. apply I4; [by right|by apply P5].
  - destruct Hapt as [->|(_ & -> & _ & x & ->)]; [done|cbn; lia].
  - intros Ha. destruct Hapt as [->|(-> & _)]; [|done]. apply I6. by right.
  - destruct Hapt as [->|(_ & _ & Hr & _)]; [|by right]. destruct I7 as [->|Hr]; [by left|right; by apply P3].
Qed.

(** Between two rounds. *)
Definition between (D : Z → Prop) (apt : positive) (ext : positive → Z) (g : gateway) : Prop :=
  ∃ lost, refs_ok (holds lost ext) (gw_world g) ∧ in_round D apt [] lost g.

Definition may_fail (D : Z → Prop) (rs : list round) (f : fault) : Prop :=
  gw_faults rs f ∨ f = OutOfBounds ∧ ∃ z, D z ∧ fd_setsize ≤ z.

Lemma gateway_round_ends D apt ext r rs g : accept_valid r → r ∈ rs → D (r_accept r).1 →
  gw_inv D g → one_acceptor apt g → refs_ok ext (gw_world g) →
  ends (may_fail D rs) (between D apt ext) (gateway_round new r g).
Proof using new_fresh.
  intros Ha Hin HD Hg Hone H.
  destruct (gateway_round_dispatch D ext r g Hg H) as [(g1 & -> & Hg1 & H1 & Hcs & Hk)|[-> Hz]]; [|by right].
  eapply ends_bind; [eapply ends_weaken; [by left| |
    apply (dispatch_loses (gw_faults rs) (in_round D apt)) with (ext := ext) (L := [])]|].
  - intros g' Hg'. exact Hg'.
  - intros p ps L s w' Hr. apply in_round_kept. eapply ending_kept. right. by left.
  - intros p ps L s [I1 I2 I3 I4 I5 I6 I7]. apply NoDup_cons in I3 as [_ I3]. split; try done.
    + intros q Hq. apply I4. by right.
    + intros Hq. apply I6. by right.
  - intros e p ps L s Hs Hr He Hp. eapply ends_weaken; [done| |by apply (gw_read_loses D r rs e p s); [..|apply Hs| |]].
    intros g' (lost & Hr' & Hpost). exists lost. split; [done|]. by apply (in_round_read D apt p ps L s).
  - intros e p ps L s Hs Hr He Hp. rewrite (gw_send_ok D) by apply Hs.
    apply loses_none; [by apply interrupt_refs|]. apply in_round_kept; [apply interrupt_is_kept|done].
  - intros q. apply (H q).
  - split; [done| |apply NoDup_elements| |cbn; lia|done|by left].
    + intros q Hq. rewrite Hcs. apply Hone. by apply (k_fds _ _ Hk).
    + intros q Hq. rewrite Hcs. apply Hone. by apply elem_of_elements.
  - eapply refs_ext; [|exact H1]. intros q. unfold holds. simpl. lia.
  - intros g' (lost & H' & Hg'). exists lost. split; [by apply interrupt_refs|].
    apply in_round_kept; [apply interrupt_is_kept|done].
Qed.

Lemma gateway_loop_ends D apt ext all rs g : Forall accept_valid rs →
  (∀ r, r ∈ rs → r ∈ all ∧ D (r_accept r).1) → between D apt ext g →
  ends (may_fail D all) (between D apt ext) (gateway_loop new rs g).
Proof using new_fresh.
  intros Hrs. revert g. induction Hrs as [|r rs Hr _ IH]; intros g Hall Hg; [done|].
  cbn [gateway_loop]. destruct (running (gw_world g)) eqn:Hrun; [|done].
  destruct Hg as (lost & H & [I1 I2 _ _ _ _ [->|I7]]); [|congruence].
  eapply ends_bind; [apply (gateway_round_ends D apt ext r all); [done|apply Hall; left|apply Hall; left|done|done|]|].
  - eapply refs_ext; [|exact H]. intros q. unfold holds. simpl. lia.
  - intros g1 Hg1. apply IH; [|done]. intros r' Hr'. apply Hall. by right.
Qed.

End facts.

(** ** Theorems *)

(** The acceptor that [init] leaves: its descriptor is the socket's. *)
Lemma acceptor_init_fd sock bind_ listen_ c ok :
  ngx_acceptor_init sock bind_ listen_ (net_io_create false) = (ok, c) →
  ref_ c = 1 ∧ in_loop c = false ∧ (ok = true → 0 ≤ fd c ∧ fd c = sock.1).
Proof.
  unfold ngx_acceptor_init, net_io_socket, net_io_syscall. cbn.
  destruct (Z.ltb_spec sock.1 0); [intros; by simplify_eq/=|].
  destruct (Z.eqb_spec bind_.1 (-1)), (Z.eqb_spec bind_.1 0); cbn;
    try (intros; by simplify_eq/=);
    destruct (Z.eqb_spec listen_.1 (-1)); intros; by simplify_eq/=.
Qed.

(** The descriptors that the system hands out: the acceptor's and the accepted. *)
Definition given (sock : Z * Z) (rs : list round) (z : Z) : Prop :=
  z = sock.1 ∨ ∃ r, r ∈ rs ∧ z = (r_accept r).1.

(** What holds after [main]: the references are accounted for, and when the loop
    is destroyed every object is deleted, except one at most if the loop was
    stopped: the one that was given to [add_net] after the signal. *)
Definition cleaned_up (g : gateway) : Prop :=
  ∃ lost, refs_ok (holds lost (λ _, 0)) (gw_world g) ∧ (length lost ≤ 1)%nat ∧
    (lost = [] ∨ running (gw_world g) = false) ∧
    ∃ w', eventloop_destroy (gw_world g) = Ok w' ∧ ∀ p, is_Some (objs w' !! p) ↔ p ∈ lost.

Lemma gateway_main_ends new now sock bind_ listen_ sg rs c :
  (∀ w, objs w !! new w = None) → Forall accept_valid rs →
  ngx_acceptor_init sock bind_ listen_ (net_io_create false) = (true, c) →
  ends (may_fail (given sock rs) rs) (λ '(rc, g), rc = 0 ∧ cleaned_up g)
    (gateway_main new now sock bind_ listen_ sg rs).
Proof.
  intros Hnew Hrs Hinit. unfold gateway_main. rewrite Hinit. cbn [negb].
  destruct (acceptor_init_fd _ _ _ _ _ Hinit) as (Hr & Hin & [Hf1 Hf2]); [done|].
  set (apt := new (eventloop_create now)).
  destruct (add_interrupted (λ _, 0) sg.1 apt c (eventloop_create now)) as (w1 & lost & -> & H1 & Hl & _ & R2 & R3 & Hcs & c' & Ho & Hfd);
    [by intros q; split; [|split; [|set_solver]]|apply Hnew|done|done|].
  cbn [mbind res_bind].
  eapply ends_bind; [apply (gateway_loop_ends new Hnew (given sock rs) apt (λ _, 0) rs); [done| |]|].
  - intros r Hr'. split; [done|]. right. by exists r.
  - exists lost. split; [by apply interrupt_refs|]. destruct (interrupt_same sg.2 w1) as (Ho2 & Hc2 & Ht2 & Hk2 & Hr2).
    split; cbn.
    + split_and!; [cbn; by rewrite Ht2, R2|cbn; by rewrite Hk2, R3| |done]. intros q d Hq _.
      cbn in Hq. rewrite Ho2, Ho in Hq. apply lookup_insert_Some in Hq as [[<- <-]|[_ Hq]]; [|done].
      rewrite Hfd. split; [done|]. by left.
    + intros q Hq _. cbn in Hq. rewrite Hc2 in Hq. apply Hcs in Hq. set_solver.
    + apply NoDup_nil_2.
    + intros q Hq. by apply not_elem_of_nil in Hq.
    + destruct Hl as [->|[-> _]]; cbn; lia.
    + intros Hq. by apply not_elem_of_nil in Hq.
    + destruct Hl as [->|[-> Hr']]; [by left|right; by apply Hr2].
  - intros g (lost' & Hg & [_ _ _ _ I5 _ I7]). split; [done|]. exists lost'. split; [done|]. split; [done|]. split; [done|].
    unfold eventloop_destroy.
    destruct (remove_all_left lost' (set_running false (gw_world g))) as (w2 & Hra & He); [by apply (refs_same _ (gw_world g))|].
    rewrite Hra. eexists. split; [reflexivity|]. exact He.
Qed.

(** The descriptor that does not fit an [fd_set]: the acceptor's, or an accepted one. *)
Definition fd_too_large (sock : Z * Z) (rs : list round) : Prop :=
  fd_setsize ≤ sock.1 ∨ ∃ r, r ∈ rs ∧ fd_setsize ≤ (r_accept r).1.

Lemma given_too_large sock rs : (∃ z, given sock rs z ∧ fd_setsize ≤ z) → fd_too_large sock rs.
Proof. intros (z & [->|(r & Hr & ->)] & Hz); [by left|right; by exists r]. Qed.


(** C7: whatever bytes the clients send as well, in whatever pieces: the program
    ends as before, or it is undefined in one of three ways, an access out of
    the bounds of a receive buffer after some client sent data, the use of the
    null pointer when the memory for a connection is refused, or a write outside
    an [fd_set] for a descriptor from 1024 on.  It never touches a deleted
    connection. *)
Theorem gateway_any_input new now sock bind_ listen_ sg rs c :
  (∀ w, objs w !! new w = None) → Forall accept_valid rs →
  ngx_acceptor_init sock bind_ listen_ (net_io_create false) = (true, c) →
  (∃ g, gateway_main new now sock bind_ listen_ sg rs = Ok (0, g) ∧ cleaned_up g) ∨
  (gateway_main new now sock bind_ listen_ sg rs = Fault OutOfBounds ∧
   ((∃ r p, r ∈ rs ∧ 0 < ret (r_recv r p)) ∨ fd_too_large sock rs)) ∨
  (gateway_main new now sock bind_ listen_ sg rs = Fault NullDeref ∧
   ∃ r p, r ∈ rs ∧ tcp_conn_create (r_alloc r p).1 (r_alloc r p).2 HEAD_LEN = Fault NullDeref).
Proof.
  intros Hnew Hrs Hinit.
  pose proof (gateway_main_ends new now sock bind_ listen_ sg rs c Hnew Hrs Hinit) as H.
  destruct (gateway_main _ _ _ _ _ _ _) as [[rc g]| |f|]; [|done| |done].
  - destruct H as [-> Hg]. left. by exists g.
  - right. destruct H as [[[-> H]|[-> H]]|[-> Hz]].
    + left. split; [done|]. by left.
    + right. by split.
    + left. split; [done|]. right. by apply given_too_large.
Qed.

(** C8: one client can end the program: a connection that was just accepted
    sends sixteen bytes of which the second eight are a number [v], and the
    round in which they are read does not return, whatever the other clients
    do; the program has copied [v + 16] bytes out of a buffer of 24 or so. *)
Theorem gateway_remote_crash new ext r rs g p c t al c8 v a b pl :
  (∀ w, objs w !! new w = None) → accept_valid r → gw_ok g → refs_ok ext (gw_world g) →
  p ∈ conns (gw_world g) → objs (gw_world g) !! p = Some c → r_readable r (fd c) = true →
  gw_conns g !! p = Some t → tcp_conn_create al.1 al.2 HEAD_LEN = Ok t →
  ret (r_recv r p) = 16 → r_data r p = c8 ++ le_bytes 8 v → length c8 = 8%nat →
  8 < v < 2 ^ 62 → of_le c8 < v + 16 →
  ngx_create_buf (r_alloc r p).1 (pool t) HEAD_LEN = (Some (a, b), pl) → 0 ≤ a < 2 ^ 63 → buf_cap b < v + 16 →
  is_Some (ngx_create_buf (r_alloc r p).2 pl (v + 16)).1 →
  ∃ f, gateway_loop new (r :: rs) g = Fault f ∧ gw_faults [r] f.
Proof.
  intros Hnew Ha Hg H Hp Hc Hrd Ht Hcr Hret Hdata Hc8 Hv Hcap Hal Ha64 Hb Hal2.
  destruct Hg as [Hrun Hg].
  cut (ends (gw_faults [r]) (λ _, False) (gateway_round new r g)).
  { cbn [gateway_loop]. rewrite Hrun.
    destruct (gateway_round new r g) as [| |f|]; cbn; try done. intros Hf. by exists f. }
  destruct (gateway_round_dispatch new _ ext r g Hg H) as [(g1 & -> & Hg1 & H1 & Hcs & Hk)|[_ (z & Hz & Hz')]]; [|lia].
  apply (ends_bind _ (λ _, False)); [|done].
  assert (Hx : p ∈ elements (conns (gw_world g))) by (by apply elem_of_elements).
  assert (He : ∀ q, 0 ≤ ext q) by (intros q; apply (H q)).
  set (I := λ g', gw_inv (λ _, True) g' ∧ gw_conns g' !! p = Some t ∧ ∃ c', objs (gw_world g') !! p = Some c' ∧ fd c' = fd c).
  assert (HI : I g1).
  { split; [by eapply gw_inv_weaken|]. split; [by rewrite Hcs|].
    destruct (refs_live _ (gw_world g1) p H1) as (c1 & Hc1 & _).
    { left. unfold holds. specialize (He p). pose proof (proj1 (count_occ_In Pos.eq_dec _ p) (proj1 (list_elem_of_In _ _) Hx)). lia. }
    exists c1. split; [done|]. destruct (proj2 (k_fds _ _ Hk) p c1 Hc1) as (c0 & Hc0 & Hf0). rewrite Hc in Hc0. simplify_eq.
    apply Hf0. by apply (proj1 (proj2 Hg) p c0). }
  apply (dispatch_fails (gw_faults [r]) I) with (x := p) (ext := ext) (L := []); [| | | |done|done|done|].
  - intros q s w' Hq Hr (Hs & Htc & c' & Hc' & Hf).
    split; [by apply (gw_inv_kept _ _ _ s); [eapply ending_kept; right; left|apply Hs|]|]. split; [done|].
    exists c'. split; [|done]. cbn. rewrite (one_others q _ w' (or_intror (or_introl Hr))) by done. done.
  - intros ext' q s Hq (Hs & Htc & c' & Hc' & Hf) Hr Hpos. split.
    + eapply ends_weaken; [done| |by apply (gw_read_loses new Hnew (λ _, True) r [r] ext'); [done|left|..]].
      intros g' (lost & Hr' & [P1 _ _ _ _ P6]). exists lost. split; [done|]. destruct (P6 p) as [Ho1 Ho2]; [done|by exists c'|].
      split; [done|]. split; [by rewrite Ho2|]. exists c'. by rewrite Ho1.
    + rewrite (gw_send_ok (λ _, True)) by done. destruct (interrupt_same (r_signal r (BeforeSend q)) (gw_world s)) as (Ho & _).
      apply loses_none; [by apply interrupt_refs|]. split; [apply (gw_inv_kept _ _ _ s); [apply interrupt_is_kept|apply Hs|done]|].
      split; [done|]. exists c'. cbn. by rewrite Ho.
  - intros s c' (_ & _ & c1 & Hc1 & Hf) Hc'. cbn in Hc'. rewrite Hc1 in Hc'. injection Hc' as <-. by rewrite Hf.
  - intros s (Hs & Htc & _). unfold gw_read. rewrite Htc.
    destruct (tcp_conn_create_cases al.1 al.2 HEAD_LEN) as [Hn|(t1 & Ht1 & _ & _ & _ & _ & Hrx)]; [congruence|].
    rewrite Hcr in Ht1. injection Ht1 as <-.
    rewrite Hdata, (OnRead_overread _ _ _ _ _ _ v _ _ _ a b pl); rewrite ?Hrx; unfold HEAD_LEN in *; cbn; try (done || lia).
    + left. split; [done|]. exists r, p. split; [by left|lia].
    + intros data. unfold msg_head_parse. destruct (Z.ltb_spec (v + 16) 24); lia.
  - eapply refs_ext; [|exact H1]. intros q. unfold holds. simpl. lia.
Qed.

(** a client accepted after the loop has been stopped, or while it is stopped by
    a signal before [add_net], is never registered: nobody holds the reference of
    its object, which is lost with its socket. *)
Theorem gateway_accept_after_stop ext al sg p s t g :
  refs_ok ext (gw_world g) → objs (gw_world g) !! p = None →
  running (gw_world g) = false ∨ sg = Some SIGTERM →
  tcp_conn_create al.1 al.2 HEAD_LEN = Ok t →
  ∃ g', api_apt_cb al sg p s g = Ok g' ∧ refs_ok (holds [p] ext) (gw_world g') ∧
    conns (gw_world g') = conns (gw_world g) ∧ objs (gw_world g') !! p = Some (NetIo s 0 0 false true 1).
Proof.
  intros H Hp Hrun Hcr. unfold api_apt_cb. rewrite Hcr. cbn [mbind res_bind]. rewrite interrupt_put.
  destruct (interrupt_same sg (gw_world g)) as (Ho & Hc & _ & _ & Hr).
  assert (Hr' : running (interrupt sg (gw_world g)) = false) by (destruct Hrun as [?| ->]; [by apply Hr|done]).
  destruct (add_stopped_ok ext p (NetIo s 0 0 false true 1) (interrupt sg (gw_world g))) as [Ha H'];
    [by apply (refs_same ext (gw_world g))|by rewrite Ho|done..|].
  cbn in Ha |- *. rewrite Ha. cbn [mbind res_bind]. eexists. split; [reflexivity|]. split; [done|].
  split; [done|apply lookup_insert_eq].
Qed.

(** ** Witnesses *)

Definition new_object (w : world) : positive := fresh (dom (objs w) : gset positive).

Lemma new_object_fresh w : objs w !! new_object w = None.
Proof. unfold new_object. apply (not_elem_of_dom (D := gset positive)), is_fresh. Qed.

(** A round with what the connections receive. *)
Definition demo_round (acc : Z) (rc : sysret) (data : list Z) (s : sig_point → option signal) : round :=
  Round 0 (λ _, true) (λ _, true) true (acc, 0) (λ _, rc) (λ _, data) (λ _, Sys 0 0)
    (λ _, (demo_al 65536, demo_al 131072)) (λ _ _, 0) s.

Definition no_signal (_ : sig_point) : option signal := None.
Definition at_end (pt : sig_point) : option signal := match pt with AtEnd => Some SIGTERM | _ => None end.
Definition before_register (pt : sig_point) : option signal :=
  match pt with BeforeRegister => Some SIGTERM | _ => None end.

Definition quiet_rounds (acc : list Z) (last : Z) (s : sig_point → option signal) : list round :=
  ((λ a, demo_round a (Sys 0 0) [] no_signal) <$> acc) ++ [demo_round last (Sys 0 0) [] s].

Definition demo_main (rs : list round) : res (Z * gateway) :=
  gateway_main new_object 0 (3, 0) (0, 0) (0, 0) (None, None) rs.

Lemma demo_rounds_valid acc last s : Forall (λ a, -1 ≤ a) (acc ++ [last]) →
  Forall accept_valid (quiet_rounds acc last s) ∧
  (∀ r p, r ∈ quiet_rounds acc last s → ret (r_recv r p) ≤ 0) ∧
  (∀ r p, r ∈ quiet_rounds acc last s → tcp_conn_create (r_alloc r p).1 (r_alloc r p).2 HEAD_LEN ≠ Fault NullDeref).
Proof.
  intros [Ha Hl]%Forall_app. apply Forall_cons in Hl as [Hl _]. unfold quiet_rounds.
  assert (Hr : ∀ r, r ∈ ((λ a, demo_round a (Sys 0 0) [] no_signal) <$> acc) ++ [demo_round last (Sys 0 0) [] s] →
    ∃ a s', r = demo_round a (Sys 0 0) [] s' ∧ -1 ≤ a).
  { intros r [(a & -> & Hin)%list_elem_of_fmap|Hin%list_elem_of_singleton]%elem_of_app; [|by eexists _, _].
    rewrite Forall_forall in Ha. eexists a, _. split; [done|]. by apply Ha. }
  split_and!.
  - apply Forall_forall. intros r (a & s' & -> & H)%Hr. exact H.
  - intros r p (a & s' & -> & _)%Hr. done.
  - intros r p (a & s' & -> & _)%Hr. vm_compute. discriminate.
Qed.


(** Four bytes on the second round, and the program goes on. *)
Lemma gateway_any_input_witness :
  ∃ g, demo_main [demo_round 7 (Sys 0 0) [] no_signal; demo_round (-1) (Sys 4 0) [1; 2; 3; 4] at_end] = Ok (0, g) ∧
    cleaned_up g.
Proof.
  destruct (gateway_any_input new_object 0 (3, 0) (0, 0) (0, 0) (None, None)
    [demo_round 7 (Sys 0 0) [] no_signal; demo_round (-1) (Sys 4 0) [1; 2; 3; 4] at_end]
    (NetIo 3 0 0 false false 1)) as [H|[[H _]|[H _]]].
  - exact new_object_fresh.
  - repeat (constructor; [unfold accept_valid; cbn; lia|]). constructor.
  - reflexivity.
  - exact H.
  - vm_compute in H. discriminate.
  - vm_compute in H. discriminate.
Defined.

Definition demo_gateway : gateway := Gw demo_world {[1%positive := demo_conn]}.

Lemma demo_gateway_ok : gw_ok demo_gateway.
Proof.
  destruct demo_conn_init as (al1 & al2 & n & t0 & Hc & [= <-]).
  destruct (tcp_conn_create_cases al1 al2 n) as [Hn|(t & Ht & Hq & Hs & _)]; cbn [fst] in *; [congruence|].
  rewrite Hc in Ht. injection Ht as <-. split; [done|]. split; [done|]. split.
  - intros p c Hp _. cbn in Hp. apply lookup_singleton_Some in Hp as [_ <-]. unfold fd_setsize. cbn. lia.
  - cbn. by apply map_Forall_singleton.
Qed.

(** The client announces 1016 bytes. *)
Definition attack : round := demo_round (-1) (Sys 16 0) (replicate 8 0 ++ le_bytes 8 1000) no_signal.

Lemma gateway_remote_crash_witness :
  gateway_loop new_object [attack] demo_gateway = Fault OutOfBounds.
Proof.
  destruct (gateway_remote_crash new_object (λ _, 0) attack [] demo_gateway 1 (NetIo 7 0 0 true true 1)
    demo_conn (demo_al 65536, demo_al 131072) (replicate 8 0) 1000 65608 (Buf 24 0 1 65640)
    (ngx_create_buf (demo_al 65536) (pool demo_conn) 24).2) as (f & Hf & [[-> _]|[-> (r & p & Hr & Hn)]]).
  - exact new_object_fresh.
  - unfold accept_valid. cbn. lia.
  - exact demo_gateway_ok.
  - exact demo_refs.
  - apply (bool_decide_unpack _). vm_compute. exact Logic.I.
  - reflexivity.
  - reflexivity.
  - reflexivity.
  - vm_compute. reflexivity.
  - reflexivity.
  - reflexivity.
  - reflexivity.
  - lia.
  - reflexivity.
  - vm_compute. reflexivity.
  - lia.
  - reflexivity.
  - vm_compute. by eexists.
  - exact Hf.
  - exfalso. apply list_elem_of_singleton in Hr as ->. vm_compute in Hn. discriminate.
Defined.

Lemma gateway_accept_after_stop_witness :
  ∃ g', api_apt_cb (demo_al 65536, demo_al 131072) (Some SIGTERM) 1 7 (Gw (eventloop_create 0) ∅) = Ok g' ∧
    objs (gw_world g') !! 1%positive = Some (NetIo 7 0 0 false true 1).
Proof.
  destruct (gateway_accept_after_stop (λ _, 0) (demo_al 65536, demo_al 131072) (Some SIGTERM) 1 7 demo_conn
    (Gw (eventloop_create 0) ∅))
    as (g' & Ha & _ & _ & Ho);
    [intros q; split; [lia|split; [done|set_solver]]|done|by right|vm_compute; reflexivity|].
  exists g'. split; [exact Ha|exact Ho].
Defined.
