(* ===== verification/BizUser.v ===== *)
(** * The API user (example/BizUser.cpp, example/Impl.cpp)

    [CBizUser] wraps the core, one TCP connection and the loop.  [Impl] is its
    state; the loop's world is passed along.  Messages are logged only, so the
    log is left out. *)

From S2P Require Import Prelude CText NgxPool NgxQueue NgxCore EventLoop TcpConn.
Local Open Scope Z_scope.

(** ** State *)

(** [_impl]: [logoned] is not initialised and never assigned; [core.loop] is
    [None] when null. *)
Record Impl := MkImpl {
  core : ngx_core; loop : option unit; conn : option (positive * tcp_conn); logoned : Z
}.

Definition set_core (c : ngx_core) (i : Impl) : Impl := MkImpl c (loop i) (conn i) (logoned i).
Definition set_conn (c : option (positive * tcp_conn)) (i : Impl) : Impl := MkImpl (core i) (loop i) c (logoned i).
Definition set_loop (l : option unit) (i : Impl) : Impl := MkImpl (core i) l (conn i) (logoned i).

(** The members of the configuration that are used. *)
Record COMMONCFG := Cfg { cfg_url : str; cfg_hearbeat_int : Z; cfg_log_level : Z }.

Definition with_cfg (g : COMMONCFG) (c : ngx_core) : ngx_core :=
  Core (cfg_url g) (timeout c) (cfg_hearbeat_int g) (cfg_log_level g) (log_max_size c)
    (started c) (ip_cnt c) (host_ip c) (port c) (mac c).

(** [Impl::Impl] clears the core; [junk] is what [new] left in [logoned]. *)
Definition Impl_create (junk : Z) : Impl :=
  MkImpl (Core [] 0 0 0 0 false 0 (replicate 4 0) (replicate 4 0) (replicate HOST_MAC_MAX [])) None None junk.

(** ** Operations *)

Section api.
(** The name service, the fuel of its loop, and the new connection with its
    buffers, whose address is [p]. *)
Context (gethostbyname : str → option (list Z)) (ifs : option (list iface)) (fuel : nat).
Context (new_conn : res tcp_conn) (p : positive).

(** [Impl::init]: [loop_set] as in [ngx_core_init]. *)
Definition Impl_init (loop_set : bool) (i : Impl) : res (bool * Impl) :=
  '(ok, c) ← ngx_core_init gethostbyname ifs fuel loop_set (core i);
  mret (ok, set_loop (if ok : bool then Some tt else None) (set_core c i)).

(** [net_io]'s operations on the object of the connection. *)
Definition on_conn {A} (f : net_io → A * net_io) (q : positive) (w : world) : res (A * world) :=
  c ← get_obj q w;
  let '(a, c) := f c in
  mret (a, put_obj q c w).

(** [Impl::connect]: the results of [::socket] and [::connect]. *)
Definition Impl_connect (sock conn_ : Z * Z) (i : Impl) (w : world) : res (bool * Impl * world) :=
  '(q, i, w) ← match conn i with
               | None => t ← new_conn; mret (p, set_conn (Some (p, t)) i, put_obj p (net_io_create true) w)
               | Some (q, t) => w ← net_io_close q w; mret (q, i, w)
               end;
  '(fd, w) ← on_conn (λ c, let '(c, s) := net_io_socket sock.1 sock.2 c in (s, c)) q w;
  if fd <? 0 then mret (false, i, w)
  else
    '(ok, w) ← on_conn (net_io_connect conn_.1 conn_.2) q w;
    mret (ok, i, w).

(** [Impl::logon] only logs. *)
Definition Impl_logon : bool := true.

(** [Impl::async]: the options of the socket, then the loop. *)
Definition Impl_async (i : Impl) (w : world) : res world :=
  match conn i with
  | None => mret w
  | Some (q, _) => _ ← deref NullDeref (loop i); add_net q w
  end.

(** [Impl::uninit]: the wait for the loop's thread is not modelled. *)
Definition Impl_uninit (i : Impl) (w : world) : res (Impl * world) :=
  match loop i with
  | None => mret (i, w)
  | Some _ =>
      w ← match conn i with
          | None => mret w
          | Some (q, _) => c ← get_obj q w; if brk_tm c =? 0 then terminate q w else mret w
          end;
      mret (set_loop None (set_core (ngx_core_uninit (core i)) i), w)
  end.

(** [CBizUser::start] *)
Definition start (cfg : COMMONCFG) (loop_set : bool) (sock conn_ : Z * Z) (i : Impl) (w : world)
    : res (bool * Impl * world) :=
  '(ok, i) ← Impl_init loop_set (set_core (with_cfg cfg (core i)) i);
  if negb ok then mret (false, i, w)
  else
    '(ok, i, w) ← Impl_connect sock conn_ i w;
    if negb ok then '(i, w) ← Impl_uninit i w; mret (false, i, w)
    else
      w ← Impl_async i w;
      if negb Impl_logon then '(i, w) ← Impl_uninit i w; mret (false, i, w)
      else mret (true, i, w).

(** [CBizUser::stop] *)
Definition biz_stop (i : Impl) (w : world) : res (Impl * world) := Impl_uninit i w.

(** [CBizUser::reconnect] *)
Definition reconnect (sock conn_ : Z * Z) (i : Impl) (w : world) : res (bool * Impl * world) :=
  '(q, _) ← deref NullDeref (conn i);
  c ← get_obj q w;
  if brk_tm c =? 0 then mret (false, i, w)
  else
    '(ok, i, w) ← Impl_connect sock conn_ i w;
    if negb ok then mret (false, i, w)
    else w ← Impl_async i w; mret (true, i, w).

(** [CBizUser::send_message]: the [int] of [send_msg] is returned as [bool]. *)
Definition send_message (al : allocator) (r : sysret) (data : option (list Z)) (i : Impl) (w : world)
    : res (bool * Impl * world) :=
  match data with
  | None => mret (false, i, w)
  | Some data =>
      if (logoned i =? 0) || (Z.of_nat (length data) =? 0) then mret (false, i, w)
      else
        match conn i with
        | None => mret (false, i, w)
        | Some (q, t) =>
            c ← get_obj q w;
            if negb (brk_tm c =? 0) then mret (false, i, w)
            else
              '(rc, t, w) ← send_msg al r data t q w;
              mret (negb (rc =? 0), set_conn (Some (q, t)) i, w)
        end
  end.

End api.

(** [CBizUser::~CBizUser]; [delete _impl] runs [uninit] again. *)
Definition biz_destroy (i : Impl) (w : world) : res (Impl * world) :=
  '(i, w) ← (if started (core i) then biz_stop i w else mret (i, w));
  Impl_uninit i w.

(** *** Callbacks of the connection *)

(** What [core.biz] points to: the [Impl], or the [CBizUser] that the callbacks
    take it for. *)
Inductive biz_pointer := BizImpl | BizUserObject.

(** The constructor of [CBizUser]. *)
Definition biz_create : biz_pointer := BizImpl.

(** A virtual call: the table of an [Impl] would be in the bytes of the URL. *)
Definition as_user (biz : biz_pointer) : res unit :=
  match biz with BizUserObject => mret tt | BizImpl => Fault OutOfBounds end.

(** [*(int* )data], little-endian. *)
Definition first_int (data : list Z) : res Z :=
  match data with
  | a :: b :: c :: d :: _ => mret (swrap 32 (a + b * 2 ^ 8 + c * 2 ^ 16 + d * 2 ^ 24))
  | _ => Fault OutOfBounds
  end.

(** [OnNetMsg]: the answer of the user's [OnMessage] is a parameter.  The result
    of the logon is always 0, so the branch of its failure is never taken. *)
Definition OnNetMsg (biz : biz_pointer) (on_message : bool) (data : list Z) (len : Z) : res bool :=
  v ← first_int data;
  if v =? 1 then _ ← as_user biz; mret true
  else if len =? 20 then _ ← as_user biz; mret true
  else _ ← as_user biz; mret on_message.

(** [OnNetDisConn]: whether the user is told to reconnect. *)
Definition OnNetDisConn (biz : biz_pointer) (auto_reconnect : bool) (c : ngx_core) : res bool :=
  _ ← as_user biz;
  mret (auto_reconnect && started c).

(** The calls of a client, with what the system does in them. *)
Inductive biz_op :=
| BizStart (cfg : COMMONCFG) (loop_set : bool) (sock conn_ : Z * Z)
| BizStop
| BizReconnect (sock conn_ : Z * Z)
| BizSend (al : allocator) (r : sysret) (data : option (list Z)).

(** The answer of a call ([stop] has none) and the new state. *)
Definition biz_call (gethostbyname : str → option (list Z)) (ifs : option (list iface)) (fuel : nat) (new_conn : res tcp_conn)
    (p : positive) (op : biz_op) (i : Impl) (w : world) : res (option bool * Impl * world) :=
  match op with
  | BizStart cfg ls s c => '(b, i, w) ← start gethostbyname ifs fuel new_conn p cfg ls s c i w; mret (Some b, i, w)
  | BizStop => '(i, w) ← biz_stop i w; mret (None, i, w)
  | BizReconnect s c => '(b, i, w) ← reconnect new_conn p s c i w; mret (Some b, i, w)
  | BizSend al r d => '(b, i, w) ← send_message al r d i w; mret (Some b, i, w)
  end.

Inductive biz_steps gethostbyname ifs fuel new_conn p : Impl * world → Impl * world → Prop :=
| biz_done s : biz_steps gethostbyname ifs fuel new_conn p s s
| biz_more op i w i' w' b s :
    biz_call gethostbyname ifs fuel new_conn p op i w = Ok (b, i', w') →
    biz_steps gethostbyname ifs fuel new_conn p (i', w') s →
    biz_steps gethostbyname ifs fuel new_conn p (i, w) s.

(** ** Lemmas *)

(** [ngx_core_init] answers false, or does not return. *)
Lemma Impl_init_fails gethostbyname ifs fuel loop_set i ok i' :
  Impl_init gethostbyname ifs fuel loop_set i = Ok (ok, i') →
  ok = false ∧ conn i' = conn i ∧ loop i' = None.
Proof.
  unfold Impl_init. intros ([b c] & Hc & H)%bind_Ok. simplify_eq/=.
  destruct ok; [by apply ngx_core_init_never_succeeds in Hc|done].
Qed.

Definition idle_api (s : Impl * world) : Prop := conn s.1 = None ∧ loop s.1 = None.

Lemma biz_call_idle gethostbyname ifs fuel new_conn p op i w b i' w' :
  idle_api (i, w) → biz_call gethostbyname ifs fuel new_conn p op i w = Ok (b, i', w') →
  idle_api (i', w') ∧ w' = w ∧ (b = None ∨ b = Some false) ∧ ∀ s c, op ≠ BizReconnect s c.
Proof.
  intros [Hc Hl]. cbn in Hc, Hl. destruct op as [cfg ls s c| |s c|al r d]; cbn [biz_call].
  - intros (((b' & i1) & w1) & Hs & H)%bind_Ok. unfold start in Hs.
    apply bind_Ok in Hs as ((ok & i2) & Hi & Hs).
    apply Impl_init_fails in Hi as (-> & Hc2 & Hl2). cbn in Hc2. cbn [negb] in Hs. simplify_eq/=.
    unfold idle_api. cbn. split_and!; [congruence|done|done|by right|done].
  - unfold biz_stop, Impl_uninit. rewrite Hl. cbn. intros. simplify_eq. by split_and!; [..|left|].
  - unfold reconnect. rewrite Hc. done.
  - unfold send_message. rewrite Hc. intros H.
    assert (b = Some false ∧ i' = i ∧ w' = w) as (-> & -> & ->).
    { destruct d; [destruct (_ || _)|]; cbn in H; by simplify_eq. }
    split_and!; [done..|by right|done].
Qed.

Lemma biz_steps_idle gethostbyname ifs fuel new_conn p s s' :
  biz_steps gethostbyname ifs fuel new_conn p s s' → idle_api s → idle_api s' ∧ s'.2 = s.2.
Proof.
  induction 1 as [s|op i w i' w' b s Hc _ IH]; intros Hi; [done|].
  destruct (biz_call_idle _ _ _ _ _ _ _ _ _ _ _ Hi Hc) as (Hi' & -> & _). by apply IH.
Qed.

(** ** Theorems *)

(** the API never gets going: after any calls, a call of [start] that
    returns answers false, no connection exists and none is registered,
    [send_message] answers false and [reconnect] dereferences a null pointer. *)
Theorem biz_api_never_starts gethostbyname ifs fuel new_conn p junk w i w' :
  biz_steps gethostbyname ifs fuel new_conn p (Impl_create junk, w) (i, w') →
  w' = w ∧ conn i = None ∧
  (∀ cfg ls s c b i1 w1, start gethostbyname ifs fuel new_conn p cfg ls s c i w' = Ok (b, i1, w1) → b = false) ∧
  (∀ al r d, send_message al r d i w' = Ok (false, i, w')) ∧
  (∀ s c, reconnect new_conn p s c i w' = Fault NullDeref).
Proof.
  intros Hs. destruct (biz_steps_idle _ _ _ _ _ _ _ Hs) as [Hi Hw]; [done|]. cbn in Hw. subst w'.
  pose proof Hi as [Hc Hl]. cbn in Hc, Hl. split_and!; [done|done| | |].
  - intros cfg ls s c b i1 w1 Hst.
    destruct (biz_call_idle gethostbyname ifs fuel new_conn p (BizStart cfg ls s c) i w (Some b) i1 w1 Hi)
      as (_ & _ & [?|?] & _); [cbn [biz_call]; by rewrite Hst|done|by simplify_eq].
  - intros al r d. unfold send_message. rewrite Hc. destruct d; [by destruct (_ || _)|done].
  - intros s c. unfold reconnect. by rewrite Hc.
Qed.

(** had it a connection, [send_message] would answer true exactly when the
    connection has refused the message. *)
Theorem send_message_inverted al r data i w q t b i' w' c rc t' :
  logoned i ≠ 0 → data ≠ [] → conn i = Some (q, t) →
  objs w !! q = Some c → brk_tm c = 0 →
  send_msg al r data t q w = Ok (rc, t', w') →
  send_message al r (Some data) i w = Ok (b, i', w') →
  (b = true ↔ rc ≠ 0) ∧ conn i' = Some (q, t').
Proof.
  intros Hl Hd Hc Hq Hb Hs H. unfold send_message in H.
  rewrite (proj2 (Z.eqb_neq _ _) Hl), Hc in H. cbn [orb] in H.
  rewrite (proj2 (Z.eqb_neq _ _)) in H by (destruct data; cbn; [done|lia]).
  rewrite (get_obj_Ok q w c Hq) in H. cbn [mbind res_bind] in H. rewrite Hb in H. cbn [Z.eqb negb] in H.
  rewrite Hs in H. cbn [mbind res_bind mret res_ret] in H. simplify_eq.
  split; [|done]. destruct (Z.eqb_spec rc 0); naive_solver.
Qed.

(** the object behind [core.biz] is not the one that the callbacks call:
    every message of at least four bytes and every disconnection ends in a call
    through a table that is not there.  With the right object a logon and a
    message of 20 bytes would be accepted, and others passed on. *)
Theorem biz_callbacks_fault on_message a b c d data len auto_reconnect core :
  OnNetMsg biz_create on_message (a :: b :: c :: d :: data) len = Fault OutOfBounds ∧
  OnNetDisConn biz_create auto_reconnect core = Fault OutOfBounds ∧
  (∃ r, OnNetMsg BizUserObject on_message (a :: b :: c :: d :: data) len = Ok r ∧
     (r = false ↔ first_int (a :: b :: c :: d :: data) ≠ Ok 1 ∧ len ≠ 20 ∧ on_message = false)).
Proof.
  unfold OnNetMsg, OnNetDisConn. cbn [first_int mbind res_bind mret res_ret as_user biz_create].
  set (v := swrap 32 _). split_and!.
  - by destruct (v =? 1), (len =? 20).
  - done.
  - destruct (Z.eqb_spec v 1) as [->|Hv]; [by eexists; split; [reflexivity|]; naive_solver|].
    destruct (Z.eqb_spec len 20); eexists; (split; [reflexivity|]); [naive_solver|].
    split; [|by intros (_ & _ & ?)]. intros ->. split_and!; [|done|done]. congruence.
Qed.

(** ** Witnesses *)

Lemma biz_api_never_starts_witness :
  ∃ i w, biz_steps (λ _, None) None 5 NoFuel 1 (Impl_create 1, eventloop_create 0) (i, w) ∧
    send_message {| malloc := λ _, None; posix_memalign := λ _ _, None |} (Sys 1 0) (Some [1]) i w = Ok (false, i, w).
Proof.
  set (w0 := eventloop_create 0).
  assert (H : ∃ i, biz_steps (λ _, None) None 5 NoFuel 1 (Impl_create 1, w0) (i, w0)).
  { eexists. eapply (biz_more _ _ _ _ _ (BizStart (Cfg [] 0 0) true (0, 0) (0, 0))); [vm_compute; reflexivity|].
    apply biz_done. }
  destruct H as [i Hi]. exists i, w0. split; [exact Hi|].
  exact (proj1 (proj2 (proj2 (proj2 (biz_api_never_starts _ _ _ _ _ _ _ _ _ Hi)))) _ _ _).
Defined.

Lemma send_message_inverted_witness :
  ∃ i' w', send_message no_memory (Sys 3 0) (Some [7; 8; 9])
      (MkImpl (core (Impl_create 1)) None (Some (1%positive, demo_conn)) 1)
      (World {[1%positive := NetIo 7 0 0 true true 2]} {[1%positive]} [] [] true 0 1000 []) = Ok (false, i', w').
Proof.
  set (i := MkImpl _ _ _ _). set (w := World _ _ _ _ _ _ _ _).
  assert (Hs : ∃ t' w', send_msg no_memory (Sys 3 0) [7; 8; 9] demo_conn 1 w = Ok (0, t', w')).
  { eexists _, _. vm_compute. reflexivity. }
  destruct Hs as (t' & w' & Hs).
  assert (H : ∃ b i' w1, send_message no_memory (Sys 3 0) (Some [7; 8; 9]) i w = Ok (b, i', w1) ∧ w1 = w').
  { unfold send_message, i. cbn [logoned conn]. change ((1 =? 0) || (Z.of_nat (length [7; 8; 9]) =? 0)) with false.
    cbn iota. rewrite (get_obj_Ok 1 w (NetIo 7 0 0 true true 2)) by apply lookup_singleton_eq.
    cbn [mbind res_bind brk_tm]. change (negb (0 =? 0)) with false. cbn iota. rewrite Hs.
    cbn [mbind res_bind mret res_ret]. eexists _, _, _. split; reflexivity. }
  destruct H as (b & i' & w1 & H & ->). exists i', w'.
  destruct (send_message_inverted no_memory (Sys 3 0) [7; 8; 9] i w 1 demo_conn b i' w'
    (NetIo 7 0 0 true true 2) 0 t') as [Hb _]; [done|done|done|apply lookup_singleton_eq|done|exact Hs|exact H|].
  destruct b; [|exact H]. by destruct (proj1 Hb eq_refl).
Defined.
