(* ===== verification/LoopThread.v ===== *)
(** * Loops in threads of their own (core/eventthread, active_loop_thread and
      ngx_core_uninit of core/ngx_core.cpp)

    Two threads each: the one that runs the loop, a local variable of its
    function, and the one that starts and stops it through a pointer.  Every
    access to what they share is one step, in any interleaving, with
    sequentially consistent memory; a round of the loop is one step. *)

From S2P Require Import Prelude EventLoop.
Local Open Scope Z_scope.

(** A round that [loop] runs: the handlers and what the system does are those
    of [loop_round]. *)
Inductive round_of (w w' : world) : Prop :=
| round_intro fuel now run_task on_read on_send readable writable wake :
    running w = true →
    loop_round fuel now run_task on_read on_send readable writable wake w = Ok w' →
    round_of w w'.

(** What ends a program: undefined behaviour, or a [std::thread] that is
    destroyed while it is joinable. *)
Inductive death := Memory (f : fault) | StdTerminate.

(** ** [eventthread] *)

Section eventthread.

(** The lambda of [run]: not started; started; the loop constructed; [_loop]
    set; [loop] returned; [_loop] cleared; the loop destroyed. *)
Inductive lpc := LNone | LStart | LMade | LLoop | LLeft | LCleared | LDone.

(** The owner in [stop]: [_loop] found set; loaded for the call; [_running]
    cleared; [wakeup] done. *)
Inductive mpc := MIdle | MSeen | MCall | MWake | MJoin | MDead (d : death).

(** [lp] is the loop object while it exists; [_loop] points to it or is null;
    [joinable] tells that [_thr] has a thread that was not joined. *)
Record eventthread := Evt {
  lp : option world; _loop : bool; joinable : bool; loop_at : lpc; owner_at : mpc
}.

Definition evt_create : eventthread := Evt None false false LNone MIdle.

Definition set_owner (m : mpc) (s : eventthread) : eventthread :=
  Evt (lp s) (_loop s) (joinable s) (loop_at s) m.

(** The thread of the loop. *)
Inductive thread_step : eventthread → eventthread → Prop :=
| th_make now p j m : thread_step (Evt None p j LStart m) (Evt (Some (eventloop_create now)) p j LMade m)
| th_publish w p j m : thread_step (Evt (Some w) p j LMade m) (Evt (Some w) true j LLoop m)
| th_round w w' p j m : round_of w w' →
    thread_step (Evt (Some w) p j LLoop m) (Evt (Some w') p j LLoop m)
| th_leave w p j m : running w = false → thread_step (Evt (Some w) p j LLoop m) (Evt (Some w) p j LLeft m)
| th_clear w p j m : thread_step (Evt (Some w) p j LLeft m) (Evt (Some w) false j LCleared m)
| th_destroy w p j m : thread_step (Evt (Some w) p j LCleared m) (Evt None p j LDone m).

(** [run]: the old thread is destroyed by [reset]. *)
Definition evt_run (s : eventthread) : eventthread :=
  if joinable s then set_owner (MDead StdTerminate) s
  else Evt (lp s) (_loop s) true LStart (owner_at s).

(** [stop], up to the test of the pointer. *)
Definition stop_test (s : eventthread) : eventthread :=
  if _loop s then set_owner MSeen s else s.

(** An access to the loop through a pointer that was loaded before. *)
Definition on_loop (f : world → world) (m : mpc) (s : eventthread) : eventthread :=
  match lp s with
  | Some w => Evt (Some (f w)) (_loop s) (joinable s) (loop_at s) m
  | None => set_owner (MDead (Memory UseAfterFree)) s
  end.

(** The rest of [stop]: the call, the two halves of [eventloop::stop], the
    join, which waits. *)
Definition stop_next (s : eventthread) : option eventthread :=
  match owner_at s with
  | MSeen => Some (if _loop s then set_owner MCall s else set_owner (MDead (Memory NullDeref)) s)
  | MCall => Some (on_loop (set_running false) MWake s)
  | MWake => Some (on_loop wakeup MJoin s)
  | MJoin =>
      match loop_at s with
      | LDone => Some (Evt (lp s) (_loop s) false LDone MIdle)
      | _ => None
      end
  | MIdle | MDead _ => None
  end.

(** The destructor. *)
Definition evt_destroy (s : eventthread) : option death :=
  if joinable s then Some StdTerminate else None.

Inductive owner_step : eventthread → eventthread → Prop :=
| ow_run s : owner_at s = MIdle → owner_step s (evt_run s)
| ow_stop s : owner_at s = MIdle → owner_step s (stop_test s)
| ow_next s s' : stop_next s = Some s' → owner_step s s'.

Definition evt_step (s s' : eventthread) : Prop := thread_step s s' ∨ owner_step s s'.
Definition evt_init (s : eventthread) : Prop := s = evt_create.

End eventthread.

(** ** The thread of the API core *)

Section core_thread.

(** [active_loop_thread]: started; [core->started] set; the loop constructed;
    at the condition of [while]; in [loop]; behind the [while]; [core->loop]
    cleared; the loop destroyed. *)
Inductive apc := ANone | AStart | AStarted | AMade | AWhile | ALoop | AOut | ACleared | ADone.

(** [ngx_core_init] with no server found: before the thread is started; before
    [add_timer]; before [ngx_core_uninit]; before the load of [core->loop];
    before [wakeup]; waiting; returned. *)
Inductive cpc := CInit | CTimer | CUninit | CLoad | CWakeup | CWait | CDone | CDead (f : fault).

Record core_threads := Ct {
  ct_lp : option world; ct_loop : bool; ct_started : bool; active_at : apc; caller_at : cpc
}.

Definition set_caller (c : cpc) (s : core_threads) : core_threads :=
  Ct (ct_lp s) (ct_loop s) (ct_started s) (active_at s) c.

Definition ct_init (s : core_threads) : Prop := s = Ct None false false ANone CInit.

Inductive active_step : core_threads → core_threads → Prop :=
| ac_started l p b c : active_step (Ct l p b AStart c) (Ct l p true AStarted c)
| ac_make now p b c : active_step (Ct None p b AStarted c) (Ct (Some (eventloop_create now)) p b AMade c)
| ac_publish l p b c : active_step (Ct l p b AMade c) (Ct l true b AWhile c)
| ac_while l p b c : active_step (Ct l p b AWhile c) (Ct l p b (if b then ALoop else AOut) c)
| ac_round w w' p b c : round_of w w' →
    active_step (Ct (Some w) p b ALoop c) (Ct (Some w') p b ALoop c)
| ac_return w p b c : running w = false → active_step (Ct (Some w) p b ALoop c) (Ct (Some w) p b AWhile c)
| ac_clear l p b c : active_step (Ct l p b AOut c) (Ct l false b ACleared c)
| ac_destroy l p b c : active_step (Ct l p b ACleared c) (Ct None p b ADone c).

(** The timer that [ngx_core_init] adds; its id is not initialised. *)
Definition log_timer (junk : Z) : timer_info_t := Timer junk 0 (10 * 1000000000) 0 0.

Definition caller_on_loop (f : world → world) (c : cpc) (s : core_threads) : core_threads :=
  match ct_lp s with
  | Some w => Ct (Some (f w)) (ct_loop s) (ct_started s) (active_at s) c
  | None => set_caller (CDead UseAfterFree) s
  end.

(** [ngx_core_init] from the start of the thread, then [ngx_core_uninit]; the
    loop [while (core->loop);] does not advance while the pointer is set. *)
Definition caller_next (now junk : Z) (s : core_threads) : option core_threads :=
  match caller_at s with
  | CInit =>
      Some (if ct_started s then set_caller CUninit s
            else Ct (ct_lp s) (ct_loop s) (ct_started s) AStart CTimer)
  | CTimer =>
      Some (if ct_loop s then caller_on_loop (add_timer now (log_timer junk)) CUninit s
            else set_caller (CDead NullDeref) s)
  | CUninit => Some (Ct (ct_lp s) (ct_loop s) false (active_at s) CLoad)
  | CLoad => Some (set_caller (if ct_loop s then CWakeup else CDead NullDeref) s)
  | CWakeup => Some (caller_on_loop wakeup CWait s)
  | CWait => Some (if ct_loop s then s else set_caller CDone s)
  | CDone | CDead _ => None
  end.

Definition ct_step (s s' : core_threads) : Prop :=
  active_step s s' ∨ ∃ now junk, caller_next now junk s = Some s'.

End core_thread.

(** ** Lemmas *)

(** *** Rounds of a loop with no connections and no tasks *)

Definition idle_loop (w : world) : Prop := conns w = ∅ ∧ tasks w = [].

Lemma process_timer_keeps fuel now w w' : process_timer fuel now w = Ok w' →
  conns w' = conns w ∧ tasks w' = tasks w ∧ running w' = running w.
Proof.
  unfold process_timer. intros ([l due] & _ & H)%bind_Ok. simplify_eq/=.
  change (conns w) with (conns (set_timers l w)). change (tasks w) with (tasks (set_timers l w)).
  change (running w) with (running (set_timers l w)). generalize (set_timers l w). clear.
  induction due as [|t due IH]; intros w; [done|]. apply (IH (emit (EvTimer (param t)) w)).
Qed.

Lemma idle_round w w' : idle_loop w → round_of w w' → idle_loop w' ∧ running w' = running w.
Proof.
  intros [Hc Ht] [fuel now rt on_read on_send rd wr wk Hr H]. unfold loop_round in H.
  apply bind_Ok in H as (w1 & (Hc1 & Ht1 & Hr1)%process_timer_keeps & H).
  unfold process_task in H. cbn [the_world with_world world_alone] in *. rewrite Ht1, Ht in H. cbn [foldl] in H.
  unfold loop_io in H. cbn [the_world with_world world_alone conns set_tasks] in H. rewrite Hc1, Hc, elements_empty in H.
  cbn in H. simplify_eq. unfold idle_loop. destruct wk; cbn; by rewrite ?Hc1, ?Hc, ?Hr1.
Qed.

(** *** [eventthread] *)

(** The loop object in each place of its thread. *)
Definition loop_ok (s : eventthread) : Prop :=
  match loop_at s, lp s with
  | LNone, None | LStart, None | LDone, None => _loop s = false
  | LMade, Some w => _loop s = false ∧ idle_loop w ∧ running w = true
  | LLoop, Some w => _loop s = true ∧ idle_loop w
  | LLeft, Some w => _loop s = true ∧ running w = false
  | LCleared, Some w => _loop s = false ∧ running w = false
  | _, _ => False
  end.

(** The flag of the loop object, if there is one. *)
Definition flag_is (b : bool) (l : option world) : Prop :=
  match l with Some w => running w = b | None => True end.

Definition thread_lives (t : lpc) : bool := match t with LNone | LDone => false | _ => true end.
Definition is_leaving (t : lpc) : bool :=
  match t with LLoop | LLeft | LCleared | LDone => true | _ => false end.

(** The owner: before it clears the flag the loop runs, afterwards the loop is
    on its way out. *)
Definition owner_ok (s : eventthread) : Prop :=
  match owner_at s with
  | MIdle => joinable s = thread_lives (loop_at s) ∧ flag_is true (lp s)
  | MSeen | MCall => joinable s = true ∧ loop_at s = LLoop ∧ flag_is true (lp s)
  | MWake | MJoin => joinable s = true ∧ is_leaving (loop_at s) = true ∧ flag_is false (lp s)
  | MDead d => d = StdTerminate ∨ d = Memory UseAfterFree
  end.

Definition evt_inv (s : eventthread) : Prop := loop_ok s ∧ owner_ok s.

Lemma thread_step_inv s s' : evt_inv s → thread_step s s' → evt_inv s'.
Proof.
  intros [Hl Ho] Hs. unfold evt_inv, loop_ok, owner_ok in *.
  destruct Hs as [now p j m|w p j m|w w' p j m Hr|w p j m Hw|w p j m|w p j m]; cbn in *.
  3: { destruct Hl as [-> Hi]. destruct (idle_round _ _ Hi Hr) as [Hi' ->]. by destruct m. }
  all: destruct m; intuition (congruence || done).
Qed.

Lemma owner_step_inv s s' : evt_inv s → owner_step s s' → evt_inv s'.
Proof.
  intros [Hl Ho] Hs. unfold evt_inv, loop_ok, owner_ok in *.
  destruct Hs as [[l p j t m] Hm|[l p j t m] Hm|[l p j t m] s' Hn]; cbn in *.
  - subst m. unfold evt_run. destruct Ho as [-> Ho]. cbn. destruct t, l; cbn in *; intuition done.
  - subst m. unfold stop_test. cbn. destruct p; [|done]. destruct t, l; cbn in *; intuition congruence.
  - unfold stop_next, on_loop, wakeup in Hn.
    destruct m, t, l as [w|]; simplify_eq/=; intuition (congruence || done || subst);
      try match goal with H : running ?w = _ |- _ => rewrite H in * end; done.
Qed.

Lemma evt_reachable_inv s : reachable evt_init evt_step s → evt_inv s.
Proof.
  apply reachable_invariant.
  - intros s' ->. by split; cbn.
  - intros a b Hi [?|?]; [by eapply thread_step_inv|by eapply owner_step_inv].
Qed.

(** How many steps the thread still has once the flag is cleared. *)
Definition steps_to_end (t : lpc) : nat :=
  match t with LLoop => 3 | LLeft => 2 | LCleared => 1 | _ => 0 end.

Lemma leaving_step s s' : evt_inv s → owner_at s = MJoin → thread_step s s' →
  steps_to_end (loop_at s) = S (steps_to_end (loop_at s')) ∧ evt_inv s' ∧ owner_at s' = MJoin.
Proof.
  intros Hi Hm Hs. pose proof (thread_step_inv _ _ Hi Hs) as Hi'. destruct Hi as [_ Ho].
  unfold owner_ok in Ho. rewrite Hm in Ho. destruct Ho as (_ & Ht & Hf).
  destruct Hs as [| |w w' p j m [? ? ? ? ? ? ? ? Hrun _]| | |]; cbn in *; try done; congruence.
Qed.

Lemma leaving_enabled s : evt_inv s → owner_at s = MJoin →
  (∃ s', thread_step s s') ∨ stop_next s = Some (Evt None false false LDone MIdle).
Proof.
  intros [Hl Ho] Hm. unfold owner_ok in Ho. rewrite Hm in Ho. destruct Ho as (Hj & Ht & Hf).
  destruct s as [[w|] p j t m]; destruct t; cbn in *; try done; subst.
  - left. eexists. by constructor.
  - left. eexists. by constructor.
  - left. eexists. by constructor.
  - right. done.
Qed.

Lemma leaving_run k s s' : nsteps thread_step k s s' → evt_inv s → owner_at s = MJoin →
  (k + steps_to_end (loop_at s') = steps_to_end (loop_at s))%nat ∧ evt_inv s' ∧ owner_at s' = MJoin.
Proof.
  induction 1 as [|k a b c Hs _ IH]; intros Hi Hm; [done|].
  apply leaving_step in Hs as (He & Hi' & Hm'); [|done..].
  destruct IH as (Hk & ? & ?); [done..|]. split; [lia|done].
Qed.

(** A thread whose owner does not clear the flag. *)
Lemma thread_stays s s' : rtc thread_step s s' → evt_inv s → owner_at s = MIdle → joinable s = true →
  joinable s' = true ∧ owner_at s' = MIdle ∧ thread_lives (loop_at s') = true.
Proof.
  intros Hr Hi Hm Hj. induction Hr as [s|s b c Hs _ IH].
  - destruct Hi as [_ Ho]. unfold owner_ok in Ho. rewrite Hm in Ho. by destruct Ho as [<- _].
  - apply IH; [by eapply thread_step_inv| |]; by destruct Hs.
Qed.

(** *** The core's thread *)

Definition ct_loop_ok (s : core_threads) : Prop :=
  match active_at s, ct_lp s with
  | ANone, None | AStart, None | AStarted, None | ADone, None => ct_loop s = false
  | AMade, Some w => ct_loop s = false ∧ idle_loop w ∧ running w = true
  | AWhile, Some w | ALoop, Some w | AOut, Some w => ct_loop s = true ∧ idle_loop w ∧ running w = true
  | ACleared, Some w => ct_loop s = false
  | _, _ => False
  end.

(** The thread has set [core->loop]. *)
Definition published (a : apc) : bool :=
  match a with AWhile | ALoop | AOut | ACleared | ADone => true | _ => false end.

Definition ct_caller_ok (s : core_threads) : Prop :=
  match caller_at s with
  | CInit => active_at s = ANone ∧ ct_started s = false
  | CTimer => active_at s ≠ ANone
  | CUninit | CLoad | CWakeup | CWait => published (active_at s) = true
  | CDone => active_at s = ACleared ∨ active_at s = ADone
  | CDead f => f = NullDeref ∨ f = UseAfterFree
  end.

Definition ct_inv (s : core_threads) : Prop := ct_loop_ok s ∧ ct_caller_ok s.

Lemma active_step_inv s s' : ct_inv s → active_step s s' → ct_inv s'.
Proof.
  intros [Hl Ho] Hs. unfold ct_inv, ct_loop_ok, ct_caller_ok in *.
  destruct Hs as [l p b c|now p b c|l p b c|l p b c|w w' p b c Hr|w p b c Hw|l p b c|l p b c]; cbn in *.
  5: { destruct Hl as (-> & Hi & ?). destruct (idle_round _ _ Hi Hr) as [Hi' ->]. by destruct c. }
  all: try destruct l as [w|]; try destruct b; destruct c; cbn; intuition (congruence || done).
Qed.

Lemma caller_next_inv now junk s s' : ct_inv s → caller_next now junk s = Some s' → ct_inv s'.
Proof.
  intros [Hl Ho] Hn. unfold ct_inv, ct_loop_ok, ct_caller_ok in *. destruct s as [l p b a c].
  unfold caller_next, caller_on_loop, wakeup in Hn.
  destruct c, a, l as [w|], p; simplify_eq/=; intuition (congruence || done || subst);
    try match goal with H : running ?w = _ |- _ => rewrite H in * end; done.
Qed.

Lemma ct_reachable_inv s : reachable ct_init ct_step s → ct_inv s.
Proof.
  apply reachable_invariant.
  - intros s' ->. by split; cbn.
  - intros a b Hi [?|(now & junk & ?)]; [by eapply active_step_inv|by eapply caller_next_inv].
Qed.

(** In the loop for ever. *)
Lemma looping_stays s s' : rtc ct_step s s' → ct_inv s → active_at s = ALoop → active_at s' = ALoop ∧ ct_inv s'.
Proof.
  intros Hr Hi Ha. induction Hr as [s|s b c Hs _ IH]; [done|].
  assert (Hb : ct_inv b)
    by (destruct Hs as [?|(now & junk & ?)]; [by eapply active_step_inv|by eapply caller_next_inv]).
  apply IH; [done|]. destruct Hs as [Hs|(now & junk & Hn)].
  - destruct Hi as [Hl _]. unfold ct_loop_ok in Hl. destruct Hs; cbn in *; try done.
    destruct Hl as (_ & _ & ?). congruence.
  - destruct s as [l p st a cl]. cbn in Ha. subst a. destruct Hi as [_ Ho]. unfold ct_caller_ok in Ho.
    unfold caller_next, caller_on_loop in Hn. destruct cl, l, p; simplify_eq/=; try done; by destruct Ho.
Qed.

(** *** Schedules *)

(** The thread in its loop and the owner that has cleared the flag. *)
Definition stopping (t : lpc) (m : mpc) : eventthread :=
  let w := set_running false (eventloop_create 0) in
  match t with
  | LLoop | LLeft => Evt (Some w) true true t m
  | LCleared => Evt (Some w) false true t m
  | _ => Evt None false true t m
  end.

Lemma started_reachable : reachable evt_init evt_step (evt_run evt_create).
Proof. exists evt_create. split; [done|]. apply rtc_once. right. by apply ow_run. Qed.

Lemma stopping_reachable : reachable evt_init evt_step (stopping LLoop MWake).
Proof.
  destruct started_reachable as (s0 & H0 & Hr). exists s0. split; [done|]. etrans; [exact Hr|].
  eapply rtc_l; [left; apply (th_make 0)|]. eapply rtc_l; [left; apply th_publish|].
  eapply rtc_l; [right; by apply ow_stop|]. cbn.
  do 2 (eapply rtc_l; [right; by eapply ow_next|]; cbn). apply rtc_refl.
Qed.

Lemma leaving_reachable : reachable evt_init evt_step (stopping LDone MWake).
Proof.
  destruct stopping_reachable as (s0 & H0 & Hr). exists s0. split; [done|]. etrans; [exact Hr|].
  eapply rtc_l; [left; by apply th_leave|]. eapply rtc_l; [left; apply th_clear|].
  eapply rtc_l; [left; apply th_destroy|]. apply rtc_refl.
Qed.

(** The core's thread at its [while] or in the loop, the caller before [add_timer]
    or before [ngx_core_uninit]. *)
Definition core_published (t : apc) : core_threads :=
  Ct (Some (eventloop_create 0)) true true t CTimer.
Definition core_looping : core_threads :=
  Ct (Some (add_timer 7 (log_timer 0) (eventloop_create 0))) true true ALoop CUninit.

Lemma core_published_reachable : reachable ct_init ct_step (core_published AWhile).
Proof.
  eexists. split; [done|]. eapply rtc_l; [right; by exists 0, 0|]. cbn.
  eapply rtc_l; [left; apply ac_started|]. eapply rtc_l; [left; apply (ac_make 0)|].
  eapply rtc_l; [left; apply ac_publish|]. apply rtc_refl.
Qed.

Lemma core_looping_reachable : reachable ct_init ct_step core_looping.
Proof.
  destruct core_published_reachable as (s0 & H0 & Hr). exists s0. split; [done|]. etrans; [exact Hr|].
  eapply rtc_l; [left; apply ac_while|]. eapply rtc_l; [right; by exists 7, 0|]. apply rtc_refl.
Qed.

(** ** Properties *)

(** C12: a [stop] that has found the loop and survives the call returns: the
    thread has at most three steps left, is never stuck before it ends, and
    then [join] returns with the loop destroyed and the pointer cleared.  All
    that can go wrong anywhere is a second [run] (or the destructor) while the
    thread is joinable, or a use of the loop after its thread has ended. *)
Theorem evt_stop_joins s :
  reachable evt_init evt_step s →
  (∀ d, owner_at s = MDead d → d = StdTerminate ∨ d = Memory UseAfterFree) ∧
  (owner_at s = MJoin → ∀ k s', nsteps thread_step k s s' →
     (k ≤ 3)%nat ∧
     ((∃ s'', thread_step s' s'') ∨ stop_next s' = Some (Evt None false false LDone MIdle))).
Proof.
  intros Hi%evt_reachable_inv. split.
  - intros d Hd. destruct Hi as [_ Ho]. unfold owner_ok in Ho. by rewrite Hd in Ho.
  - intros Hm k s' (Hk & Hi' & Hm')%leaving_run; [|done..]. split; [|by apply leaving_enabled].
    destruct (loop_at s); cbn in *; lia.
Qed.

(** a [stop] that comes before the new thread has set [_loop] does nothing:
    the thread then runs for ever, unless it is stopped later, and destroying
    the object ends the program. *)
Theorem evt_early_stop_lost s :
  reachable evt_init evt_step s → owner_at s = MIdle → loop_at s = LStart ∨ loop_at s = LMade →
  stop_test s = s ∧
  ∀ s', rtc thread_step s s' → thread_lives (loop_at s') = true ∧ evt_destroy s' = Some StdTerminate.
Proof.
  intros Hi%evt_reachable_inv Hm Ht. pose proof Hi as [Hl Ho]. unfold loop_ok in Hl. unfold owner_ok in Ho.
  rewrite Hm in Ho. destruct Ho as [Hj _].
  assert (Hlive : joinable s = true) by (rewrite Hj; by destruct Ht as [-> | ->]). split.
  - unfold stop_test. destruct Ht as [Ht|Ht]; rewrite Ht in Hl; destruct (lp s); try done; [by rewrite Hl|].
    by destruct Hl as [-> _].
  - intros s' Hr. destruct (thread_stays _ _ Hr Hi Hm Hlive) as (Hj' & _ & Hlive'). split; [done|].
    unfold evt_destroy. by rewrite Hj'.
Qed.

(** C26: once the thread of the core is in the loop, [ngx_core_uninit] never
    returns, in any interleaving: waking the loop does not end it.  It returns
    only when the thread has not got that far.  Before that, the pointer may
    still be null, or the loop gone, when it is used. *)
Theorem core_uninit_hangs s :
  reachable ct_init ct_step s →
  (active_at s = ALoop → ∀ s', rtc ct_step s s' → active_at s' = ALoop ∧ caller_at s' ≠ CDone) ∧
  (caller_at s = CDone → active_at s = ACleared ∨ active_at s = ADone) ∧
  (∀ f, caller_at s = CDead f → f = NullDeref ∨ f = UseAfterFree).
Proof.
  intros Hi%ct_reachable_inv. split_and!.
  - intros Ha s' Hr. destruct (looping_stays _ _ Hr Hi Ha) as [Ha' [_ Ho]]. split; [done|].
    intros Hc. unfold ct_caller_ok in Ho. rewrite Hc, Ha' in Ho. by destruct Ho.
  - intros Hc. destruct Hi as [_ Ho]. unfold ct_caller_ok in Ho. by rewrite Hc in Ho.
  - intros f Hf. destruct Hi as [_ Ho]. unfold ct_caller_ok in Ho. by rewrite Hf in Ho.
Qed.

(** the races happen: the loop can be gone when [eventloop::stop] reads its
    flag again in [wakeup]; [ngx_core_init] can use the null [core->loop]; and
    [ngx_core_uninit] can return, when it comes before the thread is in the loop. *)
Theorem loop_thread_races :
  (∃ s, reachable evt_init evt_step s ∧ owner_at s = MDead (Memory UseAfterFree)) ∧
  (∃ s, reachable ct_init ct_step s ∧ caller_at s = CDead NullDeref) ∧
  (∃ s, reachable ct_init ct_step s ∧ caller_at s = CDone).
Proof.
  split_and!.
  - destruct leaving_reachable as (s0 & H0 & Hr). eexists. split; [exists s0; split; [done|]|].
    + eapply rtc_r; [exact Hr|]. right. by apply ow_next.
    + done.
  - eexists. split; [eexists; split; [done|]|].
    + do 2 (eapply rtc_l; [right; by exists 0, 0|]; cbn). apply rtc_refl.
    + done.
  - destruct core_published_reachable as (s0 & H0 & Hr). eexists. split; [exists s0; split; [done|]|].
    + etrans; [exact Hr|]. do 4 (eapply rtc_l; [right; by exists 7, 0|]; cbn).
      eapply rtc_l; [left; apply ac_while|]. eapply rtc_l; [left; apply ac_clear|].
      eapply rtc_l; [right; by exists 7, 0|]. apply rtc_refl.
    + done.
Qed.

(** ** Witnesses *)

Lemma joining_reachable : reachable evt_init evt_step (stopping LLoop MJoin).
Proof.
  destruct stopping_reachable as (s0 & H0 & Hr). exists s0. split; [done|].
  eapply rtc_r; [exact Hr|]. right. by apply ow_next.
Qed.

Lemma evt_stop_joins_witness : ∃ s',
  nsteps thread_step 3 (stopping LLoop MJoin) s' ∧ (3 ≤ 3)%nat ∧
  ((∃ s'', thread_step s' s'') ∨ stop_next s' = Some (Evt None false false LDone MIdle)).
Proof.
  exists (stopping LDone MJoin).
  assert (Hn : nsteps thread_step 3 (stopping LLoop MJoin) (stopping LDone MJoin)).
  { eapply nsteps_l; [by apply th_leave|]. eapply nsteps_l; [apply th_clear|].
    eapply nsteps_l; [apply th_destroy|]. constructor. }
  split; [done|]. exact (proj2 (evt_stop_joins _ joining_reachable) eq_refl 3%nat _ Hn).
Defined.

Lemma evt_early_stop_lost_witness :
  stop_test (evt_run evt_create) = evt_run evt_create ∧
  evt_destroy (evt_run evt_create) = Some StdTerminate.
Proof.
  destruct (evt_early_stop_lost _ started_reachable eq_refl (or_introl eq_refl)) as [H1 H2].
  split; [exact H1|]. by apply H2.
Defined.

Lemma core_uninit_hangs_witness : active_at core_looping = ALoop ∧ caller_at core_looping ≠ CDone.
Proof.
  apply (proj1 (core_uninit_hangs _ core_looping_reachable) eq_refl core_looping). apply rtc_refl.
Defined.
