(* ===== verification/FixedBuffer.v ===== *)
(** * A buffer that is filled and read once (basic/fixed_buffer.h)

    [FixedBuffer<N>]: bytes are appended behind [tail_] and read from [head_].
    The positions are [size_t], so the sum in [peek] wraps around.
    [shrink_to_fit] calls a function that does not exist ([memove]); a program
    that uses it does not compile, and it is left out. *)

From S2P Require Import Prelude.
Local Open Scope Z_scope.

Section fixed.
Context {byte : Type} (zero : byte) (N : nat).

Record fixed_buffer := Fixed { fx_head : Z; fx_tail : Z; fx_data : list byte }.

(** [fresh] is what the storage holds. *)
Definition fixed_create (fresh : list byte) : fixed_buffer := Fixed 0 0 (<[0%nat := zero]> fresh).

Definition fixed_length (b : fixed_buffer) : Z := wrap 64 (fx_tail b - fx_head b).
Definition fixed_empty (b : fixed_buffer) : bool := fx_head b =? fx_tail b.
Definition fixed_remaining (b : fixed_buffer) : Z := wrap 64 (Z.of_nat N - fx_tail b).

(** The new position, or null. *)
Definition fixed_peek (off : Z) (b : fixed_buffer) : option Z * fixed_buffer :=
  let pos := wrap 64 (fx_head b + off) in
  if fx_tail b <? pos then (None, b) else (Some pos, Fixed pos (fx_tail b) (fx_data b)).

Definition fixed_append (data : option (list byte)) (b : fixed_buffer) : res (bool * fixed_buffer) :=
  match data with
  | None => mret (false, b)
  | Some data =>
      if fixed_remaining b <? Z.of_nat (length data) then mret (false, b)
      else
        d ← memcpy (fx_data b) (Z.to_nat (fx_tail b)) data;
        mret (true, Fixed (fx_head b) (fx_tail b + Z.of_nat (length data)) d)
  end.

(** Copying: [data_] is copied whole. *)
Definition fixed_copy (rhs : fixed_buffer) : fixed_buffer := Fixed (fx_head rhs) (fx_tail rhs) (fx_data rhs).

(** The calls of a client, and their answers. *)
Inductive fixed_op := FAppend (data : option (list byte)) | FPeek (off : Z).
Inductive fixed_answer := AAppend (ok : bool) | APeek (rest : option (list byte)).

(** [peek] answers a pointer: the bytes from there to [tail_]. *)
Definition fixed_step (op : fixed_op) (b : fixed_buffer) : res (fixed_answer * fixed_buffer) :=
  match op with
  | FAppend data => '(ok, b) ← fixed_append data b; mret (AAppend ok, b)
  | FPeek off =>
      match fixed_peek off b with
      | (None, b) => mret (APeek None, b)
      | (Some _, b) =>
          s ← memread (fx_data b) (Z.to_nat (fx_head b)) (Z.to_nat (fixed_length b));
          mret (APeek (Some s), b)
      end
  end.

Fixpoint fixed_run (ops : list fixed_op) (b : fixed_buffer) : res (list fixed_answer * fixed_buffer) :=
  match ops with
  | [] => mret ([], b)
  | op :: ops => '(a, b) ← fixed_step op b; '(l, b) ← fixed_run ops b; mret (a :: l, b)
  end.

(** ** Specification *)

(** A tape: everything that was ever accepted, and the place of the reader,
    which moves by [off] modulo [2^64], backwards too. *)
Definition tape_step (op : fixed_op) (t : list byte * Z) : fixed_answer * (list byte * Z) :=
  let '(all, pos) := t in
  match op with
  | FAppend None => (AAppend false, t)
  | FAppend (Some data) =>
      if decide (length all + length data ≤ N)%nat then (AAppend true, (all ++ data, pos))
      else (AAppend false, t)
  | FPeek off =>
      let pos' := (pos + off) mod 2 ^ 64 in
      if decide (pos' ≤ Z.of_nat (length all)) then (APeek (Some (drop (Z.to_nat pos') all)), (all, pos'))
      else (APeek None, t)
  end.

Fixpoint tape_run (ops : list fixed_op) (t : list byte * Z) : list fixed_answer * (list byte * Z) :=
  match ops with
  | [] => ([], t)
  | op :: ops => let '(a, t) := tape_step op t in let '(l, t) := tape_run ops t in (a :: l, t)
  end.

(** The buffer holds the tape. *)
Record holds_tape (b : fixed_buffer) (t : list byte * Z) : Prop := {
  ht_data : length (fx_data b) = N;
  ht_tail : fx_tail b = Z.of_nat (length t.1) ∧ (length t.1 ≤ N)%nat;
  ht_head : fx_head b = t.2 ∧ 0 ≤ t.2 ≤ fx_tail b;
  ht_bytes : take (length t.1) (fx_data b) = t.1
}.

(** ** Lemmas *)

Context (HN : Z.of_nat N < 2 ^ 64).

Lemma append_refines data b t : holds_tape b t →
  ∃ b', fixed_step (FAppend data) b = Ok ((tape_step (FAppend data) t).1, b') ∧
    holds_tape b' (tape_step (FAppend data) t).2.
Proof.
  intros [Hd [Ht Hle] Hh Hb]. destruct t as [all pos]. cbn in *. unfold fixed_step, fixed_append.
  destruct data as [data|]; [|eexists; split; [done|]; by split].
  unfold fixed_remaining. rewrite Ht, wrap_small by lia. destruct (decide _) as [Hf|Hf].
  - rewrite (proj2 (Z.ltb_ge _ _)) by lia. rewrite Nat2Z.id.
    rewrite (proj2 (memcpy_Ok _ _ _ _)) by (split; [lia|done]). eexists. split; [done|].
    split; cbn; [by rewrite length_inserts|rewrite length_app; lia|lia|].
    by rewrite length_app, take_list_inserts, Hb by lia.
  - rewrite (proj2 (Z.ltb_lt _ _)) by lia. eexists. split; [done|]. split; cbn; [done|lia|lia|done].
Qed.

Lemma peek_refines off b t : holds_tape b t →
  ∃ b', fixed_step (FPeek off) b = Ok ((tape_step (FPeek off) t).1, b') ∧
    holds_tape b' (tape_step (FPeek off) t).2.
Proof.
  intros [Hd [Ht Hle] [Hh Hp] Hb]. destruct t as [all pos]. cbn in *. unfold fixed_step, fixed_peek.
  rewrite Hh. change (wrap 64 (pos + off)) with ((pos + off) mod 2 ^ 64).
  pose proof (Z.mod_pos_bound (pos + off) (2 ^ 64) ltac:(lia)) as Hm.
  set (pos' := (pos + off) mod 2 ^ 64) in *. destruct (decide _) as [Hf|Hf].
  - rewrite (proj2 (Z.ltb_ge _ _)) by lia. unfold fixed_length. cbn. rewrite wrap_small by lia.
    assert (Hr : memread (fx_data b) (Z.to_nat pos') (Z.to_nat (fx_tail b - pos')) = Ok (drop (Z.to_nat pos') all)).
    { apply memread_Ok. split; [lia|]. rewrite <- Hb at 1. rewrite skipn_firstn_comm. f_equal. lia. }
    rewrite Hr. eexists. split; [done|]. split; cbn; [done|lia|lia|done].
  - rewrite (proj2 (Z.ltb_lt _ _)) by lia. eexists. split; [done|]. by split.
Qed.

Lemma fixed_simulation ops b t : holds_tape b t →
  ∃ b', fixed_run ops b = Ok ((tape_run ops t).1, b') ∧ holds_tape b' (tape_run ops t).2.
Proof.
  revert b t. induction ops as [|op ops IH]; intros b t H; [by exists b|].
  assert (Hs : ∃ b', fixed_step op b = Ok ((tape_step op t).1, b') ∧ holds_tape b' (tape_step op t).2)
    by (destruct op; [by apply append_refines|by apply peek_refines]).
  destruct Hs as (b1 & Hs & H1). cbn [fixed_run tape_run]. rewrite Hs.
  destruct (tape_step op t) as [a t1]. cbn in *. destruct (IH _ _ H1) as (b2 & -> & H2).
  destruct (tape_run ops t1) as [l t2]. by exists b2.
Qed.

Lemma create_holds fresh : length fresh = N → holds_tape (fixed_create fresh) ([], 0).
Proof. intros Hf. split; cbn; [by rewrite length_insert|lia|lia|done]. Qed.

End fixed.
Arguments fixed_op : clear implicits.
Arguments fixed_answer : clear implicits.

(** ** Properties *)

(** any calls of [append] and [peek] answer what a tape answers: bytes are
    read in the order they came and none is written outside the storage; what
    was read is never made room of, so no more than [N] bytes are accepted in
    the life of a buffer; and an offset close to [2^64] moves the reader back. *)
Theorem fixed_buffer_refines_tape {byte} (zero : byte) N fresh ops :
  Z.of_nat N < 2 ^ 64 → length fresh = N →
  ∃ b, fixed_run N ops (fixed_create zero fresh) = Ok ((tape_run N ops ([], 0)).1, b) ∧
    holds_tape N b (tape_run N ops ([], 0)).2 ∧
    fixed_remaining N b = Z.of_nat N - Z.of_nat (length (tape_run N ops ([], 0)).2.1) ∧
    ∀ k, 0 < k ≤ fx_head b → (fixed_peek (2 ^ 64 - k) b).1 = Some (fx_head b - k).
Proof.
  intros HN Hf. destruct (fixed_simulation N HN ops _ _ (create_holds zero N fresh Hf)) as (b & Hr & H).
  exists b. split; [done|]. split; [done|]. destruct H as [Hd [Ht Hle] [Hh Hp] Hb]. split.
  - unfold fixed_remaining. rewrite Ht, wrap_small by lia. done.
  - intros k Hk. unfold fixed_peek. assert (wrap 64 (fx_head b + (2 ^ 64 - k)) = fx_head b - k) as ->.
    { unfold wrap. symmetry. apply (Z.mod_unique _ _ 1); lia. }
    by rewrite (proj2 (Z.ltb_ge _ _)) by lia.
Qed.

(** ** Witnesses *)

Lemma fixed_buffer_refines_tape_witness : ∃ b,
  fixed_run 4 [FAppend (Some [1; 2; 3]); FPeek 2; FAppend (Some [4; 5]); FPeek (2 ^ 64 - 1)]
    (fixed_create 0 [9; 9; 9; 9])
  = Ok ([AAppend true; APeek (Some [3]); AAppend false; APeek (Some [2; 3])], b).
Proof.
  destruct (fixed_buffer_refines_tape 0 4 [9; 9; 9; 9]
    [FAppend (Some [1; 2; 3]); FPeek 2; FAppend (Some [4; 5]); FPeek (2 ^ 64 - 1)]) as (b & H & _);
    [lia|reflexivity|]. exists b. exact H.
Defined.
