(* ===== verification/HexDump.v ===== *)
(** * The hex dump of a read/write buffer (operator<< of basic/fbuffer.h)

    The printed text, and that it determines the bytes: a reader that splits
    it at white space gets every byte back. *)

From S2P Require Import Prelude Buffers.
From Stdlib Require Import Ascii.
Local Open Scope Z_scope.

Definition text : Type := list ascii.

Definition SP : ascii := " "%char.
Definition LF : ascii := Ascii.ascii_of_nat 10.

(** ** Printing *)

Definition hex_char (d : Z) : ascii :=
  Ascii.ascii_of_nat (Z.to_nat (if d <? 10 then 48 + d else 87 + d)).

(** [std::hex] of an unsigned number of [n] digits at most. *)
Fixpoint hex_text (n : nat) (z : Z) : text :=
  match n with
  | O => []
  | S n => if z <? 16 then [hex_char z] else hex_text n (z / 16) ++ [hex_char (z mod 16)]
  end.

(** [setfill('0')] and [setw(2)]. *)
Definition setw2 (t : text) : text := replicate (2 - length t) "0"%char ++ t.

(** [static_cast<unsigned int>] of a [char], which is signed. *)
Definition char_to_uint (b : Z) : Z := wrap 32 (if b <? 128 then b else b - 256).

Definition cell (z : Z) : text := setw2 (hex_text 8 z) ++ [SP].

(** What comes before the cell at [i]. *)
Definition gap (i : nat) : text :=
  (if (negb (i =? 0) && (i mod 16 =? 0))%nat then [LF] else []) ++
  (if (negb (i =? 0) && (i mod 8 =? 0))%nat then [SP; SP] else []).

Definition header : text :=
  concat ((λ i, (if (i =? 8)%nat then [SP; SP] else []) ++ cell (Z.of_nat i)) <$> seq 0 16) ++
  [LF] ++ replicate 49 "-"%char ++ [LF].

Definition dump_byte (N : nat) (b : fbuffer Z) (i : nat) : res text :=
  x ← fb_at N i b;
  mret (gap i ++ cell (char_to_uint x)).

(** The second loop, from [i] on. *)
Fixpoint dump_from (N : nat) (b : fbuffer Z) (i n : nat) : res text :=
  match n with
  | O => mret []
  | S n => t ← dump_byte N b i; r ← dump_from N b (S i) n; mret (t ++ r)
  end.

Definition fb_dump (N : nat) (b : fbuffer Z) : res text :=
  t ← dump_from N b 0 (fb_length N b);
  mret (header ++ t ++ [LF]).

(** ** Reading *)

Definition blank (c : ascii) : bool := bool_decide (c = SP) || bool_decide (c = LF).

(** The words of a text; [cur] is the one under way. *)
Fixpoint words_from (cur : text) (t : text) : list text :=
  match t with
  | [] => match cur with [] => [] | _ => [cur] end
  | c :: t =>
      if blank c then match cur with [] => words_from [] t | _ => cur :: words_from [] t end
      else words_from (cur ++ [c]) t
  end.

Definition words : text → list text := words_from [].

Definition hex_value (c : ascii) : Z :=
  let n := Z.of_nat (Ascii.nat_of_ascii c) in if n <? 58 then n - 48 else n - 87.

Definition read_byte (w : text) : Z := foldl (λ z c, z * 16 + hex_value c) 0 w mod 256.

(** The 17 words of the header are skipped. *)
Definition read_dump (t : text) : list Z := read_byte <$> drop 17 (words t).

(** ** Lemmas *)

Definition word (w : text) : bool := negb (bool_decide (w = [])) && forallb (λ c, negb (blank c)) w.

Lemma words_from_word w cur t : forallb (λ c, negb (blank c)) w = true →
  words_from cur (w ++ t) = words_from (cur ++ w) t.
Proof.
  revert cur. induction w as [|c w IH]; intros cur H; simpl; [by rewrite app_nil_r|].
  apply andb_true_iff in H as [Hc H]. rewrite (proj1 (negb_true_iff _) Hc), IH by done.
  by rewrite <- app_assoc.
Qed.

Lemma words_blank ws t : forallb blank ws = true → words (ws ++ t) = words t.
Proof.
  induction ws as [|c ws IH]; intros H; [done|]. apply andb_true_iff in H as [Hc H].
  unfold words. simpl. rewrite Hc. by apply IH.
Qed.

Lemma words_cell w t : word w = true → words (w ++ SP :: t) = w :: words t.
Proof.
  unfold word. intros [Hne H]%andb_true_iff. unfold words. rewrite words_from_word by done.
  rewrite app_nil_l. cbn [words_from]. change (blank SP) with true. cbn iota. by destruct w.
Qed.

Lemma gap_blank i : forallb blank (gap i) = true.
Proof. unfold gap. by destruct (_ && _)%nat, (_ && _)%nat. Qed.

(** The 256 cells. *)
Lemma cells_ok : forallb (λ z, word (setw2 (hex_text 8 (char_to_uint z))) &&
    (read_byte (setw2 (hex_text 8 (char_to_uint z))) =? z)) (Z.of_nat <$> seq 0 256) = true.
Proof. vm_compute. reflexivity. Qed.

Lemma cell_ok z : 0 ≤ z < 256 →
  word (setw2 (hex_text 8 (char_to_uint z))) = true ∧ read_byte (setw2 (hex_text 8 (char_to_uint z))) = z.
Proof.
  intros Hz. pose proof (proj1 (forallb_forall _ _) cells_ok z) as H.
  destruct (proj1 (andb_true_iff _ _) (H ltac:(
    apply list_elem_of_In, list_elem_of_fmap; exists (Z.to_nat z); split; [lia|apply elem_of_seq; lia]))) as [H1 H2].
  split; [exact H1|by apply Z.eqb_eq].
Qed.

Lemma words_header t : drop 17 (words (header ++ t)) = words t.
Proof.
  assert (words (header ++ t) = words (concat ((λ i, (if (i =? 8)%nat then [SP; SP] else []) ++ cell (Z.of_nat i)) <$> seq 0 16)
    ++ [LF] ++ replicate 49 "-"%char ++ LF :: t)) as ->.
  { unfold header. by rewrite <- !app_assoc. }
  vm_compute. reflexivity.
Qed.

Lemma dump_from_words N b : ∀ n i bytes t,
  (∀ j x, bytes !! j = Some x → 0 ≤ x < 256 ∧ fb_at N (i + j) b = Ok x) → length bytes = n →
  ∃ d, dump_from N b i n = Ok d ∧ read_byte <$> words (d ++ t) = bytes ++ (read_byte <$> words t).
Proof.
  induction n as [|n IH]; intros i bytes t Hb Hl; [destruct bytes; [by eexists|done]|].
  destruct bytes as [|x bytes]; [done|]. destruct (Hb 0%nat x eq_refl) as [Hx Hat]. rewrite Nat.add_0_r in Hat.
  destruct (IH (S i) bytes t) as (d & Hd & Hw); [|by injection Hl|].
  { intros j y Hj. replace (S i + j)%nat with (i + S j)%nat by lia. by apply (Hb (S j)). }
  cbn [dump_from]. unfold dump_byte. rewrite Hat. cbn [mbind res_bind mret res_ret]. rewrite Hd.
  eexists. split; [reflexivity|]. destruct (cell_ok x Hx) as [Hword Hread].
  rewrite <- !app_assoc, words_blank by apply gap_blank. unfold cell. rewrite <- !app_assoc.
  change ([SP] ++ d ++ t) with (SP :: d ++ t). rewrite words_cell by done. cbn [fmap list_fmap app].
  by rewrite Hread, Hw.
Qed.

(** ** Theorem *)

(** for any buffer in a good state the dump is printed without an access out
    of bounds, and it determines the contents: reading the words after the
    header back as bytes gives the buffer's bytes, those above 127 too, which
    the code prints with eight digits. *)
Theorem fbuffer_dump_roundtrip N b :
  fb_ok N b → Forall (λ x, 0 ≤ x < 256) (fb_contents b) →
  ∃ t, fb_dump N b = Ok t ∧ read_dump t = fb_contents b.
Proof.
  intros Hok Hbytes. pose proof (fb_split N b Hok) as Hlen. destruct Hok as (Hl & Hht & Ht).
  destruct (dump_from_words N b (fb_length N b) 0 (fb_contents b) [LF]) as (d & Hd & Hw); [|done|].
  { intros j x Hj. split; [by apply (proj1 (Forall_lookup _ _) Hbytes j)|].
    unfold fb_contents in Hj. rewrite lookup_drop in Hj. apply lookup_take_Some in Hj as [Hj Hlt].
    unfold fb_at. rewrite Nat.add_0_l, Nat.mod_small by lia. by rewrite Hj. }
  unfold fb_dump. rewrite Hd. eexists. split; [reflexivity|].
  unfold read_dump. rewrite words_header, Hw. by rewrite app_nil_r.
Qed.

(** ** Witness *)

Lemma fbuffer_dump_roundtrip_witness :
  ∃ t, fb_dump 4 (Fbuf [1; 65; 200; 9] 1 3) = Ok t ∧ read_dump t = [65; 200] ∧
    drop (length header) t = ["4"; "1"; " "; "f"; "f"; "f"; "f"; "f"; "f"; "c"; "8"; " "; LF]%char.
Proof.
  destruct (fbuffer_dump_roundtrip 4 (Fbuf [1; 65; 200; 9] 1 3)) as (t & Ht & Hr).
  - split; [reflexivity|]. cbn. lia.
  - repeat constructor; lia.
  - exists t. split; [exact Ht|]. split; [exact Hr|]. vm_compute in Ht. injection Ht as <-. vm_compute. reflexivity.
Defined.
