(* ===== verification/SyncRace.v ===== *)
(** * Asynchronous results between threads (basic/async_result_syncer.h)

    [Synchronizer] takes a notification and the end of a wait as one step each.
    Only the map is locked in the code; a [SyncData] is used through a reference
    after the lock is released.  Here every locked block and every access to a
    [SyncData] is a step of its own, for any number of threads that each make
    one call for the same id. *)

From S2P Require Import Prelude Synchronizer.
Local Open Scope Z_scope.

Section race.
Context {T : Type} (id : Z).

(** Where a call is: [notify] before [create_sync_data], before
    [get_sync_data], before the test of [set], before [set_value], before the
    assignment of [is_set_]; [wait_for] before [create_sync_data], before
    [get_sync_data], waiting, before the assignment of [is_get_], before
    [remove_sync_data]; returned, with what a wait has got; ended by an
    exception or by undefined behaviour. *)
Inductive call :=
| NCreate (v : T) | NRef (v : T) | NTest (v : T) (g : nat) | NSet (v : T) (g : nat) | NFlag (g : nat)
| WCreate | WRef | WWait (g : nat) | WFlag (v : T) (g : nat) | WRemove (v : T)
| Returned (got : option T) | Threw (e : exn) | Broke (f : fault).

(** [sync_data_map_[id]] makes an entry when there is none. *)
Definition entry_ref (p : SyncPair T) : res (nat * SyncPair T) :=
  let p := create_sync_data id p in
  g ← get_sync_data id p;
  mret (g, p).

Definition next_call (c : call) (p : SyncPair T) : option (res (call * SyncPair T)) :=
  match c with
  | NCreate v => Some (Ok (NRef v, create_sync_data id p))
  | NRef v => Some ('(g, p) ← entry_ref p; mret (NTest v g, p))
  | NTest v g =>
      Some (d ← follow id g p;
            mret (if valid (cell d) && negb (is_set d) then NSet v g else Returned None, p))
  | NSet v g =>
      Some (d ← follow id g p;
            s ← set_value v (cell d);
            mret (NFlag g, store id g (MkSync s (is_set d) (is_get d)) p))
  | NFlag g =>
      Some (d ← follow id g p;
            mret (Returned None, store id g (MkSync (cell d) true (is_get d)) p))
  | WCreate => Some (Ok (WRef, create_sync_data id p))
  | WRef => Some ('(g, p) ← entry_ref p; mret (WWait g, p))
  | WWait g =>
      match follow id g p with
      | Ok d =>
          match wait_ready (cell d) with
          | Ok true =>
              Some (if valid (cell d) && negb (is_get d) then
                      '(v, s) ← future_get (cell d);
                      v ← deref Uninitialised v;
                      mret (WFlag v g, store id g (MkSync s (is_set d) (is_get d)) p)
                    else mret (Returned None, p))
          | Ok false => None
          | Throw e => Some (Throw e)
          | Fault f => Some (Fault f)
          | NoFuel => Some NoFuel
          end
      | Throw e => Some (Throw e)
      | Fault f => Some (Fault f)
      | NoFuel => Some NoFuel
      end
  | WFlag v g =>
      Some (d ← follow id g p;
            mret (WRemove v, store id g (MkSync (cell d) (is_set d) true) p))
  | WRemove v => Some (Ok (Returned (Some v), remove_sync_data id p))
  | Returned _ | Threw _ | Broke _ => None
  end.

(** A step of one of the threads; a waiting one may also time out. *)
Inductive race_step : SyncPair T * list call → SyncPair T * list call → Prop :=
| rs_next i c p c' p' cs :
    cs !! i = Some c → next_call c p = Some (Ok (c', p')) → race_step (p, cs) (p', <[i := c']> cs)
| rs_throw i c p e cs :
    cs !! i = Some c → next_call c p = Some (Throw e) → race_step (p, cs) (p, <[i := Threw e]> cs)
| rs_fault i c p f cs :
    cs !! i = Some c → next_call c p = Some (Fault f) → race_step (p, cs) (p, <[i := Broke f]> cs)
| rs_timeout i g p cs :
    cs !! i = Some (WWait g) → next_call (WWait g) p = None →
    race_step (p, cs) (p, <[i := Returned None]> cs).

(** ** One notification and one wait *)

Definition stored (n : call) : bool :=
  match n with NFlag _ | Returned _ => true | _ => false end.
Definition returned (n : call) : bool := match n with Returned _ => true | _ => false end.
Definition taken (w : call) : bool :=
  match w with WFlag _ _ | WRemove _ | Returned (Some _) => true | _ => false end.
Definition flagged (w : call) : bool :=
  match w with WRemove _ | Returned (Some _) => true | _ => false end.

(** The entry when the notifier and the waiter are at [n] and [w]. *)
Definition entry_at (v : T) (n w : call) : SyncData T :=
  MkSync (Shared (if stored n then Some v else None) (negb (taken w))) (returned n) (flagged w).

Definition notifier_at (v : T) (n : call) : Prop :=
  n = NCreate v ∨ n = NRef v ∨ n = NTest v 0 ∨ n = NSet v 0 ∨ n = NFlag 0 ∨ n = Returned None.
Definition waiter_at (v : T) (w : call) : Prop :=
  w = WCreate ∨ w = WRef ∨ w = WWait 0 ∨ w = WFlag v 0 ∨ w = WRemove v ∨ w = Returned (Some v) ∨
  w = Returned None.

Definition fresh_calls (n w : call) : bool :=
  match n, w with NCreate _, WCreate => true | _, _ => false end.

Definition pair_at (seq : Z) (v : T) (n w : call) : SyncPair T :=
  if fresh_calls n w then pair_new seq
  else Pair {[id := (0%nat, entry_at v n w)]} 1 seq.

(** Everything that the two threads can reach. *)
Definition exchange_inv (seq : Z) (v : T) (s : SyncPair T * list call) : Prop :=
  ∃ n w, s.2 = [n; w] ∧ notifier_at v n ∧ waiter_at v w ∧ (taken w = true → stored n = true) ∧
    (s.1 = pair_at seq v n w ∨
     s.1 = Pair ∅ 1 seq ∧ n = Returned None ∧ w = Returned (Some v)).

(** How many steps a call still has at most. *)
Definition calls_left (c : call) : nat :=
  match c with
  | NCreate _ | WCreate => 5 | NRef _ | WRef => 4 | NTest _ _ | WWait _ => 3
  | NSet _ _ | WFlag _ _ => 2 | NFlag _ | WRemove _ => 1
  | Returned _ | Threw _ | Broke _ => 0
  end.

(** An id that no call can use any more: its future was emptied, but its entry
    is still there. *)
Definition poisoned (p : SyncPair T) : Prop :=
  (∃ g p', wait_for_begin id p = Ok (g, p') ∧ ∀ out, wait_for_end out id g p' = Throw FutureError) ∧
  (∀ v', ∃ p', pair_notify id v' p = Ok p' ∧ sync_data_map p' !! id = sync_data_map p !! id).

(** ** Lemmas *)

Lemma follow_single g (d : SyncData T) c seq : follow id g (Pair {[id := (g, d)]} c seq) = Ok d.
Proof. unfold follow. cbn. rewrite lookup_singleton_eq. by rewrite decide_True. Qed.

Lemma create_single g (d : SyncData T) c seq :
  create_sync_data id (Pair {[id := (g, d)]} c seq) = Pair {[id := (g, d)]} c seq.
Proof. unfold create_sync_data. cbn. by rewrite lookup_singleton_eq. Qed.

Lemma create_new seq : create_sync_data id (pair_new seq) = Pair {[id := (0%nat, @new_data T)]} 1 seq.
Proof. unfold create_sync_data. cbn. by rewrite lookup_empty. Qed.

Lemma entry_ref_single g (d : SyncData T) c seq :
  entry_ref (Pair {[id := (g, d)]} c seq) = Ok (g, Pair {[id := (g, d)]} c seq).
Proof. unfold entry_ref. rewrite create_single. unfold get_sync_data. cbn. by rewrite lookup_singleton_eq. Qed.

Lemma store_single g (d d' : SyncData T) c seq : store id g d' (Pair {[id := (g, d)]} c seq) = Pair {[id := (g, d')]} c seq.
Proof. unfold store. cbn. by rewrite insert_singleton_eq. Qed.

Lemma remove_single g (d : SyncData T) c seq :
  remove_sync_data id (Pair {[id := (g, d)]} c seq) =
    if is_done d then Pair ∅ c seq else Pair {[id := (g, d)]} c seq.
Proof.
  unfold remove_sync_data. cbn. rewrite lookup_singleton_eq. destruct (is_done d); [|done].
  by rewrite delete_singleton_eq.
Qed.

(** Evaluates a call on the entry of its id. *)
Ltac run_call :=
  cbn [next_call pair_at fresh_calls];
  rewrite ?create_new, ?create_single, ?entry_ref_single, ?follow_single;
  cbn -[follow store create_sync_data remove_sync_data entry_ref];
  rewrite ?store_single, ?remove_single.

(** The next point of each of the two calls. *)
Definition after_notify (n : call) : call :=
  match n with
  | NCreate v => NRef v | NRef v => NTest v 0 | NTest v _ => NSet v 0 | NSet _ _ => NFlag 0
  | _ => Returned None
  end.
Definition after_wait (v : T) (w : call) : call :=
  match w with
  | WCreate => WRef | WRef => WWait 0 | WWait _ => WFlag v 0 | WFlag v _ => WRemove v
  | _ => Returned (Some v)
  end.

Lemma notifier_next seq v n w :
  notifier_at v n → waiter_at v w → (taken w = true → stored n = true) → n ≠ Returned None →
  let n' := after_notify n in
  next_call n (pair_at seq v n w) = Some (Ok (n', pair_at seq v n' w)) ∧ notifier_at v n' ∧
    (taken w = true → stored n' = true) ∧ (calls_left n' < calls_left n)%nat.
Proof.
  unfold notifier_at, waiter_at. intros Hn Hw Hs Hr.
  destruct Hn as [->|[->|[->|[->|[->| ->]]]]]; [..|done];
    destruct Hw as [->|[->|[->|[->|[->|[->| ->]]]]]]; try (by specialize (Hs eq_refl));
    (split; [run_call; reflexivity|]; split_and!; [cbn; by auto 10|done|cbn; lia]).
Qed.

Lemma waiter_next seq v n w :
  notifier_at v n → waiter_at v w → (taken w = true → stored n = true) → returned w = false →
  (w = WWait 0 ∧ stored n = false ∧ next_call w (pair_at seq v n w) = None) ∨
  let w' := after_wait v w in
  ∃ p', next_call w (pair_at seq v n w) = Some (Ok (w', p')) ∧
    (p' = pair_at seq v n w' ∨ p' = Pair ∅ 1 seq ∧ n = Returned None ∧ w' = Returned (Some v)) ∧
    waiter_at v w' ∧ (taken w' = true → stored n = true) ∧ (calls_left w' < calls_left w)%nat.
Proof.
  unfold notifier_at, waiter_at. intros Hn Hw Hs Hr.
  destruct Hw as [->|[->|[->|[->|[->|[->| ->]]]]]]; try done;
    destruct Hn as [->|[->|[->|[->|[->| ->]]]]]; try (by specialize (Hs eq_refl));
    first [ left; split_and!; [done|done|by run_call]
          | right; eexists; split; [run_call; reflexivity|];
            split_and!; [first [by left|by right]|cbn; by auto 10|done|cbn; lia] ].
Qed.

Definition total_left (s : SyncPair T * list call) : nat := sum_list (calls_left <$> s.2).

Lemma exchange_start seq v : exchange_inv seq v (pair_new seq, [NCreate v; WCreate]).
Proof.
  exists (NCreate v), WCreate. unfold notifier_at, waiter_at. split_and!; [done|by left|by left|done|by left].
Qed.

(** Two threads: which of them is at what place. *)
Lemma two_lookup {A} (a b c : A) i : [a; b] !! i = Some c → (i = 0%nat ∧ c = a) ∨ (i = 1%nat ∧ c = b).
Proof. destruct i as [|[|i]]; cbn; naive_solver. Qed.

Lemma race_step_cases p cs s' : race_step (p, cs) s' →
  ∃ i c, cs !! i = Some c ∧
    ((∃ c' p', next_call c p = Some (Ok (c', p')) ∧ s' = (p', <[i := c']> cs)) ∨
     (∃ e, next_call c p = Some (Throw e)) ∨ (∃ f, next_call c p = Some (Fault f)) ∨
     (∃ g, c = WWait g ∧ next_call c p = None ∧ s' = (p, <[i := Returned None]> cs))).
Proof.
  inversion 1 as [i c ? c' p' ? Hc Hn|i c ? e ? Hc Hn|i c ? f ? Hc Hn|i g ? ? Hc Hn]; subst;
    exists i; eexists; (split; [exact Hc|]); eauto 10.
Qed.

(** A timeout does not change the entry. *)
Lemma pair_at_timeout seq v n : pair_at seq v n (Returned None) = pair_at seq v n (WWait 0).
Proof. by destruct n. Qed.

Lemma exchange_step seq v s s' :
  exchange_inv seq v s → race_step s s' → exchange_inv seq v s' ∧ (total_left s' < total_left s)%nat.
Proof.
  destruct s as [p cs]. intros (n & w & Hcs & Hn & Hw & Htk & Hp) Hs. cbn in Hcs, Hp. subst cs.
  apply race_step_cases in Hs as (i & c & Hi & Hs). unfold total_left, exchange_inv.
  destruct Hp as [->|(-> & -> & ->)].
  2: { apply two_lookup in Hi as [[-> ->]|[-> ->]]; cbn in Hs; naive_solver. }
  apply two_lookup in Hi as [[-> ->]|[-> ->]].
  - destruct (decide (returned n = true)) as [Hr|Hr].
    { destruct Hn as [->|[->|[->|[->|[->| ->]]]]]; try done. cbn in Hs; naive_solver. }
    destruct (notifier_next seq v n w Hn Hw Htk) as (He & Hn' & Htk' & Hl); [by intros ->|].
    rewrite He in Hs. destruct Hs as [(c' & p' & [= <- <-] & ->)|[[? ?]|[[? ?]|(? & _ & ? & _)]]]; [|done..].
    cbn [fst snd list_insert insert fmap list_fmap sum_list sum_list_with foldr] in *.
    split; [|cbn; lia]. exists (after_notify n), w. by split_and!; [..|left].
  - destruct (returned w) eqn:Hr.
    { destruct Hw as [->|[->|[->|[->|[->|[->| ->]]]]]]; try done; cbn in Hs; naive_solver. }
    destruct (waiter_next seq v n w Hn Hw Htk Hr) as [(-> & Hst & He)|(p1 & He & Hp1 & Hw' & Htk' & Hl)];
      rewrite He in Hs.
    + destruct Hs as [(? & ? & ? & _)|[[? ?]|[[? ?]|(g & _ & _ & ->)]]]; [done..|].
      split; [|cbn; lia]. exists n, (Returned None). unfold waiter_at.
      split_and!; [done|done|by auto 10|done|left]. symmetry. apply pair_at_timeout.
    + destruct Hs as [(c' & p' & [= <- <-] & ->)|[[? ?]|[[? ?]|(? & _ & ? & _)]]]; [|done..].
      split; [|cbn; lia]. by exists n, (after_wait v w).
Qed.

Lemma exchange_run seq v k s s' : nsteps race_step k s s' → exchange_inv seq v s →
  exchange_inv seq v s' ∧ (k + total_left s' ≤ total_left s)%nat.
Proof.
  induction 1 as [|k a b c Hs _ IH]; intros Hi; [done|].
  destruct (exchange_step _ _ _ _ Hi Hs) as [Hi' Hl]. destruct (IH Hi') as [? ?]. split; [done|lia].
Qed.

(** Until both have returned one of them can go on. *)
Lemma exchange_progress seq v s : exchange_inv seq v s →
  (∃ s', race_step s s') ∨ ∃ got, s.2 = [Returned None; Returned got] ∧ (got = None ∨ got = Some v).
Proof.
  destruct s as [p cs]. intros (n & w & Hcs & Hn & Hw & Htk & Hp). cbn in Hcs, Hp. subst cs.
  destruct Hp as [->|(-> & -> & ->)]; [|right; by eauto].
  destruct (decide (returned n = true)) as [Hr|Hr].
  - assert (n = Returned None) as -> by (destruct Hn as [->|[->|[->|[->|[->| ->]]]]]; done).
    destruct (returned w) eqn:Hrw.
    { right. destruct Hw as [->|[->|[->|[->|[->|[->| ->]]]]]]; try done; eauto. }
    left. destruct (waiter_next seq v _ w Hn Hw Htk Hrw) as [(-> & Hst & He)|(p1 & He & _)].
    + eexists. by eapply (rs_timeout 1).
    + eexists. by eapply (rs_next 1).
  - left. destruct (notifier_next seq v n w Hn Hw Htk) as (He & _); [by intros ->|].
    eexists. by eapply (rs_next 0).
Qed.

(** The entry after both have returned. *)
Lemma mail_waiting seq v : ∃ g p', wait_for_begin id (pair_at seq v (Returned None) (Returned None)) = Ok (g, p') ∧
  ∀ out, ∃ p'', wait_for_end out id g p' = Ok (true, v, p'').
Proof.
  exists 0%nat, (pair_at seq v (Returned None) (Returned None)). cbn [pair_at fresh_calls]. split.
  - apply entry_ref_single.
  - intros out. unfold wait_for_end. rewrite follow_single. eexists. by cbn.
Qed.

Lemma entry_poisoned seq v : poisoned (pair_at seq v (Returned None) (Returned (Some v))).
Proof.
  cbn [pair_at fresh_calls]. split.
  - eexists _, _. split; [apply entry_ref_single|]. intros out. unfold wait_for_end. by rewrite follow_single.
  - intros v'. unfold pair_notify. rewrite create_single. unfold get_sync_data. cbn [sync_data_map].
    rewrite lookup_singleton_eq. cbn. rewrite follow_single. cbn -[store]. rewrite store_single.
    eexists. split; [reflexivity|]. apply lookup_singleton_eq.
Qed.

(** The schedules of the two races. *)
Lemma overtaking_run seq v :
  ∃ s, rtc race_step (pair_new seq, [NCreate v; WCreate]) s ∧
    s.2 = [Returned None; Returned (Some v)] ∧ poisoned s.1.
Proof.
  exists (pair_at seq v (Returned None) (Returned (Some v)), [Returned None; Returned (Some v)]).
  split; [|split; [done|apply entry_poisoned]].
  do 4 (eapply rtc_l; [eapply (rs_next 0); [done|run_call; reflexivity]|]; cbn).
  do 5 (eapply rtc_l; [eapply (rs_next 1); [done|run_call; reflexivity]|]; cbn).
  eapply rtc_l; [eapply (rs_next 0); [done|run_call; reflexivity]|]. apply rtc_refl.
Qed.

Lemma double_notify_run seq v v' :
  ∃ s, rtc race_step (pair_new seq, [NCreate v; NCreate v']) s ∧ Threw FutureError ∈ s.2.
Proof.
  eexists. split.
  - do 3 (eapply rtc_l; [eapply (rs_next 0); [done|run_call; reflexivity]|]; cbn).
    do 4 (eapply rtc_l; [eapply (rs_next 1); [done|run_call; reflexivity]|]; cbn).
    eapply rtc_l; [eapply (rs_throw 0); [done|run_call; reflexivity]|]. apply rtc_refl.
  - cbn. apply elem_of_cons. by left.
Qed.

End race.

(** ** Properties *)

(** C18: one notification and one timed wait of the same id, in any interleaving
    of their locked blocks and accesses: nobody throws or follows a dead
    reference, one of them can always go on until both have returned after at
    most ten steps, and the value is not lost: the wait returns it, or it has
    timed out and the next wait does.  A returned wait leaves the id free, or
    poisoned. *)
Theorem exchange_delivers {T} (id seq : Z) (v : T) k s :
  nsteps (race_step id) k (pair_new seq, [NCreate v; WCreate]) s →
  (k ≤ 10)%nat ∧ (∀ c, c ∈ s.2 → (∀ e, c ≠ Threw e) ∧ ∀ f, c ≠ Broke f) ∧
  ((∃ s', race_step id s s') ∨
   (s.2 = [Returned None; Returned (Some v)] ∧ (s.1 = Pair ∅ 1 seq ∨ poisoned id s.1)) ∨
   (s.2 = [Returned None; Returned None] ∧
    ∃ g p', wait_for_begin id s.1 = Ok (g, p') ∧ ∀ out, ∃ p'', wait_for_end out id g p' = Ok (true, v, p''))).
Proof.
  intros Hr. destruct (exchange_run id seq v k _ _ Hr (exchange_start id seq v)) as [Hi Hk].
  split; [cbn in Hk; lia|]. split.
  - destruct Hi as (n & w & -> & Hn & Hw & _). intros c [->|[->|[]%elem_of_nil]%elem_of_cons]%elem_of_cons.
    + by destruct Hn as [->|[->|[->|[->|[->| ->]]]]].
    + by destruct Hw as [->|[->|[->|[->|[->|[->| ->]]]]]].
  - destruct (exchange_progress id seq v s Hi) as [?|(got & Hs & Hg)]; [by left|right].
    destruct Hi as (n & w & Hs' & _ & _ & _ & Hp). rewrite Hs in Hs'. simplify_eq.
    destruct Hp as [Hp|(Hp & _ & [= ->])].
    + destruct Hg as [->| ->]; [right|left]; (split; [done|]); rewrite Hp.
      * apply mail_waiting.
      * right. apply entry_poisoned.
    + left. by auto.
Qed.

(** the wait can overtake the notifier between its store of the value and
    its flag: the entry is then left behind, and every later wait of the id
    throws and every later notification is dropped.  Two notifications of one id
    can both pass the test of the flag, and one of them throws. *)
Theorem exchange_races {T} (id seq : Z) (v v' : T) :
  (∃ s, rtc (race_step id) (pair_new seq, [NCreate v; WCreate]) s ∧
     s.2 = [Returned None; Returned (Some v)] ∧ poisoned id s.1) ∧
  (∃ s, rtc (race_step id) (pair_new seq, [NCreate v; NCreate v']) s ∧ Threw FutureError ∈ s.2).
Proof. split; [apply overtaking_run|apply double_notify_run]. Qed.

(** ** Witnesses *)

(** The run of [exchange_races]: at the end the wait has returned the value, after
    at most ten steps, and whoever waits next finds the id free or poisoned. *)
Lemma exchange_delivers_witness :
  ∃ k s, nsteps (race_step 7) k (pair_new 0, [NCreate 5; WCreate]) s ∧ (0 < k ≤ 10)%nat ∧
    s.2 = [Returned None; Returned (Some 5)] ∧ (s.1 = Pair ∅ 1 0 ∨ poisoned 7 s.1).
Proof.
  destruct (overtaking_run 7 0 5) as (s & [k Hk]%rtc_nsteps_1 & Hs & Hp).
  destruct (exchange_delivers 7 0 5 k s Hk) as (Hle & _ & _).
  exists k, s. split; [done|]. split; [|split; [done|by right]]. split; [|done].
  destruct k; [|lia]. inversion Hk; subst. discriminate.
Defined.
